(* ===== verification/_CoqProject ===== *)
-Q . S2P
Prelude.v
Machine.v
Logic.v
Pthread.v
QueueCommon.v
QueueBase.v
QueueMutex.v
QueueSpin.v
QueueUsleep.v
QueueSem.v
QueueShared.v
QueueCond.v
Counter.v
ListCommon.v
ListRw.v
ListSpin.v
ListMutex.v
CString.v
Steps.v
QueueLive.v
FutexLive.v
ListLive.v
ReverseTool.v
ProxyCache.v
ProxyLocks.v
Proxy.v
ProxyServe.v
ProxyLive.v
ProxySession.v
SetCommands.v
SetEffects.v
MyThread.v
MyThreadMain.v
ThreadStart.v
ThreadCancel.v
ThreadSignals.v
Uthread.v
Echo.v
MemoryDemos.v
ProcessDemos.v
HelloDemos.v
