(* ===== verification/Prelude.v ===== *)
(** * NSU-os: a verification of the course programs

    The repository is a collection of C programs written for an operating-
    systems course.  This development models the ones that carry logic of
    their own and proves what they promise.  Sources are named relative to
    [src/].

    ** The threaded programs

    They run on the abstract machine of [Machine.v]: cells addressed by block
    and offset, one atomic operation per step, thread programs as a typed
    resumption monad [prog], a pool of threads that any scheduler may
    interleave ([cstep]), and the choices of the environment (does [malloc]
    fail, does a wait wake up spuriously) as an argument of every step.  What C
    leaves undefined (a wild or freed address, an indeterminate value, a lock
    released by nobody, a double [free]) is a fault: [faulting].  [run_sched]
    executes a schedule, so a faulty interleaving is found by computation.
    [Logic.v] is an Iris program logic for the machine with its adequacy
    theorem [pool_safe]: a verified pool never faults and prints good events
    only, in every interleaving.  [Pthread.v] is the C library the programs
    use (loads and stores, [malloc], POSIX threads, mutexes, spin locks,
    semaphores, read-write locks, condition variables) with a specification
    for each call, and [LockCell], the interface a lock offers to the code it
    protects.  No theorem is conditional on termination of a program that
    loops for ever: safety is stated of every reachable state.

    - [QueueCommon.v]: the queue of [semestr2/Task2] as all its variants write
      it, its representation predicate [queue_at], the abstract bounded FIFO
      [fifo] it implements, and the proofs the variants share ([QueueSpec] is
      what a queue promises to the writer and the reader threads).
    - [QueueBase.v]: [Task2_1], the queue without a lock: it refines [fifo] for
      one thread, and has a use after free and a lost value with two.
    - [QueueMutex.v], [QueueSpin.v], [QueueUsleep.v], [QueueSem.v],
      [QueueShared.v], [QueueCond.v]: the variants of [Task2_2].  Each models
      its two C files function by function.  With room for the three threads and
      for every interleaving, nothing goes wrong in the spin-lock, condition-
      variable and sleeping variants from [main] on: the reader gets exactly 0,
      1, 2, ... and the sizes the monitor prints are in range.  The other three
      are undefined as they are written, and the theorems say where and what
      holds otherwise: [QueueMutex] uses a mutex attribute that is never
      initialised (and is safe with one that is), the monitor of [QueueSem] may
      wait on a semaphore that is not one yet (and all is safe once [main] has
      got through [init_sem] first), [QueueShared] hands a null pointer to
      [sem_init].  What happens when a thread cannot be created is stated too.
    - [Counter.v]: [Task2_4], a spin lock and a futex mutex built from
      compare-and-swap, with the exact value of the counter they protect.
    - [QueueLive.v], [FutexLive.v], [ListLive.v]: liveness, on step machines of
      [Steps.v] whose steps are the synchronisation calls.  The queue with a
      condition variable passes the next value within fifteen steps, whatever
      the scheduler does ([handoff_rate]; three more for each spurious wake-up),
      and never has both threads asleep; the
      program on the futex mutex ends, for any number of threads
      ([futex_finishes]); the walks over the locked list never deadlock and are
      completed at a bounded rate, not counting the random numbers that are
      drawn again ([list_never_stops]).

    Names follow the sources: a C function [f] is a definition [f] of the file
    of its variant, a field of a structure is its offset.  [int] and [long]
    arithmetic wraps (below).  Where a thread is created, [slots] is the number
    of threads the system still grants; the safety theorems of programs that
    ignore or mishandle a failing [pthread_create] assume enough of them, and
    say so.  Blocking calls are loops around an attempt.

    ** The caching proxy

    [semestr2/Task3] is a state machine of its own, since most of what happens
    in it is the answer of a system call.

    - [ProxyCache.v]: [header/cache_list.h] on an explicit heap of nodes: the
      hash (a polynomial in 33 modulo [2 ^ 64], with its collisions), search,
      append and destruction.  [cache_refines_map]: for every sequence of
      stores and lookups the list answers like a map from hashes to answers,
      and is undefined exactly where an answer is too long or the hash looked up
      is the one the head of the list was never given.  Loops over the list have
      fuel [S (size h)], enough for any acyclic list of [h] ([chain_length]).
    - [ProxyLocks.v]: the list again under [cache_mutex], one statement a step
      and any number of threads: linearizable to that map, without a deadlock,
      and the mutex is always given back ([cache_mutex_atomic]).  The machine of
      [Proxy.v] therefore makes a critical section one step.
    - [Proxy.v]: [src/main.c], [src/proxy.c], [src/server.c].  The main thread
      and each handler have a program counter ([mpc], [hpc]); a step is one
      system call, critical section or access to shared data, with the
      environment's [answer] as an argument; its [outcome] leads on, is
      undefined in C, or is not possible.  Any thread may step: [reachable] and
      [run].  Invariants of all reachable states: at most ten handlers run; the
      cache is an acyclic list without duplicates whose lengths are those of the
      bytes stored ([effect] classifies what a step does to the nodes).  An
      answer that breaks off is stored like a complete one
      ([ProxyServe.broken_answer_cached]).
    - [ProxyServe.v]: what a handler that runs undisturbed does for its client,
      on a miss and on a hit, and executed schedules in which the proxy fails
      although no system call does: permits lost on hits, the variable [ctx]
      read too late, a socket closed twice.
    - [ProxyLive.v]: a handler makes a bounded number of steps in every
      interleaving ([measure] falls with each of them) before it is done or does
      something undefined, as with an answer that overflows its record.
    - [ProxySession.v]: an abstract proxy, a map from hashes to pages, and the
      theorem that the process refines it for any sequence of clients with
      fewer than ten hits when all calls work ([proxy_refines_map]); what a
      session leaves behind is in its statement.

    [Steps.v] holds what the state machines share: outcomes, schedules,
    reachability, termination under fair schedules, and [explore], which lists
    the states of a finite machine so that a property of all of them is checked
    by computation ([closed] proves that none is missing, so the fuel of
    [explore] needs no justification).

    ** The directory mirror

    [ReverseTool.v] models [semestr1/Task3/Task3_1] on the character arrays of
    [CString.v], where reading or writing outside an array is [None].  Errors
    of system calls and the contents of fresh memory are an environment [env].
    Output reaches a file when its stream is closed, or does not ([flushed]).
    Reversing is proved correct for arrays, files (whatever fails) and whole
    trees; the loop that swaps from both ends is shown equal to the list
    function [reverse] below 2^32 elements, and its result given for all sizes
    ([reverse_line_equiv]); the buffers that are too small are theorems as well.
    [copy_loop]
    has fuel one more than the file's size: each round reads at least a byte.

    ** The file commands

    [SetCommands.v] models [semestr1/Task3/Task3_2] on an explicit file system
    (names, inodes, link counts; [rmdir] and [remove] refuse a directory that
    has entries) in a small state monad [cmd] whose [None] is undefined or out
    of fuel.  [print_file_output] holds for every fuel above
    the buffer's size.  What is proved: how commands are found by name, what
    printing a file shows, that a hard link and its removal cancel out, and
    that the commands on symbolic links always fail.  [SetEffects.v] says what
    each command that changes the file system does to it, from [main] and the
    program's name to the exit status ([commands_effects]).

    ** The smaller programs

    Each is a state machine on [Steps.v] or a function of the answers its
    system calls get.

    - [MyThread.v], [MyThreadMain.v]: [semestr2/Task1/Task1_6], threads on
      [clone].  [my_thread_create] is modelled up to its last statements, which
      are not C ([munmap()], an [if] without a condition): when its first half
      is defined ([prepare_defined]), and that [my_thread_join] on a thread that
      was started ends with the routine's value under every schedule that gives
      both sides enough turns ([fair_termination] of [Steps.v]).
    - [ThreadStart.v], [ThreadCancel.v], [ThreadSignals.v]: the POSIX thread
      exercises of [semestr2/Task1/Task1_1] to [Task1_5].  Any call may fail, and
      a failing join does not wait.  What is joined has been heard, a value
      arrives and its block is freed, unjoined threads use the system up, a
      clean-up handler runs exactly once (and frees the wrong pointer), masks
      keep all signals that can be blocked from the wrong threads.  Where a
      source does not compile its obvious repair is modelled and the comment
      says so.
    - [Uthread.v]: [semestr2/Task1/Task1_7], user threads on saved contexts.
      [schedule] on its own goes round the table and keeps everybody's place
      ([schedule_round]); the program around it is explored completely, for
      every way to read the flags it never initialises ([reading]): its third
      thread never runs ([third_thread_never_runs]).
    - [Echo.v]: [semestr1/Task6/Task6_1], the stream server and client
      ([Stream]: two processes and two byte queues; [Setup]: how the server
      starts, or does not) and the datagram ones ([Udp], alone and together).
    - [MemoryDemos.v]: three programs of [semestr1/Task4]: an environment
      variable set under the wrong name ([Environment]), a table of blocks that
      outgrows its memory ([Blocks]), a block used after it was freed
      ([Buffers]).
    - [ProcessDemos.v]: [semestr1/Task5] ([Fork]: what parent and child print,
      in every order) and [semestr2/Task2/Task2_2/semafor/test.c]
      ([ErrorCheck]: unlocking somebody else's mutex).
    - [HelloDemos.v]: [semestr1/Task1] (libraries linked and loaded), [Task2]
      (writing without [printf]) and the programs of [Task4] that show the shape
      of a process, as functions of what the loader and the kernel answer; the
      fuel of [Stack.stack_corruption] is the number of frames that fit.

    ** Not modelled

    Weak memory (the machine is sequentially consistent); signals, but for the
    handlers of [Echo.v] and [MemoryDemos.v] and the masks of
    [ThreadSignals.v]; liveness of the queues that poll, which would need a fair
    scheduler; a proof that the machines of [QueueLive.v], [FutexLive.v] and
    [ListLive.v] are simulated by the memory-level programs of [QueueCond.v],
    [Counter.v] and the list files, which they repeat in larger steps; a proof
    that [Proxy.v] is simulated by its handlers with [ProxyLocks.v] inside (the
    two share the list, not the machine); what becomes of threads on [clone]
    behind the statements that are not C, and so their endless [main]; log
    output of the proxy except where client data is copied; the numbers printed
    for addresses; [hello_world1.s], which is assembly; the sources CMake
    generates. *)
From stdpp Require Export base gmap list numbers strings.
From Stdlib Require Export ZArith Lia.

(** ** Machine integers

    The sources use [int], [long] and [unsigned long] of an LP64 target.
    Signed arithmetic is written with its wrap-around (two's complement),
    unsigned arithmetic modulo [2 ^ 64]. *)

#[local] Open Scope Z_scope.
Declare Scope cint_scope.
Delimit Scope cint_scope with cint.

Definition wrap_signed (w : Z) (x : Z) : Z :=
  (x + 2 ^ (w - 1)) `mod` 2 ^ w - 2 ^ (w - 1).
Definition wrap32 (x : Z) : Z := wrap_signed 32 x.
Definition wrap64 (x : Z) : Z := wrap_signed 64 x.
Definition wrapu64 (x : Z) : Z := x `mod` 2 ^ 64.

Notation "x +i y" := (wrap32 (x + y)) (at level 50, left associativity) : cint_scope.
Notation "x -i y" := (wrap32 (x - y)) (at level 50, left associativity) : cint_scope.
Notation "x +l y" := (wrap64 (x + y)) (at level 50, left associativity) : cint_scope.
Notation "x -l y" := (wrap64 (x - y)) (at level 50, left associativity) : cint_scope.
#[global] Open Scope cint_scope.
#[global] Open Scope Z_scope.

Definition INT_MAX : Z := 2 ^ 31 - 1.
Definition int_range (x : Z) : Prop := - 2 ^ 31 ≤ x ≤ INT_MAX.
Definition long_range (x : Z) : Prop := - 2 ^ 63 ≤ x < 2 ^ 63.

Lemma wrap_signed_id w x :
  1 ≤ w → - 2 ^ (w - 1) ≤ x < 2 ^ (w - 1) → wrap_signed w x = x.
Proof.
  intros Hw Hx. unfold wrap_signed.
  assert (2 ^ w = 2 * 2 ^ (w - 1)) as Hp.
  { rewrite <- Z.pow_succ_r by lia. f_equal. lia. }
  rewrite Z.mod_small by lia. lia.
Qed.

Lemma wrap32_id x : int_range x → wrap32 x = x.
Proof. intros H. apply wrap_signed_id; unfold int_range, INT_MAX in H; simpl; lia. Qed.

Lemma wrap64_id x : long_range x → wrap64 x = x.
Proof. intros H. apply wrap_signed_id; unfold long_range in H; simpl; lia. Qed.

Lemma wrap32_range x : int_range (wrap32 x).
Proof.
  unfold wrap32, wrap_signed, int_range, INT_MAX.
  pose proof (Z.mod_pos_bound (x + 2 ^ (32 - 1)) (2 ^ 32)). simpl in *. lia.
Qed.

Lemma wrapu64_range x : 0 ≤ wrapu64 x < 2 ^ 64.
Proof. apply Z.mod_pos_bound. lia. Qed.

(** Counting up from a value that has wrapped. *)
Lemma wrap32_succ k : wrap32 (Z.of_nat k) +i 1 = wrap32 (Z.of_nat (S k)).
Proof.
  unfold wrap32, wrap_signed. rewrite Nat2Z.inj_succ.
  replace (_ - _ + 1 + 2 ^ (32 - 1))
    with ((Z.of_nat k + 2 ^ (32 - 1)) `mod` 2 ^ 32 + 1) by lia.
  rewrite Zplus_mod_idemp_l. do 2 f_equal. lia.
Qed.

Lemma wrap64_succ z : wrap64 z +l 1 = wrap64 (z + 1).
Proof.
  unfold wrap64, wrap_signed.
  replace (_ - _ + 1 + 2 ^ (64 - 1)) with ((z + 2 ^ (64 - 1)) `mod` 2 ^ 64 + 1) by lia.
  rewrite Zplus_mod_idemp_l. do 2 f_equal. lia.
Qed.

Create HintDb cint discriminated.
Create Rewrite HintDb cint.
#[export] Hint Resolve wrap32_range wrapu64_range : cint.
#[export] Hint Rewrite wrap32_id wrap64_id using (unfold int_range, long_range, INT_MAX in *; lia) : cint.

(** Close a goal by unfolding the machine ranges and calling [lia]. *)
Ltac cint_lia :=
  unfold int_range, long_range, INT_MAX in *; autorewrite with cint; lia.

(** ** Sums and maxima over the threads of a program *)

Section sums.
Context {A : Type}.
Implicit Types (f g : A → nat) (l : list A) (x y : A).

Lemma sum_insert f l k x y :
  l !! k = Some x →
  (sum_list_with f (<[k := y]> l) + f x = sum_list_with f l + f y)%nat.
Proof.
  revert k. induction l as [|z l IH]; intros [|k] H; simpl in *; [done|done| |].
  - injection H as ->. lia.
  - specialize (IH k H). lia.
Qed.

Lemma sum_le f g (c : nat) l :
  (∀ x, f x ≤ g x + c)%nat → (sum_list_with f l ≤ sum_list_with g l + c * length l)%nat.
Proof. intros H. induction l as [|x l IH]; simpl; [lia|]. specialize (H x). lia. Qed.

(** Somebody is in front. *)
Lemma exists_max f l : l ≠ [] → ∃ k x, l !! k = Some x ∧ ∀ y, y ∈ l → (f y ≤ f x)%nat.
Proof.
  induction l as [|x l IH]; [done|]. intros _. destruct (decide (l = [])) as [->|Hl].
  { exists 0%nat, x. split; [done|]. by intros y ->%list_elem_of_singleton. }
  destruct (IH Hl) as (k & y & Hk & Hy). destruct (decide (f y ≤ f x)%nat) as [Hle|Hgt].
  - exists 0%nat, x. split; [done|]. intros z [->|Hz]%elem_of_cons; [lia|]. specialize (Hy z Hz). lia.
  - exists (S k), y. split; [done|]. intros z [->|Hz]%elem_of_cons; [lia|by apply Hy].
Qed.

End sums.
