(* ===== verification/Machine.v ===== *)
(** * Machine: the C abstract machine the threaded programs run on

    Memory, the atomic operations a thread performs on it, thread programs
    as a typed resumption monad, and the interleaving semantics of a pool
    of threads.  Everything is executable: [run_sched] plays a schedule.

    - An address is a block and an offset; the offset counts the fields of
      a structure (or the elements of an array).  Every heap block has a
      hidden header at offset [-1] holding its size, as an allocator does;
      [free] reads it, so a double free, a free of an interior pointer and
      a use after free are faults.
    - Accesses are sequentially consistent and one per step: [x++] on
      shared memory is a load followed by a store, and any other thread may
      run in between.
    - Blocking calls are loops around an attempt ([pthread_mutex_lock] is
      [while (!trylock);]), so a blocked thread always has a step.
    - What the environment decides (whether [malloc] fails, whether a
      condition wait wakes spuriously) is the choice argument of a step;
      [pthread_create] fails when the process has used up its threads.
    - [exit] and [abort] stop the whole pool: no step is taken once
      [exited] is set. *)
From S2P Require Import Prelude.
From Stdlib Require Import FunctionalExtensionality.

(** ** Addresses, values, memory *)

Definition loc : Set := (nat * Z)%type.
Definition ptr : Set := option loc.

(** Address of the [i]-th field of the structure at [l]. *)
Definition fld (l : loc) (i : Z) : loc := (l.1, l.2 + i)%Z.
Notation "l ⟶ i" := (fld l i) (at level 19, left associativity).

Inductive lock_kind : Set := MutexLock | SpinLock.

(** Contents of one memory cell.  [VStr] is a character array that holds a
    NUL-terminated string; [VUndef] is an indeterminate value. *)
Inductive cval : Set :=
| VUndef
| VInt (z : Z)
| VPtr (p : ptr)
| VStr (s : string)
| VSize (n : nat)
| VLock (k : lock_kind) (held : bool)
| VSem (n : nat)
| VRw (readers : nat) (writer : bool)
| VCond (waiting signalled : nat).

#[global] Instance lock_kind_eq_dec : EqDecision lock_kind.
Proof. solve_decision. Defined.
#[global] Instance cval_eq_dec : EqDecision cval.
Proof. solve_decision. Defined.

(** What a program prints; [EvAssert] is a failed [assert]. *)
Inductive event : Set :=
| EvOut (fmt : string) (args : list Z)
| EvStr (fmt : string) (arg : string)
| EvErr (msg : string)
| EvAssert (cond : string).

#[global] Instance event_eq_dec : EqDecision event.
Proof. solve_decision. Defined.

Record cstate : Set := CState {
  mem : gmap loc cval;
  next_block : nat;
  (* sleepers and pending wake-ups of each futex word *)
  futex : gmap loc (nat * nat);
  out : list event;
  exited : option Z
}.

Definition set_mem (f : gmap loc cval → gmap loc cval) (σ : cstate) : cstate :=
  CState (f (mem σ)) (next_block σ) (futex σ) (out σ) (exited σ).

(** How many more threads the system lets the process create: a counter the
    kernel keeps, here a reserved cell.  [pthread_create] fails when it is 0. *)
Definition thread_slots : loc := (0%nat, -2).

(** ** Atomic operations *)

Inductive cop : Set → Type :=
| OLoad (l : loc) : cop cval
| OStore (l : loc) (v : cval) : cop unit
| OCas (l : loc) (expected desired : Z) : cop bool
| OAlloc (init : list cval) : cop ptr
| OFree (p : ptr) : cop unit
| OTryLock (k : lock_kind) (l : loc) : cop bool
| OUnlock (k : lock_kind) (l : loc) : cop unit
| OSemTryWait (l : loc) : cop bool
| OSemPost (l : loc) : cop unit
| OTryRdLock (l : loc) : cop bool
| OTryWrLock (l : loc) : cop bool
| ORwUnlock (l : loc) : cop unit
| OCondSleep (c m : loc) : cop unit
| OCondWake (c : loc) : cop bool
| OCondSignal (c : loc) : cop unit
| OFutexSleep (l : loc) (expected : Z) : cop bool
| OFutexResume (l : loc) : cop bool
| OFutexWake (l : loc) (n : nat) : cop unit
| ONewThread : cop ptr
| OPrint (e : event) : cop unit
| OChoose : cop nat
| OUB (why : string) : cop Empty_set.

Inductive outcome (X : Type) : Type :=
| Ok (x : X) (σ : cstate)
| Fault.
Arguments Ok {X} _ _.
Arguments Fault {X}.

(** The cells of a fresh block: the header, then the contents. *)
Fixpoint cells (b : nat) (i : Z) (vs : list cval) : gmap loc cval :=
  match vs with
  | [] => ∅
  | v :: vs' => <[(b, i) := v]> (cells b (i + 1) vs')
  end.

Definition fresh_block (b : nat) (vs : list cval) : gmap loc cval :=
  cells b (-1) (VSize (length vs) :: vs).

(** Remove [n] consecutive cells; [None] if one of them is not there. *)
Fixpoint drop_cells (b : nat) (i : Z) (n : nat) (m : gmap loc cval) : option (gmap loc cval) :=
  match n with
  | 0%nat => Some m
  | S n' => match m !! (b, i) with
            | Some _ => drop_cells b (i + 1) n' (delete (b, i) m)
            | None => None
            end
  end.

Definition exec_op {X : Set} (c : nat) (o : cop X) (σ : cstate) : outcome X :=
  let store {X : Set} (x : X) l v := Ok x (set_mem <[l := v]> σ) in
  match o in cop X return outcome X with
  | OLoad l => match mem σ !! l with Some v => Ok v σ | None => Fault end
  | OStore l v => match mem σ !! l with Some _ => store tt l v | None => Fault end
  | OCas l e d =>
      match mem σ !! l with
      | Some (VInt z) => if decide (z = e) then store true l (VInt d) else Ok false σ
      | _ => Fault
      end
  | OAlloc vs =>
      (* choice 0: memory is available; otherwise malloc returns NULL *)
      match c with
      | 0%nat => Ok (Some (next_block σ, 0))
          (CState (fresh_block (next_block σ) vs ∪ mem σ) (S (next_block σ))
                  (futex σ) (out σ) (exited σ))
      | _ => Ok None σ
      end
  | OFree None => Ok tt σ
  | OFree (Some (b, i)) =>
      match i, mem σ !! (b, -1) with
      | 0, Some (VSize n) =>
          match drop_cells b 0 n (delete (b, -1) (mem σ)) with
          | Some m => Ok tt (set_mem (λ _, m) σ)
          | None => Fault
          end
      | _, _ => Fault
      end
  | OTryLock k l =>
      match mem σ !! l with
      | Some (VLock k' held) =>
          if decide (k' = k) then if held then Ok false σ else store true l (VLock k true)
          else Fault
      | _ => Fault
      end
  | OUnlock k l =>
      match mem σ !! l with
      | Some (VLock k' true) => if decide (k' = k) then store tt l (VLock k false) else Fault
      | _ => Fault
      end
  | OSemTryWait l =>
      match mem σ !! l with
      | Some (VSem (S n)) => store true l (VSem n)
      | Some (VSem 0) => Ok false σ
      | _ => Fault
      end
  | OSemPost l =>
      match mem σ !! l with Some (VSem n) => store tt l (VSem (S n)) | _ => Fault end
  | OTryRdLock l =>
      match mem σ !! l with
      | Some (VRw r false) => store true l (VRw (S r) false)
      | Some (VRw _ true) => Ok false σ
      | _ => Fault
      end
  | OTryWrLock l =>
      match mem σ !! l with
      | Some (VRw 0 false) => store true l (VRw 0 true)
      | Some (VRw _ _) => Ok false σ
      | _ => Fault
      end
  | ORwUnlock l =>
      match mem σ !! l with
      | Some (VRw (S r) false) => store tt l (VRw r false)
      | Some (VRw 0 true) => store tt l (VRw 0 false)
      | _ => Fault
      end
  | OCondSleep cv m =>
      (* release the mutex and become a waiter, in one step *)
      match mem σ !! cv, mem σ !! m with
      | Some (VCond w s), Some (VLock MutexLock true) =>
          Ok tt (set_mem (λ h, <[cv := VCond (S w) s]> (<[m := VLock MutexLock false]> h)) σ)
      | _, _ => Fault
      end
  | OCondWake cv =>
      (* a pending signal, or (choice <> 0) a spurious wake-up *)
      match mem σ !! cv with
      | Some (VCond (S w) (S s)) => store true cv (VCond w s)
      | Some (VCond (S w) 0) =>
          match c with 0%nat => Ok false σ | _ => store true cv (VCond w 0) end
      | _ => Fault
      end
  | OCondSignal cv =>
      match mem σ !! cv with
      | Some (VCond w s) => store tt cv (VCond w (Nat.min w (S s)))
      | _ => Fault
      end
  | OFutexSleep l e =>
      match mem σ !! l with
      | Some (VInt z) =>
          if decide (z = e) then
            let '(w, s) := default (0%nat, 0%nat) (futex σ !! l) in
            Ok true (CState (mem σ) (next_block σ) (<[l := (S w, s)]> (futex σ))
                              (out σ) (exited σ))
          else Ok false σ
      | _ => Fault
      end
  | OFutexResume l =>
      match futex σ !! l with
      | Some (S w, S s) =>
          Ok true (CState (mem σ) (next_block σ) (<[l := (w, s)]> (futex σ))
                            (out σ) (exited σ))
      | _ => Ok false σ
      end
  | OFutexWake l n =>
      let '(w, s) := default (0%nat, 0%nat) (futex σ !! l) in
      Ok tt (CState (mem σ) (next_block σ) (<[l := (w, Nat.min w (s + n))]> (futex σ))
                      (out σ) (exited σ))
  | ONewThread =>
      (* a handle: a fresh cell, 0 until the thread's function returns *)
      match mem σ !! thread_slots with
      | Some (VSem 0) => Ok None σ
      | Some (VSem (S n)) =>
          Ok (Some (next_block σ, 0))
            (CState (fresh_block (next_block σ) [VInt 0] ∪ <[thread_slots := VSem n]> (mem σ))
                    (S (next_block σ)) (futex σ) (out σ) (exited σ))
      | _ => Fault
      end
  | OPrint e =>
      Ok tt (CState (mem σ) (next_block σ) (futex σ) (out σ ++ [e]) (exited σ))
  | OChoose => Ok c σ
  | OUB _ => Fault
  end.

(** Whether an operation faults does not depend on the environment. *)
Lemma exec_op_fault_choice {X : Set} c c' (o : cop X) σ :
  exec_op c o σ = Fault → exec_op c' o σ = Fault.
Proof.
  destruct o; simpl; try done; repeat case_match; try done; congruence.
Qed.

(** ** Thread programs *)

(** A thread program is a tree of atomic operations.  [Loop body x k] is
    [while (true)] with loop variable [x]: the body answers [inl x'] to go
    round again and [inr b] to break. *)
Inductive prog (A : Type) : Type :=
| Ret (a : A)
| Act {X : Set} (o : cop X) (k : X → prog A)
| Loop {X B : Set} (body : X → prog (X + B)) (x : X) (k : B → prog A)
| Fork (child : prog unit) (k : prog A)
| Exit (code : Z)
| Stop.
Arguments Ret {A} _.
Arguments Act {A X} _ _.
Arguments Loop {A X B} _ _ _.
Arguments Fork {A} _ _.
Arguments Exit {A} _.
Arguments Stop {A}.

Fixpoint pbind {A B : Type} (f : A → prog B) (p : prog A) : prog B :=
  match p with
  | Ret a => f a
  | Act o k => Act o (λ x, pbind f (k x))
  | Loop body x k => Loop body x (λ b, pbind f (k b))
  | Fork child k => Fork child (pbind f k)
  | Exit code => Exit code
  | Stop => Stop
  end.

#[global] Instance prog_ret : MRet prog := λ A a, Ret a.
#[global] Instance prog_bind : MBind prog := λ A B f p, pbind f p.
#[global] Instance prog_fmap : FMap prog := λ A B f p, pbind (λ a, Ret (f a)) p.

Lemma pbind_assoc {A B C : Type} (p : prog A) (f : A → prog B) (g : B → prog C) :
  pbind g (pbind f p) = pbind (λ a, pbind g (f a)) p.
Proof.
  induction p; simpl; f_equal; try done;
    apply functional_extensionality; auto.
Qed.

Lemma pbind_ret {A : Type} (p : prog A) : pbind Ret p = p.
Proof. induction p; simpl; f_equal; try done; apply functional_extensionality; auto. Qed.

(** ** Steps of one thread and of the pool *)

Inductive tres (A : Type) : Type :=
| TStep (p : prog A) (σ : cstate) (forked : list (prog unit))
| TFault
| TDone.
Arguments TStep {A} _ _ _.
Arguments TFault {A}.
Arguments TDone {A}.

Definition unfold_loop {A : Type} {X B : Set} (body : X → prog (X + B)) (k : B → prog A)
    (x : X) : prog A :=
  pbind (λ r, match r with inl x' => Loop body x' k | inr b => k b end) (body x).

Definition tstep {A : Type} (c : nat) (p : prog A) (σ : cstate) : tres A :=
  match p with
  | Ret _ | Stop => TDone
  | Act o k =>
      match exec_op c o σ with
      | Ok x σ' => TStep (k x) σ' []
      | Fault => TFault
      end
  | Loop body x k => TStep (unfold_loop body k x) σ []
  | Fork child k => TStep k σ [child]
  | Exit code => TStep Stop (CState (mem σ) (next_block σ) (futex σ) (out σ) (Some code)) []
  end.

Definition cfg : Type := list (prog unit) * cstate.

(** The thread program is about to do something undefined. *)
Definition faulting (σ : cstate) (p : prog unit) : Prop := tstep 0 p σ = TFault.

(** Thread number [i] takes a step, the environment choosing [c]. *)
Definition pool_step (ic : nat * nat) (ρ : cfg) : option cfg :=
  let '(i, c) := ic in
  let '(ps, σ) := ρ in
  match exited σ, ps !! i with
  | None, Some p =>
      match tstep c p σ with
      | TStep p' σ' forked => Some (<[i := p']> ps ++ forked, σ')
      | _ => None
      end
  | _, _ => None
  end.

Definition cstep (ρ ρ' : cfg) : Prop := ∃ ic, pool_step ic ρ = Some ρ'.

(** Play a schedule; moves that are not possible are skipped. *)
Fixpoint run_sched (sched : list (nat * nat)) (ρ : cfg) : cfg :=
  match sched with
  | [] => ρ
  | ic :: sched' => match pool_step ic ρ with
                    | Some ρ' => run_sched sched' ρ'
                    | None => run_sched sched' ρ
                    end
  end.

Lemma run_sched_reachable sched ρ : rtc cstep ρ (run_sched sched ρ).
Proof.
  revert ρ. induction sched as [|ic sched IH]; intros ρ; simpl; [done|].
  destruct (pool_step ic ρ) as [ρ'|] eqn:E; [|apply IH].
  eapply rtc_l; [by exists ic|apply IH].
Qed.

Lemma run_sched_reaches sched ρ : rtc cstep ρ ((run_sched sched ρ).1, (run_sched sched ρ).2).
Proof. rewrite <-surjective_pairing. apply run_sched_reachable. Qed.

(** A program can go wrong: some interleaving reaches an undefined
    operation.  A schedule that does is found by computation. *)
Definition can_fault (ρ : cfg) : Prop :=
  ∃ ps σ, rtc cstep ρ (ps, σ) ∧ Exists (faulting σ) ps.

Definition faultingb (σ : cstate) (p : prog unit) : bool :=
  match tstep 0 p σ with TFault => true | _ => false end.

Definition faults_after (sched : list (nat * nat)) (ρ : cfg) : bool :=
  let '(ps, σ) := run_sched sched ρ in existsb (faultingb σ) ps.

Lemma faults_after_sound sched ρ : faults_after sched ρ = true → can_fault ρ.
Proof.
  unfold faults_after. pose proof (run_sched_reachable sched ρ) as Hr.
  destruct (run_sched sched ρ) as [ps σ]. intros H. exists ps, σ. split; [done|].
  apply existsb_exists in H as (p & Hin & Hp). apply Exists_exists. exists p.
  split; [by apply list_elem_of_In|]. unfold faultingb, faulting in *. by destruct (tstep 0 p σ).
Qed.

(** What the undefined operation is that a thread is about to perform. *)
Inductive fault : Set :=
| FaultStore (l : loc)
| FaultSemWait (l : loc)
| FaultUB (why : string)
| FaultOther.

#[global] Instance fault_eq_dec : EqDecision fault.
Proof. solve_decision. Defined.

Definition fault_kind {X : Set} (o : cop X) : fault :=
  match o with
  | OStore l _ => FaultStore l
  | OSemTryWait l => FaultSemWait l
  | OUB why => FaultUB why
  | _ => FaultOther
  end.

Definition fault_of (σ : cstate) (p : prog unit) : option fault :=
  match p with
  | Act o _ => match exec_op 0 o σ with Fault => Some (fault_kind o) | Ok _ _ => None end
  | _ => None
  end.

Lemma fault_of_faulting σ p f : fault_of σ p = Some f → faulting σ p.
Proof. destruct p; simpl; try done. unfold faulting. simpl. by case_match. Qed.

(** [l] lies in a block of the heap that has been given back. *)
Definition in_freed_block (σ : cstate) (l : loc) : bool :=
  (0 <? l.1)%nat && (l.1 <? next_block σ)%nat &&
  match mem σ !! (l.1, -1)%Z with None => true | Some _ => false end.

(** Some interleaving brings thread [i] to an undefined operation [f] with
    the property [P]. *)
Definition reaches_fault (ρ : cfg) (i : nat) (P : cstate → fault → bool) : Prop :=
  ∃ ps σ p f, rtc cstep ρ (ps, σ) ∧ ps !! i = Some p ∧ fault_of σ p = Some f ∧ P σ f = true.

Lemma reaches_fault_by sched ρ i P :
  (let '(ps, σ) := run_sched sched ρ in
   match ps !! i with
   | Some p => match fault_of σ p with Some f => P σ f | None => false end
   | None => false
   end) = true → reaches_fault ρ i P.
Proof.
  pose proof (run_sched_reachable sched ρ) as Hr.
  destruct (run_sched sched ρ) as [ps σ]. intros H.
  destruct (ps !! i) as [p|] eqn:Hp; [|done].
  destruct (fault_of σ p) as [f|] eqn:Hf; [|done]. by exists ps, σ, p, f.
Qed.

(** A single thread run alone, for at most [fuel] steps, the environment
    answering every choice with 0 (memory is available, no error). *)
Inductive run_result (A : Type) : Type :=
| RDone (a : A) (σ : cstate)
| RFault
| RExit (code : Z) (σ : cstate)
| RFuel.
Arguments RDone {A} _ _.
Arguments RFault {A}.
Arguments RExit {A} _ _.
Arguments RFuel {A}.

Fixpoint run {A : Type} (fuel : nat) (p : prog A) (σ : cstate) : run_result A :=
  match fuel with
  | 0%nat => RFuel
  | S fuel' =>
      match p with
      | Ret a => RDone a σ
      | Exit code => RExit code σ
      | _ => match tstep 0 p σ with
             | TStep p' σ' _ => run fuel' p' σ'
             | TFault => RFault
             | TDone => RFuel
             end
      end
  end.
