(* ===== verification/Logic.v ===== *)
(** * Logic: a separation logic for thread programs

    The machine of [Machine] as an Iris language, a weakest precondition
    [cwp] for (typed) program fragments, the rules of the atomic operations
    and the adequacy theorem [pool_safe]: a closed program verified with
    [cwp] never reaches an undefined operation, in any interleaving, and
    everything it prints satisfies the predicate [good] chosen for it.  The
    statements of the components only mention [Machine]; this file is how
    they are proved. *)
From S2P Require Import Prelude Machine.
From iris.algebra Require Import ofe.
From iris.bi.lib Require Export fractional.
From iris.proofmode Require Import proofmode.
From iris.program_logic Require Import weakestpre lifting adequacy.
From iris.base_logic.lib Require Export invariants ghost_map ghost_var.
From Stdlib Require Import FunctionalExtensionality.

#[local] Open Scope Z_scope.

(** ** The machine as a language *)

Definition lang_step (p : prog unit) (σ : cstate) (κ : list Empty_set)
    (p' : prog unit) (σ' : cstate) (efs : list (prog unit)) : Prop :=
  κ = [] ∧ ((∃ c, tstep c p σ = TStep p' σ' efs) ∨
            (p = Stop ∧ p' = Stop ∧ σ' = σ ∧ efs = [])).

Definition lang_to_val (p : prog unit) : option unit :=
  match p with Ret a => Some a | _ => None end.

Lemma c_lang_mixin : LanguageMixin (Ret (A:=unit)) lang_to_val lang_step.
Proof.
  split.
  - done.
  - intros [] v; simpl; naive_solver.
  - intros p σ κ p' σ' efs [_ [[c H]|[-> _]]]; [by destruct p|done].
Qed.

Canonical Structure c_lang : language := Language c_lang_mixin.

#[global] Instance cstate_inhabited : Inhabited (state c_lang) :=
  populate (CState ∅ 0 ∅ [] None).

(** ** Ghost state *)

Class cGS (Σ : gFunctors) := CGS {
  c_invGS :: invGS Σ;
  c_mem_inG :: ghost_mapG Σ loc cval;
  c_mem_name : gname;
  c_good : event → Prop;
}.

Class cGpreS (Σ : gFunctors) := CGpreS {
  c_pre_inv :: invGpreS Σ;
  c_pre_mem :: ghost_mapG Σ loc cval;
}.

Definition cΣ : gFunctors := #[invΣ; ghost_mapΣ loc cval].

#[global] Instance subG_cGpreS {Σ} : subG cΣ Σ → cGpreS Σ.
Proof. solve_inG. Qed.

Definition pt `{!cGS Σ} (l : loc) (dq : dfrac) (v : cval) : iProp Σ :=
  ghost_map_elem c_mem_name l dq v.

Notation "l ↦ dq v" := (pt l dq v)
  (at level 20, dq custom dfrac at level 1, format "l  ↦ dq  v") : bi_scope.

(** Every block in use was handed out by the allocator. *)
Definition blocks_ok (σ : cstate) : Prop :=
  ∀ l, l ∈ dom (mem σ) → (l.1 < next_block σ)%nat.

Definition c_interp `{!cGS Σ} (σ : cstate) : iProp Σ :=
  ghost_map_auth c_mem_name 1 (mem σ) ∗
  ⌜blocks_ok σ⌝ ∗ ⌜Forall c_good (out σ)⌝.

#[global] Instance c_irisGS `{!cGS Σ} : irisGS c_lang Σ := {
  iris_invGS := c_invGS;
  state_interp σ _ _ _ := c_interp σ;
  fork_post _ := True%I;
  num_laters_per_step _ := 0%nat;
  state_interp_mono _ _ _ _ := fupd_intro _ _
}.

#[global] Instance pt_timeless `{!cGS Σ} l dq v : Timeless (pt l dq v).
Proof. apply _. Qed.
#[global] Instance pt_persistent `{!cGS Σ} l v : Persistent (pt l DfracDiscarded v).
Proof. apply _. Qed.
#[global] Instance pt_fractional `{!cGS Σ} l v : Fractional (λ q, pt l (DfracOwn q) v).
Proof. apply _. Qed.
#[global] Instance pt_as_fractional `{!cGS Σ} l q v :
  AsFractional (pt l (DfracOwn q) v) (λ q, pt l (DfracOwn q) v) q.
Proof. apply _. Qed.
#[global] Instance pt_combine_sep_gives `{!cGS Σ} l dq1 dq2 v1 v2 :
  CombineSepGives (pt l dq1 v1) (pt l dq2 v2) ⌜✓ (dq1 ⋅ dq2) ∧ v1 = v2⌝.
Proof. apply _. Qed.
#[global] Opaque pt.

Section wp.
Context `{!cGS Σ}.

Lemma pt_agree l dq1 dq2 v1 v2 : l ↦{dq1} v1 -∗ l ↦{dq2} v2 -∗ ⌜v1 = v2⌝.
Proof. iIntros "H1 H2". iCombine "H1 H2" gives %[_ ?]. done. Qed.

Lemma pt_excl l v1 v2 : l ↦ v1 -∗ l ↦ v2 -∗ False.
Proof. iIntros "H1 H2". iCombine "H1 H2" gives %[? _]. done. Qed.

Lemma pt_excl_half l q v1 v2 : l ↦ v1 -∗ l ↦{#q} v2 -∗ False.
Proof.
  iIntros "H1 H2". iCombine "H1 H2" gives %[Hv _].
  rewrite dfrac_op_own dfrac_valid_own in Hv. exfalso.
  apply Qp.not_add_le_l in Hv. done.
Qed.

Lemma pt_halves l v1 v2 : l ↦{#1/2} v1 -∗ l ↦{#1/2} v2 -∗ ⌜v1 = v2⌝ ∗ l ↦ v1.
Proof.
  iIntros "H1 H2". iDestruct (pt_agree with "H1 H2") as %->.
  iSplit; [done|]. iCombine "H1 H2" as "H". done.
Qed.

Lemma pt_split l v : l ↦ v ⊢ l ↦{#1/2} v ∗ l ↦{#1/2} v.
Proof. iIntros "[$ $]". Qed.

Lemma pt_persist l dq v : l ↦{dq} v ==∗ l ↦□ v.
Proof. with_strategy transparent [pt] (rewrite /pt). apply ghost_map_elem_persist. Qed.

(** ** Weakest preconditions of fragments *)

(** [cwp p Φ]: the fragment [p] is safe, and whatever follows it may assume
    [Φ] of its result. *)
Definition cwp {A : Type} (p : prog A) (Φ : A → iProp Σ) : iProp Σ :=
  ∀ (k : A → prog unit) (Ψ : unit → iProp Σ),
    (∀ a, Φ a -∗ WP (k a : expr c_lang) {{ Ψ }}) -∗
    WP (pbind k p : expr c_lang) {{ Ψ }}.

(** [awp o E Φ]: the single operation [o], while the invariants outside [E]
    are open. *)
Definition awp {X : Set} (o : cop X) (E : coPset) (Φ : X → iProp Σ) : iProp Σ :=
  ∀ σ, c_interp σ ={E}=∗
    ⌜exec_op 0 o σ ≠ Fault⌝ ∗
    ▷ ∀ c x σ', ⌜exec_op c o σ = Ok x σ'⌝ ={E}=∗ c_interp σ' ∗ Φ x.

Lemma cwp_ret {A : Type} (a : A) Φ : Φ a -∗ cwp (Ret a) Φ.
Proof. iIntros "HΦ %k %Ψ Hk". simpl. by iApply "Hk". Qed.

Lemma cwp_bind {A B : Type} (p : prog A) (f : A → prog B) Φ :
  cwp p (λ a, cwp (f a) Φ) -∗ cwp (pbind f p) Φ.
Proof.
  iIntros "Hp %k %Ψ Hk". rewrite pbind_assoc.
  iApply "Hp". iIntros (a) "Hf". iApply "Hf". done.
Qed.

Lemma cwp_mono {A : Type} (p : prog A) Φ Φ' :
  (∀ a, Φ a -∗ Φ' a) -∗ cwp p Φ -∗ cwp p Φ'.
Proof.
  iIntros "Himp Hp %k %Ψ Hk". iApply "Hp". iIntros (a) "HΦ".
  iApply "Hk". by iApply "Himp".
Qed.

Lemma cwp_atomic {X : Set} (o : cop X) E Φ :
  (|={⊤,E}=> awp o E (λ x, |={E,⊤}=> Φ x)) -∗ cwp (Act o Ret) Φ.
Proof.
  iIntros "Ha %k %Ψ Hk". simpl. iApply wp_lift_step_fupd; [done|].
  iIntros (σ1 ns κ κs nt) "Hσ". iMod "Ha". iMod ("Ha" with "Hσ") as "[%Hnf Ha]".
  iApply fupd_mask_intro; [set_solver|]. iIntros "Hclose". iSplit.
  { iPureIntro. destruct (exec_op 0 o σ1) as [x σ'|] eqn:Ho; [|done].
    exists [], (k x), σ', []. split; [done|]. left. exists 0%nat.
    simpl. by rewrite Ho. }
  iIntros (e2 σ2 efs [-> [[c Hs]|[? _]]]) "_"; [|done]. simpl in Hs.
  destruct (exec_op c o σ1) as [x σ'|] eqn:Ho; [|done].
  injection Hs as <- <- <-.
  iModIntro. iNext. iMod "Hclose" as "_".
  iMod ("Ha" with "[//]") as "[$ HΦ]". iMod "HΦ" as "HΦ".
  iModIntro. iSplitL; [|done]. by iApply "Hk".
Qed.

Lemma cwp_op {X : Set} (o : cop X) Φ : awp o ⊤ Φ -∗ cwp (Act o Ret) Φ.
Proof.
  iIntros "H". iApply (cwp_atomic _ ⊤). iModIntro. iIntros (σ) "Hσ".
  iMod ("H" with "Hσ") as "[$ H]". iModIntro. iNext. iIntros (c x σ' Ho).
  iMod ("H" with "[//]") as "[$ H]". by iFrame.
Qed.

(** Open an invariant around one operation. *)
Lemma cwp_op_inv {X : Set} (o : cop X) N P Φ :
  inv N P -∗ (▷ P -∗ awp o (⊤ ∖ ↑N) (λ x, ▷ P ∗ Φ x)) -∗ cwp (Act o Ret) Φ.
Proof.
  iIntros "#Hinv H". iApply (cwp_atomic _ (⊤ ∖ ↑N)).
  iMod (inv_acc with "Hinv") as "[HP Hclose]"; [done|].
  iModIntro. iIntros (σ) "Hσ". iMod ("H" with "HP Hσ") as "[$ H]".
  iModIntro. iNext. iIntros (c x σ' Ho). iMod ("H" with "[//]") as "($ & HP & HΦ)".
  iModIntro. iMod ("Hclose" with "HP") as "_". done.
Qed.

Lemma cwp_loop {X B : Set} (body : X → prog (X + B)) (x : X) (I : X → iProp Σ) Φ :
  I x -∗
  □ (∀ x, I x -∗ cwp (body x) (λ r, match r with inl x' => I x' | inr b => Φ b end)) -∗
  cwp (Loop body x Ret) Φ.
Proof.
  iIntros "HI #Hbody %k %Ψ Hk". simpl.
  iLöb as "IH" forall (x).
  iApply wp_lift_pure_step_no_fork.
  { intros σ. exists [], (unfold_loop body k x), σ, []. split; [done|]. left. by exists 0%nat. }
  { intros κ σ1 e2 σ2 efs [-> [[c Hs]|[? _]]]; [|done]. by injection Hs as <- <- <-. }
  iModIntro. iNext. iModIntro. iIntros (κ e2 efs σ [-> [[c Hs]|[? _]]]) "_"; [|done].
  injection Hs as <- <-.
  iApply ("Hbody" with "HI"). iIntros ([x'|b]) "HI".
  - by iApply ("IH" with "HI").
  - by iApply "Hk".
Qed.

(** A loop that never breaks. *)
Lemma cwp_forever {A : Type} {X : Set} (body : X → prog (X + Empty_set)) (x : X)
    (k : Empty_set → prog A) (I : X → iProp Σ) Φ :
  I x -∗
  □ (∀ x, I x -∗ cwp (body x) (λ r, match r with inl x' => I x' | inr b => False end)) -∗
  cwp (Loop body x k) Φ.
Proof.
  iIntros "HI #Hbody". iApply (cwp_bind (Loop body x Ret) k).
  iApply (cwp_loop with "HI"). iIntros "!> %y HI".
  iApply (cwp_mono with "[] (Hbody HI)"). iIntros ([x'|[]]) "H". done.
Qed.

Lemma cwp_thread (p : prog unit) :
  cwp p (λ _, True) -∗ WP (p : expr c_lang) {{ _, True }}.
Proof.
  iIntros "Hp". iSpecialize ("Hp" $! Ret (λ _, True)%I).
  rewrite pbind_ret. iApply "Hp". iIntros ([]) "_". by iApply wp_value.
Qed.

Lemma cwp_fork (child : prog unit) {A : Type} (p : prog A) Φ :
  cwp child (λ _, True) -∗ cwp p Φ -∗ cwp (Fork child p) Φ.
Proof.
  iIntros "Hc Hp %k %Ψ Hk". simpl. iApply wp_lift_step; [done|].
  iIntros (σ1 ns κ κs nt) "Hσ". iApply fupd_mask_intro; [set_solver|]. iIntros "Hclose".
  iSplit.
  { iPureIntro. exists [], (pbind k p), σ1, [child]. split; [done|]. left. by exists 0%nat. }
  iNext. iIntros (e2 σ2 efs [-> [[c Hs]|[? _]]]) "_"; [|done].
  injection Hs as <- <- <-. iMod "Hclose" as "_". iModIntro. iFrame. iSplitL "Hp Hk".
  - by iApply "Hp".
  - iApply big_sepL_singleton. by iApply cwp_thread.
Qed.

Lemma wp_stop (Ψ : unit → iProp Σ) : ⊢ WP (Stop : expr c_lang) {{ Ψ }}.
Proof.
  iLöb as "IH". iApply wp_lift_pure_step_no_fork.
  { intros σ. exists [], Stop, σ, []. split; [done|]. by right. }
  { intros κ σ1 e2 σ2 efs [-> [[c Hs]|(_ & -> & -> & ->)]]; done. }
  iModIntro. iNext. iModIntro. iIntros (κ e2 efs σ [-> [[c Hs]|(_ & -> & _ & ->)]]) "_"; done.
Qed.

Lemma cwp_exit {A : Type} code Φ : ⊢ cwp (Exit code : prog A) Φ.
Proof.
  iIntros "%k %Ψ _". simpl. iApply wp_lift_step; [done|].
  iIntros (σ1 ns κ κs nt) "[Hm Hp]". iApply fupd_mask_intro; [set_solver|]. iIntros "Hclose".
  iSplit.
  { iPureIntro. eexists [], Stop, _, []. split; [done|]. left. exists 0%nat. reflexivity. }
  iNext. iIntros (e2 σ2 efs [-> [[c Hs]|[? _]]]) "_"; [|done].
  injection Hs as <- <- <-. iMod "Hclose" as "_". iModIntro. iFrame.
  iSplit; [|done]. iApply wp_stop.
Qed.

(** *** Updates may be run in front of a fragment or an operation *)

Lemma fupd_awp {X : Set} (o : cop X) E Φ : (|={E}=> awp o E Φ) -∗ awp o E Φ.
Proof. iIntros "H %σ Hσ". iMod "H". by iApply "H". Qed.

Lemma fupd_cwp {A : Type} (p : prog A) Φ : (|={⊤}=> cwp p Φ) -∗ cwp p Φ.
Proof. iIntros "H %k %Ψ Hk". iApply fupd_wp. iMod "H". iModIntro. by iApply "H". Qed.

#[global] Instance is_except_0_awp {X : Set} (o : cop X) E Φ : IsExcept0 (awp o E Φ).
Proof. rewrite /IsExcept0. iIntros "H". iApply fupd_awp. by iMod "H". Qed.

#[global] Instance is_except_0_cwp {A : Type} (p : prog A) Φ : IsExcept0 (cwp p Φ).
Proof. rewrite /IsExcept0. iIntros "H". iApply fupd_cwp. by iMod "H". Qed.

#[global] Instance elim_modal_bupd_cwp {A : Type} p (pr : prog A) P Φ :
  ElimModal True p false (|==> P) P (cwp pr Φ) (cwp pr Φ).
Proof.
  rewrite /ElimModal bi.intuitionistically_if_elim.
  iIntros (_) "[HP Hw]". iApply fupd_cwp. iMod "HP". by iApply "Hw".
Qed.

#[global] Instance elim_modal_fupd_cwp {A : Type} p (pr : prog A) P Φ :
  ElimModal True p false (|={⊤}=> P) P (cwp pr Φ) (cwp pr Φ).
Proof.
  rewrite /ElimModal bi.intuitionistically_if_elim.
  iIntros (_) "[HP Hw]". iApply fupd_cwp. iMod "HP". by iApply "Hw".
Qed.

#[global] Instance elim_modal_bupd_awp {X : Set} p (o : cop X) E P Φ :
  ElimModal True p false (|==> P) P (awp o E Φ) (awp o E Φ).
Proof.
  rewrite /ElimModal bi.intuitionistically_if_elim.
  iIntros (_) "[HP Hw]". iApply fupd_awp. iMod "HP". by iApply "Hw".
Qed.

(** The postcondition of an operation may run an update. *)
Lemma awp_fupd {X : Set} (o : cop X) E Φ : awp o E (λ x, |={E}=> Φ x) -∗ awp o E Φ.
Proof.
  iIntros "H %σ Hσ". iMod ("H" with "Hσ") as "[$ H]". iModIntro. iNext.
  iIntros (c x σ' Hx). iMod ("H" with "[//]") as "[$ >$]". done.
Qed.

Lemma awp_mono {X : Set} (o : cop X) E Φ Φ' :
  (∀ x, Φ x -∗ Φ' x) -∗ awp o E Φ -∗ awp o E Φ'.
Proof.
  iIntros "Himp H %σ Hσ". iMod ("H" with "Hσ") as "[$ H]". iModIntro. iNext.
  iIntros (c x σ' Hx). iMod ("H" with "[//]") as "[$ H]". iModIntro. by iApply "Himp".
Qed.

End wp.
#[global] Opaque cwp.
#[global] Typeclasses Opaque cwp.

(** ** Rules of the atomic operations *)

Section rules.
Context `{!cGS Σ}.
Implicit Types l : loc.

(** An operation that looks at one cell and leaves the state alone. *)
Lemma awp_cell_look {X : Set} (o : cop X) E l dq v (Q : X → Prop) Φ :
  (∀ σ, mem σ !! l = Some v →
     exec_op 0 o σ ≠ Fault ∧ ∀ c x σ', exec_op c o σ = Ok x σ' → mem σ' = mem σ ∧
       next_block σ' = next_block σ ∧ out σ' = out σ ∧ Q x) →
  l ↦{dq} v -∗ ▷ (∀ x, ⌜Q x⌝ -∗ l ↦{dq} v -∗ Φ x) -∗ awp o E Φ.
Proof.
  iIntros (Ho) "Hl HΦ %σ (Hm & %Hb & %Hg)".
  with_strategy transparent [pt] (iDestruct (ghost_map_lookup with "Hm Hl") as %Hlk).
  destruct (Ho σ Hlk) as [Hnf Hok]. iModIntro. iSplit; [done|]. iNext.
  iIntros (c x σ' Hx). destruct (Hok _ _ _ Hx) as (Hm & Hn & Hout & HQ).
  iModIntro. iSplitR "HΦ Hl"; [|by iApply "HΦ"].
  unfold c_interp, blocks_ok. rewrite Hm Hn Hout. by iFrame.
Qed.

(** An operation that overwrites one cell. *)
Lemma awp_cell_upd {X : Set} (o : cop X) E l v w (r : X) Φ :
  (∀ σ, mem σ !! l = Some v →
     exec_op 0 o σ ≠ Fault ∧
     ∀ c x σ', exec_op c o σ = Ok x σ' → x = r ∧ σ' = set_mem <[l := w]> σ) →
  l ↦ v -∗ ▷ (l ↦ w -∗ Φ r) -∗ awp o E Φ.
Proof.
  iIntros (Ho) "Hl HΦ %σ (Hm & %Hb & %Hg)".
  with_strategy transparent [pt] (iDestruct (ghost_map_lookup with "Hm Hl") as %Hlk).
  destruct (Ho σ Hlk) as [Hnf Hok]. iModIntro. iSplit; [done|]. iNext.
  iIntros (c x σ' Hx). destruct (Hok _ _ _ Hx) as [-> ->].
  with_strategy transparent [pt] (iMod (ghost_map_update w with "Hm Hl") as "[Hm Hl]").
  iModIntro. iSplitR "HΦ Hl"; [|by iApply "HΦ"].
  iFrame "Hm". iPureIntro. split; [|done]. intros l'. simpl.
  rewrite dom_insert_lookup_L; [|by eauto]. apply Hb.
Qed.

Ltac solve_cell :=
  let σ := fresh "σ" in let H := fresh "H" in
  intros σ H; simpl; rewrite H;
  repeat (case_decide; try done);
  (split; [done|intros c x σ' Hx; repeat (case_decide; try done);
    repeat case_match; simplify_eq/=; auto]).

Lemma awp_load E l dq v Φ :
  l ↦{dq} v -∗ ▷ (l ↦{dq} v -∗ Φ v) -∗ awp (OLoad l) E Φ.
Proof.
  iIntros "Hl HΦ". iApply (awp_cell_look _ _ _ _ _ (λ x, x = v) with "Hl").
  { solve_cell. }
  iNext. iIntros (x ->). done.
Qed.

Lemma awp_store E l v w Φ : l ↦ v -∗ ▷ (l ↦ w -∗ Φ tt) -∗ awp (OStore l w) E Φ.
Proof. apply awp_cell_upd. solve_cell. Qed.

Lemma awp_cas_ok E l e d Φ :
  l ↦ VInt e -∗ ▷ (l ↦ VInt d -∗ Φ true) -∗ awp (OCas l e d) E Φ.
Proof. apply awp_cell_upd. solve_cell. Qed.

Lemma awp_cas_fail E l dq z e d Φ :
  z ≠ e → l ↦{dq} VInt z -∗ ▷ (l ↦{dq} VInt z -∗ Φ false) -∗ awp (OCas l e d) E Φ.
Proof.
  iIntros (Hne) "Hl HΦ". iApply (awp_cell_look _ _ _ _ _ (λ x, x = false) with "Hl").
  { solve_cell. }
  iNext. iIntros (x ->). done.
Qed.

Lemma awp_trylock_ok E k l Φ :
  l ↦ VLock k false -∗ ▷ (l ↦ VLock k true -∗ Φ true) -∗ awp (OTryLock k l) E Φ.
Proof. apply awp_cell_upd. solve_cell. Qed.

Lemma awp_trylock_busy E k l dq Φ :
  l ↦{dq} VLock k true -∗ ▷ (l ↦{dq} VLock k true -∗ Φ false) -∗ awp (OTryLock k l) E Φ.
Proof.
  iIntros "Hl HΦ". iApply (awp_cell_look _ _ _ _ _ (λ x, x = false) with "Hl").
  { solve_cell. }
  iNext. iIntros (x ->). done.
Qed.

Lemma awp_unlock E k l Φ :
  l ↦ VLock k true -∗ ▷ (l ↦ VLock k false -∗ Φ tt) -∗ awp (OUnlock k l) E Φ.
Proof. apply awp_cell_upd. solve_cell. Qed.

Lemma awp_sem_wait_ok E l n Φ :
  l ↦ VSem (S n) -∗ ▷ (l ↦ VSem n -∗ Φ true) -∗ awp (OSemTryWait l) E Φ.
Proof. apply awp_cell_upd. solve_cell. Qed.

Lemma awp_sem_wait_busy E l dq Φ :
  l ↦{dq} VSem 0 -∗ ▷ (l ↦{dq} VSem 0 -∗ Φ false) -∗ awp (OSemTryWait l) E Φ.
Proof.
  iIntros "Hl HΦ". iApply (awp_cell_look _ _ _ _ _ (λ x, x = false) with "Hl").
  { solve_cell. }
  iNext. iIntros (x ->). done.
Qed.

Lemma awp_sem_post E l n Φ :
  l ↦ VSem n -∗ ▷ (l ↦ VSem (S n) -∗ Φ tt) -∗ awp (OSemPost l) E Φ.
Proof. apply awp_cell_upd. solve_cell. Qed.

Lemma awp_rdlock E l r w Φ :
  l ↦ VRw r w -∗
  ▷ (if w then l ↦ VRw r true -∗ Φ false else l ↦ VRw (S r) false -∗ Φ true) -∗
  awp (OTryRdLock l) E Φ.
Proof.
  destruct w; iIntros "Hl HΦ".
  - iApply (awp_cell_look _ _ _ _ _ (λ x, x = false) with "Hl"); [solve_cell|].
    iNext. iIntros (x ->). done.
  - iApply (awp_cell_upd with "Hl HΦ"). solve_cell.
Qed.

Lemma awp_wrlock E l r w Φ :
  l ↦ VRw r w -∗
  ▷ ((⌜r = 0%nat ∧ w = false⌝ -∗ l ↦ VRw 0 true -∗ Φ true) ∧ (l ↦ VRw r w -∗ Φ false)) -∗
  awp (OTryWrLock l) E Φ.
Proof.
  destruct r as [|r], w; iIntros "Hl HΦ".
  2:{ iApply (awp_cell_upd with "Hl"); [solve_cell|]. iNext. iIntros "Hl".
      iDestruct "HΦ" as "[HΦ _]". by iApply ("HΦ" with "[//] Hl"). }
  all: iApply (awp_cell_look _ _ _ _ _ (λ x, x = false) with "Hl"); [solve_cell|];
    iNext; iIntros (x ->); iDestruct "HΦ" as "[_ HΦ]"; done.
Qed.

Lemma awp_rw_unlock_r E l r Φ :
  l ↦ VRw (S r) false -∗ ▷ (l ↦ VRw r false -∗ Φ tt) -∗ awp (ORwUnlock l) E Φ.
Proof. apply awp_cell_upd. solve_cell. Qed.

Lemma awp_rw_unlock_w E l Φ :
  l ↦ VRw 0 true -∗ ▷ (l ↦ VRw 0 false -∗ Φ tt) -∗ awp (ORwUnlock l) E Φ.
Proof. apply awp_cell_upd. solve_cell. Qed.

Lemma awp_cond_wake E l w s Φ :
  l ↦ VCond (S w) s -∗
  ▷ ((∀ s', l ↦ VCond w s' -∗ Φ true) ∧ (l ↦ VCond (S w) s -∗ Φ false)) -∗
  awp (OCondWake l) E Φ.
Proof.
  iIntros "Hl HΦ %σ (Hm & %Hb & %Hg)".
  with_strategy transparent [pt] (iDestruct (ghost_map_lookup with "Hm Hl") as %Hlk).
  iModIntro. simpl. rewrite Hlk. iSplit; [by destruct s|]. iNext.
  assert (∀ v, blocks_ok (set_mem <[l := v]> σ)) as Hb'.
  { intros v l'. simpl. rewrite dom_insert_lookup_L; [|by eauto]. apply Hb. }
  iIntros (c x σ' Hx). destruct s as [|s]; [destruct c as [|c]|]; simplify_eq/=.
  1: { iModIntro. iFrame "Hm". iSplit; [done|]. iDestruct "HΦ" as "[_ HΦ]". by iApply "HΦ". }
  all: with_strategy transparent [pt] (iMod (ghost_map_update with "Hm Hl") as "[Hm Hl]");
    iModIntro; iFrame "Hm"; iSplit; [done|];
    iDestruct "HΦ" as "[HΦ _]"; by iApply "HΦ".
Qed.

Lemma awp_cond_signal E l w s Φ :
  l ↦ VCond w s -∗ ▷ (l ↦ VCond w (Nat.min w (S s)) -∗ Φ tt) -∗ awp (OCondSignal l) E Φ.
Proof. apply awp_cell_upd. solve_cell. Qed.

Lemma awp_cond_sleep E cv m w s Φ :
  cv ↦ VCond w s -∗ m ↦ VLock MutexLock true -∗
  ▷ (cv ↦ VCond (S w) s -∗ m ↦ VLock MutexLock false -∗ Φ tt) -∗
  awp (OCondSleep cv m) E Φ.
Proof.
  iIntros "Hc Hl HΦ %σ (Hm & %Hb & %Hg)".
  with_strategy transparent [pt] (iDestruct (ghost_map_lookup with "Hm Hc") as %Hc).
  with_strategy transparent [pt] (iDestruct (ghost_map_lookup with "Hm Hl") as %Hl).
  iModIntro. simpl. rewrite Hc Hl. iSplit; [done|]. iNext.
  iIntros (c x σ' Hx). simplify_eq.
  with_strategy transparent [pt] (iMod (ghost_map_update (VLock MutexLock false) with "Hm Hl") as "[Hm Hl]").
  with_strategy transparent [pt] (iMod (ghost_map_update (VCond (S w) s) with "Hm Hc") as "[Hm Hc]").
  iModIntro. iFrame "Hm". iSplit; [|by iApply ("HΦ" with "Hc Hl")].
  iPureIntro. split; [|done]. intros l'. simpl.
  rewrite dom_insert_L dom_insert_L. intros [->%elem_of_singleton|[->%elem_of_singleton|?]%elem_of_union]%elem_of_union;
    apply Hb; [| |done]; by apply elem_of_dom_2 in Hc, Hl.
Qed.

Lemma awp_futex_sleep E l dq z e Φ :
  l ↦{dq} VInt z -∗ ▷ (∀ b, l ↦{dq} VInt z -∗ Φ b) -∗ awp (OFutexSleep l e) E Φ.
Proof.
  iIntros "Hl HΦ". iApply (awp_cell_look _ _ _ _ _ (λ _, True) with "Hl").
  { intros σ H. simpl. rewrite H. split.
    - case_decide; [|done]. by destruct (default _ _).
    - intros c x σ' Hx. case_decide; [|by simplify_eq].
      destruct (default _ _). by simplify_eq. }
  iNext. iIntros (x _). iApply "HΦ".
Qed.

(** Operations that do not touch memory. *)
Lemma awp_stateless {X : Set} (o : cop X) E (Q : X → Prop) Φ :
  (∀ σ, exec_op 0 o σ ≠ Fault ∧ ∀ c x σ', exec_op c o σ = Ok x σ' → mem σ' = mem σ ∧
       next_block σ' = next_block σ ∧ out σ' = out σ ∧ Q x) →
  ▷ (∀ x, ⌜Q x⌝ -∗ Φ x) -∗ awp o E Φ.
Proof.
  iIntros (Ho) "HΦ %σ (Hm & %Hb & %Hg)". destruct (Ho σ) as [Hnf Hok].
  iModIntro. iSplit; [done|]. iNext.
  iIntros (c x σ' Hx). destruct (Hok _ _ _ Hx) as (Hm & Hn & Hout & HQ).
  iModIntro. iSplitR "HΦ"; [|by iApply "HΦ"].
  unfold c_interp, blocks_ok. rewrite Hm Hn Hout. by iFrame.
Qed.

Lemma awp_futex_resume E l Φ : ▷ (∀ b, Φ b) -∗ awp (OFutexResume l) E Φ.
Proof.
  iIntros "HΦ". iApply (awp_stateless _ _ (λ _, True)).
  { intros σ. simpl. split; [by repeat case_match|]. intros c x σ' Hx.
    repeat case_match; by simplify_eq. }
  iNext. iIntros (x _). iApply "HΦ".
Qed.

Lemma awp_futex_wake E l n Φ : ▷ Φ tt -∗ awp (OFutexWake l n) E Φ.
Proof.
  iIntros "HΦ". iApply (awp_stateless _ _ (λ x, x = tt)).
  { intros σ. simpl. destruct (default _ _). split; [done|]. intros c x σ' Hx. by simplify_eq. }
  iNext. iIntros (x ->). iApply "HΦ".
Qed.

Lemma awp_choose E Φ : ▷ (∀ n, Φ n) -∗ awp OChoose E Φ.
Proof.
  iIntros "HΦ". iApply (awp_stateless _ _ (λ _, True)).
  { intros σ. simpl. split; [done|]. intros c x σ' Hx. by simplify_eq. }
  iNext. iIntros (x _). iApply "HΦ".
Qed.

Lemma awp_print E e Φ : c_good e → ▷ Φ tt -∗ awp (OPrint e) E Φ.
Proof.
  iIntros (He) "HΦ %σ (Hm & %Hb & %Hg)". iModIntro. iSplit; [done|]. iNext.
  iIntros (c x σ' Hx). simplify_eq/=. iModIntro. iFrame. iPureIntro.
  split; [exact Hb|]. apply Forall_app. by repeat constructor.
Qed.

(** *** Allocation *)

(** The block that [malloc] returned at [l], with contents [vs]. *)
Definition block_at (l : loc) (vs : list cval) : iProp Σ :=
  ⌜l.2 = 0⌝ ∗ (l ⟶ (-1)) ↦ VSize (length vs) ∗
  [∗ list] i ↦ v ∈ vs, (l ⟶ Z.of_nat i) ↦ v.

Lemma cells_lookup b i vs j :
  cells b i vs !! (b, j) = if decide (i ≤ j) then vs !! Z.to_nat (j - i) else None.
Proof.
  revert i. induction vs as [|v vs IH]; intros i; simpl.
  - rewrite lookup_empty. by case_decide.
  - destruct (decide (i = j)) as [->|Hne].
    + rewrite lookup_insert_eq decide_True; [|lia]. by rewrite Z.sub_diag.
    + rewrite lookup_insert_ne; [|congruence]. rewrite IH.
      repeat case_decide; try lia; [|done].
      replace (Z.to_nat (j - i)) with (S (Z.to_nat (j - (i + 1)))) by lia. done.
Qed.

Lemma cells_block b i vs l : l ∈ dom (cells b i vs) → l.1 = b.
Proof.
  revert i. induction vs as [|v vs IH]; intros i; simpl; [set_solver|].
  rewrite dom_insert_L. intros [->%elem_of_singleton|?]%elem_of_union; [done|by eapply IH].
Qed.

Lemma cells_sep b i vs :
  ([∗ map] l ↦ v ∈ cells b i vs, l ↦ v) ⊢ [∗ list] j ↦ v ∈ vs, (b, i + Z.of_nat j) ↦ v.
Proof.
  revert i. induction vs as [|v vs IH]; intros i; simpl; [auto|].
  rewrite big_sepM_insert.
  - rewrite IH Z.add_0_r. iIntros "[$ H]".
    iApply (big_sepL_mono with "H"). intros j w _. simpl.
    by replace (i + 1 + Z.of_nat j) with (i + Z.of_nat (S j)) by lia.
  - rewrite cells_lookup decide_False; [done|lia].
Qed.

Lemma fresh_block_at b vs :
  ([∗ map] l ↦ v ∈ fresh_block b vs, l ↦ v) ⊢ block_at (b, 0) vs.
Proof.
  iIntros "Hcells".
  iDestruct (cells_sep b (-1) (VSize (length vs) :: vs) with "Hcells") as "[$ Hcells]".
  iSplit; [done|]. iApply (big_sepL_mono with "Hcells"). intros i v _. simpl.
  unfold fld. simpl. by replace (-1 + Z.of_nat (S i)) with (0 + Z.of_nat i) by lia.
Qed.

Lemma awp_alloc E vs Φ :
  ▷ (Φ None ∧ (∀ l, block_at l vs -∗ Φ (Some l))) -∗ awp (OAlloc vs) E Φ.
Proof.
  iIntros "HΦ %σ (Hm & %Hb & %Hg)". iModIntro. iSplit; [done|]. iNext.
  iIntros (c x σ' Hx). destruct c as [|c]; simplify_eq/=; last first.
  { iModIntro. iFrame "Hm". iSplit; [done|]. iDestruct "HΦ" as "[$ _]". }
  set (b := next_block σ).
  assert (fresh_block b vs ##ₘ mem σ) as Hdisj.
  { apply map_disjoint_dom. intros l Hl1 Hl2. apply cells_block in Hl1.
    apply Hb in Hl2. subst b. lia. }
  iMod (ghost_map_insert_big (fresh_block b vs) with "Hm") as "[Hm Hcells]"; [done|].
  iModIntro. iFrame "Hm". iSplit.
  { iPureIntro. split; [|done]. intros l. simpl. rewrite dom_union_L.
    intros [Hl%cells_block|Hl%Hb]%elem_of_union; subst b; lia. }
  iDestruct "HΦ" as "[_ HΦ]". iApply "HΦ".
  iApply (fresh_block_at b with "[Hcells]"). with_strategy transparent [pt] done.
Qed.

Lemma awp_new_thread E n Φ :
  thread_slots ↦ VSem n -∗
  ▷ (match n with
     | O => thread_slots ↦ VSem 0 -∗ Φ None
     | S n' => ∀ h, thread_slots ↦ VSem n' -∗ block_at h [VInt 0] -∗ Φ (Some h)
     end) -∗
  awp ONewThread E Φ.
Proof.
  iIntros "Hl HΦ". destruct n as [|n].
  { iApply (awp_cell_look _ _ _ _ _ (λ x, x = None) with "Hl"); [solve_cell|].
    iNext. iIntros (x ->). done. }
  iIntros (σ) "(Hm & %Hb & %Hg)".
  with_strategy transparent [pt] (iDestruct (ghost_map_lookup with "Hm Hl") as %Hlk).
  with_strategy transparent [pt] (iMod (ghost_map_update (VSem n) with "Hm Hl") as "[Hm Hl]").
  set (b := next_block σ).
  assert (fresh_block b [VInt 0] ##ₘ <[thread_slots := VSem n]> (mem σ)) as Hdisj.
  { apply map_disjoint_dom. rewrite dom_insert_lookup_L; [|by eauto].
    intros l Hl1 Hl2. apply cells_block in Hl1. apply Hb in Hl2. subst b. lia. }
  iMod (ghost_map_insert_big (fresh_block b [VInt 0]) with "Hm") as "[Hm Hcells]"; [done|].
  iModIntro. simpl. rewrite Hlk. iSplit; [done|]. iNext.
  iIntros (c x σ' Hx). simplify_eq. iModIntro. iFrame "Hm". iSplit.
  { iPureIntro. split; [|done]. intros l. rewrite dom_union_L dom_insert_lookup_L; [|by eauto].
    intros [Hl%cells_block|Hl%Hb]%elem_of_union; subst b; simpl; lia. }
  iApply ("HΦ" with "Hl"). iApply (fresh_block_at b with "[Hcells]").
  with_strategy transparent [pt] done.
Qed.

Lemma drop_cells_sep b i vs m :
  ghost_map_auth c_mem_name 1 m -∗ ([∗ list] j ↦ v ∈ vs, (b, i + Z.of_nat j) ↦ v) ==∗
  ∃ m', ⌜drop_cells b i (length vs) m = Some m' ∧ dom m' ⊆ dom m⌝ ∗
        ghost_map_auth c_mem_name 1 m'.
Proof.
  revert i m. induction vs as [|v vs IH]; intros i m; simpl.
  { iIntros "Hm _ !>". iExists m. by iFrame. }
  iIntros "Hm [Hl Hcells]". rewrite Z.add_0_r.
  with_strategy transparent [pt] (iDestruct (ghost_map_lookup with "Hm Hl") as %Hl).
  with_strategy transparent [pt] (iMod (ghost_map_delete with "Hm Hl") as "Hm").
  iMod (IH (i + 1) with "Hm [Hcells]") as (m') "[%Hd Hm]".
  { iApply (big_sepL_mono with "Hcells"). intros j w _. simpl.
    by replace (i + 1 + Z.of_nat j) with (i + Z.of_nat (S j)) by lia. }
  iModIntro. iExists m'. iFrame. rewrite Hl. iPureIntro. split; [apply Hd|]. set_solver.
Qed.

Lemma awp_free_null E Φ : ▷ Φ tt -∗ awp (OFree None) E Φ.
Proof.
  iIntros "HΦ". iApply (awp_stateless _ _ (λ x, x = tt)).
  { intros σ. simpl. split; [done|]. intros c x σ' Hx. by simplify_eq. }
  iNext. iIntros (x ->). iApply "HΦ".
Qed.

Lemma awp_free E l vs Φ : block_at l vs -∗ ▷ Φ tt -∗ awp (OFree (Some l)) E Φ.
Proof.
  iIntros "(%Hl & Hh & Hcells) HΦ %σ (Hm & %Hb & %Hg)". destruct l as [b i]. simpl in Hl. subst i.
  unfold fld. simpl.
  with_strategy transparent [pt] (iDestruct (ghost_map_lookup with "Hm Hh") as %Hh).
  with_strategy transparent [pt] (iMod (ghost_map_delete with "Hm Hh") as "Hm").
  iMod (drop_cells_sep b 0 vs with "Hm Hcells") as (m') "[%Hd Hm]".
  destruct Hd as [Hd Hdom]. iModIntro. simpl. rewrite Hh Hd. iSplit; [done|]. iNext.
  iIntros (c x σ' Hx). simplify_eq. iModIntro. iFrame. iPureIntro. split; [|done].
  intros l Hin. simpl in *. apply Hb. set_solver.
Qed.

End rules.
#[global] Opaque awp.
#[global] Typeclasses Opaque awp.

(** ** Adequacy *)

Lemma cstep_erased ps σ ps' σ' :
  cstep (ps, σ) (ps', σ') → erased_step (Λ:=c_lang) (ps, σ) (ps', σ').
Proof.
  intros [[i c] H]. simpl in H. destruct (exited σ); [done|].
  destruct (ps !! i) as [p|] eqn:Hi; [|done].
  destruct (tstep c p σ) as [p' σ1 forked| |] eqn:Hs; [|done..].
  injection H as <- <-. exists []. apply list_elem_of_split_length in Hi as (t1 & t2 & -> & ->).
  apply (step_atomic (Λ:=c_lang)) with (e1 := p) (σ1 := σ) (e2 := p') (σ2 := σ1)
    (efs := forked) (t1 := t1) (t2 := t2); [done| |by split; eauto].
  f_equal. rewrite insert_app_r_alt; [|done]. rewrite Nat.sub_diag /= -app_assoc. done.
Qed.

Lemma csteps_erased ρ ρ' : rtc cstep ρ ρ' → rtc (erased_step (Λ:=c_lang)) ρ ρ'.
Proof.
  induction 1 as [|[] [] ? Hs _ IH]; [done|]. eapply rtc_l; [|done]. by apply cstep_erased.
Qed.

Lemma not_stuck_no_fault p σ : not_stuck (Λ:=c_lang) p σ → ¬ faulting σ p.
Proof.
  unfold faulting. intros [[v Hv]|(κ & p' & σ' & efs & _ & [[c Hs]|(-> & _)])] Hf; [|  |done].
  - by destruct p.
  - destruct p; simpl in *; try done.
    destruct (exec_op 0 o σ) eqn:E0; [done|]. apply (exec_op_fault_choice _ c) in E0.
    by rewrite E0 in Hs.
Qed.

(** Initial states whose cells all lie in block 0, the globals. *)
Lemma globals_ok σ :
  map_Forall (λ l _, l.1 = 0%nat) (mem σ) → (0 < next_block σ)%nat → blocks_ok σ.
Proof. intros Hm Hn l [v Hl]%elem_of_dom. apply Hm in Hl. lia. Qed.

Ltac solve_globals :=
  apply globals_ok;
    [repeat (apply map_Forall_insert_2; [done|]); apply map_Forall_empty|simpl; lia].

(** A pool of programs verified for the initial memory is safe in every
    interleaving and prints good events only. *)
Theorem pool_safe Σ `{!cGpreS Σ} (good : event → Prop) (ps : list (prog unit)) (σ : cstate) :
  blocks_ok σ → Forall good (out σ) →
  (∀ `{!cGS Σ}, c_good = good →
     ⊢ ([∗ map] l ↦ v ∈ mem σ, l ↦ v) ={⊤}=∗ [∗ list] p ∈ ps, cwp p (λ _, True)) →
  ∀ ps' σ', rtc cstep (ps, σ) (ps', σ') →
    Forall (λ q, ¬ faulting σ' q) ps' ∧ Forall good (out σ').
Proof.
  intros Hb Hg Hwp ps' σ' Hsteps%csteps_erased.
  apply erased_steps_nsteps in Hsteps as (n & κs & Hsteps).
  eapply (wp_strong_adequacy Σ c_lang NotStuck _ _ _ _ _ _ _ (λ _, 0%nat)); [|exact Hsteps].
  iIntros (Hinv). iMod (ghost_map_alloc (mem σ)) as (γ) "[Hm Hcells]".
  set (HC := CGS Σ Hinv _ γ good).
  iMod (Hwp HC eq_refl with "[Hcells]") as "Hp".
  { with_strategy transparent [pt] done. }
  iModIntro. iExists (λ σ _ _ _, c_interp σ), (replicate (length ps) (λ _, True)%I), (λ _, True)%I,
    (λ _ _ _ _, fupd_intro _ _).
  iSplitL "Hm"; [by iFrame|]. iSplitL "Hp".
  { iApply big_sepL2_replicate_r; [done|]. iApply (big_sepL_impl with "Hp").
    iIntros "!> %i %p _ Hp". iApply (cwp_thread (cGS0 := HC) with "Hp"). }
  iIntros (es' t2' -> _ Hns) "(_ & _ & %Hgood) _ _".
  iApply fupd_mask_intro; [set_solver|]. iIntros "_". iPureIntro. split; [|done].
  apply Forall_forall. intros q Hq. apply not_stuck_no_fault. by apply Hns.
Qed.
