(* ===== verification/Pthread.v ===== *)
(** * Pthread: the C library calls of the threaded programs

    [malloc]/[free], [assert]/[abort], typed loads and stores, POSIX
    threads, mutexes, spin locks, semaphores, read-write locks and condition
    variables as programs of [Machine], each with its specification in the
    logic of [Logic].  The three lock families are instances of one
    interface, [LockCell]: what a lock promises to the code between
    [lock] and [unlock]. *)
From iris.algebra Require Import auth numbers.
From iris.proofmode Require Import proofmode.
From S2P Require Import Prelude Machine Logic.
#[local] Open Scope Z_scope.

(** ** Calls *)

Definition load (l : loc) : prog cval := Act (OLoad l) Ret.
Definition store (l : loc) (v : cval) : prog unit := Act (OStore l v) Ret.
Definition ub {A : Type} (why : string) : prog A :=
  Act (OUB why) (λ x : Empty_set, match x with end).
Definition print (e : event) : prog unit := Act (OPrint e) Ret.
Definition env_choice : prog nat := Act OChoose Ret.

(** Using an indeterminate value, or a value of another type, is undefined. *)
Definition load_int (l : loc) : prog Z :=
  v ← load l; match v with VInt z => Ret z | _ => ub "not an integer" end.
Definition load_ptr (l : loc) : prog ptr :=
  v ← load l; match v with VPtr p => Ret p | _ => ub "not a pointer" end.
Definition load_str (l : loc) : prog string :=
  v ← load l; match v with VStr s => Ret s | _ => ub "not a string" end.
Definition deref (p : ptr) : prog loc :=
  match p with Some l => Ret l | None => ub "null pointer" end.

Definition malloc (vs : list cval) : prog ptr := Act (OAlloc vs) Ret.
Definition free (p : ptr) : prog unit := Act (OFree p) Ret.

Definition SIGABRT_STATUS : Z := 134.
Definition abort {A : Type} : prog A := Exit SIGABRT_STATUS.
Definition assert (b : bool) (cond : string) : prog unit :=
  if b then Ret tt else print (EvAssert cond);; abort.

(** Repeat an attempt until it succeeds. *)
Definition until (attempt : prog bool) : prog unit :=
  Loop (λ _ : unit, b ← attempt; Ret (if b : bool then inr tt else inl tt)) tt Ret.
Definition until_op (o : cop bool) : prog unit := until (Act o Ret).

Definition pthread_mutex_lock (m : loc) : prog unit := until_op (OTryLock MutexLock m).
Definition pthread_mutex_unlock (m : loc) : prog unit := Act (OUnlock MutexLock m) Ret.
Definition pthread_spin_lock (m : loc) : prog unit := until_op (OTryLock SpinLock m).
Definition pthread_spin_unlock (m : loc) : prog unit := Act (OUnlock SpinLock m) Ret.
Definition sem_wait (s : loc) : prog unit := until_op (OSemTryWait s).
Definition sem_post (s : loc) : prog unit := Act (OSemPost s) Ret.
Definition pthread_rwlock_rdlock (l : loc) : prog unit := until_op (OTryRdLock l).
Definition pthread_rwlock_wrlock (l : loc) : prog unit := until_op (OTryWrLock l).
Definition pthread_rwlock_unlock (l : loc) : prog unit := Act (ORwUnlock l) Ret.
Definition pthread_cond_wait (c m : loc) : prog unit :=
  Act (OCondSleep c m) Ret;; until_op (OCondWake c);; pthread_mutex_lock m.
Definition pthread_cond_signal (c : loc) : prog unit := Act (OCondSignal c) Ret.

(** [pthread_create] returns the error code ([EAGAIN] when the process may
    not create another thread) and the thread handle: a cell that is 0 while
    the thread runs and 1 once its function has returned. *)
Definition EAGAIN : Z := 11.

Definition pthread_create (start : prog unit) : prog (Z * ptr) :=
  h ← Act ONewThread Ret;
  match h with
  | None => Ret (EAGAIN, None)
  | Some t => Fork (start;; store t (VInt 1)) (Ret (0, Some t))
  end.

(** [pthread_join] of a joinable thread waits for it and returns 0; joining
    an indeterminate handle is undefined (the caller loads it with
    [load_ptr]). *)
Definition pthread_join (tid : ptr) : prog Z :=
  t ← deref tid;
  until (z ← load_int t; Ret (bool_decide (z = 1)));;
  Ret 0.

(** Initialisation and destruction.  An [_init] may report an error, in which
    case the object keeps the value it had; destroying an object in use is
    undefined. *)
Definition init_cell (l : loc) (v : cval) : prog Z :=
  err ← env_choice;
  match err with
  | O => store l v;; Ret 0
  | S _ => Ret (Z.of_nat err)
  end.
Definition pthread_mutex_init (m : loc) : prog Z := init_cell m (VLock MutexLock false).

(** An attribute object, given by what the variable holds: [VUndef] for one
    that [pthread_mutexattr_init] has not been called for, which neither call
    accepts. *)
Definition pthread_mutexattr_setpshared (att : cval) : prog unit :=
  match att with VUndef => ub "attribute not initialised" | _ => Ret tt end.
Definition pthread_mutex_init_with (m : loc) (att : cval) : prog Z :=
  match att with VUndef => ub "attribute not initialised" | _ => pthread_mutex_init m end.
Definition pthread_spin_init (m : loc) : prog Z := init_cell m (VLock SpinLock false).

(** Initialising an object that is a semaphore already is undefined. *)
Definition sem_init (s : loc) (value : nat) : prog Z :=
  v ← load s;
  match v with VSem _ => ub "already a semaphore" | _ => init_cell s (VSem value) end.
Definition pthread_cond_init (c : loc) : prog Z := init_cell c (VCond 0 0).
Definition pthread_rwlock_init (l : loc) : prog Z := init_cell l (VRw 0 false).

Definition destroy_cell (l : loc) (idle : cval) : prog Z :=
  v ← load l;
  if decide (v = idle) then store l VUndef;; Ret 0 else ub "destroyed while in use".
Definition pthread_mutex_destroy (m : loc) : prog Z := destroy_cell m (VLock MutexLock false).
Definition sem_destroy (s : loc) : prog Z :=
  v ← load s;
  match v with VSem _ => store s VUndef;; Ret 0 | _ => ub "not a semaphore" end.
Definition pthread_spin_destroy (m : loc) : prog Z := destroy_cell m (VLock SpinLock false).

Definition EXIT_SUCCESS : Z := 0.
Definition EXIT_FAILURE : Z := 1.

(** Returning from [main] ends the process. *)
Definition process (main : prog Z) : prog unit := status ← main; Exit status.

(** [usleep], [sleep], [sched_yield]: other threads may run anyway. *)
Definition usleep (usec : Z) : prog unit := Ret tt.
Definition sleep (sec : Z) : prog unit := Ret tt.
Definition sched_yield : prog unit := Ret tt.

(** ** Specifications *)

Lemma cwp_bind' `{!cGS Σ} {A B : Type} (p : prog A) (f : A → prog B) Φ :
  cwp p (λ a, cwp (f a) Φ) -∗ cwp (p ≫= f) Φ.
Proof. apply cwp_bind. Qed.

(** Step into the first statement; finish a fragment. *)
Ltac c_simp := cbv beta iota.
Ltac c_bind := c_simp; iApply cwp_bind'.
Ltac c_ret := c_simp; iApply cwp_ret.

Section spec.
Context `{!cGS Σ}.

Lemma cwp_load l dq v Φ : l ↦{dq} v -∗ ▷ (l ↦{dq} v -∗ Φ v) -∗ cwp (load l) Φ.
Proof. iIntros "Hl HΦ". iApply cwp_op. by iApply (awp_load with "Hl"). Qed.

Lemma cwp_load_int l dq z Φ :
  l ↦{dq} VInt z -∗ ▷ (l ↦{dq} VInt z -∗ Φ z) -∗ cwp (load_int l) Φ.
Proof.
  iIntros "Hl HΦ". iApply cwp_bind'. iApply (cwp_load with "Hl"). iNext.
  iIntros "Hl". iApply cwp_ret. by iApply "HΦ".
Qed.

Lemma cwp_load_ptr l dq p Φ :
  l ↦{dq} VPtr p -∗ ▷ (l ↦{dq} VPtr p -∗ Φ p) -∗ cwp (load_ptr l) Φ.
Proof.
  iIntros "Hl HΦ". iApply cwp_bind'. iApply (cwp_load with "Hl"). iNext.
  iIntros "Hl". iApply cwp_ret. by iApply "HΦ".
Qed.

Lemma cwp_load_str l dq s Φ :
  l ↦{dq} VStr s -∗ ▷ (l ↦{dq} VStr s -∗ Φ s) -∗ cwp (load_str l) Φ.
Proof.
  iIntros "Hl HΦ". iApply cwp_bind'. iApply (cwp_load with "Hl"). iNext.
  iIntros "Hl". iApply cwp_ret. by iApply "HΦ".
Qed.

Lemma cwp_store l v w Φ : l ↦ v -∗ ▷ (l ↦ w -∗ Φ tt) -∗ cwp (store l w) Φ.
Proof. iIntros "Hl HΦ". iApply cwp_op. by iApply (awp_store with "Hl"). Qed.

Lemma cwp_print e Φ : c_good e → ▷ Φ tt -∗ cwp (print e) Φ.
Proof. iIntros (?) "HΦ". iApply cwp_op. by iApply awp_print. Qed.

Lemma cwp_env_choice Φ : ▷ (∀ n, Φ n) -∗ cwp env_choice Φ.
Proof. iIntros "HΦ". iApply cwp_op. by iApply awp_choose. Qed.

Lemma cwp_malloc vs Φ :
  ▷ (Φ None ∧ (∀ l, block_at l vs -∗ Φ (Some l))) -∗ cwp (malloc vs) Φ.
Proof. iIntros "HΦ". iApply cwp_op. by iApply awp_alloc. Qed.

Lemma cwp_free l vs Φ : block_at l vs -∗ ▷ Φ tt -∗ cwp (free (Some l)) Φ.
Proof. iIntros "Hl HΦ". iApply cwp_op. by iApply (awp_free with "Hl"). Qed.

Lemma cwp_assert b s Φ : b = true → Φ tt -∗ cwp (assert b s) Φ.
Proof. iIntros (->) "HΦ". by iApply cwp_ret. Qed.

Lemma cwp_init_cell l v w Φ :
  l ↦ v -∗ ▷ ((∀ e, ⌜e ≠ 0⌝ -∗ l ↦ v -∗ Φ e) ∧ (l ↦ w -∗ Φ 0)) -∗ cwp (init_cell l w) Φ.
Proof.
  iIntros "Hl HΦ". c_bind. iApply cwp_env_choice. iNext. iIntros ([|n]).
  - c_bind. iApply (cwp_store with "Hl"). iNext. iIntros "Hl". c_ret.
    iDestruct "HΦ" as "[_ HΦ]". by iApply "HΦ".
  - c_ret. iDestruct "HΦ" as "[HΦ _]". iApply ("HΦ" with "[] Hl"). iPureIntro. lia.
Qed.

Lemma cwp_until (attempt : prog bool) I Φ :
  I -∗ □ (I -∗ cwp attempt (λ b, if b then Φ tt else I)) -∗ cwp (until attempt) Φ.
Proof.
  iIntros "HI #H". iApply (cwp_loop _ _ (λ _, I) with "HI").
  iIntros "!> %x HI". iApply cwp_bind'. iApply (cwp_mono with "[] (H HI)").
  iIntros ([]) "HI"; by iApply cwp_ret.
Qed.

(** *** Locks *)

(** A lock is a cell with a free and a busy value and two operations: an
    attempt that makes the free cell busy, and a release. *)
Class LockCell (try : loc → cop bool) (release : loc → cop unit)
    (vfree vbusy : cval) : Prop := {
  lc_try_ok E l Φ : l ↦ vfree -∗ ▷ (l ↦ vbusy -∗ Φ true) -∗ awp (try l) E Φ;
  lc_try_busy E l dq Φ :
    l ↦{dq} vbusy -∗ ▷ (l ↦{dq} vbusy -∗ Φ false) -∗ awp (try l) E Φ;
  lc_release E l Φ : l ↦ vbusy -∗ ▷ (l ↦ vfree -∗ Φ tt) -∗ awp (release l) E Φ;
}.

#[global] Instance mutex_cell :
  LockCell (OTryLock MutexLock) (OUnlock MutexLock) (VLock MutexLock false) (VLock MutexLock true).
Proof. split; intros; [apply awp_trylock_ok|apply awp_trylock_busy|apply awp_unlock]. Qed.

#[global] Instance spin_cell :
  LockCell (OTryLock SpinLock) (OUnlock SpinLock) (VLock SpinLock false) (VLock SpinLock true).
Proof. split; intros; [apply awp_trylock_ok|apply awp_trylock_busy|apply awp_unlock]. Qed.

#[global] Instance sem_cell : LockCell OSemTryWait OSemPost (VSem 1) (VSem 0).
Proof. split; intros; [apply awp_sem_wait_ok|apply awp_sem_wait_busy|apply awp_sem_post]. Qed.

Definition lockN : namespace := nroot .@ "lock".

(** The lock at [l] protects [R]; while it is held the holder has half of
    its cell, so nobody else can release it. *)
Definition is_lock (vfree vbusy : cval) (l : loc) (R : iProp Σ) : iProp Σ :=
  inv lockN (l ↦ vfree ∗ R ∨ l ↦{#1/2} vbusy).
Definition locked (vbusy : cval) (l : loc) : iProp Σ := l ↦{#1/2} vbusy.

#[global] Instance is_lock_persistent vf vb l R : Persistent (is_lock vf vb l R).
Proof. apply _. Qed.

Lemma is_lock_alloc vf vb l R : l ↦ vf -∗ R ={⊤}=∗ is_lock vf vb l R.
Proof. iIntros "Hl HR". iApply inv_alloc. iNext. iLeft. iFrame. Qed.

(** A lock that starts out held by the caller. *)
Lemma is_lock_alloc_held vf vb l R : l ↦ vb ={⊤}=∗ is_lock vf vb l R ∗ locked vb l.
Proof.
  iIntros "[Hl $]". iApply inv_alloc. iNext. by iRight.
Qed.

Lemma cwp_lock `{!LockCell try release vf vb} l R Φ :
  is_lock vf vb l R -∗ ▷ (locked vb l -∗ R -∗ Φ tt) -∗ cwp (until_op (try l)) Φ.
Proof.
  iIntros "#Hlk HΦ". iApply (cwp_until _ (▷ (locked vb l -∗ R -∗ Φ tt)) with "HΦ").
  iIntros "!> HΦ". iApply (cwp_op_inv with "Hlk"). iIntros "[[>Hl HR]|>Hl]".
  - iApply (lc_try_ok with "Hl"). iNext. iIntros "[Hl1 Hl2]". iSplitL "Hl1"; [by iRight|].
    by iApply ("HΦ" with "Hl2 HR").
  - iApply (lc_try_busy with "Hl"). iNext. iIntros "Hl". iSplitL "Hl"; [by iRight|]. done.
Qed.

Lemma cwp_unlock `{!LockCell try release vf vb} l R Φ :
  vf ≠ vb → is_lock vf vb l R -∗ locked vb l -∗ R -∗ ▷ Φ tt -∗ cwp (Act (release l) Ret) Φ.
Proof.
  iIntros (Hne) "#Hlk Hl HR HΦ". iApply (cwp_op_inv with "Hlk"). iIntros "[[>Hl' _]|>Hl']".
  - iDestruct (pt_agree with "Hl' Hl") as %?. done.
  - iDestruct (pt_halves with "Hl Hl'") as "[_ Hl]".
    iApply (lc_release with "Hl"). iNext. iIntros "Hl". iSplitR "HΦ"; [|done].
    iNext. iLeft. iFrame.
Qed.

(** An [_init] that succeeds while the lock counts as held releases it; one
    that fails leaves it held for ever. *)
Lemma cwp_init_lock vf vb l R Φ :
  vf ≠ vb → is_lock vf vb l R -∗ locked vb l -∗ R -∗ ▷ (∀ e, Φ e) -∗ cwp (init_cell l vf) Φ.
Proof.
  iIntros (Hne) "#Hlk Hl HR HΦ". c_bind. iApply cwp_env_choice. iNext. iIntros ([|n]).
  - c_bind. iApply (cwp_op_inv with "Hlk"). iIntros "[[>Hl' _]|>Hl']".
    { iDestruct (pt_agree with "Hl' Hl") as %?. done. }
    iDestruct (pt_halves with "Hl Hl'") as "[_ Hl]".
    iApply (awp_store with "Hl"). iNext. iIntros "Hl". iSplitR "HΦ".
    { iNext. iLeft. iFrame. }
    by c_ret.
  - by c_ret.
Qed.

(** *** Threads *)

Definition joinN : namespace := nroot .@ "join".

(** The right to join the thread [t] and collect what it leaves, [P].  The
    header of the handle's block is the token that makes it one-shot. *)
Definition join_inv (t : loc) (P : iProp Σ) : iProp Σ :=
  t ↦ VInt 0 ∨ t ↦ VInt 1 ∗ (P ∨ (t ⟶ (-1)) ↦ VSize 1).
Definition join_handle (t : loc) (P : iProp Σ) : iProp Σ :=
  inv joinN (join_inv t P) ∗ (t ⟶ (-1)) ↦ VSize 1.

Lemma cwp_pthread_create n start P Φ :
  thread_slots ↦ VSem n -∗ cwp start (λ _, P) -∗
  ▷ (match n with
     | O => thread_slots ↦ VSem 0 -∗ Φ (EAGAIN, None)
     | S n' => ∀ t, thread_slots ↦ VSem n' -∗ join_handle t P -∗ Φ (0, Some t)
     end) -∗
  cwp (pthread_create start) Φ.
Proof.
  iIntros "Hn Hs HΦ". c_bind. iApply cwp_op. iApply (awp_new_thread with "Hn"). iNext.
  destruct n as [|n]; [iIntros "Hn"; c_ret; by iApply "HΦ"|].
  iIntros ([b i]) "Hn (%Hi & Hh & Hc & _)". simpl in Hi. subst i.
  change ((b, 0) ⟶ Z.of_nat 0) with (b, 0).
  iMod (inv_alloc joinN _ (join_inv (b, 0) P) with "[Hc]") as "#Hinv"; [by iLeft|].
  iApply (cwp_fork with "[Hs]").
  - c_bind. iApply (cwp_mono with "[] Hs"). iIntros ([]) "HP".
    iApply (cwp_op_inv with "Hinv"). iIntros "[>Hc|[>Hc HP']]";
      (iApply (awp_store with "Hc"); iNext; iIntros "Hc"; iSplit; [|done]; iRight; iFrame).
  - c_ret. iApply ("HΦ" with "Hn"). iFrame "Hinv Hh".
Qed.

Lemma cwp_pthread_join t P Φ :
  join_handle t P -∗ ▷ (▷ P -∗ Φ 0) -∗ cwp (pthread_join (Some t)) Φ.
Proof.
  iIntros "[#Hinv Hh] HΦ". c_bind. c_ret. c_bind.
  iApply (cwp_until _ ((t ⟶ (-1)) ↦ VSize 1 ∗ ▷ (▷ P -∗ Φ 0)) with "[$Hh $HΦ]").
  iIntros "!> [Hh HΦ]". c_bind. c_bind.
  iApply (cwp_op_inv with "Hinv"). iIntros "[>Hc|[>Hc [HP|>Hh']]]".
  - iApply (awp_load with "Hc"). iNext. iIntros "Hc". iSplitL "Hc"; [by iLeft|].
    do 2 c_ret. iFrame.
  - iApply (awp_load with "Hc"). iNext. iIntros "Hc". iSplitL "Hc Hh".
    { iNext. iRight. iFrame. }
    do 3 c_ret. by iApply "HΦ".
  - iDestruct (pt_excl with "Hh Hh'") as %[].
Qed.

End spec.

Section shared.
Context `{!cGS Σ}.

(** *** Integers read without a lock

    Half of such a cell lives in an invariant that says what any reader may
    see; the other half belongs to whoever may write it. *)
Definition statN : namespace := nroot .@ "stat".
Definition shared_int (P : Z → Prop) (l : loc) : iProp Σ :=
  inv statN (∃ z, ⌜P z⌝ ∗ l ↦{#1/2} VInt z).
Definition any_int (z : Z) : Prop := True.

Lemma shared_int_alloc (P : Z → Prop) l z :
  P z → l ↦ VInt z ={⊤}=∗ shared_int P l ∗ l ↦{#1/2} VInt z.
Proof. iIntros (Hz) "[Hl $]". iApply inv_alloc. iNext. iExists z. by iFrame. Qed.

Lemma cwp_load_shared P l Φ :
  shared_int P l -∗ ▷ (∀ z, ⌜P z⌝ -∗ Φ z) -∗ cwp (load_int l) Φ.
Proof.
  iIntros "#Hs HΦ". c_bind. iApply (cwp_op_inv with "Hs"). iIntros "(%z & >%Hz & >Hl)".
  iApply (awp_load with "Hl"). iNext. iIntros "Hl". iSplitL "Hl"; [iExists z; by iFrame|].
  c_ret. by iApply "HΦ".
Qed.

Lemma cwp_store_shared (P : Z → Prop) l z w Φ :
  P w → shared_int P l -∗ l ↦{#1/2} VInt z -∗ ▷ (l ↦{#1/2} VInt w -∗ Φ tt) -∗
  cwp (store l (VInt w)) Φ.
Proof.
  iIntros (Hw) "#Hs Hl HΦ". iApply (cwp_op_inv with "Hs"). iIntros "(%z' & _ & >Hl')".
  iDestruct (pt_halves with "Hl Hl'") as "[_ Hl]".
  iApply (awp_store with "Hl"). iNext. iIntros "[Hl Hl']". iSplitL "Hl"; [iExists w; by iFrame|].
  by iApply "HΦ".
Qed.

Lemma cwp_upd_shared (P : Z → Prop) l z w (f : Z → Z) Φ :
  w = f z → P w →
  shared_int P l -∗ l ↦{#1/2} VInt z -∗ ▷ (l ↦{#1/2} VInt w -∗ Φ tt) -∗
  cwp (z ← load_int l; store l (VInt (f z))) Φ.
Proof.
  iIntros (-> Hw) "#Hs Hl HΦ". c_bind. iApply (cwp_load_int with "Hl"). iNext. iIntros "Hl". by iApply (cwp_store_shared with "Hs Hl HΦ").
Qed.

End shared.

(** *** Condition variables *)

(** Counted tokens: waiters of a condition variable, holders of a read-write
    lock. *)
Class condG (Σ : gFunctors) := CondG { cond_inG :: inG Σ (authR natUR) }.
Definition condΣ : gFunctors := #[GFunctor (authR natUR)].
#[global] Instance subG_condΣ {Σ} : subG condΣ Σ → condG Σ.
Proof. solve_inG. Qed.

Section cond.
Context `{!cGS Σ, !condG Σ}.

Definition condN : namespace := nroot .@ "cond".

(** The cell counts the waiters; every waiter holds a token that says it is
    counted. *)
Definition is_cond (γ : gname) (c : loc) : iProp Σ :=
  inv condN (∃ w s, c ↦ VCond w s ∗ own γ (● w)).
Definition waiter (γ : gname) : iProp Σ := own γ (◯ 1%nat).

Lemma is_cond_alloc c s : c ↦ VCond 0 s ={⊤}=∗ ∃ γ, is_cond γ c.
Proof.
  iIntros "Hc". iMod (own_alloc (● 0%nat)) as (γ) "Hγ"; [by apply auth_auth_valid|].
  iExists γ. iApply inv_alloc. iNext. iExists 0%nat, s. iFrame.
Qed.

Lemma waiter_new γ w : own γ (● w) ==∗ own γ (● (S w)) ∗ waiter γ.
Proof.
  iIntros "H". iMod (own_update with "H") as "[$ $]"; [|done].
  apply auth_update_alloc, (nat_local_update w 0 (S w) 1). lia.
Qed.

Lemma waiter_counted γ w : own γ (● w) -∗ waiter γ -∗ ⌜∃ w', w = S w'⌝.
Proof.
  iIntros "H1 H2". iCombine "H1 H2" gives %[Hle _]%auth_both_valid_discrete.
  apply nat_included in Hle. destruct w as [|w]; [lia|by eauto].
Qed.

Lemma waiter_done γ w : own γ (● S w) -∗ waiter γ ==∗ own γ (● w).
Proof.
  iIntros "H1 H2". iMod (own_update_2 with "H1 H2") as "$"; [|done].
  apply auth_update_dealloc, (nat_local_update (S w) 1 w 0). lia.
Qed.

Lemma cwp_cond_signal γ c Φ : is_cond γ c -∗ ▷ Φ tt -∗ cwp (pthread_cond_signal c) Φ.
Proof.
  iIntros "#Hc HΦ". iApply (cwp_op_inv with "Hc"). iIntros "(%w & %s & >Hl & Hγ)".
  iApply (awp_cond_signal with "Hl"). iNext. iIntros "Hl". iSplitR "HΦ"; [|done].
  iNext. iExists w, (Nat.min w (S s)). iFrame.
Qed.

(** The sleep releases the mutex and joins the waiters in one step. *)
Lemma cwp_cond_sleep γ c m R Φ :
  is_cond γ c -∗ is_lock (VLock MutexLock false) (VLock MutexLock true) m R -∗
  locked (VLock MutexLock true) m -∗ R -∗ ▷ (waiter γ -∗ Φ tt) -∗
  cwp (Act (OCondSleep c m) Ret) Φ.
Proof.
  iIntros "#Hc #Hlk Hl HR HΦ". iApply (cwp_atomic _ (⊤ ∖ ↑condN ∖ ↑lockN)).
  iMod (inv_acc with "Hc") as "[(%w & %s & >Hcell & >Hγ) Hclose]"; [done|].
  iMod (inv_acc with "Hlk") as "[HL Hclose']"; [solve_ndisj|].
  iDestruct "HL" as "[[>Hl' _]|>Hl']"; [iDestruct (pt_agree with "Hl' Hl") as %?; done|].
  iDestruct (pt_halves with "Hl Hl'") as "[_ Hl]".
  iModIntro. iApply (awp_cond_sleep with "Hcell Hl"). iNext. iIntros "Hcell Hl".
  iMod (waiter_new with "Hγ") as "[Hγ Hw]".
  iMod ("Hclose'" with "[Hl HR]") as "_"; [iNext; iLeft; iFrame|].
  iMod ("Hclose" with "[Hcell Hγ]") as "_"; [iNext; iExists (S w), s; iFrame|].
  iModIntro. by iApply "HΦ".
Qed.

(** Waiting gives the lock's resource up and gets some version of it back. *)
Lemma cwp_cond_wait γ c m R Φ :
  is_cond γ c -∗ is_lock (VLock MutexLock false) (VLock MutexLock true) m R -∗
  locked (VLock MutexLock true) m -∗ R -∗
  ▷ (locked (VLock MutexLock true) m -∗ R -∗ Φ tt) -∗
  cwp (pthread_cond_wait c m) Φ.
Proof.
  iIntros "#Hc #Hlk Hl HR HΦ". c_bind. iApply (cwp_cond_sleep with "Hc Hlk Hl HR").
  iNext. iIntros "Hw". c_bind.
  iApply (cwp_until _ (waiter γ ∗ _)%I with "[$Hw HΦ]"); [iExact "HΦ"|].
  iIntros "!> [Hw HΦ]". iApply (cwp_op_inv with "Hc"). iIntros "(%w & %s & >Hcell & >Hγ)".
  iDestruct (waiter_counted with "Hγ Hw") as %[w' ->].
  iApply awp_fupd. iApply (awp_cond_wake with "Hcell"). iNext. iSplit.
  - iIntros (s') "Hcell". iMod (waiter_done with "Hγ Hw") as "Hγ". iModIntro.
    iSplitL "Hcell Hγ"; [iNext; iExists w', s'; iFrame|].
    by iApply (cwp_lock with "Hlk").
  - iIntros "Hcell". iModIntro. iSplitL "Hcell Hγ"; [iNext; iExists (S w'), s; iFrame|].
    iFrame.
Qed.

End cond.

(** *** Read-write locks *)

Section rwlock.
Context `{!cGS Σ, !condG Σ}.

Definition rwN : namespace := nroot .@ "rwlock".

Definition holders (r : nat) (w : bool) : nat := if w then 1%nat else r.

(** The cell counts its holders, a writer being alone; every holder has a
    token that says it is counted. *)
Definition is_rwlock (γ : gname) (l : loc) : iProp Σ :=
  inv rwN (∃ r w, l ↦ VRw r w ∗ ⌜w = true → r = 0%nat⌝ ∗ own γ (● holders r w)).

Lemma is_rwlock_alloc l : l ↦ VRw 0 false ={⊤}=∗ ∃ γ, is_rwlock γ l.
Proof.
  iIntros "Hl". iMod (own_alloc (● 0%nat)) as (γ) "Hγ"; [by apply auth_auth_valid|].
  iExists γ. iApply inv_alloc. iNext. iExists 0%nat, false. by iFrame.
Qed.

Lemma cwp_rwlock (o : cop bool) (w : bool) γ l (Φ : unit → iProp Σ) :
  (∀ (E : coPset) r w' (Ψ : bool → iProp Σ), l ↦ VRw r w' -∗
     ▷ (∀ b : bool, (if b then ⌜w' = false ∧ (w = true → r = 0%nat)⌝ ∗
                              l ↦ VRw (if w then 0%nat else S r) w
                     else l ↦ VRw r w') -∗ Ψ b) -∗ awp o E Ψ) →
  is_rwlock γ l -∗ ▷ (waiter γ -∗ Φ tt) -∗ cwp (until_op o) Φ.
Proof.
  iIntros (Hop) "#Hlk HΦ". iApply (cwp_until _ (▷ (waiter γ -∗ Φ tt))%I with "HΦ").
  iIntros "!> HΦ". iApply (cwp_op_inv with "Hlk"). iIntros "(%r & %w' & >Hl & >%Hw & >Hγ)".
  iApply awp_fupd. iApply (Hop with "Hl"). iNext. iIntros ([]) "Hl".
  - iDestruct "Hl" as "[[-> %Hr] Hl]". iMod (waiter_new with "Hγ") as "[Hγ Ht]". iModIntro.
    iSplitR "HΦ Ht"; [|by iApply "HΦ"]. iNext. iExists _, _. iFrame "Hl".
    destruct w; simpl; [rewrite Hr //|]; by iFrame.
  - iModIntro. iFrame "HΦ". iNext. iExists r, w'. by iFrame.
Qed.

Lemma cwp_rdlock γ l Φ :
  is_rwlock γ l -∗ ▷ (waiter γ -∗ Φ tt) -∗ cwp (pthread_rwlock_rdlock l) Φ.
Proof.
  apply (cwp_rwlock _ false). iIntros (E r w' Ψ) "Hl HΨ".
  iApply (awp_rdlock with "Hl"). iNext. destruct w'; iIntros "Hl"; iApply "HΨ"; by iFrame.
Qed.

Lemma cwp_wrlock γ l Φ :
  is_rwlock γ l -∗ ▷ (waiter γ -∗ Φ tt) -∗ cwp (pthread_rwlock_wrlock l) Φ.
Proof.
  apply (cwp_rwlock _ true). iIntros (E r w' Ψ) "Hl HΨ".
  iApply (awp_wrlock with "Hl"). iNext. iSplit; [iIntros ([-> ->])|]; iIntros "Hl";
    iApply "HΨ"; by iFrame.
Qed.

Lemma cwp_rwunlock γ l Φ :
  is_rwlock γ l -∗ waiter γ -∗ ▷ Φ tt -∗ cwp (pthread_rwlock_unlock l) Φ.
Proof.
  iIntros "#Hlk Ht HΦ". iApply (cwp_op_inv with "Hlk").
  iIntros "(%r & %w & >Hl & >%Hw & >Hγ)". iDestruct (waiter_counted with "Hγ Ht") as %[n Hn].
  rewrite Hn. iMod (waiter_done with "Hγ Ht") as "Hγ". destruct w; simpl in Hn.
  - rewrite Hw //. iApply (awp_rw_unlock_w with "Hl"). iNext. iIntros "Hl". iSplitR "HΦ"; [|done].
    iNext. iExists 0%nat, false. injection Hn as <-. by iFrame.
  - subst r. iApply (awp_rw_unlock_r with "Hl"). iNext. iIntros "Hl". iSplitR "HΦ"; [|done].
    iNext. iExists n, false. by iFrame.
Qed.

End rwlock.

(** ** Tactics *)

Tactic Notation "c_load" constr(H) :=
  c_bind; (first [iApply (cwp_load_int with H)|iApply (cwp_load_ptr with H)
                 |iApply (cwp_load_str with H)|iApply (cwp_load with H)]);
  iNext; iIntros H.
Tactic Notation "c_store" constr(H) :=
  c_bind; iApply (cwp_store with H); iNext; iIntros H.
