(* ===== verification/QueueCommon.v ===== *)
(** * QueueCommon: the linked queue shared by the queue programs

    [queue_t] and [qnode_t] (declared alike in every [queue*.h]), the blocks
    of statements that all the queue sources repeat word for word (filling
    in a new queue, linking a node behind [last], unlinking [first], the
    statistics line, the writer and the reader loop), and the separation-
    logic predicate of a queue: a chain of heap nodes from [first] to
    [last] with the list of the values they carry. *)
From iris.proofmode Require Import proofmode.
From S2P Require Import Prelude Machine Logic Pthread.
#[local] Open Scope Z_scope.

(** ** Structures *)

(** [qnode_t] *)
Definition val : Z := 0.
Definition next : Z := 1.
Definition new_qnode : list cval := [VUndef; VUndef].

(** [queue_t] *)
Definition first : Z := 0.
Definition last : Z := 1.
Definition qmonitor_tid : Z := 2.
Definition count : Z := 3.
Definition max_count : Z := 4.
Definition add_attempts : Z := 5.
Definition get_attempts : Z := 6.
Definition add_count : Z := 7.
Definition get_count : Z := 8.
Definition new_queue : list cval := replicate 9 VUndef.

(** ** Statements common to all variants *)

(** [x++], [x--] on an [int] field and [x++] on a [long] field. *)
Definition incr_int (l : loc) : prog unit := z ← load_int l; store l (VInt (z +i 1)).
Definition decr_int (l : loc) : prog unit := z ← load_int l; store l (VInt (z -i 1)).
Definition incr_long (l : loc) : prog unit := z ← load_int l; store l (VInt (z +l 1)).

(** The assignments of [queue_init]. *)
Definition init_fields (q : loc) (max : Z) : prog unit :=
  store (q ⟶ first) (VPtr None);;
  store (q ⟶ last) (VPtr None);;
  store (q ⟶ max_count) (VInt max);;
  store (q ⟶ count) (VInt 0);;
  store (q ⟶ get_attempts) (VInt 0);;
  store (q ⟶ add_attempts) (VInt 0);;
  store (q ⟶ get_count) (VInt 0);;
  store (q ⟶ add_count) (VInt 0).

(** [if (!q->first) q->first = q->last = new;
     else { q->last->next = new; q->last = q->last->next; }] *)
Definition link_last (q new : loc) : prog unit :=
  f ← load_ptr (q ⟶ first);
  match f with
  | None =>
      store (q ⟶ last) (VPtr (Some new));;
      store (q ⟶ first) (VPtr (Some new))
  | Some _ =>
      la ← load_ptr (q ⟶ last);
      ll ← deref la;
      store (ll ⟶ next) (VPtr (Some new));;
      la' ← load_ptr (q ⟶ last);
      ll' ← deref la';
      nx ← load_ptr (ll' ⟶ next);
      store (q ⟶ last) (VPtr nx)
  end.

(** [q->first = q->first->next] *)
Definition advance_first (q : loc) : prog unit :=
  f ← load_ptr (q ⟶ first);
  l ← deref f;
  nx ← load_ptr (l ⟶ next);
  store (q ⟶ first) (VPtr nx).

(** The head of the critical section of [queue_add], up to and including the
    test for a full queue:
    [q->add_attempts++; assert(q->count <= q->max_count);
     if (q->count == q->max_count) { full } ok] *)
Definition guard_add {A : Type} (q : loc) (full ok : prog A) : prog A :=
  incr_long (q ⟶ add_attempts);;
  c ← load_int (q ⟶ count); m ← load_int (q ⟶ max_count);
  assert (bool_decide (c ≤ m)) "q->count <= q->max_count";;
  c' ← load_int (q ⟶ count); m' ← load_int (q ⟶ max_count);
  if decide (c' = m') then full else ok.

(** The head of the critical section of [queue_get]:
    [q->get_attempts++; assert(q->count >= 0); if (q->count == 0) { empty } ok] *)
Definition guard_get {A : Type} (q : loc) (empty ok : prog A) : prog A :=
  incr_long (q ⟶ get_attempts);;
  c ← load_int (q ⟶ count);
  assert (bool_decide (0 ≤ c)) "q->count >= 0";;
  c' ← load_int (q ⟶ count);
  if decide (c' = 0) then empty else ok.

(** [queue_init], given the variant's monitor thread and what it does when
    the monitor cannot be created. *)
Definition queue_init_with (qmonitor : loc → prog unit) (no_monitor : loc → Z → prog loc)
    (max : Z) : prog loc :=
  q ← malloc new_queue;
  match q with
  | None => print (EvOut "malloc: can not allocate memory for a queue" []);; abort
  | Some q =>
      init_fields q max;;
      '(err, tid) ← pthread_create (qmonitor q);
      if decide (err = 0) then
        store (q ⟶ qmonitor_tid) (VPtr tid);;
        Ret q
      else no_monitor q err
  end.

(** A new node: [malloc], the null check, [new->val = val; new->next = NULL],
    then the rest of [queue_add]. *)
Definition with_new_node {A : Type} (v : Z) (rest : loc → prog A) : prog A :=
  new ← malloc new_qnode;
  match new with
  | None => print (EvOut "malloc: cannot allocate memory for new node" []);; abort
  | Some new =>
      store (new ⟶ val) (VInt v);;
      store (new ⟶ next) (VPtr None);;
      rest new
  end.

Definition STATS_FMT : string :=
  "queue stats: current size %d; attempts: (%ld %ld %ld); counts (%ld %ld %ld)".

(** The line of [queue_print_stats]. *)
Definition print_stats_line (q : loc) : prog unit :=
  c ← load_int (q ⟶ count);
  aa ← load_int (q ⟶ add_attempts);
  ga ← load_int (q ⟶ get_attempts);
  aa' ← load_int (q ⟶ add_attempts);
  ga' ← load_int (q ⟶ get_attempts);
  ac ← load_int (q ⟶ add_count);
  gc ← load_int (q ⟶ get_count);
  ac' ← load_int (q ⟶ add_count);
  gc' ← load_int (q ⟶ get_count);
  print (EvOut STATS_FMT
           [c; aa; ga; aa' -l ga'; ac; gc; ac' -l gc']).

(** [if (err) printf(fmt, strerror(err))] *)
Definition report (fmt : string) (err : Z) : prog unit :=
  if decide (err = 0) then Ret tt else print (EvOut fmt [err]).

(** [printf(fmt, getpid(), getppid(), gettid())]: the numbers are the
    environment's. *)
Definition print_ids (fmt : string) : prog unit :=
  pid ← env_choice; ppid ← env_choice; tid ← env_choice;
  print (EvOut fmt [Z.of_nat pid; Z.of_nat ppid; Z.of_nat tid]).

(** [set_cpu]: [pthread_setaffinity_np] may report an error. *)
Definition set_cpu (n : Z) : prog unit :=
  err ← env_choice;
  match err with
  | S _ => print (EvOut "set_cpu: pthread_setaffinity failed for cpu %d" [n])
  | O => print (EvOut "set_cpu: set cpu %d" [n])
  end.

Definition ERROR_FMT : string := "ERROR: get value is %d but expected - %d".

(** The body of [reader], given the variant's [queue_get].  [queue_get q v]
    answers the return code and the value of [*val] afterwards. *)
Definition reader_loop (queue_get : loc → Z → prog (Z * Z)) (q : loc) : prog unit :=
  Loop (λ expected : Z,
    '(ok, v) ← queue_get q (-1);
    if decide (ok = 0) then Ret (inl expected)
    else
      (if decide (expected ≠ v) then print (EvOut ERROR_FMT [v; expected]) else Ret tt);;
      Ret (inl (v +i 1))) 0 (λ e : Empty_set, match e with end).

(** The body of [writer], given the variant's [queue_add]. *)
Definition writer_loop (queue_add : loc → Z → prog Z) (q : loc) : prog unit :=
  Loop (λ i : Z,
    ok ← queue_add q i;
    if decide (ok = 0) then Ret (inl i) else Ret (inl (i +i 1))) 0
    (λ e : Empty_set, match e with end).

(** [while (!stop_flag) { queue_print_stats(q); sleep(1); }] *)
Definition monitor_loop (stop_flag : loc) (print_stats : loc → prog unit) (q : loc) : prog unit :=
  Loop (λ _ : unit,
    stop ← load_int stop_flag;
    if decide (stop = 0) then print_stats q;; sleep 1;; Ret (inl tt)
    else Ret (inr tt)) tt Ret.

(** [join_thread] *)
Definition join_thread (tid : ptr) : prog Z :=
  err ← pthread_join tid;
  (if decide (err = 0) then Ret tt
   else print (EvErr "queue_destroy: pthread_join() failed"));;
  Ret err.

(** [main] of the programs with a lock: the same statements in all of them,
    around the variant's own functions. *)
Definition queue_main (queue_init : Z → prog loc) (init_lock : prog unit)
    (writer reader : loc → prog unit) (free_resources : loc → prog unit) (max : Z) : prog Z :=
  print_ids "main [%d %d %d]";;
  q ← queue_init max;
  init_lock;;
  '(err, tid_writer) ← pthread_create (writer q);
  if decide (err ≠ 0) then
    free_resources q;;
    print (EvOut "main: pthread_create() failed: %s" [err]);;
    Ret EXIT_FAILURE
  else
    sched_yield;;
    '(err, tid_reader) ← pthread_create (reader q);
    if decide (err ≠ 0) then
      print (EvOut "main: pthread_create() failed: %s" [err]);;
      free_resources q;;
      err ← join_thread tid_writer;
      Ret EXIT_FAILURE
    else
      err_reader ← join_thread tid_reader;
      err_writer ← join_thread tid_writer;
      free_resources q;;
      Ret (if decide (err_reader ≠ 0 ∨ err_writer ≠ 0) then EXIT_FAILURE else EXIT_SUCCESS).

(** The first half of [queue_destroy]: stop the monitor and join it. *)
Definition stop_monitor (stop_flag q : loc) : prog unit :=
  store stop_flag (VInt 1);;
  tid ← load_ptr (q ⟶ qmonitor_tid);
  err ← pthread_join tid;
  if decide (err = 0) then Ret tt
  else print (EvErr "queue_destroy: pthread_join() failed").

(** The loop of [queue_destroy]: free every node from [first] on. *)
Definition free_nodes (q : loc) : prog unit :=
  cur ← load_ptr (q ⟶ first);
  Loop (λ cur : ptr,
    match cur with
    | None => Ret (inr tt)
    | Some l => nx ← load_ptr (l ⟶ next); free (Some l);; Ret (inl nx)
    end) cur Ret.

(** What a correct run may print: never the reader's error line, never a
    failed assertion, and in a statistics line a size between 0 and
    [bound]. *)
Definition no_error (bound : Z) (e : event) : Prop :=
  match e with
  | EvOut fmt args =>
      fmt ≠ ERROR_FMT ∧
      (fmt = STATS_FMT → ∃ size rest, args = size :: rest ∧ 0 ≤ size ≤ bound)
  | EvAssert _ => False
  | _ => True
  end.

Lemma no_error_out bound fmt args :
  fmt ≠ ERROR_FMT → fmt ≠ STATS_FMT → no_error bound (EvOut fmt args).
Proof. by split. Qed.

Lemma no_error_stats bound size rest :
  0 ≤ size ≤ bound → no_error bound (EvOut STATS_FMT (size :: rest)).
Proof. split; [done|]. by eauto. Qed.

(** ** Numbers in flight *)

(** The writer sends 0, 1, 2, ... as [int]s; [sent r n] are the [n] values
    that follow the first [r]. *)
Definition sent (r n : nat) : list Z := (λ k, wrap32 (Z.of_nat k)) <$> seq r n.

Lemma sent_snoc r n : sent r (S n) = sent r n ++ [wrap32 (Z.of_nat (r + n))].
Proof. unfold sent. rewrite seq_S fmap_app. done. Qed.

Lemma length_sent r n : length (sent r n) = n.
Proof. unfold sent. by rewrite length_fmap length_seq. Qed.

(** ** Specification: a bounded FIFO with counters *)

Record fifo : Set := Fifo {
  items : list Z;
  limit : Z;
  tried_add : Z;
  tried_get : Z;
  added : Z;
  taken : Z
}.

Definition fifo_new (max : Z) : fifo := Fifo [] max 0 0 0 0.

Definition tick_add (s : fifo) : fifo :=
  Fifo (items s) (limit s) (tried_add s +l 1) (tried_get s) (added s) (taken s).
Definition tick_get (s : fifo) : fifo :=
  Fifo (items s) (limit s) (tried_add s) (tried_get s +l 1) (added s) (taken s).
Definition push (v : Z) (s : fifo) : fifo :=
  Fifo (items s ++ [v]) (limit s) (tried_add s) (tried_get s) (added s +l 1) (taken s).
Definition pop (s : fifo) : fifo :=
  Fifo (tail (items s)) (limit s) (tried_add s) (tried_get s) (added s) (taken s +l 1).

Definition size (s : fifo) : Z := Z.of_nat (length (items s)).

(** An attempt is counted whether or not it succeeds; a full queue refuses, an
    empty one leaves [*val] alone. *)
Definition fifo_add (v : Z) (s : fifo) : Z * fifo :=
  if decide (size s = limit s) then (0, tick_add s) else (1, push v (tick_add s)).
Definition fifo_get (v : Z) (s : fifo) : (Z * Z) * fifo :=
  match items s with
  | [] => ((0, v), tick_get s)
  | x :: _ => ((1, x), pop (tick_get s))
  end.

(** ** The queue in separation logic *)

Section queue.
Context `{!cGS Σ}.

Lemma fld_0 l : l ⟶ 0 = l.
Proof. destruct l as [b i]. unfold fld. simpl. by rewrite Z.add_0_r. Qed.

(** A node owned by nobody else. *)
Definition qnode (l : loc) (v : Z) (nx : ptr) : iProp Σ := block_at l [VInt v; VPtr nx].

Lemma qnode_unfold l v nx :
  qnode l v nx ⊣⊢ ⌜l.2 = 0⌝ ∗ (l ⟶ (-1)) ↦ VSize 2 ∗ (l ⟶ val) ↦ VInt v ∗ (l ⟶ next) ↦ VPtr nx.
Proof. unfold qnode, block_at. simpl. rewrite right_id. done. Qed.

Fixpoint lseg (p : ptr) (xs : list Z) (e : ptr) : iProp Σ :=
  match xs with
  | [] => ⌜p = e⌝
  | x :: xs' => ∃ l nx, ⌜p = Some l⌝ ∗ qnode l x nx ∗ lseg nx xs' e
  end.

Lemma lseg_snoc p xs l x nx :
  lseg p xs (Some l) -∗ qnode l x nx -∗ lseg p (xs ++ [x]) nx.
Proof.
  iIntros "Hs Hn". iInduction xs as [|y xs] "IH" forall (p); simpl.
  - iDestruct "Hs" as %->. iExists l, nx. by iFrame.
  - iDestruct "Hs" as (l' nx' ->) "[Hy Hs]". iExists l', nx'. iSplit; [done|]. iFrame "Hy".
    iApply ("IH" with "Hs Hn").
Qed.

(** The nodes of a queue holding [xs]; [last] is only meaningful when the
    queue is not empty. *)
Definition qlist (f la : ptr) (xs : list Z) : iProp Σ :=
  ⌜xs = [] ∧ f = None⌝ ∨
  ∃ ys y l, ⌜xs = ys ++ [y] ∧ la = Some l⌝ ∗ lseg f ys (Some l) ∗ qnode l y None.

Lemma qlist_empty la : ⊢ qlist None la [].
Proof. by iLeft. Qed.

(** [link_last] appends. *)
Lemma cwp_link_last q new f la xs v Φ :
  (q ⟶ first) ↦ VPtr f -∗ (q ⟶ last) ↦ VPtr la -∗ qlist f la xs -∗ qnode new v None -∗
  ▷ (∀ f' la', (q ⟶ first) ↦ VPtr f' -∗ (q ⟶ last) ↦ VPtr la' -∗
       qlist f' la' (xs ++ [v]) -∗ Φ tt) -∗
  cwp (link_last q new) Φ.
Proof.
  iIntros "Hf Hl [[-> ->]|(%ys & %y & %l & [-> ->] & Hs & Hy)] Hnew HΦ".
  - c_load "Hf". c_store "Hl". iApply (cwp_store with "Hf"). iNext. iIntros "Hf".
    iApply ("HΦ" with "Hf Hl"). iRight. iExists [], v, new. by iFrame.
  - c_load "Hf". destruct f as [lf|]; last first.
    { destruct ys; simpl; [by iDestruct "Hs" as %?|].
      iDestruct "Hs" as (? ? ?) "_". done. }
    c_load "Hl". c_bind. c_ret.
    iDestruct (qnode_unfold with "Hy") as "(%Hl & Hh & Hv & Hn)".
    c_store "Hn". c_load "Hl". c_bind. c_ret. c_load "Hn".
    iApply (cwp_store with "Hl"). iNext. iIntros "Hl".
    iApply ("HΦ" with "Hf Hl"). iRight. iExists (ys ++ [y]), v, new.
    iSplit; [done|]. iFrame "Hnew".
    iApply (lseg_snoc with "Hs"). iApply qnode_unfold. by iFrame.
Qed.

(** The head of a nonempty queue, and what is left when it is unlinked. *)
Lemma qlist_uncons f la x xs :
  qlist f la (x :: xs) -∗ ∃ l nx, ⌜f = Some l⌝ ∗ qnode l x nx ∗ qlist nx la xs.
Proof.
  iIntros "[[% _]|(%ys & %y & %l & [%He ->] & Hs & Hy)]"; [done|].
  destruct ys as [|z ys]; simplify_eq/=.
  - iDestruct "Hs" as %->. iExists l, None. iSplit; [done|]. iFrame. iApply qlist_empty.
  - iDestruct "Hs" as (l' nx ->) "[Hz Hs]". iExists l', nx. iSplit; [done|]. iFrame "Hz".
    iRight. iExists ys, y, l. by iFrame.
Qed.

Lemma cwp_advance_first q l v nx Φ :
  (q ⟶ first) ↦ VPtr (Some l) -∗ qnode l v nx -∗
  ▷ ((q ⟶ first) ↦ VPtr nx -∗ qnode l v nx -∗ Φ tt) -∗ cwp (advance_first q) Φ.
Proof.
  iIntros "Hf Hn HΦ". c_load "Hf". c_bind. c_ret.
  iDestruct (qnode_unfold with "Hn") as "(%Hl & Hh & Hv & Hn)". c_load "Hn".
  iApply (cwp_store with "Hf"). iNext. iIntros "Hf". iApply ("HΦ" with "Hf").
  iApply qnode_unfold. by iFrame.
Qed.

(** [x = tmp->val], then [free(tmp)]. *)
Lemma cwp_node_val l v nx Φ :
  qnode l v nx -∗ ▷ (qnode l v nx -∗ Φ v) -∗ cwp (load_int (l ⟶ val)) Φ.
Proof.
  iIntros "Hn HΦ". iDestruct (qnode_unfold with "Hn") as "(%Hl & Hh & Hv & Hn)".
  iApply (cwp_load_int with "Hv"). iNext. iIntros "Hv". iApply "HΦ".
  iApply qnode_unfold. by iFrame.
Qed.

Lemma cwp_with_new_node {A : Type} v (rest : loc → prog A) bound Φ :
  c_good = no_error bound →
  ▷ (∀ l, qnode l v None -∗ cwp (rest l) Φ) -∗ cwp (with_new_node v rest) Φ.
Proof.
  iIntros (Hgood) "HΦ". c_bind. iApply cwp_malloc. iNext. iSplit.
  { c_bind. iApply cwp_print; [rewrite Hgood; by apply no_error_out|]. iNext. iApply cwp_exit. }
  iIntros (l) "(%Hl & Hh & Hv & Hn & _)". c_store "Hv". c_store "Hn". iApply "HΦ".
  iApply qnode_unfold. by iFrame.
Qed.

(** All the statistics of the queue are shared; [max_count] is constant, and
    [bound] is the largest size the queue ever has. *)
Definition queue_shared (q : loc) (max bound : Z) : iProp Σ :=
  (q ⟶ max_count) ↦□ VInt max ∗
  shared_int (λ z, 0 ≤ z ≤ bound) (q ⟶ count) ∗
  shared_int any_int (q ⟶ add_attempts) ∗ shared_int any_int (q ⟶ get_attempts) ∗
  shared_int any_int (q ⟶ add_count) ∗ shared_int any_int (q ⟶ get_count).

#[global] Instance queue_shared_persistent q max bound : Persistent (queue_shared q max bound).
Proof. apply _. Qed.

Lemma cwp_print_stats q max bound Φ :
  c_good = no_error bound →
  queue_shared q max bound -∗ ▷ Φ tt -∗ cwp (print_stats_line q) Φ.
Proof.
  iIntros (Hgood) "#(_ & Hc & Haa & Hga & Hac & Hgc) HΦ".
  c_bind. iApply (cwp_load_shared with "Hc"). iNext. iIntros (size Hsize).
  do 8 (c_bind; (first [iApply (cwp_load_shared with "Haa")
    |iApply (cwp_load_shared with "Hga")|iApply (cwp_load_shared with "Hac")
    |iApply (cwp_load_shared with "Hgc")]); iNext; iIntros (? _)).
  iApply cwp_print; [rewrite Hgood; by apply no_error_stats|done].
Qed.

Lemma cwp_print_ids fmt bound Φ :
  c_good = no_error bound → fmt ≠ ERROR_FMT → fmt ≠ STATS_FMT → ▷ Φ tt -∗ cwp (print_ids fmt) Φ.
Proof.
  iIntros (Hgood Hfmt Hfmt') "HΦ". do 3 (c_bind; iApply cwp_env_choice; iNext; iIntros (?)).
  iApply cwp_print; [rewrite Hgood; by apply no_error_out|done].
Qed.

Lemma cwp_set_cpu n bound Φ :
  c_good = no_error bound → ▷ Φ tt -∗ cwp (set_cpu n) Φ.
Proof.
  iIntros (Hgood) "HΦ". c_bind. iApply cwp_env_choice. iNext. iIntros ([]);
    (iApply cwp_print; [rewrite Hgood; by apply no_error_out|done]).
Qed.

Lemma cwp_report fmt err bound Φ :
  c_good = no_error bound → fmt ≠ ERROR_FMT → fmt ≠ STATS_FMT → Φ tt -∗ cwp (report fmt err) Φ.
Proof.
  iIntros (Hgood Hfmt Hfmt') "HΦ". unfold report. case_decide; [by c_ret|].
  iApply cwp_print; [rewrite Hgood; by apply no_error_out|done].
Qed.

(** The monitor while [stop_flag] may still be set. *)
Lemma cwp_monitor_loop_stoppable stop_flag print_stats q :
  shared_int any_int stop_flag -∗ □ (∀ Ψ, ▷ Ψ tt -∗ cwp (print_stats q) Ψ) -∗
  cwp (monitor_loop stop_flag print_stats q) (λ _, True).
Proof.
  iIntros "#Hs #Hp". iApply (cwp_loop _ _ (λ _, True)%I); [done|].
  iIntros "!> %x _". c_bind. iApply (cwp_load_shared with "Hs"). iNext. iIntros (z _). c_simp.
  case_decide; [|by c_ret]. c_bind. iApply "Hp". iNext. c_bind. c_ret. by c_ret.
Qed.

Lemma cwp_monitor_loop stop_flag print_stats q Φ :
  stop_flag ↦□ VInt 0 -∗ □ (∀ Ψ, ▷ Ψ tt -∗ cwp (print_stats q) Ψ) -∗
  cwp (monitor_loop stop_flag print_stats q) Φ.
Proof.
  iIntros "#Hs #Hp". iApply (cwp_loop _ _ (λ _, True)%I); [done|].
  iIntros "!> %x _". c_bind. iApply (cwp_load_int with "Hs"). iNext. iIntros "_". c_simp.
  case_decide; [|done]. c_bind. iApply "Hp". iNext. c_bind. c_ret. by c_ret.
Qed.

(** *** The cells of a queue

    [queue_at q bound s]: the queue at [q] implements [s], which holds at most
    [bound] values; of the cells the monitor reads this is half. *)
Definition queue_at (q : loc) (bound : Z) (s : fifo) : iProp Σ :=
  ∃ f la, (q ⟶ first) ↦ VPtr f ∗ (q ⟶ last) ↦ VPtr la ∗ qlist f la (items s) ∗
  (q ⟶ count) ↦{#1/2} VInt (size s) ∗ ⌜size s ≤ bound⌝ ∗
  (q ⟶ add_attempts) ↦{#1/2} VInt (tried_add s) ∗
  (q ⟶ get_attempts) ↦{#1/2} VInt (tried_get s) ∗
  (q ⟶ add_count) ↦{#1/2} VInt (added s) ∗ (q ⟶ get_count) ↦{#1/2} VInt (taken s).

(** A nonempty queue whose head node has been taken out of the chain: what
    is left to do is to lower [count] and raise [get_count]. *)
Definition queue_headless (q : loc) (bound : Z) (nx : ptr) (s : fifo) : iProp Σ :=
  ∃ la, (q ⟶ first) ↦ VPtr nx ∗ (q ⟶ last) ↦ VPtr la ∗ qlist nx la (tail (items s)) ∗
  (q ⟶ count) ↦{#1/2} VInt (size s) ∗ ⌜items s ≠ [] ∧ size s ≤ bound⌝ ∗
  (q ⟶ add_attempts) ↦{#1/2} VInt (tried_add s) ∗
  (q ⟶ get_attempts) ↦{#1/2} VInt (tried_get s) ∗
  (q ⟶ add_count) ↦{#1/2} VInt (added s) ∗ (q ⟶ get_count) ↦{#1/2} VInt (taken s).

Lemma queue_at_bound q bound s : queue_at q bound s -∗ ⌜0 ≤ size s ≤ bound⌝.
Proof. iIntros "(% & % & _ & _ & _ & _ & %Hs & _)". iPureIntro. unfold size in *. lia. Qed.

(** The counters, for a reader that owns them. *)
Lemma queue_at_counters q bound s :
  queue_at q bound s -∗
  (q ⟶ add_attempts) ↦{#1/2} VInt (tried_add s) ∗ (q ⟶ get_attempts) ↦{#1/2} VInt (tried_get s) ∗
  (q ⟶ add_count) ↦{#1/2} VInt (added s) ∗ (q ⟶ get_count) ↦{#1/2} VInt (taken s) ∗
  ((q ⟶ add_attempts) ↦{#1/2} VInt (tried_add s) -∗
   (q ⟶ get_attempts) ↦{#1/2} VInt (tried_get s) -∗
   (q ⟶ add_count) ↦{#1/2} VInt (added s) -∗ (q ⟶ get_count) ↦{#1/2} VInt (taken s) -∗
   queue_at q bound s).
Proof.
  iIntros "(%f & %la & H1 & H2 & H3 & H4 & H5 & $ & $ & $ & $) Haa Hga Hac Hgc".
  iExists f, la. iFrame.
Qed.

(** [q->add_attempts++], [q->get_attempts++] *)
Lemma cwp_add_attempt q max bound s Φ :
  queue_shared q max bound -∗ queue_at q bound s -∗
  ▷ (queue_at q bound (tick_add s) -∗ Φ tt) -∗ cwp (incr_long (q ⟶ add_attempts)) Φ.
Proof.
  iIntros "#(_ & _ & Haa & _) (% & % & H1 & H2 & H3 & H4 & H5 & Ha & H) HΦ".
  iApply (cwp_upd_shared with "Haa Ha"); [done..|]. iNext. iIntros "Ha". iApply "HΦ". by iFrame.
Qed.

Lemma cwp_get_attempt q max bound s Φ :
  queue_shared q max bound -∗ queue_at q bound s -∗
  ▷ (queue_at q bound (tick_get s) -∗ Φ tt) -∗ cwp (incr_long (q ⟶ get_attempts)) Φ.
Proof.
  iIntros "#(_ & _ & _ & Hga & _) (% & % & H1 & H2 & H3 & H4 & H5 & H6 & Ha & H) HΦ".
  iApply (cwp_upd_shared with "Hga Ha"); [done..|]. iNext. iIntros "Ha". iApply "HΦ". by iFrame.
Qed.

(** Reading [q->count] and [q->max_count]. *)
Lemma cwp_read_count q bound s Φ :
  queue_at q bound s -∗ ▷ (queue_at q bound s -∗ Φ (size s)) -∗ cwp (load_int (q ⟶ count)) Φ.
Proof.
  iIntros "(% & % & H1 & H2 & H3 & Hc & H) HΦ". iApply (cwp_load_int with "Hc"). iNext.
  iIntros "Hc". iApply "HΦ". by iFrame.
Qed.

Lemma cwp_read_max q max bound Φ :
  queue_shared q max bound -∗ ▷ Φ max -∗ cwp (load_int (q ⟶ max_count)) Φ.
Proof.
  iIntros "#(Hm & _) HΦ". iApply (cwp_load_int with "Hm"). iNext. iIntros "_". done.
Qed.

(** The statements that put a node into a queue that is not full. *)
Lemma cwp_enqueue {A : Type} q max bound s new v (k : prog A) Φ :
  bound ≤ INT_MAX → size s ≠ bound →
  queue_shared q max bound -∗ queue_at q bound s -∗ qnode new v None -∗
  ▷ (queue_at q bound (push v s) -∗ cwp k Φ) -∗
  cwp (link_last q new;; incr_int (q ⟶ count);; incr_long (q ⟶ add_count);; k) Φ.
Proof.
  iIntros (Hmax Hne) "#(_ & Hsc & _ & _ & Hsac & _) Hq Hnew HΦ".
  iDestruct "Hq" as (f la) "(Hf & Hl & Hns & Hc & %Hle & Haa & Hga & Hac & Hgc)".
  assert (size s +i 1 = size (push v s)) as Hn.
  { unfold size in *. simpl. rewrite length_app /= wrap32_id; [lia|]. cint_lia. }
  assert (0 ≤ size (push v s) ≤ bound) as Hb.
  { revert Hle Hne. unfold size. simpl. rewrite length_app /=. lia. }
  c_bind. iApply (cwp_link_last with "Hf Hl Hns Hnew"). iNext. iIntros (f' la') "Hf Hl Hns".
  c_bind. iApply (cwp_upd_shared _ _ _ (size (push v s)) with "Hsc Hc"); [done..|].
  iNext. iIntros "Hc".
  c_bind. iApply (cwp_upd_shared with "Hsac Hac"); [done..|]. iNext. iIntros "Hac".
  iApply "HΦ". iExists f', la'. iFrame. iPureIntro. lia.
Qed.

(** [tmp = q->first] on a nonempty queue: [tmp] is a node that carries the
    first value; the continuation may unlink it with [advance_first]. *)
Lemma cwp_read_head q bound s x xs Φ :
  items s = x :: xs →
  queue_at q bound s -∗
  ▷ (∀ l nx, qnode l x nx -∗ (q ⟶ first) ↦ VPtr (Some l) -∗
       ((q ⟶ first) ↦ VPtr nx -∗ queue_headless q bound nx s) -∗ Φ (Some l)) -∗
  cwp (load_ptr (q ⟶ first)) Φ.
Proof.
  iIntros (Hs) "(% & % & Hf & Hl & Hns & Hc & %Hb & H) HΦ".
  iApply (cwp_load_ptr with "Hf"). iNext. iIntros "Hf". rewrite Hs.
  iDestruct (qlist_uncons with "Hns") as (l nx ->) "[Hn Hns]".
  iApply ("HΦ" with "Hn Hf"). iIntros "Hf". iExists la. rewrite Hs. iFrame. by iPureIntro.
Qed.

(** [q->count--; q->get_count++] after the unlinking. *)
Lemma cwp_dequeue {A : Type} q max bound nx s (k : prog A) Φ :
  bound ≤ INT_MAX →
  queue_shared q max bound -∗ queue_headless q bound nx s -∗
  ▷ (queue_at q bound (pop s) -∗ cwp k Φ) -∗
  cwp (decr_int (q ⟶ count);; incr_long (q ⟶ get_count);; k) Φ.
Proof.
  iIntros (Hmax) "#(_ & Hsc & _ & _ & _ & Hsgc) Hq HΦ".
  iDestruct "Hq" as (la) "(Hf & Hl & Hns & Hc & [%Hne %Hle] & Haa & Hga & Hac & Hgc)".
  assert (size s -i 1 = size (pop s) ∧ 0 ≤ size (pop s) ≤ bound) as [Hn Hb].
  { revert Hle. unfold size. simpl. destruct (items s); [done|]. simpl. intros Hle.
    rewrite wrap32_id; [lia|]. cint_lia. }
  c_bind. iApply (cwp_upd_shared _ _ _ (size (pop s)) (λ z, z -i 1) with "Hsc Hc"); [done..|].
  iNext. iIntros "Hc".
  c_bind. iApply (cwp_upd_shared with "Hsgc Hgc"); [done..|]. iNext. iIntros "Hgc".
  iApply "HΦ". iExists nx, la. iFrame. iPureIntro. lia.
Qed.

(** The loop of [queue_destroy]: every node is freed once. *)
Lemma qlist_lseg f la xs : qlist f la xs -∗ lseg f xs None.
Proof.
  iIntros "[[-> ->]|(%ys & %y & %l & [-> ->] & Hs & Hy)]"; [done|].
  iApply (lseg_snoc with "Hs Hy").
Qed.

Lemma cwp_free_nodes q bound s Φ : queue_at q bound s -∗ ▷ Φ tt -∗ cwp (free_nodes q) Φ.
Proof.
  iIntros "(%f & %la & Hf & _ & Hns & _) HΦ". c_load "Hf".
  iApply (cwp_loop _ _ (λ cur, (∃ xs, lseg cur xs None) ∗ Φ tt)%I with "[Hns HΦ]").
  { iFrame "HΦ". iExists (items s). by iApply qlist_lseg. }
  iIntros "!> %cur [[%xs Hs] HΦ]". destruct xs as [|x xs]; cbn [lseg].
  - iDestruct "Hs" as %->. by c_ret.
  - iDestruct "Hs" as (l nx ->) "[Hn Hs]".
    iDestruct (qnode_unfold with "Hn") as "(%Hl & Hh & Hv & Hn)". c_load "Hn".
    iDestruct (qnode_unfold with "[$Hh $Hv $Hn //]") as "Hn".
    c_bind. iApply (cwp_free with "Hn"). iNext. c_ret. iFrame.
Qed.

(** A freshly filled queue. *)
Lemma cwp_init_fields {A : Type} q max bound (k : prog A) Φ :
  0 ≤ bound →
  block_at q new_queue -∗
  ▷ (queue_shared q max bound -∗ queue_at q bound (fifo_new max) -∗
       (q ⟶ qmonitor_tid) ↦ VUndef -∗ cwp k Φ) -∗
  cwp (init_fields q max;; k) Φ.
Proof.
  iIntros (Hmax) "(%Hq & Hh & Hf & Hl & Ht & Hc & Hm & Haa & Hga & Hac & Hgc & _) HΦ".
  c_bind. c_store "Hf". c_store "Hl". c_store "Hm". c_store "Hc". c_store "Hga". c_store "Haa".
  c_store "Hgc". iApply (cwp_store with "Hac"). iNext. iIntros "Hac".
  iMod (pt_persist with "Hm") as "#Hm".
  iMod (shared_int_alloc (λ z, 0 ≤ z ≤ bound) with "Hc") as "[#Hsc Hc]"; [done|].
  iMod (shared_int_alloc any_int with "Haa") as "[#Hsaa Haa]"; [done|].
  iMod (shared_int_alloc any_int with "Hga") as "[#Hsga Hga]"; [done|].
  iMod (shared_int_alloc any_int with "Hac") as "[#Hsac Hac]"; [done|].
  iMod (shared_int_alloc any_int with "Hgc") as "[#Hsgc Hgc]"; [done|].
  iApply ("HΦ" with "[] [-Ht] Ht"); [iFrame "#"|]. iExists None, None. iFrame.
  iSplit; [iApply qlist_empty|done].
Qed.

(** [queue_init] with a thread slot to spare: the new queue is handed out
    before the monitor starts. *)
Lemma cwp_queue_init qmonitor no_monitor max bound n (P : iProp Σ) (Ψ : loc → iProp Σ) Φ :
  c_good = no_error bound → 0 ≤ bound →
  thread_slots ↦ VSem (S n) -∗
  (∀ q, queue_shared q max bound -∗ queue_at q bound (fifo_new max)
     ={⊤}=∗ cwp (qmonitor q) (λ _, P) ∗ Ψ q) -∗
  ▷ (∀ q t, Ψ q -∗ thread_slots ↦ VSem n -∗ (q ⟶ qmonitor_tid) ↦ VPtr (Some t) -∗
       join_handle t P -∗ Φ q) -∗
  cwp (queue_init_with qmonitor no_monitor max) Φ.
Proof.
  iIntros (Hgood Hmax) "Hn Hstart HΦ". c_bind. iApply cwp_malloc. iNext. iSplit.
  { c_bind. iApply cwp_print; [rewrite Hgood; by apply no_error_out|]. iNext. iApply cwp_exit. }
  iIntros (q) "Hq". iApply (cwp_init_fields with "Hq"); [done|]. iNext. iIntros "#Hsh Hq Ht".
  iMod ("Hstart" with "Hsh Hq") as "[Hmon HΨ]". c_bind.
  iApply (cwp_pthread_create with "Hn Hmon").
  iNext. iIntros (tm) "Hn Hjm". c_store "Ht". c_ret. iApply ("HΦ" with "HΨ Hn Ht Hjm").
Qed.

End queue.
#[global] Typeclasses Opaque qnode qlist queue_at.
#[global] Opaque queue_at queue_headless queue_shared.

(** ** The queue behind a lock *)

(** What a queue promises to the threads that use it: the writer's [n]-th
    value is accepted ([1]) or refused ([0]), the reader gets the value it
    waits for or nothing.  [W n] and [R n] are the writer's and the reader's
    progress. *)
Class QueueSpec `{!cGS Σ} (queue_add : loc → Z → prog Z) (queue_get : loc → Z → prog (Z * Z))
    (q : loc) (Is : iProp Σ) (W R : nat → iProp Σ) : Prop := {
  qs_persistent :: Persistent Is;
  qs_add n : Is -∗ W n -∗
    cwp (queue_add q (wrap32 (Z.of_nat n))) (λ ok, ⌜ok = 0⌝ ∗ W n ∨ ⌜ok = 1⌝ ∗ W (S n));
  qs_get n v0 : Is -∗ R n -∗
    cwp (queue_get q v0) (λ r, ⌜r.1 = 0⌝ ∗ R n ∨ ⌜r = (1, wrap32 (Z.of_nat n))⌝ ∗ R (S n));
}.

Section clients.
Context `{!cGS Σ} `{!QueueSpec queue_add queue_get q Is W R}.

Lemma cwp_writer_loop Φ : Is -∗ W 0 -∗ cwp (writer_loop queue_add q) Φ.
Proof.
  iIntros "#HI HW".
  iApply (cwp_forever _ _ _ (λ i, ∃ n, ⌜i = wrap32 (Z.of_nat n)⌝ ∗ W n)%I with "[HW]").
  { iExists 0%nat. by iFrame. }
  iIntros "!> %i (%n & -> & HW)". c_bind.
  iPoseProof (qs_add with "HI HW") as "H". iApply (cwp_mono with "[] H"). iIntros (ok) "[[-> HW]|[-> HW]]".
  - c_ret. iExists n. by iFrame.
  - c_ret. iExists (S n). iFrame. by rewrite wrap32_succ.
Qed.

(** The reader never prints its error line. *)
Lemma cwp_reader_loop Φ : Is -∗ R 0 -∗ cwp (reader_loop queue_get q) Φ.
Proof.
  iIntros "#HI HR".
  iApply (cwp_forever _ _ _ (λ i, ∃ n, ⌜i = wrap32 (Z.of_nat n)⌝ ∗ R n)%I with "[HR]").
  { iExists 0%nat. by iFrame. }
  iIntros "!> %i (%n & -> & HR)". c_bind.
  iPoseProof (qs_get n (-1) with "HI HR") as "H". iApply (cwp_mono with "[] H"). iIntros ([ok v]) "[[%Hok HR]|[%Hr HR]]".
  - simpl in Hok. subst ok. c_ret. iExists n. by iFrame.
  - injection Hr as -> ->. cbn. rewrite decide_False; [|by intros ?].
    c_bind. c_ret. c_ret. iExists (S n). iFrame. by rewrite wrap32_succ.
Qed.
(** The thread functions [writer] and [reader]. *)
Lemma cwp_writer_thread fmt cpu bound Φ :
  c_good = no_error bound → fmt ≠ ERROR_FMT → fmt ≠ STATS_FMT →
  Is -∗ W 0 -∗ cwp (print_ids fmt;; set_cpu cpu;; writer_loop queue_add q) Φ.
Proof.
  iIntros (Hgood Hfmt Hfmt') "#HI HW". c_bind. iApply cwp_print_ids; [done..|]. iNext.
  c_bind. iApply cwp_set_cpu; [done|]. iNext. iApply (cwp_writer_loop with "HI HW").
Qed.

Lemma cwp_reader_thread fmt cpu bound Φ :
  c_good = no_error bound → fmt ≠ ERROR_FMT → fmt ≠ STATS_FMT →
  Is -∗ R 0 -∗ cwp (print_ids fmt;; set_cpu cpu;; reader_loop queue_get q) Φ.
Proof.
  iIntros (Hgood Hfmt Hfmt') "#HI HR". c_bind. iApply cwp_print_ids; [done..|]. iNext.
  c_bind. iApply cwp_set_cpu; [done|]. iNext. iApply (cwp_reader_loop with "HI HR").
Qed.
End clients.

Section locked_queue.
Context `{!cGS Σ, !ghost_varG Σ nat}.

(** Progress of the two threads, as the lock sees it and as they see it. *)
Definition progress (γ : gname) (n : nat) : iProp Σ := ghost_var γ (1/2) n.

Lemma progress_agree γ n m : progress γ n -∗ progress γ m -∗ ⌜n = m⌝.
Proof. iIntros "H1 H2". iApply (ghost_var_agree with "H1 H2"). Qed.

Lemma progress_update γ n n' m : progress γ n -∗ progress γ m ==∗ progress γ n' ∗ progress γ n'.
Proof. iIntros "H1 H2". iApply (ghost_var_update_halves with "H1 H2"). Qed.

(** A queue that holds the values [r .. r+n-1] of the sequence 0, 1, 2, ...:
    [r] values have been taken, [r+n] added, and the counters say so. *)
Definition streams (s : fifo) (r n : nat) : Prop :=
  items s = sent r n ∧ added s = wrap64 (Z.of_nat (r + n)) ∧ taken s = wrap64 (Z.of_nat r).

Lemma streams_new max : streams (fifo_new max) 0 0.
Proof. done. Qed.

Lemma streams_size s r n : streams s r n → size s = Z.of_nat n.
Proof. intros (Hi & _). unfold size. by rewrite Hi length_sent. Qed.

Lemma streams_push s r n :
  streams s r n → streams (push (wrap32 (Z.of_nat (r + n))) s) r (S n).
Proof.
  intros (Hi & Ha & Ht). unfold streams. simpl. rewrite Hi Ha -sent_snoc wrap64_succ.
  repeat split; [|done]. f_equal. lia.
Qed.

Lemma streams_pop s r n : streams s r (S n) → streams (pop s) (S r) n.
Proof.
  intros (Hi & Ha & Ht). unfold streams. simpl. rewrite Hi Ha Ht wrap64_succ.
  repeat split; f_equal; lia.
Qed.

Lemma streams_head s r n :
  streams s r (S n) → items s = wrap32 (Z.of_nat r) :: sent (S r) n.
Proof. by intros (-> & _). Qed.

(** The queue together with the lock's view of both threads' progress. *)
Definition queue_res (q : loc) (bound : Z) (γr γw : gname) (r n : nat) : iProp Σ :=
  ∃ s, queue_at q bound s ∗ ⌜streams s r n⌝ ∗ progress γr r ∗ progress γw (r + n).

Definition queue_inv (q : loc) (bound : Z) (γr γw : gname) : iProp Σ :=
  ∃ r n, queue_res q bound γr γw r n.

Lemma queue_res_inv q bound γr γw r n :
  queue_res q bound γr γw r n -∗ queue_inv q bound γr γw.
Proof. iIntros "H". by iExists r, n. Qed.

Lemma queue_res_bound q bound γr γw r n :
  queue_res q bound γr γw r n -∗ ⌜Z.of_nat n ≤ bound⌝.
Proof.
  iIntros "(%s & Hq & %Hs & _)". iDestruct (queue_at_bound with "Hq") as %Hb.
  rewrite (streams_size _ _ _ Hs) in Hb. iPureIntro. lia.
Qed.

(** The lock and the threads agree on the progress. *)
Lemma queue_res_writer q bound γr γw r n m :
  queue_res q bound γr γw r n -∗ progress γw m -∗ ⌜m = (r + n)%nat⌝.
Proof. iIntros "(%s & _ & _ & _ & Hw) Hw'". iApply (progress_agree with "Hw' Hw"). Qed.

Lemma queue_res_reader q bound γr γw r n m :
  queue_res q bound γr γw r n -∗ progress γr m -∗ ⌜m = r⌝.
Proof. iIntros "(%s & _ & _ & Hr & _) Hr'". iApply (progress_agree with "Hr' Hr"). Qed.

(** A queue as [queue_init] leaves it. *)
Lemma queue_res_new q max bound :
  queue_at q bound (fifo_new max) ==∗
  ∃ γr γw, queue_res q bound γr γw 0 0 ∗ progress γr 0 ∗ progress γw 0.
Proof.
  iIntros "Hq". iMod (ghost_var_alloc 0%nat) as (γr) "[Hr Hr']".
  iMod (ghost_var_alloc 0%nat) as (γw) "[Hw Hw']". iModIntro. iExists γr, γw.
  iFrame. iPureIntro. apply streams_new.
Qed.

(** Reading [q->count] under the lock. *)
Lemma cwp_res_count q bound γr γw r n Φ :
  queue_res q bound γr γw r n -∗
  ▷ (queue_res q bound γr γw r n -∗ Φ (Z.of_nat n)) -∗ cwp (load_int (q ⟶ count)) Φ.
Proof.
  iIntros "(%s & Hq & %Hs & Hp) HΦ". iApply (cwp_read_count with "Hq"). iNext. iIntros "Hq".
  rewrite (streams_size _ _ _ Hs). iApply "HΦ". by iFrame.
Qed.

(** The two outcomes of the tests. *)
Lemma cwp_guard_add {A : Type} q max γr γw (full ok : prog A) Φ :
  queue_shared q max max -∗ queue_inv q max γr γw -∗
  ▷ ((queue_inv q max γr γw -∗ cwp full Φ) ∧
     (∀ r n, ⌜Z.of_nat n ≠ max⌝ -∗ queue_res q max γr γw r n -∗ cwp ok Φ)) -∗
  cwp (guard_add q full ok) Φ.
Proof.
  iIntros "#Hsh (%r & %n & %s & Hq & %Hs & Hp) HΦ".
  c_bind. iApply (cwp_add_attempt with "Hsh Hq"). iNext. iIntros "Hq".
  iAssert (queue_res q max γr γw r n) with "[Hq Hp]" as "Hq"; [by iFrame|].
  iDestruct (queue_res_bound with "Hq") as %Hb.
  c_bind. iApply (cwp_res_count with "Hq"). iNext. iIntros "Hq".
  c_bind. iApply (cwp_read_max with "Hsh"). iNext.
  c_bind. iApply cwp_assert; [by apply bool_decide_eq_true|].
  c_bind. iApply (cwp_res_count with "Hq"). iNext. iIntros "Hq".
  c_bind. iApply (cwp_read_max with "Hsh"). iNext. c_simp. case_decide.
  - iDestruct "HΦ" as "[HΦ _]". iApply "HΦ". by iExists r, n.
  - iDestruct "HΦ" as "[_ HΦ]". by iApply ("HΦ" with "[//] Hq").
Qed.

Lemma cwp_guard_get {A : Type} q max γr γw (empty ok : prog A) Φ :
  queue_shared q max max -∗ queue_inv q max γr γw -∗
  ▷ ((queue_inv q max γr γw -∗ cwp empty Φ) ∧
     (∀ r n, queue_res q max γr γw r (S n) -∗ cwp ok Φ)) -∗
  cwp (guard_get q empty ok) Φ.
Proof.
  iIntros "#Hsh (%r & %n & %s & Hq & %Hs & Hp) HΦ".
  c_bind. iApply (cwp_get_attempt with "Hsh Hq"). iNext. iIntros "Hq".
  iAssert (queue_res q max γr γw r n) with "[Hq Hp]" as "Hq"; [by iFrame|].
  c_bind. iApply (cwp_res_count with "Hq"). iNext. iIntros "Hq".
  c_bind. iApply cwp_assert; [apply bool_decide_eq_true; lia|].
  c_bind. iApply (cwp_res_count with "Hq"). iNext. iIntros "Hq". c_simp. case_decide.
  - iDestruct "HΦ" as "[HΦ _]". iApply "HΦ". by iExists r, n.
  - destruct n as [|n]; [done|]. iDestruct "HΦ" as "[_ HΦ]". by iApply ("HΦ" with "Hq").
Qed.

(** The critical section of [queue_add] once the queue is known not to be
    full: the writer's next value goes in. *)
Lemma cwp_res_enqueue {A : Type} q max bound γr γw r n new (k : prog A) Φ :
  bound ≤ INT_MAX → Z.of_nat n ≠ bound →
  queue_shared q max bound -∗ queue_res q bound γr γw r n -∗ progress γw (r + n) -∗
  qnode new (wrap32 (Z.of_nat (r + n))) None -∗
  ▷ (queue_res q bound γr γw r (S n) -∗ progress γw (S (r + n)) -∗ cwp k Φ) -∗
  cwp (link_last q new;; incr_int (q ⟶ count);; incr_long (q ⟶ add_count);; k) Φ.
Proof.
  iIntros (Hmax Hne) "#Hsh (%s & Hq & %Hs & Hr & Hw') Hw Hnew HΦ".
  iApply (cwp_enqueue with "Hsh Hq Hnew"); [done|by rewrite (streams_size _ _ _ Hs)|].
  iNext. iIntros "Hq". iMod (progress_update _ _ (S (r + n)) with "Hw Hw'") as "[Hw Hw']".
  iApply ("HΦ" with "[-Hw] Hw"). iExists _. iFrame "Hq Hr". rewrite Nat.add_succ_r. iFrame.
  iPureIntro. by apply streams_push.
Qed.

(** A queue without its head node, as the lock sees it. *)
Definition queue_res_headless (q : loc) (bound : Z) (γr γw : gname) (nx : ptr) (r n : nat) : iProp Σ :=
  ∃ s, queue_headless q bound nx s ∗ ⌜streams s r (S n)⌝ ∗ progress γr r ∗ progress γw (r + S n).

Lemma cwp_res_head q bound γr γw r n Φ :
  queue_res q bound γr γw r (S n) -∗
  ▷ (∀ l nx, qnode l (wrap32 (Z.of_nat r)) nx -∗ (q ⟶ first) ↦ VPtr (Some l) -∗
       ((q ⟶ first) ↦ VPtr nx -∗ queue_res_headless q bound γr γw nx r n) -∗ Φ (Some l)) -∗
  cwp (load_ptr (q ⟶ first)) Φ.
Proof.
  iIntros "(%s & Hq & %Hs & Hp) HΦ".
  iApply (cwp_read_head with "Hq"); [by apply streams_head|]. iNext. iIntros (l nx) "Hn Hf Hq".
  iApply ("HΦ" with "Hn Hf"). iIntros "Hf". iExists s. iFrame "Hp". iSplit; [|done].
  by iApply "Hq".
Qed.

Lemma cwp_res_dequeue {A : Type} q max bound γr γw nx r n (k : prog A) Φ :
  bound ≤ INT_MAX →
  queue_shared q max bound -∗ queue_res_headless q bound γr γw nx r n -∗ progress γr r -∗
  ▷ (queue_res q bound γr γw (S r) n -∗ progress γr (S r) -∗ cwp k Φ) -∗
  cwp (decr_int (q ⟶ count);; incr_long (q ⟶ get_count);; k) Φ.
Proof.
  iIntros (Hmax) "#Hsh (%s & Hq & %Hs & Hr' & Hw) Hr HΦ".
  iApply (cwp_dequeue with "Hsh Hq"); [done|]. iNext. iIntros "Hq".
  iMod (progress_update _ _ (S r) with "Hr Hr'") as "[Hr Hr']".
  iApply ("HΦ" with "[-Hr] Hr"). iExists _. iFrame "Hq Hr'". rewrite Nat.add_succ_r. iFrame.
  iPureIntro. by apply streams_pop.
Qed.

(** [queue_add] and [queue_get] behind any lock.  [full] is what the variant
    does with the new node when there is no room. *)
Lemma cwp_locked_add `{!LockCell try release vf vb} lk q max γr γw n (full : loc → prog Z) :
  c_good = no_error max → vf ≠ vb → max ≤ INT_MAX →
  is_lock vf vb lk (queue_inv q max γr γw) -∗ queue_shared q max max -∗ progress γw n -∗
  (∀ new v, locked vb lk -∗ queue_inv q max γr γw -∗ qnode new v None -∗
     cwp (full new) (λ ok, ⌜ok = 0⌝)) -∗
  cwp (with_new_node (wrap32 (Z.of_nat n)) (λ new,
         until_op (try lk);;
         guard_add q (full new)
           (link_last q new;; incr_int (q ⟶ count);; incr_long (q ⟶ add_count);;
            Act (release lk) Ret;; Ret 1)))
    (λ ok, ⌜ok = 0⌝ ∗ progress γw n ∨ ⌜ok = 1⌝ ∗ progress γw (S n)).
Proof.
  iIntros (Hgood Hne Hmax) "#Hlk #Hsh Hp Hfull". iApply cwp_with_new_node; [done|].
  iNext. iIntros (new) "Hnew". c_bind. iApply (cwp_lock with "Hlk"). iNext. iIntros "Hl Hq".
  iApply (cwp_guard_add with "Hsh Hq"). iNext. iSplit; [iIntros "Hq"|iIntros (r m Hm) "Hq"].
  - iApply (cwp_mono with "[Hp] (Hfull Hl Hq Hnew)"). iIntros (ok) "->". iLeft. by iFrame.
  - iDestruct (queue_res_writer with "Hq Hp") as %->.
    iApply (cwp_res_enqueue with "Hsh Hq Hp Hnew"); [done..|]. iNext. iIntros "Hq Hp".
    c_bind. iApply (cwp_unlock with "Hlk Hl [Hq]"); [done|by iApply queue_res_inv|].
    iNext. c_ret. iRight. by iFrame.
Qed.

Lemma cwp_locked_get `{!LockCell try release vf vb} lk q max γr γw n v0 :
  vf ≠ vb → max ≤ INT_MAX →
  is_lock vf vb lk (queue_inv q max γr γw) -∗ queue_shared q max max -∗ progress γr n -∗
  cwp (until_op (try lk);;
       guard_get q
         (Act (release lk) Ret;; Ret (0, v0))
         (tmp ← load_ptr (q ⟶ first);
          advance_first q;; decr_int (q ⟶ count);; incr_long (q ⟶ get_count);;
          Act (release lk) Ret;;
          t ← deref tmp; v' ← load_int (t ⟶ val); free tmp;; Ret (1, v')))
    (λ r, ⌜r.1 = 0⌝ ∗ progress γr n ∨ ⌜r = (1, wrap32 (Z.of_nat n))⌝ ∗ progress γr (S n)).
Proof.
  iIntros (Hne Hmax) "#Hlk #Hsh Hp". c_bind. iApply (cwp_lock with "Hlk"). iNext. iIntros "Hl Hq".
  iApply (cwp_guard_get with "Hsh Hq"). iNext. iSplit; [iIntros "Hq"|iIntros (r m) "Hq"].
  - c_bind. iApply (cwp_unlock with "Hlk Hl Hq"); [done|]. iNext. c_ret. iLeft. by iFrame.
  - iDestruct (queue_res_reader with "Hq Hp") as %->.
    c_bind. iApply (cwp_res_head with "Hq"). iNext. iIntros (l nx) "Hn Hf Hq".
    c_bind. iApply (cwp_advance_first with "Hf Hn"). iNext. iIntros "Hf Hn".
    iApply (cwp_res_dequeue with "Hsh (Hq Hf) Hp"); [done|]. iNext. iIntros "Hq Hp".
    c_bind. iApply (cwp_unlock with "Hlk Hl [Hq]"); [done|by iApply queue_res_inv|]. iNext.
    c_bind. c_ret. c_bind. iApply (cwp_node_val with "Hn"). iNext. iIntros "Hn".
    c_bind. iApply (cwp_free with "Hn"). iNext. c_ret. iRight. by iFrame.
Qed.

(** The two ways a full queue is left: release then free, free then release. *)
Lemma cwp_full_release_free `{!LockCell try release vf vb} lk R new v :
  vf ≠ vb → is_lock vf vb lk R -∗ locked vb lk -∗ R -∗ qnode new v None -∗
  cwp (Act (release lk) Ret;; free (Some new);; Ret 0) (λ ok : Z, ⌜ok = 0⌝).
Proof.
  iIntros (Hne) "#Hlk Hl HR Hn". c_bind. iApply (cwp_unlock with "Hlk Hl HR"); [done|]. iNext.
  c_bind. iApply (cwp_free with "Hn"). iNext. by c_ret.
Qed.

Lemma cwp_full_free_release `{!LockCell try release vf vb} lk R new v :
  vf ≠ vb → is_lock vf vb lk R -∗ locked vb lk -∗ R -∗ qnode new v None -∗
  cwp (free (Some new);; Act (release lk) Ret;; Ret 0) (λ ok : Z, ⌜ok = 0⌝).
Proof.
  iIntros (Hne) "#Hlk Hl HR Hn". c_bind. iApply (cwp_free with "Hn"). iNext.
  c_bind. iApply (cwp_unlock with "Hlk Hl HR"); [done|]. iNext. by c_ret.
Qed.

(** [main], when there is room for the three threads. *)
Lemma cwp_queue_main qmonitor no_monitor init_lock writer reader free_resources max bound n
    (Ψ : loc → iProp Σ) Φ :
  c_good = no_error bound → 0 ≤ bound →
  thread_slots ↦ VSem (3 + n) -∗
  (∀ q, queue_shared q max bound -∗ queue_at q bound (fifo_new max)
     ={⊤}=∗ cwp (qmonitor q) (λ _, True) ∗ Ψ q) -∗
  (∀ q, Ψ q -∗ cwp init_lock (λ _, |={⊤}=> cwp (writer q) (λ _, False) ∗
                                            cwp (reader q) (λ _, False))) -∗
  cwp (queue_main (queue_init_with qmonitor no_monitor) init_lock writer reader
         free_resources max) Φ.
Proof.
  iIntros (Hgood Hmax) "Hn Hstart Hinit". c_bind. iApply cwp_print_ids; [done..|]. iNext.
  c_bind. iApply (cwp_queue_init with "Hn Hstart"); [done..|]. iNext.
  iIntros (q tm) "HΨ Hn _ _".
  c_bind. iApply (cwp_mono with "[-Hinit HΨ] (Hinit HΨ)"). iIntros ([]) ">[Hw Hr]".
  c_bind. iApply (cwp_pthread_create _ _ False with "Hn Hw").
  iNext. iIntros (tw) "Hn Hjw". c_bind. c_ret. c_bind.
  iApply (cwp_pthread_create _ _ False with "Hn Hr").
  iNext. iIntros (tr) "Hn Hjr". c_bind. c_bind. iApply (cwp_pthread_join with "Hjr").
  iNext. iIntros ">[]".
Qed.

(** What protects the queue in the variants with a plain lock. *)
Definition locked_queue (vf vb : cval) (lk q : loc) (max : Z) (γr γw : gname) : iProp Σ :=
  is_lock vf vb lk (queue_inv q max γr γw) ∗ queue_shared q max max.

(** The [main] of a variant whose lock is initialised after [queue_init] and
    whose monitor reads without it. *)
Lemma cwp_locked_main vf vb lk stop_flag add get no_monitor free_resources
    max n fmt fm fw fr cw cr Φ :
  c_good = no_error max → 0 ≤ max →
  Forall (λ f, f ≠ ERROR_FMT ∧ f ≠ STATS_FMT) [fmt; fm; fw; fr] →
  (∀ q γr γw, QueueSpec add get q (locked_queue vf vb lk q max γr γw)
                (progress γw) (progress γr)) →
  thread_slots ↦ VSem (3 + n) -∗ lk ↦ vf -∗ stop_flag ↦ VInt 0 -∗
  cwp (queue_main
         (queue_init_with (λ q, print_ids fm;; monitor_loop stop_flag print_stats_line q)
            no_monitor)
         (err ← init_cell lk vf; report fmt err)
         (λ q, print_ids fw;; set_cpu cw;; writer_loop add q)
         (λ q, print_ids fr;; set_cpu cr;; reader_loop get q) free_resources max) Φ.
Proof.
  intros Hgood Hmax Hf Hspec. rewrite !Forall_cons in Hf.
  destruct Hf as ([? ?] & [? ?] & [? ?] & [? ?] & _).
  iIntros "Hn Hm Hs". iMod (pt_persist with "Hs") as "#Hs".
  iApply (cwp_queue_main _ _ _ _ _ _ _ _ _
    (λ q, queue_shared q max max ∗ queue_at q max (fifo_new max))%I with "Hn"); [done..| |].
  { iIntros (q) "#Hsh $ !>". iFrame "Hsh".
    c_bind. iApply cwp_print_ids; [done..|]. iNext.
    iApply (cwp_monitor_loop with "Hs"). iIntros "!> %Ψ HΨ".
    by iApply (cwp_print_stats with "Hsh"). }
  iIntros (q) "[#Hsh Hq]". iMod (queue_res_new with "Hq") as (γr γw) "(Hq & Hr & Hw)".
  iPoseProof (queue_res_inv with "Hq") as "Hq". c_bind.
  iApply (cwp_mono _ (λ _, lk ↦ vf)%I with "[Hq Hr Hw]").
  - iIntros (err) "Hm". iApply cwp_report; [done..|].
    iMod (is_lock_alloc _ vb with "Hm Hq") as "#Hlk".
    iAssert (locked_queue vf vb lk q max γr γw) as "#Hiq"; [by iFrame "#"|].
    iModIntro. iSplitL "Hw".
    + by iApply (cwp_writer_thread with "Hiq Hw").
    + by iApply (cwp_reader_thread with "Hiq Hr").
  - iApply (cwp_init_cell with "Hm"). iNext. iSplit; auto.
Qed.

End locked_queue.
#[global] Opaque queue_res queue_res_headless.
