(* ===== verification/QueueBase.v ===== *)
(** * QueueBase: the unprotected queue

    [semestr2/Task2/Task2_1]: [queue.c], the single-threaded client
    [queue-example.c] and the two-threaded one [queue-threads.c].  Used by
    one thread the queue refines a bounded FIFO with counters, also while
    the monitor reads it; used by two it goes wrong. *)
From iris.proofmode Require Import proofmode.
From S2P Require Import Prelude Machine Logic Pthread QueueCommon.
#[local] Open Scope Z_scope.

(** ** [queue.c] *)

Definition stop_flag : loc := (0%nat, 0).

Definition queue_print_stats (q : loc) : prog unit := print_stats_line q.

Definition qmonitor (q : loc) : prog unit :=
  print_ids "qmonitor: [%d %d %d]";;
  monitor_loop stop_flag queue_print_stats q.

Definition queue_init (max : Z) : prog loc :=
  queue_init_with qmonitor (λ q err,
    free (Some q);;
    print (EvOut "queue_init: pthread_create() failed: %s" [err]);;
    abort) max.

Definition queue_destroy (q : loc) : prog unit :=
  stop_monitor stop_flag q;;
  free_nodes q.

Definition queue_add (q : loc) (v : Z) : prog Z :=
  c ← load_int (q ⟶ count); m ← load_int (q ⟶ max_count);
  assert (bool_decide (c ≤ m)) "q->count <= q->max_count";;
  incr_long (q ⟶ add_attempts);;
  c ← load_int (q ⟶ count); m ← load_int (q ⟶ max_count);
  if decide (c = m) then Ret 0
  else
    c ← load_int (q ⟶ count);
    print (EvOut "ADD - queue stats: current size %d" [c]);;
    with_new_node v (λ new,
      link_last q new;;
      incr_int (q ⟶ count);;
      incr_long (q ⟶ add_count);;
      Ret 1).

(** [queue_get(q, &val)]: the return code and [val] afterwards. *)
Definition queue_get (q : loc) (v : Z) : prog (Z * Z) :=
  c ← load_int (q ⟶ count); m ← load_int (q ⟶ max_count);
  assert (bool_decide (c ≤ m)) "q->count <= q->max_count";;
  incr_long (q ⟶ get_attempts);;
  c ← load_int (q ⟶ count);
  assert (bool_decide (0 ≤ c)) "q->count >= 0";;
  c ← load_int (q ⟶ count);
  if decide (c = 0) then Ret (0, v)
  else
    c ← load_int (q ⟶ count);
    print (EvOut "GET - queue stats: current size %d" [c]);;
    tmp ← load_ptr (q ⟶ first);
    t ← deref tmp;
    v' ← load_int (t ⟶ val);
    advance_first q;;
    free tmp;;
    decr_int (q ⟶ count);;
    incr_long (q ⟶ get_count);;
    Ret (1, v').

(** ** [queue-example.c] *)

(** [for (int i = 0; i < n; i++) body(i);] *)
Definition for_below (n : Z) (body : Z → prog unit) : prog unit :=
  Loop (λ i : Z, if decide (i < n) then body i;; Ret (inl (i +i 1)) else Ret (inr tt)) 0 Ret.

Module Example.

Definition add_step (q : loc) (i : Z) : prog unit :=
  ok ← queue_add q i;
  print (EvOut "ok %d: add value %d" [ok; i]);;
  queue_print_stats q.

Definition get_step (q : loc) (_ : Z) : prog unit :=
  '(ok, v) ← queue_get q (-1);
  print (EvOut "ok: %d: get value %d" [ok; v]);;
  queue_print_stats q.

Definition main : prog Z :=
  print_ids "main: [%d %d %d]";;
  q ← queue_init 1000;
  for_below 10 (add_step q);;
  for_below 12 (get_step q);;
  queue_destroy q;;
  Ret EXIT_SUCCESS.

End Example.

(** ** [queue-threads.c] *)

(** [signal(SIGINT, handler)] only matters when a signal arrives; none does in
    the model. *)
Definition signal : prog unit := Ret tt.

Module Threads.

(** This file's own copy of the function. *)
Definition set_cpu (n : Z) : prog unit := QueueCommon.set_cpu n.

Definition reader (q : loc) : prog unit :=
  signal;;
  print_ids "reader [%d %d %d]";;
  set_cpu 1;;
  reader_loop queue_get q.

Definition writer (q : loc) : prog unit :=
  signal;;
  print_ids "writer [%d %d %d]";;
  set_cpu 2;;
  writer_loop queue_add q.

Definition main : prog Z :=
  print_ids "main [%d %d %d]";;
  q ← queue_init 100000000;
  '(err, tid_writer) ← pthread_create (writer q);
  if decide (err ≠ 0) then
    print (EvOut "main: pthread_create() failed: %s" [err]);; Ret EXIT_FAILURE
  else
    sched_yield;;
    '(err, tid_reader) ← pthread_create (reader q);
    if decide (err ≠ 0) then
      print (EvOut "main: pthread_create() failed: %s" [err]);; Ret EXIT_FAILURE
    else
      err ← pthread_join tid_reader;
      (if decide (err = 0) then Ret tt
       else print (EvErr "queue_destroy: pthread_join()[reader] failed"));;
      err ← pthread_join tid_writer;
      (if decide (err = 0) then Ret tt
       else print (EvErr "queue_destroy: pthread_join()[writer] failed"));;
      queue_destroy q;;
      Ret (if decide (err = 0) then EXIT_SUCCESS else EXIT_FAILURE).

End Threads.

(** The process image before [main]. *)
Definition init_state (slots : nat) : cstate :=
  CState {[ thread_slots := VSem slots; stop_flag := VInt 0 ]} 1 ∅ [] None.

(** ** Comparison with the specification

    [fifo], [fifo_add] and [fifo_get] of [QueueCommon] are what [queue.c]
    promises to a single-threaded client. *)

(** What a client can see of a queue without taking anything: the fields the
    statistics line prints. *)
Definition observe (q : loc) : prog (list Z) :=
  c ← load_int (q ⟶ count);
  aa ← load_int (q ⟶ add_attempts); ga ← load_int (q ⟶ get_attempts);
  ac ← load_int (q ⟶ add_count); gc ← load_int (q ⟶ get_count);
  Ret [c; aa; ga; ac; gc].
Definition fifo_observe (s : fifo) : list Z :=
  [size s; tried_add s; tried_get s; added s; taken s].

(** Calls, with a result code and a value. *)
Inductive call : Set := CAdd (v : Z) | CGet (v : Z).

Definition do_call (q : loc) (o : call) : prog (Z * Z) :=
  match o with
  | CAdd v => ok ← queue_add q v; Ret (ok, v)
  | CGet v => queue_get q v
  end.
Definition fifo_call (o : call) (s : fifo) : (Z * Z) * fifo :=
  match o with
  | CAdd v => let '(ok, s') := fifo_add v s in ((ok, v), s')
  | CGet v => fifo_get v s
  end.

(** A client that makes the calls and compares every answer, and all the
    counters after every call, with the specification. *)
Fixpoint compare (q : loc) (s : fifo) (os : list call) : prog unit :=
  match os with
  | [] => Ret tt
  | o :: os' =>
      r ← do_call q o;
      view ← observe q;
      assert (bool_decide (r = (fifo_call o s).1)) "same answer";;
      assert (bool_decide (view = fifo_observe (fifo_call o s).2)) "same counters";;
      compare q (fifo_call o s).2 os'
  end.

Definition compare_main (max : Z) (os : list call) : prog Z :=
  q ← queue_init max;
  compare q (fifo_new max) os;;
  queue_destroy q;;
  Ret EXIT_SUCCESS.

(** ** Verification *)

Section proof.
Context `{!cGS Σ} (max : Z) (Hmax : 0 ≤ max ≤ INT_MAX) (Hgood : c_good = no_error max).

(** The queue at [q] implements [s]. *)
Definition is_fifo (q : loc) (s : fifo) : iProp Σ := queue_at q max s ∗ ⌜limit s = max⌝.

Lemma base_add_spec q s v Φ :
  queue_shared q max max -∗ is_fifo q s -∗
  ▷ (is_fifo q (fifo_add v s).2 -∗ Φ (fifo_add v s).1) -∗ cwp (queue_add q v) Φ.
Proof using Hmax Hgood.
  iIntros "#Hsh [Hq %Hlim] HΦ". iDestruct (queue_at_bound with "Hq") as %Hb.
  c_bind. iApply (cwp_read_count with "Hq"). iNext. iIntros "Hq".
  c_bind. iApply (cwp_read_max with "Hsh"). iNext.
  c_bind. iApply cwp_assert; [apply bool_decide_eq_true; lia|].
  c_bind. iApply (cwp_add_attempt with "Hsh Hq"). iNext. iIntros "Hq".
  c_bind. iApply (cwp_read_count with "Hq"). iNext. iIntros "Hq".
  c_bind. iApply (cwp_read_max with "Hsh"). iNext. c_simp.
  change (size (tick_add s)) with (size s). unfold fifo_add. rewrite Hlim. case_decide as Hd.
  - c_ret. iApply "HΦ". by iFrame.
  - c_bind. iApply (cwp_read_count with "Hq"). iNext. iIntros "Hq".
    c_bind. iApply cwp_print; [rewrite Hgood; by apply no_error_out|]. iNext.
    iApply cwp_with_new_node; [done|]. iNext. iIntros (new) "Hnew".
    iApply (cwp_enqueue with "Hsh Hq Hnew"); [lia|done|]. iNext. iIntros "Hq".
    c_ret. iApply "HΦ". by iFrame.
Qed.

Lemma base_get_spec q s v Φ :
  queue_shared q max max -∗ is_fifo q s -∗
  ▷ (is_fifo q (fifo_get v s).2 -∗ Φ (fifo_get v s).1) -∗ cwp (queue_get q v) Φ.
Proof using Hmax Hgood.
  iIntros "#Hsh [Hq %Hlim] HΦ". iDestruct (queue_at_bound with "Hq") as %Hb.
  c_bind. iApply (cwp_read_count with "Hq"). iNext. iIntros "Hq".
  c_bind. iApply (cwp_read_max with "Hsh"). iNext.
  c_bind. iApply cwp_assert; [apply bool_decide_eq_true; lia|].
  c_bind. iApply (cwp_get_attempt with "Hsh Hq"). iNext. iIntros "Hq".
  c_bind. iApply (cwp_read_count with "Hq"). iNext. iIntros "Hq".
  change (size (tick_get s)) with (size s).
  c_bind. iApply cwp_assert; [apply bool_decide_eq_true; lia|].
  c_bind. iApply (cwp_read_count with "Hq"). iNext. iIntros "Hq". c_simp.
  change (size (tick_get s)) with (size s). unfold fifo_get.
  case_decide as Hd; unfold size in Hd; destruct (items s) as [|x xs] eqn:Hi; [|done|done|].
  { c_ret. iApply "HΦ". by iFrame. }
  c_bind. iApply (cwp_read_count with "Hq"). iNext. iIntros "Hq".
  c_bind. iApply cwp_print; [rewrite Hgood; by apply no_error_out|]. iNext.
  c_bind. iApply (cwp_read_head with "Hq"); [done|]. iNext. iIntros (l nx) "Hn Hf Hq".
  c_bind. c_ret. c_bind. iApply (cwp_node_val with "Hn"). iNext. iIntros "Hn".
  c_bind. iApply (cwp_advance_first with "Hf Hn"). iNext. iIntros "Hf Hn".
  c_bind. iApply (cwp_free with "Hn"). iNext.
  iApply (cwp_dequeue with "Hsh (Hq Hf)"); [lia|]. iNext. iIntros "Hq".
  c_ret. iApply "HΦ". by iFrame.
Qed.

Lemma do_call_spec q s o Φ :
  queue_shared q max max -∗ is_fifo q s -∗
  ▷ (is_fifo q (fifo_call o s).2 -∗ Φ (fifo_call o s).1) -∗ cwp (do_call q o) Φ.
Proof using Hmax Hgood.
  iIntros "#Hsh Hq HΦ". destruct o as [v|v]; cbn [do_call fifo_call].
  - c_bind. iApply (base_add_spec with "Hsh Hq"). iNext. iIntros "Hq".
    destruct (fifo_add v s) as [ok s']. cbn [fst snd]. c_ret. by iApply "HΦ".
  - iApply (base_get_spec with "Hsh Hq HΦ").
Qed.

Lemma observe_spec q s Φ :
  is_fifo q s -∗ ▷ (is_fifo q s -∗ Φ (fifo_observe s)) -∗ cwp (observe q) Φ.
Proof.
  iIntros "[Hq %Hlim] HΦ". c_bind. iApply (cwp_read_count with "Hq"). iNext. iIntros "Hq".
  iDestruct (queue_at_counters with "Hq") as "(Haa & Hga & Hac & Hgc & Hq)".
  c_load "Haa". c_load "Hga". c_load "Hac". c_load "Hgc". c_ret. iApply "HΦ".
  iSplit; [|done]. iApply ("Hq" with "Haa Hga Hac Hgc").
Qed.

Lemma compare_spec q os s Φ :
  queue_shared q max max -∗ is_fifo q s -∗ (∀ s', is_fifo q s' -∗ Φ tt) -∗
  cwp (compare q s os) Φ.
Proof using Hmax Hgood.
  iIntros "#Hsh Hq HΦ". iInduction os as [|o os] "IH" forall (s); cbn [compare].
  { c_ret. by iApply "HΦ". }
  c_bind. iApply (do_call_spec with "Hsh Hq"). iNext. iIntros "Hq".
  c_bind. iApply (observe_spec with "Hq"). iNext. iIntros "Hq".
  c_bind. iApply cwp_assert; [by apply bool_decide_eq_true|].
  c_bind. iApply cwp_assert; [by apply bool_decide_eq_true|].
  iApply ("IH" with "Hq HΦ").
Qed.

(** [queue_init] with its monitor, and [queue_destroy], which stops it. *)
Lemma base_init_spec n Φ :
  thread_slots ↦ VSem (S n) -∗ stop_flag ↦ VInt 0 -∗
  ▷ (∀ q t, queue_shared q max max -∗ is_fifo q (fifo_new max) -∗
       thread_slots ↦ VSem n -∗ shared_int any_int stop_flag -∗ stop_flag ↦{#1/2} VInt 0 -∗
       (q ⟶ qmonitor_tid) ↦ VPtr (Some t) -∗ join_handle t True -∗ Φ q) -∗
  cwp (queue_init max) Φ.
Proof using Hmax Hgood.
  iIntros "Hn Hs HΦ". iMod (shared_int_alloc any_int with "Hs") as "[#Hs Hst]"; [done|].
  iApply (cwp_queue_init _ _ _ _ _ True
    (λ q, queue_shared q max max ∗ is_fifo q (fifo_new max))%I with "Hn"); [done|lia| |].
  { iIntros (q) "#Hsh Hq !>". iFrame "Hsh Hq". iSplit; [|done].
    c_bind. iApply cwp_print_ids; [done..|]. iNext.
    iApply (cwp_monitor_loop_stoppable with "Hs"). iIntros "!> %Ψ HΨ".
    by iApply (cwp_print_stats with "Hsh"). }
  iNext. iIntros (q t) "[#Hsh Hq] Hn Ht Hj". iApply ("HΦ" with "Hsh Hq Hn Hs Hst Ht Hj").
Qed.

Lemma base_destroy_spec q s t z Φ :
  is_fifo q s -∗ shared_int any_int stop_flag -∗ stop_flag ↦{#1/2} VInt z -∗
  (q ⟶ qmonitor_tid) ↦ VPtr (Some t) -∗ join_handle t True -∗ ▷ Φ tt -∗
  cwp (queue_destroy q) Φ.
Proof.
  iIntros "[Hq _] #Hs Hst Ht Hj HΦ". c_bind. c_bind.
  iApply (cwp_store_shared with "Hs Hst"); [done|]. iNext. iIntros "Hst".
  c_load "Ht". c_bind. iApply (cwp_pthread_join with "Hj"). iNext. iIntros "_". c_ret.
  by iApply (cwp_free_nodes with "Hq").
Qed.

Lemma compare_main_spec os n Φ :
  thread_slots ↦ VSem (S n) -∗ stop_flag ↦ VInt 0 -∗ ▷ Φ EXIT_SUCCESS -∗
  cwp (compare_main max os) Φ.
Proof using Hmax Hgood.
  iIntros "Hn Hs HΦ". c_bind. iApply (base_init_spec with "Hn Hs"). iNext.
  iIntros (q t) "#Hsh Hq Hn #Hs Hst Ht Hj".
  c_bind. iApply (compare_spec with "Hsh Hq"). iIntros (s') "Hq".
  c_bind. iApply (base_destroy_spec with "Hq Hs Hst Ht Hj"). iNext. by c_ret.
Qed.

Lemma for_below_spec k body (R : iProp Σ) Φ :
  □ (∀ i, R -∗ cwp (body i) (λ _, R)) -∗ R -∗ (R -∗ Φ tt) -∗ cwp (for_below k body) Φ.
Proof.
  iIntros "#Hb HR HΦ".
  iApply (cwp_loop _ _ (λ _, R ∗ (R -∗ Φ tt))%I with "[$HR $HΦ]").
  iIntros "!> %i [HR HΦ]". c_simp. case_decide; [|c_ret; by iApply "HΦ"].
  c_bind. iPoseProof ("Hb" with "HR") as "H".
  iApply (cwp_mono with "[HΦ] H"). iIntros ([]) "HR". c_ret. iFrame.
Qed.

(** The statements of [queue-example.c] keep the queue a FIFO. *)
Lemma example_main_spec n Φ :
  max = 1000 → thread_slots ↦ VSem (S n) -∗ stop_flag ↦ VInt 0 -∗ ▷ Φ EXIT_SUCCESS -∗
  cwp Example.main Φ.
Proof using Hmax Hgood.
  iIntros (Hm) "Hn Hs HΦ". c_bind. iApply cwp_print_ids; [done..|]. iNext. rewrite -Hm.
  c_bind. iApply (base_init_spec with "Hn Hs"). iNext.
  iIntros (q t) "#Hsh Hq Hn #Hs Hst Ht Hj".
  c_bind. iApply (for_below_spec _ _ (∃ s, is_fifo q s)%I with "[] [Hq]"); [|by iExists _|].
  { iIntros "!> %i [%s Hq]". c_bind. iApply (base_add_spec with "Hsh Hq"). iNext. iIntros "Hq".
    c_bind. iApply cwp_print; [rewrite Hgood; by apply no_error_out|]. iNext.
    iApply (cwp_print_stats with "Hsh"); [done|]. iNext. by iExists _. }
  iIntros "[%s Hq]". c_bind. iApply (for_below_spec _ _ (∃ s, is_fifo q s)%I with "[] [Hq]"); [|by iExists _|].
  { iIntros "!> %i [%s' Hq]". c_bind. iApply (base_get_spec with "Hsh Hq"). iNext. iIntros "Hq".
    destruct (fifo_get _ s').1 as [ok v].
    c_bind. iApply cwp_print; [rewrite Hgood; by apply no_error_out|]. iNext.
    iApply (cwp_print_stats with "Hsh"); [done|]. iNext. by iExists _. }
  iIntros "[%s' Hq]". c_bind. iApply (base_destroy_spec with "Hq Hs Hst Ht Hj"). iNext. by c_ret.
Qed.

End proof.

(** C2. Used by one thread the queue refines the bounded FIFO: whatever calls a
    client makes, and however the monitor thread interleaves with them, every
    answer and every counter is the one [fifo] gives, and [queue_destroy]
    releases every node exactly once. *)
Theorem base_queue_refines_fifo max os n ps σ :
  0 ≤ max ≤ INT_MAX →
  rtc cstep ([process (compare_main max os)], init_state (1 + n)) (ps, σ) →
  Forall (λ p, ¬ faulting σ p) ps ∧ Forall (no_error max) (out σ).
Proof.
  intros Hmax. apply (pool_safe cΣ (no_error max)); [solve_globals|done|].
  intros HC Hgood. simpl. rewrite !big_sepM_insert // big_sepM_empty.
  iIntros "(Hn & Hs & _) !>". iSplit; [|done]. c_bind.
  iApply (compare_main_spec _ Hmax Hgood with "Hn Hs"). iNext. iApply cwp_exit.
Qed.

(** [queue-example.c] never goes wrong. *)
Theorem example_queue_safe n ps σ :
  rtc cstep ([process Example.main], init_state (1 + n)) (ps, σ) →
  Forall (λ p, ¬ faulting σ p) ps ∧ Forall (no_error 1000) (out σ).
Proof.
  apply (pool_safe cΣ (no_error 1000)); [solve_globals|done|].
  intros HC Hgood. simpl. rewrite !big_sepM_insert // big_sepM_empty.
  iIntros "(Hn & Hs & _) !>". iSplit; [|done]. c_bind.
  iApply (example_main_spec 1000 with "Hn Hs"); [done..|]. iNext. iApply cwp_exit.
Qed.

(** The lines [main] of [queue-example.c] prints about its calls. *)
Definition call_lines (σ : cstate) : list (string * list Z) :=
  omap (λ e, match e with
             | EvOut fmt args =>
                 if decide (fmt = "ok %d: add value %d" ∨ fmt = "ok: %d: get value %d")
                 then Some (fmt, args) else None
             | _ => None
             end) (out σ).

(** A complete run: [main] makes its calls, the monitor then sees the stop
    flag, [main] joins it and exits.  Ten values go in, the same ten come out
    in order, and the last two calls find the queue empty. *)
Theorem example_output :
  let σ := (run_sched (replicate 1750 (0, 0)%nat ++ replicate 16 (1, 0)%nat ++
                       replicate 200 (0, 0)%nat)
              ([process Example.main], init_state 1)).2 in
  call_lines σ =
    ((λ i : nat, ("ok %d: add value %d", [1; Z.of_nat i])) <$> seq 0 10) ++
    ((λ i : nat, ("ok: %d: get value %d", [1; Z.of_nat i])) <$> seq 0 10) ++
    replicate 2 ("ok: %d: get value %d", [0; -1]) ∧
  exited σ = Some EXIT_SUCCESS.
Proof. vm_compute. split; reflexivity. Qed.

(** C30. Used by two threads, [queue-threads.c] has a data race that ends in a use
    after free: the writer has seen a nonempty queue, the reader takes the
    only node and frees it, and the writer stores the new node's address into
    the freed one. *)
Theorem threads_queue_use_after_free :
  reaches_fault ([process Threads.main], init_state 3) 2
    (λ σ f, match f with FaultStore l => in_freed_block σ l | _ => false end).
Proof.
  apply (reaches_fault_by (replicate 60 (0, 0)%nat ++ replicate 38 (2, 0)%nat ++
                             replicate 40 (3, 0)%nat ++ replicate 12 (2, 0)%nat)).
  vm_compute. reflexivity.
Qed.

(** Another interleaving loses a value without any fault: the reader prints
    its error line, having got 2 where it expected 1. *)
Theorem threads_queue_lost_value :
  ∃ ps σ, rtc cstep ([process Threads.main], init_state 3) (ps, σ) ∧
          EvOut ERROR_FMT [2; 1] ∈ out σ.
Proof.
  set (sched := replicate 60 (0, 0)%nat ++ replicate 38 (2, 0)%nat ++ replicate 20 (3, 0)%nat ++
                replicate 50 (2, 0)%nat ++ replicate 100 (3, 0)%nat).
  pose proof (run_sched_reachable sched ([process Threads.main], init_state 3)) as Hr.
  assert (bool_decide (EvOut ERROR_FMT [2; 1] ∈
    out (run_sched sched ([process Threads.main], init_state 3)).2) = true) as He
    by (vm_compute; reflexivity).
  apply bool_decide_eq_true in He.
  destruct (run_sched sched ([process Threads.main], init_state 3)) as [ps σ]. by exists ps, σ.
Qed.

(** The first 300 steps of [main]. *)
Lemma example_queue_safe_witness :
  let ρ := run_sched (replicate 300 (0, 0)%nat) ([process Example.main], init_state 1) in
  Forall (λ p, ¬ faulting ρ.2 p) ρ.1 ∧ Forall (no_error 1000) (out ρ.2).
Proof. apply (example_queue_safe 0). apply run_sched_reaches. Defined.

(** A queue for two values: the third [CAdd] is refused, the third [CGet]
    finds nothing. *)
Lemma base_queue_refines_fifo_witness :
  let os := [CAdd 7; CAdd 8; CAdd 9; CGet 0; CGet 0; CGet 0] in
  let ρ := run_sched (replicate 600 (0, 0)%nat) ([process (compare_main 2 os)], init_state 1) in
  Forall (λ p, ¬ faulting ρ.2 p) ρ.1 ∧ Forall (no_error 2) (out ρ.2).
Proof.
  apply (base_queue_refines_fifo 2 [CAdd 7; CAdd 8; CAdd 9; CGet 0; CGet 0; CGet 0] 0);
    [unfold INT_MAX; lia|apply run_sched_reaches].
Defined.
