(* ===== verification/QueueMutex.v ===== *)
(** * QueueMutex: the queue protected by a mutex

    [semestr2/Task2/Task2_2/mutex]: [queue-mutex.c] and
    [queue-threads-mutex.c].  [init_mutex] uses an attribute object that
    nobody has initialised, so [main] is undefined as it is written.  The main
    theorem names that operation, and shows that with an attribute object that
    has been initialised nothing else goes wrong in any interleaving of main,
    writer, reader and monitor. *)
From iris.proofmode Require Import proofmode.
From S2P Require Import Prelude Machine Logic Pthread QueueCommon.
#[local] Open Scope Z_scope.

(** ** [queue-mutex.c] *)

Definition mutex : loc := (0%nat, 0).
Definition stop_flag : loc := (0%nat, 1).

Definition queue_print_stats (q : loc) : prog unit := print_stats_line q.

Definition qmonitor (q : loc) : prog unit :=
  print_ids "qmonitor: [%d %d %d]";;
  monitor_loop stop_flag queue_print_stats q.

(** [att] is what the local attribute object holds.  (Its type is misspelt,
    [thread_mutexattr_t], and is read as [pthread_mutexattr_t].) *)
Definition init_mutex (att : cval) : prog unit :=
  pthread_mutexattr_setpshared att;;
  err ← pthread_mutex_init_with mutex att;
  report "main: pthread_mutex_init() failed: %s" err.

Definition queue_destroy (q : loc) : prog unit :=
  stop_monitor stop_flag q;;
  free_nodes q.

(** When the monitor cannot be created this variant calls [queue_destroy],
    which joins the thread that was never created. *)
Definition queue_init (max : Z) : prog loc :=
  queue_init_with qmonitor (λ q err,
    queue_destroy q;;
    print (EvOut "queue_init: pthread_create() failed: %s" [err]);;
    abort) max.

Definition destroy_mutex : prog unit :=
  err ← pthread_mutex_destroy mutex;
  if decide (err = 0) then Ret tt else print (EvErr "pthread_spin_destroy: failed").

Definition queue_add (q : loc) (v : Z) : prog Z :=
  with_new_node v (λ new,
    pthread_mutex_lock mutex;;
    guard_add q
      (pthread_mutex_unlock mutex;;
       free (Some new);;
       Ret 0)
      (link_last q new;;
       incr_int (q ⟶ count);;
       incr_long (q ⟶ add_count);;
       pthread_mutex_unlock mutex;;
       Ret 1)).

(** [queue_get(q, &val)]: the return code and [val] afterwards. *)
Definition queue_get (q : loc) (v : Z) : prog (Z * Z) :=
  pthread_mutex_lock mutex;;
  guard_get q
    (pthread_mutex_unlock mutex;;
     Ret (0, v))
    (tmp ← load_ptr (q ⟶ first);
     advance_first q;;
     decr_int (q ⟶ count);;
     incr_long (q ⟶ get_count);;
     pthread_mutex_unlock mutex;;
     t ← deref tmp;
     v' ← load_int (t ⟶ val);
     free tmp;;
     Ret (1, v')).

(** ** [queue-threads-mutex.c] *)

Definition reader (q : loc) : prog unit :=
  print_ids "reader [%d %d %d]";;
  set_cpu 2;;
  reader_loop queue_get q.

Definition writer (q : loc) : prog unit :=
  print_ids "writer [%d %d %d]";;
  set_cpu 1;;
  writer_loop queue_add q.

Definition free_resources (q : loc) : prog unit :=
  destroy_mutex;;
  queue_destroy q.

Definition main_with (att : cval) : prog Z :=
  queue_main queue_init (init_mutex att) writer reader free_resources 100000.

(** Nothing initialises [att]. *)
Definition main : prog Z := main_with VUndef.

(** The process image before [main]: static objects are zero. *)
Definition init_state (slots : nat) : cstate :=
  CState {[ thread_slots := VSem slots; mutex := VLock MutexLock false; stop_flag := VInt 0 ]}
    1 ∅ [] None.

(** ** Verification *)

Section proof.
Context `{!cGS Σ, !ghost_varG Σ nat} (Hgood : c_good = no_error 100000).

Lemma mutex_queue_spec q γr γw :
  QueueSpec queue_add queue_get q
    (locked_queue (VLock MutexLock false) (VLock MutexLock true) mutex q 100000 γr γw)
    (progress γw) (progress γr).
Proof using Hgood.
  split; [apply _|intros n|intros n v0]; iIntros "#[Hlk Hsh] Hp".
  - iApply (cwp_locked_add with "Hlk Hsh Hp"); [done..|].
    iIntros (new v) "Hl Hq Hn". by iApply (cwp_full_release_free with "Hlk Hl Hq Hn").
  - by iApply (cwp_locked_get with "Hlk Hsh Hp").
Qed.

Lemma init_mutex_ready :
  init_mutex (VInt 0) =
  (err ← init_cell mutex (VLock MutexLock false);
   report "main: pthread_mutex_init() failed: %s" err).
Proof. reflexivity. Qed.

Lemma mutex_main_spec n Φ :
  thread_slots ↦ VSem (3 + n) -∗ mutex ↦ VLock MutexLock false -∗ stop_flag ↦ VInt 0 -∗
  cwp (main_with (VInt 0)) Φ.
Proof using All.
  unfold main_with. rewrite init_mutex_ready.
  apply (cwp_locked_main _ (VLock MutexLock true)); [done|done| |apply mutex_queue_spec].
  by repeat constructor.
Qed.

End proof.

(** C1. The attribute object that [init_mutex] never initialises is all that
    is wrong with the queue under a mutex.  The program as it is written gets
    to the call that uses it, which is undefined; were the object initialised,
    no interleaving of main, writer, reader and monitor would, with room for
    the three threads, perform an undefined operation, print the reader's
    error line or fail an assertion: the reader gets exactly 0, 1, 2, ... *)
Theorem mutex_queue_safe n :
  reaches_fault ([process main], init_state (3 + n)) 0
    (λ _ f, bool_decide (f = FaultUB "attribute not initialised")) ∧
  ∀ ps σ, rtc cstep ([process (main_with (VInt 0))], init_state (3 + n)) (ps, σ) →
    Forall (λ p, ¬ faulting σ p) ps ∧ Forall (no_error 100000) (out σ).
Proof.
  split; [apply (reaches_fault_by (replicate 20 (0, 0)%nat)); vm_compute; reflexivity|]. intros ps σ.
  apply (pool_safe #[cΣ; ghost_varΣ nat] (no_error 100000)); [solve_globals|done|].
  intros HC Hgood. simpl. rewrite !big_sepM_insert // big_sepM_empty.
  iIntros "(Hn & Hm & Hs & _) !>". iSplit; [|done]. c_bind.
  by iApply (mutex_main_spec Hgood with "Hn Hm Hs").
Qed.

(** When the reader cannot be created, [main] destroys the mutex and frees
    the queue while the writer is still using them. *)
Theorem mutex_queue_no_reader_faults :
  can_fault ([process (main_with (VInt 0))], init_state 2).
Proof.
  apply (faults_after_sound (replicate 60 (0, 0)%nat ++ replicate 50 (2, 0)%nat)).
  vm_compute. reflexivity.
Qed.

(** When the monitor cannot be created, [queue_init] joins a thread id that
    was never set. *)
Theorem mutex_queue_no_monitor_faults : can_fault ([process main], init_state 0).
Proof. apply (faults_after_sound (replicate 60 (0, 0)%nat)). vm_compute. reflexivity. Qed.

(** A run of 800 turns, the four threads in rotation. *)
Lemma mutex_queue_safe_witness :
  let ρ := run_sched (flat_map (λ i, [(0, 0); (1, 0); (2, i); (3, 0)]%nat) (seq 0 200)) ([process (main_with (VInt 0))], init_state 3) in
  Forall (λ p, ¬ faulting ρ.2 p) ρ.1 ∧ Forall (no_error 100000) (out ρ.2).
Proof. apply (mutex_queue_safe 0). apply run_sched_reaches. Defined.
