(* ===== verification/QueueSpin.v ===== *)
(** * QueueSpin: the queue protected by a spin lock

    [semestr2/Task2/Task2_2/spin-lock]: [queue-spin-lock.c] and
    [queue-threads-spin-lock.c]. *)
From iris.proofmode Require Import proofmode.
From S2P Require Import Prelude Machine Logic Pthread QueueCommon.
#[local] Open Scope Z_scope.

(** ** [queue-spin-lock.c] *)

Definition spinlock : loc := (0%nat, 0).
Definition stop_flag : loc := (0%nat, 1).

Definition queue_print_stats (q : loc) : prog unit := print_stats_line q.

Definition qmonitor (q : loc) : prog unit :=
  print_ids "qmonitor: [%d %d %d]";;
  monitor_loop stop_flag queue_print_stats q.

(** The function has no return statement on success; no caller uses the
    result. *)
Definition init_spin_lock : prog unit :=
  err ← pthread_spin_init spinlock;
  report "main: pthread_spin_init() failed: %s" err.

Definition queue_init (max : Z) : prog loc :=
  queue_init_with qmonitor (λ q err,
    free (Some q);;
    print (EvOut "queue_init: pthread_create() failed: %s" [err]);;
    abort) max.

Definition queue_destroy (q : loc) : prog unit :=
  stop_monitor stop_flag q;;
  free_nodes q.

Definition destroy_spin_lock : prog unit :=
  err ← pthread_spin_destroy spinlock;
  if decide (err = 0) then Ret tt else print (EvErr "pthread_spin_destroy: failed").

Definition queue_add (q : loc) (v : Z) : prog Z :=
  with_new_node v (λ new,
    pthread_spin_lock spinlock;;
    guard_add q
      (free (Some new);;
       pthread_spin_unlock spinlock;;
       Ret 0)
      (link_last q new;;
       incr_int (q ⟶ count);;
       incr_long (q ⟶ add_count);;
       pthread_spin_unlock spinlock;;
       Ret 1)).

Definition queue_get (q : loc) (v : Z) : prog (Z * Z) :=
  pthread_spin_lock spinlock;;
  guard_get q
    (pthread_spin_unlock spinlock;;
     Ret (0, v))
    (tmp ← load_ptr (q ⟶ first);
     advance_first q;;
     decr_int (q ⟶ count);;
     incr_long (q ⟶ get_count);;
     pthread_spin_unlock spinlock;;
     t ← deref tmp;
     v' ← load_int (t ⟶ val);
     free tmp;;
     Ret (1, v')).

(** ** [queue-threads-spin-lock.c] *)

(** This file's own copy of the function. *)
Definition set_cpu (n : Z) : prog unit := QueueCommon.set_cpu n.

Definition reader (q : loc) : prog unit :=
  print_ids "reader [%d %d %d]";;
  set_cpu 2;;
  reader_loop queue_get q.

Definition writer (q : loc) : prog unit :=
  print_ids "writer [%d %d %d]";;
  set_cpu 1;;
  writer_loop queue_add q.

Definition free_resources (q : loc) : prog unit :=
  destroy_spin_lock;;
  queue_destroy q.

Definition main : prog Z :=
  queue_main queue_init init_spin_lock writer reader free_resources 100000.

(** The process image before [main]: static objects are zero, which is an
    unlocked spin lock. *)
Definition init_state (slots : nat) : cstate :=
  CState {[ thread_slots := VSem slots; spinlock := VLock SpinLock false; stop_flag := VInt 0 ]}
    1 ∅ [] None.

(** ** Verification *)

Section proof.
Context `{!cGS Σ, !ghost_varG Σ nat} (Hgood : c_good = no_error 100000).

Lemma spin_queue_spec q γr γw :
  QueueSpec queue_add queue_get q
    (locked_queue (VLock SpinLock false) (VLock SpinLock true) spinlock q 100000 γr γw)
    (progress γw) (progress γr).
Proof using Hgood.
  split; [apply _|intros n|intros n v0]; iIntros "#[Hlk Hsh] Hp".
  - iApply (cwp_locked_add with "Hlk Hsh Hp"); [done..|].
    iIntros (new v) "Hl Hq Hn". by iApply (cwp_full_free_release with "Hlk Hl Hq Hn").
  - by iApply (cwp_locked_get with "Hlk Hsh Hp").
Qed.

Lemma spin_main_spec n Φ :
  thread_slots ↦ VSem (3 + n) -∗ spinlock ↦ VLock SpinLock false -∗ stop_flag ↦ VInt 0 -∗
  cwp main Φ.
Proof using All.
  apply (cwp_locked_main _ (VLock SpinLock true)); [done|done| |apply spin_queue_spec].
  by repeat constructor.
Qed.

End proof.

(** C28. Starting from [main], with room for the three threads it creates, no
    interleaving of main, writer, reader and monitor performs an undefined
    operation, and neither the reader's error line nor a failed assertion is
    ever printed: the reader gets exactly 0, 1, 2, ... *)
Theorem spin_queue_safe n ps σ :
  rtc cstep ([process main], init_state (3 + n)) (ps, σ) →
  Forall (λ p, ¬ faulting σ p) ps ∧ Forall (no_error 100000) (out σ).
Proof.
  apply (pool_safe #[cΣ; ghost_varΣ nat] (no_error 100000)); [solve_globals|done|].
  intros HC Hgood. simpl. rewrite !big_sepM_insert // big_sepM_empty.
  iIntros "(Hn & Hm & Hs & _) !>". iSplit; [|done]. c_bind.
  by iApply (spin_main_spec Hgood with "Hn Hm Hs").
Qed.

(** When the reader cannot be created, [main] destroys the lock and frees
    the queue while the writer is still using them. *)
Theorem spin_queue_no_reader_faults : can_fault ([process main], init_state 2).
Proof.
  apply (faults_after_sound (replicate 60 (0, 0)%nat ++ replicate 50 (2, 0)%nat)).
  vm_compute. reflexivity.
Qed.

(** A run of 800 turns, the four threads in rotation. *)
Lemma spin_queue_safe_witness :
  let ρ := run_sched (flat_map (λ i, [(0, 0); (1, 0); (2, i); (3, 0)]%nat) (seq 0 200)) ([process main], init_state 3) in
  Forall (λ p, ¬ faulting ρ.2 p) ρ.1 ∧ Forall (no_error 100000) (out ρ.2).
Proof. apply (spin_queue_safe 0). apply run_sched_reaches. Defined.
