(* ===== verification/QueueSem.v ===== *)
(** * QueueSem: the queue protected by a semaphore

    [semestr2/Task2/Task2_2/semafor]: [queue-semafor.c] and
    [queue-thread-semafor.c].  Unlike in the other variants the monitor takes
    the lock too, and it is started by [queue_init], before [init_sem]: it may
    wait on a semaphore that is not one yet, which is undefined.  The main
    theorem covers every interleaving behind [init_sem]. *)
From iris.proofmode Require Import proofmode.
From S2P Require Import Prelude Machine Logic Pthread QueueCommon.
#[local] Open Scope Z_scope.

(** ** [queue-semafor.c] *)

Definition semaphore : loc := (0%nat, 0).
Definition stop_flag : loc := (0%nat, 1).

Definition queue_print_stats (q : loc) : prog unit :=
  sem_wait semaphore;;
  print_stats_line q;;
  sem_post semaphore.

Definition qmonitor (q : loc) : prog unit :=
  print_ids "qmonitor: [%d %d %d]";;
  monitor_loop stop_flag queue_print_stats q.

Definition init_sem : prog unit :=
  err ← sem_init semaphore 1;
  report "main: sem_init() failed: %s" err.

Definition queue_init (max : Z) : prog loc :=
  queue_init_with qmonitor (λ q err,
    free (Some q);;
    print (EvOut "queue_init: pthread_create() failed: %s" [err]);;
    abort) max.

Definition queue_destroy (q : loc) : prog unit :=
  stop_monitor stop_flag q;;
  free_nodes q.

Definition destroy_sem : prog unit :=
  err ← sem_destroy semaphore;
  if decide (err = 0) then Ret tt else print (EvErr "sem_destroy: failed").

Definition queue_add (q : loc) (v : Z) : prog Z :=
  with_new_node v (λ new,
    sem_wait semaphore;;
    guard_add q
      (free (Some new);;
       sem_post semaphore;;
       Ret 0)
      (link_last q new;;
       incr_int (q ⟶ count);;
       incr_long (q ⟶ add_count);;
       sem_post semaphore;;
       Ret 1)).

(** [queue_get(q, &val)]: the return code and [val] afterwards. *)
Definition queue_get (q : loc) (v : Z) : prog (Z * Z) :=
  sem_wait semaphore;;
  guard_get q
    (sem_post semaphore;;
     Ret (0, v))
    (tmp ← load_ptr (q ⟶ first);
     advance_first q;;
     decr_int (q ⟶ count);;
     incr_long (q ⟶ get_count);;
     sem_post semaphore;;
     t ← deref tmp;
     v' ← load_int (t ⟶ val);
     free tmp;;
     Ret (1, v')).

(** ** [queue-thread-semafor.c] *)

(** This file's own copy of the function. *)
Definition set_cpu (n : Z) : prog unit := QueueCommon.set_cpu n.

Definition reader (q : loc) : prog unit :=
  print_ids "reader [%d %d %d]";;
  set_cpu 1;;
  reader_loop queue_get q.

Definition writer (q : loc) : prog unit :=
  print_ids "writer [%d %d %d]";;
  set_cpu 2;;
  writer_loop queue_add q.

Definition free_resources (q : loc) : prog unit :=
  destroy_sem;;
  queue_destroy q.

Definition main : prog Z :=
  queue_main queue_init init_sem writer reader free_resources 1000000.

(** The process image before [main]: the [sem_t] is not a semaphore until
    [sem_init] has been called. *)
Definition init_state (slots : nat) : cstate :=
  CState {[ thread_slots := VSem slots; semaphore := VUndef; stop_flag := VInt 0 ]}
    1 ∅ [] None.

(** Main has run alone until [sem_init] has succeeded. *)
Definition initialised (slots : nat) : cfg :=
  run_sched (replicate 19 (0, 0)%nat) ([process main], init_state slots).

(** ** Verification *)

Section proof.
Context `{!cGS Σ, !ghost_varG Σ nat} (Hgood : c_good = no_error 1000000).

#[local] Abbreviation is_sem := (is_lock (VSem 1) (VSem 0) semaphore).

Definition is_queue (q : loc) (γr γw : gname) : iProp Σ :=
  locked_queue (VSem 1) (VSem 0) semaphore q 1000000 γr γw.

#[local] Instance sem_queue_spec q γr γw :
  QueueSpec queue_add queue_get q (is_queue q γr γw) (progress γw) (progress γr).
Proof using Hgood.
  split; [apply _|intros n|intros n v0]; iIntros "#[Hlk Hsh] Hp".
  - iApply (cwp_locked_add with "Hlk Hsh Hp"); [done..|].
    iIntros (new v) "Hl Hq Hn". by iApply (cwp_full_free_release with "Hlk Hl Hq Hn").
  - by iApply (cwp_locked_get with "Hlk Hsh Hp").
Qed.

Lemma sem_qmonitor_spec q max R Φ :
  is_sem R -∗ queue_shared q max 1000000 -∗ stop_flag ↦□ VInt 0 -∗ cwp (qmonitor q) Φ.
Proof using Hgood.
  iIntros "#Hlk #Hsh #Hstop". c_bind. iApply cwp_print_ids; [done..|]. iNext.
  iApply (cwp_monitor_loop with "Hstop"). iIntros "!> %Ψ HΨ".
  c_bind. iApply (cwp_lock with "Hlk"). iNext. iIntros "Hl HR".
  c_bind. iApply (cwp_print_stats with "Hsh"); [done|]. iNext.
  by iApply (cwp_unlock with "Hlk Hl HR").
Qed.

(** For the proof the semaphore is one that main holds from the start and
    gives back where [init_sem] has made it: from there on the two programs
    are the same. *)
#[local] Definition init_held : prog unit :=
  err ← init_cell semaphore (VSem 1);
  report "main: sem_init() failed: %s" err.

Lemma init_held_spec R Φ :
  is_sem R -∗ locked (VSem 0) semaphore -∗ R -∗ ▷ Φ tt -∗ cwp init_held Φ.
Proof using Hgood.
  iIntros "#Hlk Hl HR HΦ". c_bind. iApply (cwp_init_lock with "Hlk Hl HR"); [done|]. iNext.
  iIntros (e). by iApply cwp_report.
Qed.


Lemma sem_main_spec n Φ :
  thread_slots ↦ VSem (3 + n) -∗ semaphore ↦ VSem 0 -∗ stop_flag ↦ VInt 0 -∗ cwp (queue_main queue_init init_held writer reader free_resources 1000000) Φ.
Proof using All.
  iIntros "Hn Hm Hs". iMod (pt_persist with "Hs") as "#Hs".
  iApply (cwp_queue_main _ _ _ _ _ _ _ _ _
    (λ q, ∃ γr γw, is_queue q γr γw ∗ locked (VSem 0) semaphore ∗
                   queue_inv q 1000000 γr γw ∗ progress γr 0 ∗ progress γw 0)%I
    with "Hn [Hm]"); [done..| |].
  { iIntros (q) "#Hsh Hq". iMod (queue_res_new with "Hq") as (γr γw) "(Hq & Hr & Hw)".
    iPoseProof (queue_res_inv with "Hq") as "Hq".
    iMod (is_lock_alloc_held (VSem 1) _ _ (queue_inv q 1000000 γr γw) with "Hm") as "[#Hlk Hl]".
    iModIntro. iSplitR; [by iApply (sem_qmonitor_spec with "Hlk Hsh")|].
    iExists γr, γw. by iFrame "#∗". }
  iIntros (q) "(%γr & %γw & #Hiq & Hl & Hq & Hr & Hw)". iPoseProof "Hiq" as "[Hlk _]".
  iApply (init_held_spec with "Hlk Hl Hq"). iNext. iModIntro. iSplitL "Hw".
  - by iApply (cwp_writer_thread with "Hiq Hw").
  - by iApply (cwp_reader_thread with "Hiq Hr").
Qed.

End proof.

#[local] Definition held_state (slots : nat) : cstate :=
  CState {[ thread_slots := VSem slots; semaphore := VSem 0; stop_flag := VInt 0 ]}
    1 ∅ [] None.

Lemma sem_held_reaches n :
  rtc cstep ([process (queue_main queue_init init_held writer reader free_resources 1000000)],
             held_state (S n)) (initialised (S n)).
Proof.
  replace (initialised (S n)) with
    (run_sched (replicate 18 (0, 0)%nat)
       ([process (queue_main queue_init init_held writer reader free_resources 1000000)],
        held_state (S n))); [apply run_sched_reachable|reflexivity].
Qed.

(** C26. Main starts the monitor before it has initialised the semaphore, and
    if the monitor is quick it waits on something that is not a semaphore.
    But once main has got through [init_sem] first, no interleaving of main,
    writer, reader and monitor performs, with room for the three threads, an
    undefined operation, loses or reorders a value, or fails an assertion. *)
Theorem sem_queue_safe n :
  reaches_fault ([process main], init_state (3 + n)) 1
    (λ _ f, bool_decide (f = FaultSemWait semaphore)) ∧
  mem (initialised (3 + n)).2 !! semaphore = Some (VSem 1) ∧
  ∀ ps σ, rtc cstep (initialised (3 + n)) (ps, σ) →
    Forall (λ p, ¬ faulting σ p) ps ∧ Forall (no_error 1000000) (out σ).
Proof.
  split; [|split; [reflexivity|]].
  { apply (reaches_fault_by (replicate 16 (0, 0)%nat ++ replicate 30 (1, 0)%nat)). vm_compute. reflexivity. }
  intros ps σ Hr.
  generalize (transitivity (sem_held_reaches (2 + n)) Hr). clear Hr.
  apply (pool_safe #[cΣ; ghost_varΣ nat] (no_error 1000000)); [solve_globals|done|].
  intros HC Hgood. simpl. rewrite !big_sepM_insert // big_sepM_empty.
  iIntros "(Hn & Hm & Hs & _) !>". iSplit; [|done]. c_bind.
  by iApply (sem_main_spec Hgood with "Hn Hm Hs").
Qed.

(** A run of 800 turns, the four threads in rotation. *)
Lemma sem_queue_safe_witness :
  let ρ := run_sched (flat_map (λ i, [(0, 0); (1, 0); (2, i); (3, 0)]%nat) (seq 0 200)) (initialised 3) in
  Forall (λ p, ¬ faulting ρ.2 p) ρ.1 ∧ Forall (no_error 1000000) (out ρ.2).
Proof. apply (sem_queue_safe 0). apply run_sched_reaches. Defined.
