(* ===== verification/QueueShared.v ===== *)
(** * QueueShared: the queue shared with a cloned process

    [semestr2/Task2/Task2_2/semafor]: [shared-proc-semafore.c] and
    [shared-proc-starter.c].  The writer runs in a process made by [clone]
    with [CLONE_VM], so both sides work on the same memory.  [semaphore] is a
    pointer that nothing sets: as committed the program passes a null pointer
    to [sem_init], and the theorem says so. *)
From S2P Require Import Prelude Machine Logic Pthread QueueCommon.
#[local] Open Scope Z_scope.

(** ** [shared-proc-semafore.c] *)

Definition semaphore : loc := (0%nat, 0).
Definition stop_flag : loc := (0%nat, 1).

(** [f(semaphore)] for a call that takes a [sem_t] pointer. *)
Definition with_sem {A : Type} (f : loc → prog A) : prog A :=
  p ← load_ptr semaphore; s ← deref p; f s.

Definition queue_print_stats (q : loc) : prog unit := print_stats_line q.

Definition qmonitor (q : loc) : prog unit :=
  print_ids "qmonitor: [%d %d %d]";;
  monitor_loop stop_flag queue_print_stats q.

Definition init_sem : prog unit :=
  err ← with_sem (λ s, sem_init s 1);
  if decide (err ≠ 0) then print (EvErr "sem_init") else Ret tt.

Definition queue_init (max : Z) : prog loc :=
  queue_init_with qmonitor (λ q err,
    free (Some q);;
    print (EvOut "queue_init: pthread_create() failed: %s" [err]);;
    abort) max.

Definition queue_destroy (q : loc) : prog unit :=
  stop_monitor stop_flag q;;
  free_nodes q.

(** [sem_close] reports an error for a semaphore that is not a named one, and
    [sem_unlink] for a name that does not exist; both results are ignored. *)
Definition destroy_sem : prog unit := with_sem (λ s, load s;; Ret tt).

Definition queue_add (q : loc) (v : Z) : prog Z :=
  with_new_node v (λ new,
    with_sem sem_wait;;
    guard_add q
      (free (Some new);;
       with_sem sem_post;;
       Ret 0)
      (link_last q new;;
       incr_int (q ⟶ count);;
       incr_long (q ⟶ add_count);;
       with_sem sem_post;;
       Ret 1)).

(** [queue_get(q, &val)]: the return code and [val] afterwards. *)
Definition queue_get (q : loc) (v : Z) : prog (Z * Z) :=
  with_sem sem_wait;;
  guard_get q
    (with_sem sem_post;;
     Ret (0, v))
    (tmp ← load_ptr (q ⟶ first);
     t ← deref tmp;
     v' ← load_int (t ⟶ val);
     advance_first q;;
     free tmp;;
     decr_int (q ⟶ count);;
     incr_long (q ⟶ get_count);;
     with_sem sem_post;;
     Ret (1, v')).

(** ** [shared-proc-starter.c] *)

(** This file's message spells CPU in capitals. *)
Definition set_cpu (n : Z) : prog unit :=
  err ← env_choice;
  match err with
  | S _ => print (EvOut "set_cpu: pthread_setaffinity failed for CPU %d" [n])
  | O => print (EvOut "set_cpu: set CPU %d" [n])
  end.

Definition reader (q : loc) : prog unit :=
  print_ids "reader [%d %d %d]";;
  set_cpu 1;;
  reader_loop queue_get q.

Definition writer (q : loc) : prog unit :=
  print_ids "writer [%d %d %d]";;
  set_cpu 2;;
  writer_loop queue_add q.

Definition free_resources (q : loc) : prog unit :=
  destroy_sem;;
  queue_destroy q.

(** [clone(fn, stack, CLONE_VM | ..., arg)]: -1, or the child's id.  The child
    shares the memory, so it is one more thread of the machine. *)
Definition clone (child : prog unit) : prog Z :=
  '(err, _) ← pthread_create child;
  if decide (err = 0) then n ← env_choice; Ret (Z.of_nat (S n)) else Ret (-1).

(** The child's stack is a block nobody looks into. *)
Definition stack_block : list cval := [VUndef].

Definition main : prog Z :=
  print_ids "main [%d %d %d]";;
  init_sem;;
  q ← queue_init 1000000;
  stack ← malloc stack_block;
  match stack with
  | None => print (EvErr "malloc");; Exit EXIT_FAILURE
  | Some _ =>
      child_pid ← clone (writer q);
      if decide (child_pid = -1) then print (EvErr "clone");; Exit EXIT_FAILURE
      else
        reader q;;
        free_resources q;;
        free stack;;
        Ret EXIT_SUCCESS
  end.

(** The process image before [main]: the pointer [semaphore] is null. *)
Definition init_state (slots : nat) : cstate :=
  CState {[ thread_slots := VSem slots; semaphore := VPtr None; stop_flag := VInt 0 ]}
    1 ∅ [] None.

(** ** What the program does *)

(** C27. Nothing sets the pointer [semaphore], so [main] gets no further than
    [init_sem]: whatever the environment answers, after its first line and
    before any queue, monitor or child exists, it follows a null pointer. *)
Theorem shared_queue_null_semaphore slots (c1 c2 c3 c4 c5 : nat) :
  ∃ p σ,
    run_sched [(0, c1); (0, c2); (0, c3); (0, c4); (0, c5)]%nat
      ([process main], init_state slots) = ([p], σ) ∧
    fault_of σ p = Some (FaultUB "null pointer") ∧
    mem σ = mem (init_state slots) ∧
    out σ = [EvOut "main [%d %d %d]" [Z.of_nat c1; Z.of_nat c2; Z.of_nat c3]].
Proof. do 2 eexists. split; [reflexivity|]. by repeat split. Qed.
