(* ===== verification/QueueCond.v ===== *)
(** * QueueCond: the queue with a condition variable

    [semestr2/Task2/Task2_2/cond-var]: [queue-condvar.c] and
    [queue-thread-condvar.c].  [shared_data] says whose turn it is, so the
    writer and the reader alternate and the queue, created for 1000 values,
    never holds more than one: that bound is part of the theorem. *)
From iris.proofmode Require Import proofmode.
From S2P Require Import Prelude Machine Logic Pthread QueueCommon.
#[local] Open Scope Z_scope.

(** ** [queue-condvar.c] *)

(** [enum EVENT] *)
Definition OK : Z := 0.
Definition NOK : Z := 1.

Definition mutex : loc := (0%nat, 0).
Definition cond : loc := (0%nat, 1).
Definition shared_data : loc := (0%nat, 2).
Definition stop_flag : loc := (0%nat, 3).

Definition queue_print_stats (q : loc) : prog unit := print_stats_line q.

Definition qmonitor (q : loc) : prog unit :=
  print_ids "qmonitor: [%d %d %d]";;
  monitor_loop stop_flag queue_print_stats q.

Definition init_mutex : prog unit :=
  err ← pthread_mutex_init mutex;
  report "main: pthread_mutex_init() failed: %s" err;;
  err ← pthread_cond_init cond;
  report "main: pthread_cond_init() failed: %s" err.

Definition queue_init (max : Z) : prog loc :=
  queue_init_with qmonitor (λ q err,
    free (Some q);;
    print (EvOut "queue_init: pthread_create() failed: %s" [err]);;
    abort) max.

Definition queue_destroy (q : loc) : prog unit :=
  stop_monitor stop_flag q;;
  free_nodes q.

Definition destroy_mutex : prog unit :=
  err ← pthread_mutex_destroy mutex;
  if decide (err = 0) then Ret tt else print (EvErr "pthread_spin_destroy: failed").

(** [while (test) pthread_cond_wait(&cond, &mutex);] *)
Definition wait_while (test : prog bool) : prog unit :=
  Loop (λ _ : unit,
    b ← test;
    if b : bool then pthread_cond_wait cond mutex;; Ret (inl tt) else Ret (inr tt)) tt Ret.

(** [q->count == q->max_count || shared_data == NOK] *)
Definition writer_waits (q : loc) : prog bool :=
  c ← load_int (q ⟶ count); m ← load_int (q ⟶ max_count);
  if decide (c = m) then Ret true
  else d ← load_int shared_data; Ret (bool_decide (d = NOK)).

(** [q->count == 0 || shared_data == OK] *)
Definition reader_waits (q : loc) : prog bool :=
  c ← load_int (q ⟶ count);
  if decide (c = 0) then Ret true
  else d ← load_int shared_data; Ret (bool_decide (d = OK)).

Definition queue_add (q : loc) (v : Z) : prog Z :=
  pthread_mutex_lock mutex;;
  wait_while (writer_waits q);;
  with_new_node v (λ new,
    link_last q new;;
    incr_int (q ⟶ count);;
    incr_long (q ⟶ add_count);;
    store shared_data (VInt NOK);;
    pthread_cond_signal cond;;
    pthread_mutex_unlock mutex;;
    Ret 1).

(** [queue_get(q, &val)]: the return code and [val] afterwards. *)
Definition queue_get (q : loc) (v : Z) : prog (Z * Z) :=
  pthread_mutex_lock mutex;;
  wait_while (reader_waits q);;
  tmp ← load_ptr (q ⟶ first);
  t ← deref tmp;
  v' ← load_int (t ⟶ val);
  advance_first q;;
  decr_int (q ⟶ count);;
  incr_long (q ⟶ get_count);;
  store shared_data (VInt OK);;
  pthread_cond_signal cond;;
  pthread_mutex_unlock mutex;;
  free tmp;;
  Ret (1, v').

(** ** [queue-thread-condvar.c] *)

(** This file's own copy of the function. *)
Definition set_cpu (n : Z) : prog unit := QueueCommon.set_cpu n.

Definition reader (q : loc) : prog unit :=
  print_ids "reader [%d %d %d]";;
  set_cpu 1;;
  reader_loop queue_get q.

Definition writer (q : loc) : prog unit :=
  print_ids "writer [%d %d %d]";;
  set_cpu 3;;
  writer_loop queue_add q.

Definition free_resources (q : loc) : prog unit :=
  destroy_mutex;;
  queue_destroy q.

Definition main : prog Z :=
  queue_main queue_init init_mutex writer reader free_resources 1000.

(** The process image before [main]: static objects are zero. *)
Definition init_state (slots : nat) : cstate :=
  CState {[ thread_slots := VSem slots; mutex := VLock MutexLock false; cond := VCond 0 0;
            shared_data := VInt OK; stop_flag := VInt 0 ]}
    1 ∅ [] None.

(** ** Verification *)

Section proof.
Context `{!cGS Σ, !ghost_varG Σ nat, !condG Σ} (Hgood : c_good = no_error 1).

#[local] Abbreviation is_mutex := (is_lock (VLock MutexLock false) (VLock MutexLock true) mutex).
#[local] Abbreviation held := (locked (VLock MutexLock true) mutex).

(** Whose turn it is: the writer's exactly when the queue is empty. *)
Definition turn (n : nat) : cval := VInt (match n with O => OK | S _ => NOK end).
Definition turn_res (q : loc) (γr γw : gname) (r n : nat) : iProp Σ :=
  queue_res q 1 γr γw r n ∗ shared_data ↦ turn n.
Definition turn_inv (q : loc) (γr γw : gname) : iProp Σ := ∃ r n, turn_res q γr γw r n.

Definition is_queue (γc : gname) (q : loc) (γr γw : gname) : iProp Σ :=
  is_mutex (turn_inv q γr γw) ∗ is_cond γc cond ∗ queue_shared q 1000 1.

(** The two loop conditions, under the lock. *)
Lemma writer_waits_spec q γr γw r n Φ :
  queue_shared q 1000 1 -∗ turn_res q γr γw r n -∗
  ▷ (∀ b : bool, ⌜b = false → n = 0%nat⌝ -∗ turn_res q γr γw r n -∗ Φ b) -∗
  cwp (writer_waits q) Φ.
Proof.
  iIntros "#Hsh [Hq Hd] HΦ".
  iDestruct (queue_res_bound with "Hq") as %Hn.
  c_bind. iApply (cwp_res_count with "Hq"). iNext. iIntros "Hq".
  c_bind. iApply (cwp_read_max with "Hsh"). iNext. c_simp. case_decide; [lia|].
  c_load "Hd". c_ret. iApply ("HΦ" with "[]"); [|iFrame].
  iPureIntro. destruct n; [done|]. by rewrite bool_decide_true.
Qed.

Lemma reader_waits_spec q γr γw r n Φ :
  turn_res q γr γw r n -∗
  ▷ (∀ b : bool, ⌜b = false → ∃ n', n = S n'⌝ -∗ turn_res q γr γw r n -∗ Φ b) -∗
  cwp (reader_waits q) Φ.
Proof.
  iIntros "[Hq Hd] HΦ".
  iDestruct (queue_res_bound with "Hq") as %Hn.
  c_bind. iApply (cwp_res_count with "Hq"). iNext. iIntros "Hq". c_simp. case_decide.
  { c_ret. iApply ("HΦ" with "[]"); [done|]. iFrame. }
  c_load "Hd". c_ret. iApply ("HΦ" with "[]"); [|iFrame].
  iPureIntro. destruct n; [done|by eauto].
Qed.

(** The waiting loop, for any test that reads what the lock protects. *)
Lemma wait_while_spec γc q γr γw test (ready : nat → Prop) Φ :
  is_queue γc q γr γw -∗
  □ (∀ r n Ψ, turn_res q γr γw r n -∗
       ▷ (∀ b : bool, ⌜b = false → ready n⌝ -∗ turn_res q γr γw r n -∗ Ψ b) -∗
       cwp test Ψ) -∗
  held -∗ turn_inv q γr γw -∗
  (∀ r n, ⌜ready n⌝ -∗ held -∗ turn_res q γr γw r n -∗ Φ tt) -∗
  cwp (wait_while test) Φ.
Proof.
  iIntros "#(Hlk & Hc & _) #Htest Hl HR HΦ".
  iApply (cwp_loop _ _ (λ _, held ∗ turn_inv q γr γw ∗
            (∀ r n, ⌜ready n⌝ -∗ held -∗ turn_res q γr γw r n -∗ Φ tt))%I with "[$Hl $HR $HΦ]").
  iIntros "!> %x (Hl & (%r & %n & HR) & HΦ)". c_bind.
  iApply ("Htest" with "HR"). iNext. iIntros ([] Hb) "HR".
  - c_bind. iApply (cwp_cond_wait with "Hc Hlk Hl [HR]"); [by iExists r, n|].
    iNext. iIntros "Hl HR". c_ret. iFrame.
  - c_ret. iApply ("HΦ" with "[] Hl HR"). auto.
Qed.

Lemma queue_add_spec γc q γr γw n :
  is_queue γc q γr γw -∗ progress γw n -∗
  cwp (queue_add q (wrap32 (Z.of_nat n))) (λ ok, ⌜ok = 1⌝ ∗ progress γw (S n)).
Proof using Hgood.
  iIntros "#Hiq Hp". iPoseProof "Hiq" as "(Hlk & Hc & Hsh)".
  c_bind. iApply (cwp_lock with "Hlk"). iNext. iIntros "Hl HR".
  c_bind. iApply (wait_while_spec with "Hiq [] Hl HR").
  { iIntros "!> %r %m %Ψ HR HΨ". iApply (writer_waits_spec with "Hsh HR HΨ"). }
  iIntros (r m ->) "Hl [Hq Hd]".
  iApply cwp_with_new_node; [done|]. iNext. iIntros (new) "Hnew".
  iDestruct (queue_res_writer with "Hq Hp") as %->.
  iApply (cwp_res_enqueue with "Hsh Hq Hp Hnew"); [done..|]. iNext. iIntros "Hq Hp".
  c_store "Hd". c_bind. iApply (cwp_cond_signal with "Hc"). iNext.
  c_bind. iApply (cwp_unlock with "Hlk Hl [Hq Hd]"); [done|iExists r, 1%nat; iFrame|].
  iNext. c_ret. by iFrame.
Qed.

Lemma queue_get_spec γc q γr γw n v0 :
  is_queue γc q γr γw -∗ progress γr n -∗
  cwp (queue_get q v0) (λ r, ⌜r = (1, wrap32 (Z.of_nat n))⌝ ∗ progress γr (S n)).
Proof.
  iIntros "#Hiq Hp". iPoseProof "Hiq" as "(Hlk & Hc & Hsh)".
  c_bind. iApply (cwp_lock with "Hlk"). iNext. iIntros "Hl HR".
  c_bind. iApply (wait_while_spec with "Hiq [] Hl HR").
  { iIntros "!> %r %m %Ψ HR HΨ". iApply (reader_waits_spec with "HR HΨ"). }
  iIntros (r m [m' ->]) "Hl [Hq Hd]".
  iDestruct (queue_res_reader with "Hq Hp") as %->.
  iDestruct (queue_res_bound with "Hq") as %Hm. assert (m' = 0%nat) as -> by lia.
  c_bind. iApply (cwp_res_head with "Hq"). iNext. iIntros (l nx) "Hn Hf Hq".
  c_bind. c_ret. c_bind. iApply (cwp_node_val with "Hn"). iNext. iIntros "Hn".
  c_bind. iApply (cwp_advance_first with "Hf Hn"). iNext. iIntros "Hf Hn".
  iApply (cwp_res_dequeue with "Hsh (Hq Hf) Hp"); [done|]. iNext. iIntros "Hq Hp".
  c_store "Hd". c_bind. iApply (cwp_cond_signal with "Hc"). iNext.
  c_bind. iApply (cwp_unlock with "Hlk Hl [Hq Hd]"); [done|iExists (S r), 0%nat; iFrame|].
  iNext. c_bind. iApply (cwp_free with "Hn"). iNext. c_ret. by iFrame.
Qed.

#[local] Instance cond_queue_spec γc q γr γw :
  QueueSpec queue_add queue_get q (is_queue γc q γr γw) (progress γw) (progress γr).
Proof using Hgood.
  split; [apply _|intros n|intros n v0]; iIntros "#Hiq Hp".
  - iPoseProof (queue_add_spec with "Hiq Hp") as "H". iApply (cwp_mono with "[] H"). iIntros (ok) "H". by iRight.
  - iPoseProof (queue_get_spec with "Hiq Hp") as "H". iApply (cwp_mono with "[] H"). iIntros (ok) "H". by iRight.
Qed.

Lemma cond_qmonitor_spec q Φ :
  queue_shared q 1000 1 -∗ stop_flag ↦□ VInt 0 -∗ cwp (qmonitor q) Φ.
Proof using Hgood.
  iIntros "#Hsh #Hstop". c_bind. iApply cwp_print_ids; [done..|]. iNext.
  iApply (cwp_monitor_loop with "Hstop"). iIntros "!> %Ψ HΨ".
  by iApply (cwp_print_stats with "Hsh").
Qed.

(** An initialisation that fails leaves the static, still valid, object. *)
Lemma cond_init_mutex_spec Φ :
  mutex ↦ VLock MutexLock false -∗ cond ↦ VCond 0 0 -∗
  ▷ (mutex ↦ VLock MutexLock false -∗ cond ↦ VCond 0 0 -∗ Φ tt) -∗
  cwp init_mutex Φ.
Proof using Hgood.
  iIntros "Hm Hc HΦ". c_bind.
  iApply (cwp_mono _ (λ _, mutex ↦ VLock MutexLock false)%I with "[Hc HΦ]").
  - iIntros (e) "Hm". c_bind. iApply cwp_report; [done..|]. c_bind.
    iApply (cwp_init_cell with "Hc"). iNext.
    iSplit; [iIntros (e' _) "Hc"|iIntros "Hc"]; (iApply cwp_report; [done..|];
      by iApply ("HΦ" with "Hm")).
  - iApply (cwp_init_cell with "Hm"). iNext. iSplit; auto.
Qed.

Lemma cond_main_spec n Φ :
  thread_slots ↦ VSem (3 + n) -∗ mutex ↦ VLock MutexLock false -∗ cond ↦ VCond 0 0 -∗
  shared_data ↦ VInt OK -∗ stop_flag ↦ VInt 0 -∗ cwp main Φ.
Proof using All.
  iIntros "Hn Hm Hc Hd Hs". iMod (pt_persist with "Hs") as "#Hs".
  iApply (cwp_queue_main _ _ _ _ _ _ _ _ _
    (λ q, queue_shared q 1000 1 ∗ queue_at q 1 (fifo_new 1000))%I with "Hn"); [done..| |].
  { iIntros (q) "#Hsh $ !>". iFrame "Hsh". by iApply cond_qmonitor_spec. }
  iIntros (q) "[#Hsh Hq]". iMod (queue_res_new with "Hq") as (γr γw) "(Hq & Hr & Hw)".
  iApply (cond_init_mutex_spec with "Hm Hc"). iNext. iIntros "Hm Hc".
  iMod (is_cond_alloc with "Hc") as (γc) "#Hc".
  iMod (is_lock_alloc _ (VLock MutexLock true) _ (turn_inv q γr γw) with "Hm [Hq Hd]") as "#Hlk".
  { iExists 0%nat, 0%nat. iFrame. }
  iAssert (is_queue γc q γr γw) as "#Hiq"; [by iFrame "#"|]. iModIntro. iSplitL "Hw".
  - by iApply (cwp_writer_thread with "Hiq Hw").
  - by iApply (cwp_reader_thread with "Hiq Hr").
Qed.

End proof.

(** C12. Starting from [main], with room for the three threads it creates, no
    interleaving (spurious wake-ups included) performs an undefined
    operation; the reader gets exactly 0, 1, 2, ...; and every size the
    monitor prints is 0 or 1. *)
Theorem cond_queue_safe n ps σ :
  rtc cstep ([process main], init_state (3 + n)) (ps, σ) →
  Forall (λ p, ¬ faulting σ p) ps ∧ Forall (no_error 1) (out σ).
Proof.
  apply (pool_safe #[cΣ; ghost_varΣ nat; condΣ] (no_error 1));
    [solve_globals|done|].
  intros HC Hgood. simpl. rewrite !big_sepM_insert // big_sepM_empty.
  iIntros "(Hn & Hm & Hc & Hd & Hs & _) !>". iSplit; [|done]. c_bind.
  by iApply (cond_main_spec Hgood with "Hn Hm Hc Hd Hs").
Qed.

(** When the reader cannot be created, [main] destroys the mutex and frees
    the nodes while the writer is still using them. *)
Theorem cond_queue_no_reader_faults : can_fault ([process main], init_state 2).
Proof.
  apply (faults_after_sound (replicate 60 (0, 0)%nat ++ replicate 50 (2, 0)%nat)).
  vm_compute. reflexivity.
Qed.

(** A run of 800 turns, the four threads in rotation, with spurious wake-ups. *)
Lemma cond_queue_safe_witness :
  let ρ := run_sched (flat_map (λ i, [(0, 0); (1, 0); (2, i); (3, 0)]%nat) (seq 0 200)) ([process main], init_state 3) in
  Forall (λ p, ¬ faulting ρ.2 p) ρ.1 ∧ Forall (no_error 1) (out ρ.2).
Proof. apply (cond_queue_safe 0). apply run_sched_reaches. Defined.
