(* ===== verification/Counter.v ===== *)
(** * Counter: home-made locks around a shared counter

    [semestr2/Task2/Task2_4]: [spinlock.c] builds a spin lock from a
    compare-and-swap, [mutex.c] a mutex from a compare-and-swap and the
    [futex] system call.  Both programs let two threads increment one counter
    and print it at the end; the theorems say that the printed number is
    exact.  The client is proved once, against the interface [CasLock]; each
    module discharges it for its lock. *)
From iris.proofmode Require Import proofmode.
From iris.base_logic.lib Require Import ghost_var.
From S2P Require Import Prelude Machine Logic Pthread QueueCommon.
#[local] Open Scope Z_scope.

(** ** Statements the two programs share *)

(** The two statuses are swapped with respect to what one expects. *)
Definition STATUS_LOCK : Z := 0.
Definition STATUS_UNLOCK : Z := 1.

Definition counter : loc := (0%nat, 0).
(** The lock is a local variable of [main]. *)
Definition lock_var : loc := (0%nat, 1).

Definition compare_exchange (l : loc) (expected desired : Z) : prog bool :=
  Act (OCas l expected desired) Ret.

Definition print_counter (z : Z) : prog unit := print (EvOut "counter %d" [z]).

(** [thread_1] and [thread_2]: [note] is what they print inside the critical
    section. *)
Definition thread_body (lock unlock : loc → prog unit) (cpu : Z) (note : Z → prog unit)
    (iterations : Z) (l : loc) : prog unit :=
  set_cpu cpu;;
  Loop (λ i : Z,
    if decide (i < iterations) then
      lock l;;
      incr_int counter;;
      note i;;
      unlock l;;
      Ret (inl (i +i 1))
    else Ret (inr tt)) 0 Ret.

Definition main_body (init : loc → prog unit) (thread_1 thread_2 : loc → prog unit) : prog Z :=
  init lock_var;;
  '(err, tid_1) ← pthread_create (thread_1 lock_var);
  if decide (err ≠ 0) then
    print (EvOut "main: pthread_create(): thread_1 failed: %s" [err]);; Ret EXIT_FAILURE
  else
    '(err, tid_2) ← pthread_create (thread_2 lock_var);
    if decide (err ≠ 0) then
      print (EvOut "main: pthread_create(): thread_2 failed: %s" [err]);;
      join_thread tid_1;;
      Ret EXIT_FAILURE
    else
      err_2 ← join_thread tid_1;
      err_1 ← join_thread tid_2;
      z ← load_int counter;
      print_counter z;;
      Ret (if decide (err_1 ≠ 0 ∨ err_2 ≠ 0) then EXIT_FAILURE else EXIT_SUCCESS).

(** The process image before [main]: [counter] is static, the lock is not
    initialised. *)
Definition init_state (slots : nat) : cstate :=
  CState {[ thread_slots := VSem slots; counter := VInt 0; lock_var := VUndef ]} 1 ∅ [] None.

(** ** [spinlock.c] *)

Module Spin.

Definition COUNT_ITERATION : Z := 100000.

Definition spinlock_init (s : loc) : prog unit := store s (VInt STATUS_UNLOCK).

Definition spinlock_lock (s : loc) : prog unit :=
  Loop (λ _ : unit,
    ok ← compare_exchange s STATUS_UNLOCK STATUS_LOCK;
    Ret (if ok : bool then inr tt else inl tt)) tt Ret.

Definition spinlock_unlock (s : loc) : prog unit :=
  compare_exchange s STATUS_LOCK STATUS_UNLOCK;; Ret tt.

Definition thread_1 : loc → prog unit :=
  thread_body spinlock_lock spinlock_unlock 2 (λ _, Ret tt) COUNT_ITERATION.
Definition thread_2 : loc → prog unit :=
  thread_body spinlock_lock spinlock_unlock 1 (λ _, Ret tt) COUNT_ITERATION.

Definition main : prog Z := main_body spinlock_init thread_1 thread_2.

End Spin.

(** ** [mutex.c] *)

Module Futex.

Definition COUNT_ITERATION : Z := 1000000.

Definition mutex_init (m : loc) : prog unit := store m (VInt 1).

(** [futex(uaddr, FUTEX_WAIT, val)]: 0 after a wake-up, [EAGAIN] when the word
    is not [val]. *)
Definition futex_wait (uaddr : loc) (expected : Z) : prog Z :=
  slept ← Act (OFutexSleep uaddr expected) Ret;
  if slept : bool then until_op (OFutexResume uaddr);; Ret 0 else Ret EAGAIN.
Definition futex_wake (uaddr : loc) (n : nat) : prog Z := Act (OFutexWake uaddr n) Ret;; Ret 0.

Definition mutex_lock (m : loc) : prog unit :=
  Loop (λ _ : unit,
    ok ← compare_exchange m STATUS_UNLOCK STATUS_LOCK;
    if ok : bool then Ret (inr tt)
    else
      errno ← futex_wait m STATUS_LOCK;
      (if decide (errno ≠ 0 ∧ errno ≠ EAGAIN) then print (EvErr "futex FUTEX_WAIT failed")
       else Ret tt);;
      sched_yield;;
      Ret (inl tt)) tt Ret.

Definition mutex_unlock (m : loc) : prog unit :=
  ok ← compare_exchange m STATUS_LOCK STATUS_UNLOCK;
  if ok : bool then
    errno ← futex_wake m 1;
    if decide (errno ≠ 0 ∧ errno ≠ EAGAIN) then print (EvErr "futex FUTEX_WAKE failed")
    else Ret tt
  else Ret tt.

Definition thread_1 : loc → prog unit :=
  thread_body mutex_lock mutex_unlock 2
    (λ i, print (EvOut "thread_1: count iteration %d" [i])) COUNT_ITERATION.
Definition thread_2 : loc → prog unit :=
  thread_body mutex_lock mutex_unlock 1
    (λ i, print (EvOut "thread_2: count iteration %d" [i])) COUNT_ITERATION.

Definition main : prog Z := main_body mutex_init thread_1 thread_2.

End Futex.

(** A line with the counter shows [total], and no assertion fails. *)
Definition counter_exact (total : Z) (e : event) : Prop :=
  match e with
  | EvOut fmt args => fmt = "counter %d" → args = [total]
  | EvAssert _ => False
  | _ => True
  end.

(** ** Verification *)

Section lock.
Context `{!cGS Σ, !ghost_varG Σ unit}.

Definition clockN : namespace := nroot .@ "clock".

(** Who waits for or holds the lock owns a half of the key; the holder's half
    stays in the invariant.  Whoever owns both halves knows that nobody holds
    the lock. *)
Definition key (γ : gname) : iProp Σ := ghost_var γ (1/2) ().
Definition is_clock (γ : gname) (l : loc) (R : iProp Σ) : iProp Σ :=
  inv clockN (l ↦ VInt STATUS_UNLOCK ∗ R ∨ l ↦{#1/2} VInt STATUS_LOCK ∗ key γ).
Definition clocked (l : loc) : iProp Σ := l ↦{#1/2} VInt STATUS_LOCK.

(** What a lock owes to its clients. *)
Class CasLock (lock unlock : loc → prog unit) : Prop := {
  cl_lock γ l R Φ :
    is_clock γ l R -∗ key γ -∗ ▷ (clocked l -∗ R -∗ Φ tt) -∗ cwp (lock l) Φ;
  cl_unlock γ l R Φ :
    is_clock γ l R -∗ clocked l -∗ R -∗ ▷ (key γ -∗ Φ tt) -∗ cwp (unlock l) Φ;
}.

Lemma is_clock_alloc l R :
  l ↦ VInt STATUS_UNLOCK -∗ R ={⊤}=∗ ∃ γ, is_clock γ l R ∗ key γ ∗ key γ.
Proof.
  iIntros "Hl HR". iMod (ghost_var_alloc ()) as (γ) "[H1 H2]". iExists γ. iFrame.
  iApply inv_alloc. iNext. iLeft. iFrame.
Qed.

(** One attempt: it succeeds exactly when the lock is free. *)
Lemma cwp_cas_lock γ l R Φ :
  is_clock γ l R -∗ key γ -∗
  ▷ ((clocked l -∗ R -∗ Φ true) ∧ (key γ -∗ Φ false)) -∗
  cwp (compare_exchange l STATUS_UNLOCK STATUS_LOCK) Φ.
Proof.
  iIntros "#Hlk Hk HΦ". iApply (cwp_op_inv with "Hlk"). iIntros "[[>Hl HR]|[>Hl >Hk']]".
  - iApply (awp_cas_ok with "Hl"). iNext. iIntros "[Hl1 Hl2]".
    iSplitL "Hl1 Hk"; [iRight; iFrame|]. iDestruct "HΦ" as "[HΦ _]". iApply ("HΦ" with "Hl2 HR").
  - iApply (awp_cas_fail with "Hl"); [done|]. iNext. iIntros "Hl".
    iSplitL "Hl Hk'"; [iRight; iFrame|]. iDestruct "HΦ" as "[_ HΦ]". by iApply "HΦ".
Qed.

(** The holder's compare-and-swap succeeds. *)
Lemma cwp_cas_unlock γ l R Φ :
  is_clock γ l R -∗ clocked l -∗ R -∗ ▷ (key γ -∗ Φ true) -∗
  cwp (compare_exchange l STATUS_LOCK STATUS_UNLOCK) Φ.
Proof.
  iIntros "#Hlk Hl HR HΦ". iApply (cwp_op_inv with "Hlk"). iIntros "[[>Hl' _]|[>Hl' >Hk]]".
  - iDestruct (pt_agree with "Hl' Hl") as %?. done.
  - iDestruct (pt_halves with "Hl Hl'") as "[_ Hl]".
    iApply (awp_cas_ok with "Hl"). iNext. iIntros "Hl".
    iSplitL "Hl HR"; [iLeft; iFrame|]. by iApply "HΦ".
Qed.

(** Reading what the lock protects without taking it, once nobody uses it. *)
Lemma is_clock_idle γ l R (o : cop cval) Φ :
  is_clock γ l R -∗ key γ -∗ key γ -∗
  (▷ R -∗ awp o (⊤ ∖ ↑clockN) (λ x, ▷ R ∗ Φ x)) -∗ cwp (Act o Ret) Φ.
Proof.
  iIntros "#Hlk Hk1 Hk2 H". iApply (cwp_op_inv with "Hlk"). iIntros "[[>Hl HR]|[_ >Hk]]".
  - iPoseProof ("H" with "HR") as "H". iApply (awp_mono with "[Hl] H").
    iIntros (x) "[HR $]". iLeft. iFrame.
  - iCombine "Hk1 Hk2" as "Hk'". iDestruct (ghost_var_valid_2 with "Hk' Hk") as %[Hq _].
    done.
Qed.

#[global] Instance spin_cas_lock : CasLock Spin.spinlock_lock Spin.spinlock_unlock.
Proof.
  split; intros γ l R Φ.
  - iIntros "#Hlk Hk HΦ". iApply (cwp_loop _ _ (λ _, key γ ∗ ▷ (clocked l -∗ R -∗ Φ tt))%I
      with "[$Hk $HΦ]").
    iIntros "!> %x [Hk HΦ]". c_bind. iApply (cwp_cas_lock with "Hlk Hk"). iNext. iSplit.
    + iIntros "Hl HR". c_ret. iApply ("HΦ" with "Hl HR").
    + iIntros "Hk". c_ret. iFrame.
  - iIntros "#Hlk Hl HR HΦ". c_bind. iApply (cwp_cas_unlock with "Hlk Hl HR"). iNext.
    iIntros "Hk". c_ret. by iApply "HΦ".
Qed.

(** Whatever the kernel answers, waiting only delays the next attempt. *)
Lemma futex_wait_spec γ l R Φ :
  is_clock γ l R -∗ (∀ errno, ⌜errno = 0 ∨ errno = EAGAIN⌝ -∗ Φ errno) -∗
  cwp (Futex.futex_wait l STATUS_LOCK) Φ.
Proof.
  iIntros "#Hlk HΦ". c_bind.
  iApply (cwp_mono _ (λ _, True)%I with "[HΦ]"); [|iApply (cwp_op_inv with "Hlk")].
  - iIntros ([]) "_"; [|c_ret; iApply "HΦ"; by iRight].
    c_bind. iApply (cwp_until _ (∀ errno, ⌜errno = 0 ∨ errno = EAGAIN⌝ -∗ Φ errno)%I with "HΦ").
    iIntros "!> HΦ". iApply cwp_op. iApply awp_futex_resume. iNext. iIntros ([]); [|done].
    c_ret. iApply "HΦ". by iLeft.
  - iIntros "[[>Hl HR]|[>Hl >Hk]]"; iApply (awp_futex_sleep with "Hl"); iNext;
      iIntros (b) "Hl"; (iSplit; [|done]); [iLeft|iRight]; iFrame.
Qed.

#[global] Instance futex_cas_lock : CasLock Futex.mutex_lock Futex.mutex_unlock.
Proof.
  split; intros γ l R Φ.
  - iIntros "#Hlk Hk HΦ". iApply (cwp_loop _ _ (λ _, key γ ∗ ▷ (clocked l -∗ R -∗ Φ tt))%I
      with "[$Hk $HΦ]").
    iIntros "!> %x [Hk HΦ]". c_bind. iApply (cwp_cas_lock with "Hlk Hk"). iNext. iSplit.
    + iIntros "Hl HR". c_ret. iApply ("HΦ" with "Hl HR").
    + iIntros "Hk". c_bind. iApply (futex_wait_spec with "Hlk"). iIntros (e He). c_simp.
      case_decide as Hd; [exfalso; tauto|]. c_bind. c_ret. c_bind. c_ret. c_ret. iFrame.
  - iIntros "#Hlk Hl HR HΦ". c_bind. iApply (cwp_cas_unlock with "Hlk Hl HR"). iNext.
    iIntros "Hk". c_bind. c_bind. iApply cwp_op. iApply awp_futex_wake. iNext. c_ret. c_simp.
    case_decide as Hd; [by destruct Hd|]. c_ret. by iApply "HΦ".
Qed.

End lock.

Section client.
Context `{!cGS Σ, !ghost_varG Σ unit, !ghost_varG Σ nat}.
Context (total : Z) (Hgood : c_good = counter_exact total).

(** The counter is the sum of what the two threads have done. *)
Definition sum_inv (γ1 γ2 : gname) : iProp Σ :=
  ∃ n1 n2 : nat, counter ↦ VInt (Z.of_nat (n1 + n2)) ∗ progress γ1 n1 ∗ progress γ2 n2 ∗
    ⌜Z.of_nat n1 ≤ 2 ^ 30 - 1 ∧ Z.of_nat n2 ≤ 2 ^ 30 - 1⌝.

Lemma cwp_counter_set_cpu n Φ : ▷ Φ tt -∗ cwp (set_cpu n) Φ.
Proof using Hgood.
  iIntros "HΦ". c_bind. iApply cwp_env_choice. iNext. iIntros ([]);
    (iApply cwp_print; [by rewrite Hgood|done]).
Qed.

(** [++counter] by either thread. *)
Lemma sum_incr_1 γ1 γ2 n Φ :
  Z.of_nat n < 2 ^ 30 - 1 → sum_inv γ1 γ2 -∗ progress γ1 n -∗
  ▷ (sum_inv γ1 γ2 -∗ progress γ1 (S n) -∗ Φ tt) -∗ cwp (incr_int counter) Φ.
Proof.
  iIntros (Hn) "(%n1 & %n2 & Hc & H1 & H2 & %Hb) Hp HΦ".
  iDestruct (progress_agree with "Hp H1") as %->.
  iMod (progress_update _ _ (S n1) with "Hp H1") as "[Hp H1]".
  c_load "Hc". iApply (cwp_store with "Hc"). iNext. iIntros "Hc".
  iApply ("HΦ" with "[-Hp] Hp"). iExists (S n1), n2. iFrame.
  rewrite wrap32_id; [|cint_lia]. replace (Z.of_nat (S n1 + n2)) with (Z.of_nat (n1 + n2) + 1) by lia.
  iFrame. iPureIntro. lia.
Qed.

Lemma sum_inv_sym γ1 γ2 : sum_inv γ1 γ2 -∗ sum_inv γ2 γ1.
Proof.
  iIntros "(%n1 & %n2 & Hc & H1 & H2 & %Hb)". iExists n2, n1. rewrite Nat.add_comm. iFrame.
  iPureIntro. tauto.
Qed.

(** A thread function: it leaves its key and [m] increments. *)
Lemma thread_body_spec `{!CasLock acq rel} γ γ1 γ2 l cpu note m :
  Z.of_nat m ≤ 2 ^ 30 - 1 →
  (∀ i, ⊢ cwp (note i) (λ _, True)) →
  is_clock γ l (sum_inv γ1 γ2) -∗ key γ -∗ progress γ1 0 -∗
  cwp (thread_body acq rel cpu note (Z.of_nat m) l) (λ _, key γ ∗ progress γ1 m).
Proof using Hgood.
  iIntros (Hm Hnote) "#Hlk Hk Hp". c_bind. iApply cwp_counter_set_cpu. iNext.
  iApply (cwp_loop _ _ (λ i, ∃ n : nat, ⌜i = Z.of_nat n ∧ (n ≤ m)%nat⌝ ∗ key γ ∗ progress γ1 n)%I
    with "[Hk Hp]"). { iExists 0%nat. iFrame. iPureIntro. lia. }
  iIntros "!> %i (%n & [-> %Hle] & Hk & Hp)". c_simp. case_decide as Hd; last first.
  { c_ret. replace n with m by lia. iFrame. }
  c_bind. iApply (cl_lock with "Hlk Hk"). iNext. iIntros "Hl HR".
  c_bind. iApply (sum_incr_1 with "HR Hp"); [lia|]. iNext. iIntros "HR Hp".
  c_bind. iPoseProof (Hnote (Z.of_nat n)) as "Hn". iApply (cwp_mono with "[-Hn] Hn"). iIntros ([]) "_".
  c_bind. iApply (cl_unlock with "Hlk Hl HR"). iNext. iIntros "Hk". c_ret.
  iExists (S n). iFrame. iPureIntro. rewrite wrap32_id; [lia|cint_lia].
Qed.

Lemma cwp_join_thread t P Φ :
  join_handle t P -∗ ▷ (▷ P -∗ Φ 0) -∗ cwp (join_thread (Some t)) Φ.
Proof.
  iIntros "Hj HΦ". c_bind. iApply (cwp_pthread_join with "Hj"). iNext. iIntros "HP".
  c_bind. c_ret. c_ret. by iApply "HΦ".
Qed.

(** Once both threads are joined, the counter is the sum of their work. *)
Lemma read_total γ γ1 γ2 m Φ :
  is_clock γ lock_var (sum_inv γ1 γ2) -∗ key γ -∗ key γ -∗ progress γ1 m -∗ progress γ2 m -∗
  ▷ Φ (Z.of_nat (m + m)) -∗ cwp (load_int counter) Φ.
Proof.
  iIntros "#Hlk Hk1 Hk2 Hp1 Hp2 HΦ". c_bind. iApply (is_clock_idle with "Hlk Hk1 Hk2").
  iIntros "(%n1 & %n2 & >Hc & >H1 & >H2 & >%Hb)".
  iDestruct (progress_agree with "Hp1 H1") as %<-. iDestruct (progress_agree with "Hp2 H2") as %<-.
  iApply (awp_load with "Hc"). iNext. iIntros "Hc". iSplitR "HΦ".
  { iExists m, m. by iFrame. }
  by c_ret.
Qed.

Lemma main_body_spec `{!CasLock acq rel} init note1 note2 (m slots : nat) Φ :
  Z.of_nat m ≤ 2 ^ 30 - 1 → total = 2 * Z.of_nat m →
  init = (λ l, store l (VInt STATUS_UNLOCK)) →
  (∀ i, ⊢ cwp (note1 i) (λ _, True)) → (∀ i, ⊢ cwp (note2 i) (λ _, True)) →
  thread_slots ↦ VSem slots -∗ counter ↦ VInt 0 -∗ lock_var ↦ VUndef -∗ (∀ s, Φ s) -∗
  cwp (main_body init (thread_body acq rel 2 note1 (Z.of_nat m))
                      (thread_body acq rel 1 note2 (Z.of_nat m))) Φ.
Proof using All.
  iIntros (Hm Htot -> Hn1 Hn2) "Hn Hc Hl HΦ". c_store "Hl".
  iMod (ghost_var_alloc 0%nat) as (γ1) "[H1 Hp1]". iMod (ghost_var_alloc 0%nat) as (γ2) "[H2 Hp2]".
  iMod (is_clock_alloc _ (sum_inv γ1 γ2) with "Hl [Hc H1 H2]") as (γ) "(#Hlk & Hk1 & Hk2)".
  { iExists 0%nat, 0%nat. by iFrame. }
  iPoseProof (thread_body_spec _ _ _ _ 2 note1 m with "Hlk Hk1 Hp1") as "Ht1"; [done..|].
  iAssert (is_clock γ lock_var (sum_inv γ2 γ1)) as "#Hlk'".
  { iApply (inv_iff with "Hlk"). iIntros "!> !>".
    iSplit; (iIntros "[[Hl H]|H]"; [iLeft; iFrame "Hl"; by iApply sum_inv_sym|by iRight]). }
  iPoseProof (thread_body_spec _ _ _ _ 1 note2 m with "Hlk' Hk2 Hp2") as "Ht2"; [done..|].
  c_bind. iApply (cwp_pthread_create with "Hn Ht1"). iNext. destruct slots as [|slots].
  { iIntros "Hn". c_bind. iApply cwp_print; [by rewrite Hgood|]. iNext. c_ret. iApply "HΦ". }
  iIntros (t1) "Hn Hj1". c_bind. iApply (cwp_pthread_create with "Hn Ht2"). iNext.
  destruct slots as [|slots].
  { iIntros "Hn". c_bind. iApply cwp_print; [by rewrite Hgood|]. iNext.
    c_bind. iApply (cwp_join_thread with "Hj1"). iNext. iIntros "_". c_ret. iApply "HΦ". }
  iIntros (t2) "Hn Hj2". c_bind. iApply (cwp_join_thread with "Hj1"). iNext. iIntros "[>Hk1 >Hp1]".
  c_bind. iApply (cwp_join_thread with "Hj2"). iNext. iIntros "[>Hk2 >Hp2]".
  c_bind. iApply (read_total with "Hlk Hk1 Hk2 Hp1 Hp2"). iNext.
  c_bind. iApply cwp_print. { rewrite Hgood. intros _. f_equal. lia. }
  iNext. c_ret. iApply "HΦ".
Qed.

End client.

(** C20. In every interleaving, and whatever threads can be created, the spin-lock
    program does not go wrong and a printed counter is exactly twice the
    number of iterations: no increment is lost. *)
Theorem spin_counter_exact slots ps σ :
  rtc cstep ([process Spin.main], init_state slots) (ps, σ) →
  Forall (λ p, ¬ faulting σ p) ps ∧ Forall (counter_exact 200000) (out σ).
Proof.
  apply (pool_safe #[cΣ; ghost_varΣ unit; ghost_varΣ nat] (counter_exact 200000));
    [solve_globals|done|].
  intros HC Hgood. simpl. rewrite !big_sepM_insert // big_sepM_empty.
  iIntros "(Hn & Hc & Hl & _) !>". iSplit; [|done]. c_bind.
  iApply (main_body_spec _ Hgood _ _ _ (Z.to_nat 100000) with "Hn Hc Hl"); [lia..|done| | |].
  1,2: intros i; iStartProof; by c_ret.
  iIntros (s). iApply cwp_exit.
Qed.

(** C17. The same for the futex mutex: the sleeping and waking around the
    compare-and-swap lets no two threads in. *)
Theorem futex_counter_exact slots ps σ :
  rtc cstep ([process Futex.main], init_state slots) (ps, σ) →
  Forall (λ p, ¬ faulting σ p) ps ∧ Forall (counter_exact 2000000) (out σ).
Proof.
  apply (pool_safe #[cΣ; ghost_varΣ unit; ghost_varΣ nat] (counter_exact 2000000));
    [solve_globals|done|].
  intros HC Hgood. simpl. rewrite !big_sepM_insert // big_sepM_empty.
  iIntros "(Hn & Hc & Hl & _) !>". iSplit; [|done]. c_bind.
  iApply (main_body_spec _ Hgood _ _ _ (Z.to_nat 1000000) with "Hn Hc Hl"); [lia..|done| | |].
  1,2: intros i; iStartProof; iApply cwp_print; [by rewrite Hgood|done].
  iIntros (s). iApply cwp_exit.
Qed.

(** Main and both threads in rotation. *)
Lemma spin_counter_exact_witness :
  let ρ := run_sched (flat_map (λ i, [(0, 0); (1, 0); (2, 0)]%nat) (seq 0 200)) ([process Spin.main], init_state 2) in
  Forall (λ p, ¬ faulting ρ.2 p) ρ.1 ∧ Forall (counter_exact 200000) (out ρ.2).
Proof. apply (spin_counter_exact 2). apply run_sched_reaches. Defined.

(** Main and both threads in rotation. *)
Lemma futex_counter_exact_witness :
  let ρ := run_sched (flat_map (λ i, [(0, 0); (1, 0); (2, 0)]%nat) (seq 0 200)) ([process Futex.main], init_state 2) in
  Forall (λ p, ¬ faulting ρ.2 p) ρ.1 ∧ Forall (counter_exact 2000000) (out ρ.2).
Proof. apply (futex_counter_exact 2). apply run_sched_reaches. Defined.
