(* ===== verification/ListCommon.v ===== *)
(** * ListCommon: the linked list with a lock in every node

    [semestr2/Task2/Task2_3]: [rwlock.c], [main.c] (mutexes) and [spinlock.c]
    build a long list, let three threads walk it two nodes at a time and
    count neighbours, and let three more walk it three nodes at a time.  The
    statements are the same up to the lock and to what is printed; both are
    parameters here, and [ListRw], [ListMutex], [ListSpin] supply them. *)
From stdpp Require Import pretty.
From iris.proofmode Require Import proofmode.
From S2P Require Import Prelude Machine Logic Pthread.
#[local] Open Scope Z_scope.

(** ** Structures *)

Definition SIZE_WORD : nat := 100.
Definition MIN_SIZE_LIST : Z := 3.

(** [enum num_thread] *)
Definition INCREASING : Z := 0.
Definition DECREASING : Z := 1.
Definition EQUALS : Z := 2.
Definition RANDOM_SWAP_1 : Z := 3.
Definition RANDOM_SWAP_2 : Z := 4.
Definition RANDOM_SWAP_3 : Z := 5.
Definition MONITOR : Z := 6.

(** [Node], [Storage], [Context] *)
Definition value : Z := 0.
Definition next : Z := 1.
Definition sync : Z := 2.
Definition new_node : list cval := [VUndef; VUndef; VUndef].
Definition first : Z := 0.
Definition new_storage : list cval := [VUndef].
Definition thread : Z := 0.
Definition storage : Z := 1.

(** Static and [main]'s local objects. *)
Definition count_increment : loc := (0%nat, 0).
Definition tids : loc := (0%nat, 10).
Definition context1 : loc := (0%nat, 20).
Definition context2 : loc := (0%nat, 22).
Definition context3 : loc := (0%nat, 24).

(** What [%p] shows: some injective code of the address. *)
Definition address (l : loc) : Z := Z.of_nat l.1 * 2 ^ 16 + l.2.

(** [snprintf(buf, n, ...)] keeps the first [n - 1] characters. *)
Definition snprintf (n : nat) (s : string) : cval := VStr (String.substring 0 (n - 1) s).

(** [strcpy] reads a string and needs room for it. *)
Definition strcpy (dst : loc) (src : cval) : prog unit :=
  match src with
  | VStr s => if decide (String.length s < SIZE_WORD)%nat then store dst (VStr s)
              else ub "string too long"
  | _ => ub "indeterminate string"
  end.

(** ** The list *)

(** [pthread_*_init] of a default lock stores the free lock and returns 0,
    which the sources ignore. *)
Definition create_node (free_lock : cval) (line : cval) : prog loc :=
  node ← malloc new_node;
  assert (bool_decide (node ≠ None)) "node != NULL";;
  n ← deref node;
  strcpy (n ⟶ value) line;;
  store (n ⟶ next) (VPtr None);;
  store (n ⟶ sync) free_lock;;
  Ret n.

Definition append_new_node (st new : loc) : prog unit :=
  f ← load_ptr (st ⟶ first);
  match f with
  | None => store (st ⟶ first) (VPtr (Some new))
  | Some _ =>
      current ← load_ptr (st ⟶ first);
      Loop (λ current : ptr,
        c ← deref current;
        nx ← load_ptr (c ⟶ next);
        match nx with
        | Some _ => nx ← load_ptr (c ⟶ next); Ret (inl nx)
        | None => store (c ⟶ next) (VPtr (Some new));; Ret (inr tt)
        end) current Ret
  end.

Definition create_storage : prog loc :=
  st ← malloc new_storage;
  assert (bool_decide (st ≠ None)) "storage != NULL";;
  s ← deref st;
  store (s ⟶ first) (VPtr None);;
  Ret s.

(** [fill i] is [new_value] when node [i] is created. *)
Definition init_storage (free_lock : cval) (size : Z) (fill : Z → cval) (st : loc) : prog unit :=
  Loop (λ i : Z,
    if decide (i ≤ size) then
      node ← create_node free_lock (fill i);
      append_new_node st node;;
      Ret (inl (i +i 1))
    else Ret (inr tt)) 1 Ret.

(** [show] prints a value, or nothing. *)
Definition print_storage (show : string → prog unit) (st : loc) : prog unit :=
  f ← load_ptr (st ⟶ first);
  Loop (λ node : ptr,
    match node with
    | None => Ret (inr tt)
    | Some n =>
        s ← load_str (n ⟶ value);
        show s;;
        nx ← load_ptr (n ⟶ next);
        Ret (inl nx)
    end) f Ret.

(** [p->next], dereferenced. *)
Definition succ (p : loc) : prog loc := nx ← load_ptr (p ⟶ next); deref nx.

(** [prev->next = future; tmp = future->next; future->next = cur;
    cur->next = tmp] *)
Definition swap_nodes (prev cur future : ptr) : prog unit :=
  assert (bool_decide (prev ≠ None ∧ cur ≠ None ∧ future ≠ None))
    "prev != NULL && cur != NULL && future != NULL";;
  p ← deref prev; c ← deref cur; f ← deref future;
  store (p ⟶ next) (VPtr future);;
  tmp ← load_ptr (f ⟶ next);
  store (f ⟶ next) (VPtr cur);;
  store (c ⟶ next) (VPtr tmp).

(** [++count_increment[k]] on an atomic integer. *)
Definition atomic_incr (l : loc) : prog unit :=
  until (z ← load_int l; Act (OCas l z (z +i 1)) Ret).

(** ** The walking threads *)

(** The lock of the variant and its printing points: [say p k l] is what is
    printed at point [p] by thread [k] about the lock at [l]. *)
Inductive point : Set :=
  LockCurrent | LockFuture | UnlockCurrent | UnlockFuture
| SwapStart | SwapLockPrev | SwapNoNext | SwapLockCur | SwapNoNextNext | SwapLockFuture
| SwapUnlockFuture | SwapUnlockCur | SwapUnlockPrev | WarnEmpty.

Record variant : Type := Variant {
  free_lock : cval;
  rdlock : loc → prog unit;
  wrlock : loc → prog unit;
  unlock : loc → prog unit;
  say : point → Z → loc → prog unit
}.

Section threads.
Variable V : variant.

(** One walk over the list: the number of neighbours for which [cmp] holds of
    the lengths of their strings. *)
Definition walk (cmp : nat → nat → bool) (k : Z) (node : ptr) : prog Z :=
  Loop (λ x : ptr * Z,
    let '(node, counter) := x in
    n ← deref node;
    rdlock V (n ⟶ sync);;
    say V LockCurrent k (n ⟶ sync);;
    nx ← load_ptr (n ⟶ next);
    match nx with
    | None => unlock V (n ⟶ sync);; Ret (inr counter)
    | Some nxt =>
        rdlock V (nxt ⟶ sync);;
        say V LockFuture k (nxt ⟶ sync);;
        s ← load_str (n ⟶ value);
        s' ← load_str (nxt ⟶ value);
        node' ← load_ptr (n ⟶ next);
        say V UnlockCurrent k (nxt ⟶ sync);;
        unlock V (nxt ⟶ sync);;
        say V UnlockFuture k (n ⟶ sync);;
        unlock V (n ⟶ sync);;
        Ret (inl (node', if cmp (String.length s) (String.length s') then counter +i 1
                         else counter))
    end) (node, 0) Ret.

(** [find_increasing], [find_decreasing], [find_equals].  [after] sees the
    local variable [counter] when a walk ends; the sources do nothing with
    it. *)
Definition find (cmp : nat → nat → bool) (k : Z) (after : Z → prog unit) (st : loc) : prog unit :=
  Loop (λ _ : unit,
    node ← load_ptr (st ⟶ first);
    match node with
    | None => say V WarnEmpty k st;; Ret (inl tt)
    | Some n =>
        nx ← load_ptr (n ⟶ next);
        match nx with
        | None => say V WarnEmpty k st;; Ret (inl tt)
        | Some _ =>
            counter ← walk cmp k node;
            after counter;;
            atomic_incr (count_increment ⟶ k);;
            Ret (inl tt)
        end
    end) tt (λ e : Empty_set, match e with end).

(** [rand_r] is the environment's. *)
Definition number_random_node (size : Z) : prog Z :=
  Loop (λ _ : unit,
    r ← env_choice;
    let index := Z.of_nat r `mod` (size - 2) in
    Ret (if decide (index < MIN_SIZE_LIST) then inl tt else inr index)) tt Ret.

(** The walk of [random_swap]: [index] steps with the locks of [prev] and of
    the two nodes behind it. *)
Definition swap_walk (k : Z) (index : Z) (prev : loc) (current future : ptr) : prog unit :=
  Loop (λ x : Z * loc * ptr * ptr,
    let '(i, prev, current, future) := x in
    if decide (i < index) then
      wrlock V (prev ⟶ sync);;
      say V SwapLockPrev k (prev ⟶ sync);;
      nx ← load_ptr (prev ⟶ next);
      match nx with
      | None => say V SwapNoNext k prev;; unlock V (prev ⟶ sync);; Ret (inr tt)
      | Some _ =>
          n1 ← succ prev;
          wrlock V (n1 ⟶ sync);;
          say V SwapLockCur k (n1 ⟶ sync);;
          n1 ← succ prev;
          nx ← load_ptr (n1 ⟶ next);
          match nx with
          | None =>
              say V SwapNoNextNext k n1;;
              n1 ← succ prev;
              unlock V (n1 ⟶ sync);;
              unlock V (prev ⟶ sync);;
              Ret (inr tt)
          | Some _ =>
              n1 ← succ prev; n2 ← succ n1;
              wrlock V (n2 ⟶ sync);;
              say V SwapLockFuture k (n1 ⟶ sync);;
              prev' ← succ prev;
              c ← deref current; current' ← load_ptr (c ⟶ next);
              f ← deref future; future' ← load_ptr (f ⟶ next);
              n1 ← succ prev; n2 ← succ n1;
              say V SwapUnlockFuture k (n2 ⟶ sync);;
              unlock V (n2 ⟶ sync);;
              n1 ← succ prev;
              say V SwapUnlockCur k (n1 ⟶ sync);;
              unlock V (n1 ⟶ sync);;
              say V SwapUnlockPrev k (prev ⟶ sync);;
              unlock V (prev ⟶ sync);;
              Ret (inl (i +i 1, prev', current', future'))
          end
      end
    else Ret (inr tt)) (0, prev, current, future) Ret.

Definition random_swap (size : Z) (context : loc) : prog unit :=
  st ← load_ptr (context ⟶ storage);
  k ← load_int (context ⟶ thread);
  say V SwapStart k context;;
  assert (bool_decide (st ≠ None)) "storage != NULL";;
  st ← deref st;
  Loop (λ _ : unit,
    prev ← load_ptr (st ⟶ first);
    match prev with
    | None => say V WarnEmpty k st;; Ret (inl tt)
    | Some p =>
        nx ← load_ptr (p ⟶ next);
        match nx with
        | None => say V WarnEmpty k st;; Ret (inl tt)
        | Some _ =>
            index ← number_random_node size;
            current ← load_ptr (p ⟶ next);
            n1 ← succ p; future ← load_ptr (n1 ⟶ next);
            swap_walk k index p current future;;
            k' ← load_int (context ⟶ thread);
            atomic_incr (count_increment ⟶ k');;
            Ret (inl tt)
        end
    end) tt (λ e : Empty_set, match e with end).

Definition MONITOR_FMT : string :=
  "count INCREASING: %d, DECREASING %d, EQUALS %d, RANDOM_SWAP_1 %d, RANDOM_SWAP_2 %d, RANDOM_SWAP_3 %d".

Definition monitor : prog unit :=
  Loop (λ _ : unit,
    a ← load_int (count_increment ⟶ INCREASING);
    b ← load_int (count_increment ⟶ DECREASING);
    c ← load_int (count_increment ⟶ EQUALS);
    d ← load_int (count_increment ⟶ RANDOM_SWAP_1);
    e ← load_int (count_increment ⟶ RANDOM_SWAP_2);
    f ← load_int (count_increment ⟶ RANDOM_SWAP_3);
    print (EvOut MONITOR_FMT [a; b; c; d; e; f]);;
    sleep 1;;
    Ret (inl tt)) tt (λ e : Empty_set, match e with end).

(** [pthread_create(&tids[k], ...)], the result ignored. *)
Definition start (k : Z) (body : prog unit) : prog unit :=
  '(err, tid) ← pthread_create body;
  if decide (err = 0) then store (tids ⟶ k) (VPtr tid) else Ret tt.

Definition join_thread (tid : ptr) : prog unit :=
  err ← pthread_join tid;
  if decide (err = 0) then Ret tt else print (EvErr "pthread_join() failed").

(** [main].  [decreasing] is what [find_decreasing] compares with; it differs
    between the sources. *)
Definition list_main (size : Z) (fill : Z → cval) (show : string → prog unit)
    (decreasing : nat → nat → bool) (after : Z → Z → prog unit) : prog Z :=
  st ← create_storage;
  init_storage (free_lock V) size fill st;;
  print_storage show st;;
  start INCREASING (find Nat.ltb INCREASING (after INCREASING) st);;
  start DECREASING (find decreasing DECREASING (after DECREASING) st);;
  start EQUALS (find Nat.eqb EQUALS (after EQUALS) st);;
  store (context1 ⟶ thread) (VInt RANDOM_SWAP_1);;
  store (context1 ⟶ storage) (VPtr (Some st));;
  store (context2 ⟶ thread) (VInt RANDOM_SWAP_2);;
  store (context2 ⟶ storage) (VPtr (Some st));;
  store (context3 ⟶ thread) (VInt RANDOM_SWAP_3);;
  store (context3 ⟶ storage) (VPtr (Some st));;
  start RANDOM_SWAP_1 (random_swap size context1);;
  start RANDOM_SWAP_2 (random_swap size context2);;
  start RANDOM_SWAP_3 (random_swap size context3);;
  start MONITOR monitor;;
  tid ← load_ptr (tids ⟶ MONITOR);
  join_thread tid;;
  Ret EXIT_SUCCESS.

End threads.

(** The process image before [main]. *)
Definition init_cells : list (loc * cval) :=
  ((λ i : nat, (count_increment ⟶ Z.of_nat i, VInt 0)) <$> seq 0 6) ++
  ((λ i : nat, (tids ⟶ Z.of_nat i, VUndef)) <$> seq 0 7) ++
  ((λ i : nat, (context1 ⟶ Z.of_nat i, VUndef)) <$> seq 0 6).
Definition init_state (slots : nat) : cstate :=
  CState (<[thread_slots := VSem slots]> (list_to_map init_cells)) 1 ∅ [] None.

(** Neighbours whose lengths are related by [cmp]. *)
Fixpoint neighbours (cmp : nat → nat → bool) (xs : list string) : nat :=
  match xs with
  | x :: (y :: _) as xs' =>
      ((if cmp (String.length x) (String.length y) then 1 else 0) + neighbours cmp xs')%nat
  | _ => 0%nat
  end.

(** A correct run: the only assertions that may fail are those that check
    [malloc]. *)
Definition list_ok (e : event) : Prop :=
  match e with
  | EvAssert c => c = "node != NULL" ∨ c = "storage != NULL"
  | _ => True
  end.

(** ** Verification *)

Lemma neighbours_drop cmp xs i x y :
  xs !! i = Some x → xs !! S i = Some y →
  neighbours cmp (drop i xs) =
    ((if cmp (String.length x) (String.length y) then 1 else 0) +
     neighbours cmp (drop (S i) xs))%nat.
Proof. intros Hx Hy. by rewrite (drop_S _ _ _ Hx) (drop_S _ _ _ Hy). Qed.

Lemma neighbours_last cmp xs i x :
  xs !! i = Some x → xs !! S i = None → neighbours cmp (drop i xs) = 0%nat.
Proof.
  intros Hx Hn. apply lookup_ge_None in Hn. by rewrite (drop_S _ _ _ Hx) drop_ge.
Qed.

(** What the lock of a node owes to the walkers. *)
Class NodeLock `{!cGS Σ} (V : variant) := {
  nl_inv : gname → loc → iProp Σ;
  nl_held : gname → loc → iProp Σ;
  nl_persistent :: ∀ γ l, Persistent (nl_inv γ l);
  nl_alloc l : l ↦ free_lock V ={⊤}=∗ ∃ γ, nl_inv γ l;
  nl_rd γ l Φ : nl_inv γ l -∗ ▷ (nl_held γ l -∗ Φ tt) -∗ cwp (rdlock V l) Φ;
  nl_wr γ l Φ : nl_inv γ l -∗ ▷ (nl_held γ l -∗ Φ tt) -∗ cwp (wrlock V l) Φ;
  nl_unlock γ l Φ : nl_inv γ l -∗ nl_held γ l -∗ ▷ Φ tt -∗ cwp (unlock V l) Φ;
  nl_say p k l Φ : Φ tt -∗ cwp (say V p k l) Φ;
}.

(** *** Building the list *)

Section build.
Context `{!cGS Σ} (fl : cval) (Hgood : c_good = list_ok).

(** The nodes at [ls] carry [xs]; [nxt i] is where the [i]-th node is. *)
Definition nodes (nxt : nat → ptr) (ls : list loc) (xs : list string) : iProp Σ :=
  [∗ list] i ↦ l;x ∈ ls;xs, block_at l [VStr x; VPtr (nxt (S i)); fl].

Definition own_list (st : loc) (ls : list loc) (xs : list string) : iProp Σ :=
  (st ⟶ first) ↦ VPtr (ls !! 0%nat) ∗ nodes (λ i, ls !! i) ls xs.

Lemma nodes_ext nxt nxt' ls xs :
  (∀ i, (i < length ls)%nat → nxt (S i) = nxt' (S i)) → nodes nxt ls xs ⊢ nodes nxt' ls xs.
Proof.
  intros Heq. apply big_sepL2_mono. intros i l x Hl Hx. rewrite Heq; [done|].
  by apply lookup_lt_Some in Hl.
Qed.

Lemma nodes_snoc nxt ls xs l x :
  nodes nxt (ls ++ [l]) (xs ++ [x]) ⊣⊢
  nodes nxt ls xs ∗ block_at l [VStr x; VPtr (nxt (S (length ls))); fl].
Proof. unfold nodes. rewrite big_sepL2_snoc. done. Qed.

(** A node taken out of the chain, with the way back. *)
Lemma nodes_next nxt ls xs i l :
  ls !! i = Some l →
  nodes nxt ls xs -∗ (l ⟶ next) ↦ VPtr (nxt (S i)) ∗
    ((l ⟶ next) ↦ VPtr (nxt (S i)) -∗ nodes nxt ls xs).
Proof.
  iIntros (Hl) "Hns". iDestruct (big_sepL2_length with "Hns") as %Hlen.
  destruct (lookup_lt_is_Some_2 xs i) as [x Hx]; [rewrite -Hlen; by eapply lookup_lt_Some|].
  iDestruct (big_sepL2_lookup_acc with "Hns") as "[(%H0 & Hh & Hv & Hn & Hs & _) Hback]"; [done..|].
  iSplitL "Hn"; [iExact "Hn"|]. iIntros "Hn". iApply "Hback".
  unfold block_at. simpl. by iFrame.
Qed.

(** The chain with one more node behind the last one. *)
Lemma nodes_extend ls xs l x new y :
  nodes (λ i, (ls ++ [l]) !! i) ls xs -∗ block_at l [VStr x; VPtr (Some new); fl] -∗
  block_at new [VStr y; VPtr None; fl] -∗
  nodes (λ i, ((ls ++ [l]) ++ [new]) !! i) ((ls ++ [l]) ++ [new]) ((xs ++ [x]) ++ [y]).
Proof.
  iIntros "Hns Hl Hnew". rewrite !nodes_snoc.
  rewrite !length_app /= (lookup_ge_None_2 _ (S (length ls + 1))); [|rewrite !length_app /=; lia].
  rewrite lookup_app_r; [|rewrite length_app /=; lia].
  replace (S (length ls) - length (ls ++ [l]))%nat with 0%nat by (rewrite length_app /=; lia).
  iFrame. iApply (nodes_ext with "Hns"). intros i Hi.
  rewrite (lookup_app_l (ls ++ [l])); [done|]. rewrite length_app /=. lia.
Qed.

Lemma cwp_create_node s Φ :
  (String.length s < SIZE_WORD)%nat →
  ▷ (∀ l, block_at l [VStr s; VPtr None; fl] -∗ Φ l) -∗ cwp (create_node fl (VStr s)) Φ.
Proof using Hgood.
  iIntros (Hs) "HΦ". c_bind. iApply cwp_malloc. iNext. iSplit.
  { c_bind. c_bind. iApply cwp_print; [rewrite Hgood; by left|]. iNext. iApply cwp_exit. }
  iIntros (l) "(%H0 & Hh & Hv & Hn & Hs & _)". c_bind. iApply cwp_assert; [done|].
  c_bind. c_ret. c_bind. c_simp. unfold strcpy. case_decide; [|done].
  iApply (cwp_store with "Hv"). iNext. iIntros "Hv". c_store "Hn". c_store "Hs". c_ret.
  iApply "HΦ".
  unfold block_at. simpl. by iFrame.
Qed.

(** [append_new_node] puts the node at the end. *)
Lemma cwp_append st ls xs new y Φ :
  own_list st ls xs -∗ block_at new [VStr y; VPtr None; fl] -∗
  ▷ (own_list st (ls ++ [new]) (xs ++ [y]) -∗ Φ tt) -∗ cwp (append_new_node st new) Φ.
Proof.
  iIntros "[Hf Hns] Hnew HΦ". iDestruct (big_sepL2_length with "Hns") as %Hlen.
  c_load "Hf". destruct (ls !! 0%nat) as [l0|] eqn:H0; last first.
  { destruct ls as [|l0 ls]; [|done]. destruct xs; [|done]. simpl.
    iApply (cwp_store with "Hf"). iNext. iIntros "Hf". iApply "HΦ". iFrame "Hf".
    unfold nodes. simpl. by iFrame. }
  c_load "Hf".
  iApply (cwp_loop _ _ (λ cur, ∃ i, ⌜cur = ls !! i ∧ (i < length ls)%nat⌝ ∗
    (st ⟶ first) ↦ VPtr (Some l0) ∗ nodes (λ i, ls !! i) ls xs ∗
    block_at new [VStr y; VPtr None; fl] ∗
    (own_list st (ls ++ [new]) (xs ++ [y]) -∗ Φ tt))%I with "[$Hf $Hns $Hnew $HΦ]").
  { iExists 0%nat. iPureIntro. split; [by rewrite H0|]. by eapply lookup_lt_Some. }
  iIntros "!> %cur (%i & [-> %Hi] & Hf & Hns & Hnew & HΦ)".
  destruct (lookup_lt_is_Some_2 ls i Hi) as [l Hl]. rewrite Hl. c_bind. c_ret.
  destruct (ls !! S i) as [l'|] eqn:Hnx.
  - iDestruct (nodes_next _ _ _ _ _ Hl with "Hns") as "[Hn Hns]". rewrite Hnx.
    c_load "Hn". c_load "Hn". c_ret. iExists (S i). iDestruct ("Hns" with "Hn") as "Hns".
    iFrame. iPureIntro. split; [done|]. by eapply lookup_lt_Some.
  - apply lookup_ge_None in Hnx. assert (length ls = S i) as Hli by lia.
    destruct (exists_last (l := ls)) as (ls0 & l1 & ->); [by intros ->|].
    destruct (exists_last (l := xs)) as (xs0 & x1 & ->); [by intros ->; simpl in *; lia|].
    rewrite length_app /= in Hli. rewrite !length_app /= in Hlen.
    assert (i = length ls0) as -> by lia. rewrite lookup_app_r // Nat.sub_diag in Hl.
    injection Hl as ->. iDestruct (nodes_snoc with "Hns") as "[Hns (%Hl0 & Hh & Hv & Hn & Hs & _)]".
    rewrite (lookup_ge_None_2 _ (S (length ls0))); [|rewrite length_app /=; lia].
    c_load "Hn". c_store "Hn". c_ret. iApply "HΦ". rewrite -H0.
    iSplitL "Hf"; [by destruct ls0|]. iApply (nodes_extend with "Hns [-Hnew] Hnew").
    unfold block_at. simpl. by iFrame.
Qed.

(** [init_storage] builds the list of the given strings. *)
Lemma cwp_init_storage size (str : Z → string) st Φ :
  0 ≤ size < INT_MAX → (∀ i, 1 ≤ i ≤ size → (String.length (str i) < SIZE_WORD)%nat) →
  (st ⟶ first) ↦ VPtr None -∗
  (∀ ls, own_list st ls (str <$> seqZ 1 size) -∗ Φ tt) -∗
  cwp (init_storage fl size (λ i, VStr (str i)) st) Φ.
Proof using Hgood.
  iIntros (Hsize Hstr) "Hf HΦ".
  iApply (cwp_loop _ _ (λ i, ⌜1 ≤ i ≤ size + 1⌝ ∗ (∃ ls, own_list st ls (str <$> seqZ 1 (i - 1))) ∗
    (∀ ls, own_list st ls (str <$> seqZ 1 size) -∗ Φ tt))%I with "[$HΦ Hf]").
  { iSplit; [iPureIntro; lia|]. iExists []. unfold own_list, nodes. simpl. by iFrame. }
  iIntros "!> %i (%Hi & [%ls Hl] & HΦ)". c_simp. case_decide as Hle; last first.
  { c_ret. replace (i - 1) with size by lia. by iApply "HΦ". }
  c_bind. iApply cwp_create_node; [apply Hstr; lia|]. iNext. iIntros (new) "Hnew".
  c_bind. iApply (cwp_append with "Hl Hnew"). iNext. iIntros "Hl". c_ret.
  rewrite wrap32_id; [|cint_lia]. iSplit; [iPureIntro; lia|]. iFrame "HΦ". iExists _.
  replace (i + 1 - 1) with (i - 1 + 1) by lia. rewrite seqZ_app; [|lia..].
  rewrite fmap_app. replace (1 + (i - 1)) with i by lia. by iFrame.
Qed.

(** *** [swap_nodes] *)

(** [prev -> cur -> future -> p] becomes [prev -> future -> cur -> p]. *)
Lemma cwp_swap_nodes a b c p Φ :
  (a ⟶ next) ↦ VPtr (Some b) -∗ (b ⟶ next) ↦ VPtr (Some c) -∗ (c ⟶ next) ↦ VPtr p -∗
  ▷ ((a ⟶ next) ↦ VPtr (Some c) -∗ (c ⟶ next) ↦ VPtr (Some b) -∗ (b ⟶ next) ↦ VPtr p -∗ Φ tt) -∗
  cwp (swap_nodes (Some a) (Some b) (Some c)) Φ.
Proof.
  iIntros "Ha Hb Hc HΦ". c_bind. iApply cwp_assert; [done|].
  do 3 (c_bind; c_ret). c_store "Ha". c_load "Hc". c_store "Hc".
  iApply (cwp_store with "Hb"). iNext. iIntros "Hb". iApply ("HΦ" with "Ha Hc Hb").
Qed.

End build.

(** *** Sharing the list *)

Section shared.
Context `{!cGS Σ} (V : variant) `{!NodeLock V} (Hgood : c_good = list_ok).

(** Once built, the values and the links never change; only the locks do. *)
Definition shared_node (ls : list loc) (i : nat) (l : loc) (x : string) : iProp Σ :=
  (l ⟶ value) ↦□ VStr x ∗ (l ⟶ next) ↦□ VPtr (ls !! S i) ∗ ∃ γ, nl_inv γ (l ⟶ sync).
Definition shared_list (st : loc) (ls : list loc) (xs : list string) : iProp Σ :=
  (st ⟶ first) ↦□ VPtr (ls !! 0%nat) ∗ [∗ list] i ↦ l;x ∈ ls;xs, shared_node ls i l x.

#[global] Instance shared_node_persistent ls i l x : Persistent (shared_node ls i l x).
Proof. apply _. Qed.
#[global] Instance shared_list_persistent st ls xs : Persistent (shared_list st ls xs).
Proof. apply _. Qed.

Lemma share_nodes (all : list loc) ls xs k :
  ([∗ list] i ↦ l;x ∈ ls;xs, block_at l [VStr x; VPtr (all !! S (k + i)%nat); free_lock V]) ={⊤}=∗
  [∗ list] i ↦ l;x ∈ ls;xs, shared_node all (k + i) l x.
Proof.
  iIntros "H". iApply big_sepL2_fupd. iApply (big_sepL2_impl with "H").
  iIntros "!> %i %l %x _ _ (_ & _ & Hv & Hn & Hs & _)".
  iMod (pt_persist with "Hv") as "$". iMod (pt_persist with "Hn") as "$".
  iApply (nl_alloc with "Hs").
Qed.

Lemma share_list st ls xs : own_list (free_lock V) st ls xs ={⊤}=∗ shared_list st ls xs.
Proof.
  iIntros "[Hf Hns]". iMod (pt_persist with "Hf") as "$".
  iMod (share_nodes ls ls xs 0 with "Hns") as "$". done.
Qed.

Lemma shared_length st ls xs : shared_list st ls xs -∗ ⌜length ls = length xs⌝.
Proof. iIntros "[_ H]". iApply (big_sepL2_length with "H"). Qed.

(** The [i]-th node. *)
Lemma shared_lookup st ls xs i l :
  ls !! i = Some l →
  shared_list st ls xs -∗ ∃ x, ⌜xs !! i = Some x⌝ ∗ shared_node ls i l x.
Proof.
  iIntros (Hl) "#[_ H]". iDestruct (big_sepL2_length with "H") as %Hlen.
  destruct (lookup_lt_is_Some_2 xs i) as [x Hx]; [rewrite -Hlen; by eapply lookup_lt_Some|].
  iExists x. iSplit; [done|]. by iApply (big_sepL2_lookup with "H").
Qed.

(** [p->next] of the [i]-th node. *)
Lemma cwp_next st ls xs i l Φ :
  ls !! i = Some l → shared_list st ls xs -∗ ▷ Φ (ls !! S i) -∗ cwp (load_ptr (l ⟶ next)) Φ.
Proof.
  iIntros (Hl) "#Hs HΦ". iDestruct (shared_lookup with "Hs") as (x) "(_ & _ & #Hn & _)"; [done|].
  iApply (cwp_load_ptr with "Hn"). iNext. by iIntros "_".
Qed.

Lemma cwp_succ st ls xs i l l' Φ :
  ls !! i = Some l → ls !! S i = Some l' →
  shared_list st ls xs -∗ ▷ Φ l' -∗ cwp (succ l) Φ.
Proof.
  iIntros (Hl Hl') "#Hs HΦ". c_bind. iApply (cwp_next with "Hs"); [done|]. iNext. rewrite Hl'.
  by c_ret.
Qed.

Lemma cwp_first st ls xs Φ :
  shared_list st ls xs -∗ ▷ Φ (ls !! 0%nat) -∗ cwp (load_ptr (st ⟶ first)) Φ.
Proof.
  iIntros "#[Hf _] HΦ". iApply (cwp_load_ptr with "Hf"). iNext. by iIntros "_".
Qed.

(** The lock of the [i]-th node. *)
Lemma node_lock st ls xs i l :
  ls !! i = Some l → shared_list st ls xs -∗ ∃ γ, nl_inv γ (l ⟶ sync).
Proof.
  iIntros (Hl) "#Hs". by iDestruct (shared_lookup with "Hs") as (x) "(_ & _ & _ & $)".
Qed.

Lemma cwp_print_storage st ls xs show Φ :
  (∀ s, ⊢ cwp (show s) (λ _, True)) →
  shared_list st ls xs -∗ Φ tt -∗ cwp (print_storage show st) Φ.
Proof.
  iIntros (Hshow) "#Hs HΦ". c_bind. iApply (cwp_first with "Hs"). iNext.
  iApply (cwp_loop _ _ (λ p, (∃ i, ⌜p = ls !! i⌝) ∗ Φ tt)%I with "[$HΦ]"); [by iExists 0%nat|].
  iIntros "!> %p [[%i ->] HΦ]". destruct (ls !! i) as [l|] eqn:Hl; [|by c_ret].
  iDestruct (shared_lookup with "Hs") as (x) "(_ & #Hv & _ & _)"; [done|].
  c_bind. iApply (cwp_load_str with "Hv"). iNext. iIntros "_".
  c_bind. iPoseProof (Hshow x) as "H". iApply (cwp_mono with "[HΦ] H"). iIntros ([]) "_".
  c_bind. iApply (cwp_next with "Hs"); [done|]. iNext. c_ret. iFrame. by iExists (S i).
Qed.

(** A walk counts the neighbours of the whole list, whoever else walks. *)
Lemma cwp_walk st ls xs cmp k Φ :
  (0 < length ls)%nat →
  shared_list st ls xs -∗ Φ (wrap32 (Z.of_nat (neighbours cmp xs))) -∗
  cwp (walk V cmp k (ls !! 0%nat)) Φ.
Proof.
  iIntros (Hlen) "#Hs HΦ". iDestruct (shared_length with "Hs") as %Hxs.
  iApply (cwp_loop _ _ (λ x, ∃ i c : nat, ⌜x.1 = ls !! i ∧ (i < length ls)%nat ∧
      x.2 = wrap32 (Z.of_nat c) ∧ (c + neighbours cmp (drop i xs))%nat = neighbours cmp xs⌝ ∗
      Φ (wrap32 (Z.of_nat (neighbours cmp xs))))%I with "[$HΦ]").
  { iExists 0%nat, 0%nat. by iPureIntro. }
  iIntros "!> %x (%i & %c & %Hx & HΦ)". destruct x as [node counter]. simpl in Hx.
  destruct Hx as (-> & Hi & -> & Hc). destruct (lookup_lt_is_Some_2 ls i Hi) as [l Hl].
  rewrite Hl. c_bind. c_ret.
  iDestruct (shared_lookup with "Hs") as (x) "(%Hx & #Hv & _ & %γ & #Hlk)"; [done|].
  c_bind. iApply (nl_rd with "Hlk"). iNext. iIntros "Hh". c_bind. iApply nl_say.
  c_bind. iApply (cwp_next with "Hs"); [done|]. iNext.
  destruct (ls !! S i) as [l'|] eqn:Hl'; last first.
  { c_bind. iApply (nl_unlock with "Hlk Hh"). iNext. c_ret.
    rewrite (neighbours_last _ _ _ _ Hx) in Hc; [by rewrite -Hc Nat.add_0_r|].
    apply lookup_ge_None in Hl'. apply lookup_ge_None. lia. }
  iDestruct (shared_lookup with "Hs") as (y) "(%Hy & #Hv' & _ & %γ' & #Hlk')"; [exact Hl'|].
  c_bind. iApply (nl_rd with "Hlk'"). iNext. iIntros "Hh'". c_bind. iApply nl_say.
  c_bind. iApply (cwp_load_str with "Hv"). iNext. iIntros "_".
  c_bind. iApply (cwp_load_str with "Hv'"). iNext. iIntros "_".
  c_bind. iApply (cwp_next with "Hs"); [done|]. iNext.
  c_bind. iApply nl_say. c_bind. iApply (nl_unlock with "Hlk' Hh'"). iNext.
  c_bind. iApply nl_say. c_bind. iApply (nl_unlock with "Hlk Hh"). iNext.
  rewrite (neighbours_drop _ _ _ _ _ Hx Hy) in Hc. c_ret.
  iExists (S i), (c + if cmp (String.length x) (String.length y) then 1 else 0)%nat.
  iFrame "HΦ". iPureIntro. simpl. split; [done|]. split; [by eapply lookup_lt_Some|].
  split; [|lia]. destruct (cmp _ _); [by rewrite wrap32_succ Nat.add_1_r|by rewrite Nat.add_0_r].
Qed.

(** *** The counters *)

Definition countN : namespace := nroot .@ "count".
Definition atomic_int (l : loc) : iProp Σ := inv countN (∃ z, l ↦ VInt z).

Lemma cwp_load_atomic l Φ : atomic_int l -∗ ▷ (∀ z, Φ z) -∗ cwp (load_int l) Φ.
Proof.
  iIntros "#Hl HΦ". c_bind. iApply (cwp_op_inv with "Hl"). iIntros "(%z & >H)".
  iApply (awp_load with "H"). iNext. iIntros "H". iSplitL "H"; [by iExists z|].
  c_ret. iApply "HΦ".
Qed.

Lemma cwp_atomic_incr l Φ : atomic_int l -∗ Φ tt -∗ cwp (atomic_incr l) Φ.
Proof.
  iIntros "#Hl HΦ". iApply (cwp_until _ (Φ tt) with "HΦ"). iIntros "!> HΦ".
  c_bind. iApply (cwp_load_atomic with "Hl"). iNext. iIntros (z).
  iApply (cwp_op_inv with "Hl"). iIntros "(%z' & >H)". destruct (decide (z' = z)) as [->|Hne].
  - iApply (awp_cas_ok with "H"). iNext. iIntros "H". iFrame.
  - iApply (awp_cas_fail with "H"); [done|]. iNext. iIntros "H". iFrame.
Qed.

Definition counters : iProp Σ :=
  [∗ list] k ∈ seq 0 6, atomic_int (count_increment ⟶ Z.of_nat k).

Lemma counter_at (k : nat) : (k < 6)%nat → counters -∗ atomic_int (count_increment ⟶ Z.of_nat k).
Proof. iIntros (Hk) "H". iApply (big_sepL_elem_of with "H"). apply elem_of_seq. lia. Qed.

(** *** The threads *)

Lemma cwp_find st ls xs cmp (k : nat) after Φ :
  (k < 6)%nat →
  (⊢ cwp (after (wrap32 (Z.of_nat (neighbours cmp xs)))) (λ _, True)) →
  shared_list st ls xs -∗ counters -∗ cwp (find V cmp (Z.of_nat k) after st) Φ.
Proof.
  iIntros (Hk Hafter) "#Hs #Hc". iApply (cwp_forever _ _ _ (λ _, True)%I); [done|].
  iIntros "!> %x _". c_bind. iApply (cwp_first with "Hs"). iNext.
  destruct (ls !! 0%nat) as [l|] eqn:Hl; [|c_bind; iApply nl_say; by c_ret].
  c_bind. iApply (cwp_next with "Hs"); [done|]. iNext.
  destruct (ls !! 1%nat) as [l'|]; [|c_bind; iApply nl_say; by c_ret].
  c_bind. rewrite -Hl. iApply (cwp_walk with "Hs"); [by eapply lookup_lt_Some|].
  c_bind. iPoseProof Hafter as "H". iApply (cwp_mono with "[] H"). iIntros ([]) "_".
  c_bind. iApply cwp_atomic_incr; [by iApply counter_at|]. by c_ret.
Qed.

(** The walk of [random_swap] never follows a null pointer: [future] is only
    followed after the test that there are two more nodes. *)
Lemma cwp_swap_walk st ls xs k index l Φ :
  ls !! 0%nat = Some l →
  shared_list st ls xs -∗ Φ tt -∗
  cwp (swap_walk V k index l (ls !! 1%nat) (ls !! 2%nat)) Φ.
Proof.
  iIntros (H0) "#Hs HΦ".
  iApply (cwp_loop _ _ (λ x, (∃ i : nat, ⌜Some x.1.1.2 = ls !! i ∧ x.1.2 = ls !! S i ∧
                                           x.2 = ls !! S (S i)⌝) ∗ Φ tt)%I with "[$HΦ]").
  { by iExists 0%nat. }
  iIntros "!> %x [[%i %Hx] HΦ]". destruct x as [[[j prev] current] future].
  destruct Hx as (Hp & Hcur & Hfut); simpl in Hp, Hcur, Hfut. subst current future.
  symmetry in Hp. c_simp. case_decide; [|by c_ret].
  iDestruct (node_lock with "Hs") as (γ) "#Hlk"; [exact Hp|].
  c_bind. iApply (nl_wr with "Hlk"). iNext. iIntros "Hh". c_bind. iApply nl_say.
  c_bind. iApply (cwp_next with "Hs"); [done|]. iNext.
  destruct (ls !! S i) as [l1|] eqn:H1; last first.
  { c_bind. iApply nl_say. c_bind. iApply (nl_unlock with "Hlk Hh"). iNext. by c_ret. }
  iDestruct (node_lock with "Hs") as (γ1) "#Hlk1"; [exact H1|].
  c_bind. iApply (cwp_succ with "Hs"); [done..|]. iNext.
  c_bind. iApply (nl_wr with "Hlk1"). iNext. iIntros "Hh1". c_bind. iApply nl_say.
  c_bind. iApply (cwp_succ with "Hs"); [done..|]. iNext.
  c_bind. iApply (cwp_next with "Hs"); [exact H1|]. iNext.
  destruct (ls !! S (S i)) as [l2|] eqn:H2; last first.
  { c_bind. iApply nl_say. c_bind. iApply (cwp_succ with "Hs"); [done..|]. iNext.
    c_bind. iApply (nl_unlock with "Hlk1 Hh1"). iNext.
    c_bind. iApply (nl_unlock with "Hlk Hh"). iNext. by c_ret. }
  iDestruct (node_lock with "Hs") as (γ2) "#Hlk2"; [exact H2|].
  c_bind. iApply (cwp_succ with "Hs"); [done..|]. iNext.
  c_bind. iApply (cwp_succ with "Hs"); [done..|]. iNext.
  c_bind. iApply (nl_wr with "Hlk2"). iNext. iIntros "Hh2". c_bind. iApply nl_say.
  c_bind. iApply (cwp_succ with "Hs"); [done..|]. iNext.
  c_bind. c_ret. c_bind. iApply (cwp_next with "Hs"); [exact H1|]. iNext.
  c_bind. c_ret. c_bind. iApply (cwp_next with "Hs"); [exact H2|]. iNext.
  c_bind. iApply (cwp_succ with "Hs"); [done..|]. iNext.
  c_bind. iApply (cwp_succ with "Hs"); [done..|]. iNext.
  c_bind. iApply nl_say. c_bind. iApply (nl_unlock with "Hlk2 Hh2"). iNext.
  c_bind. iApply (cwp_succ with "Hs"); [done..|]. iNext.
  c_bind. iApply nl_say. c_bind. iApply (nl_unlock with "Hlk1 Hh1"). iNext.
  c_bind. iApply nl_say. c_bind. iApply (nl_unlock with "Hlk Hh"). iNext.
  c_ret. iFrame. iExists (S i). iPureIntro. simpl. rewrite H1 H2. done.
Qed.

Lemma cwp_number_random_node size Φ : (∀ i, Φ i) -∗ cwp (number_random_node size) Φ.
Proof.
  iIntros "HΦ". iApply (cwp_loop _ _ (λ _, ∀ i, Φ i)%I with "HΦ"). iIntros "!> %x HΦ".
  c_bind. iApply cwp_env_choice. iNext. iIntros (r). c_ret. case_decide; [done|]. iApply "HΦ".
Qed.

Lemma cwp_random_swap st ls xs size context (k : nat) Φ :
  (k < 6)%nat →
  shared_list st ls xs -∗ counters -∗ (context ⟶ thread) ↦□ VInt (Z.of_nat k) -∗
  (context ⟶ storage) ↦□ VPtr (Some st) -∗ cwp (random_swap V size context) Φ.
Proof.
  iIntros (Hk) "#Hs #Hc #Ht #Hst". c_bind. iApply (cwp_load_ptr with "Hst"). iNext. iIntros "_".
  c_bind. iApply (cwp_load_int with "Ht"). iNext. iIntros "_". c_bind. iApply nl_say.
  c_bind. iApply cwp_assert; [done|]. c_bind. c_ret.
  iApply (cwp_forever _ _ _ (λ _, True)%I); [done|].
  iIntros "!> %x _". c_bind. iApply (cwp_first with "Hs"). iNext.
  destruct (ls !! 0%nat) as [l|] eqn:Hl; [|c_bind; iApply nl_say; by c_ret].
  c_bind. iApply (cwp_next with "Hs"); [done|]. iNext.
  destruct (ls !! 1%nat) as [l'|] eqn:Hl'; [|c_bind; iApply nl_say; by c_ret].
  c_bind. iApply cwp_number_random_node. iIntros (index).
  c_bind. iApply (cwp_next with "Hs"); [done|]. iNext.
  c_bind. iApply (cwp_succ with "Hs"); [done..|]. iNext.
  c_bind. iApply (cwp_next with "Hs"); [exact Hl'|]. iNext.
  c_bind. iApply (cwp_swap_walk with "Hs"); [done|].
  c_bind. iApply (cwp_load_int with "Ht"). iNext. iIntros "_".
  c_bind. iApply cwp_atomic_incr; [by iApply counter_at|]. by c_ret.
Qed.

Lemma cwp_monitor Φ : counters -∗ cwp monitor Φ.
Proof using Hgood.
  iIntros "#Hc". iApply (cwp_forever _ _ _ (λ _, True)%I); [done|]. iIntros "!> %x _".
  c_bind. iApply cwp_load_atomic; [by iApply (counter_at 0); [lia|]|]. iNext. iIntros (?).
  c_bind. iApply cwp_load_atomic; [by iApply (counter_at 1); [lia|]|]. iNext. iIntros (?).
  c_bind. iApply cwp_load_atomic; [by iApply (counter_at 2); [lia|]|]. iNext. iIntros (?).
  c_bind. iApply cwp_load_atomic; [by iApply (counter_at 3); [lia|]|]. iNext. iIntros (?).
  c_bind. iApply cwp_load_atomic; [by iApply (counter_at 4); [lia|]|]. iNext. iIntros (?).
  c_bind. iApply cwp_load_atomic; [by iApply (counter_at 5); [lia|]|]. iNext. iIntros (?).
  c_bind. iApply cwp_print; [by rewrite Hgood|]. iNext. c_bind. c_ret. by c_ret.
Qed.

End shared.

(** *** [main] *)

Section main.
Context `{!cGS Σ} (V : variant) `{!NodeLock V} (Hgood : c_good = list_ok).

Lemma cwp_start k body n (P : iProp Σ) Φ :
  thread_slots ↦ VSem (S n) -∗ (tids ⟶ k) ↦ VUndef -∗ cwp body (λ _, P) -∗
  ▷ (∀ t, thread_slots ↦ VSem n -∗ (tids ⟶ k) ↦ VPtr (Some t) -∗ join_handle t P -∗ Φ tt) -∗
  cwp (start k body) Φ.
Proof.
  iIntros "Hn Ht Hb HΦ". c_bind. iApply (cwp_pthread_create with "Hn Hb"). iNext.
  iIntros (t) "Hn Hj". c_simp. case_decide; [|done].
  iApply (cwp_store with "Ht"). iNext. iIntros "Ht". iApply ("HΦ" with "Hn Ht Hj").
Qed.

Lemma cwp_create_storage Φ :
  ▷ (∀ st, (st ⟶ first) ↦ VPtr None -∗ Φ st) -∗ cwp create_storage Φ.
Proof using Hgood.
  iIntros "HΦ". c_bind. iApply cwp_malloc. iNext. iSplit.
  { c_bind. c_bind. iApply cwp_print; [rewrite Hgood; by right|]. iNext. iApply cwp_exit. }
  iIntros (st) "(%H0 & Hh & Hf & _)". c_bind. iApply cwp_assert; [done|]. c_bind. c_ret.
  c_store "Hf". c_ret. by iApply "HΦ".
Qed.

(** What [main] starts from. *)
Definition list_cells : iProp Σ :=
  ([∗ list] k ∈ seq 0 6, (count_increment ⟶ Z.of_nat k) ↦ VInt 0) ∗
  ([∗ list] k ∈ seq 0 7, (tids ⟶ Z.of_nat k) ↦ VUndef) ∗
  ([∗ list] k ∈ seq 0 6, (context1 ⟶ Z.of_nat k) ↦ VUndef).

Lemma list_cells_init slots :
  ([∗ map] l ↦ v ∈ mem (init_state slots), l ↦ v) ⊢ thread_slots ↦ VSem slots ∗ list_cells.
Proof.
  cbn [mem init_state]. rewrite big_sepM_insert; [|by vm_compute]. f_equiv.
  rewrite big_sepM_list_to_map; [|apply (bool_decide_unpack _); by vm_compute].
  unfold init_cells, list_cells. rewrite !big_sepL_app !big_sepL_fmap. done.
Qed.

Lemma alloc_counters :
  ([∗ list] k ∈ seq 0 6, (count_increment ⟶ Z.of_nat k) ↦ VInt 0) ={⊤}=∗ counters.
Proof.
  iIntros "H". iApply big_sepL_fupd. iApply (big_sepL_impl with "H").
  iIntros "!> %k %i _ H". iApply inv_alloc. iNext. by iExists 0.
Qed.

Lemma cwp_list_main size (str : Z → string) show decreasing after n Φ :
  0 ≤ size < INT_MAX → (∀ i, 1 ≤ i ≤ size → (String.length (str i) < SIZE_WORD)%nat) →
  (∀ s, ⊢ cwp (show s) (λ _, True)) →
  (let count cmp := wrap32 (Z.of_nat (neighbours cmp (str <$> seqZ 1 size))) in
   (⊢ cwp (after INCREASING (count Nat.ltb)) (λ _, True)) ∧
   (⊢ cwp (after DECREASING (count decreasing)) (λ _, True)) ∧
   (⊢ cwp (after EQUALS (count Nat.eqb)) (λ _, True))) →
  thread_slots ↦ VSem (7 + n) -∗ list_cells -∗
  cwp (list_main V size (λ i, VStr (str i)) show decreasing after) Φ.
Proof using All.
  iIntros (Hsize Hstr Hshow (Hi & Hd & He)) "Hn (Hcnt & Htids & Hctx)".
  iMod (alloc_counters with "Hcnt") as "#Hcnt".
  iDestruct "Htids" as "(Ht0 & Ht1 & Ht2 & Ht3 & Ht4 & Ht5 & Ht6 & _)".
  iDestruct "Hctx" as "(Hc1 & Hs1 & Hc2 & Hs2 & Hc3 & Hs3 & _)".
  change (context1 ⟶ Z.of_nat 2) with (context2 ⟶ thread).
  change (context1 ⟶ Z.of_nat 3) with (context2 ⟶ storage).
  change (context1 ⟶ Z.of_nat 4) with (context3 ⟶ thread).
  change (context1 ⟶ Z.of_nat 5) with (context3 ⟶ storage).
  c_bind. iApply cwp_create_storage. iNext. iIntros (st) "Hf".
  c_bind. iApply (cwp_init_storage with "Hf"); [done..|]. iIntros (ls) "Hls".
  iMod (share_list with "Hls") as "#Hls".
  c_bind. iApply (cwp_print_storage with "Hls"); [done|].
  c_bind. iApply (cwp_start _ _ _ True%I with "Hn Ht0 []");
    [by iApply (cwp_find _ _ _ _ _ 0 with "Hls Hcnt"); [lia|]|]. iNext. iIntros (t0) "Hn _ _".
  c_bind. iApply (cwp_start _ _ _ True%I with "Hn Ht1 []");
    [by iApply (cwp_find _ _ _ _ _ 1 with "Hls Hcnt"); [lia|]|]. iNext. iIntros (t1) "Hn _ _".
  c_bind. iApply (cwp_start _ _ _ True%I with "Hn Ht2 []");
    [by iApply (cwp_find _ _ _ _ _ 2 with "Hls Hcnt"); [lia|]|]. iNext. iIntros (t2) "Hn _ _".
  c_store "Hc1". c_store "Hs1". c_store "Hc2". c_store "Hs2". c_store "Hc3". c_store "Hs3".
  iMod (pt_persist with "Hc1") as "#Hc1". iMod (pt_persist with "Hs1") as "#Hs1".
  iMod (pt_persist with "Hc2") as "#Hc2". iMod (pt_persist with "Hs2") as "#Hs2".
  iMod (pt_persist with "Hc3") as "#Hc3". iMod (pt_persist with "Hs3") as "#Hs3".
  c_bind. iApply (cwp_start _ _ _ True%I with "Hn Ht3 []");
    [by iApply (cwp_random_swap _ _ _ _ _ _ 3 with "Hls Hcnt Hc1 Hs1"); lia|]. iNext. iIntros (t3) "Hn _ _".
  c_bind. iApply (cwp_start _ _ _ True%I with "Hn Ht4 []");
    [by iApply (cwp_random_swap _ _ _ _ _ _ 4 with "Hls Hcnt Hc2 Hs2"); lia|]. iNext. iIntros (t4) "Hn _ _".
  c_bind. iApply (cwp_start _ _ _ True%I with "Hn Ht5 []");
    [by iApply (cwp_random_swap _ _ _ _ _ _ 5 with "Hls Hcnt Hc3 Hs3"); lia|]. iNext. iIntros (t5) "Hn _ _".
  c_bind. iApply (cwp_start _ _ _ False%I with "Hn Ht6 []"); [by iApply cwp_monitor|].
  iNext. iIntros (t6) "Hn Ht6 Hj". c_load "Ht6". c_bind. c_bind.
  iApply (cwp_pthread_join with "Hj"). iNext. iIntros ">[]".
Qed.

End main.

(** ** What the variants share *)

(** [snprintf(new_value, sizeof(new_value), "create new node %d", n)]: the
    string; [snprintf] stores it with its terminator. *)
Definition node_value (size i : Z) : string :=
  String.substring 0 (SIZE_WORD - 1) ("create new node " +:+ pretty (size - i + 1)).

(** What a finished walk must have counted. *)
Definition check_counts (increasing decreasing equals : Z) (k counter : Z) : prog unit :=
  assert (bool_decide (counter = if decide (k = INCREASING) then increasing
                                 else if decide (k = DECREASING) then decreasing else equals))
    "counter".

Definition ignore_counts (k counter : Z) : prog unit := Ret tt.

Definition node_values (size : Z) : list string := node_value size <$> seqZ 1 size.
Definition count_of (size : Z) (cmp : nat → nat → bool) : Z :=
  Z.of_nat (neighbours cmp (node_values size)).

Lemma node_value_1000 i :
  1 ≤ i ≤ 1000 → (String.length (node_value 1000 i) < SIZE_WORD)%nat.
Proof.
  intros Hi. assert (Forall (λ j, String.length (node_value 1000 j) < SIZE_WORD)%nat
    (seqZ 1 1000)) as H by (apply (bool_decide_unpack _); vm_compute; exact Logic.I).
  rewrite Forall_forall in H. apply H. apply elem_of_seqZ. lia.
Qed.

(** The strings are "create new node 1000" down to "create new node 1": the
    length falls three times. *)
Lemma counts_1000 :
  count_of 1000 Nat.ltb = 0 ∧ count_of 1000 (λ a b, Nat.ltb b a) = 3 ∧
  count_of 1000 Nat.eqb = 996.
Proof. vm_compute. done. Qed.

(** A list program with a lock that meets its interface, safe and with the
    right counts. *)
Lemma cwp_list_1000 `{!cGS Σ} (V : variant) `{!NodeLock V} show decreasing after n Φ :
  c_good = list_ok →
  (∀ s, ⊢ cwp (show s) (λ _, True)) →
  (⊢ cwp (after INCREASING 0) (λ _, True)) →
  (⊢ cwp (after DECREASING (wrap32 (count_of 1000 decreasing))) (λ _, True)) →
  (⊢ cwp (after EQUALS 996) (λ _, True)) →
  thread_slots ↦ VSem (7 + n) -∗ list_cells -∗
  cwp (list_main V 1000 (λ i, VStr (node_value 1000 i)) show decreasing after) Φ.
Proof.
  intros Hgood Hshow Hi Hd He.
  apply (cwp_list_main V Hgood); [done|exact node_value_1000|done|].
  destruct counts_1000 as (Ci & _ & Ce). unfold count_of, node_values in *.
  split_and!; [by rewrite Ci|done|by rewrite Ce].
Qed.

Lemma list_globals_ok slots : blocks_ok (init_state slots).
Proof.
  apply globals_ok; [|simpl; lia]. apply map_Forall_insert_2; [done|].
  intros l v Hl%elem_of_list_to_map_2. revert l v Hl.
  assert (Forall (λ p : loc * cval, p.1.1 = 0%nat) init_cells) as H by by repeat constructor.
  rewrite Forall_forall in H. intros l v Hl. by apply (H (l, v)).
Qed.
