(* ===== verification/ListRw.v ===== *)
(** * ListRw: the list with read-write locks

    [semestr2/Task2/Task2_3/rwlock.c]. *)
From iris.proofmode Require Import proofmode.
From S2P Require Import Prelude Machine Logic Pthread ListCommon.
#[local] Open Scope Z_scope.

Definition SIZE_STORAGE : Z := 1000.

(** What is printed where: [find_decreasing] announces its unlocks only,
    [find_equals] its locks only. *)
Definition say (p : point) (k : Z) (l : loc) : prog unit :=
  let out fmt := print (EvOut fmt [k; address l]) in
  match p with
  | LockCurrent => if decide (k = DECREASING) then Ret tt else out "lock current node %d, %p"
  | LockFuture => if decide (k = DECREASING) then Ret tt else out "lock future node %d, %p"
  | UnlockCurrent => if decide (k = EQUALS) then Ret tt else out "UNlock current node %d, %p"
  | UnlockFuture => if decide (k = EQUALS) then Ret tt else out "UNlock future node %d, %p"
  | SwapStart => print (EvOut "number thread %d" [k])
  | SwapLockPrev => out "lock previous node %d %p"
  | SwapNoNext => print (EvOut "NULL prev->next" [])
  | SwapLockCur => out "lock current node %d %p"
  | SwapNoNextNext => print (EvOut "NULL prev->next->next" [])
  | SwapLockFuture | SwapUnlockFuture | SwapUnlockCur | SwapUnlockPrev => Ret tt
  | WarnEmpty =>
      print (EvErr (if decide (k ≤ EQUALS) then "warn: storage is empty"
                    else "warn: there are less, than two items in the value"))
  end.

Definition rw : variant :=
  Variant (VRw 0 false) pthread_rwlock_rdlock pthread_rwlock_wrlock pthread_rwlock_unlock say.

Definition init_storage : loc → prog unit :=
  ListCommon.init_storage (VRw 0 false) SIZE_STORAGE (λ i, VStr (node_value SIZE_STORAGE i)).
Definition print_storage : loc → prog unit :=
  ListCommon.print_storage (λ s, print (EvStr "%s " s)).

Definition find_increasing (after : Z → prog unit) : loc → prog unit :=
  find rw Nat.ltb INCREASING after.
Definition find_decreasing (after : Z → prog unit) : loc → prog unit :=
  find rw (λ a b, Nat.ltb b a) DECREASING after.
Definition find_equals (after : Z → prog unit) : loc → prog unit :=
  find rw Nat.eqb EQUALS after.
Definition random_swap : loc → prog unit := ListCommon.random_swap rw SIZE_STORAGE.

(** [main], with a look at [counter] after every walk. *)
Definition main_checked (after : Z → Z → prog unit) : prog Z :=
  list_main rw SIZE_STORAGE (λ i, VStr (node_value SIZE_STORAGE i))
    (λ s, print (EvStr "%s " s)) (λ a b, Nat.ltb b a) after.
Definition main : prog Z := main_checked ignore_counts.

(** ** Verification *)

#[local] Program Instance rw_node_lock `{!cGS Σ, !condG Σ} (Hgood : c_good = list_ok) :
  NodeLock rw := {|
  nl_inv := is_rwlock;
  nl_held := λ γ _, waiter γ;
|}.
Next Obligation. intros. apply is_rwlock_alloc. Qed.
Next Obligation. intros. apply cwp_rdlock. Qed.
Next Obligation. intros. apply cwp_wrlock. Qed.
Next Obligation. intros. apply cwp_rwunlock. Qed.
Next Obligation.
  iIntros (Σ ? ? Hgood p k l Φ) "HΦ". cbn [rw ListCommon.say]. unfold say.
  destruct p; try case_decide; (by c_ret) || (iApply cwp_print; [by rewrite Hgood|done]).
Qed.

Lemma rw_list_spec after n :
  (∀ `{!cGS Σ}, c_good = list_ok → (⊢ cwp (after INCREASING 0) (λ _, True)) ∧
     (⊢ cwp (after DECREASING 3) (λ _, True)) ∧ (⊢ cwp (after EQUALS 996) (λ _, True))) →
  ∀ ps σ, rtc cstep ([process (main_checked after)], init_state (7 + n)) (ps, σ) →
  Forall (λ p, ¬ faulting σ p) ps ∧ Forall list_ok (out σ).
Proof.
  intros Hafter ps σ. apply (pool_safe #[cΣ; condΣ] list_ok); [apply list_globals_ok|done|].
  intros HC Hgood. rewrite list_cells_init. iIntros "[Hn Hc] !>".
  rewrite big_sepL_singleton. c_bind.
  destruct (Hafter _ _ Hgood) as (Hi & Hd & He). pose (rw_node_lock Hgood).
  iApply (cwp_list_1000 with "Hn Hc"); [done| |done|done|done].
  intros s. iStartProof. iApply cwp_print; [by rewrite Hgood|done].
Qed.

(** C29. With room for the seven threads, no interleaving of the program goes
    wrong: every access is to a live node, every lock is released by a thread
    that holds it, no null pointer is followed, and no assertion but those
    about [malloc] fails.  (Without that room, [main] joins a [tid] that nobody
    has stored.) *)
Theorem rw_list_safe n ps σ :
  rtc cstep ([process main], init_state (7 + n)) (ps, σ) →
  Forall (λ p, ¬ faulting σ p) ps ∧ Forall list_ok (out σ).
Proof.
  apply rw_list_spec. intros Σ HC Hgood. split_and!; iStartProof; by c_ret.
Qed.

(** C16. With room for the seven threads, in every interleaving, every finished walk has counted right: of the 999
    pairs of neighbours none increases in length, 3 decrease and 996 are
    equal.  (The program drops [counter]; here it is asserted.) *)
Theorem rw_list_counts n ps σ :
  rtc cstep ([process (main_checked (check_counts 0 3 996))], init_state (7 + n)) (ps, σ) →
  Forall (λ p, ¬ faulting σ p) ps ∧ Forall list_ok (out σ).
Proof.
  apply rw_list_spec. intros Σ HC Hgood. split_and!; iStartProof; by iApply cwp_assert.
Qed.

(** Building the list, then the threads in rotation. *)
Lemma rw_list_safe_witness :
  let ρ := run_sched (replicate 3000 (0, 0)%nat ++ flat_map (λ i, (λ t, (t, i)) <$> seq 0 8) (seq 0 50)) ([process main], init_state 7) in
  Forall (λ p, ¬ faulting ρ.2 p) ρ.1 ∧ Forall list_ok (out ρ.2).
Proof. apply (rw_list_safe 0). apply run_sched_reaches. Defined.

(** Building the list, then the threads in rotation. *)
Lemma rw_list_counts_witness :
  let ρ := run_sched (replicate 3000 (0, 0)%nat ++ flat_map (λ i, (λ t, (t, i)) <$> seq 0 8) (seq 0 50)) ([process (main_checked (check_counts 0 3 996))], init_state 7) in
  Forall (λ p, ¬ faulting ρ.2 p) ρ.1 ∧ Forall list_ok (out ρ.2).
Proof. apply (rw_list_counts 0). apply run_sched_reaches. Defined.
