(* ===== verification/ListSpin.v ===== *)
(** * ListSpin: the list with spin locks

    [semestr2/Task2/Task2_3/spinlock.c]. *)
From iris.proofmode Require Import proofmode.
From S2P Require Import Prelude Machine Logic Pthread ListCommon.
#[local] Open Scope Z_scope.

Definition SIZE_STORAGE : Z := 1000.

(** This source prints at every point. *)
Definition say (p : point) (k : Z) (l : loc) : prog unit :=
  let out fmt := print (EvOut fmt [k; address l]) in
  match p with
  | LockCurrent => out "lock current node %d, %p"
  | LockFuture => out "lock future node %d, %p"
  | UnlockCurrent => out "UNlock current node %d, %p"
  | UnlockFuture => out "UNlock future node %d, %p"
  | SwapStart => print (EvOut "number thread %d" [k])
  | SwapLockPrev => out "lock previous node %d %p"
  | SwapNoNext => print (EvOut "NULL prev->next" [])
  | SwapLockCur => out "lock current node %d %p"
  | SwapNoNextNext => print (EvOut "NULL prev->next->next" [])
  | SwapLockFuture => out "lock future node %d %p"
  | SwapUnlockFuture => out "UNlock future node %d %p"
  | SwapUnlockCur => out "UNlock current node %d %p"
  | SwapUnlockPrev => out "UNlock previous node %d %p"
  | WarnEmpty =>
      print (EvErr (if decide (k ≤ EQUALS) then "warn: storage is empty"
                    else "warn: there are less, than two items in the value"))
  end.

(** Readers and writers take the same lock. *)
Definition spin : variant :=
  Variant (VLock SpinLock false) pthread_spin_lock pthread_spin_lock pthread_spin_unlock say.

Definition create_node : cval → prog loc := ListCommon.create_node (VLock SpinLock false).
Definition init_storage : loc → prog unit :=
  ListCommon.init_storage (VLock SpinLock false) SIZE_STORAGE
    (λ i, VStr (node_value SIZE_STORAGE i)).
Definition print_storage : loc → prog unit :=
  ListCommon.print_storage (λ s, print (EvStr "%s " s)).

(** [find_decreasing] compares with [<], like [find_increasing]. *)
Definition find_increasing (after : Z → prog unit) : loc → prog unit :=
  find spin Nat.ltb INCREASING after.
Definition find_decreasing (after : Z → prog unit) : loc → prog unit :=
  find spin Nat.ltb DECREASING after.
Definition find_equals (after : Z → prog unit) : loc → prog unit :=
  find spin Nat.eqb EQUALS after.
Definition swap_nodes (prev cur future : ptr) : prog unit :=
  print (EvOut "swap nodes" []);; ListCommon.swap_nodes prev cur future.
Definition random_swap : loc → prog unit := ListCommon.random_swap spin SIZE_STORAGE.

(** [main], with a look at [counter] after every walk. *)
Definition main_checked (after : Z → Z → prog unit) : prog Z :=
  list_main spin SIZE_STORAGE (λ i, VStr (node_value SIZE_STORAGE i))
    (λ s, print (EvStr "%s " s)) Nat.ltb after.
Definition main : prog Z := main_checked ignore_counts.

(** ** Verification *)

#[local] Program Instance spin_node_lock `{!cGS Σ} (Hgood : c_good = list_ok) :
  NodeLock spin := {|
  nl_inv := λ _ l, is_lock (VLock SpinLock false) (VLock SpinLock true) l True;
  nl_held := λ _ l, locked (VLock SpinLock true) l;
|}.
Next Obligation.
  iIntros (Σ ? Hgood l) "Hl". iExists 1%positive. by iApply (is_lock_alloc with "Hl").
Qed.
Next Obligation.
  iIntros (Σ ? Hgood γ l Φ) "#Hlk HΦ". iApply (cwp_lock with "Hlk"). iNext. iIntros "Hl _".
  by iApply "HΦ".
Qed.
Next Obligation.
  iIntros (Σ ? Hgood γ l Φ) "#Hlk HΦ". iApply (cwp_lock with "Hlk"). iNext. iIntros "Hl _".
  by iApply "HΦ".
Qed.
Next Obligation.
  iIntros (Σ ? Hgood γ l Φ) "#Hlk Hl HΦ". by iApply (cwp_unlock with "Hlk Hl").
Qed.
Next Obligation.
  iIntros (Σ ? Hgood p k l Φ) "HΦ". cbn [spin ListCommon.say]. unfold say.
  destruct p; (iApply cwp_print; [by rewrite Hgood|done]).
Qed.

Lemma spin_list_spec after n :
  (∀ `{!cGS Σ}, c_good = list_ok → (⊢ cwp (after INCREASING 0) (λ _, True)) ∧
     (⊢ cwp (after DECREASING 0) (λ _, True)) ∧ (⊢ cwp (after EQUALS 996) (λ _, True))) →
  ∀ ps σ, rtc cstep ([process (main_checked after)], init_state (7 + n)) (ps, σ) →
  Forall (λ p, ¬ faulting σ p) ps ∧ Forall list_ok (out σ).
Proof.
  intros Hafter ps σ. apply (pool_safe cΣ list_ok); [apply list_globals_ok|done|].
  intros HC Hgood. rewrite list_cells_init. iIntros "[Hn Hc] !>".
  rewrite big_sepL_singleton. c_bind.
  destruct (Hafter _ _ Hgood) as (Hi & Hd & He). pose (spin_node_lock Hgood).
  iApply (cwp_list_1000 with "Hn Hc"); [done| |done|done|done].
  intros s. iStartProof. iApply cwp_print; [by rewrite Hgood|done].
Qed.

(** With room for the seven threads, no interleaving of the program goes
    wrong. *)
Theorem spin_list_safe n ps σ :
  rtc cstep ([process main], init_state (7 + n)) (ps, σ) →
  Forall (λ p, ¬ faulting σ p) ps ∧ Forall list_ok (out σ).
Proof.
  apply spin_list_spec. intros Σ HC Hgood. split_and!; iStartProof; by c_ret.
Qed.

(** Every walk of [find_decreasing] counts 0 although three pairs decrease: it
    counts the increasing pairs again. *)
Theorem spin_list_counts n ps σ :
  rtc cstep ([process (main_checked (check_counts 0 0 996))], init_state (7 + n)) (ps, σ) →
  Forall (λ p, ¬ faulting σ p) ps ∧ Forall list_ok (out σ).
Proof.
  apply spin_list_spec. intros Σ HC Hgood. split_and!; iStartProof; by iApply cwp_assert.
Qed.

(** Building the list, then the threads in rotation. *)
Lemma spin_list_safe_witness :
  let ρ := run_sched (replicate 3000 (0, 0)%nat ++ flat_map (λ i, (λ t, (t, i)) <$> seq 0 8) (seq 0 50)) ([process main], init_state 7) in
  Forall (λ p, ¬ faulting ρ.2 p) ρ.1 ∧ Forall list_ok (out ρ.2).
Proof. apply (spin_list_safe 0). apply run_sched_reaches. Defined.

(** Building the list, then the threads in rotation. *)
Lemma spin_list_counts_witness :
  let ρ := run_sched (replicate 3000 (0, 0)%nat ++ flat_map (λ i, (λ t, (t, i)) <$> seq 0 8) (seq 0 50)) ([process (main_checked (check_counts 0 0 996))], init_state 7) in
  Forall (λ p, ¬ faulting ρ.2 p) ρ.1 ∧ Forall list_ok (out ρ.2).
Proof. apply (spin_list_counts 0). apply run_sched_reaches. Defined.
