(* ===== verification/ListMutex.v ===== *)
(** * ListMutex: the list with mutexes

    [semestr2/Task2/Task2_3/main.c].  All output but the monitor's is
    commented out, and with it the [snprintf] that fills [new_value]: as
    committed the first [create_node] copies an indeterminate string.  The
    theorems say that, and that with any strings in [new_value] the threads
    are right. *)
From iris.proofmode Require Import proofmode.
From S2P Require Import Prelude Machine Logic Pthread ListCommon.
#[local] Open Scope Z_scope.

Definition SIZE_STORAGE : Z := 100.

Definition mutexes : variant :=
  Variant (VLock MutexLock false) pthread_mutex_lock pthread_mutex_lock pthread_mutex_unlock
    (λ _ _ _, Ret tt).

Definition create_node : cval → prog loc := ListCommon.create_node (VLock MutexLock false).

(** [fill] is [new_value], which the source never writes: [no_value]. *)
Definition no_value (i : Z) : cval := VUndef.
Definition init_storage (fill : Z → cval) : loc → prog unit :=
  ListCommon.init_storage (VLock MutexLock false) SIZE_STORAGE fill.
Definition print_storage : loc → prog unit := ListCommon.print_storage (λ _, Ret tt).

(** [find_decreasing] compares with [<], like [find_increasing]. *)
Definition find_increasing (after : Z → prog unit) : loc → prog unit :=
  find mutexes Nat.ltb INCREASING after.
Definition find_decreasing (after : Z → prog unit) : loc → prog unit :=
  find mutexes Nat.ltb DECREASING after.
Definition find_equals (after : Z → prog unit) : loc → prog unit :=
  find mutexes Nat.eqb EQUALS after.
Definition random_swap : loc → prog unit := ListCommon.random_swap mutexes SIZE_STORAGE.

Definition main_with (fill : Z → cval) : prog Z :=
  list_main mutexes SIZE_STORAGE fill (λ _, Ret tt) Nat.ltb ignore_counts.
Definition main : prog Z := main_with no_value.

(** ** Verification *)

#[local] Program Instance mutex_node_lock `{!cGS Σ} : NodeLock mutexes := {|
  nl_inv := λ _ l, is_lock (VLock MutexLock false) (VLock MutexLock true) l True;
  nl_held := λ _ l, locked (VLock MutexLock true) l;
|}.
Next Obligation.
  iIntros (Σ ? l) "Hl". iExists 1%positive. by iApply (is_lock_alloc with "Hl").
Qed.
Next Obligation.
  iIntros (Σ ? γ l Φ) "#Hlk HΦ". iApply (cwp_lock with "Hlk"). iNext. iIntros "Hl _".
  by iApply "HΦ".
Qed.
Next Obligation.
  iIntros (Σ ? γ l Φ) "#Hlk HΦ". iApply (cwp_lock with "Hlk"). iNext. iIntros "Hl _".
  by iApply "HΦ".
Qed.
Next Obligation.
  iIntros (Σ ? γ l Φ) "#Hlk Hl HΦ". by iApply (cwp_unlock with "Hlk Hl").
Qed.
Next Obligation. iIntros (Σ ? p k l Φ) "HΦ". by c_ret. Qed.

(** The committed program reads an uninitialised buffer at its ninth step,
    whatever the environment answers once memory is available. *)
Theorem mutex_list_uninitialised slots :
  faults_after (replicate 9 (0, 0)%nat) ([process main], init_state slots) = true.
Proof. vm_compute. reflexivity. Qed.

(** With strings in [new_value] and room for the seven threads, no
    interleaving goes wrong. *)
Theorem mutex_list_safe (str : Z → string) n ps σ :
  (∀ i, 1 ≤ i ≤ SIZE_STORAGE → (String.length (str i) < SIZE_WORD)%nat) →
  rtc cstep ([process (main_with (λ i, VStr (str i)))], init_state (7 + n)) (ps, σ) →
  Forall (λ p, ¬ faulting σ p) ps ∧ Forall list_ok (out σ).
Proof.
  intros Hstr. apply (pool_safe cΣ list_ok); [apply list_globals_ok|done|].
  intros HC Hgood. rewrite list_cells_init. iIntros "[Hn Hc] !>".
  rewrite big_sepL_singleton. c_bind.
  iApply (cwp_list_main mutexes Hgood with "Hn Hc"); [done|done| |].
  - intros s. iStartProof. by c_ret.
  - split_and!; iStartProof; by c_ret.
Qed.

(** Every node holding "node", the threads in rotation. *)
Lemma mutex_list_safe_witness :
  let ρ := run_sched (replicate 3000 (0, 0)%nat ++
                      flat_map (λ i, (λ t, (t, i)) <$> seq 0 8) (seq 0 50))
             ([process (main_with (λ i, VStr "node"))], init_state 7) in
  Forall (λ p, ¬ faulting ρ.2 p) ρ.1 ∧ Forall list_ok (out ρ.2).
Proof.
  apply (mutex_list_safe (λ _, "node"%string) 0); [|apply run_sched_reaches].
  intros i _. simpl. unfold SIZE_WORD. lia.
Defined.
