(* ===== verification/CString.v ===== *)
(** * CString: character arrays

    What the sequential programs use of the C string library, on arrays
    modelled as lists of characters of fixed length.  Reading or writing
    outside an array is undefined: [None]. *)
From stdpp Require Import base list numbers strings.
From iris.prelude Require Import prelude.
From Stdlib Require Import Ascii.
From Stdlib Require String.
From S2P Require Import Prelude.

Definition NUL : ascii := zero.
Definition buffer : Type := list ascii.

(** Characters of a literal. *)
Definition chars (s : string) : list ascii := String.list_ascii_of_string s.

(** A C string in the making: no terminator inside. *)
Definition no_nul (s : list ascii) : Prop := NUL ∉ s.

#[global] Instance no_nul_dec s : Decision (no_nul s).
Proof. unfold no_nul. apply _. Defined.

(** [strlen]: the distance to the first terminator; running off the array is
    undefined. *)
Fixpoint strlen (b : buffer) : option nat :=
  match b with
  | [] => None
  | c :: b' => if decide (c = NUL) then Some 0%nat else S <$> strlen b'
  end.

(** The string an array holds. *)
Definition cstr (b : buffer) : option (list ascii) := n ← strlen b; Some (take n b).

(** Overwrite from position [i]. *)
Definition write_at (b : buffer) (i : nat) (s : list ascii) : option buffer :=
  if decide (i + length s ≤ length b)%nat
  then Some (take i b ++ s ++ drop (i + length s) b) else None.

(** [strncpy(dst, src, n)] of a string: [n] characters, padded with
    terminators when [src] is shorter. *)
Definition strncpy (dst : buffer) (src : list ascii) (n : nat) : option buffer :=
  write_at dst 0 (take n src ++ replicate (n - length src) NUL).

(** [sprintf(dst, ...)] producing [s]. *)
Definition sprintf (dst : buffer) (s : list ascii) : option buffer :=
  write_at dst 0 (s ++ [NUL]).

(** [snprintf(dst, n, ...)] producing [s]: at most [n - 1] characters and the
    terminator. *)
Definition snprintf (dst : buffer) (n : nat) (s : list ascii) : option buffer :=
  match n with
  | O => Some dst
  | S n' => write_at dst 0 (take n' s ++ [NUL])
  end.

(** [strcat(dst, src)]: appends behind the terminator of [dst]. *)
Definition strcat (dst : buffer) (src : list ascii) : option buffer :=
  n ← strlen dst; write_at dst n (src ++ [NUL]).

(** [memset(dst, 0, n)] *)
Definition memset0 (dst : buffer) (n : nat) : option buffer :=
  write_at dst 0 (replicate n NUL).

(** Bytes [d] stored from position [p] into an array or a file whose contents
    [out] are followed by zeros; storing nothing changes nothing. *)
Definition overwrite (out : list ascii) (p : nat) (d : list ascii) : list ascii :=
  match d with
  | [] => out
  | _ => take p (out ++ replicate (p - length out) NUL) ++ d ++ drop (p + length d) out
  end.

(** [strstr(s, needle)]: the offset of the first occurrence. *)
Fixpoint strstr (s needle : list ascii) : option nat :=
  if decide (take (length needle) s = needle) then Some 0%nat
  else match s with [] => None | _ :: s' => S <$> strstr s' needle end.

(** [memccpy(dst, src, c, n)]: what is copied and whether [c] was found. *)
Fixpoint memccpy (src : list ascii) (c : ascii) (n : nat) : option (list ascii * bool) :=
  match n, src with
  | O, _ => Some ([], false)
  | S _, [] => None
  | S n', x :: src' =>
      if decide (x = c) then Some ([x], true)
      else '(r, found) ← memccpy src' c n'; Some (x :: r, found)
  end.

(** The characters in front of the first terminator. *)
Fixpoint until_nul (b : list ascii) : list ascii :=
  match b with
  | [] => []
  | c :: b' => if decide (c = NUL) then [] else c :: until_nul b'
  end.

(** ** Laws *)

Lemma no_nul_app s s' : no_nul s → no_nul s' → no_nul (s ++ s').
Proof. unfold no_nul. set_solver. Qed.
Lemma no_nul_split s s' : no_nul (s ++ s') → no_nul s ∧ no_nul s'.
Proof. unfold no_nul. by rewrite not_elem_of_app. Qed.

Lemma until_nul_id s : no_nul s → until_nul s = s.
Proof.
  unfold no_nul. induction s as [|c s IH]; intros Hs; [done|]. simpl.
  rewrite decide_False; [|set_solver]. f_equal. apply IH. set_solver.
Qed.

Lemma length_until_nul b : (length (until_nul b) ≤ length b)%nat.
Proof. induction b as [|c b IH]; simpl; [lia|]. case_decide; simpl; lia. Qed.

Lemma overwrite_end out d : overwrite out (length out) d = out ++ d.
Proof.
  destruct d as [|c d]; [by rewrite app_nil_r|]. unfold overwrite.
  rewrite Nat.sub_diag app_nil_r take_ge // drop_ge ?app_nil_r //. lia.
Qed.

Lemma overwrite_gap n d :
  overwrite [] n d = match d with [] => [] | _ => replicate n NUL ++ d end.
Proof.
  destruct d as [|c d]; [done|]. unfold overwrite. rewrite drop_nil app_nil_r Nat.sub_0_r.
  rewrite take_ge //. simpl. rewrite length_replicate. lia.
Qed.

Lemma overwrite_front n d s :
  overwrite (replicate (n + length d) NUL ++ s) n d = replicate n NUL ++ d ++ s.
Proof.
  destruct d as [|c d]; [by rewrite Nat.add_0_r|]. unfold overwrite.
  assert (n - length (replicate (n + length (c :: d)) NUL ++ s) = 0)%nat as ->.
  { rewrite length_app length_replicate. lia. }
  rewrite app_nil_r replicate_add -app_assoc.
  rewrite take_app_le; [|rewrite length_replicate; lia].
  rewrite take_ge; [|rewrite length_replicate; lia]. f_equal. f_equal.
  rewrite app_assoc drop_app_ge; rewrite length_app !length_replicate; [|lia].
  by rewrite Nat.sub_diag.
Qed.

Lemma strlen_app s b : no_nul s → strlen (s ++ NUL :: b) = Some (length s).
Proof.
  unfold no_nul. induction s as [|c s IH]; intros Hs; [done|]. simpl.
  rewrite decide_False; [|set_solver]. rewrite IH; [done|set_solver].
Qed.

Lemma cstr_app s b : no_nul s → cstr (s ++ NUL :: b) = Some s.
Proof. intros Hs. unfold cstr. rewrite strlen_app //=. by rewrite take_app_length. Qed.

(** A string fills its array: no room is left for the terminator. *)
Lemma strlen_full s : no_nul s → strlen s = None.
Proof.
  unfold no_nul. induction s as [|c s IH]; intros Hs; [done|]. simpl.
  rewrite decide_False; [|set_solver]. rewrite IH; [done|set_solver].
Qed.

(** What [strlen] measures. *)
Lemma strlen_split b n :
  strlen b = Some n → ∃ s b', b = s ++ NUL :: b' ∧ no_nul s ∧ length s = n.
Proof.
  unfold no_nul. revert n. induction b as [|c b IH]; intros n; [done|]. simpl. case_decide.
  - intros [= <-]. subst c. exists [], b. split; [done|]. split; [apply not_elem_of_nil|done].
  - intros (m & Hm & ->)%fmap_Some. destruct (IH m Hm) as (s & b' & -> & Hs & <-).
    exists (c :: s), b'. split; [done|]. split; [set_solver|done].
Qed.

Lemma strlen_lt b n : strlen b = Some n → (n < length b)%nat.
Proof.
  revert n. induction b as [|c b IH]; intros n; [done|]. simpl. case_decide.
  - intros [= <-]. lia.
  - intros (m & Hm & ->)%fmap_Some. specialize (IH _ Hm). lia.
Qed.

Lemma write_at_0 b s :
  (length s ≤ length b)%nat → write_at b 0 s = Some (s ++ drop (length s) b).
Proof. intros Hs. unfold write_at. simpl. by rewrite decide_True. Qed.

Lemma length_write_at b i s b' : write_at b i s = Some b' → length b' = length b.
Proof.
  unfold write_at. case_decide; [|done]. intros [= <-].
  rewrite !length_app length_take length_drop. lia.
Qed.

(** [strncpy] of the whole string: no terminator is written. *)
Lemma strncpy_whole b s :
  (length s ≤ length b)%nat → strncpy b s (length s) = Some (s ++ drop (length s) b).
Proof.
  intros Hs. unfold strncpy. rewrite Nat.sub_diag take_ge; [|lia].
  rewrite app_nil_r. by apply write_at_0.
Qed.

Lemma sprintf_ok b s :
  (length s < length b)%nat → sprintf b s = Some (s ++ NUL :: drop (S (length s)) b).
Proof.
  intros Hs. unfold sprintf. rewrite write_at_0; [|rewrite length_app /=; lia].
  rewrite length_app /= -app_assoc Nat.add_1_r. done.
Qed.

Lemma sprintf_overflow b s : (length b ≤ length s)%nat → sprintf b s = None.
Proof.
  intros Hs. unfold sprintf, write_at. rewrite decide_False; [done|].
  rewrite length_app /=. lia.
Qed.

Lemma memset0_ok b n :
  (n ≤ length b)%nat → memset0 b n = Some (replicate n NUL ++ drop n b).
Proof. intros Hn. unfold memset0. rewrite write_at_0; rewrite length_replicate //. Qed.

Create HintDb cstring discriminated.
#[export] Hint Resolve length_write_at strlen_lt : cstring.
