(* ===== verification/Steps.v ===== *)
(** * Steps: transition systems with labels

    Outcomes of a step, reachability, schedules, and the exploration of a
    finite state space, shared by the components that are state machines. *)
From stdpp Require Import base list.
From iris.prelude Require Import prelude.
From S2P Require Import Prelude.
#[local] Open Scope nat_scope.

(** A step leads on, is undefined in C, or is not possible (the call blocks,
    or would not answer like that). *)
Inductive outcome (A : Type) : Type :=
| Next (x : A)
| Undefined
| Disabled.
Arguments Next {A} x.
Arguments Undefined {A}.
Arguments Disabled {A}.

(** [None] is undefined, or not possible. *)
Definition defined {A B} (o : option A) (k : A → outcome B) : outcome B :=
  match o with Some x => k x | None => Undefined end.
Definition possible {A B} (o : option A) (k : A → outcome B) : outcome B :=
  match o with Some x => k x | None => Disabled end.

Lemma defined_Next {A B} (o : option A) (k : A → outcome B) y :
  defined o k = Next y → ∃ x, o = Some x ∧ k x = Next y.
Proof. destruct o; naive_solver. Qed.
Lemma possible_Next {A B} (o : option A) (k : A → outcome B) y :
  possible o k = Next y → ∃ x, o = Some x ∧ k x = Next y.
Proof. destruct o; naive_solver. Qed.
Lemma defined_not_Disabled {A B} (o : option A) (k : A → outcome B) :
  (∀ x, o = Some x → k x ≠ Disabled) → defined o k ≠ Disabled.
Proof. destruct o; naive_solver. Qed.

(** ** Runs *)

Section system.
Context {L S : Type} (step : L → S → outcome S).

(** Play a schedule. *)
Fixpoint run (sched : list L) (s : S) : outcome S :=
  match sched with
  | [] => Next s
  | l :: sched' =>
      match step l s with
      | Next s' => run sched' s'
      | Undefined => Undefined
      | Disabled => Disabled
      end
  end.

Context (init : S).

Inductive reachable : S → Prop :=
| reachable_init : reachable init
| reachable_step l s s' : reachable s → step l s = Next s' → reachable s'.

Lemma run_reachable sched s s' : reachable s → run sched s = Next s' → reachable s'.
Proof.
  revert s. induction sched as [|l sched IH]; intros s Hs; simpl; [by intros [= <-]|].
  destruct (step l s) eqn:E; [|done..]. apply IH. by eapply reachable_step.
Qed.

Lemma run_app sched sched' s :
  run (sched ++ sched') s =
  match run sched s with Next s' => run sched' s' | Undefined => Undefined | Disabled => Disabled end.
Proof.
  revert s. induction sched as [|l sched IH]; intros s; simpl; [done|].
  by destruct (step l s).
Qed.

(** What a property of every reachable state needs. *)
Lemma invariant_reachable (P : S → Prop) :
  P init → (∀ l s s', P s → step l s = Next s' → P s') → ∀ s, reachable s → P s.
Proof. intros Hi Hs s Hr. induction Hr; eauto. Qed.

(** ** Exploration

    For finitely many labels: a list of states that contains the initial one
    and all successors of its members contains every reachable state. *)
Context (labels : list L) (labels_all : ∀ l, l ∈ labels).
Context `{!EqDecision S}.

Definition member (s : S) (l : list S) : bool := existsb (λ s', bool_decide (s = s')) l.

Definition succs (s : S) : list S :=
  remove_dups (omap (λ l, match step l s with Next s' => Some s' | _ => None end) labels).

Fixpoint explore (fuel : nat) (todo seen : list S) : list S :=
  match fuel, todo with
  | Datatypes.S fuel', s :: todo' =>
      if member s seen then explore fuel' todo' seen
      else explore fuel' (succs s ++ todo') (s :: seen)
  | _, _ => seen
  end.

Definition closed (seen : list S) : bool :=
  member init seen && forallb (λ s, forallb (λ s', member s' seen) (succs s)) seen.

Lemma member_ok s l : member s l = true → s ∈ l.
Proof.
  unfold member. intros (s' & Hin & ->%bool_decide_eq_true_1)%existsb_exists.
  by apply list_elem_of_In.
Qed.

Lemma closed_reachable seen s : closed seen = true → reachable s → s ∈ seen.
Proof.
  intros [Hi Hc]%andb_true_iff Hr. induction Hr as [|l s s' _ IH Hs]; [by apply member_ok|].
  rewrite forallb_forall in Hc. apply list_elem_of_In, Hc in IH. rewrite forallb_forall in IH.
  apply member_ok, IH, list_elem_of_In. unfold succs. apply elem_of_remove_dups, list_elem_of_omap.
  exists l. split; [done|]. by rewrite Hs.
Qed.

(** Explore with so much fuel, see that nothing is missing, and test [P]. *)
Definition check_states (fuel : nat) (P : S → bool) : bool :=
  let seen := explore fuel [init] [] in closed seen && forallb P seen.

(** A property that passes the test holds of every reachable state. *)
Lemma check_reachable fuel P s : check_states fuel P = true → reachable s → P s = true.
Proof.
  unfold check_states. intros [Hc HP]%andb_true_iff Hr. rewrite forallb_forall in HP.
  by eapply HP, list_elem_of_In, closed_reachable.
Qed.

End system.

(** ** Fair schedules

    A system whose threads can only wait or come closer to the end, and in
    which somebody who must be scheduled can always come closer, ends under
    every schedule that gives everybody enough turns. *)
Section fair.
Context {L S : Type} (exec : L → S → S) (inv final : S → Prop) (measure : S → nat) (labels : list L).
Context (inv_exec : ∀ l s, inv s → inv (exec l s)).
Context (final_exec : ∀ l s, final s → final (exec l s)).
Context (exec_lower : ∀ l s, inv s → exec l s = s ∨ measure (exec l s) < measure s).
Context (progress : ∀ s, inv s → final s ∨ ∃ l, l ∈ labels ∧ measure (exec l s) < measure s).

Definition exec_all (sched : list L) (s : S) : S := foldl (λ s l, exec l s) s sched.

Lemma exec_all_inv sched s : inv s → inv (exec_all sched s).
Proof. revert s. induction sched as [|l sched IH]; intros s Hs; simpl; auto. Qed.

Lemma exec_all_final sched s : final s → final (exec_all sched s).
Proof. revert s. induction sched as [|l sched IH]; intros s Hs; simpl; auto. Qed.

Lemma exec_all_lower sched s : inv s → measure (exec_all sched s) ≤ measure s.
Proof.
  revert s. induction sched as [|l sched IH]; intros s Hs; simpl; [done|].
  specialize (IH (exec l s) (inv_exec _ _ Hs)). destruct (exec_lower l s Hs) as [E|E]; [by rewrite E in IH |- *|lia].
Qed.

(** A turn for everybody brings the end closer. *)
Lemma turn_lower turn s :
  inv s → (∀ l, l ∈ labels → l ∈ turn) → final s ∨ measure (exec_all turn s) < measure s.
Proof.
  intros Hs Hall. destruct (progress s Hs) as [Hf|(l & Hl & Hlow)]; [by left|right].
  apply Hall in Hl. clear Hall. induction turn as [|l' turn IH]; [by apply elem_of_nil in Hl|].
  simpl. pose proof (exec_all_lower turn (exec l' s) (inv_exec _ _ Hs)) as Hle.
  destruct (exec_lower l' s Hs) as [E|E]; [|lia]. rewrite E.
  apply elem_of_cons in Hl as [->|Hl]; [rewrite E in Hlow; lia|by apply IH].
Qed.

Lemma fair_termination turns s :
  inv s → Forall (λ turn, ∀ l, l ∈ labels → l ∈ turn) turns → measure s < length turns →
  final (exec_all (concat turns) s).
Proof.
  intros Hs Hturns. revert s Hs. induction Hturns as [|turn turns Hturn _ IH]; intros s Hs Hm; [simpl in Hm; lia|].
  simpl in *. unfold exec_all. rewrite foldl_app. fold (exec_all turn s).
  change (final (exec_all (concat turns) (exec_all turn s))).
  destruct (turn_lower turn s Hs Hturn) as [Hf|Hlow]; [by apply exec_all_final, exec_all_final|].
  apply IH; [by apply exec_all_inv|]. lia.
Qed.

End fair.
