(* ===== verification/QueueLive.v ===== *)
(** * QueueLive: the condition variable never leaves both threads asleep

    Liveness of the queue of [semestr2/Task2/Task2_2/cond-var]: the writer and
    the reader of [queue-thread-condvar.c] calling [queue_add] and [queue_get]
    of [queue-condvar.c] for ever.  A step is a call on the mutex or the
    condition variable, or the statements between two such calls: the mutex is
    held there ([QueueCond.cond_queue_safe] shows on the level of single memory
    accesses that the statements are safe), so nobody else sees them half done.
    A sleeping thread may wake up without a signal; [malloc] may fail. *)
From stdpp Require Import base list numbers.
From iris.prelude Require Import prelude.
From Stdlib Require Import ZArith.
From S2P Require Import Prelude Steps.
#[local] Open Scope nat_scope.

(** [enum EVENT] *)
Inductive event : Set := OK | NOK.

Inductive role : Set := Writer | Reader.

#[global] Instance event_eq_dec : EqDecision event.
Proof. solve_decision. Defined.
#[global] Instance role_eq_dec : EqDecision role.
Proof. solve_decision. Defined.

(** Where a thread is in [queue_add] or [queue_get]. *)
Inductive pc : Set :=
| Lock                                   (* pthread_mutex_lock *)
| Check                                  (* the condition of the while, and pthread_cond_wait *)
| Sleep                                  (* asleep in pthread_cond_wait *)
| Woken                                  (* pthread_cond_wait takes the mutex again *)
| Work                                   (* the statements on the queue *)
| Signal                                 (* pthread_cond_signal *)
| Unlock.                                (* pthread_mutex_unlock, and the rest of the loop *)

#[global] Instance pc_eq_dec : EqDecision pc.
Proof. solve_decision. Defined.

(** The mutex, where the threads are, the queue and [shared_data], the local
    variables of the threads, how many values have been taken from the queue,
    whether the reader has printed its error line, and whether [abort] was
    called. *)
Record state : Type := State {
  owner : option role;
  writer_pc : pc;
  reader_pc : pc;
  queue : list Z;
  shared_data : event;
  i : Z;
  expected : Z;
  val : Z;
  received : nat;
  error : bool;
  aborted : bool
}.

(** [queue_init(1000)] *)
Definition max_count : nat := 1000.

Definition init : state := State None Lock Lock [] OK 0%Z 0%Z (-1)%Z 0 false false.

Definition at_pc (t : role) (s : state) : pc :=
  match t with Writer => writer_pc s | Reader => reader_pc s end.
Definition other (t : role) : role := match t with Writer => Reader | Reader => Writer end.

Definition goto (t : role) (p : pc) (s : state) : state :=
  State (owner s) (match t with Writer => p | Reader => writer_pc s end)
    (match t with Writer => reader_pc s | Reader => p end) (queue s) (shared_data s) (i s) (expected s)
    (val s) (received s) (error s) (aborted s).
Definition set_owner (o : option role) (s : state) : state :=
  State o (writer_pc s) (reader_pc s) (queue s) (shared_data s) (i s) (expected s) (val s) (received s)
    (error s) (aborted s).

(** [q->count == q->max_count || shared_data == NOK], and
    [q->count == 0 || shared_data == OK]. *)
Definition waits (t : role) (s : state) : bool :=
  match t with
  | Writer => Nat.eqb (length (queue s)) max_count || bool_decide (shared_data s = NOK)
  | Reader => Nat.eqb (length (queue s)) 0 || bool_decide (shared_data s = OK)
  end.

(** The statements of [queue_add] between the loop and [pthread_cond_signal]. *)
Definition queue_add (malloc_ok : bool) (s : state) : outcome state :=
  Next (
    if malloc_ok then
      State (owner s) (writer_pc s) (reader_pc s) (queue s ++ [i s]) NOK (i s) (expected s) (val s)
        (received s) (error s) (aborted s)
    else
      State (owner s) (writer_pc s) (reader_pc s) (queue s) (shared_data s) (i s) (expected s) (val s)
        (received s) (error s) true).

(** Those of [queue_get]; following the null pointer of an empty queue is
    undefined. *)
Definition queue_get (s : state) : outcome state :=
  match queue s with
  | [] => Undefined
  | v :: q =>
      Next (State (owner s) (writer_pc s) (reader_pc s) q OK (i s) (expected s) v (S (received s))
              (error s) (aborted s))
  end.

(** Behind the call: [i++], and the test of the reader. *)
Definition after_call (t : role) (s : state) : state :=
  match t with
  | Writer =>
      State (owner s) (writer_pc s) (reader_pc s) (queue s) (shared_data s) (i s +i 1) (expected s)
        (val s) (received s) (error s) (aborted s)
  | Reader =>
      State (owner s) (writer_pc s) (reader_pc s) (queue s) (shared_data s) (i s) (val s +i 1) (-1)
        (received s) (error s || negb (bool_decide (expected s = val s))) (aborted s)
  end.

(** One step of a thread. *)
Definition run_thread (t : role) (malloc_ok : bool) (s : state) : outcome state :=
  match at_pc t s with
  | Lock | Woken =>
      match owner s with
      | None => Next (goto t Check (set_owner (Some t) s))
      | Some _ => Disabled
      end
  | Check => Next (if waits t s then goto t Sleep (set_owner None s) else goto t Work s)
  | Sleep => Disabled
  | Work =>
      match (match t with Writer => queue_add malloc_ok s | Reader => queue_get s end) with
      | Next s => Next (goto t Signal s)
      | o => o
      end
  | Signal =>
      let s := match at_pc (other t) s with Sleep => goto (other t) Woken s | _ => s end in
      Next (goto t Unlock s)
  | Unlock => Next (goto t Lock (set_owner None (after_call t s)))
  end.

(** [Spurious]: a wake-up without a signal. *)
Inductive label : Set := Run (t : role) (malloc_ok : bool) | Spurious (t : role).

Definition step (l : label) (s : state) : outcome state :=
  if aborted s then Disabled
  else
    match l with
    | Run t ok => run_thread t ok s
    | Spurious t => match at_pc t s with Sleep => Next (goto t Woken s) | _ => Disabled end
    end.

(** ** The protocol *)

Definition holds (p : pc) : bool :=
  match p with Check | Work | Signal | Unlock => true | _ => false end.

Definition owns (t : role) (o : option role) : bool :=
  match t, o with Writer, Some Writer | Reader, Some Reader => true | _, _ => false end.

(** A value on its way: what the counters make of the [n]th. *)
Definition nth_value (n : nat) : Z := wrap32 (Z.of_nat n).

(** Who holds the mutex. *)
Definition mutex_inv (s : state) : Prop :=
  holds (writer_pc s) = owns Writer (owner s) ∧ holds (reader_pc s) = owns Reader (owner s).

(** The writer's turn: the queue is empty, and the writer sleeps only as long
    as the reader is about to signal. *)
Definition writer_turn (s : state) : Prop :=
  queue s = [] ∧ i s = nth_value (received s) ∧
  (writer_pc s = Sleep → reader_pc s = Signal) ∧
  writer_pc s ≠ Signal ∧ writer_pc s ≠ Unlock ∧ reader_pc s ≠ Work ∧
  match reader_pc s with
  | Signal | Unlock => ∃ n, received s = S n ∧ val s = nth_value n ∧ expected s = nth_value n
  | _ => expected s = nth_value (received s)
  end.

(** The reader's turn: one value is in the queue, and the reader sleeps only
    as long as the writer is about to signal. *)
Definition reader_turn (s : state) : Prop :=
  queue s = [nth_value (received s)] ∧ expected s = nth_value (received s) ∧
  (reader_pc s = Sleep → writer_pc s = Signal) ∧
  reader_pc s ≠ Signal ∧ reader_pc s ≠ Unlock ∧ writer_pc s ≠ Work ∧
  match writer_pc s with
  | Signal | Unlock => i s = nth_value (received s)
  | _ => i s = nth_value (S (received s))
  end.

Definition handoff_inv (s : state) : Prop :=
  mutex_inv s ∧ error s = false ∧
  match shared_data s with OK => writer_turn s | NOK => reader_turn s end.

Lemma nth_value_succ n : (nth_value n +i 1) = nth_value (S n).
Proof. apply wrap32_succ. Qed.

Lemma handoff_init : handoff_inv init.
Proof. split; [by split|]. split; [done|]. by repeat (split; [done|]). Qed.

(** Turn the invariant into facts about the members. *)
Ltac handoff :=
  unfold handoff_inv, mutex_inv, writer_turn, reader_turn, waits in *; cbn in *;
  repeat match goal with
  | H : _ ∧ _ |- _ => destruct H
  | H : ∃ _, _ |- _ => destruct H
  | H : ?x = ?x → _ |- _ => specialize (H eq_refl)
  | H : _ = Next _ |- _ => injection H as <-
  end; subst; cbn in *.

Ltac handoff_done :=
  handoff; try done; handoff; rewrite ?bool_decide_true ?nth_value_succ //; repeat split; try done; eauto.

Lemma run_inv t ok s s' :
  handoff_inv s → run_thread t ok s = Next s' → aborted s' = false → handoff_inv s'.
Proof.
  destruct s as [o w r q d i e v n er ab]. intros Hi H Ha. unfold run_thread in H. cbn in H.
  destruct t; cbn in H.
  - destruct w, o as [[]|]; try done; try (exfalso; handoff; done); destruct ok, r;
      try (exfalso; handoff; done); destruct d; handoff_done.
  - destruct r, o as [[]|]; try done; try (exfalso; handoff; done); destruct w;
      try (exfalso; handoff; done); destruct d; handoff_done.
Qed.

(** A wake-up, with or without a signal. *)
Lemma spurious_inv t s :
  handoff_inv s → at_pc t s = Sleep → handoff_inv (goto t Woken s).
Proof.
  destruct s as [o w r q d i e v n er ab]. intros Hi H. cbn in H.
  destruct t; cbn in *; subst; [destruct r|destruct w]; destruct d; handoff_done.
Qed.

Lemma handoff_reachable s : reachable step init s → aborted s = false → handoff_inv s.
Proof.
  intros Hr. cut (aborted s = true ∨ handoff_inv s); [intros [->|]; done|].
  revert s Hr. apply invariant_reachable; [right; apply handoff_init|].
  intros l s s' Hi H. unfold step in H. destruct (aborted s) eqn:Ha; [done|].
  destruct Hi as [|Hi]; [congruence|]. destruct (aborted s') eqn:Ha'; [by left|right].
  destruct l as [t ok|t]; [by eapply run_inv|].
  destruct (at_pc t s) eqn:E; try done. injection H as <-. by apply spurious_inv.
Qed.

(** ** Liveness *)

(** How many steps a thread can make, at most, before a value is taken from
    the queue: in the writer's turn and in the reader's. *)
Definition to_go (s : state) : nat :=
  match shared_data s with
  | OK =>
      8 + match writer_pc s with Lock | Sleep | Woken => 3 | Check => 2 | _ => 1 end
        + match reader_pc s with Signal => 4 | Unlock => 3 | Lock | Woken => 2 | Check => 1 | _ => 0 end
  | NOK =>
      match writer_pc s with Signal => 5 | Unlock => 4 | Lock | Woken => 2 | Check => 1 | _ => 0 end
        + match reader_pc s with Lock | Sleep | Woken => 3 | Check => 2 | _ => 1 end
  end.

(** A step takes a value, or is one step closer to it; a wake-up without a
    signal costs two. *)
Lemma run_to_go t ok s s' :
  handoff_inv s → run_thread t ok s = Next s' → aborted s' = false →
  (received s' = received s ∧ to_go s' < to_go s) ∨ (received s' = S (received s) ∧ 0 < to_go s ∧ to_go s' ≤ 15).
Proof.
  destruct s as [o w r q d i e v n er ab]. intros Hi H Ha. unfold run_thread in H. cbn in H. unfold to_go.
  destruct t; cbn in H.
  - destruct w, o as [[]|]; try done; try (exfalso; handoff; done); destruct ok, r;
      try (exfalso; handoff; done); destruct d; handoff; try done; handoff; lia.
  - destruct r, o as [[]|]; try done; try (exfalso; handoff; done); destruct w;
      try (exfalso; handoff; done); destruct d; handoff; try done; handoff; lia.
Qed.

Lemma spurious_to_go t s : at_pc t s = Sleep → to_go (goto t Woken s) ≤ to_go s + 2.
Proof.
  destruct s as [o w r q d i e v n er ab]. unfold to_go.
  destruct t; cbn; intros ->; destruct d; lia.
Qed.

Definition spurious (l : label) : bool := match l with Spurious _ => true | Run _ _ => false end.

Lemma to_go_le s : to_go s ≤ 15.
Proof. unfold to_go. destruct (shared_data s), (writer_pc s), (reader_pc s); lia. Qed.

(** Without the reader taking a value the steps run out. *)
Lemma handoff_gap sched s s' :
  handoff_inv s → run step sched s = Next s' → aborted s' = false → received s' = received s →
  length sched + to_go s' ≤ to_go s + 3 * length (filter (λ l, spurious l = true) sched).
Proof.
  intros Hi Hs Ha. enough (received s ≤ received s' ∧ (received s' = received s →
    length sched + to_go s' ≤ to_go s + 3 * length (filter (λ l, spurious l = true) sched))) by tauto.
  revert s Hi Hs. induction sched as [|l sched IH]; intros s Hi Hs; cbn in Hs; [injection Hs as ->; cbn; lia|].
  destruct (step l s) as [s1| |] eqn:H; [|done..].
  assert (aborted s1 = false) as Ha1.
  { destruct (aborted s1) eqn:E; [|done]. destruct sched as [|l' sched]; cbn in Hs; [congruence|].
    unfold step in Hs. by rewrite E in Hs. }
  unfold step in H. destruct (aborted s); [done|]. destruct l as [t ok|t].
  - pose proof (run_inv _ _ _ _ Hi H Ha1) as Hi1. specialize (IH s1 Hi1 Hs).
    rewrite filter_cons_False //. cbn [length].
    destruct (run_to_go _ _ _ _ Hi H Ha1) as [[E1 E2]|(E1 & E2 & E3)]; lia.
  - destruct (at_pc t s) eqn:E; try done. injection H as <-.
    specialize (IH _ (spurious_inv _ _ Hi E) Hs). rewrite filter_cons_True //. cbn [length].
    pose proof (spurious_to_go t s E).
    assert (received (goto t Woken s) = received s) as Er by done. lia.
Qed.

(** One of the threads can go on, without being woken by chance. *)
Lemma run_enabled s :
  handoff_inv s → aborted s = false →
  ∃ t s', run_thread t true s = Next s' ∧ aborted s' = false.
Proof.
  destruct s as [o w r q d i e v n er ab]. intros Hi Ha. cbn in Ha. subst. destruct o as [[]|].
  - exists Writer. unfold run_thread.
    destruct w; try (exfalso; handoff; done); cbn; try (by eexists); [|destruct r; by eexists].
    case_match; by eexists.
  - exists Reader. unfold run_thread.
    destruct r; try (exfalso; handoff; done); cbn; try (by eexists); [| |destruct w; by eexists].
    + case_match; by eexists.
    + destruct q; [exfalso; destruct d; handoff; done|by eexists].
  - destruct d.
    + exists Writer. unfold run_thread. destruct w; cbn; try (exfalso; handoff; done); by eexists.
    + exists Reader. unfold run_thread. destruct r; cbn; try (exfalso; handoff; done); by eexists.
Qed.

(** The two threads on their own, without wake-ups by chance, pass a value. *)
Lemma handoff_progress n s :
  to_go s ≤ n → handoff_inv s → aborted s = false →
  ∃ sched s', length sched ≤ S n ∧ Forall (λ l, spurious l = false) sched ∧
    run step sched s = Next s' ∧ received s' = S (received s).
Proof.
  revert s. induction n as [n IH] using lt_wf_ind. intros s Hn Hi Ha.
  destruct (run_enabled s Hi Ha) as (t & s1 & H & Ha1).
  assert (step (Run t true) s = Next s1) as Hs by (unfold step; by rewrite Ha).
  destruct (run_to_go _ _ _ _ Hi H Ha1) as [[E1 E2]|(E1 & E2 & E3)].
  - destruct (IH (to_go s1)) with s1 as (sched & s' & Hl & Hf & Hr & He);
      [lia|done|by eapply run_inv|done|].
    exists (Run t true :: sched), s'. cbn [length run]. rewrite Hs. split; [lia|].
    split; [by constructor|]. split; [done|]. lia.
  - exists [Run t true], s1. cbn [length run]. rewrite Hs. split; [lia|].
    split; [by constructor|]. done.
Qed.

(** C13. Wherever an interleaving has got to, values keep being passed: as long as
    the reader has not taken the next one, at most fifteen steps go by, and
    three more for each wake-up without a signal, whatever the scheduler does;
    and the two threads can pass it without any such wake-up. *)
Theorem handoff_rate s :
  reachable step init s → aborted s = false →
  (∀ sched s', run step sched s = Next s' → aborted s' = false → received s' = received s →
     length sched ≤ 15 + 3 * length (filter (λ l, spurious l = true) sched)) ∧
  ∃ sched s', length sched ≤ 16 ∧ Forall (λ l, spurious l = false) sched ∧
    run step sched s = Next s' ∧ received s' = S (received s).
Proof.
  intros Hr Ha. pose proof (handoff_reachable s Hr Ha) as Hi. split.
  - intros sched s' Hs Ha' He. pose proof (handoff_gap _ _ _ Hi Hs Ha' He).
    pose proof (to_go_le s). lia.
  - by apply handoff_progress; [apply to_go_le|..].
Qed.

(** C40. Deadlock is impossible: in every interleaving there is always a thread that
    can go on without being woken by chance, and nothing undefined happens. *)
Theorem handoff_never_stuck s :
  reachable step init s → aborted s = false →
  error s = false ∧ (∀ l, step l s ≠ Undefined) ∧ ∃ t s', step (Run t true) s = Next s'.
Proof.
  intros Hr Ha. pose proof (handoff_reachable s Hr Ha) as Hi.
  destruct (run_enabled s Hi Ha) as (t & s1 & H & _).
  split; [apply Hi|]. unfold step. rewrite Ha. split; [|by exists t, s1]. clear H.
  destruct s as [o w r q d i e v n er ab].
  intros [t' ok|t'] H; [|by destruct (at_pc t' _)]. unfold run_thread in H.
  destruct t'; cbn in H; [by destruct w, o, ok|].
  destruct r, o; try done. all: destruct q; try done. all: destruct d; handoff; done.
Qed.

(** One value: the reader is there first and has to wait. *)
Definition one_value : list label :=
  [Run Reader true; Run Reader true; Run Writer true; Run Writer true; Run Writer true; Run Writer true;
   Run Writer true; Run Reader true; Run Reader true; Run Reader true].

Lemma handoff_rate_witness :
  ∃ s, run step (take 2 one_value) init = Next s ∧ reader_pc s = Sleep ∧
    ∃ sched s', length sched ≤ 16 ∧ Forall (λ l, spurious l = false) sched ∧
      run step sched s = Next s' ∧ received s' = S (received s).
Proof.
  eexists. split; [vm_compute; reflexivity|]. split; [reflexivity|]. apply handoff_rate; [|reflexivity].
  eapply (run_reachable _ _ (take 2 one_value)); [apply reachable_init|]. vm_compute. reflexivity.
Defined.

(** Both threads have met the mutex, and the reader sleeps. *)
Lemma handoff_never_stuck_witness :
  ∃ s, run step (take 2 one_value) init = Next s ∧ reader_pc s = Sleep ∧
    (error s = false ∧ (∀ l, step l s ≠ Undefined) ∧ ∃ t s', step (Run t true) s = Next s').
Proof.
  eexists. split; [vm_compute; reflexivity|]. split; [reflexivity|]. apply handoff_never_stuck; [|reflexivity].
  eapply (run_reachable _ _ (take 2 one_value)); [apply reachable_init|]. vm_compute. reflexivity.
Defined.
