(* ===== verification/FutexLive.v ===== *)
(** * FutexLive: the futex mutex wakes whoever it put to sleep

    Termination of the program of [semestr2/Task2/Task2_4/mutex.c] for any number
    of threads: every thread takes the home-made mutex for each of its
    iterations.  A step is one compare-and-swap, one system call on the futex or
    the critical section (that no two threads are in it is
    [Counter.futex_counter_exact], and follows here as well).  A sleeping thread
    may wake up without a wake-up call; which sleeper a wake-up call reaches is
    part of the label. *)
From stdpp Require Import base list numbers.
From iris.prelude Require Import prelude.
From Stdlib Require Import ZArith.
From S2P Require Import Prelude Steps.
#[local] Open Scope nat_scope.

(** What [m->lock] can hold. *)
Inductive status : Set := STATUS_LOCK | STATUS_UNLOCK.

#[global] Instance status_eq_dec : EqDecision status.
Proof. solve_decision. Defined.

(** Where a thread is: in [mutex_lock], in its critical section, in
    [mutex_unlock], or behind its loop. *)
Inductive pc : Set :=
| Cas                                    (* atomic_compare_exchange_strong(.., STATUS_LOCK) *)
| Wait                                   (* futex(FUTEX_WAIT, STATUS_LOCK) *)
| Asleep                                 (* in FUTEX_WAIT *)
| Critical                               (* ++counter, printf *)
| Unlock                                 (* atomic_compare_exchange_strong(.., STATUS_UNLOCK) *)
| Wake                                   (* futex(FUTEX_WAKE) *)
| Done.

#[global] Instance pc_eq_dec : EqDecision pc.
Proof. solve_decision. Defined.

(** [left]: how many times the thread has still to take the mutex. *)
Record thread : Set := Thread { at_pc : pc; left : nat }.

Record state : Set := State {
  lock : status;
  counter : Z;
  threads : list thread
}.

(** The head of the loop [for(int i = 0; i < COUNT_ITERATION; ++i)]. *)
Definition next_iteration (n : nat) : thread := Thread (match n with O => Done | S _ => Cas end) n.

(** [mutex_init], and threads that make so many iterations. *)
Definition init (iterations : list nat) : state := State STATUS_UNLOCK 0%Z (next_iteration <$> iterations).

Definition asleep (t : thread) : bool := match at_pc t with Asleep => true | _ => false end.

(** FUTEX_WAKE wakes one sleeper, [w], if there is any. *)
Definition futex_wake (w : nat) (ts : list thread) : option (list thread) :=
  if existsb asleep ts then
    t ← ts !! w; if asleep t then Some (<[w := Thread Cas (left t)]> ts) else None
  else Some ts.

(** [mutex_lock]; back from FUTEX_WAIT the loop goes on, whatever it
    returned. *)
Definition mutex_lock (k : nat) (t : thread) (s : state) : outcome state :=
  match at_pc t with
  | Cas =>
      match lock s with
      | STATUS_UNLOCK => Next (State STATUS_LOCK (counter s) (<[k := Thread Critical (left t - 1)]> (threads s)))
      | STATUS_LOCK => Next (State (lock s) (counter s) (<[k := Thread Wait (left t)]> (threads s)))
      end
  | Wait =>
      match lock s with
      | STATUS_LOCK => Next (State (lock s) (counter s) (<[k := Thread Asleep (left t)]> (threads s)))
      | STATUS_UNLOCK => Next (State (lock s) (counter s) (<[k := Thread Cas (left t)]> (threads s)))
      end
  | _ => Disabled
  end.

Definition mutex_unlock (k w : nat) (t : thread) (s : state) : outcome state :=
  match at_pc t with
  | Unlock =>
      match lock s with
      | STATUS_LOCK => Next (State STATUS_UNLOCK (counter s) (<[k := Thread Wake (left t)]> (threads s)))
      | STATUS_UNLOCK => Next (State (lock s) (counter s) (<[k := next_iteration (left t)]> (threads s)))
      end
  | Wake =>
      possible (futex_wake w (threads s)) (λ ts,
      Next (State (lock s) (counter s) (<[k := next_iteration (left t)]> ts)))
  | _ => Disabled
  end.

Definition run_thread (k w : nat) (s : state) : outcome state :=
  possible (threads s !! k) (λ t,
  match at_pc t with
  | Cas | Wait => mutex_lock k t s
  | Critical => Next (State (lock s) (counter s +i 1) (<[k := Thread Unlock (left t)]> (threads s)))
  | Unlock | Wake => mutex_unlock k w t s
  | Asleep | Done => Disabled
  end).

(** [Run k w]: thread [k] makes a step, and a wake-up call reaches [w].
    [Spurious k]: thread [k] wakes up by chance. *)
Inductive label : Set := Run (k w : nat) | Spurious (k : nat).

Definition step (l : label) (s : state) : outcome state :=
  match l with
  | Run k w => run_thread k w s
  | Spurious k =>
      possible (threads s !! k) (λ t,
      if asleep t then Next (State (lock s) (counter s) (<[k := Thread Cas (left t)]> (threads s))) else Disabled)
  end.

(** ** The protocol *)

Definition holding (t : thread) : nat := match at_pc t with Critical | Unlock => 1 | _ => 0 end.

(** Threads that have something to do that will wake a sleeper, if there is one. *)
Definition awake (t : thread) : bool := match at_pc t with Asleep | Done => false | _ => true end.

Definition trying_ok (t : thread) : Prop :=
  match at_pc t with Cas | Wait | Asleep => 0 < left t | Done => left t = 0 | _ => True end.

(** How often a thread is still to raise the counter. *)
Definition raises (t : thread) : nat := left t + match at_pc t with Critical => 1 | _ => 0 end.

(** As many threads hold the mutex as its word says; whenever somebody sleeps
    somebody else is awake; nothing is lost of the [total]. *)
Record futex_inv (total : nat) (s : state) : Prop := FutexInv {
  inv_holding : sum_list_with holding (threads s) = match lock s with STATUS_LOCK => 1 | STATUS_UNLOCK => 0 end;
  inv_trying : Forall trying_ok (threads s);
  inv_awake : existsb asleep (threads s) = true → existsb awake (threads s) = true;
  inv_total : ∃ n, counter s = wrap32 (Z.of_nat n) ∧ n + sum_list_with raises (threads s) = total
}.

Lemma next_iteration_ok n : trying_ok (next_iteration n) ∧ holding (next_iteration n) = 0 ∧
  raises (next_iteration n) = n ∧ left (next_iteration n) = n.
Proof. destruct n; cbn; repeat split; lia. Qed.

Lemma futex_init its : futex_inv (sum_list its) (init its).
Proof.
  split.
  - cbn. induction its as [|n its IH]; cbn; [done|]. rewrite IH. by destruct n.
  - apply Forall_fmap, Forall_true. intros n. apply next_iteration_ok.
  - cbn. intros H. exfalso. induction its as [|[|n] its IH]; [done|exact (IH H)..].
  - exists 0. split; [done|]. cbn. induction its as [|n its IH]; simpl; [done|]. rewrite IH.
    by rewrite (proj1 (proj2 (proj2 (next_iteration_ok n)))).
Qed.

Lemma awake_in ts t : t ∈ ts → awake t = true → existsb awake ts = true.
Proof. intros Hin Ha. apply existsb_exists. exists t. split; [by apply list_elem_of_In|done]. Qed.

Lemma awake_insert ts k (t t' : thread) :
  ts !! k = Some t → awake t' = true → existsb awake (<[k := t']> ts) = true.
Proof.
  intros Hk Ha. apply (awake_in _ t'); [|done]. apply list_elem_of_lookup. exists k.
  apply list_lookup_insert_eq. by eapply lookup_lt_Some.
Qed.

(** A holder is awake. *)
Lemma holder_awake ts : 0 < sum_list_with holding ts → existsb awake ts = true.
Proof.
  induction ts as [|t ts IH]; simpl; [lia|]. intros H.
  destruct t as [[] l]; unfold holding, awake in *; cbn in *; auto.
Qed.

(** The wake-up call: it changes one sleeper, or there is none. *)
Lemma futex_wake_cases w ts ts' :
  futex_wake w ts = Some ts' →
  (existsb asleep ts = false ∧ ts' = ts) ∨
  ∃ n, ts !! w = Some (Thread Asleep n) ∧ ts' = <[w := Thread Cas n]> ts.
Proof.
  unfold futex_wake. destruct (existsb asleep ts); [|intros [= <-]; by left].
  intros ([p n] & Ht & H)%bind_Some. right. exists n. unfold asleep in H. cbn in H.
  destruct p; try done. by injection H as <-.
Qed.

(** Replacing one thread. *)
Lemma replace_inv total s k t t' l c :
  futex_inv total s → threads s !! k = Some t →
  holding t' + match lock s with STATUS_LOCK => 1 | STATUS_UNLOCK => 0 end =
    match l with STATUS_LOCK => 1 | STATUS_UNLOCK => 0 end + holding t →
  trying_ok t' →
  (existsb asleep (<[k := t']> (threads s)) = true → existsb awake (<[k := t']> (threads s)) = true) →
  (c = counter s ∧ raises t' = raises t ∨ c = (counter s +i 1) ∧ S (raises t') = raises t) →
  futex_inv total (State l c (<[k := t']> (threads s))).
Proof.
  intros [H1 H2 H3 (n & Hn & Ht)] Hk Hh Hok Ha Hc.
  pose proof (sum_insert holding _ _ _ t' Hk) as Sh. pose proof (sum_insert raises _ _ _ t' Hk) as Sr.
  split; cbn.
  - lia.
  - by apply Forall_insert.
  - done.
  - destruct Hc as [[-> Hr]|[-> Hr]]; [exists n|exists (S n)]; (split; [|lia]); [done|].
    rewrite Hn. apply wrap32_succ.
Qed.

Lemma no_sleeper_insert ts k (t : thread) :
  existsb asleep ts = false → asleep t = false → existsb asleep (<[k := t]> ts) = false.
Proof.
  intros H Ht. revert k. induction ts as [|x ts IH]; intros [|k]; [done|done| |];
    apply orb_false_iff in H as [Hx H]; cbn; [by rewrite Ht|]. rewrite Hx. by apply IH.
Qed.

(** FUTEX_WAKE and the rest of the iteration. *)
Lemma wake_inv total s k w n ts :
  futex_inv total s → threads s !! k = Some (Thread Wake n) → futex_wake w (threads s) = Some ts →
  futex_inv total (State (lock s) (counter s) (<[k := next_iteration n]> ts)).
Proof.
  intros Hi Hk [[Hn ->]|(m & Hw & ->)]%futex_wake_cases.
  - destruct (next_iteration_ok n) as (H1 & H2 & H3 & _).
    apply (replace_inv _ _ _ _ _ _ _ Hi Hk); [rewrite H2; done|done| |left; split; [done|rewrite H3; unfold raises; cbn; lia]].
    intros Hs. rewrite no_sleeper_insert // in Hs. by destruct n.
  - assert (k ≠ w) as Hne by congruence.
    assert (futex_inv total (State (lock s) (counter s) (<[w := Thread Cas m]> (threads s)))) as Hi'.
    { apply (replace_inv _ _ _ _ _ _ _ Hi Hw); [done| | |by left].
      - exact (Forall_lookup_1 _ _ _ _ (inv_trying _ _ Hi) Hw).
      - intros _. by eapply awake_insert. }
    destruct (next_iteration_ok n) as (H1 & H2 & H3 & _).
    assert (<[w := Thread Cas m]> (threads s) !! k = Some (Thread Wake n)) as Hk'
      by (by rewrite list_lookup_insert_ne).
    apply (replace_inv _ _ _ _ _ _ _ Hi' Hk'); [rewrite H2; done|done| |left; split; [done|rewrite H3; unfold raises; cbn; lia]].
    intros _. cbn. rewrite list_insert_insert_ne //.
    eapply awake_insert; [|done]. rewrite list_lookup_insert_ne //.
Qed.

Lemma run_thread_inv total k w s s' :
  futex_inv total s → run_thread k w s = Next s' → futex_inv total s'.
Proof.
  intros Hi H. unfold run_thread in H. apply possible_Next in H as ([p n] & Hk & H).
  pose proof (Forall_lookup_1 _ _ _ _ (inv_trying _ _ Hi) Hk) as Hok. pose proof (inv_holding _ _ Hi) as Hh.
  pose proof (sum_list_with_in _ holding _ (list_elem_of_lookup_2 _ _ _ Hk)) as Hin.
  unfold mutex_lock, mutex_unlock in H. cbn in *.
  destruct p; try done; cbn in *.
  - destruct (lock s) eqn:El; injection H as <-; apply (replace_inv _ _ _ _ _ _ _ Hi Hk); cbn; rewrite ?El //;
      first [by intros _; eapply awake_insert|left; split; [done|cbn in *; lia]].
  - destruct (lock s) eqn:El; injection H as <-; apply (replace_inv _ _ _ _ _ _ _ Hi Hk); cbn; rewrite ?El //;
      try (left; split; [done|cbn in *; lia]).
    + intros _. apply holder_awake. pose proof (sum_insert holding _ _ _ (Thread Asleep n) Hk) as Sh. cbn in Sh. lia.
    + intros _. by eapply awake_insert.
  - injection H as <-. apply (replace_inv _ _ _ _ _ _ _ Hi Hk); cbn; [lia|done| |right; split; [done|cbn; lia]].
    intros _. by eapply awake_insert.
  - destruct (lock s) eqn:El; [|exfalso; cbn in *; lia]. injection H as <-.
    apply (replace_inv _ _ _ _ _ _ _ Hi Hk); cbn; rewrite ?El //; [|left; split; [done|cbn; lia]].
    intros _. by eapply awake_insert.
  - apply possible_Next in H as (ts & Hw & [= <-]). by eapply wake_inv.
Qed.

(** ** Termination *)

(** How many steps a thread can make before it sleeps or the mutex changes
    hands, and what the changes it still has to make cost all [n] threads. *)
Definition weight (l : status) (n : nat) (t : thread) : nat :=
  match at_pc t, l with
  | Cas, STATUS_LOCK => 2 | Cas, STATUS_UNLOCK => 1
  | Wait, STATUS_LOCK => 1 | Wait, STATUS_UNLOCK => 2
  | Critical, _ => 2
  | Unlock, _ => 1
  | Wake, STATUS_LOCK => 5 | Wake, STATUS_UNLOCK => 4
  | (Asleep | Done), _ => 0
  end + left t * (2 * n + 5) + holding t * (n + 4).

Definition potential (s : state) : nat :=
  sum_list_with (weight (lock s) (length (threads s))) (threads s).
#[global] Arguments potential : simpl never.

Lemma weight_change l l' n t : weight l n t ≤ weight l' n t + 1.
Proof. unfold weight. destruct (at_pc t), l, l'; lia. Qed.

Lemma potential_insert s k t t' l c :
  threads s !! k = Some t →
  potential (State l c (<[k := t']> (threads s))) + weight l (length (threads s)) t =
  sum_list_with (weight l (length (threads s))) (threads s) + weight l (length (threads s)) t'.
Proof. intros Hk. unfold potential. cbn. rewrite length_insert. by apply sum_insert. Qed.

(** When the mutex changes hands everybody may have one step more to make. *)
Lemma potential_change s l :
  sum_list_with (weight l (length (threads s))) (threads s) ≤ potential s + length (threads s).
Proof.
  unfold potential. etransitivity; [apply (sum_le _ (weight (lock s) (length (threads s))) 1)|lia].
  intros t. apply weight_change.
Qed.

Lemma next_iteration_weight l n m : weight l n (next_iteration m) ≤ 2 + m * (2 * n + 5).
Proof. unfold weight. destruct m, l; cbn; lia. Qed.

Lemma wake_weight l n m :
  weight l n (Thread Wake m) = match l with STATUS_LOCK => 5 | STATUS_UNLOCK => 4 end + m * (2 * n + 5).
Proof. unfold weight. destruct l; cbn; lia. Qed.

Lemma run_lower total k w s s' :
  futex_inv total s → run_thread k w s = Next s' →
  potential s' < potential s ∧ length (threads s') = length (threads s).
Proof.
  intros Hi H. unfold run_thread in H. apply possible_Next in H as ([p m] & Hk & H).
  pose proof (Forall_lookup_1 _ _ _ _ (inv_trying _ _ Hi) Hk) as Hok. pose proof (inv_holding _ _ Hi) as Hh.
  pose proof (sum_list_with_in _ holding _ (list_elem_of_lookup_2 _ _ _ Hk)) as Hin.
  assert (∀ t' c, potential (State (lock s) c (<[k := t']> (threads s))) + weight (lock s) (length (threads s)) (Thread p m) =
    potential s + weight (lock s) (length (threads s)) t') as Hsame by (intros; by apply potential_insert).
  assert (∀ t' l c, potential (State l c (<[k := t']> (threads s))) + weight l (length (threads s)) (Thread p m) ≤
    potential s + length (threads s) + weight l (length (threads s)) t') as Hchange.
  { intros t' l c. rewrite (potential_insert _ _ _ _ _ _ Hk). pose proof (potential_change s l). lia. }
  unfold mutex_lock, mutex_unlock in H. cbn in H, Hok.
  destruct p; try done; cbn in H; unfold trying_ok in Hok; cbn in Hok.
  - destruct (lock s) eqn:El; injection H as <-; (split; [|by rewrite /= length_insert]).
    + specialize (Hsame (Thread Wait m) (counter s)). unfold weight in Hsame. cbn in Hsame. lia.
    + specialize (Hchange (Thread Critical (m - 1)) STATUS_LOCK (counter s)). unfold weight in Hchange.
      destruct m as [|m]; [lia|]. cbn in Hchange. rewrite Nat.sub_0_r in Hchange. cbn. rewrite Nat.sub_0_r. lia.
  - destruct (lock s) eqn:El; injection H as <-; (split; [|by rewrite /= length_insert]).
    + specialize (Hsame (Thread Asleep m) (counter s)). unfold weight in Hsame. cbn in Hsame. lia.
    + specialize (Hsame (Thread Cas m) (counter s)). unfold weight in Hsame. cbn in Hsame. lia.
  - injection H as <-. split; [|by rewrite /= length_insert].
    specialize (Hsame (Thread Unlock m) (counter s +i 1)). unfold weight in Hsame. cbn in Hsame. lia.
  - destruct (lock s) eqn:El; [|exfalso; cbn in *; lia]. injection H as <-. split; [|by rewrite /= length_insert].
    specialize (Hchange (Thread Wake m) STATUS_UNLOCK (counter s)). unfold weight in Hchange. cbn in Hchange. lia.
  - apply possible_Next in H as (ts & [[_ ->]|(n & Hw & ->)]%futex_wake_cases & [= <-]).
    + split; [|by rewrite /= length_insert]. specialize (Hsame (next_iteration m) (counter s)).
      pose proof (next_iteration_weight (lock s) (length (threads s)) m).
      pose proof (wake_weight (lock s) (length (threads s)) m). destruct (lock s); lia.
    + assert (k ≠ w) as Hne by congruence. split; [|by rewrite /= !length_insert].
      pose proof (potential_insert s w (Thread Asleep n) (Thread Cas n) (lock s) (counter s) Hw) as Hp.
      fold (potential s) in Hp. unfold weight in Hp. cbn in Hp.
      set (s1 := State (lock s) (counter s) (<[w := Thread Cas n]> (threads s))).
      assert (threads s1 !! k = Some (Thread Wake m)) as Hk1 by (cbn; by rewrite list_lookup_insert_ne).
      pose proof (potential_insert s1 k _ (next_iteration m) (lock s1) (counter s) Hk1) as Hp1.
      fold (potential s1) in Hp1. assert (length (threads s1) = length (threads s)) as El by (cbn; by rewrite length_insert).
      rewrite El in Hp1. unfold s1 in Hp1. cbn [threads lock] in Hp1.
      pose proof (next_iteration_weight (lock s) (length (threads s)) m).
      pose proof (wake_weight (lock s) (length (threads s)) m). destruct (lock s); lia.
Qed.

Lemma spurious_run total s k t :
  futex_inv total s → threads s !! k = Some t → asleep t = true →
  let s' := State (lock s) (counter s) (<[k := Thread Cas (left t)]> (threads s)) in
  futex_inv total s' ∧ potential s' ≤ potential s + 2.
Proof.
  intros Hi Hk Ha. destruct t as [p m]. destruct p; try done. split.
  - apply (replace_inv _ _ _ _ _ _ _ Hi Hk); [done| | |by left].
    + exact (Forall_lookup_1 _ _ _ _ (inv_trying _ _ Hi) Hk).
    + intros _. by eapply awake_insert.
  - pose proof (potential_insert s k (Thread Asleep m) (Thread Cas m) (lock s) (counter s) Hk) as Hp.
    fold (potential s) in Hp. unfold weight in Hp. cbn in Hp. cbn. destruct (lock s); lia.
Qed.

Lemma futex_reachable its s : reachable step (init its) s → futex_inv (sum_list its) s.
Proof.
  revert s. apply invariant_reachable; [apply futex_init|]. intros [k w|k] s s' Hi H.
  - by eapply run_thread_inv.
  - apply possible_Next in H as (t & Hk & H). destruct (asleep t) eqn:Ha; [|done]. injection H as <-.
    by apply spurious_run.
Qed.

(** Who is awake has a step to make. *)
Lemma awake_steps s t :
  t ∈ threads s → awake t = true → ∃ k w s', step (Run k w) s = Next s'.
Proof.
  intros [k Hk]%list_elem_of_lookup Ha. exists k. cbn. unfold run_thread. rewrite Hk. cbn.
  destruct t as [[] m]; try done; unfold mutex_lock, mutex_unlock; cbn;
    try (exists 0; by destruct (lock s); eexists).
  unfold futex_wake. destruct (existsb asleep (threads s)) eqn:E; [|by exists 0; eexists].
  apply existsb_exists in E as (t & [w Hw]%list_elem_of_In%list_elem_of_lookup & Ht).
  exists w. rewrite Hw. cbn. rewrite Ht. by eexists.
Qed.

Definition spurious (l : label) : bool := match l with Spurious _ => true | Run _ _ => false end.

(** How long the program runs at most. *)
Definition bound (its : list nat) : nat :=
  sum_list_with (λ n, 2 + n * (2 * length its + 5)) its.

Lemma potential_init its : potential (init its) ≤ bound its.
Proof.
  unfold potential, bound. cbn. rewrite length_fmap. generalize (length its). intros n.
  pose proof (next_iteration_weight STATUS_UNLOCK n) as Hw. revert Hw.
  generalize (weight STATUS_UNLOCK n). intros f Hw.
  induction its as [|m its IH]; [done|]. rewrite fmap_cons. specialize (Hw m). simpl in *. lia.
Qed.

Lemma run_bound total sched s s' :
  futex_inv total s → run step sched s = Next s' →
  length sched + potential s' ≤ potential s + 3 * length (filter (λ l, spurious l = true) sched).
Proof.
  revert s. induction sched as [|l sched IH]; intros s Hi Hs; cbn in Hs; [injection Hs as ->; cbn; lia|].
  destruct (step l s) as [s1| |] eqn:H; [|done..]. destruct l as [k w|k].
  - specialize (IH s1 (run_thread_inv _ _ _ _ _ Hi H) Hs). destruct (run_lower _ _ _ _ _ Hi H) as [Hp _].
    rewrite filter_cons_False //. cbn [length]. lia.
  - apply possible_Next in H as (t & Hk & H). destruct (asleep t) eqn:Ha; [|done]. injection H as <-.
    destruct (spurious_run _ _ _ _ Hi Hk Ha) as [Hi' Hp]. specialize (IH _ Hi' Hs).
    rewrite filter_cons_True //. cbn [length]. cbn zeta in Hp. lia.
Qed.

(** C14. For any number of threads, any numbers of iterations and any scheduler: the
    program makes a bounded number of steps (three more for each wake-up by
    chance), and when no thread can go on, none is asleep: all are done and
    the counter has been raised once in each iteration. *)
Theorem futex_finishes its sched s :
  run step sched (init its) = Next s →
  length sched ≤ bound its + 3 * length (filter (λ l, spurious l = true) sched) ∧
  ((∀ k w s', step (Run k w) s ≠ Next s') →
   Forall (λ t, at_pc t = Done) (threads s) ∧ counter s = wrap32 (Z.of_nat (sum_list its))).
Proof.
  intros Hr. pose proof (futex_reachable its s (run_reachable _ _ _ _ _ (reachable_init _ _) Hr)) as Hi.
  split.
  - pose proof (run_bound _ _ _ _ (futex_init its) Hr). pose proof (potential_init its). lia.
  - intros Hstuck. assert (Forall (λ t, at_pc t = Done) (threads s)) as Hd.
    { assert (∀ t, t ∈ threads s → awake t = false) as Hno.
      { intros t Ht. destruct (awake t) eqn:E; [|done].
        destruct (awake_steps s t Ht E) as (k & w & s' & H). by destruct (Hstuck k w s'). }
      apply Forall_forall. intros t Ht. specialize (Hno t Ht) as Ha.
      assert (existsb asleep (threads s) = false) as Hs.
      { destruct (existsb asleep (threads s)) eqn:E; [|done]. apply (inv_awake _ _ Hi) in E.
        apply existsb_exists in E as (t' & Hin%list_elem_of_In & Ht'). by rewrite Hno in Ht'. }
      destruct (asleep t) eqn:E.
      { assert (existsb asleep (threads s) = true) as E'; [|congruence].
        apply existsb_exists. exists t. split; [by apply list_elem_of_In|done]. }
      unfold awake, asleep in *. by destruct (at_pc t). }
    split; [done|]. destruct (inv_total _ _ Hi) as (n & -> & Hn). do 2 f_equal.
    assert (sum_list_with raises (threads s) = 0) as Hz; [|lia].
    pose proof (inv_trying _ _ Hi) as Ht. clear -Hd Ht. induction Hd as [|t ts Hp _ IH]; [done|].
    apply Forall_cons in Ht as [Ht1 Ht2]. simpl. rewrite (IH Ht2). unfold raises, trying_ok in *. rewrite Hp in Ht1 |- *. lia.
Qed.

(** Two threads and an iteration each; the second sleeps and is woken. *)
Definition two_threads : list label :=
  [Run 0 0; Run 1 0; Run 1 0; Run 0 0; Run 0 0; Run 0 1; Run 1 0; Run 1 0; Run 1 0; Run 1 0].

Lemma futex_finishes_witness :
  ∃ s, run step two_threads (init [1; 1]) = Next s ∧ counter s = 2%Z ∧
    (length two_threads ≤ bound [1; 1] + 3 * length (filter (λ l, spurious l = true) two_threads) ∧
     ((∀ k w s', step (Run k w) s ≠ Next s') →
      Forall (λ t, at_pc t = Done) (threads s) ∧ counter s = wrap32 (Z.of_nat (sum_list [1; 1])))).
Proof.
  eexists. split; [vm_compute; reflexivity|]. split; [reflexivity|].
  apply (futex_finishes [1; 1] two_threads). vm_compute. reflexivity.
Defined.
