(* ===== verification/ListLive.v ===== *)
(** * ListLive: the locked list never deadlocks

    Liveness of the three programs of [semestr2/Task2/Task2_3]: threads that walk
    over the list locking two neighbours at a time ([find_increasing],
    [find_decreasing], [find_equals]) and threads that lock three
    ([random_swap]).  The list is built before they start and, as the sources
    stand, none of them changes it, so a node is its position.  A step is one
    successful call on a lock, or the statements up to the next call; a lock
    that cannot be taken makes its thread wait ([pthread_spin_lock] turns in
    the meantime).  Who holds a lock is read off the program counters
    ([ListRw.v], [ListSpin.v] and [ListMutex.v] show on the level of single memory
    accesses that every unlock is by a holder). *)
From stdpp Require Import base list numbers.
From iris.prelude Require Import prelude.
From S2P Require Import Prelude Steps.
#[local] Open Scope nat_scope.

Definition MIN_SIZE_LIST : nat := 3.

(** How a lock is taken: [rwlock.c] takes it for reading in the walks, the
    other programs know one way. *)
Inductive mode : Set := Read | Write.

#[global] Instance mode_eq_dec : EqDecision mode.
Proof. solve_decision. Defined.

(** Where a thread is.  [i] and [p] are the positions of [node] and [prev], [r]
    is how many rounds [random_swap] has still to make. *)
Inductive pc : Set :=
| FLock (i : nat)                        (* rdlock(node) *)
| FNext (i : nat)                        (* next == NULL? *)
| FLock2 (i : nat)                       (* rdlock(next) *)
| FBoth (i : nat)                        (* compare; unlock(next) *)
| FUnlock (i : nat)                      (* unlock(tmp) *)
| SIndex                                 (* number_random_node *)
| SLock (p r : nat)                      (* wrlock(prev) *)
| SNext (p r : nat)                      (* prev->next == NULL? *)
| SLock2 (p r : nat)                     (* wrlock(prev->next) *)
| SNext2 (p r : nat)                     (* prev->next->next == NULL? *)
| SBreak (p : nat)                       (* unlock(prev), behind unlock(prev->next) *)
| SLock3 (p r : nat)                     (* wrlock(prev->next->next) *)
| SAll (p r : nat)                       (* unlock(node->next->next) *)
| STwo (p r : nat)                       (* unlock(node->next) *)
| SOne (p r : nat).                      (* unlock(node) *)

#[global] Instance pc_eq_dec : EqDecision pc.
Proof. solve_decision. Defined.

(** [count]: the thread's entry of [count_increment]. *)
Record thread : Set := Thread { at_pc : pc; count : nat }.

(** The nodes a thread has locked, and the one it is about to lock. *)
Definition holds (t : thread) : list nat :=
  match at_pc t with
  | FLock _ | SIndex | SLock _ _ => []
  | FNext i | FLock2 i | FUnlock i | SNext i _ | SLock2 i _ | SBreak i | SOne i _ => [i]
  | FBoth i | SNext2 i _ | SLock3 i _ | STwo i _ => [i; i + 1]
  | SAll i _ => [i; i + 1; i + 2]
  end.

Definition wants (t : thread) : option nat :=
  match at_pc t with
  | FLock i | SLock i _ => Some i
  | FLock2 i | SLock2 i _ => Some (i + 1)
  | SLock3 i _ => Some (i + 2)
  | _ => None
  end.

Section program.
(** [size]: the nodes of the list; [walk_mode]: how the walks take a lock;
    [prefer_writers]: whether a reader has to wait behind a waiting writer,
    which POSIX leaves open. *)
Context (size : nat) (walk_mode : mode) (prefer_writers : bool).

Definition mode_of (t : thread) : mode :=
  match at_pc t with
  | FLock _ | FNext _ | FLock2 _ | FBoth _ | FUnlock _ => walk_mode
  | _ => Write
  end.

(** Readers share, everybody else excludes. *)
Definition shares (m m' : mode) : bool := match m, m' with Read, Read => true | _, _ => false end.

Definition blocks (x : nat) (m : mode) (t : thread) : bool :=
  bool_decide (x ∈ holds t) && negb (shares m (mode_of t)) ||
  prefer_writers && bool_decide (m = Read) && bool_decide (wants t = Some x) && bool_decide (mode_of t = Write).

(** Thread [k], [t], gets the lock it wants unless somebody else is in the
    way. *)
Definition can_lock (k x : nat) (t : thread) (ts : list thread) : bool :=
  negb (existsb (blocks x (mode_of t)) (delete k ts)).

(** The successful call. *)
Definition locked (t : thread) : thread :=
  Thread match at_pc t with
    | FLock i => FNext i
    | FLock2 i => FBoth i
    | SLock p r => SNext p r
    | SLock2 p r => SNext2 p r
    | SLock3 p r => SAll p r
    | c => c
    end (count t).

(** The end of a walk: [++count_increment[..]], and from the start again. *)
Definition again (c : pc) (t : thread) : thread := Thread c (S (count t)).

(** The statements of [find_increasing] and the others, and of [random_swap],
    where no lock is taken; [rand] is what [rand_r] gives modulo [size - 2]. *)
Definition proceed (rand : nat) (t : thread) : outcome thread :=
  let go c := Next (Thread c (count t)) in
  match at_pc t with
  | FNext i => if decide (i + 1 = size) then Next (again (FLock 0) t) else go (FLock2 i)
  | FBoth i => go (FUnlock i)
  | FUnlock i => go (FLock (i + 1))
  | SIndex =>
      if decide (rand < size - 2) then go (if decide (rand < MIN_SIZE_LIST) then SIndex else SLock 0 rand)
      else Disabled
  | SNext p r => if decide (p + 1 = size) then Next (again SIndex t) else go (SLock2 p r)
  | SNext2 p r => if decide (p + 2 = size) then go (SBreak p) else go (SLock3 p r)
  | SBreak p => Next (again SIndex t)
  | SAll p r => go (STwo p r)
  | STwo p r => go (SOne p r)
  | SOne p r => if decide (r = 1) then Next (again SIndex t) else go (SLock (p + 1) (r - 1))
  | _ => Disabled
  end.

(** Thread [k] makes a step. *)
Definition step (l : nat * nat) (s : list thread) : outcome (list thread) :=
  let '(k, rand) := l in
  possible (s !! k) (λ t,
  match wants t with
  | Some x => if can_lock k x t s then Next (<[k := locked t]> s) else Disabled
  | None =>
      match proceed rand t with
      | Next t => Next (<[k := t]> s)
      | Undefined => Undefined
      | Disabled => Disabled
      end
  end).

(** [main] starts threads of both kinds. *)
Definition start (finder : bool) : thread := Thread (if finder then FLock 0 else SIndex) 0.
Definition init (finders : list bool) : list thread := start <$> finders.

(** ** Exclusion *)

(** Whoever holds the same node shares it. *)
Definition exclusive (s : list thread) : Prop :=
  ∀ j k t t' x, j ≠ k → s !! j = Some t → s !! k = Some t' → x ∈ holds t → x ∈ holds t' →
  mode_of t = Read ∧ mode_of t' = Read.

Lemma shares_true m m' : shares m m' = true ↔ m = Read ∧ m' = Read.
Proof. destruct m, m'; cbn; split; intuition congruence. Qed.

(** What a step of one thread must not do. *)
Lemma exclusive_insert s k t t' :
  exclusive s → s !! k = Some t → mode_of t' = mode_of t →
  (∀ x, x ∈ holds t' → x ∈ holds t ∨
     ∀ j u, j ≠ k → s !! j = Some u → x ∈ holds u → mode_of t = Read ∧ mode_of u = Read) →
  exclusive (<[k := t']> s).
Proof.
  intros He Hk Hm Hh. assert (∀ j u x, j ≠ k → s !! j = Some u → x ∈ holds t' → x ∈ holds u →
    mode_of t' = Read ∧ mode_of u = Read) as H.
  { intros j u x Hj Hu Hx Hx'. rewrite Hm. destruct (Hh x Hx) as [Ht|Ht]; [|by eapply Ht].
    by eapply (He k j t u x). }
  intros j i u u' x Hji Hu Hu' Hx Hx'.
  destruct (decide (j = k)) as [->|Hjk]; destruct (decide (i = k)) as [->|Hik]; [done| | |].
  - rewrite list_lookup_insert_eq in Hu; [|by eapply lookup_lt_Some]. injection Hu as <-.
    rewrite list_lookup_insert_ne // in Hu'.
    by apply (H i u' x).
  - rewrite list_lookup_insert_eq in Hu'; [|by eapply lookup_lt_Some]. injection Hu' as <-.
    rewrite list_lookup_insert_ne // in Hu. destruct (H j u x) as [-> ->]; done.
  - rewrite list_lookup_insert_ne // in Hu. rewrite list_lookup_insert_ne // in Hu'.
    by apply (He j i u u' x).
Qed.

(** The others are those behind the removed one and those in front of it. *)
Lemma others_in k j (s : list thread) u : s !! j = Some u → j ≠ k → u ∈ delete k s.
Proof.
  intros Hj Hne. destruct (decide (j < k)) as [Hlt|Hge].
  - apply (list_elem_of_lookup_2 _ j). rewrite list_lookup_delete_lt //.
  - apply (list_elem_of_lookup_2 _ (j - 1)). rewrite list_lookup_delete_ge; [|lia].
    by replace (S (j - 1)) with j by lia.
Qed.

Lemma can_lock_true k x t s j u :
  can_lock k x t s = true → s !! j = Some u → j ≠ k → blocks x (mode_of t) u = false.
Proof.
  unfold can_lock. intros H%negb_true_iff Hj Hne. apply not_true_iff_false. intros Hb.
  apply not_true_iff_false in H. apply H, existsb_exists. exists u.
  split; [by apply list_elem_of_In, (others_in k j)|done].
Qed.

Lemma locked_holds t x y : wants t = Some x → y ∈ holds (locked t) → y ∈ holds t ∨ y = x.
Proof.
  destruct t as [[] c]; unfold wants, holds, locked; cbn; intros [= <-] Hy;
    rewrite ?elem_of_cons in Hy |- *; rewrite ?elem_of_nil in Hy |- *; tauto.
Qed.

Lemma proceed_holds rand t t' y : proceed rand t = Next t' → y ∈ holds t' → y ∈ holds t.
Proof.
  destruct t as [[] c]; unfold proceed, holds; cbn; intros H Hy;
    repeat case_decide; try done; injection H as <-; cbn in Hy;
    rewrite ?elem_of_cons in Hy |- *; rewrite ?elem_of_nil in Hy |- *; tauto.
Qed.

Lemma locked_mode t : mode_of (locked t) = mode_of t.
Proof. by destruct t as [[] c]. Qed.

Lemma proceed_mode rand t t' : proceed rand t = Next t' → mode_of t' = mode_of t.
Proof.
  destruct t as [[] c]; unfold proceed; cbn; intros H; repeat case_decide; try done; by injection H as <-.
Qed.

Lemma exclusive_step l s s' : exclusive s → step l s = Next s' → exclusive s'.
Proof.
  destruct l as [k rand]. intros He H. unfold step in H. apply possible_Next in H as (t & Hk & H).
  destruct (wants t) as [x|] eqn:Hw.
  - destruct (can_lock k x t s) eqn:Hc; [|done]. injection H as <-.
    apply (exclusive_insert _ _ t); [done..|apply locked_mode|].
    intros y Hy. destruct (locked_holds t x y Hw Hy) as [Hy'| ->]; [by left|right]. intros j u Hj Hu Hx.
    pose proof (can_lock_true _ _ _ _ _ _ Hc Hu Hj) as Hb. unfold blocks in Hb.
    apply orb_false_iff in Hb as [Hb _]. rewrite bool_decide_true // in Hb.
    apply shares_true. by destruct (shares (mode_of t) (mode_of u)).
  - destruct (proceed rand t) as [t'| |] eqn:Hp; [|done..]. injection H as <-.
    apply (exclusive_insert _ _ t); [done..|by eapply proceed_mode|].
    intros y Hy. left. by eapply proceed_holds.
Qed.

(** ** Progress *)

Context (Hsize : 6 ≤ size).

(** A thread that waits for a lock holds nodes in front of it only. *)
Lemma holds_before t x y : wants t = Some x → y ∈ holds t → y < x.
Proof.
  destruct t as [[] c]; unfold wants, holds; cbn; intros [= <-] Hy;
    rewrite ?elem_of_cons in Hy; rewrite ?elem_of_nil in Hy; lia.
Qed.

(** One that does not wait goes on. *)
Lemma proceed_some t : wants t = None → ∃ t', proceed MIN_SIZE_LIST t = Next t'.
Proof.
  destruct t as [[] c]; unfold wants, proceed; cbn; intros H; try done; repeat case_decide; try by eexists.
  unfold MIN_SIZE_LIST in *. lia.
Qed.

Lemma step_running s k t : s !! k = Some t → wants t = None → ∃ s', step (k, MIN_SIZE_LIST) s = Next s'.
Proof.
  intros Hk Hw. unfold step. rewrite Hk. cbn. rewrite Hw.
  destruct (proceed_some t Hw) as [t' ->]. by eexists.
Qed.

(** Nobody holds the node that is wanted furthest down the list. *)
Lemma furthest_free s x k t :
  (∀ u, u ∈ s → ∃ y, wants u = Some y ∧ y ≤ x) → s !! k = Some t → wants t = Some x →
  (prefer_writers = true → mode_of t = Read → ∀ u, u ∈ s → wants u = Some x → mode_of u = Read) →
  ∃ s', step (k, MIN_SIZE_LIST) s = Next s'.
Proof.
  intros Hmax Hk Hw Hread. unfold step. rewrite Hk. cbn. rewrite Hw.
  assert (can_lock k x t s = true) as ->; [|by eexists].
  apply negb_true_iff, not_true_iff_false. intros (u & Hu & Hb)%existsb_exists.
  apply list_elem_of_In in Hu. assert (u ∈ s) as Hin.
  { apply list_elem_of_lookup in Hu as [j Hj]. destruct (decide (j < k)) as [Hlt|Hge].
    - rewrite list_lookup_delete_lt // in Hj. by eapply list_elem_of_lookup_2.
    - rewrite list_lookup_delete_ge in Hj; [|lia]. by eapply list_elem_of_lookup_2. }
  unfold blocks in Hb. apply orb_true_iff in Hb as [Hb|Hb].
  - apply andb_true_iff in Hb as [Hx%bool_decide_eq_true_1 _]. destruct (Hmax u Hin) as (y & Hy & Hle).
    pose proof (holds_before u y x Hy Hx). lia.
  - apply andb_true_iff in Hb as [[[Hp Hm]%andb_true_iff Hx]%andb_true_iff Hu'].
    apply bool_decide_eq_true_1 in Hm, Hx, Hu'.
    specialize (Hread Hp Hm u Hin Hx). congruence.
Qed.

Lemma never_stuck s : s ≠ [] → ∃ k s', step (k, MIN_SIZE_LIST) s = Next s'.
Proof.
  intros Hs. destruct (decide (Exists (λ t, wants t = None) s)) as [He|He].
  { apply Exists_exists in He as (t & [k Hk]%list_elem_of_lookup & Hw). exists k. by eapply step_running. }
  assert (∀ u, u ∈ s → ∃ y, wants u = Some y) as Hall.
  { intros u Hu. destruct (wants u) as [y|] eqn:E; [by exists y|]. exfalso. apply He, Exists_exists. by exists u. }
  (* furthest first, writers before readers *)
  destruct (exists_max (λ u, 2 * default 0 (wants u) + match mode_of u with Read => 0 | Write => 1 end) s Hs)
    as (k & t & Hk & Hmax).
  destruct (Hall t (list_elem_of_lookup_2 _ _ _ Hk)) as [x Hx]. exists k.
  apply (furthest_free s x k t); [|done..|].
  - intros u Hu. destruct (Hall u Hu) as [y Hy]. exists y. split; [done|].
    specialize (Hmax u Hu). cbn in Hmax. rewrite Hx Hy in Hmax. cbn in Hmax.
    destruct (mode_of u), (mode_of t); lia.
  - intros _ Hr u Hu Hw. specialize (Hmax u Hu). cbn in Hmax. rewrite Hx Hw Hr in Hmax. cbn in Hmax.
    destruct (mode_of u); [done|lia].
Qed.

(** ** Rate *)

(** The positions a thread can be at. *)
Definition pc_ok (t : thread) : Prop :=
  match at_pc t with
  | FLock i | FNext i => i < size
  | FLock2 i | FBoth i | FUnlock i => i + 1 < size
  | SIndex | SBreak _ => True
  | SLock _ r | SNext _ r | SLock2 _ r | SNext2 _ r | SLock3 _ r | SAll _ r | STwo _ r | SOne _ r =>
      0 < r < size
  end.

(** How many steps a thread is from the end of its walk, at most. *)
Definition to_go (t : thread) : nat :=
  match at_pc t with
  | FLock i => 5 * (size - 1 - i) + 2
  | FNext i => 5 * (size - 1 - i) + 1
  | FLock2 i => 5 * (size - 1 - i)
  | FBoth i => 5 * (size - 1 - i) - 1
  | FUnlock i => 5 * (size - 1 - i) - 2
  | SIndex => 8 * size
  | SLock _ r => 8 * r
  | SNext _ r => 8 * r - 1
  | SLock2 _ r => 8 * r - 2
  | SNext2 _ r => 8 * r - 3
  | SBreak _ => 1
  | SLock3 _ r => 8 * r - 4
  | SAll _ r => 8 * r - 5
  | STwo _ r => 8 * r - 6
  | SOne _ r => 8 * r - 7
  end.

Lemma locked_ok t x :
  pc_ok t → wants t = Some x → pc_ok (locked t) ∧ to_go (locked t) < to_go t ∧ count (locked t) = count t.
Proof. destruct t as [[] c]; unfold pc_ok, wants, to_go, locked; cbn; intros Hi [= <-]; lia. Qed.

(** A step that takes no lock: a walk ends, the end comes closer, or another
    number has to be drawn. *)
Lemma proceed_ok rand t t' :
  pc_ok t → proceed rand t = Next t' →
  pc_ok t' ∧
  (to_go t' < to_go t ∧ count t' = count t ∨
   0 < to_go t ∧ to_go t' ≤ 8 * size ∧ count t' = S (count t) ∨
   at_pc t = SIndex ∧ rand < MIN_SIZE_LIST ∧ t' = t).
Proof.
  destruct t as [[] c]; unfold pc_ok, proceed, to_go, again; cbn; intros Hi H; try done;
    repeat case_decide; try done; injection H as <-; cbn; unfold MIN_SIZE_LIST in *;
    first [lia | split; [done|by right; right]].
Qed.

Definition walks (s : list thread) : nat := sum_list_with count s.
Definition ahead (s : list thread) : nat := sum_list_with to_go s.

(** [number_random_node] draws a number too small to be used. *)
Definition redraw (l : nat * nat) (s : list thread) : bool :=
  match s !! l.1 with
  | Some t => bool_decide (at_pc t = SIndex) && bool_decide (l.2 < MIN_SIZE_LIST)
  | None => false
  end.

(** How often it does so along a schedule. *)
Fixpoint redraws (sched : list (nat * nat)) (s : list thread) : nat :=
  match sched with
  | [] => 0
  | l :: sched =>
      (if redraw l s then 1 else 0) +
      match step l s with Next s' => redraws sched s' | _ => 0 end
  end.

Lemma step_rate l s s' :
  Forall pc_ok s → step l s = Next s' →
  Forall pc_ok s' ∧ walks s ≤ walks s' ∧
  ahead s' + 1 + 8 * size * walks s ≤ ahead s + 8 * size * walks s' + (if redraw l s then 1 else 0).
Proof.
  destruct l as [k rand]. intros Hok H. unfold step in H. apply possible_Next in H as (t & Hk & H).
  pose proof (Forall_lookup_1 _ _ _ _ Hok Hk) as Ht.
  assert (∃ t', s' = <[k := t']> s ∧ pc_ok t' ∧
    (to_go t' < to_go t ∧ count t' = count t ∨
     0 < to_go t ∧ to_go t' ≤ 8 * size ∧ count t' = S (count t) ∨
     at_pc t = SIndex ∧ rand < MIN_SIZE_LIST ∧ t' = t)) as (t' & -> & Ht' & Hc).
  { destruct (wants t) as [x|] eqn:Hw.
    - destruct (can_lock k x t s); [|done]. injection H as <-. exists (locked t).
      destruct (locked_ok t x Ht Hw) as (H1 & H2 & H3). auto.
    - destruct (proceed rand t) as [t'| |] eqn:Hp; [|done..]. injection H as <-. exists t'.
      split; [done|]. by eapply proceed_ok. }
  split; [by apply Forall_insert|]. apply and_wlog_r; [|intros Hw]; unfold ahead, walks in *.
  { pose proof (sum_insert count _ _ _ t' Hk). destruct Hc as [[_ ?]|[(_ & _ & ?)|(_ & _ & ->)]]; lia. }
  pose proof (sum_insert to_go _ _ _ t' Hk). pose proof (sum_insert count _ _ _ t' Hk).
  set (N := 8 * size) in *.
  destruct Hc as [[E1 E2]|[(E1 & E2 & E3)|(E0 & E1 & ->)]].
  - assert (sum_list_with count (<[k:=t']> s) = sum_list_with count s) as -> by lia. lia.
  - assert (sum_list_with count (<[k:=t']> s) = S (sum_list_with count s)) as -> by lia. lia.
  - rewrite list_insert_id //. unfold redraw. cbn. rewrite Hk !bool_decide_true //=. lia.
Qed.

Lemma run_rate sched s s' :
  Forall pc_ok s → run step sched s = Next s' →
  length sched + ahead s' + 8 * size * walks s ≤ ahead s + 8 * size * walks s' + redraws sched s.
Proof.
  revert s. induction sched as [|l sched IH]; intros s Hs H; cbn in H; [injection H as ->; cbn; lia|].
  destruct (step l s) as [s1| |] eqn:E; [|done..]. destruct (step_rate _ _ _ Hs E) as (H1 & _ & H2).
  specialize (IH s1 H1 H). cbn [length redraws]. rewrite E. set (N := 8 * size) in *. lia.
Qed.

Lemma ahead_le s : Forall pc_ok s → ahead s ≤ 8 * size * length s.
Proof.
  unfold ahead. induction 1 as [|t s Ht _ IH]; [cbn; lia|].
  assert (to_go t ≤ 8 * size) by (destruct t as [[] c]; unfold pc_ok, to_go in *; cbn in *; lia).
  cbn [length]. rewrite Nat.mul_succ_r. simpl. lia.
Qed.

Lemma init_ok finders : Forall pc_ok (init finders) ∧ exclusive (init finders).
Proof.
  split.
  - apply Forall_fmap, Forall_true. intros []; cbn; unfold pc_ok; cbn; lia.
  - intros j k t t' x _ Hj _ Hx _. apply list_lookup_fmap_Some in Hj as (b & -> & _).
    destruct b; by apply elem_of_nil in Hx.
Qed.

Lemma step_length l s s' : step l s = Next s' → length s' = length s.
Proof.
  destruct l as [k rand]. intros H. unfold step in H. apply possible_Next in H as (t & Hk & H).
  destruct (wants t) as [x|]; [destruct (can_lock k x t s); [|done]|destruct (proceed rand t); [|done..]];
    injection H as <-; apply length_insert.
Qed.

(** Whoever holds the same lock shares it. *)
Lemma list_exclusive finders s : reachable step (init finders) s → exclusive s.
Proof.
  revert s. apply invariant_reachable; [apply init_ok|]. intros l. apply exclusive_step.
Qed.

Lemma list_reachable finders s :
  reachable step (init finders) s → Forall pc_ok s ∧ length s = length finders.
Proof.
  revert s. apply invariant_reachable; [split; [apply init_ok|apply length_fmap]|].
  intros l u u' [Hu Hl] E. split; [by eapply step_rate|]. by rewrite (step_length _ _ _ E).
Qed.

(** Some schedule completes a walk. *)
Lemma walk_completed n s :
  ahead s ≤ n → Forall pc_ok s → s ≠ [] →
  ∃ sched s', length sched ≤ S n ∧ run step sched s = Next s' ∧ walks s < walks s'.
Proof.
  revert s. induction n as [n IH] using lt_wf_ind. intros s Hn Hok Hs.
  destruct (never_stuck s Hs) as (k & s1 & E). destruct (step_rate _ _ _ Hok E) as (H1 & Hmono & H2).
  assert (redraw (k, MIN_SIZE_LIST) s = false) as Hd.
  { unfold redraw. destruct (s !! _); [|done]. apply andb_false_r. }
  rewrite Hd in H2. destruct (decide (walks s < walks s1)) as [Hw|Hw].
  { exists [(k, MIN_SIZE_LIST)], s1. cbn [run length]. rewrite E. split; [lia|]. done. }
  assert (walks s1 = walks s) as Hweq by lia. rewrite Hweq in H2.
  destruct (IH (ahead s1)) with s1 as (sched & s' & Hl & Hr & Hw'); [lia|done|done| |].
  { intros ->. apply step_length in E. by destruct s. }
  exists ((k, MIN_SIZE_LIST) :: sched), s'. cbn [run length]. rewrite E.
  split; [lia|]. split; [done|]. lia.
Qed.

(** C15. Wherever an interleaving has got to: some thread can take a step; under
    every scheduler, even an unfair one, at most [8 * size] steps for each
    thread and for each walk that ends are taken, not counting those in which
    [number_random_node] draws a number that it has to draw again; and within
    that many steps some schedule ends a walk. *)
Theorem list_never_stops finders s :
  finders ≠ [] → reachable step (init finders) s →
  (∃ k s', step (k, MIN_SIZE_LIST) s = Next s') ∧
  (∀ sched s', run step sched s = Next s' →
     length sched ≤ 8 * size * (walks s' - walks s + length finders) + redraws sched s) ∧
  ∃ sched s', length sched ≤ S (8 * size * length finders) ∧ run step sched s = Next s' ∧
    walks s < walks s'.
Proof.
  intros Hf Hr. destruct (list_reachable _ _ Hr) as [Hok Hl].
  assert (s ≠ []) as Hs by (intros ->; by destruct finders).
  pose proof (ahead_le s Hok) as Ha. rewrite Hl in Ha.
  split; [by apply never_stuck|]. split; [|by apply walk_completed].
  intros sched s' H. pose proof (run_rate _ _ _ Hok H) as Hrate.
  rewrite Nat.mul_add_distr_l Nat.mul_sub_distr_l. lia.
Qed.

End program.

(** Seven nodes, a reader and a thread that locks three: the reader waits for
    it at the first node. *)
Definition some_steps : list (nat * nat) :=
  [(1, 4); (1, 4); (1, 4); (1, 4); (1, 4); (1, 4); (1, 4); (1, 4); (1, 4); (0, 4); (0, 4)].

Lemma list_never_stops_witness :
  [true; false] ≠ [] ∧ ∃ s, run (step 7 Read true) (take 8 some_steps) (init [true; false]) = Next s ∧
    ((∃ k s', step 7 Read true (k, MIN_SIZE_LIST) s = Next s') ∧
     (∀ sched s', run (step 7 Read true) sched s = Next s' →
        length sched ≤ 8 * 7 * (walks s' - walks s + length [true; false]) + redraws 7 Read true sched s) ∧
     ∃ sched s', length sched ≤ S (8 * 7 * length [true; false]) ∧
       run (step 7 Read true) sched s = Next s' ∧ walks s < walks s').
Proof.
  split; [done|]. eexists. split; [vm_compute; reflexivity|].
  apply (list_never_stops 7 Read true); [lia|done|].
  eapply (run_reachable _ _ (take 8 some_steps)); [apply reachable_init|]. vm_compute. reflexivity.
Defined.

(** While the first three nodes are locked, the reader cannot take a step. *)
Lemma reader_waits :
  ∃ s, run (step 7 Read true) (take 8 some_steps) (init [true; false]) = Next s ∧
    step 7 Read true (0, 4) s = Disabled.
Proof. eexists. split; [vm_compute; reflexivity|]. reflexivity. Qed.
