(* ===== verification/ReverseTool.v ===== *)
(** * ReverseTool: a mirrored copy of a directory

    [semestr1/Task3/Task3_1/main.c]: copies a directory tree with every name
    and every file's contents reversed. *)
From stdpp Require Import base list numbers strings.
From iris.prelude Require Import prelude.
From Stdlib Require Import Ascii.
From S2P Require Import Prelude CString.
#[local] Open Scope nat_scope.

Definition INCREASE_POS : nat := 1.
Definition BUFFER_SIZE : nat := 256.
Definition MAX_LEN_NAME_FILE : nat := 256.

(** [OK], [ERROR] *)
Inductive status : Set := OK | ERROR.
#[global] Instance status_eq_dec : EqDecision status.
Proof. solve_decision. Defined.

(** ** Reversing an array *)

Section reverse.
Context {A : Type}.

(** [swap(&line[i], &line[j])] *)
Definition swap (line : list A) (i j : nat) : option (list A) :=
  x ← line !! i; y ← line !! j; Some (<[j := x]> (<[i := y]> line)).

(** The loop of [reverse_line] with [n] rounds to go, at round [i]. *)
Fixpoint reverse_loop (n i size : nat) (line : list A) : option (list A) :=
  match n with
  | 0 => Some line
  | S n' => line' ← swap line i (size - i - INCREASE_POS); reverse_loop n' (S i) size line'
  end.

(** [int mid_len = size / 2]: the middle is an [int]. *)
Definition mid_len (size : nat) : nat := Z.to_nat (wrap32 (Z.of_nat size / 2)).
Definition reverse_line (line : list A) (size : nat) : option (list A) :=
  reverse_loop (mid_len size) 0 size line.

(** *** Correctness *)

(** The array after [i] rounds: the two outer parts have been exchanged. *)
Definition half_reversed (line : list A) (size i k : nat) : option A :=
  if decide (k < i ∨ size - i ≤ k < size) then line !! (size - 1 - k) else line !! k.

Lemma swap_spec line line0 size i :
  i < size / 2 → size ≤ length line0 → length line = length line0 →
  (∀ k, line !! k = half_reversed line0 size i k) →
  ∃ line', swap line i (size - i - 1) = Some line' ∧ length line' = length line0 ∧
           (∀ k, line' !! k = half_reversed line0 size (S i) k).
Proof.
  intros Hi Hsize Hlen Hk. pose proof (Nat.div_lt size 2) as Hd.
  assert (size = 2 * (size / 2) + size mod 2) as Hs by (apply Nat.div_mod; lia).
  destruct (lookup_lt_is_Some_2 line0 i) as [x Hx]; [lia|].
  destruct (lookup_lt_is_Some_2 line0 (size - i - 1)) as [y Hy]; [lia|].
  assert (line !! i = Some x) as Hx'.
  { rewrite Hk /half_reversed decide_False; [done|lia]. }
  assert (line !! (size - i - 1) = Some y) as Hy'.
  { rewrite Hk /half_reversed decide_False; [done|lia]. }
  exists (<[size - i - 1 := x]> (<[i := y]> line)). unfold swap. rewrite Hx' Hy'.
  split; [done|]. split; [by rewrite !length_insert|]. intros k.
  destruct (decide (k = size - i - 1)) as [->|Hk1].
  { rewrite list_lookup_insert_eq; [|rewrite length_insert; lia].
    rewrite /half_reversed decide_True; [|lia].
    by replace (size - 1 - (size - i - 1)) with i by lia. }
  rewrite list_lookup_insert_ne; [|done]. destruct (decide (k = i)) as [->|Hk2].
  { rewrite list_lookup_insert_eq; [|lia]. rewrite /half_reversed decide_True; [|lia].
    by replace (size - 1 - i) with (size - i - 1) by lia. }
  rewrite list_lookup_insert_ne; [|done]. rewrite Hk /half_reversed.
  destruct (decide (k < i ∨ size - i ≤ k < size)).
  - rewrite decide_True; [done|lia].
  - rewrite decide_False; [done|lia].
Qed.

Lemma reverse_loop_spec n i size line line0 :
  i + n ≤ size / 2 → size ≤ length line0 → length line = length line0 →
  (∀ k, line !! k = half_reversed line0 size i k) →
  ∃ line', reverse_loop n i size line = Some line' ∧
           (∀ k, line' !! k = half_reversed line0 size (i + n) k).
Proof.
  revert i line. induction n as [|n IH]; intros i line Hi Hsize Hlen Hk; cbn [reverse_loop].
  { exists line. split; [done|]. intros k. rewrite Nat.add_0_r. apply Hk. }
  destruct (swap_spec line line0 size i) as (line' & Hsw & Hlen' & Hk'); [lia|done..|].
  unfold INCREASE_POS. rewrite Hsw. simpl. rewrite -Nat.add_succ_comm. apply IH; [lia|done..].
Qed.

Lemma mid_len_small size : (Z.of_nat size < 2 ^ 32)%Z → mid_len size = size / 2.
Proof.
  intros Hs. unfold mid_len. rewrite wrap32_id.
  - rewrite Z2Nat.inj_div; [|lia..]. by rewrite Nat2Z.id.
  - unfold int_range, INT_MAX.
    pose proof (Z.div_lt_upper_bound (Z.of_nat size) 2 (2 ^ 31)).
    pose proof (Z.div_pos (Z.of_nat size) 2). lia.
Qed.

(** The first [size] elements are reversed, the rest stays. *)
Lemma reverse_line_spec (line : list A) size :
  size ≤ length line → (Z.of_nat size < 2 ^ 32)%Z →
  reverse_line line size = Some (reverse (take size line) ++ drop size line).
Proof.
  intros Hsize Hb. unfold reverse_line. rewrite mid_len_small //.
  destruct (reverse_loop_spec (size / 2) 0 size line line) as (line' & -> & Hk); [done..| |].
  { intros k. rewrite /half_reversed decide_False; [done|lia]. }
  f_equal. apply list_eq. intros k. rewrite Hk /half_reversed.
  assert (size = 2 * (size / 2) + size mod 2) as Hs by (apply Nat.div_mod; lia).
  pose proof (Nat.mod_upper_bound size 2) as Hm.
  assert (length (reverse (take size line)) = size) as Hr.
  { rewrite length_reverse length_take. lia. }
  destruct (decide (k < size)) as [Hks|Hks].
  - rewrite lookup_app_l; [|lia]. rewrite reverse_lookup; [|rewrite length_take; lia].
    rewrite length_take. replace (size `min` length line - S k) with (size - 1 - k) by lia.
    rewrite lookup_take_lt; [|lia]. case_decide; [done|].
    f_equal. lia.
  - rewrite decide_False; [|lia]. rewrite lookup_app_r; [|lia]. rewrite Hr lookup_drop.
    f_equal. lia.
Qed.

End reverse.

(** ** Reversing a file *)

(** What the environment decides about one call of [create_reverse_file]: do
    the files open, do the seeks and [ftell] succeed, does the [k]-th [fread] deliver,
    how much does the [k]-th [fwrite] write.  [fwrite] may keep what it takes in
    a buffer: [flushed] says what the file holds once the stream is closed, of
    what was written to it; the result of [fclose] is not looked at. *)
Record io : Set := IO {
  opens_in : bool;
  opens_out : bool;
  seeks_end : bool;
  tells : bool;
  seeks_start : bool;
  reads : nat → bool;
  seeks_out : nat → bool;
  writes : nat → nat;
  flushed : list ascii → list ascii
}.

(** [fseek] to [p], then [fwrite] of [d]: a gap is filled with zeros. *)
Definition fwrite_at (out : list ascii) (p : nat) (d : list ascii) : list ascii :=
  overwrite out p d.

(** The streams that are open.  Closing one that is not is undefined. *)
Inductive stream : Set := input_file | output_file.
#[global] Instance stream_eq_dec : EqDecision stream.
Proof. solve_decision. Defined.

Definition fclose (f : stream) (streams : list stream) : option (list stream) :=
  if decide (f ∈ streams) then Some (filter (λ g, g ≠ f) streams) else None.

(** [(size_t) ERROR] *)
Definition SIZE_MAX : Z := (2 ^ 64 - 1)%Z.

(** The loop: [k] rounds done, [left] is [bytes_left], [pos] the position in
    the input, [buf] the buffer, [out] what has been written to the output.
    Its early exits close both streams.  [None]: undefined, or out of fuel. *)
Fixpoint copy_loop (fuel : nat) (e : io) (k left pos : nat) (buf : buffer)
    (input out : list ascii) (streams : list stream) : option (status * list ascii * list stream) :=
  match fuel with
  | 0 => None
  | S fuel' =>
      if decide (0 < left) then
        let bytes_to_read := if decide (left < BUFFER_SIZE) then left else BUFFER_SIZE in
        let chunk := take bytes_to_read (drop pos input) in
        (* feof is set by a short read, ferror by a failing one *)
        if decide (reads e k = false ∨ length chunk < bytes_to_read) then
          streams ← fclose input_file streams;
          streams ← fclose output_file streams;
          Some (ERROR, out, streams)
        else
          buf ← write_at buf 0 chunk;
          buf ← reverse_line buf (length chunk);
          let left' := left - length chunk in
          if seeks_out e k then
            let bytes_written := Nat.min (writes e k) (length chunk) in
            let out := fwrite_at out left' (take bytes_written buf) in
            (* a size_t compared with -1 *)
            if decide (Z.of_nat bytes_written = SIZE_MAX) then
              streams ← fclose input_file streams;
              streams ← fclose output_file streams;
              Some (ERROR, out, streams)
            else copy_loop fuel' e (S k) left' (pos + length chunk) buf input out streams
          else
            streams ← fclose input_file streams;
            streams ← fclose output_file streams;
            Some (ERROR, out, streams)
      else Some (OK, out, streams)
  end.

(** The status, the output file if it was created, and the streams left open.
    [buf] is the uninitialised local buffer. *)
Definition create_reverse_file (e : io) (buf : buffer) (input : list ascii) :
    option (status * option (list ascii) * list stream) :=
  if opens_in e then
    let streams := [input_file] in
    if opens_out e then
      let streams := output_file :: streams in
      if seeks_end e then
        (* -1 if ftell fails: the loop does not run *)
        let file_size := if tells e then length input else 0 in
        if seeks_start e then
          '(ret, out, streams) ← copy_loop (S file_size) e 0 file_size 0 buf input [] streams;
          match ret with
          | ERROR => Some (ERROR, Some (flushed e out), streams)
          | OK =>
              streams ← fclose input_file streams;
              streams ← fclose output_file streams;
              Some (OK, Some (flushed e out), streams)
          end
        else
          streams ← fclose input_file streams;
          streams ← fclose output_file streams;
          Some (ERROR, Some (flushed e []), streams)
      else
        streams ← fclose input_file streams;
        streams ← fclose output_file streams;
        Some (ERROR, Some (flushed e []), streams)
    else
      streams ← fclose input_file streams;
      Some (ERROR, None, streams)
  else Some (ERROR, None, []).

(** *** Correctness *)

(** Everything that is written arrives: [fwrite] takes all it is given, and
    closing the stream gets it into the file. *)
Definition full_writes (e : io) : Prop := ∀ k, BUFFER_SIZE ≤ writes e k.
Definition full_flush (e : io) : Prop := ∀ out, flushed e out = out.

(** Both streams, in the order of the code. *)
Lemma fclose_both :
  (fclose input_file [output_file; input_file] ≫= fclose output_file) = Some [].
Proof. reflexivity. Qed.

(** One round of the loop without errors. *)
Lemma round_spec buf chunk :
  length buf = BUFFER_SIZE → length chunk ≤ BUFFER_SIZE →
  ∃ buf', write_at buf 0 chunk ≫= (λ b, reverse_line b (length chunk)) =
            Some (reverse chunk ++ buf') ∧ length (reverse chunk ++ buf') = BUFFER_SIZE.
Proof.
  intros Hb Hc. rewrite write_at_0; [|lia]. simpl. exists (drop (length chunk) buf).
  rewrite reverse_line_spec.
  - rewrite take_app_length drop_app_length. split; [done|].
    rewrite length_app length_reverse length_drop. lia.
  - rewrite length_app. lia.
  - unfold BUFFER_SIZE in *. lia.
Qed.

(** The loop ends, and what it leaves when it ends well. *)
Lemma copy_loop_spec fuel e k left pos buf input out :
  left < fuel → left + pos = length input → length buf = BUFFER_SIZE →
  (full_writes e → out = if decide (pos = 0) then [] else replicate left NUL ++
                                                  reverse (take pos input)) →
  ∃ ret out', copy_loop fuel e k left pos buf input out [output_file; input_file] =
      Some (ret, out', match ret with OK => [output_file; input_file] | ERROR => [] end) ∧
    (ret = OK → full_writes e → out' = reverse input) ∧
    ((∀ j, reads e j = true) → (∀ j, seeks_out e j = true) → ret = OK).
Proof.
  revert k left pos buf out. induction fuel as [|fuel IH]; [lia|].
  intros k left pos buf out Hfuel Hlen Hbuf Hout. cbn [copy_loop].
  destruct (decide (0 < left)) as [Hleft|Hleft]; last first.
  { exists OK, out. split; [done|]. split; [|done]. intros _ Hw. rewrite (Hout Hw).
    assert (left = 0) as -> by lia. case_decide as Hp.
    - destruct input; [done|simpl in Hlen; lia].
    - simpl. by rewrite take_ge; [|lia]. }
  set (n := if decide (left < BUFFER_SIZE) then left else BUFFER_SIZE).
  assert (0 < n ≤ left ∧ n ≤ BUFFER_SIZE) as [Hn Hn'].
  { unfold n. destruct (decide (left < BUFFER_SIZE)); unfold BUFFER_SIZE in *; lia. }
  set (chunk := take n (drop pos input)).
  assert (length chunk = n) as Hchunk.
  { subst chunk. rewrite length_take length_drop. lia. }
  destruct (decide (reads e k = false ∨ length chunk < n)) as [Herr|Herr].
  { exists ERROR, out. split; [done|]. split; [done|]. intros Hr. exfalso.
    destruct Herr as [Herr|Herr]; [by rewrite Hr in Herr|lia]. }
  destruct (round_spec buf chunk) as (buf' & Hb & Hbl); [done|lia|].
  destruct (write_at buf 0 chunk) as [b1|]; [|done]. simpl in Hb. simpl. rewrite Hb. simpl.
  destruct (seeks_out e k) eqn:Hs; last first.
  { exists ERROR, out. split; [done|]. split; [done|]. intros _ Hs'. by rewrite Hs' in Hs. }
  rewrite decide_False; [|unfold SIZE_MAX, BUFFER_SIZE in *; lia].
  apply IH; [lia|lia|done|]. intros Hw. rewrite decide_False; [|lia].
  rewrite Nat.min_r; [|specialize (Hw k); lia].
  rewrite take_app_le; [|rewrite length_reverse; lia].
  rewrite take_ge; [|rewrite length_reverse; lia].
  assert (take (pos + length chunk) input = take pos input ++ chunk) as ->.
  { rewrite Hchunk. symmetry. apply take_take_drop. }
  rewrite reverse_app (Hout Hw). destruct (decide (pos = 0)) as [->|Hp].
  - rewrite /fwrite_at overwrite_gap take_0 app_nil_r. destruct (reverse chunk) eqn:Hr; [|done].
    apply (f_equal length) in Hr. rewrite length_reverse in Hr. simpl in Hr. lia.
  - replace left with (left - length chunk + length (reverse chunk)) at 1
      by (rewrite length_reverse; lia).
    apply overwrite_front.
Qed.

Lemma create_reverse_file_spec' e buf input :
  length buf = BUFFER_SIZE →
  ∃ ret out, create_reverse_file e buf input = Some (ret, out, []) ∧
    (ret = OK → tells e = true → full_writes e → full_flush e → out = Some (reverse input)) ∧
    (opens_in e = true → opens_out e = true → seeks_end e = true → seeks_start e = true →
     (∀ k, reads e k = true) → (∀ k, seeks_out e k = true) → ret = OK).
Proof.
  intros Hbuf. unfold create_reverse_file.
  destruct (opens_in e); [|by exists ERROR, None]. destruct (opens_out e); [|by exists ERROR, None].
  destruct (seeks_end e); [|by exists ERROR, (Some (flushed e []))].
  destruct (seeks_start e); [|by exists ERROR, (Some (flushed e []))].
  destruct (tells e); [|by exists OK, (Some (flushed e []))].
  destruct (copy_loop_spec (S (length input)) e 0 (length input) 0 buf input []) as
    (ret & out & -> & Hok & Hret); [lia|lia|done|done|].
  exists ret, (Some (flushed e out)). split; [by destruct ret|]. split; [|auto].
  intros H1 _ H2 H3. f_equal. rewrite H3. auto.
Qed.

(** C19. However the environment behaves, [create_reverse_file] returns, and has
    closed each stream it opened exactly once; without errors it reports
    success; and when it reports success the file is mirrored, provided that
    [ftell] works, [fwrite] is never short and [fclose] gets everything into
    the file: none of the three is looked at. *)
Theorem create_reverse_file_correct e buf input :
  length buf = BUFFER_SIZE →
  ∃ ret out, create_reverse_file e buf input = Some (ret, out, []) ∧
    (ret = OK → tells e = true → full_writes e → full_flush e → out = Some (reverse input)) ∧
    (opens_in e = true → opens_out e = true → seeks_end e = true → seeks_start e = true →
     (∀ k, reads e k = true) → (∀ k, seeks_out e k = true) → ret = OK).
Proof. apply create_reverse_file_spec'. Qed.

(** A file of 600 bytes, three rounds. *)
Lemma create_reverse_file_correct_witness :
  let e := IO true true true true true (λ _, true) (λ _, true) (λ _, 256) id in
  let input := (λ i, ascii_of_nat (i mod 256)) <$> seq 0 600 in
  ∃ ret out, create_reverse_file e (replicate 256 NUL) input = Some (ret, out, []) ∧
    (ret = OK → tells e = true → full_writes e → full_flush e → out = Some (reverse input)) ∧
    (opens_in e = true → opens_out e = true → seeks_end e = true → seeks_start e = true →
     (∀ k, reads e k = true) → (∀ k, seeks_out e k = true) → ret = OK).
Proof. apply create_reverse_file_correct. reflexivity. Defined.

(** A failing [fwrite] goes unnoticed: the result is [OK], the copy is not the
    mirrored file. *)
Theorem short_write_unnoticed :
  ∃ e buf input out, full_flush e ∧
    create_reverse_file e buf input = Some (OK, Some out, []) ∧ out ≠ reverse input.
Proof.
  exists (IO true true true true true (λ _, true) (λ _, true) (λ _, 0) id), (replicate 256 NUL),
    (chars "ab"), []. split; [by intros b|]. by vm_compute.
Qed.

(** So does a disk that is full when [fclose] writes the buffer out. *)
Theorem failing_close_unnoticed :
  ∃ e buf input out, full_writes e ∧
    create_reverse_file e buf input = Some (OK, Some out, []) ∧ out ≠ reverse input.
Proof.
  exists (IO true true true true true (λ _, true) (λ _, true) (λ _, 256) (λ _, [])), (replicate 256 NUL),
    (chars "ab"), []. split; [by intros k|]. by vm_compute.
Qed.

(** ** Reversing a tree *)

Definition path : Type := list ascii.

(** What [readdir] can deliver: regular files, directories and other types.
    The entries of a directory are in [readdir]'s order and may include "."
    and "..", whose subtree is not looked at. *)
Inductive tree : Type :=
| Reg (bytes : list ascii)
| Dir (entries : list (path * tree))
| Other.

(** [!(d_type == DT_DIR || d_type == DT_REG)] *)
Definition is_other (t : tree) : bool := match t with Other => true | _ => false end.

Definition dot : path := chars ".".
Definition dotdot : path := chars "..".
Definition is_curr_or_prev_dir (dir : path) : bool := bool_decide (dir = dot ∨ dir = dotdot).

(** The environment: what [malloc] leaves in a fresh array, which calls
    succeed, and the behaviour of each file copy. *)
Record env : Type := Env {
  fresh : nat → buffer;
  mallocs : path → bool;
  reallocs : path → bool;
  opendirs : path → bool;
  mkdirs : path → bool;
  file_io : path → io;
  file_buffer : path → buffer
}.

(** [realloc(b, n)] *)
Definition resize (e : env) (b : buffer) (n : nat) : buffer :=
  take n b ++ drop (length b) (fresh e n).

(** The buffers of [fill_folder], the variable [ret] and what has been written
    to the reverse folder. *)
Record fill_state : Type := FillState {
  name_rev_folder : buffer;
  path_new_rev_folder : buffer;
  path_new_origin_folder : buffer;
  last_ret : status;
  written : list (path * tree)
}.

(** The reallocated buffers, or [None] inside when [realloc] fails. *)
Definition is_correct_len_folder (e : env) (name : path) (s : fill_state) : option fill_state :=
  if decide (MAX_LEN_NAME_FILE < length name) then
    let relocation_size := length name - MAX_LEN_NAME_FILE + INCREASE_POS in
    if reallocs e name then
      Some (FillState (resize e (name_rev_folder s) relocation_size)
              (resize e (path_new_rev_folder s) relocation_size)
              (resize e (path_new_origin_folder s) relocation_size) (last_ret s) (written s))
    else None
  else Some s.

Definition slash : path := chars "/".

(** One round of the loop of [fill_folder].  [sub] handles the entry itself:
    a file or a directory, given its origin and its reverse path.  [inr]: the
    loop returns [ERROR]. *)
Definition fill_step (e : env) (origin rev : path) (name : path) (t : tree)
    (sub : path → path → option (status * option tree)) (s : fill_state) :
    option (fill_state + list (path * tree)) :=
  match is_correct_len_folder e name s with
  | None => Some (inr (written s))
  | Some s =>
      nb ← strncpy (name_rev_folder s) name (length name);
      n ← strlen nb;
      nb ← reverse_line nb n;
      rn ← cstr nb;
      pr ← sprintf (path_new_rev_folder s) (rev ++ slash ++ rn);
      po ← sprintf (path_new_origin_folder s) (origin ++ slash ++ name);
      new_rev ← cstr pr;
      new_origin ← cstr po;
      '(ret, made) ←
        match t with
        | Dir _ => if is_curr_or_prev_dir name then Some (last_ret s, None)
                   else sub new_origin new_rev
        | Reg _ => sub new_origin new_rev
        | Other => Some (last_ret s, None)
        end;
      let out := written s ++ match made with Some t' => [(rn, t')] | None => [] end in
      if decide (ret = ERROR ∨ is_other t = true) then Some (inr out)
      else
        m ← strlen po;
        nb ← memset0 nb m;
        pr ← memset0 pr m;
        po ← memset0 po m;
        Some (inl (FillState nb pr po ret out))
  end.

(** [fill_folder] on the entries of one folder; [subs] are the handlers of the
    entries.  The three buffers are freed and the folder closed on every exit. *)
Fixpoint fill_loop (e : env) (origin rev : path)
    (es : list (path * tree * (path → path → option (status * option tree)))) (s : fill_state) :
    option (status * list (path * tree)) :=
  match es with
  | [] => Some (OK, written s)
  | (name, t, sub) :: es' =>
      r ← fill_step e origin rev name t sub s;
      match r with
      | inl s' => fill_loop e origin rev es' s'
      | inr out => Some (ERROR, out)
      end
  end.

Definition fill_folder (e : env) (origin rev : path)
    (es : list (path * tree * (path → path → option (status * option tree)))) :
    option (status * list (path * tree)) :=
  if opendirs e origin then
    if mallocs e rev then
      fill_loop e origin rev es
        (FillState (fresh e MAX_LEN_NAME_FILE) (fresh e (MAX_LEN_NAME_FILE + length rev))
           (fresh e (MAX_LEN_NAME_FILE + length origin)) OK [])
    else Some (ERROR, [])
  else Some (ERROR, []).

(** [create_reverse_file] or [create_reverse_folder], by the type of the
    entry: the status, and the file or folder that exists afterwards.
    [create_reverse_folder] ignores what [fill_folder] returns. *)
Fixpoint reverse_entry (e : env) (t : tree) (origin rev : path) : option (status * option tree) :=
  match t with
  | Reg bytes =>
      '(ret, out, _) ← create_reverse_file (file_io e origin) (file_buffer e origin) bytes;
      Some (ret, match out with Some b => Some (Reg b) | None => None end)
  | Dir entries =>
      if mkdirs e rev then
        '(_, made) ← fill_folder e origin rev
          ((λ x, (x.1, x.2, reverse_entry e x.2)) <$> entries);
        Some (OK, Some (Dir made))
      else Some (ERROR, None)
  | Other => Some (ERROR, None)
  end.

Definition create_reverse_folder (e : env) (entries : list (path * tree)) : path → path →
    option (status * option tree) := reverse_entry e (Dir entries).

(** *** Correctness *)

(** The mirrored tree: names and contents reversed, "." and ".." left out. *)
Definition skipped (name : path) (t : tree) : bool :=
  match t with Dir _ => is_curr_or_prev_dir name | _ => false end.

Fixpoint mirror (t : tree) : tree :=
  match t with
  | Reg bytes => Reg (reverse bytes)
  | Dir entries =>
      Dir (flat_map (λ x, if skipped x.1 x.2 then [] else [(reverse x.1, mirror x.2)]) entries)
  | Other => Other
  end.

(** The limits of the buffers: names of at most 254 characters and paths of at
    most 256, and only regular files and directories. *)
Definition name_fits (origin name : path) : Prop :=
  no_nul name ∧ length name ≤ 254 ∧ length (origin ++ slash ++ name) ≤ MAX_LEN_NAME_FILE.

Fixpoint fits (origin : path) (t : tree) : Prop :=
  match t with
  | Reg _ => True
  | Dir entries =>
      foldr (λ x P, name_fits origin x.1 ∧ fits (origin ++ slash ++ x.1) x.2 ∧ P) True entries
  | Other => False
  end.

(** Nothing fails, and fresh memory happens to be zero. *)
Record ideal (e : env) : Prop := {
  ideal_fresh n : fresh e n = replicate n NUL;
  ideal_mallocs p : mallocs e p = true;
  ideal_opendirs p : opendirs e p = true;
  ideal_mkdirs p : mkdirs e p = true;
  ideal_opens p : opens_in (file_io e p) = true ∧ opens_out (file_io e p) = true;
  ideal_seeks p : seeks_end (file_io e p) = true ∧ seeks_start (file_io e p) = true;
  ideal_tells p : tells (file_io e p) = true;
  ideal_reads p k : reads (file_io e p) k = true;
  ideal_seeks_out p k : seeks_out (file_io e p) k = true;
  ideal_writes p : full_writes (file_io e p);
  ideal_flush p : full_flush (file_io e p);
  ideal_buffer p : length (file_buffer e p) = BUFFER_SIZE
}.

Lemma no_nul_reverse s : no_nul s → no_nul (reverse s).
Proof. unfold no_nul. by rewrite elem_of_reverse. Qed.
Lemma no_nul_path p n : no_nul p → no_nul n → no_nul (p ++ slash ++ n).
Proof. intros. apply no_nul_app, no_nul_app; [done|by apply (bool_decide_unpack _)|done]. Qed.

Lemma length_path p n : length (p ++ slash ++ n) = length p + S (length n).
Proof. by rewrite !length_app. Qed.
#[local] Opaque slash.

(** The state between two rounds. *)
Definition fill_inv (origin rev : path) (s : fill_state) : Prop :=
  name_rev_folder s = replicate MAX_LEN_NAME_FILE NUL ∧
  length (path_new_rev_folder s) = MAX_LEN_NAME_FILE + length rev ∧
  length (path_new_origin_folder s) = MAX_LEN_NAME_FILE + length origin ∧
  last_ret s = OK.

(** The name buffer: the reversed name, and zeros behind it. *)
Lemma name_buffer name :
  no_nul name → length name ≤ 254 →
  let nb := name ++ replicate (MAX_LEN_NAME_FILE - length name) NUL in
  strncpy (replicate MAX_LEN_NAME_FILE NUL) name (length name) = Some nb ∧
  strlen nb = Some (length name) ∧
  reverse_line nb (length name) =
    Some (reverse name ++ replicate (MAX_LEN_NAME_FILE - length name) NUL) ∧
  cstr (reverse name ++ replicate (MAX_LEN_NAME_FILE - length name) NUL) = Some (reverse name).
Proof.
  intros Hn Hl. unfold MAX_LEN_NAME_FILE. split; [|split; [|split]].
  - rewrite strncpy_whole; [by rewrite drop_replicate|]. rewrite length_replicate. lia.
  - replace (256 - length name) with (S (255 - length name)) by lia. simpl. by apply strlen_app.
  - rewrite reverse_line_spec; [|rewrite length_app; lia|lia].
    by rewrite take_app_length drop_app_length.
  - replace (256 - length name) with (S (255 - length name)) by lia. simpl.
    by apply cstr_app, no_nul_reverse.
Qed.

(** A path buffer: printed, read back, measured. *)
Lemma path_buffer b p :
  no_nul p → length p < length b →
  ∃ b', sprintf b p = Some b' ∧ cstr b' = Some p ∧ strlen b' = Some (length p) ∧
        length b' = length b.
Proof.
  intros Hp Hl. exists (p ++ NUL :: drop (S (length p)) b).
  split; [by apply sprintf_ok|]. split; [by apply cstr_app|]. split; [by apply strlen_app|].
  rewrite length_app /= length_drop. lia.
Qed.

Lemma memset0_length b n : n ≤ length b → ∃ b', memset0 b n = Some b' ∧ length b' = length b.
Proof.
  intros Hn. exists (replicate n NUL ++ drop n b). split; [by apply memset0_ok|].
  rewrite length_app length_replicate length_drop. lia.
Qed.

(** One entry. *)
Lemma fill_step_ok e origin rev name t sub s made :
  no_nul origin → no_nul rev → name_fits origin name → is_other t = false →
  fill_inv origin rev s →
  (skipped name t = false →
   sub (origin ++ slash ++ name) (rev ++ slash ++ reverse name) = Some (OK, Some made)) →
  ∃ s', fill_step e origin rev name t sub s = Some (inl s') ∧ fill_inv origin rev s' ∧
        written s' = written s ++ (if skipped name t then [] else [(reverse name, made)]).
Proof.
  intros Ho Hr (Hn & Hl & Hpath) Ht (Hnb & Hpr & Hpo & Hret) Hsub.
  unfold fill_step, is_correct_len_folder. rewrite decide_False; [|unfold MAX_LEN_NAME_FILE; lia].
  destruct (name_buffer name Hn Hl) as (E1 & E2 & E3 & E4). rewrite Hnb E1 /= E2 /= E3 /= E4 /=.
  destruct (path_buffer (path_new_rev_folder s) (rev ++ slash ++ reverse name)) as
    (pr & P1 & P2 & _ & Hprl).
  { by apply no_nul_path, no_nul_reverse. }
  { rewrite Hpr length_path length_reverse. unfold MAX_LEN_NAME_FILE. lia. }
  destruct (path_buffer (path_new_origin_folder s) (origin ++ slash ++ name)) as
    (po & O1 & O2 & Hpos & Hpol).
  { by apply no_nul_path. }
  { rewrite Hpo. unfold MAX_LEN_NAME_FILE in *. rewrite !length_path in Hpath |- *. lia. }
  rewrite P1 /= O1 /= P2 /= O2 /=. set (plen := length (origin ++ slash ++ name)) in *.
  assert (length name ≤ plen) as Hnp. { unfold plen. rewrite length_path. lia. }
  destruct (memset0_length pr plen) as (pr' & Epr & Hpr'); [rewrite Hprl Hpr; lia|].
  destruct (memset0_length po plen) as (po' & Epo & Hpo'); [rewrite Hpol Hpo; lia|].
  assert (memset0 (reverse name ++ replicate (MAX_LEN_NAME_FILE - length name) NUL) plen =
          Some (replicate MAX_LEN_NAME_FILE NUL)) as Enb.
  { rewrite memset0_ok; [|rewrite length_app length_reverse length_replicate; lia].
    rewrite drop_app_ge; [|rewrite length_reverse; lia].
    rewrite length_reverse drop_replicate -replicate_add. do 2 f_equal. lia. }
  assert (∃ ret out, (match t with
      | Dir _ => if is_curr_or_prev_dir name then Some (last_ret s, None)
                 else sub (origin ++ slash ++ name) (rev ++ slash ++ reverse name)
      | Reg _ => sub (origin ++ slash ++ name) (rev ++ slash ++ reverse name)
      | Other => Some (last_ret s, None)
      end) = Some (ret, out) ∧ ret = OK ∧
      (match out with Some t' => [(reverse name, t')] | None => [] end) =
        if skipped name t then [] else [(reverse name, made)]) as (ret & out & -> & -> & Hout).
  { destruct t as [bytes|es|]; [|simpl in *|done].
    - exists OK, (Some made). by rewrite Hsub.
    - destruct (is_curr_or_prev_dir name) eqn:Hd.
      + exists (last_ret s), None. by rewrite Hret.
      + exists OK, (Some made). by rewrite Hsub. }
  simpl. rewrite decide_False; [|rewrite Ht; by intros [?|?]].
  rewrite Hpos /= Enb /= Epr /= Epo /=. eexists. split; [done|]. split; [|by rewrite Hout].
  by split_and!; cbn [name_rev_folder path_new_rev_folder path_new_origin_folder last_ret];
    rewrite ?Hpr' ?Hpo' ?Hprl ?Hpol.
Qed.

(** Every entry of a folder. *)
Lemma fill_loop_ok e origin rev (entries : list (path * tree)) handle s :
  no_nul origin → no_nul rev → fits origin (Dir entries) →
  (∀ name t, (name, t) ∈ entries → skipped name t = false →
     handle t (origin ++ slash ++ name) (rev ++ slash ++ reverse name) =
       Some (OK, Some (mirror t))) →
  fill_inv origin rev s →
  fill_loop e origin rev ((λ x, (x.1, x.2, handle x.2)) <$> entries) s =
    Some (OK, written s ++ flat_map (λ x, if skipped x.1 x.2 then []
                                         else [(reverse x.1, mirror x.2)]) entries).
Proof.
  intros Ho Hr. revert s. induction entries as [|[name t] es IH]; intros s Hfit Hsub Hinv.
  { simpl. by rewrite app_nil_r. }
  cbn [fits foldr] in Hfit. destruct Hfit as (Hname & Ht & Hfit).
  destruct (fill_step_ok e origin rev name t (handle t) s (mirror t)) as (s' & Hstep & Hinv' & Hw);
    [done..| |done| |].
  { by destruct t. }
  { apply Hsub. left. }
  cbn [fmap list_fmap fill_loop fst snd]. rewrite Hstep. cbn [mbind option_bind].
  rewrite IH; [|done| |done].
  - cbn [flat_map fst snd]. rewrite Hw -app_assoc. done.
  - intros name' t' Hin. apply Hsub. by right.
Qed.

(** Induction over trees. *)
Lemma tree_rec' (P : tree → Prop) :
  (∀ bytes, P (Reg bytes)) → (∀ es, Forall (λ x, P x.2) es → P (Dir es)) → P Other → ∀ t, P t.
Proof.
  intros HR HD HO. refine (fix go (t : tree) : P t := _). destruct t as [bytes|es|]; [done| |done].
  apply HD. induction es as [|[n t] es IH]; constructor; [apply (go t)|apply IH].
Qed.

Lemma fits_entry origin es name t :
  fits origin (Dir es) → (name, t) ∈ es → name_fits origin name ∧ fits (origin ++ slash ++ name) t.
Proof.
  induction es as [|[n t'] es IH]; cbn [fits foldr].
  - intros _ H. by apply not_elem_of_nil in H.
  - intros (Hn & Ht & Hfit) [[= -> ->]|Hin]%elem_of_cons; [done|]. by apply IH.
Qed.

(** C18. In an ideal environment a tree within the limits is mirrored exactly. *)
Theorem reverse_entry_mirrors e t origin rev :
  ideal e → no_nul origin → no_nul rev → fits origin t →
  reverse_entry e t origin rev = Some (OK, Some (mirror t)).
Proof.
  intros He. revert origin rev. induction t as [bytes|es IH|] using tree_rec';
    intros origin rev Ho Hr Hfit; [| |done].
  - destruct (create_reverse_file_spec' (file_io e origin) (file_buffer e origin) bytes) as
      (ret & out & E & Hout & Hok); [apply He|]. cbn [reverse_entry]. rewrite E. simpl.
    assert (ret = OK) as ->. { apply Hok; by apply He. }
    by rewrite (Hout eq_refl (ideal_tells e He origin) (ideal_writes e He origin) (ideal_flush e He origin)).
  - cbn [reverse_entry]. rewrite (ideal_mkdirs e He). unfold fill_folder.
    rewrite (ideal_opendirs e He) (ideal_mallocs e He) !(ideal_fresh e He).
    rewrite (fill_loop_ok e origin rev es (reverse_entry e)); [done..| |].
    + intros name t Hin Hsk. destruct (fits_entry _ _ _ _ Hfit Hin) as [(Hn & _) Ht].
      rewrite Forall_forall in IH. apply (IH (name, t) Hin); [by apply no_nul_path| |done].
      by apply no_nul_path, no_nul_reverse.
    + split_and!; [done|by rewrite length_replicate..|done].
Qed.

(** An environment without failures and with zeroed memory. *)
Definition ideal_env : env :=
  Env (λ n, replicate n NUL) (λ _, true) (λ _, true) (λ _, true) (λ _, true)
    (λ _, IO true true true true true (λ _, true) (λ _, true) (λ _, 256) id) (λ _, replicate 256 NUL).

Lemma ideal_env_ok : ideal ideal_env.
Proof. split; try done. intros p. unfold full_writes. intros k. done. Qed.

(** A folder with a file and a subfolder. *)
Lemma reverse_entry_mirrors_witness :
  let t := Dir [(dot, Dir []); (dotdot, Dir []); (chars "ab", Reg (chars "xyz"));
                (chars "sub", Dir [(chars "note", Reg (chars "12"))])] in
  reverse_entry ideal_env t (chars "in") (chars "ni") = Some (OK, Some (mirror t)).
Proof.
  apply reverse_entry_mirrors; [apply ideal_env_ok|by apply (bool_decide_unpack _)..|].
  cbn [fits foldr fst snd].
  repeat split; try (apply (bool_decide_unpack _); vm_compute; exact Logic.I);
    vm_compute; lia.
Defined.

(** ** Where the buffers are too small *)

(** A name of 255 characters, which the file system allows, does not fit: the
    reverse path is one character longer than its buffer. *)
Theorem name_255_overflows e origin rev name bytes :
  ideal e → no_nul name → length name = 255 →
  reverse_entry e (Dir [(name, Reg bytes)]) origin rev = None.
Proof.
  intros He Hn Hl. cbn [reverse_entry]. rewrite (ideal_mkdirs e He). unfold fill_folder.
  rewrite (ideal_opendirs e He) (ideal_mallocs e He) !(ideal_fresh e He).
  cbn [fmap list_fmap fill_loop fst snd]. unfold fill_step, is_correct_len_folder.
  rewrite decide_False; [|unfold MAX_LEN_NAME_FILE; lia].
  cbn [name_rev_folder path_new_rev_folder]. unfold MAX_LEN_NAME_FILE.
  rewrite strncpy_whole; [|rewrite length_replicate; lia]. rewrite drop_replicate Hl.
  cbn [mbind option_bind]. replace (256 - 255) with 1 by lia. cbn [replicate].
  rewrite strlen_app //. cbn [mbind option_bind].
  rewrite reverse_line_spec; [|rewrite length_app /=; lia|lia].
  rewrite take_app_length drop_app_length. cbn [mbind option_bind].
  rewrite cstr_app; [|by apply no_nul_reverse]. cbn [mbind option_bind].
  rewrite (sprintf_overflow (replicate (256 + length rev) NUL)); [reflexivity|].
  rewrite length_replicate length_path length_reverse. lia.
Qed.

(** Zero bytes everywhere, a name of 255 letters. *)
Lemma name_255_overflows_witness :
  reverse_entry ideal_env (Dir [(replicate 255 "a"%char, Reg [])]) (chars "in") (chars "ni") = None.
Proof.
  apply name_255_overflows; [apply ideal_env_ok|by apply (bool_decide_unpack _)|].
  by rewrite length_replicate.
Defined.

(** [malloc] leaves the name buffer as it was: with five letters in it the
    first entry gets a wrong name. *)
Theorem stale_name_buffer :
  let e := Env (λ n, replicate 5 "z"%char ++ replicate (n - 5) NUL) (λ _, true) (λ _, true)
    (λ _, true) (λ _, true) (λ _, IO true true true true true (λ _, true) (λ _, true) (λ _, 256) id)
    (λ _, replicate 256 NUL) in
  reverse_entry e (Dir [(chars "ab", Reg (chars "1"))]) (chars "in") (chars "ni") =
    Some (OK, Some (Dir [(chars "zzzba", Reg (chars "1"))])).
Proof. by vm_compute. Qed.

(** ** The command line *)

(** [strrchr(s, '/')] *)
Fixpoint strrchr_slash (s : path) : option nat :=
  match s with
  | [] => None
  | c :: s' =>
      match strrchr_slash s' with
      | Some i => Some (S i)
      | None => if decide (c = "/"%char) then Some 0 else None
      end
  end.

(** The new folder's name and the buffer with the path in front of it. *)
Definition find_name_folder (origin : path) (path_to_folder : buffer) : option (path * buffer) :=
  let pos_slash := strrchr_slash origin in
  let new_folder := match pos_slash with None => origin | Some p => drop (p + INCREASE_POS) origin end in
  let folder_len := match pos_slash with None => 0 | Some p => p + INCREASE_POS end in
  b ← strncpy path_to_folder origin folder_len;
  b ← match pos_slash with
      | None => snprintf b (8 + 2) (chars "./")   (* sizeof(path_to_folder) + 2 *)
      | Some _ => Some b
      end;
  Some (new_folder, b).

Definition maximum_size_path (args : list path) : nat :=
  foldl (λ max_size arg, if decide (max_size < length arg) then length arg else max_size) 0 args.

(** The loop of [run]; [disk] gives the entries of a folder. *)
Fixpoint run_loop (e : env) (disk : path → list (path * tree)) (args : list path)
    (rev_folder path_to_folder : buffer) : option (status * list (path * option tree)) :=
  match args with
  | [] => Some (OK, [])
  | arg :: args' =>
      '(origin_folder, pb) ← find_name_folder arg path_to_folder;
      rb ← strncpy rev_folder origin_folder (length origin_folder);
      n ← strlen rb;
      rb ← reverse_line rb n;
      r ← cstr rb;
      pb ← strcat pb r;
      dest ← cstr pb;
      '(ret, made) ← create_reverse_folder e (disk arg) arg dest;
      if decide (ret = ERROR) then Some (ERROR, [(dest, made)])
      else '(ret, rest) ← run_loop e disk args' rb pb; Some (ret, (dest, made) :: rest)
  end.

Definition run (e : env) (disk : path → list (path * tree)) (args : list path) :
    option (status * list (path * option tree)) :=
  match args with
  | [] => Some (ERROR, [])
  | _ =>
      let max_size := maximum_size_path args in
      run_loop e disk args (fresh e max_size) (fresh e max_size)
  end.

Lemma strrchr_slash_lt s p : strrchr_slash s = Some p → p < length s.
Proof.
  revert p. induction s as [|c s IH]; intros p; [done|]. simpl.
  destruct (strrchr_slash s) as [i|].
  - intros [= <-]. specialize (IH i eq_refl). lia.
  - case_decide; [|done]. intros [= <-]. lia.
Qed.

(** A string at the front of an array only makes what it holds longer. *)
Lemma strlen_front s b n : no_nul s → strlen (s ++ b) = Some n → length s ≤ n.
Proof.
  unfold no_nul. revert n. induction s as [|c s IH]; intros n Hs; [simpl; lia|]. simpl.
  rewrite decide_False; [|set_solver]. intros (m & Hm & ->)%fmap_Some.
  specialize (IH m). apply le_n_S, IH; [set_solver|done].
Qed.

Lemma strncpy_take b s n :
  n ≤ length s → n ≤ length b → strncpy b s n = Some (take n s ++ drop n b).
Proof.
  intros Hs Hb. unfold strncpy. replace (n - length s) with 0 by lia. cbn [replicate].
  rewrite app_nil_r write_at_0 length_take; [|lia]. by rewrite Nat.min_l; [|lia].
Qed.

(** With one folder on the command line the arrays are exactly as long as the
    argument, without room for a terminator: whatever the folder is called and
    whatever the memory held, [run] leaves one of them. *)
Theorem run_overflows e disk arg :
  (∀ n, length (fresh e n) = n) → no_nul arg → (Z.of_nat (length arg) < 2 ^ 32)%Z →
  run e disk [arg] = None.
Proof.
  intros Hf Hn Hz. cbn [run]. assert (maximum_size_path [arg] = length arg) as ->.
  { unfold maximum_size_path. simpl. case_decide; lia. }
  cbn [run_loop]. unfold find_name_folder.
  set (b := fresh e (length arg)). assert (length b = length arg) as Hb by apply Hf.
  destruct (strrchr_slash arg) as [p|] eqn:Hp; last first.
  { rewrite strncpy_take; [|lia..]. cbn [take drop app mbind option_bind].
    destruct (snprintf _ (8 + 2) (chars "./")) as [b'|]; [|done]. cbn [mbind option_bind].
    rewrite strncpy_take; [|lia..]. rewrite take_ge; [|lia]. rewrite drop_ge; [|lia].
    rewrite app_nil_r. cbn [mbind option_bind]. by rewrite strlen_full. }
  apply strrchr_slash_lt in Hp. unfold INCREASE_POS.
  rewrite strncpy_take; [|lia..]. cbn [mbind option_bind].
  rewrite strncpy_take; [|rewrite ?length_drop; lia..]. cbn [mbind option_bind].
  rewrite (take_ge (drop _ _)); [|lia].
  assert (no_nul (drop (p + 1) arg) ∧ no_nul (take (p + 1) arg)) as [Hd Ht].
  { rewrite -(take_drop (p + 1) arg) in Hn. unfold no_nul in *. set_solver. }
  destruct (strlen (drop (p + 1) arg ++ _)) as [n|] eqn:Hs; [|done]. cbn [mbind option_bind].
  pose proof (strlen_front _ _ _ Hd Hs) as Hge. pose proof (strlen_lt _ _ Hs) as Hlt.
  rewrite length_app !length_drop Hb in Hlt. rewrite length_drop in Hge.
  apply strlen_split in Hs as (s & b' & E & Hns & Hsl). rewrite E.
  rewrite reverse_line_spec; [|rewrite length_app /=; lia|lia].
  rewrite -Hsl take_app_length drop_app_length. cbn [mbind option_bind].
  rewrite cstr_app; [|by apply no_nul_reverse]. cbn [mbind option_bind]. unfold strcat.
  destruct (strlen (take (p + 1) arg ++ _)) as [m|] eqn:Hm; [|done]. cbn [mbind option_bind].
  apply strlen_front in Hm; [|done]. rewrite length_take in Hm.
  unfold write_at. rewrite decide_False; [done|].
  rewrite !length_app length_reverse length_take length_drop /= Hb. lia.
Qed.

(** [./main a/bc]. *)
Lemma run_overflows_witness : run ideal_env (λ _, []) [chars "a/bc"] = None.
Proof.
  apply run_overflows; [intros n; apply length_replicate|by apply (bool_decide_unpack _)|done].
Defined.

(** *** The loop against the list function *)

Lemma mid_len_wraps size : (2 ^ 32 ≤ Z.of_nat size < 2 ^ 33)%Z → mid_len size = 0.
Proof.
  intros Hs. unfold mid_len, wrap32, wrap_signed.
  pose proof (Z.div_le_lower_bound (Z.of_nat size) 2 (2 ^ 31)).
  pose proof (Z.div_lt_upper_bound (Z.of_nat size) 2 (2 ^ 32)).
  set (x := (Z.of_nat size / 2)%Z) in *.
  replace (x + 2 ^ (32 - 1))%Z with (x + 2 ^ 31 - 2 ^ 32 + 1 * 2 ^ 32)%Z by lia.
  rewrite Z.mod_add; [|lia]. rewrite Z.mod_small; [|lia]. lia.
Qed.

(** The first [n] and the last [n] of the first [size] elements change places,
    each in reverse order. *)
Definition swap_ends {A} (n size : nat) (line : list A) : list A :=
  reverse (drop (size - n) (take size line)) ++ take (size - 2 * n) (drop n line) ++
  reverse (take n line) ++ drop size line.

Lemma mid_len_le size : mid_len size ≤ size / 2.
Proof.
  unfold mid_len, wrap32, wrap_signed.
  assert (0 ≤ Z.of_nat size / 2)%Z as H1 by (apply Z.div_pos; lia).
  assert ((Z.of_nat size / 2 + 2 ^ (32 - 1)) mod 2 ^ 32 ≤ Z.of_nat size / 2 + 2 ^ (32 - 1))%Z as H2
    by (apply Z.mod_le; lia).
  rewrite -(Nat2Z.id (size / 2)) Nat2Z.inj_div. change (Z.of_nat 2) with 2%Z. lia.
Qed.

Lemma half_reversed_swap_ends {A} (line : list A) size n k :
  size ≤ length line → 2 * n ≤ size → half_reversed line size n k = swap_ends n size line !! k.
Proof.
  intros Hs Hn. unfold half_reversed, swap_ends.
  assert (length (reverse (drop (size - n) (take size line))) = n) as H1.
  { rewrite length_reverse length_drop length_take. lia. }
  assert (length (take (size - 2 * n) (drop n line)) = size - 2 * n) as H2.
  { rewrite length_take length_drop. lia. }
  assert (length (reverse (take n line)) = n) as H3 by (rewrite length_reverse length_take; lia).
  destruct (decide (k < n)) as [Hk|Hk].
  { rewrite decide_True; [|lia]. rewrite lookup_app_l; [|lia].
    rewrite reverse_lookup; [|rewrite length_drop length_take; lia].
    rewrite length_drop length_take lookup_drop lookup_take_lt; [f_equal; lia|lia]. }
  rewrite lookup_app_r; [|lia]. rewrite H1. destruct (decide (k < size - n)) as [Hk2|Hk2].
  { rewrite decide_False; [|lia]. rewrite lookup_app_l; [|lia].
    rewrite lookup_take_lt; [|lia]. rewrite lookup_drop. f_equal. lia. }
  rewrite lookup_app_r; [|lia]. rewrite H2. destruct (decide (k < size)) as [Hk3|Hk3].
  - rewrite decide_True; [|lia]. rewrite lookup_app_l; [|lia].
    rewrite reverse_lookup; [|rewrite length_take; lia]. rewrite length_take lookup_take_lt; [f_equal; lia|lia].
  - rewrite decide_False; [|lia]. rewrite lookup_app_r; [|lia]. rewrite H3 lookup_drop. f_equal. lia.
Qed.

Lemma reverse_line_ends {A} (line : list A) size :
  size ≤ length line → reverse_line line size = Some (swap_ends (mid_len size) size line).
Proof.
  intros Hs. pose proof (mid_len_le size) as Hm. unfold reverse_line.
  destruct (reverse_loop_spec (mid_len size) 0 size line line) as (line' & -> & Hk); [done..| |].
  { intros k. rewrite /half_reversed decide_False; [done|lia]. }
  f_equal. apply list_eq. intros k. rewrite Hk. apply half_reversed_swap_ends; [done|].
  pose proof (Nat.div_mod size 2). lia.
Qed.

(** C25. The loop that swaps from both ends, for every size: it exchanges as
    many elements as the [int] that keeps the middle says.  Below 2^32 that is
    [reverse] on the first [size] elements; from there on the middle has
    wrapped, and up to 2^33 nothing is exchanged at all. *)
Theorem reverse_line_equiv {A} (line : list A) size :
  size ≤ length line →
  reverse_line line size = Some (swap_ends (mid_len size) size line) ∧
  mid_len size = Z.to_nat (wrap32 (Z.of_nat size / 2)) ∧
  ((Z.of_nat size < 2 ^ 32)%Z →
     swap_ends (mid_len size) size line = reverse (take size line) ++ drop size line) ∧
  ((2 ^ 32 ≤ Z.of_nat size < 2 ^ 33)%Z → swap_ends (mid_len size) size line = line).
Proof.
  intros Hs. split; [by apply reverse_line_ends|]. split; [done|]. split; intros Hb.
  - pose proof (reverse_line_spec line size Hs Hb) as E. rewrite reverse_line_ends // in E. by injection E.
  - rewrite mid_len_wraps //. unfold swap_ends. rewrite Nat.mul_0_r !Nat.sub_0_r drop_ge; [|rewrite length_take; lia].
    rewrite reverse_nil drop_0. apply take_drop.
Qed.

Lemma reverse_line_equiv_witness :
  reverse_line [1; 2; 3; 4; 5] 4 = Some [4; 3; 2; 1; 5] ∧
  reverse_line [1; 2; 3; 4; 5] 4 = Some (swap_ends (mid_len 4) 4 [1; 2; 3; 4; 5]).
Proof. split; [reflexivity|]. apply (reverse_line_equiv [1; 2; 3; 4; 5] 4). cbn. lia. Defined.
