(* ===== verification/ProxyCache.v ===== *)
(** * ProxyCache: the proxy's cache of responses

    [semestr2/Task3/header/cache_list.h]: a linked list of (hash of the
    request, response), appended to and searched under one mutex and never
    shortened.  A node's memory is a heap entry; each function is the whole
    critical section, which the mutex makes atomic. *)
From stdpp Require Import base gmap list numbers strings.
From iris.prelude Require Import prelude.
From Stdlib Require Import Ascii.
From S2P Require Import Prelude CString.
#[local] Open Scope nat_scope.

Definition EXIT_SUCCESS : Z := 0%Z.
Definition EXIT_FAILURE : Z := 1%Z.
Definition NOT_FOUND_CACHE : Z := (-1)%Z.

(** 64 MB *)
Definition CACHE_BUFFER_SIZE : Z := (1024 * 1024 * 64)%Z.

(** ** Data *)

(** A pointer to a node; [Wild] is what memory nobody wrote holds. *)
Inductive ptr : Set := Null | Wild | At (l : nat).

(** A pointer to an array of [CACHE_BUFFER_SIZE] zeros, with the bytes written
    to its front. *)
Inductive resp : Set := RNull | RWild | RAt (bytes : list ascii).

Record Cache : Set := MkCache {
  request : Z;
  response : resp;
  response_len : Z;
  next : ptr
}.

Definition nodes : Type := gmap nat Cache.

(** [malloc(sizeof(Cache))] leaves any contents, but no usable pointers. *)
Definition indeterminate (c : Cache) : bool :=
  match response c, next c with RAt _, _ | _, At _ => false | _, _ => true end.

(** ** Operations *)

(** [(unsigned long) ( *str)]: [char] is signed and is sign-extended. *)
Definition char_value (c : ascii) : Z :=
  let n := Z.of_N (N_of_ascii c) in wrapu64 (if decide (n < 128)%Z then n else n - 256)%Z.

Definition hash_step (h : Z) (c : ascii) : Z :=
  wrapu64 (wrapu64 (wrapu64 (Z.shiftl h 5) + h) + char_value c)%Z.

Fixpoint hash_loop (str : buffer) (h : Z) : option Z :=
  match str with
  | [] => None
  | c :: str' => if decide (c = NUL) then Some h else hash_loop str' (hash_step h c)
  end.
Definition hash (str : buffer) : option Z := hash_loop str 0%Z.

(** [alloc]: does [calloc] succeed. *)
Definition init_cache_record (alloc : bool) (record : Cache) : Z * Cache :=
  if alloc then (EXIT_SUCCESS, MkCache (request record) (RAt []) (response_len record) Null)
  else (EXIT_FAILURE, MkCache (request record) RNull (response_len record) (next record)).

(** [strncpy(copy, response, response_len)] into an array of zeros; the length
    is converted to [size_t]. *)
Definition copy_response (c : Cache) (copy : bool) : option (list ascii) :=
  match response c with
  | RAt b =>
      if decide (copy = true ∧ 0 ≤ response_len c ≤ CACHE_BUFFER_SIZE)%Z then
        let n := Z.to_nat (response_len c) in
        let s := until_nul (take n b) in
        Some (s ++ replicate (n - length s) NUL)
      else None
  | _ => None
  end.

(** The loop of [find_in_cache]: the matching node. *)
Fixpoint find_loop (fuel : nat) (h : nodes) (cur : ptr) (req_hash : Z) : option (option Cache) :=
  match fuel with
  | 0 => None
  | S fuel' =>
      match cur with
      | Null => Some None
      | Wild => None
      | At l =>
          c ← h !! l;
          if decide (request c = req_hash) then Some (Some c)
          else find_loop fuel' h (next c) req_hash
      end
  end.

(** The length found and the front of the copy. *)
Definition find_in_cache (h : nodes) (start : ptr) (req : buffer) (copy : bool) :
    option (Z * list ascii) :=
  req_hash ← hash req;
  found ← find_loop (S (size h)) h start req_hash;
  match found with
  | Some c => b ← copy_response c copy; Some (response_len c, b)
  | None => Some (NOT_FOUND_CACHE, [])
  end.

Definition add_request (record : Cache) (req : buffer) : option Cache :=
  _hash ← hash req;
  Some (MkCache _hash (response record) (response_len record) (next record)).

Definition add_response (record : Cache) (r : list ascii) (cur_position : nat) : option Cache :=
  match response record with
  | RAt b =>
      if decide (Z.of_nat (cur_position + length r) ≤ CACHE_BUFFER_SIZE)%Z then
        Some (MkCache (request record) (RAt (overwrite b cur_position r)) (response_len record)
                (next record))
      else None
  | _ => None
  end.

Definition add_size (record : Cache) (size : Z) : Cache :=
  MkCache (request record) (response record) size (next record).

(** [free(record->response)]: freeing an indeterminate pointer is undefined. *)
Definition delete_cache_record (record : Cache) : option unit :=
  match response record with RWild => None | _ => Some () end.

Definition set_next (c : Cache) (p : ptr) : Cache :=
  MkCache (request c) (response c) (response_len c) p.

(** The loop of [push_record], standing at the node [cur]. *)
Fixpoint push_loop (fuel : nat) (h : nodes) (cur record : nat) : option nodes :=
  match fuel with
  | 0 => None
  | S fuel' =>
      c ← h !! cur;
      match next c with
      | Null => Some (<[cur := set_next c (At record)]> h)
      | Wild => None
      | At n =>
          c' ← h !! n;
          r ← h !! record;
          if decide (request c' = request r) then
            _ ← delete_cache_record r;
            Some (delete record h)
          else push_loop fuel' h n record
      end
  end.

Definition push_record (h : nodes) (start : ptr) (record : nat) : option nodes :=
  match start with
  | At l => push_loop (S (size h)) h l record
  | _ => None
  end.

(** [malloc] of the head, with contents [c]: only [next] is written. *)
Definition init_cache (h : nodes) (l : nat) (c : option Cache) : Z * nodes * ptr :=
  match c with
  | Some c => (EXIT_SUCCESS, <[l := set_next c Null]> h, At l)
  | None => (EXIT_FAILURE, h, Null)
  end.

Fixpoint destroy_loop (fuel : nat) (h : nodes) (cur : ptr) : option nodes :=
  match fuel with
  | 0 => None
  | S fuel' =>
      match cur with
      | Null => Some h
      | Wild => None
      | At l =>
          c ← h !! l;
          _ ← delete_cache_record c;
          destroy_loop fuel' (delete l h) (next c)
      end
  end.
Definition destroy_cache (h : nodes) (cache : ptr) : option nodes :=
  destroy_loop (S (size h)) h cache.

(** ** The hash *)

Lemma until_nul_split b :
  ∃ n, b = until_nul b ∨ b = until_nul b ++ NUL :: n.
Proof.
  induction b as [|c b (n & IH)]; [by exists []; left|]. simpl. case_decide as Hc.
  - exists b. right. by rewrite Hc.
  - exists n. destruct IH as [IH|IH]; [left|right]; by rewrite {1}IH.
Qed.

Lemma no_nul_until_nul b : no_nul (until_nul b).
Proof.
  unfold no_nul. induction b as [|c b IH]; simpl; [apply not_elem_of_nil|].
  case_decide; [apply not_elem_of_nil|]. rewrite not_elem_of_cons. naive_solver.
Qed.

Lemma hash_loop_app s b h :
  no_nul s → hash_loop (s ++ NUL :: b) h = Some (foldl hash_step h s).
Proof.
  unfold no_nul. revert h. induction s as [|c s IH]; intros h Hs; [done|]. simpl.
  rewrite decide_False; [|set_solver]. apply IH. set_solver.
Qed.

Lemma hash_string s b : no_nul s → hash (s ++ NUL :: b) = Some (foldl hash_step 0%Z s).
Proof. apply hash_loop_app. Qed.

Lemma hash_step_33 h c : hash_step h c = wrapu64 (33 * h + char_value c).
Proof.
  unfold hash_step, wrapu64. rewrite Z.shiftl_mul_pow2; [|lia].
  rewrite Z.add_mod_idemp_l; [|lia]. rewrite -Z.add_assoc Z.add_mod_idemp_l; [|lia].
  f_equal. lia.
Qed.

(** [Σ c_i 33^(n-1-i)] *)
Fixpoint polynomial (s : list ascii) : Z :=
  match s with
  | [] => 0
  | c :: s' => char_value c * 33 ^ Z.of_nat (length s') + polynomial s'
  end%Z.

Lemma foldl_hash_step s h :
  foldl hash_step (wrapu64 h) s = wrapu64 (h * 33 ^ Z.of_nat (length s) + polynomial s).
Proof.
  revert h. induction s as [|c s IH]; intros h; cbn [foldl polynomial].
  { f_equal. simpl. lia. }
  rewrite hash_step_33. assert (wrapu64 (33 * wrapu64 h + char_value c) =
                                wrapu64 (33 * h + char_value c))%Z as ->.
  { unfold wrapu64. rewrite -Z.add_mod_idemp_l; [|lia]. rewrite Z.mul_mod_idemp_r; [|lia].
    by rewrite Z.add_mod_idemp_l; [|lia]. }
  rewrite IH. f_equal. cbn [length]. rewrite Nat2Z.inj_succ Z.pow_succ_r; lia.
Qed.

(** [hash] of a string is the polynomial of its (sign-extended) characters in
    33, modulo [2 ^ 64]. *)
Theorem hash_polynomial s b : no_nul s → hash (s ++ NUL :: b) = Some (wrapu64 (polynomial s)).
Proof.
  intros Hs. rewrite hash_string //. f_equal. change 0%Z with (wrapu64 0).
  by rewrite foldl_hash_step.
Qed.

(** A character above 127 counts as negative. *)
Lemma hash_polynomial_witness :
  hash (["a"; "200"]%char ++ [NUL]) = Some (wrapu64 (97 * 33 + (2 ^ 64 - 56)))%Z.
Proof.
  etransitivity; [apply hash_polynomial; by apply (bool_decide_unpack _)|]. by vm_compute.
Defined.

(** Requests that differ in "Ab" and "BA" somewhere collide. *)
Lemma hash_collision p q b :
  no_nul p → no_nul q →
  hash (p ++ chars "Ab" ++ q ++ NUL :: b) = hash (p ++ chars "BA" ++ q ++ NUL :: b).
Proof.
  intros Hp Hq. rewrite !(app_assoc p) !(app_assoc (p ++ _)).
  rewrite !hash_string; [|unfold no_nul in *; set_solver..]. f_equal.
  rewrite !foldl_app. f_equal. simpl.
  assert (∀ h, hash_step (hash_step h "A") "b" = hash_step (hash_step h "B") "A") as ->; [|done].
  intros h. rewrite !hash_step_33.
  assert (∀ c d, wrapu64 (33 * wrapu64 (33 * h + c) + d) = wrapu64 (33 * (33 * h + c) + d))%Z as E.
  { intros c d. unfold wrapu64. rewrite -(Z.add_mod_idemp_l (33 * _)); [|lia].
    rewrite Z.mul_mod_idemp_r; [|lia]. by rewrite Z.add_mod_idemp_l; [|lia]. }
  rewrite !E. f_equal. change (char_value "A") with 65%Z. change (char_value "B") with 66%Z.
  change (char_value "b") with 98%Z. lia.
Qed.

(** ** The list *)

(** What a node holds apart from its link. *)
Definition entry : Type := Z * resp * Z.
Definition data (c : Cache) : entry := (request c, response c, response_len c).
Definition key (d : entry) : Z := d.1.1.

(** From [p], the nodes [ls] are linked one behind the other; the last one
    links to [e]. *)
Fixpoint chain (h : nodes) (p : ptr) (ls : list (nat * entry)) (e : ptr) : Prop :=
  match ls with
  | [] => p = e
  | (l, d) :: ls' => p = At l ∧ ∃ c, h !! l = Some c ∧ data c = d ∧ chain h (next c) ls' e
  end.

(** The first node with a key. *)
Definition first_with (k : Z) (ls : list (nat * entry)) : option entry :=
  (λ x, x.2.2) <$> list_find (λ x, key x.2 = k) ls.

Lemma first_with_cons k l d ls :
  first_with k ((l, d) :: ls) = if decide (key d = k) then Some d else first_with k ls.
Proof.
  unfold first_with. simpl. case_decide; [done|]. by destruct (list_find _ ls) as [[??]|].
Qed.

Lemma first_with_app k ls ls' :
  first_with k (ls ++ ls') = match first_with k ls with Some d => Some d | None => first_with k ls' end.
Proof.
  induction ls as [|[l d] ls IH]; [done|]. rewrite -app_comm_cons !first_with_cons IH.
  by case_decide.
Qed.

Lemma first_with_None k ls : first_with k ls = None ↔ k ∉ (key ∘ snd <$> ls).
Proof.
  induction ls as [|[l d] ls IH].
  - split; [intros _; apply not_elem_of_nil|done].
  - rewrite first_with_cons fmap_cons not_elem_of_cons -IH. simpl. case_decide; naive_solver.
Qed.

Lemma first_with_Some k ls d : first_with k ls = Some d → ∃ l, (l, d) ∈ ls ∧ key d = k.
Proof.
  unfold first_with. intros ([i [l d']] & Hf & ->)%fmap_Some. simpl.
  apply list_find_Some in Hf as (Hi & Hk & _). exists l. split; [|done].
  by eapply list_elem_of_lookup_2.
Qed.

Lemma chain_insert h p ls e k c :
  k ∉ ls.*1 → chain h p ls e → chain (<[k := c]> h) p ls e.
Proof.
  revert p. induction ls as [|[l d] ls IH]; intros p Hk; [done|].
  rewrite fmap_cons not_elem_of_cons in Hk. destruct Hk as [Hk1 Hk2].
  intros (-> & c' & Hl & Hd & Hch). split; [done|]. exists c'.
  rewrite lookup_insert_ne; [|done]. auto.
Qed.

Lemma chain_delete h p ls e k : k ∉ ls.*1 → chain h p ls e → chain (delete k h) p ls e.
Proof.
  revert p. induction ls as [|[l d] ls IH]; intros p Hk; [done|].
  rewrite fmap_cons not_elem_of_cons in Hk. destruct Hk as [Hk1 Hk2].
  intros (-> & c' & Hl & Hd & Hch). split; [done|]. exists c'.
  rewrite lookup_delete_ne; [|done]. auto.
Qed.

Lemma chain_lookup h p ls e l d :
  chain h p ls e → (l, d) ∈ ls → ∃ c, h !! l = Some c ∧ data c = d.
Proof.
  revert p. induction ls as [|[l' d'] ls IH]; intros p; [by intros _ ?%not_elem_of_nil|].
  intros (-> & c & Hl & Hd & Hch) [[= -> ->]|Hin]%elem_of_cons; eauto.
Qed.

(** The nodes of a list fit in memory: the fuel of the loops is enough. *)
Lemma chain_length h p ls e : NoDup ls.*1 → chain h p ls e → length ls ≤ size h.
Proof.
  intros Hnd Hch. rewrite -(length_fmap fst) -(size_list_to_set (C := gset nat)) //.
  rewrite -size_dom. apply subseteq_size. intros l. rewrite elem_of_list_to_set.
  intros ([l' d] & -> & Hin)%list_elem_of_fmap. destruct (chain_lookup _ _ _ _ _ _ Hch Hin) as (c & Hc & _).
  by apply elem_of_dom_2 in Hc.
Qed.

Create HintDb cache discriminated.
#[export] Hint Resolve chain_insert chain_delete chain_length : cache.

(** *** Searching *)

Lemma find_loop_spec fuel h p ls e k :
  length ls < fuel → (∀ l, e ≠ At l) → chain h p ls e →
  match first_with k ls with
  | Some d => ∃ c, find_loop fuel h p k = Some (Some c) ∧ data c = d
  | None => find_loop fuel h p k = match e with Null => Some None | _ => None end
  end.
Proof.
  revert p fuel. induction ls as [|[l d] ls IH]; intros p fuel Hf He.
  { intros ->. destruct fuel; [simpl in Hf; lia|]. simpl. destruct e; naive_solver. }
  intros (-> & c & Hl & Hd & Hch). destruct fuel as [|fuel]; [simpl in Hf; lia|].
  rewrite first_with_cons. cbn [find_loop]. rewrite Hl. cbn [mbind option_bind].
  subst d. unfold key. cbn [data fst]. case_decide; [eauto|].
  apply IH; [simpl in Hf; lia|done..].
Qed.

(** *** Appending *)

Lemma push_loop_spec fuel h l0 d0 ls e r c :
  length ls < fuel → (∀ l, e ≠ At l) → chain h (At l0) ((l0, d0) :: ls) e →
  h !! r = Some c → r ∉ l0 :: ls.*1 → NoDup (l0 :: ls.*1) →
  match first_with (request c) ls with
  | Some _ => push_loop fuel h l0 r = _ ← delete_cache_record c; Some (delete r h)
  | None =>
      match e with
      | Null => ∃ h', push_loop fuel h l0 r = Some h' ∧
          chain h' (At l0) (((l0, d0) :: ls) ++ [(r, data c)]) (next c) ∧
          (∀ k, k ∉ l0 :: ls.*1 → h' !! k = h !! k) ∧ dom h' = dom h
      | _ => push_loop fuel h l0 r = None
      end
  end.
Proof.
  revert l0 d0 fuel. induction ls as [|[l d] ls IH]; intros l0 d0 fuel Hf He.
  - intros (_ & c0 & Hl0 & Hd0 & Hn) Hr Hrl _. simpl in Hn. rewrite elem_of_cons in Hrl.
    destruct fuel as [|fuel]; [simpl in Hf; lia|]. cbn [first_with list_find fmap option_fmap option_map].
    cbn [push_loop]. rewrite Hl0. cbn [mbind option_bind]. rewrite Hn.
    destruct e; [|done|naive_solver]. eexists. split; [done|].
    split; [|split; [|by rewrite dom_insert_lookup_L; [|eauto]]].
    + split; [done|]. exists (set_next c0 (At r)). rewrite lookup_insert_eq. split; [done|].
      split; [done|]. split; [done|]. exists c. rewrite lookup_insert_ne; [done|naive_solver].
    + intros k Hk. rewrite lookup_insert_ne; [done|set_solver].
  - intros (_ & c0 & Hl0 & Hd0 & Hn & Hch) Hr Hrl Hnd.
    rewrite fmap_cons /= in Hrl, Hnd. apply not_elem_of_cons in Hrl as [Hr0 Hrl].
    apply NoDup_cons in Hnd as [Hl0n Hnd].
    destruct Hch as (cl & Hl & Hdl & Hch). destruct fuel as [|fuel]; [simpl in Hf; lia|].
    rewrite first_with_cons. cbn [push_loop]. rewrite Hl0. cbn [mbind option_bind]. rewrite Hn Hl.
    cbn [mbind option_bind]. rewrite Hr. cbn [mbind option_bind].
    assert (request cl = key d) as -> by by rewrite -Hdl.
    case_decide; [done|].
    specialize (IH l d fuel). destruct (first_with (request c) ls) eqn:Hfw.
    + apply IH; [simpl in Hf; lia|done| |done..]. split; [done|]. by exists cl.
    + assert (chain h (At l) ((l, d) :: ls) e) as Hch' by (split; [done|]; by exists cl).
      specialize (IH ltac:(simpl in Hf; lia) He Hch' Hr Hrl Hnd).
      destruct e; [|done..]. destruct IH as (h' & E & Hch2 & Hk & Hdom). exists h'. split; [done|].
      split; [|split; [|done]].
      * split; [done|]. exists c0. rewrite Hk; [|done]. by rewrite Hn.
      * intros k Hk'. apply Hk. set_solver.
Qed.

(** ** The cache as a map *)

(** [add_response] for each piece of the answer, as it arrives. *)
Fixpoint add_chunks (record : Cache) (pos : nat) (chunks : list (list ascii)) :
    option (Cache * nat) :=
  match chunks with
  | [] => Some (record, pos)
  | ch :: chunks' =>
      record ← add_response record ch pos; add_chunks record (pos + length ch) chunks'
  end.

(** An answer that does not fit runs over the end of the array. *)
Lemma add_chunks_overflow record b chunks :
  response record = RAt b → (Z.of_nat (length b) ≤ CACHE_BUFFER_SIZE)%Z →
  (CACHE_BUFFER_SIZE < Z.of_nat (length b + length (concat chunks)))%Z →
  add_chunks record (length b) chunks = None.
Proof.
  revert record b. induction chunks as [|ch chunks IH]; intros record b Hr Hb Hs; cbn [add_chunks].
  { rewrite /= in Hs. lia. }
  rewrite /= length_app in Hs. unfold add_response. rewrite Hr. case_decide as Hd; [|done].
  cbn [mbind option_bind]. rewrite overwrite_end -length_app.
  apply IH; [done|rewrite length_app; lia|rewrite length_app; lia].
Qed.

Lemma add_chunks_spec record b chunks :
  response record = RAt b → (Z.of_nat (length b + length (concat chunks)) ≤ CACHE_BUFFER_SIZE)%Z →
  add_chunks record (length b) chunks =
    Some (MkCache (request record) (RAt (b ++ concat chunks)) (response_len record) (next record),
          length b + length (concat chunks)).
Proof.
  revert record b. induction chunks as [|ch chunks IH]; intros record b Hr Hs; cbn [add_chunks].
  { rewrite /= app_nil_r Nat.add_0_r -Hr. by destruct record. }
  rewrite /= length_app in Hs. unfold add_response. rewrite Hr decide_True; [|lia].
  cbn [mbind option_bind]. rewrite overwrite_end -length_app IH; [|done|rewrite length_app; lia].
  cbn [request response_len next]. rewrite /= -app_assoc !length_app. do 2 f_equal. lia.
Qed.

(** What handlers do with the cache: store the answer to a request, received
    in pieces; look a request up. *)
Inductive cache_op : Type :=
| Push (req : list ascii) (chunks : list (list ascii))
| Find (req : list ascii).

Section client.
(** Where [malloc] puts a node, and what the memory held. *)
Context (alloc : nodes → nat) (junk : Cache).
Context (alloc_free : ∀ h, h !! alloc h = None).

Definition store_response (h : nodes) (cache : ptr) (req : list ascii)
    (chunks : list (list ascii)) : option nodes :=
  let r := alloc h in
  let '(_, record) := init_cache_record true junk in
  record ← add_request record (req ++ [NUL]);
  '(record, all_bytes_read) ← add_chunks record 0 chunks;
  let record := add_size record (Z.of_nat all_bytes_read) in
  push_record (<[r := record]> h) cache r.

Fixpoint run_ops (h : nodes) (cache : ptr) (ops : list cache_op) : option (list (Z * list ascii)) :=
  match ops with
  | [] => Some []
  | Push req chunks :: ops' =>
      h ← store_response h cache req chunks; run_ops h cache ops'
  | Find req :: ops' =>
      r ← find_in_cache h cache (req ++ [NUL]) true;
      rs ← run_ops h cache ops'; Some (r :: rs)
  end.

(** *** The specification *)

(** A map from hashes to answers; the first answer stays. *)
Definition key_of (req : list ascii) : Z := wrapu64 (polynomial req).

(** A copy made by [strncpy]: zeros from the first zero on. *)
Definition copied (b : list ascii) : list ascii :=
  until_nul b ++ replicate (length b - length (until_nul b)) NUL.

Lemma copied_string b : no_nul b → copied b = b.
Proof. intros Hb. unfold copied. rewrite until_nul_id // Nat.sub_diag. apply app_nil_r. Qed.

Lemma length_copied b : length (copied b) = length b.
Proof.
  unfold copied. pose proof (length_until_nul b). rewrite length_app length_replicate. lia.
Qed.

(** The specification of a run, [k0] being what the head's [request] happens to
    hold: [None] where something undefined happens, because an answer does not
    fit or because the hash looked up is the head's, whose [response] has never
    been set. *)
Fixpoint spec_ops (k0 : Z) (m : gmap Z (list ascii)) (ops : list cache_op) :
    option (list (Z * list ascii)) :=
  match ops with
  | [] => Some []
  | Push req chunks :: ops' =>
      if decide (Z.of_nat (length (concat chunks)) ≤ CACHE_BUFFER_SIZE)%Z then
        spec_ops k0 (match m !! key_of (until_nul req) with
                     | Some _ => m
                     | None => <[key_of (until_nul req) := concat chunks]> m
                     end) ops'
      else None
  | Find req :: ops' =>
      if decide (key_of (until_nul req) = k0) then None
      else
        rs ← spec_ops k0 m ops';
        Some (match m !! key_of (until_nul req) with
              | Some b => (Z.of_nat (length b), copied b)
              | None => (NOT_FOUND_CACHE, [])
              end :: rs)
  end.

(** The list, whose head holds [d0], and the map it stands for. *)
Definition cache_list (h : nodes) (cache : ptr) (d0 : entry) (m : gmap Z (list ascii)) : Prop :=
  ∃ l0 ls, chain h cache ((l0, d0) :: ls) Null ∧ NoDup (l0 :: ls.*1) ∧
    (∀ k b, m !! k = Some b → (Z.of_nat (length b) ≤ CACHE_BUFFER_SIZE)%Z) ∧
    ∀ k, first_with k ls = (λ b, (k, RAt b, Z.of_nat (length b))) <$> m !! k.

Definition cache_repr (h : nodes) (cache : ptr) (k0 : Z) (m : gmap Z (list ascii)) : Prop :=
  ∃ d0, key d0 = k0 ∧ cache_list h cache d0 m.

(** A complete node is added, or thrown away if its hash is there already. *)
Lemma push_record_list h cache d0 m r k b :
  cache_list h cache d0 m → h !! r = None → (Z.of_nat (length b) ≤ CACHE_BUFFER_SIZE)%Z →
  ∃ h', push_record (<[r := MkCache k (RAt b) (Z.of_nat (length b)) Null]> h) cache r = Some h' ∧
    cache_list h' cache d0 (match m !! k with Some _ => m | None => <[k := b]> m end).
Proof.
  intros (l0 & ls & Hch & Hnd & Hfit & Hm) Hfree Hsize.
  set (c := MkCache k (RAt b) _ Null).
  assert (r ∉ l0 :: ls.*1) as Hr.
  { change (r ∉ ((l0, d0) :: ls).*1). intros ([r' d] & Heq & Hin)%list_elem_of_fmap.
    destruct (chain_lookup _ _ _ _ _ _ Hch Hin) as (c' & Hc' & _). simpl in Heq. congruence. }
  assert (cache = At l0) as -> by by destruct Hch.
  assert (chain (<[r := c]> h) (At l0) ((l0, d0) :: ls) Null) as Hch' by auto with cache.
  assert (length ((l0, d0) :: ls) ≤ size (<[r := c]> h)) as Hlen by eauto with cache.
  pose proof (push_loop_spec (S (size (<[r := c]> h))) (<[r := c]> h) l0 d0 ls Null r c) as Hp.
  specialize (Hp ltac:(simpl in Hlen; lia) ltac:(done) Hch' (lookup_insert_eq _ _ _) Hr Hnd).
  change (request c) with k in Hp. rewrite Hm in Hp. unfold push_record.
  destruct (m !! k) as [b'|] eqn:Hb; cbn [fmap option_fmap option_map] in Hp.
  - rewrite Hp. eexists. split; [done|]. exists l0, ls. split; [|done].
    by apply (chain_delete _ _ ((l0, d0) :: ls)).
  - destruct Hp as (h' & -> & Hch2 & _). exists h'. split; [done|].
    exists l0, (ls ++ [(r, data c)]). split; [done|]. split.
    { rewrite fmap_app. change (NoDup ((l0 :: ls.*1) ++ [r])). apply NoDup_app.
      split; [done|]. split; [|apply NoDup_singleton]. by intros x Hx ->%list_elem_of_singleton. }
    split; [by intros k' b' [[<- <-]|[_ Hkb]]%lookup_insert_Some; eauto|].
    intros k'. rewrite first_with_app Hm first_with_cons. destruct (decide (k = k')) as [<-|Hk].
    + rewrite Hb lookup_insert_eq /= decide_True //.
    + rewrite lookup_insert_ne //. destruct (m !! k'); [done|]. simpl. by rewrite decide_False.
Qed.

Lemma push_record_repr h cache k0 m r k b :
  cache_repr h cache k0 m → h !! r = None → (Z.of_nat (length b) ≤ CACHE_BUFFER_SIZE)%Z →
  ∃ h', push_record (<[r := MkCache k (RAt b) (Z.of_nat (length b)) Null]> h) cache r = Some h' ∧
    cache_repr h' cache k0 (match m !! k with Some _ => m | None => <[k := b]> m end).
Proof.
  intros (d0 & Hk & Hl) Hr Hb. destruct (push_record_list _ _ _ _ _ k b Hl Hr Hb) as (h' & E & Hl').
  exists h'. split; [done|]. by exists d0.
Qed.

(** [hash] stops at the first zero byte. *)
Lemma hash_until_nul req : hash (req ++ [NUL]) = Some (key_of (until_nul req)).
Proof.
  destruct (until_nul_split req) as (n & [E|E]).
  - rewrite {1}E. apply hash_polynomial, no_nul_until_nul.
  - rewrite {1}E -app_assoc. apply hash_polynomial, no_nul_until_nul.
Qed.

Lemma store_response_spec h cache d0 m req chunks :
  cache_list h cache d0 m → (Z.of_nat (length (concat chunks)) ≤ CACHE_BUFFER_SIZE)%Z →
  ∃ h', store_response h cache req chunks = Some h' ∧
    cache_list h' cache d0 (match m !! key_of (until_nul req) with
                            | Some _ => m
                            | None => <[key_of (until_nul req) := concat chunks]> m
                            end).
Proof.
  intros Hrep Hsize. unfold store_response. cbn [init_cache_record]. unfold add_request.
  rewrite hash_until_nul. cbn [mbind option_bind].
  pose proof (add_chunks_spec (MkCache (key_of (until_nul req)) (RAt []) (response_len junk) Null) []
                chunks eq_refl Hsize) as E. simpl in E. cbn [response response_len next].
  rewrite E. cbn [mbind option_bind]. by apply push_record_list.
Qed.

Lemma store_response_overflow h cache req chunks :
  (CACHE_BUFFER_SIZE < Z.of_nat (length (concat chunks)))%Z →
  store_response h cache req chunks = None.
Proof.
  intros Hsize. unfold store_response. cbn [init_cache_record]. unfold add_request.
  rewrite hash_until_nul. cbn [mbind option_bind].
  change 0%nat with (length (@nil ascii)). by rewrite (add_chunks_overflow _ []).
Qed.

(** A lookup finds the head first, then what the map holds. *)
Lemma find_list h cache d0 m k :
  cache_list h cache d0 m →
  ∃ c, find_loop (S (size h)) h cache k =
    Some (if decide (key d0 = k) then Some c else (λ _, c) <$> m !! k) ∧
  data c = if decide (key d0 = k) then d0
           else match m !! k with Some b => (k, RAt b, Z.of_nat (length b)) | None => data c end.
Proof.
  intros (l0 & ls & Hch & Hnd & Hfit & Hm).
  assert (length ((l0, d0) :: ls) ≤ size h) as Hlen by eauto with cache.
  pose proof (find_loop_spec (S (size h)) h cache ((l0, d0) :: ls) Null k) as Hf.
  specialize (Hf ltac:(simpl in *; lia) ltac:(done) Hch). rewrite first_with_cons in Hf.
  case_decide; [done|]. rewrite Hm in Hf. destruct (m !! k) as [b|]; cbn -[find_loop] in Hf; [done|].
  exists (MkCache 0 RNull 0 Null). by rewrite Hf.
Qed.

Lemma find_in_cache_list h cache d0 m req rest :
  cache_list h cache d0 m → hash (req ++ NUL :: rest) = Some (key_of (until_nul req)) →
  key_of (until_nul req) ≠ key d0 →
  find_in_cache h cache (req ++ NUL :: rest) true =
    Some (match m !! key_of (until_nul req) with
          | Some b => (Z.of_nat (length b), copied b)
          | None => (NOT_FOUND_CACHE, [])
          end).
Proof.
  intros Hrep Hh Hne. unfold find_in_cache. rewrite Hh. cbn [mbind option_bind].
  destruct (find_list _ _ _ _ (key_of (until_nul req)) Hrep) as (c & -> & Hc).
  rewrite decide_False in Hc |- *; [|congruence]. destruct Hrep as (l0 & ls & _ & _ & Hfit & _).
  rewrite decide_False; [|congruence].
  destruct (m !! key_of (until_nul req)) as [b|] eqn:Hb; [|done]. cbn [fmap option_fmap option_map].
  cbn [mbind option_bind]. unfold copy_response. injection Hc as _ -> ->. specialize (Hfit _ _ Hb).
  rewrite decide_True; [|split; [done|lia]]. cbn [mbind option_bind]. rewrite Nat2Z.id take_ge //.
Qed.

Lemma find_in_cache_spec h cache k0 m req rest :
  cache_repr h cache k0 m → no_nul req → key_of req ≠ k0 →
  find_in_cache h cache (req ++ NUL :: rest) true =
    Some (match m !! key_of req with
          | Some b => (Z.of_nat (length b), copied b)
          | None => (NOT_FOUND_CACHE, [])
          end).
Proof.
  intros (d0 & Hk & Hrep) Hreq Hne. pose proof (until_nul_id req Hreq) as E.
  rewrite (find_in_cache_list _ _ d0 m); [by rewrite E|done|by rewrite E hash_polynomial|].
  by rewrite E Hk.
Qed.

(** The head's hash: its response is copied, a pointer never set. *)
Lemma find_in_cache_head h cache d0 m req :
  cache_list h cache d0 m → (∀ b, d0.1.2 ≠ RAt b) → key_of (until_nul req) = key d0 →
  find_in_cache h cache (req ++ [NUL]) true = None.
Proof.
  intros Hrep Hr Hk. unfold find_in_cache. rewrite hash_until_nul Hk. cbn [mbind option_bind].
  destruct (find_list _ _ _ _ (key d0) Hrep) as (c & -> & Hc). rewrite decide_True // in Hc.
  rewrite decide_True //. cbn [mbind option_bind]. unfold copy_response.
  rewrite -Hc in Hr. cbn in Hr. destruct (response c); try done. by destruct (Hr bytes).
Qed.

Lemma run_ops_spec h cache d0 m ops :
  cache_list h cache d0 m → (∀ b, d0.1.2 ≠ RAt b) →
  run_ops h cache ops = spec_ops (key d0) m ops.
Proof.
  intros Hrep Hr. revert h m Hrep. induction ops as [|[req chunks|req] ops IH];
    intros h m Hrep; [done|..]; cbn [run_ops spec_ops]; case_decide as Hd.
  - destruct (store_response_spec _ _ _ _ req _ Hrep Hd) as (h' & -> & Hrep'). by apply IH.
  - rewrite store_response_overflow //. lia.
  - by rewrite (find_in_cache_head _ _ _ _ _ Hrep Hr Hd).
  - rewrite (find_in_cache_list _ _ _ _ _ _ Hrep (hash_until_nul _) Hd). cbn [mbind option_bind].
    by rewrite (IH _ _ Hrep).
Qed.

Lemma init_cache_list h l c : cache_list (<[l := set_next c Null]> h) (At l) (data c) ∅.
Proof.
  exists l, []. split; [|split; [|split]].
  - split; [done|]. exists (set_next c Null). by rewrite lookup_insert_eq.
  - apply NoDup_singleton.
  - intros k b. by rewrite lookup_empty.
  - intros k. by rewrite lookup_empty.
Qed.

(** C3. What any sequence of stores and lookups gives on a cache that [init_cache]
    has just made, byte strings of every kind and answers of every length
    included: the list answers like a map from hashes to answers in which the
    first answer stays, a lookup giving the recorded length and a copy that is
    zero from the answer's first zero byte on; and something undefined happens
    exactly when an answer is longer than the array or the hash looked up is
    the one that happens to be in the head, which nobody has set. *)
Theorem cache_refines_map h l c ops :
  indeterminate c = true →
  run_ops (<[l := set_next c Null]> h) (At l) ops = spec_ops (request c) ∅ ops.
Proof.
  intros Hc. apply (run_ops_spec _ _ (data c)); [apply init_cache_list|].
  intros b Hb. unfold indeterminate in Hc. cbn in Hb. by rewrite Hb in Hc.
Qed.

Lemma key_of_collision p q :
  no_nul p → no_nul q → key_of (p ++ chars "Ab" ++ q) = key_of (p ++ chars "BA" ++ q).
Proof.
  intros Hp Hq. pose proof (hash_collision p q [] Hp Hq) as E. rewrite !app_assoc in E |- *.
  rewrite !hash_polynomial in E; [|unfold no_nul in *; set_solver..]. by injection E.
Qed.

(** Two different requests with the same hash: the second is answered with the
    page of the first. *)
Theorem collision_serves_other_page h l c p q body :
  indeterminate c = true → no_nul p → no_nul q → no_nul body →
  (Z.of_nat (length body) ≤ CACHE_BUFFER_SIZE)%Z → key_of (p ++ chars "BA" ++ q) ≠ request c →
  run_ops (<[l := set_next c Null]> h) (At l)
    [Push (p ++ chars "Ab" ++ q) [body]; Find (p ++ chars "BA" ++ q)] =
    Some [(Z.of_nat (length body), body)].
Proof.
  intros Hc Hp Hq Hb Hsize Hk0. rewrite (run_ops_spec _ _ (data c) ∅); [|apply init_cache_list|].
  2: { intros b Hr. unfold indeterminate in Hc. cbn in Hr. by rewrite Hr in Hc. }
  cbn [spec_ops]. rewrite /= app_nil_r decide_True // !until_nul_id; [|unfold no_nul in *; set_solver..].
  rewrite decide_False // lookup_empty key_of_collision // lookup_insert_eq /= copied_string //.
Qed.

Lemma init_cache_repr h l c :
  cache_repr (<[l := set_next c Null]> h) (At l) (request c) ∅.
Proof. exists (data c). split; [done|apply init_cache_list]. Qed.

End client.

(** Two pages, one of them binary, stored twice, and then a lookup whose hash
    is 7, that of the head. *)
Lemma cache_refines_map_witness :
  let alloc (h : nodes) := fresh (dom h) in
  let junk := MkCache 7 RWild 8 Wild in
  let ops := [Find (chars "GET /a"); Push (chars "GET /a") [chars "one "; chars "page"];
              Push (chars "GET /b") [["x"; NUL; "y"]%char]; Push (chars "GET /a") [];
              Find (chars "GET /a"); Find (chars "GET /b")] in
  run_ops alloc junk (<[0 := set_next junk Null]> ∅) (At 0) ops =
    Some [(NOT_FOUND_CACHE, []); (8%Z, chars "one page"); (3%Z, ["x"; NUL; NUL]%char)] ∧
  run_ops alloc junk (<[0 := set_next junk Null]> ∅) (At 0) (ops ++ [Find ["007"%char]]) = None.
Proof.
  assert (∀ h : nodes, h !! fresh (dom h) = None) as Hf.
  { intros h. apply not_elem_of_dom, is_fresh. }
  split; (etransitivity; [apply (cache_refines_map _ _); [exact Hf|reflexivity]|]);
    vm_compute; reflexivity.
Defined.

(** [collision_serves_other_page] for two addresses of one site. *)
Lemma collision_serves_other_page_witness :
  run_ops (λ h : nodes, fresh (dom h)) (MkCache 7 RWild 8 Wild)
    (<[0 := set_next (MkCache 7 RWild 8 Wild) Null]> ∅) (At 0)
    [Push (chars "GET /" ++ chars "Ab" ++ chars "c") [chars "page of /Abc"];
     Find (chars "GET /" ++ chars "BA" ++ chars "c")] =
    Some [(12%Z, chars "page of /Abc")].
Proof.
  apply (collision_serves_other_page _ _);
    [intros h; apply not_elem_of_dom, is_fresh|done|..|vm_compute; congruence|vm_compute; congruence];
    by apply (bool_decide_unpack _).
Defined.

(** ** What a copy keeps *)

(** A cached answer is delivered unchanged exactly when nothing but zeros
    follows its first zero: [strncpy] is the wrong call for binary data. *)
Theorem copy_response_exact k b n :
  (Z.of_nat (length b) ≤ CACHE_BUFFER_SIZE)%Z →
  copy_response (MkCache k (RAt b) (Z.of_nat (length b)) n) true = Some b ↔
  ∃ s m, no_nul s ∧ b = s ++ replicate m NUL.
Proof.
  intros Hb. unfold copy_response. cbn [response response_len].
  rewrite decide_True; [|split; [done|lia]]. rewrite Nat2Z.id take_ge //. split.
  - intros [= E]. exists (until_nul b), (length b - length (until_nul b)).
    split; [apply no_nul_until_nul|done].
  - intros (s & m & Hs & ->). f_equal.
    assert (until_nul (s ++ replicate m NUL) = s) as ->.
    { clear Hb. unfold no_nul in Hs. induction s as [|c s IH]; [by destruct m|]. simpl.
      rewrite decide_False; [|set_solver]. f_equal. apply IH. set_solver. }
    rewrite length_app length_replicate. do 2 f_equal. lia.
Qed.

(** "x", zero, "y" is not kept; "x", zero is. *)
Lemma copy_response_exact_witness :
  copy_response (MkCache 5 (RAt ["x"; NUL]%char) 2 Null) true = Some ["x"; NUL]%char ∧
  copy_response (MkCache 5 (RAt ["x"; NUL; "y"]%char) 3 Null) true = Some ["x"; NUL; NUL]%char.
Proof.
  split; [|done]. apply (copy_response_exact 5 ["x"; NUL]%char Null); [done|].
  exists ["x"%char], 1. split; [by apply (bool_decide_unpack _)|done].
Defined.
