(* ===== verification/ProxyLocks.v ===== *)
(** * ProxyLocks: the mutex of the proxy's cache

    [semestr2/Task3/header/cache_list.h] once more: [find_in_cache] and
    [push_record] with [cache_mutex] locked and unlocked as the code does it,
    and every round of their loops a step, so that any number of threads may
    get in each other's way.  Outside the critical sections a thread makes a
    node of its own, with its answer in it, for [push_record].  The theorem
    says that the threads cannot tell this from operations on a map that
    happen in one step each, which is what [Proxy.v] makes of them, and that
    the mutex is always given back. *)
From stdpp Require Import base gmap list numbers strings.
From iris.prelude Require Import prelude.
From Stdlib Require Import Ascii.
From S2P Require Import Prelude CString Steps ProxyCache.
#[local] Open Scope nat_scope.

(** What a thread does with the cache: look a request up, or append the
    answer to one. *)
Inductive job : Type :=
| Find (req : list ascii)
| Push (req : list ascii) (b : list ascii).

(** The statement a thread is about to run; [r] is its own node. *)
Inductive lpc : Type :=
| Idle                                   (* outside *)
| FLock (req : list ascii)               (* pthread_mutex_lock *)
| FHash (req : list ascii)               (* req_hash = hash(req) *)
| FTest (req : list ascii) (h : Z) (cur : ptr)   (* while (cur != NULL), and the comparison *)
| FCopy (req : list ascii) (h : Z) (cur : nat)   (* strncpy *)
| FUnlock (req : list ascii) (hit : option (nat * list ascii)) (* pthread_mutex_unlock; return -1 *)
| FReturn (req : list ascii) (cur : nat) (copy : list ascii) (* return cur->response_len *)
| PLock (req b : list ascii) (r : nat)   (* pthread_mutex_lock *)
| PTest (req b : list ascii) (r cur : nat)       (* while (cur->next != NULL) cur = cur->next *)
| PCompare (req b : list ascii) (r cur : nat)    (* cur->request == record->request *)
| PDelete (req b : list ascii) (r : nat) (* delete_cache_record(record); free(record) *)
| PLink (req b : list ascii) (r cur : nat)       (* cur->next = record *)
| PUnlock.                               (* pthread_mutex_unlock *)

Record thread : Type := Thread {
  pc : lpc;
  todo : list job;
  results : list (Z * list ascii)
}.

Record state : Type := State {
  cache_mutex : option nat;
  mem : nodes;
  threads : list thread
}.

Section locks.
(** Where [malloc] puts a node, and the head of the list. *)
Context (alloc : nodes → nat) (start : ptr).

(** The node an answer has been put into. *)
Definition filled (req b : list ascii) : Cache :=
  MkCache (key_of (until_nul req)) (RAt b) (Z.of_nat (length b)) Null.

(** Thread [i] goes on at [p]. *)
Definition goto (i : nat) (t : thread) (p : lpc) (o : option nat) (h : nodes) (s : state) : outcome state :=
  Next (State o h (<[i := Thread p (todo t) (results t)]> (threads s))).

(** The calls on the mutex. *)
Definition lock (i : nat) (t : thread) (p : lpc) (s : state) : outcome state :=
  match cache_mutex s with None => goto i t p (Some i) (mem s) s | Some _ => Disabled end.

Definition find_in_cache (i : nat) (t : thread) (s : state) : outcome state :=
  let go p := goto i t p (cache_mutex s) (mem s) s in
  let answered x o :=
    Next (State o (mem s) (<[i := Thread Idle (todo t) (results t ++ [x])]> (threads s))) in
  match pc t with
  | FLock req => lock i t (FHash req) s
  | FHash req => defined (hash (req ++ [NUL])) (λ h, go (FTest req h start))
  | FTest req h cur =>
      match cur with
      | Null => go (FUnlock req None)
      | Wild => Undefined
      | At l => defined (mem s !! l) (λ c,
          if decide (request c = h) then go (FCopy req h l) else go (FTest req h (next c)))
      end
  | FCopy req h l =>
      defined (mem s !! l) (λ c, defined (copy_response c true) (λ b,
      go (FUnlock req (Some (l, b)))))
  | FUnlock req None => answered (NOT_FOUND_CACHE, []) None
  | FUnlock req (Some (l, b)) => goto i t (FReturn req l b) None (mem s) s
  | FReturn req l b =>
      (* the mutex is not held any more *)
      defined (mem s !! l) (λ c, answered (response_len c, b) (cache_mutex s))
  | _ => Disabled
  end.

Definition push_record (i : nat) (t : thread) (s : state) : outcome state :=
  let go p := goto i t p (cache_mutex s) (mem s) s in
  match pc t with
  | PLock req b r =>
      match start with At l => lock i t (PTest req b r l) s | _ => Undefined end
  | PTest req b r cur =>
      defined (mem s !! cur) (λ c,
      match next c with
      | Null => go (PLink req b r cur)
      | Wild => Undefined
      | At n => go (PCompare req b r n)
      end)
  | PCompare req b r cur =>
      defined (mem s !! cur) (λ c, defined (mem s !! r) (λ record,
      if decide (request c = request record) then go (PDelete req b r) else go (PTest req b r cur)))
  | PDelete req b r =>
      defined (mem s !! r) (λ record, defined (delete_cache_record record) (λ _,
      goto i t PUnlock (cache_mutex s) (delete r (mem s)) s))
  | PLink req b r cur =>
      defined (mem s !! cur) (λ c,
      goto i t PUnlock (cache_mutex s) (<[cur := set_next c (At r)]> (mem s)) s)
  | PUnlock => goto i t Idle None (mem s) s
  | _ => Disabled
  end.

(** A thread's step; between two calls it takes its next job. *)
Definition step (i : nat) (s : state) : outcome state :=
  possible (threads s !! i) (λ t,
  match pc t with
  | Idle =>
      match todo t with
      | [] => Disabled
      | Find req :: js =>
          Next (State (cache_mutex s) (mem s) (<[i := Thread (FLock req) js (results t)]> (threads s)))
      | Push req b :: js =>
          let r := alloc (mem s) in
          Next (State (cache_mutex s) (<[r := filled req b]> (mem s))
                  (<[i := Thread (PLock req b r) js (results t)]> (threads s)))
      end
  | FLock _ | FHash _ | FTest _ _ _ | FCopy _ _ _ | FUnlock _ _ | FReturn _ _ _ => find_in_cache i t s
  | _ => push_record i t s
  end).

(** ** The specification: a map, and jobs that are one step *)

Definition answer (m : gmap Z (list ascii)) (req : list ascii) : Z * list ascii :=
  match m !! key_of (until_nul req) with
  | Some b => (Z.of_nat (length b), copied b)
  | None => (NOT_FOUND_CACHE, [])
  end.

Definition add_page (req b : list ascii) (m : gmap Z (list ascii)) : gmap Z (list ascii) :=
  match m !! key_of (until_nul req) with Some _ => m | None => <[key_of (until_nul req) := b]> m end.

Definition do_job (m : gmap Z (list ascii)) (x : nat * job) : gmap Z (list ascii) :=
  match x.2 with Find _ => m | Push req b => add_page req b m end.

(** The pages after the jobs of the threads in some order, what thread [i]
    has been answered, and which jobs it did. *)
Definition pages (m : gmap Z (list ascii)) (order : list (nat * job)) : gmap Z (list ascii) :=
  foldl do_job m order.

Fixpoint answers (i : nat) (m : gmap Z (list ascii)) (order : list (nat * job)) : list (Z * list ascii) :=
  match order with
  | [] => []
  | x :: order' =>
      match x with
      | (j, Find req) => if decide (j = i) then [answer m req] else []
      | _ => []
      end ++ answers i (do_job m x) order'
  end.

Definition jobs_of (i : nat) (order : list (nat * job)) : list job := (filter (λ x, x.1 = i) order).*2.

Lemma pages_snoc m order x : pages m (order ++ [x]) = do_job (pages m order) x.
Proof. apply foldl_snoc. Qed.

Lemma answers_snoc i m order j o :
  answers i m (order ++ [(j, o)]) =
  answers i m order ++
  match o with Find req => if decide (j = i) then [answer (pages m order) req] else [] | _ => [] end.
Proof.
  revert m. induction order as [|x order IH]; intros m; simpl.
  - by destruct o; rewrite app_nil_r.
  - rewrite IH app_assoc. done.
Qed.

Lemma jobs_of_snoc i order j o :
  jobs_of i (order ++ [(j, o)]) = jobs_of i order ++ if decide (j = i) then [o] else [].
Proof.
  unfold jobs_of. rewrite filter_app fmap_app. f_equal. rewrite filter_cons. cbn.
  by case_decide.
Qed.

(** ** The invariant *)

(** In a critical section. *)
Definition critical (p : lpc) : bool :=
  match p with Idle | FLock _ | FReturn _ _ _ | PLock _ _ _ => false | _ => true end.

(** The job that has not happened yet. *)
Definition job_of (p : lpc) : list job :=
  match p with
  | Idle | PUnlock => []
  | FLock req | FHash req | FTest req _ _ | FCopy req _ _ | FUnlock req _ | FReturn req _ _ => [Find req]
  | PLock req b _ | PTest req b _ _ | PCompare req b _ _ | PDelete req b _ | PLink req b _ _ => [Push req b]
  end.

(** The thread's own node and what it holds. *)
Definition own (p : lpc) : option (nat * Cache) :=
  match p with
  | PLock req b r | PTest req b r _ | PCompare req b r _ | PDelete req b r | PLink req b r _ =>
      Some (r, filled req b)
  | _ => None
  end.

(** Node [l] of the list [full] is the page for [req], and [b] its copy. *)
Definition found (m : gmap Z (list ascii)) (full : list (nat * entry)) (req : list ascii) (l : nat)
    (b : list ascii) : Prop :=
  ∃ page, m !! key_of (until_nul req) = Some page ∧ b = copied page ∧
    (l, (key_of (until_nul req), RAt page, Z.of_nat (length page))) ∈ full.

(** How far the loops have got in the list [full]. *)
Definition progress_ok (h : nodes) (m : gmap Z (list ascii)) (full : list (nat * entry)) (p : lpc) : Prop :=
  match p with
  | FTest req k cur =>
      k = key_of (until_nul req) ∧
      ∃ pre post, full = pre ++ post ∧ first_with k pre = None ∧ chain h cur post Null
  | FCopy req k l => k = key_of (until_nul req) ∧ ∃ d, first_with k full = Some d ∧ (l, d) ∈ full
  | FUnlock req None => m !! key_of (until_nul req) = None
  | FUnlock req (Some (l, b)) | FReturn req l b => found m full req l b
  | PTest req b _ cur =>
      ∃ pre d post, full = pre ++ (cur, d) :: post ∧
        first_with (key_of (until_nul req)) (tail (pre ++ [(cur, d)])) = None ∧
        chain h (At cur) ((cur, d) :: post) Null
  | PCompare req b _ cur =>
      ∃ pre d post, full = pre ++ (cur, d) :: post ∧ pre ≠ [] ∧
        first_with (key_of (until_nul req)) (tail pre) = None ∧
        chain h (At cur) ((cur, d) :: post) Null
  | PDelete req _ _ => is_Some (m !! key_of (until_nul req))
  | PLink req b _ cur =>
      m !! key_of (until_nul req) = None ∧ ∃ pre d, full = pre ++ [(cur, d)]
  | _ => True
  end.

(** What is required of a job: its hash is not the head's, its answer fits. *)
Definition job_ok (k0 : Z) (j : job) : Prop :=
  match j with
  | Find req => key_of (until_nul req) ≠ k0
  | Push _ b => (Z.of_nat (length b) ≤ CACHE_BUFFER_SIZE)%Z
  end.

(** ** Lists *)

Lemma chain_app h p l1 l2 e :
  chain h p (l1 ++ l2) e ↔ ∃ q, chain h p l1 q ∧ chain h q l2 e.
Proof.
  revert p. induction l1 as [|[l d] l1 IH]; intros p; cbn [app chain].
  { split; [intros H; by exists p|]. by intros (q & -> & H). }
  split.
  - intros (-> & c & Hc & Hd & (q & H1 & H2)%IH). exists q. split; [|done]. split; [done|]. by exists c.
  - intros (q & (-> & c & Hc & Hd & H1) & H2). split; [done|]. exists c. split_and!; [done..|].
    apply IH. by exists q.
Qed.

(** A chain that starts at a node has that node. *)
Lemma chain_At h l ls :
  chain h (At l) ls Null → ∃ c ls', h !! l = Some c ∧ ls = (l, data c) :: ls' ∧ chain h (next c) ls' Null.
Proof. destruct ls as [|[l' d] ls]; [done|]. intros ([= ->] & c & Hc & <- & H). eauto. Qed.

Lemma chain_Null h ls : chain h Null ls Null → ls = [].
Proof. destruct ls as [|[l d] ls]; [done|]. by intros [? _]. Qed.

Lemma chain_Wild h ls : ¬ chain h Wild ls Null.
Proof. destruct ls as [|[l d] ls]; [done|]. by intros [? _]. Qed.

(** Another node behind the last one. *)
Lemma chain_link h p pre l d r c cr :
  chain h p (pre ++ [(l, d)]) Null → NoDup (pre ++ [(l, d)]).*1 → h !! l = Some c → h !! r = Some cr →
  next cr = Null → r ∉ (pre ++ [(l, d)]).*1 →
  chain (<[l := set_next c (At r)]> h) p ((pre ++ [(l, d)]) ++ [(r, data cr)]) Null.
Proof.
  intros Hch Hnd Hl Hr Hn Hnin. rewrite fmap_app in Hnd, Hnin.
  apply NoDup_app in Hnd as (_ & Hd & _). rewrite not_elem_of_app in Hnin. destruct Hnin as [_ Hrl].
  assert (r ≠ l) as Hne by (cbn in Hrl; set_solver).
  apply chain_app in Hch as (q & H1 & (-> & c' & Hc' & <- & _)). rewrite Hl in Hc'. injection Hc' as <-.
  rewrite -app_assoc. apply chain_app. exists (At l). split.
  { apply chain_insert; [|done]. intros Hin. apply (Hd l Hin). cbn. set_solver. }
  split; [done|]. exists (set_next c (At r)). rewrite lookup_insert_eq. split_and!; [done..|].
  split; [done|]. exists cr. rewrite lookup_insert_ne //.
Qed.

(** How many nodes there are from [p] on. *)
Fixpoint nodes_from (fuel : nat) (h : nodes) (p : ptr) : nat :=
  match fuel, p with
  | S fuel', At l => match h !! l with Some c => S (nodes_from fuel' h (next c)) | None => 0 end
  | _, _ => 0
  end.

Lemma nodes_from_chain fuel h p ls :
  chain h p ls Null → length ls ≤ fuel → nodes_from fuel h p = length ls.
Proof.
  revert p fuel. induction ls as [|[l d] ls IH]; intros p fuel; [by intros ->; destruct fuel|].
  intros (-> & c & Hc & _ & Hch) Hf. destruct fuel as [|fuel]; [cbn in Hf; lia|].
  cbn. rewrite Hc. f_equal. apply IH; [done|]. cbn in Hf. lia.
Qed.

(** What [cache_list] says, with the nodes of the list named. *)
Definition list_ok (h : nodes) (l0 : nat) (d0 : entry) (ls : list (nat * entry)) (m : gmap Z (list ascii)) : Prop :=
  chain h start ((l0, d0) :: ls) Null ∧ NoDup (l0 :: ls.*1) ∧
  (∀ k b, m !! k = Some b → (Z.of_nat (length b) ≤ CACHE_BUFFER_SIZE)%Z) ∧
  ∀ k, first_with k ls = (λ b, (k, RAt b, Z.of_nat (length b))) <$> m !! k.

Section threads.
Context (d0 : entry) (m0 : gmap Z (list ascii)) (jobs : nat → list job).

Definition thread_ok (o : option nat) (h : nodes) (full : list (nat * entry)) (order : list (nat * job))
    (i : nat) (t : thread) : Prop :=
  critical (pc t) = bool_decide (o = Some i) ∧
  progress_ok h (pages m0 order) full (pc t) ∧
  (∀ r c, own (pc t) = Some (r, c) → h !! r = Some c ∧ r ∉ full.*1) ∧
  jobs_of i order ++ job_of (pc t) ++ todo t = jobs i ∧
  results t = answers i m0 order.

Definition distinct_nodes (ts : list thread) : Prop :=
  ∀ i j t u r c c', i ≠ j → ts !! i = Some t → ts !! j = Some u →
  own (pc t) = Some (r, c) → own (pc u) = Some (r, c') → False.

Record inv (order : list (nat * job)) (l0 : nat) (ls : list (nat * entry)) (s : state) : Prop := Inv {
  inv_list : list_ok (mem s) l0 d0 ls (pages m0 order);
  inv_threads : ∀ i t, threads s !! i = Some t →
    thread_ok (cache_mutex s) (mem s) ((l0, d0) :: ls) order i t;
  inv_nodes : distinct_nodes (threads s);
  inv_holder : ∀ i, cache_mutex s = Some i → is_Some (threads s !! i)
}.

(** *** What a step leaves alone *)

Lemma progress_insert h m full p r c :
  r ∉ full.*1 → progress_ok h m full p → progress_ok (<[r := c]> h) m full p.
Proof.
  intros Hr. destruct p; try done; cbn.
  - intros (Hk & pre & post & -> & Hf & Hch). split; [done|]. exists pre, post. split_and!; [done..|].
    apply chain_insert; [|done]. rewrite fmap_app not_elem_of_app in Hr. tauto.
  - intros (pre & d & post & -> & Hf & Hch). exists pre, d, post. split_and!; [done..|].
    rewrite fmap_app not_elem_of_app in Hr. apply (chain_insert _ (At cur) ((cur, d) :: post) Null); [apply Hr|exact Hch].
  - intros (pre & d & post & -> & Hn & Hf & Hch). exists pre, d, post. split_and!; [done..|].
    rewrite fmap_app not_elem_of_app in Hr. apply (chain_insert _ (At cur) ((cur, d) :: post) Null); [apply Hr|exact Hch].
Qed.

(** A page that has been found stays, and so does its node. *)
Lemma found_grows m full full' x req l b :
  full ⊆ full' → found m full req l b → found (do_job m x) full' req l b.
Proof.
  intros Hfull (page & Hm & Hb & Hin). exists page. split_and!; [|done|by apply Hfull].
  destruct x as [j [req'|req' b']]; [done|]. cbn. unfold add_page.
  destruct (m !! key_of (until_nul req')) eqn:E; [done|].
  rewrite lookup_insert_ne //. congruence.
Qed.

Lemma progress_outside h h' m full full' x p :
  critical p = false → full ⊆ full' → progress_ok h m full p → progress_ok h' (do_job m x) full' p.
Proof. intros Hc Hfull. destruct p; try done. by apply found_grows. Qed.

(** A node made by another thread. *)
Lemma thread_ok_insert o h full order j u r c :
  h !! r = None → r ∉ full.*1 → thread_ok o h full order j u →
  thread_ok o (<[r := c]> h) full order j u.
Proof.
  intros Hr Hn (H1 & H2 & H3 & H4 & H5). split_and!; [done|by apply progress_insert| |done..].
  intros r' c' Hown. destruct (H3 r' c' Hown) as [Hc Hnin]. split; [|done].
  rewrite lookup_insert_ne //. congruence.
Qed.

(** A job done by another thread, which holds the mutex before it. *)
Lemma thread_ok_job i o' h h' full full' order x j u :
  j ≠ i → o' = None ∨ o' = Some i → full ⊆ full' →
  (∀ r c, own (pc u) = Some (r, c) → h' !! r = h !! r ∧ r ∉ full'.*1) →
  thread_ok (Some i) h full order j u → thread_ok o' h' full' (order ++ [(i, x)]) j u.
Proof.
  intros Hne Ho Hfull Hown (H1 & H2 & H3 & H4 & H5).
  rewrite bool_decide_false in H1; [|congruence]. split_and!.
  - rewrite H1 bool_decide_false //. destruct Ho as [-> | ->]; congruence.
  - rewrite pages_snoc. by eapply progress_outside.
  - intros r c Hrc. destruct (Hown r c Hrc) as [-> Hn]. split; [|done]. by apply H3.
  - by rewrite jobs_of_snoc decide_False // app_nil_r.
  - rewrite answers_snoc H5. destruct x; rewrite ?decide_False // app_nil_r //.
Qed.

(** The mutex taken or given back by another thread. *)
Lemma thread_ok_mutex o o' h full order j u :
  (o = Some j ↔ o' = Some j) → thread_ok o h full order j u → thread_ok o' h full order j u.
Proof.
  intros Ho (H1 & H2). split; [|done]. rewrite H1. by apply bool_decide_ext.
Qed.

Lemma distinct_insert ts i t :
  (∀ r c j u c', own (pc t) = Some (r, c) → j ≠ i → ts !! j = Some u → own (pc u) = Some (r, c') → False) →
  distinct_nodes ts → distinct_nodes (<[i := t]> ts).
Proof.
  intros Ht Hd j k u v r c c' Hjk Hj Hk Hu Hv.
  apply list_lookup_insert_Some in Hj as [(<- & <- & _)|[Hj1 Hj2]];
    apply list_lookup_insert_Some in Hk as [(<- & <- & _)|[Hk1 Hk2]]; [done| | |].
  - by eapply (Ht r c k v c').
  - by eapply (Ht r c' j u c).
  - by eapply (Hd j k u v r c c').
Qed.

(** Steps that change the thread's place and perhaps the mutex. *)
Lemma goto_inv order l0 ls s i t p o :
  inv order l0 ls s → threads s !! i = Some t →
  job_of p = job_of (pc t) → own p = own (pc t) → critical p = bool_decide (o = Some i) →
  progress_ok (mem s) (pages m0 order) ((l0, d0) :: ls) p →
  (∀ j, j ≠ i → cache_mutex s = Some j ↔ o = Some j) →
  inv order l0 ls (State o (mem s) (<[i := Thread p (todo t) (results t)]> (threads s))).
Proof.
  intros [Hl Ht Hd Hh] Hi Hj Hown Hc Hp Ho. pose proof (Ht i t Hi) as (_ & _ & Hn & Hjobs & Hres).
  split; cbn; [done|..].
  - intros j u [(<- & <- & _)|[Hne Hu]]%list_lookup_insert_Some.
    + split_and!; cbn; [done..|by rewrite Hown|by rewrite Hj|done].
    + eapply thread_ok_mutex; [apply Ho; congruence|by apply Ht].
  - apply distinct_insert; [|done]. cbn. rewrite Hown. intros r c j u c' Hrc Hne Hu Hrc'.
    by eapply (Hd j i u t r c' c).
  - intros j ->. destruct (decide (j = i)) as [->|Hne].
    + rewrite list_lookup_insert_eq //. by eapply lookup_lt_Some.
    + rewrite list_lookup_insert_ne //. by apply Hh, Ho.
Qed.

(** How many steps a thread in a critical section is from the mutex's being
    given back. *)
Definition left_pc (h : nodes) (p : lpc) : nat :=
  match p with
  | FHash _ => nodes_from (size h) h start + 4
  | FTest _ _ cur => nodes_from (size h) h cur + 3
  | FCopy _ _ _ => 2
  | PTest _ _ _ cur => 2 * nodes_from (size h) h (At cur) + 2
  | PCompare _ _ _ cur => 2 * nodes_from (size h) h (At cur) + 3
  | PDelete _ _ _ | PLink _ _ _ _ => 2
  | FUnlock _ _ | PUnlock => 1
  | _ => 0
  end.
Definition left (i : nat) (s : state) : nat :=
  match threads s !! i with Some t => left_pc (mem s) (pc t) | None => 0 end.

Lemma left_insert i t o h ts u :
  ts !! i = Some u → left i (State o h (<[i := t]> ts)) = left_pc h (pc t).
Proof. intros Hi. unfold left. cbn. rewrite list_lookup_insert_eq //. by eapply lookup_lt_Some. Qed.

Lemma suffix_left h l0 ls m pre post cur :
  list_ok h l0 d0 ls m → (l0, d0) :: ls = pre ++ post → chain h cur post Null →
  nodes_from (size h) h cur = length post.
Proof.
  intros (Hch & Hnd & _) Hfull Hpost. apply (nodes_from_chain _ _ _ _ Hpost).
  pose proof (chain_length _ _ ((l0, d0) :: ls) _ Hnd Hch) as Hlen. rewrite Hfull length_app in Hlen. lia.
Qed.

(** A step keeps the invariant and brings the thread closer to giving the
    mutex back. *)
Definition good (l0 : nat) (i : nat) (t : thread) (s : state) (out : outcome state) : Prop :=
  ∃ s' order' ls', out = Next s' ∧ inv order' l0 ls' s' ∧
    (critical (pc t) = true →
     cache_mutex s' = None ∨ cache_mutex s' = Some i ∧ left i s' < left i s).

(** Inside a critical section. *)
Lemma goto_good order l0 ls s i t p :
  inv order l0 ls s → threads s !! i = Some t → critical (pc t) = true → critical p = true →
  job_of p = job_of (pc t) → own p = own (pc t) →
  progress_ok (mem s) (pages m0 order) ((l0, d0) :: ls) p →
  left_pc (mem s) p < left_pc (mem s) (pc t) →
  good l0 i t s (goto i t p (cache_mutex s) (mem s) s).
Proof.
  intros Hinv Hi Hct Hcp Hj Ho Hp Hl. pose proof (inv_threads _ _ _ _ Hinv i t Hi) as (Hc & _).
  rewrite Hct in Hc. symmetry in Hc. apply bool_decide_eq_true in Hc.
  eexists _, order, ls. split; [done|]. split.
  - apply goto_inv; try done. rewrite Hcp. symmetry. by apply bool_decide_true.
  - intros _. right. split; [done|]. rewrite (left_insert _ _ _ _ _ t) //.
    unfold left. by rewrite Hi.
Qed.

(** Taking the mutex. *)
Lemma lock_good order l0 ls s i t p :
  inv order l0 ls s → threads s !! i = Some t → critical (pc t) = false → critical p = true →
  job_of p = job_of (pc t) → own p = own (pc t) →
  progress_ok (mem s) (pages m0 order) ((l0, d0) :: ls) p →
  (lock i t p s = Disabled ∧ cache_mutex s ≠ None) ∨ good l0 i t s (lock i t p s).
Proof.
  intros Hinv Hi Hct Hcp Hj Ho Hp. unfold lock. destruct (cache_mutex s) as [k|] eqn:Hm; [by left|right].
  eexists _, order, ls. split; [done|]. split; [|by rewrite Hct].
  apply goto_inv; try done.
  - rewrite Hcp. symmetry. by apply bool_decide_true.
  - intros j Hj'. rewrite Hm. split; congruence.
Qed.

(** A job that has been done, by the thread that holds the mutex. *)
Lemma done_inv order l0 ls ls' s i t x p h o res :
  inv order l0 ls s → threads s !! i = Some t → cache_mutex s = Some i → o = None ∨ o = Some i →
  job_of (pc t) = [x] → job_of p = [] → own p = None → critical p = bool_decide (o = Some i) →
  progress_ok h (pages m0 (order ++ [(i, x)])) ((l0, d0) :: ls') p →
  res = results t ++ match x with Find req => [answer (pages m0 order) req] | _ => [] end →
  ls ⊆ ls' → list_ok h l0 d0 ls' (pages m0 (order ++ [(i, x)])) →
  (∀ j u r c, j ≠ i → threads s !! j = Some u → own (pc u) = Some (r, c) →
     h !! r = mem s !! r ∧ r ∉ ((l0, d0) :: ls').*1) →
  inv (order ++ [(i, x)]) l0 ls' (State o h (<[i := Thread p (todo t) res]> (threads s))).
Proof.
  intros [Hl Ht Hd Hh] Hi Hm Ho Hj Hjp Hown Hc Hp -> Hsub Hl' Hown'.
  pose proof (Ht i t Hi) as (_ & _ & _ & Hjobs & Hres).
  split; cbn; [done|..].
  - intros j u [(<- & <- & _)|[Hne Hu]]%list_lookup_insert_Some.
    + split_and!; cbn; [done..|by rewrite Hown| |].
      * rewrite jobs_of_snoc decide_True // Hjp -Hjobs Hj -app_assoc //.
      * rewrite answers_snoc Hres. destruct x; [by rewrite decide_True|done].
    + rewrite Hm in Ht. eapply thread_ok_job; [congruence|done| | |by apply Ht].
      { intros y [->|Hy]%elem_of_cons; [by left|right; by apply Hsub]. }
      intros r c. apply (Hown' j u r c); congruence.
  - apply distinct_insert; [|done]. cbn. by rewrite Hown.
  - intros j ->. destruct Ho as [|[= ->]]; [done|]. rewrite list_lookup_insert_eq //.
    by eapply lookup_lt_Some.
Qed.

Lemma holder order l0 ls s i t :
  inv order l0 ls s → threads s !! i = Some t → critical (pc t) = true → cache_mutex s = Some i.
Proof.
  intros Hinv Hi Hc. pose proof (inv_threads _ _ _ _ Hinv i t Hi) as (H & _).
  rewrite Hc in H. symmetry in H. by apply bool_decide_eq_true in H.
Qed.

Lemma own_node order l0 ls s i t r c :
  inv order l0 ls s → threads s !! i = Some t → own (pc t) = Some (r, c) →
  mem s !! r = Some c ∧ r ∉ ((l0, d0) :: ls).*1.
Proof. intros Hinv Hi. by apply (inv_threads _ _ _ _ Hinv i t Hi). Qed.

(** What the list says about a hash. *)
Lemma first_full h l0 ls m k :
  list_ok h l0 d0 ls m → key d0 ≠ k →
  first_with k ((l0, d0) :: ls) = (λ b, (k, RAt b, Z.of_nat (length b))) <$> m !! k.
Proof. intros (_ & _ & _ & H) Hk. by rewrite first_with_cons decide_False. Qed.

(** A lookup that ends after the mutex has been given back. *)
Lemma return_inv order l0 ls s i t req :
  inv order l0 ls s → threads s !! i = Some t → job_of (pc t) = [Find req] → critical (pc t) = false →
  inv (order ++ [(i, Find req)]) l0 ls
    (State (cache_mutex s) (mem s)
       (<[i := Thread Idle (todo t) (results t ++ [answer (pages m0 order) req])]> (threads s))).
Proof.
  intros [Hl Ht Hd Hh] Hi Hj Hc. pose proof (Ht i t Hi) as (Ho & _ & _ & Hjobs & Hres).
  rewrite Hc in Ho. split; cbn; [by rewrite pages_snoc|..].
  - intros j u [(<- & <- & _)|[Hne Hu]]%list_lookup_insert_Some.
    + split_and!; cbn; try done.
      * by rewrite jobs_of_snoc decide_True // -Hjobs Hj -app_assoc.
      * by rewrite answers_snoc Hres decide_True.
    + destruct (Ht j u Hu) as (H1 & H2 & H3 & H4 & H5). split_and!; try done.
      * by rewrite pages_snoc.
      * rewrite jobs_of_snoc decide_False; [by rewrite app_nil_r|congruence].
      * rewrite answers_snoc decide_False; [by rewrite app_nil_r|congruence].
  - by apply distinct_insert.
  - intros j Hm. apply lookup_lt_is_Some. rewrite length_insert. by apply lookup_lt_is_Some, Hh.
Qed.

(** The steps of [find_in_cache]. *)
Lemma find_step order l0 ls s i t req :
  inv order l0 ls s → threads s !! i = Some t → job_of (pc t) = [Find req] →
  key_of (until_nul req) ≠ key d0 →
  (find_in_cache i t s = Disabled ∧ critical (pc t) = false ∧ cache_mutex s ≠ None) ∨
  good l0 i t s (find_in_cache i t s).
Proof.
  intros Hinv Hi Hj Hk. pose proof (inv_list _ _ _ _ Hinv) as Hl.
  pose proof (inv_threads _ _ _ _ Hinv i t Hi) as (_ & Hp & _).
  pose proof (λ pre post cur, suffix_left (mem s) l0 ls _ pre post cur Hl) as Hleft.
  assert (key d0 ≠ key_of (until_nul req)) as Hk' by congruence.
  pose proof (first_full _ _ _ _ _ Hl Hk') as Hfirst.
  unfold find_in_cache. destruct (pc t) eqn:Hpc; try done; injection Hj as ->; cbn [progress_ok] in Hp.
  - destruct (lock_good order l0 ls s i t (FHash req)) as [[? ?]|?]; try done; rewrite ?Hpc //; auto.
  - right. rewrite hash_until_nul. cbn [defined]. eapply goto_good; try done; rewrite ?Hpc //.
    + split; [done|]. exists [], ((l0, d0) :: ls). split_and!; [done..|]. apply Hl.
    + cbn. lia.
  - right. destruct Hp as (-> & pre & post & Hfull & Hpre & Hch). destruct cur as [| |l].
    + apply chain_Null in Hch as ->. rewrite app_nil_r in Hfull.
      eapply goto_good; try done; rewrite ?Hpc //; [|cbn; lia]. cbn.
      rewrite -Hfull Hfirst in Hpre. by destruct (pages m0 order !! _).
    + by apply chain_Wild in Hch.
    + pose proof (Hleft _ _ _ Hfull Hch) as Hn.
      apply chain_At in Hch as (c & post' & Hc & -> & Hch). rewrite Hc. cbn [defined].
      case_decide as Hd.
      * eapply goto_good; try done; rewrite ?Hpc //; [|cbn [left_pc]; lia]. split; [done|].
        exists (data c). rewrite Hfull first_with_app Hpre first_with_cons decide_True //.
        split; [done|]. set_solver.
      * assert ((l0, d0) :: ls = (pre ++ [(l, data c)]) ++ post') as Hfull'
          by by rewrite -app_assoc.
        eapply goto_good; try done; rewrite ?Hpc //.
        -- split; [done|]. exists (pre ++ [(l, data c)]), post'. split_and!; [done| |done].
           by rewrite first_with_app Hpre first_with_cons decide_False.
        -- cbn [left_pc]. rewrite (Hleft _ _ _ Hfull' Hch) Hn. cbn. lia.
  - right. destruct Hp as (-> & d & Hd & Hin). rewrite Hfirst in Hd.
    destruct (pages m0 order !! key_of (until_nul req)) as [b|] eqn:Hb; [|done]. injection Hd as <-.
    destruct Hl as (Hch & _ & Hfit & _). destruct (chain_lookup _ _ _ _ _ _ Hch Hin) as (c & Hc & Hdata).
    injection Hdata as _ Hr Hlen. specialize (Hfit _ _ Hb). rewrite Hc. cbn [defined].
    unfold copy_response. rewrite Hr Hlen decide_True; [|split; [done|lia]]. cbn [defined].
    eapply goto_good; try done; rewrite ?Hpc //; [|cbn; lia]. exists b.
    split; [done|]. split; [by rewrite Nat2Z.id take_ge|done].
  - right. assert (cache_mutex s = Some i) as Hm by (eapply holder; [done..|by rewrite Hpc]).
    destruct hit as [[l b]|].
    + eexists _, order, ls. split; [done|]. split; [|by left].
      apply goto_inv; try done; rewrite ?Hpc //. intros j Hne. rewrite Hm. split; congruence.
    + eexists _, (order ++ [(i, Find req)]), ls. split; [done|]. split; [|by left].
      eapply done_inv; try done; [by left|by rewrite Hpc| |by rewrite pages_snoc|].
      { unfold answer. by rewrite Hp. }
      intros j u r c _ Hu Hown. split; [done|]. by eapply own_node.
  - right. destruct Hp as (page & Hpage & -> & Hin).
    destruct (chain_lookup _ _ _ _ _ _ (proj1 Hl) Hin) as (c & Hc & Hdata). injection Hdata as _ _ Hlen.
    rewrite Hc. cbn [defined]. eexists _, (order ++ [(i, Find req)]), ls. split; [done|].
    split; [|by rewrite Hpc]. rewrite Hlen.
    replace (Z.of_nat (length page), copied page) with (answer (pages m0 order) req)
      by (unfold answer; by rewrite Hpage).
    apply return_inv; by rewrite ?Hpc.
Qed.

Lemma own_distinct order l0 ls s i j t u r r' c c' :
  inv order l0 ls s → threads s !! i = Some t → threads s !! j = Some u → j ≠ i →
  own (pc t) = Some (r, c) → own (pc u) = Some (r', c') → r' ≠ r.
Proof.
  intros Hinv Hi Hj Hne Ht Hu ->. by eapply (inv_nodes _ _ _ _ Hinv i j t u r c c').
Qed.

(** The end of [push_record]: a record is thrown away, or linked. *)
Lemma delete_good order l0 ls s i t req b r :
  inv order l0 ls s → threads s !! i = Some t → pc t = PDelete req b r → good l0 i t s (push_record i t s).
Proof.
  intros Hinv Hi Hpc. pose proof (inv_threads _ _ _ _ Hinv i t Hi) as (_ & Hp & _).
  assert (cache_mutex s = Some i) as Hm by (eapply holder; [done..|by rewrite Hpc]).
  destruct (own_node _ _ _ _ _ _ r (filled req b) Hinv Hi) as [Hr Hnin]; [by rewrite Hpc|].
  unfold push_record. rewrite Hpc Hr. cbn [defined delete_cache_record filled response].
  rewrite Hpc in Hp. destruct Hp as [b' Hb'].
  assert (pages m0 (order ++ [(i, Push req b)]) = pages m0 order) as Hpages.
  { rewrite pages_snoc. cbn. unfold add_page. by rewrite Hb'. }
  eexists _, (order ++ [(i, Push req b)]), ls. split; [done|]. split.
  - eapply done_inv; try done; [by right|by rewrite Hpc|by rewrite bool_decide_true|by rewrite app_nil_r| |].
    + rewrite Hpages. destruct (inv_list _ _ _ _ Hinv) as (H1 & H2). split; [|done].
      by apply chain_delete.
    + intros j u r' c Hne Hu Hown. destruct (own_node _ _ _ _ _ _ _ _ Hinv Hu Hown) as [_ Hn].
      split; [|done]. rewrite lookup_delete_ne //.
      apply not_eq_sym. eapply (own_distinct order l0 ls s i j t u); try done. by rewrite Hpc.
  - intros _. right. split; [done|]. rewrite (left_insert _ _ _ _ _ t) //. unfold left. rewrite Hi Hpc. cbn. lia.
Qed.

Lemma link_good order l0 ls s i t req b r cur :
  inv order l0 ls s → threads s !! i = Some t → pc t = PLink req b r cur →
  (Z.of_nat (length b) ≤ CACHE_BUFFER_SIZE)%Z → good l0 i t s (push_record i t s).
Proof.
  intros Hinv Hi Hpc Hfit. pose proof (inv_threads _ _ _ _ Hinv i t Hi) as (_ & Hp & _).
  assert (cache_mutex s = Some i) as Hm by (eapply holder; [done..|by rewrite Hpc]).
  destruct (own_node _ _ _ _ _ _ r (filled req b) Hinv Hi) as [Hr Hnin]; [by rewrite Hpc|].
  rewrite Hpc in Hp. destruct Hp as (Hnone & pre & d & Hfull).
  destruct (inv_list _ _ _ _ Hinv) as (Hch & Hnd & Hfits & Hm').
  destruct (chain_lookup _ _ _ _ cur d Hch) as (c & Hc & _); [rewrite Hfull; set_solver|].
  unfold push_record. rewrite Hpc Hc. cbn [defined].
  assert (pages m0 (order ++ [(i, Push req b)]) = <[key_of (until_nul req) := b]> (pages m0 order)) as Hpages.
  { rewrite pages_snoc. cbn. unfold add_page. by rewrite Hnone. }
  eexists _, (order ++ [(i, Push req b)]), (ls ++ [(r, data (filled req b))]). split; [done|]. split.
  - eapply done_inv; try done; [by right|by rewrite Hpc|by rewrite bool_decide_true|by rewrite app_nil_r| | |].
    + intros y Hy. apply elem_of_app. by left.
    + rewrite Hpages. split_and!.
      * rewrite app_comm_cons Hfull. apply chain_link; rewrite -?Hfull; done.
      * rewrite fmap_app. change (NoDup ((l0 :: ls.*1) ++ [r])). apply NoDup_app.
        split; [done|]. split; [|apply NoDup_singleton]. by intros x Hx ->%list_elem_of_singleton.
      * by intros k b' [[<- <-]|[_ Hkb]]%lookup_insert_Some; eauto.
      * intros k. rewrite first_with_app Hm' first_with_cons.
        change (key (data (filled req b))) with (key_of (until_nul req)).
        destruct (decide (key_of (until_nul req) = k)) as [<-|Hk].
        -- by rewrite Hnone lookup_insert_eq.
        -- rewrite lookup_insert_ne //. by destruct (pages m0 order !! k).
    + intros j u r' c' Hne Hu Hown. destruct (own_node _ _ _ _ _ _ _ _ Hinv Hu Hown) as [_ Hn].
      assert (r' ≠ r) as Hrr.
      { eapply (own_distinct order l0 ls s i j t u); try done. by rewrite Hpc. }
      split.
      * rewrite lookup_insert_ne //. intros ->. apply Hn. rewrite Hfull fmap_app. set_solver.
      * rewrite app_comm_cons fmap_app not_elem_of_app. split; [done|]. cbn. set_solver.
  - intros _. right. split; [done|]. rewrite (left_insert _ _ _ _ _ t) //. unfold left. rewrite Hi Hpc. cbn. lia.
Qed.

(** The steps of [push_record]. *)
Lemma push_step order l0 ls s i t :
  inv order l0 ls s → threads s !! i = Some t →
  (∀ req b, job_of (pc t) = [Push req b] → (Z.of_nat (length b) ≤ CACHE_BUFFER_SIZE)%Z) →
  (pc t = PUnlock ∨ ∃ req b, job_of (pc t) = [Push req b]) →
  (push_record i t s = Disabled ∧ critical (pc t) = false ∧ cache_mutex s ≠ None) ∨
  good l0 i t s (push_record i t s).
Proof.
  intros Hinv Hi Hfit Hj. pose proof (inv_list _ _ _ _ Hinv) as Hl.
  pose proof (inv_threads _ _ _ _ Hinv i t Hi) as (_ & Hp & _).
  pose proof (λ pre post cur, suffix_left (mem s) l0 ls _ pre post cur Hl) as Hleft.
  destruct (pc t) as [| | | | | | |req b r|req b r cur|req b r cur|req b r|req b r cur|] eqn:Hpc;
    try (by destruct Hj as [?|(? & ? & ?)]); cbn [progress_ok] in Hp.
  - unfold push_record. rewrite Hpc. assert (start = At l0) as -> by by destruct Hl as [[? _] _].
    destruct (lock_good order l0 ls s i t (PTest req b r l0)) as [[? ?]|?]; try done; rewrite ?Hpc //; auto.
    exists [], d0, ls. split_and!; [done..|]. destruct Hl as [[_ Hch] _]. done.
  - right. unfold push_record. rewrite Hpc. destruct Hp as (pre & d & post & Hfull & Hpre & Hch).
    pose proof (Hleft _ _ _ Hfull Hch) as Hn.
    apply chain_At in Hch as (c & post' & Hc & [= -> ->] & Hch). rewrite Hc. cbn [defined].
    destruct (next c) as [| |n].
    + apply chain_Null in Hch as ->. eapply goto_good; try done; rewrite ?Hpc //; [|cbn [left_pc]; rewrite Hn; cbn; lia].
      split; [|by exists pre, (data c)]. rewrite -Hfull in Hpre. cbn [tail] in Hpre. destruct Hl as (_ & _ & _ & Hm).
      rewrite Hm in Hpre. by destruct (pages m0 order !! _).
    + by apply chain_Wild in Hch.
    + assert ((l0, d0) :: ls = (pre ++ [(cur, data c)]) ++ post') as Hfull' by by rewrite -app_assoc.
      pose proof (Hleft _ _ _ Hfull' Hch) as Hn'.
      destruct (chain_At _ _ _ Hch) as (c' & post & Hc' & -> & Hch').
      eapply goto_good; try done; rewrite ?Hpc //.
      * exists (pre ++ [(cur, data c)]), (data c'), post. split_and!; [done|by destruct pre|done|done].
      * cbn [left_pc]. rewrite Hn Hn'. cbn. lia.
  - right. unfold push_record. rewrite Hpc. destruct Hp as (pre & d & post & Hfull & Hne & Hpre & Hch).
    destruct (chain_At _ _ _ Hch) as (c & post' & Hc & [= -> ->] & Hch').
    destruct (own_node _ _ _ _ _ _ r (filled req b) Hinv Hi) as [Hr _]; [by rewrite Hpc|].
    rewrite Hc Hr. cbn [defined]. destruct pre as [|x pre]; [done|]. injection Hfull as <- Hls.
    case_decide as Hd.
    + eapply goto_good; try done; rewrite ?Hpc //; [|cbn [left_pc]; lia].
      destruct Hl as (_ & _ & _ & Hm). specialize (Hm (key_of (until_nul req))).
      rewrite Hls first_with_app in Hm. cbn [tail] in Hpre. rewrite Hpre first_with_cons in Hm.
      rewrite decide_True in Hm; [|done]. cbn. by destruct (pages m0 order !! _).
    + eapply goto_good; try done; rewrite ?Hpc //; [|cbn [left_pc]; lia].
      exists ((l0, d0) :: pre), (data c), post'. split_and!; [by rewrite Hls| |done].
      cbn [tail app] in Hpre |- *. rewrite first_with_app Hpre first_with_cons decide_False //.
  - right. by eapply delete_good.
  - right. eapply link_good; [done..|]. by eapply Hfit.
  - right. unfold push_record. rewrite Hpc.
    assert (cache_mutex s = Some i) as Hm by (eapply holder; [done..|by rewrite Hpc]).
    eexists _, order, ls. split; [done|]. split; [|by left].
    apply goto_inv; try done; rewrite ?Hpc //. intros j Hne. rewrite Hm. split; congruence.
Qed.

(** Between two calls: the next job is begun. *)
Context (alloc_free : ∀ h, h !! alloc h = None).
Context (jobs_fit : ∀ i, Forall (job_ok (key d0)) (jobs i)).

Lemma outside_list h l0 ls m r : list_ok h l0 d0 ls m → h !! r = None → r ∉ ((l0, d0) :: ls).*1.
Proof.
  intros (Hch & _) Hr ([r' d] & -> & Hin)%list_elem_of_fmap.
  destruct (chain_lookup _ _ _ _ _ _ Hch Hin) as (c & Hc & _). cbn in Hr. congruence.
Qed.

Lemma begin_find order l0 ls s i t req js :
  inv order l0 ls s → threads s !! i = Some t → pc t = Idle → todo t = Find req :: js →
  inv order l0 ls (State (cache_mutex s) (mem s) (<[i := Thread (FLock req) js (results t)]> (threads s))).
Proof.
  intros [Hl Ht Hd Hh] Hi Hpc Htodo. pose proof (Ht i t Hi) as (Hc & _ & _ & Hjobs & Hres).
  rewrite Hpc in Hc, Hjobs. split; cbn; [done|..].
  - intros j u [(<- & <- & _)|[Hne Hu]]%list_lookup_insert_Some; [|by apply Ht].
    split_and!; cbn; try done. by rewrite -Hjobs Htodo.
  - apply distinct_insert; [|done]. done.
  - intros j Hj. apply lookup_lt_is_Some. rewrite length_insert. by apply lookup_lt_is_Some, Hh.
Qed.

Lemma begin_push order l0 ls s i t req b js :
  inv order l0 ls s → threads s !! i = Some t → pc t = Idle → todo t = Push req b :: js →
  inv order l0 ls (State (cache_mutex s) (<[alloc (mem s) := filled req b]> (mem s))
                     (<[i := Thread (PLock req b (alloc (mem s))) js (results t)]> (threads s))).
Proof.
  intros [Hl Ht Hd Hh] Hi Hpc Htodo. pose proof (Ht i t Hi) as (Hc & _ & _ & Hjobs & Hres).
  pose proof (alloc_free (mem s)) as Hfree. set (r := alloc (mem s)) in *.
  pose proof (outside_list _ _ _ _ _ Hl Hfree) as Hout.
  rewrite Hpc in Hc, Hjobs. split; cbn.
  - destruct Hl as [Hch Hl]. split; [|done]. by apply chain_insert.
  - intros j u [(<- & <- & _)|[Hne Hu]]%list_lookup_insert_Some.
    + split_and!; cbn; try done; [|by rewrite -Hjobs Htodo].
      intros r' c [= <- <-]. split; [apply lookup_insert_eq|done].
    + apply thread_ok_insert; [done..|]. by apply Ht.
  - apply distinct_insert; [|done]. cbn. intros r' c j u c' [= <- <-] _ Hu Hown.
    destruct (Ht j u Hu) as (_ & _ & Hn & _). destruct (Hn _ _ Hown) as [Hc' _]. congruence.
  - intros j Hj. apply lookup_lt_is_Some. rewrite length_insert. by apply lookup_lt_is_Some, Hh.
Qed.

(** A thread that cannot step has nothing to do or waits for the mutex; a step
    keeps the invariant. *)
Lemma step_inv order l0 ls s i t :
  inv order l0 ls s → threads s !! i = Some t →
  (step i s = Disabled ∧
   (pc t = Idle ∧ todo t = [] ∨ critical (pc t) = false ∧ cache_mutex s ≠ None)) ∨
  good l0 i t s (step i s).
Proof.
  intros Hinv Hi. pose proof (inv_threads _ _ _ _ Hinv i t Hi) as (_ & _ & _ & Hjobs & _).
  assert (Forall (job_ok (key d0)) (job_of (pc t))) as Hok.
  { pose proof (jobs_fit i) as H. rewrite -Hjobs !Forall_app in H. tauto. }
  assert (pc t = Idle ∨
    (step i s = find_in_cache i t s ∧ ∃ req, job_of (pc t) = [Find req]) ∨
    (step i s = push_record i t s ∧ (pc t = PUnlock ∨ ∃ req b, job_of (pc t) = [Push req b])))
    as [Hpc|[(-> & req & E)|[-> E]]].
  { unfold step. rewrite Hi. cbn [possible]. destruct (pc t); cbn;
      first [by left|right; left; split; [done|by eexists]|
             right; right; split; [done|first [by left|right; by do 2 eexists]]]. }
  - unfold step. rewrite Hi. cbn [possible]. rewrite Hpc.
    destruct (todo t) as [|[req|req b] js] eqn:Htodo; [left; split; [done|by left]|right..].
    + eexists _, order, ls. split; [done|]. split; [by apply begin_find|]. by rewrite Hpc.
    + eexists _, order, ls. split; [done|]. split; [by apply begin_push|]. by rewrite Hpc.
  - destruct (find_step order l0 ls s i t req) as [(E1 & Hc & Hm)|Hg]; auto.
    rewrite E in Hok. exact (List.Forall_inv Hok).
  - destruct (push_step order l0 ls s i t) as [(E1 & Hc & Hm)|Hg]; auto.
    intros req b E'. rewrite E' in Hok. exact (List.Forall_inv Hok).
Qed.

(** The holder of the mutex, left alone, gives it back. *)
Lemma holder_releases n order l0 ls s i :
  left i s ≤ n → inv order l0 ls s → cache_mutex s = Some i →
  ∃ k s', k ≤ S n ∧ run step (replicate k i) s = Next s' ∧ cache_mutex s' = None.
Proof.
  revert order ls s. induction n as [n IH] using lt_wf_ind. intros order ls s Hn Hinv Hm.
  destruct (inv_holder _ _ _ _ Hinv i Hm) as [t Hi].
  assert (critical (pc t) = true) as Hc.
  { destruct (inv_threads _ _ _ _ Hinv i t Hi) as [-> _]. by apply bool_decide_true. }
  destruct (step_inv _ _ _ _ _ _ Hinv Hi) as [(_ & [[E _]|[E _]])|(s1 & order1 & ls1 & E & Hinv1 & Hs1)];
    [by rewrite E in Hc|by rewrite E in Hc|].
  destruct (Hs1 Hc) as [H|[H1 H2]].
  - exists 1, s1. cbn. rewrite E. split; [lia|]. done.
  - destruct (IH (left i s1)) with order1 ls1 s1 as (k & s' & Hk & Hr & Hs'); [lia|done..|].
    exists (S k), s'. cbn. rewrite E. split; [lia|]. done.
Qed.

End threads.

(** ** The theorem *)

(** The threads before their first call. *)
Definition init (h : nodes) (js : list (list job)) : state := State None h ((λ l, Thread Idle l []) <$> js).

(** A thread that has done all its calls. *)
Definition finished (t : thread) : bool :=
  match pc t, todo t with Idle, [] => true | _, _ => false end.

Lemma nodes_from_le fuel h p : nodes_from fuel h p ≤ fuel.
Proof.
  revert p. induction fuel as [|fuel IH]; intros p; [done|]. cbn. destruct p; [lia..|].
  case_match; [|lia]. specialize (IH (next c)). lia.
Qed.

Lemma left_le i s : left i s ≤ 2 * size (mem s) + 4.
Proof.
  unfold left. case_match; [|lia]. destruct (pc t); cbn [left_pc]; try lia.
  all: match goal with |- context [nodes_from ?f ?h ?p] => pose proof (nodes_from_le f h p) end; lia.
Qed.

Section clients.
Context (h : nodes) (d0 : entry) (m0 : gmap Z (list ascii)) (js : list (list job)).
Context (alloc_free : ∀ h, h !! alloc h = None).
Context (repr : cache_list h start d0 m0) (fit : Forall (Forall (job_ok (key d0))) js).

Definition jobs (i : nat) : list job := default [] (js !! i).

Lemma jobs_ok i : Forall (job_ok (key d0)) (jobs i).
Proof.
  unfold jobs. destruct (js !! i) as [l|] eqn:E; cbn; [|done]. by eapply Forall_lookup_1 in E.
Qed.

Lemma init_inv : ∃ l0 ls, inv d0 m0 jobs [] l0 ls (init h js).
Proof using repr.
  destruct repr as (l0 & ls & Hl). exists l0, ls. split; cbn; [exact Hl| | |done].
  - intros i t (l & -> & Hi)%list_lookup_fmap_Some. split_and!; cbn; try done. unfold jobs. by rewrite Hi.
  - intros i j t u r c c' _ (l & -> & _)%list_lookup_fmap_Some. done.
Qed.

Lemma inv_reachable s :
  reachable step (init h js) s →
  (∃ order l0 ls, inv d0 m0 jobs order l0 ls s) ∧ length (threads s) = length js.
Proof using All.
  revert s. apply invariant_reachable.
  { destruct init_inv as (l0 & ls & Hinv). split; [by exists [], l0, ls|]. apply length_fmap. }
  intros i s s' [(order & l0 & ls & Hinv) Hlen] E.
  assert (∃ t, threads s !! i = Some t) as [t Hi].
  { unfold step in E. destruct (threads s !! i) as [t|]; [by exists t|done]. }
  destruct (step_inv d0 m0 jobs alloc_free jobs_ok _ _ _ _ _ _ Hinv Hi)
    as [[E' _]|(s1 & order1 & ls1 & E' & Hinv1 & _)]; rewrite E' in E; [done|injection E as <-].
  split; [by exists order1, l0, ls1|]. rewrite -Hlen.
  clear -E' Hi. unfold step in E'. rewrite Hi in E'. cbn in E'.
  unfold find_in_cache, push_record, lock, goto in E'.
  repeat (case_match || (apply defined_Next in E' as (? & ? & E'))); simplify_eq/=; by rewrite length_insert.
Qed.

(** C10. Any number of threads that look pages up and append them under
    [cache_mutex], statement by statement and in any interleaving: there is an
    order of their calls, each thread's own order included, in which a map from
    hashes to answers would give every one of them what it has been given, and
    the list stands for that map; nothing undefined happens; whoever holds the
    mutex gives it back within two steps per node and five; and there is always
    a thread that can go on until all have done all their calls. *)
Theorem cache_mutex_atomic s :
  reachable step (init h js) s →
  (∃ order, cache_list (mem s) start d0 (pages m0 order) ∧
     ∀ i t, threads s !! i = Some t →
       js !! i = Some (jobs_of i order ++ job_of (pc t) ++ todo t) ∧ results t = answers i m0 order) ∧
  (∀ i, step i s ≠ Undefined) ∧
  (∀ i, cache_mutex s = Some i → ∃ k s', k ≤ 2 * size (mem s) + 5 ∧
     run step (replicate k i) s = Next s' ∧ cache_mutex s' = None) ∧
  (Forall (λ t, finished t = true) (threads s) ∨ ∃ i s', step i s = Next s').
Proof using All.
  intros Hr. destruct (inv_reachable s Hr) as [(order & l0 & ls & Hinv) Hlen].
  pose proof (step_inv d0 m0 jobs alloc_free jobs_ok order l0 ls s) as Hstep.
  split_and!.
  - exists order. split; [exists l0, ls; apply Hinv|]. intros i t Hi.
    destruct (inv_threads _ _ _ _ _ _ _ Hinv i t Hi) as (_ & _ & _ & Hj & Hres). split; [|done].
    rewrite Hj. unfold jobs. destruct (js !! i) eqn:E; [done|].
    apply lookup_ge_None in E. apply lookup_lt_Some in Hi. lia.
  - intros i E. destruct (threads s !! i) as [t|] eqn:Hi; [|unfold step in E; by rewrite Hi in E].
    destruct (Hstep i t Hinv Hi) as [[E' _]|(? & ? & ? & E' & _)]; by rewrite E' in E.
  - intros i Hi. pose proof (left_le i s).
    destruct (holder_releases d0 m0 jobs alloc_free jobs_ok (left i s) order l0 ls s i)
      as (k & s' & Hk & Hs'); [lia|done..|]. exists k, s'. split; [lia|done].
  - destruct (cache_mutex s) as [i|] eqn:Hm.
    + right. destruct (inv_holder _ _ _ _ _ _ _ Hinv i Hm) as [t Hi]. exists i.
      destruct (inv_threads _ _ _ _ _ _ _ Hinv i t Hi) as [Hc _]. rewrite bool_decide_true // in Hc.
      destruct (Hstep i t Hinv Hi) as [[_ [[E _]|[E _]]]|(s' & ? & ? & E & _)];
        [by rewrite E in Hc|congruence|by exists s'].
    + destruct (decide (Exists (λ t, finished t = false) (threads s))) as [He|He].
      * right. apply Exists_exists in He as (t & [i Hi]%list_elem_of_lookup & Hne). exists i.
        unfold finished in Hne.
        destruct (Hstep i t Hinv Hi) as [[_ [[E1 E2]|[_ ?]]]|(s' & ? & ? & E & _)];
          [by rewrite E1 E2 in Hne|done|by exists s'].
      * left. apply not_Exists_Forall in He; [|apply _].
        eapply Forall_impl; [exact He|]. intros t Ht. by apply not_false_is_true.
Qed.

End clients.

End locks.

(** Three threads: two append different pages for one request, one of them and
    the third look it up. *)
Definition example_jobs : list (list job) :=
  [[Push (chars "GET /a") (chars "one")]; [Push (chars "GET /a") (chars "two"); Find (chars "GET /a")];
   [Find (chars "GET /a")]].
Definition example_head : Cache := MkCache 7 RWild 8 Wild.
Definition fresh_node (h : nodes) : nat := fresh (dom h : gset nat).

(** The first thread gets the mutex while the second is preparing its node; the
    second reads the length it returns while the third holds the mutex. *)
Definition example_steps : list nat := [0; 0; 1; 0; 0; 0; 1; 1; 1; 1; 1; 1; 1; 1; 1; 1; 1; 1; 2; 2; 1].

Lemma cache_mutex_atomic_witness :
  ∃ s, run (step fresh_node (At 0)) example_steps
         (init (<[0 := set_next example_head Null]> ∅) example_jobs) = Next s ∧
    cache_mutex s = Some 2 ∧ (results <$> threads s) = [[]; [(3%Z, chars "one")]; []] ∧
    ((∃ order, cache_list (mem s) (At 0) (data example_head) (pages ∅ order) ∧
        ∀ i t, threads s !! i = Some t →
          example_jobs !! i = Some (jobs_of i order ++ job_of (pc t) ++ todo t) ∧ results t = answers i ∅ order) ∧
     (∀ i, step fresh_node (At 0) i s ≠ Undefined) ∧
     (∀ i, cache_mutex s = Some i → ∃ k s', k ≤ 2 * size (mem s) + 5 ∧
        run (step fresh_node (At 0)) (replicate k i) s = Next s' ∧ cache_mutex s' = None) ∧
     (Forall (λ t, finished t = true) (threads s) ∨ ∃ i s', step fresh_node (At 0) i s = Next s')).
Proof.
  eexists. split; [vm_compute; reflexivity|]. split; [reflexivity|]. split; [reflexivity|].
  apply (cache_mutex_atomic fresh_node (At 0) (<[0 := set_next example_head Null]> ∅)).
  - intros h. unfold fresh_node. apply not_elem_of_dom, is_fresh.
  - apply init_cache_list.
  - repeat constructor; vm_compute; congruence.
  - eapply (run_reachable _ _ example_steps); [apply reachable_init|]. vm_compute. reflexivity.
Defined.
