(* ===== verification/Proxy.v ===== *)
(** * Proxy: the caching proxy server

    [semestr2/Task3]: [src/main.c], [src/proxy.c], [src/server.c] and the
    constants of [header/enum_const.h].  One thread accepts clients and starts
    a thread per client; a semaphore bounds their number.  A state machine:
    one step per system call, critical section or access to the variable [ctx]
    that all handlers read.  The environment's answer to a call is an argument
    of the step.  That a critical section of [cache_mutex] may be one step is
    what [ProxyLocks.cache_mutex_atomic] shows: statement by statement, with
    the mutex locked and unlocked, its threads get the same answers. *)
From stdpp Require Import base gmap list numbers strings.
From iris.prelude Require Import prelude.
From Stdlib Require Import Ascii.
From S2P Require Import Prelude CString Steps ProxyCache.
#[local] Open Scope nat_scope.

Definition HOST : list ascii := chars "Host:".
Definition MAX_BUFFER_SIZE : nat := 4096.
Definition HOST_SIZE : nat := 50.
Definition MAX_USERS_COUNT : nat := 10.
Definition LOG_BUFFER_SIZE : nat := 4096.
Definition SOCKET_ERROR : Z := (-1)%Z.
Definition CR : ascii := "013"%char.

(** ** State *)

(** What a descriptor is connected to: the listening socket, the [n]-th
    accepted client, a server opened by some handler. *)
Inductive endpoint : Set := Listening | Client (n : nat) | Remote.

(** What the threads share.  A request array is freed by removing it;
    addresses are not reused.  [ctx] is the accept loop's local variable that
    every handler is given the address of: one slot, written for each client.
    [sent] is what has been written to sockets. *)
Record shared : Type := Shared {
  heap : nodes;
  cache : ptr;
  new_node : nat;
  copies : nat;
  requests : gmap nat buffer;
  new_request : nat;
  permits : nat;
  fds : gmap Z endpoint;
  clients : nat;
  sent : list (endpoint * list ascii);
  ctx : option (Z * nat);
  server_socket : Z
}.

Definition with_heap (h : nodes) (s : shared) : shared :=
  Shared h (cache s) (new_node s) (copies s) (requests s) (new_request s) (permits s) (fds s)
    (clients s) (sent s) (ctx s) (server_socket s).
Definition with_cache (c : ptr) (s : shared) : shared :=
  Shared (heap s) c (new_node s) (copies s) (requests s) (new_request s) (permits s) (fds s)
    (clients s) (sent s) (ctx s) (server_socket s).
Definition with_new_node (n : nat) (s : shared) : shared :=
  Shared (heap s) (cache s) n (copies s) (requests s) (new_request s) (permits s) (fds s)
    (clients s) (sent s) (ctx s) (server_socket s).
Definition with_copies (n : nat) (s : shared) : shared :=
  Shared (heap s) (cache s) (new_node s) n (requests s) (new_request s) (permits s) (fds s)
    (clients s) (sent s) (ctx s) (server_socket s).
Definition with_requests (r : gmap nat buffer) (s : shared) : shared :=
  Shared (heap s) (cache s) (new_node s) (copies s) r (new_request s) (permits s) (fds s)
    (clients s) (sent s) (ctx s) (server_socket s).
Definition with_new_request (n : nat) (s : shared) : shared :=
  Shared (heap s) (cache s) (new_node s) (copies s) (requests s) n (permits s) (fds s)
    (clients s) (sent s) (ctx s) (server_socket s).
Definition with_permits (n : nat) (s : shared) : shared :=
  Shared (heap s) (cache s) (new_node s) (copies s) (requests s) (new_request s) n (fds s)
    (clients s) (sent s) (ctx s) (server_socket s).
Definition with_fds (f : gmap Z endpoint) (s : shared) : shared :=
  Shared (heap s) (cache s) (new_node s) (copies s) (requests s) (new_request s) (permits s) f
    (clients s) (sent s) (ctx s) (server_socket s).
Definition with_clients (n : nat) (s : shared) : shared :=
  Shared (heap s) (cache s) (new_node s) (copies s) (requests s) (new_request s) (permits s) (fds s)
    n (sent s) (ctx s) (server_socket s).
Definition with_sent (l : list (endpoint * list ascii)) (s : shared) : shared :=
  Shared (heap s) (cache s) (new_node s) (copies s) (requests s) (new_request s) (permits s) (fds s)
    (clients s) l (ctx s) (server_socket s).
Definition with_ctx (c : option (Z * nat)) (s : shared) : shared :=
  Shared (heap s) (cache s) (new_node s) (copies s) (requests s) (new_request s) (permits s) (fds s)
    (clients s) (sent s) c (server_socket s).
Definition with_server_socket (fd : Z) (s : shared) : shared :=
  Shared (heap s) (cache s) (new_node s) (copies s) (requests s) (new_request s) (permits s) (fds s)
    (clients s) (sent s) (ctx s) fd.

(** The environment's answer: success, failure, the bytes a [read] delivers
    or an array on the stack holds, the number of bytes a [write] takes, the
    contents of [malloc]ed memory. *)
Inductive answer : Type :=
| Works
| Fails
| Bytes (b : list ascii)
| Wrote (n : nat)
| Fresh (c : Cache).

(** ** System calls *)

(** The lowest free descriptor. *)
Fixpoint lowest (fuel : nat) (n : Z) (f : gmap Z endpoint) : Z :=
  match fuel with
  | 0 => n
  | S fuel' => match f !! n with None => n | Some _ => lowest fuel' (n + 1) f end
  end.
Definition open_fd (e : endpoint) (s : shared) : Z * shared :=
  let fd := lowest (S (size (fds s))) 3 (fds s) in (fd, with_fds (<[fd := e]> (fds s)) s).

(** [close]: on a descriptor that is not open it fails, and nobody looks. *)
Definition close (fd : Z) (s : shared) : shared := with_fds (delete fd (fds s)) s.

(** [write] of which [n] bytes are taken. *)
Definition write (fd : Z) (b : list ascii) (n : nat) (s : shared) : option shared :=
  e ← fds s !! fd;
  if decide (n ≤ length b) then Some (with_sent (sent s ++ [(e, take n b)]) s) else None.

(** [free] of a request array. *)
Definition free_request (r : nat) (s : shared) : option shared :=
  _ ← requests s !! r; Some (with_requests (delete r (requests s)) s).

(** [logg_char]: [sprintf] into a local array. *)
Definition logg_char (msg : string) (info : list ascii) : option unit :=
  _ ← sprintf (replicate (LOG_BUFFER_SIZE + 100) NUL) (chars msg ++ chars " " ++ info); Some ().

(** ** A handler *)

(** [read_request] on success of [read]: the array after it. *)
Definition read_request (request : buffer) (bytes : list ascii) : option buffer :=
  b ← write_at request 0 bytes;
  b ← write_at b (length bytes) [NUL];
  s ← cstr b;
  _ ← logg_char "Received request:
" s;
  Some b.

(** The host name: what follows "Host: " up to the carriage return. *)
Definition parse_host (request : buffer) : option (list ascii) :=
  s ← cstr request;
  p ← strstr s HOST;
  '(host, found) ← memccpy (drop (p + 6) request) CR HOST_SIZE;
  if found : bool then cstr (take (length host - 1) host ++ [NUL]) else None.

(** The program counter of [execute_client_request], [send_from_cache] and
    [connect_to_remote], at the statement about to run. *)
Inductive hpc : Type :=
| HSock                                  (* client_socket = ctx->client_socket *)
| HReq                                   (* request0 = ctx->request *)
| HCopy                                  (* strcpy(request, request0) *)
| HCalloc                                (* cache_record = calloc(...) *)
| HFind (copy : bool)                    (* find_in_cache *)
| HHit (len : Z) (copy : list ascii)     (* write(client_socket, cache_record, len) *)
| HHitFailed                             (* close(client_socket); free(cache_record) *)
| HHitSent                               (* free(cache_record); close(client_socket) *)
| HFreeCtx                               (* free(ctx->request) *)
| HCloseAgain                            (* close(client_socket); return *)
| HMalloc                                (* record = malloc(sizeof(Cache)) *)
| HInit                                  (* init_cache_record(record) *)
| HHash                                  (* add_request(record, request0) *)
| HHost                                  (* host *)
| HResolve                               (* getaddrinfo *)
| HSocket                                (* socket *)
| HConnect                               (* connect *)
| HNoConnection                          (* close(client_socket) *)
| HSend                                  (* write(dest_socket, request, strlen(request)) *)
| HSendFailed                            (* close both; return *)
| HBuffer                                (* buffer = calloc(...) *)
| HRead                                  (* read(dest_socket, buffer, ...) *)
| HForward (bytes : list ascii)          (* write(client_socket, buffer, bytes_read); add_response *)
| HForwardFailed                         (* close both; return *)
| HPush                                  (* add_size; push_record *)
| HCloseClient
| HCloseDest
| HFreeReq                               (* free(buffer); free(request0) *)
| HPost                                  (* sem_post *)
| HDone.

Record handler : Type := Handler {
  pc : hpc;
  client_socket : Z;
  request0 : nat;
  h_request : buffer;
  record : nat;
  dest_socket : Z;
  all_bytes_read : nat
}.

Definition new_handler : handler := Handler HSock 0 0 [] 0 0 0.

Definition goto (p : hpc) (h : handler) : handler :=
  Handler p (client_socket h) (request0 h) (h_request h) (record h) (dest_socket h)
    (all_bytes_read h).
Definition with_dest (fd : Z) (h : handler) : handler :=
  Handler (pc h) (client_socket h) (request0 h) (h_request h) (record h) fd (all_bytes_read h).
Definition with_all (n : nat) (h : handler) : handler :=
  Handler (pc h) (client_socket h) (request0 h) (h_request h) (record h) (dest_socket h) n.

(** The copy of the request on the handler's stack: [strcpy(request, request0)]
    over what the array held. *)
Definition copy_request (junk : buffer) (request0 : buffer) : option buffer :=
  s ← cstr request0;
  if decide (length junk = MAX_BUFFER_SIZE) then write_at junk 0 (s ++ [NUL]) else None.

(** Change the handler's record. *)
Definition update_record (h : handler) (f : Cache → option Cache) (s : shared) : option shared :=
  c ← heap s !! record h; c ← f c; Some (with_heap (<[record h := c]> (heap s)) s).

Definition hash_request (h : handler) (s : shared) : option shared :=
  r ← requests s !! request0 h; update_record h (λ c, add_request c r) s.

(** The steps inside [send_from_cache]. *)
Definition send_from_cache (h : handler) (a : answer) (s : shared) : outcome (handler * shared) :=
  match pc h, a with
  | HCalloc, Works => Next (goto (HFind true) h, with_copies (copies s + 1) s)
  | HCalloc, Fails => Next (goto (HFind false) h, s)
  | HFind copy, Works =>
      defined (find_in_cache (heap s) (cache s) (h_request h) copy) (λ x,
      if decide (x.1 ≠ NOT_FOUND_CACHE) then Next (goto (HHit x.1 x.2) h, s)
      else Next (goto HMalloc h, s))
  | HHit len copy, Wrote n =>
      possible (write (client_socket h) (take (Z.to_nat len) copy) n s) (λ s,
      Next (goto HHitSent h, s))
  | HHit _ _, Fails => Next (goto HHitFailed h, s)
  | HHitFailed, Works =>
      (* send_from_cache returns EXIT_FAILURE: the request is treated as a miss *)
      Next (goto HMalloc h, with_copies (copies s - 1) (close (client_socket h) s))
  | HHitSent, Works =>
      Next (goto HFreeCtx h, with_copies (copies s - 1) (close (client_socket h) s))
  | _, _ => Disabled
  end.

(** The steps inside [connect_to_remote]. *)
Definition connect_to_remote (h : handler) (a : answer) (s : shared) : outcome (handler * shared) :=
  match pc h, a with
  | HResolve, Works => Next (goto HSocket h, s)
  | HResolve, Fails => Undefined         (* freeaddrinfo(res0) before res0 is set *)
  | HSocket, Works =>
      let '(fd, s) := open_fd Remote s in Next (goto HConnect (with_dest fd h), s)
  | HSocket, Fails => Next (goto HNoConnection (with_dest SOCKET_ERROR h), s)
  | HConnect, Works => Next (goto HSend h, s)
  | HConnect, Fails =>
      Next (goto HNoConnection (with_dest SOCKET_ERROR h), close (dest_socket h) s)
  | _, _ => Disabled
  end.

(** A handler's step. *)
Definition execute_client_request (h : handler) (a : answer) (s : shared) :
    outcome (handler * shared) :=
  match pc h, a with
  | HSock, Works =>
      possible (ctx s) (λ x,
      Next (Handler HReq x.1 (request0 h) (h_request h) (record h) (dest_socket h)
              (all_bytes_read h), s))
  | HReq, Works =>
      possible (ctx s) (λ x,
      Next (Handler HCopy (client_socket h) x.2 (h_request h) (record h) (dest_socket h)
              (all_bytes_read h), s))
  | HCopy, Bytes junk =>
      if decide (length junk = MAX_BUFFER_SIZE) then
        defined (requests s !! request0 h) (λ r,
        defined (copy_request junk r) (λ b,
        Next (Handler HCalloc (client_socket h) (request0 h) b (record h) (dest_socket h)
                (all_bytes_read h), s)))
      else Disabled
  | (HCalloc | HFind _ | HHit _ _ | HHitFailed | HHitSent), _ => send_from_cache h a s
  | HFreeCtx, Works =>
      possible (ctx s) (λ x, defined (free_request x.2 s) (λ s, Next (goto HCloseAgain h, s)))
  | HCloseAgain, Works => Next (goto HDone h, close (client_socket h) s)
  | HMalloc, Fresh c =>
      if indeterminate c then
        Next (Handler HInit (client_socket h) (request0 h) (h_request h) (new_node s)
                (dest_socket h) (all_bytes_read h),
              with_new_node (S (new_node s)) (with_heap (<[new_node s := c]> (heap s)) s))
      else Disabled
  | HMalloc, Fails => Undefined          (* init_cache_record writes to NULL *)
  | HInit, Works =>
      defined (update_record h (λ c, Some (init_cache_record true c).2) s) (λ s,
      Next (goto HHash h, s))
  | HInit, Fails =>
      defined (update_record h (λ c, Some (init_cache_record false c).2) s) (λ s,
      Next (goto HHash h, s))
  | HHash, Works => defined (hash_request h s) (λ s, Next (goto HHost h, s))
  | HHost, Works =>
      defined (parse_host (h_request h)) (λ host,
      defined (logg_char "Remote server host name: " host) (λ _, Next (goto HResolve h, s)))
  | (HResolve | HSocket | HConnect), _ => connect_to_remote h a s
  | HNoConnection, Works => Next (goto HSend h, close (client_socket h) s)
  | HSend, Wrote n =>
      defined (cstr (h_request h)) (λ r,
      possible (write (dest_socket h) r n s) (λ s, Next (goto HBuffer h, s)))
  | HSend, Fails => Next (goto HSendFailed h, s)
  | HSendFailed, Works => Next (goto HDone h, close (dest_socket h) (close (client_socket h) s))
  | HBuffer, Works => Next (goto HRead (with_all 0 h), s)
  | HBuffer, Fails => Next (goto HPush (with_all 0 h), s)    (* read into NULL fails *)
  | HRead, Bytes b =>
      possible (fds s !! dest_socket h) (λ _,
      if decide (length b ≤ MAX_BUFFER_SIZE) then
        Next (goto (match b with [] => HPush | _ => HForward b end) h, s)
      else Disabled)
  | HRead, Fails => Next (goto HPush h, s)
  | HForward b, Wrote n =>
      possible (write (client_socket h) b n s) (λ s,
      defined (update_record h (λ c, add_response c b (all_bytes_read h)) s) (λ s,
      Next (goto HRead (with_all (all_bytes_read h + length b) h), s)))
  | HForward _, Fails => Next (goto HForwardFailed h, s)
  | HForwardFailed, Works =>
      Next (goto HDone h, close (dest_socket h) (close (client_socket h) s))
  | HPush, Works =>
      defined (update_record h (λ c, Some (add_size c (Z.of_nat (all_bytes_read h)))) s) (λ s,
      defined (push_record (heap s) (cache s) (record h)) (λ hp,
      Next (goto HCloseClient h, with_heap hp s)))
  | HCloseClient, Works => Next (goto HCloseDest h, close (client_socket h) s)
  | HCloseDest, Works => Next (goto HFreeReq h, close (dest_socket h) s)
  | HFreeReq, Works => defined (free_request (request0 h) s) (λ s, Next (goto HPost h, s))
  | HPost, Works => Next (goto HDone h, with_permits (S (permits s)) s)
  | _, _ => Disabled
  end.

(** ** The main thread *)

(** The program counter of [main], [run_proxy], [create_server_socket] and
    [accept_new_client]. *)
Inductive mpc : Type :=
| MInit                                  (* sem_init *)
| MSocket
| MBind
| MListen
| MCache                                 (* init_cache *)
| MAccept
| MBuff (sock : Z)                       (* buff = calloc(...); sprintf; free *)
| MRequest (sock : Z)                    (* request = calloc(...) *)
| MRead (sock : Z) (r : nat)             (* read_request *)
| MBadRead (sock : Z) (r : nat)          (* close(client_socket) in read_request *)
| MBadRequest (sock : Z) (r : nat)       (* free(request); close(client_socket) *)
| MWait (sock : Z) (r : nat)             (* sem_wait *)
| MContext (sock : Z) (r : nat)          (* ctx = {client_socket, request} *)
| MCreate                                (* pthread_create *)
| MCloseServer                           (* close(server_socket) *)
| MDestroy                               (* destroy_cache *)
| MExit                                  (* exit(EXIT_FAILURE) *)
| MExited.

(** The steps inside [create_server_socket]; [run_proxy] exits when it fails. *)
Definition create_server_socket (m : mpc) (a : answer) (s : shared) : outcome (mpc * shared * bool) :=
  match m, a with
  | MSocket, Works =>
      let '(fd, s) := open_fd Listening s in Next (MBind, with_server_socket fd s, false)
  | MSocket, Fails => Next (MExit, s, false)
  | MBind, Works => Next (MListen, s, false)
  | MBind, Fails => Next (MExit, close (server_socket s) s, false)
  | MListen, Works => Next (MCache, s, false)
  | MListen, Fails => Next (MExit, close (server_socket s) s, false)
  | _, _ => Disabled
  end.

(** The cache is set up by [run_proxy]. *)
Definition run_proxy (m : mpc) (a : answer) (s : shared) : outcome (mpc * shared * bool) :=
  match m, a with
  | MCache, Fresh c =>
      if indeterminate c then
        let '(_, hp, p) := init_cache (heap s) (new_node s) (Some c) in
        Next (MAccept, with_cache p (with_new_node (S (new_node s)) (with_heap hp s)), false)
      else Disabled
  | MCache, Fails =>
      let '(_, hp, p) := init_cache (heap s) (new_node s) None in
      defined (destroy_cache hp p) (λ hp,
      Next (MExit, close (server_socket s) (with_cache p (with_heap hp s)), false))
  | _, _ => Disabled
  end.

(** The accept loop; it ends the process only. *)
Definition accept_new_client (m : mpc) (a : answer) (s : shared) : outcome (mpc * shared * bool) :=
  match m, a with
  | MAccept, Works =>
      let '(fd, s) := open_fd (Client (clients s)) s in
      Next (MBuff fd, with_clients (S (clients s)) s, false)
  | MAccept, Fails => Next (MCloseServer, s, false)
  | MBuff sock, Works => Next (MRequest sock, s, false)
  | MBuff _, Fails => Undefined          (* sprintf to NULL *)
  | MRequest sock, Works =>
      let r := new_request s in
      Next (MRead sock r,
            with_new_request (S r)
              (with_requests (<[r := replicate MAX_BUFFER_SIZE NUL]> (requests s)) s), false)
  | MRequest _, Fails => Next (MExited, s, false)    (* assert(request != NULL) *)
  | MRead sock r, Bytes b =>
      possible (fds s !! sock) (λ _,
      if decide (0 < length b ≤ MAX_BUFFER_SIZE) then
        defined (requests s !! r) (λ request,
        defined (read_request request b) (λ request,
        Next (MWait sock r, with_requests (<[r := request]> (requests s)) s, false)))
      else if decide (length b = 0) then Next (MBadRead sock r, s, false) else Disabled)
  | MRead sock r, Fails => Next (MBadRead sock r, s, false)
  | MBadRead sock r, Works => Next (MBadRequest sock r, close sock s, false)
  | MBadRequest sock r, Works =>
      defined (free_request r s) (λ s, Next (MAccept, close sock s, false))
  | MWait sock r, Works =>
      match permits s with
      | 0 => Disabled
      | S n => Next (MContext sock r, with_permits n s, false)
      end
  | MContext sock r, Works => Next (MCreate, with_ctx (Some (sock, r)) s, false)
  | MCreate, Works => Next (MAccept, s, true)
  | MCreate, Fails => Next (MAccept, s, false)   (* a positive number, compared with -1 *)
  | MCloseServer, Works => Next (MDestroy, close (server_socket s) s, false)
  | MDestroy, Works =>
      defined (destroy_cache (heap s) (cache s)) (λ hp, Next (MExit, with_heap hp s, false))
  | _, _ => Disabled
  end.

(** The main thread's step: where it goes on, and whether it starts a handler. *)
Definition mstep (m : mpc) (a : answer) (s : shared) : outcome (mpc * shared * bool) :=
  match m, a with
  | MInit, Works => Next (MSocket, with_permits MAX_USERS_COUNT s, false)
  | (MSocket | MBind | MListen), _ => create_server_socket m a s
  | MCache, _ => run_proxy m a s
  | MExit, Works => Next (MExited, s, false)
  | MExit, _ | MExited, _ | MInit, _ => Disabled
  | _, _ => accept_new_client m a s
  end.

(** ** The process *)

Record state : Type := State {
  sh : shared;
  main_pc : mpc;
  handlers : list handler
}.

(** The main thread, or a handler by number. *)
Definition thread : Type := option nat.

Definition step (t : thread) (a : answer) (s : state) : outcome state :=
  match main_pc s with
  | MExited => Disabled
  | m =>
      match t with
      | None =>
          match mstep m a (sh s) with
          | Next (m', sh', spawn) =>
              Next (State sh' m' (handlers s ++ if spawn then [new_handler] else []))
          | Undefined => Undefined
          | Disabled => Disabled
          end
      | Some i =>
          possible (handlers s !! i) (λ h,
          match execute_client_request h a (sh s) with
          | Next (h', sh') => Next (State sh' m (<[i := h']> (handlers s)))
          | Undefined => Undefined
          | Disabled => Disabled
          end)
      end
  end.

(** A label of [Steps]: who steps, and the answer. *)
Definition lstep (x : thread * answer) (s : state) : outcome state := step x.1 x.2 s.

(** Static objects are zero, standard streams are open. *)
Definition init : state :=
  State (Shared ∅ Null 0 0 ∅ 0 0 ∅ 0 [] None 0) MInit [].

Notation run := (Steps.run lstep).
Notation reachable := (Steps.reachable lstep init).

(** What a property of every reachable state needs. *)
Lemma reachable_ind' (P : state → Prop) :
  P init → (∀ t a s s', P s → step t a s = Next s' → P s') → ∀ s, reachable s → P s.
Proof. intros Hi Hs. apply invariant_reachable; [done|]. intros [t a] s s'. apply Hs. Qed.

(** ** Schedules

    The answers of a system in which every call succeeds. *)

Definition start_up (head : Cache) : list (thread * answer) :=
  pair None <$> [Works; Works; Works; Works; Fresh head].
Definition new_client (request : list ascii) : list (thread * answer) :=
  pair None <$> [Works; Works; Works; Bytes request; Works; Works; Works].

Definition stack : buffer := replicate MAX_BUFFER_SIZE NUL.

Definition lookup_answers (junk : buffer) : list answer := [Works; Works; Bytes junk; Works; Works].
Definition fetch_answers (c : Cache) (request : list ascii) (chunks : list (list ascii)) :
    list answer :=
  [Fresh c; Works; Works; Works; Works; Works; Works; Wrote (length request); Works] ++
  ((ch ← chunks; [Bytes ch; Wrote (length ch)]) ++ [Bytes []]) ++
  [Works; Works; Works; Works; Works].
Definition miss_answers (junk : buffer) (c : Cache) (request : list ascii)
    (chunks : list (list ascii)) : list answer :=
  lookup_answers junk ++ fetch_answers c request chunks.
Definition hit_answers (junk : buffer) (len : nat) : list answer :=
  lookup_answers junk ++ [Wrote len; Works; Works; Works].

Definition handler_does (i : nat) (l : list answer) : list (thread * answer) := pair (Some i) <$> l.

(** ** Inverting steps *)

Lemma write_Some fd b n s s' :
  write fd b n s = Some s' → ∃ l, s' = with_sent l s.
Proof.
  unfold write. intros (e & _ & E)%bind_Some. case_decide; [|done]. injection E as <-. eauto.
Qed.
Lemma free_request_Some r s s' :
  free_request r s = Some s' → ∃ q, s' = with_requests q s.
Proof. unfold free_request. intros (b & _ & [= <-])%bind_Some. eauto. Qed.
Lemma update_record_Some h f s s' :
  update_record h f s = Some s' →
  ∃ c c', heap s !! record h = Some c ∧ f c = Some c' ∧
          s' = with_heap (<[record h := c']> (heap s)) s.
Proof. unfold update_record. intros (c & Hc & (c' & Hf & [= <-])%bind_Some)%bind_Some. eauto 6. Qed.
Lemma hash_request_Some h s s' :
  hash_request h s = Some s' →
  ∃ c k, heap s !! record h = Some c ∧
         s' = with_heap (<[record h := MkCache k (response c) (response_len c) (next c)]> (heap s)) s.
Proof.
  unfold hash_request. intros (r & _ & Hu)%bind_Some.
  apply update_record_Some in Hu as (c & c' & Hc & Hf & ->).
  apply bind_Some in Hf as (k & _ & [= <-]). eauto.
Qed.

Lemma step_handler_Next i a s s' :
  step (Some i) a s = Next s' →
  ∃ h h' sh', handlers s !! i = Some h ∧ execute_client_request h a (sh s) = Next (h', sh') ∧
    s' = State sh' (main_pc s) (<[i := h']> (handlers s)).
Proof.
  unfold step. intros E.
  assert (possible (handlers s !! i) (λ h, match execute_client_request h a (sh s) with
            | Next (h', sh') => Next (State sh' (main_pc s) (<[i := h']> (handlers s)))
            | Undefined => Undefined | Disabled => Disabled end) = Next s') as E'
    by by destruct (main_pc s).
  clear E. apply possible_Next in E' as (h & Hh & E).
  destruct (execute_client_request h a (sh s)) as [[h' sh']| |] eqn:Eh; try discriminate E. injection E as <-. eauto 7.
Qed.
Lemma step_main_Next a s s' :
  step None a s = Next s' →
  ∃ m' sh' spawn, mstep (main_pc s) a (sh s) = Next (m', sh', spawn) ∧
    s' = State sh' m' (handlers s ++ if spawn then [new_handler] else []).
Proof.
  unfold step. intros E.
  assert (match mstep (main_pc s) a (sh s) with
          | Next (m', sh', spawn) =>
              Next (State sh' m' (handlers s ++ if spawn then [new_handler] else []))
          | Undefined => Undefined | Disabled => Disabled end = Next s') as E'
    by by destruct (main_pc s).
  clear E. destruct (mstep (main_pc s) a (sh s)) as [[[m' sh'] spawn]| |]; try discriminate E'.
  injection E' as <-. eauto 6.
Qed.

(** Takes a step that leads on apart. *)
Ltac inv_step1 :=
  match goal with
  | H : Disabled = Next _ |- _ => discriminate H
  | H : Undefined = Next _ |- _ => discriminate H
  | H : Next _ = Next _ |- _ => injection H as ?; subst
  | H : defined _ _ = Next _ |- _ => apply defined_Next in H as (? & ? & H)
  | H : possible _ _ = Next _ |- _ => apply possible_Next in H as (? & ? & H)
  | H : write _ _ _ _ = Some _ |- _ => apply write_Some in H as [? ->]
  | H : free_request _ _ = Some _ |- _ => apply free_request_Some in H as [? ->]
  | H : update_record _ _ _ = Some _ |- _ => apply update_record_Some in H as (? & ? & ? & ? & ->)
  | H : hash_request _ _ = Some _ |- _ => apply hash_request_Some in H as (? & ? & ? & ->)
  | H : (if decide ?P then _ else _) = Next _ |- _ => destruct (decide P)
  | H : (if ?b then _ else _) = Next _ |- _ => destruct b eqn:?
  | H : (let '(_, _) := ?p in _) = Next _ |- _ => destruct p eqn:?
  end.
Ltac inv_step := repeat inv_step1.

Lemma open_fd_spec e s fd s' :
  open_fd e s = (fd, s') → s' = with_fds (<[fd := e]> (fds s)) s.
Proof. unfold open_fd. by intros [= <- <-]. Qed.

Ltac inv_open := repeat match goal with H : open_fd _ _ = _ |- _ => apply open_fd_spec in H as -> end.

(** ** At most ten clients at a time *)

Definition running (h : handler) : bool := match pc h with HDone => false | _ => true end.
Definition active (hs : list handler) : nat := length (filter (λ h, running h = true) hs).

(** Main has taken a permit for a handler it has not started. *)
Definition holds (m : mpc) : nat := match m with MContext _ _ | MCreate => 1 | _ => 0 end.

(** Before the accept loop. *)
Definition starting (m : mpc) : bool :=
  match m with MInit | MSocket | MBind | MListen | MCache => true | _ => false end.

Definition permits_inv (s : state) : Prop :=
  permits (sh s) + active (handlers s) + holds (main_pc s) ≤ MAX_USERS_COUNT ∧
  (starting (main_pc s) = true → handlers s = []).

Lemma active_app hs hs' : active (hs ++ hs') = active hs + active hs'.
Proof. unfold active. by rewrite filter_app length_app. Qed.

Lemma active_cons h hs : active (h :: hs) = Nat.b2n (running h) + active hs.
Proof. unfold active. rewrite filter_cons. by destruct (running h). Qed.

Lemma active_insert hs i h h' :
  hs !! i = Some h →
  active (<[i := h']> hs) + Nat.b2n (running h) = active hs + Nat.b2n (running h').
Proof.
  intros Hi. rewrite insert_take_drop; [|by eapply lookup_lt_Some].
  rewrite !active_app !active_cons.
  assert (active hs = active (take i hs ++ h :: drop (S i) hs)) as ->
    by by rewrite take_drop_middle.
  rewrite active_app active_cons. lia.
Qed.

Lemma hstep_permits h a s h' s' :
  execute_client_request h a s = Next (h', s') →
  running h = true ∧ permits s' + Nat.b2n (running h') ≤ permits s + 1.
Proof.
  unfold execute_client_request, send_from_cache, connect_to_remote, running. intros Hs.
  destruct (pc h) eqn:Hpc, a; try discriminate Hs; inv_step;
    inv_open;
    cbn [pc goto with_all with_dest permits with_heap with_fds with_sent with_requests with_copies
         with_new_node with_permits close Nat.b2n]; try (split; [done|lia]).
  all: match goal with |- context [match ?b with [] => _ | _ => _ end] => destruct b end;
    simpl; (split; [done|lia]).
Qed.

Lemma mstep_permits m a s m' s' spawn :
  mstep m a s = Next (m', s', spawn) → starting m = false →
  permits s' + Nat.b2n spawn + holds m' ≤ permits s + holds m ∧ starting m' = false.
Proof.
  unfold mstep, create_server_socket, run_proxy, accept_new_client. intros Hs Hm.
  destruct m, a; try discriminate Hs; try discriminate Hm; inv_step;
    inv_open;
    try (split; [|done]; simpl; lia).
  destruct (permits s) eqn:Hp; [done|]. injection Hs as <- <- <-. split; [|done]. simpl. lia.
Qed.

Lemma mstep_starting m a s m' s' spawn :
  mstep m a s = Next (m', s', spawn) → starting m = true →
  spawn = false ∧ holds m' = 0 ∧ (permits s' = permits s ∨ permits s' = MAX_USERS_COUNT).
Proof.
  unfold mstep, create_server_socket, run_proxy, accept_new_client. intros Hs Hm.
  destruct m, a; try discriminate Hs; try discriminate Hm; inv_step;
    inv_open;
    simpl; auto.
Qed.

Lemma permits_inv_step t a s s' : permits_inv s → step t a s = Next s' → permits_inv s'.
Proof.
  intros (Hp & Hs) E. destruct t as [i|].
  - apply step_handler_Next in E as (h & h' & sh' & Hh & Eh & ->).
    apply hstep_permits in Eh as (Hr & Hle). pose proof (active_insert _ _ _ h' Hh) as Ha.
    rewrite Hr in Ha. split; simpl in *; [lia|]. intros Hst. by rewrite (Hs Hst) in Hh.
  - apply step_main_Next in E as (m' & sh' & spawn & Em & ->).
    destruct (starting (main_pc s)) eqn:Hst.
    + destruct (mstep_starting _ _ _ _ _ _ Em Hst) as (-> & Hh & Hpe).
      rewrite Hs // in Hp. split; simpl in *; [|by rewrite Hs].
      rewrite Hs // Hh. unfold active, MAX_USERS_COUNT in *. simpl in *. lia.
    + destruct (mstep_permits _ _ _ _ _ _ Em Hst) as (Hle & Hst'). split; simpl in *; [|congruence].
      rewrite active_app. destruct spawn; unfold active at 2; simpl in *; lia.
Qed.

(** C5. However clients, servers and the system behave, at most ten handlers run
    at a time, the one being started included, and the semaphore never counts
    more than ten. *)
Theorem proxy_at_most_ten s :
  reachable s → permits (sh s) + active (handlers s) + holds (main_pc s) ≤ MAX_USERS_COUNT.
Proof.
  intros Hs. assert (permits_inv s) as [H _]; [|exact H].
  revert s Hs. apply reachable_ind'; [|apply permits_inv_step].
  split; [|done]. unfold active, MAX_USERS_COUNT. simpl. lia.
Qed.

(** ** The cache while the server runs *)

(** The accept loop, up to the moment the cache is destroyed. *)
Definition serving (m : mpc) : bool :=
  match m with
  | MInit | MSocket | MBind | MListen | MCache | MExit | MExited => false
  | _ => true
  end.

(** An entry is consistent: its length is that of the bytes stored.  They need
    not be all of the answer: a connection that breaks ends the loop of
    [execute_client_request] like the end of the answer does. *)
Definition consistent (d : entry) : Prop :=
  (∃ b, d.1.2 = RAt b ∧ d.2 = Z.of_nat (length b) ∧ (Z.of_nat (length b) ≤ CACHE_BUFFER_SIZE)%Z) ∨
  (d.1.2 = RNull ∧ d.2 = 0%Z).

(** The head, then nodes with different hashes and consistent entries.  The last
    link is null, or indeterminate if [calloc] failed for the last node. *)
Definition cache_wf (hp : nodes) (p : ptr) (ls : list (nat * entry)) : Prop :=
  ∃ l0 d0 e, chain hp p ((l0, d0) :: ls) e ∧ (∀ l, e ≠ At l) ∧ NoDup (l0 :: ls.*1) ∧
    NoDup (key ∘ snd <$> ls) ∧ Forall consistent ls.*2.

(** A handler between [malloc] and [push_record] has a node of its own. *)
Definition owner (h : handler) : bool :=
  match pc h with
  | HInit | HHash | HHost | HResolve | HSocket | HConnect | HNoConnection | HSend | HBuffer
  | HRead | HForward _ | HPush => true
  | _ => false
  end.

(** What it has stored there so far. *)
Definition received (h : handler) : nat :=
  match pc h with HRead | HForward _ | HPush => all_bytes_read h | _ => 0 end.

Definition record_ok (h : handler) (c : Cache) : Prop :=
  match pc h with
  | HInit => indeterminate c = true
  | _ =>
      (∀ l, next c ≠ At l) ∧
      ((∃ b, response c = RAt b ∧ length b = received h ∧
             (Z.of_nat (received h) ≤ CACHE_BUFFER_SIZE)%Z) ∨
       (response c = RNull ∧ received h = 0))
  end.

(** What a handler's step does to the nodes. *)
Inductive effect (h h' : handler) (s s' : shared) : Prop :=
| effect_keep :
    heap s' = heap s → new_node s' = new_node s →
    (owner h' = true → owner h = true ∧ record h' = record h ∧ ∀ c, record_ok h c → record_ok h' c) →
    effect h h' s s'
| effect_alloc c :
    heap s' = <[new_node s := c]> (heap s) → new_node s' = S (new_node s) →
    record h' = new_node s → record_ok h' c → effect h h' s s'
| effect_update c c' :
    heap s !! record h = Some c → heap s' = <[record h := c']> (heap s) →
    new_node s' = new_node s → owner h = true → record h' = record h →
    (record_ok h c → record_ok h' c') → effect h h' s s'
| effect_push c c' :
    heap s !! record h = Some c → owner h = true → owner h' = false →
    (record_ok h c → consistent (data c') ∧ ∀ l, next c' ≠ At l) → new_node s' = new_node s →
    push_record (<[record h := c']> (heap s)) (cache s) (record h) = Some (heap s') →
    effect h h' s s'.

Lemma record_ok_init h c alloc :
  pc h = HInit → record_ok h c → record_ok (goto HHash h) (init_cache_record alloc c).2.
Proof.
  unfold record_ok. intros ->. cbn [pc goto]. unfold received, indeterminate. cbn [pc goto].
  destruct alloc; simpl.
  - intros _. split; [done|]. left. exists []. split; [done|]. split; [done|]. unfold CACHE_BUFFER_SIZE. lia.
  - intros Hc. split; [|by right]. intros l Hl. rewrite Hl in Hc. by destruct (response c).
Qed.

Lemma record_ok_add h c c' b bytes :
  pc h = HForward bytes → record_ok h c → add_response c b (all_bytes_read h) = Some c' →
  record_ok (goto HRead (with_all (all_bytes_read h + length b) h)) c'.
Proof.
  unfold record_ok. intros Hpc. rewrite Hpc. cbn [pc goto]. unfold received. rewrite Hpc.
  cbn [pc goto with_all all_bytes_read]. intros (Hn & Hr) Ha. unfold add_response in Ha.
  destruct Hr as [(b0 & Hb0 & Hlen & Hsz)|[Hb0 _]]; [|by rewrite Hb0 in Ha].
  rewrite Hb0 in Ha. case_decide as Hd; [|done]. injection Ha as <-. split; [done|]. left.
  exists (b0 ++ b). cbn [response]. rewrite -Hlen overwrite_end.
  split; [done|]. rewrite length_app. split; [done|]. by rewrite Hlen.
Qed.

Lemma hstep_effect h a s h' s' :
  execute_client_request h a s = Next (h', s') → cache s' = cache s ∧ effect h h' s s'.
Proof.
  unfold execute_client_request, send_from_cache, connect_to_remote. intros Hs.
  destruct (pc h) eqn:Hpc, a; try discriminate Hs; inv_step;
    inv_open;
    (split; [done|]).
  all: try (apply effect_keep; [done|done|]; unfold owner; cbn [pc goto with_dest with_all];
    first [discriminate
          | intros _; rewrite Hpc; split_and!; [done|done|intros c; unfold record_ok, received;
            rewrite Hpc; cbn [pc goto with_dest with_all all_bytes_read]; done]]).
  - eapply effect_alloc; [done..|]. unfold record_ok. done.
  - eapply effect_update; [done|done|done|unfold owner; by rewrite Hpc|done|].
    intros Hc. simplify_eq. by apply (record_ok_init h _ true).
  - eapply effect_update; [done|done|done|unfold owner; by rewrite Hpc|done|].
    intros Hc. simplify_eq. by apply (record_ok_init h _ false).
  - eapply effect_update; [done|done|done|unfold owner; by rewrite Hpc|done|].
    unfold record_ok, received. by rewrite Hpc.
  - apply effect_keep; [done..|]. unfold owner. rewrite Hpc. intros _. split; [done|]. split; [done|].
    intros c. unfold record_ok, received. rewrite Hpc. by destruct b.
  - eapply effect_update; [done|done|done|unfold owner; by rewrite Hpc|done|].
    intros Hc. by eapply record_ok_add.
  - cbn [heap cache with_heap] in *.
    eapply effect_push; [eassumption|unfold owner; by rewrite Hpc|done| |done|eassumption].
    unfold record_ok, received. rewrite Hpc. simplify_eq. intros (Hn & Hr). split; [|done].
    destruct Hr as [(b & Hb & <- & Hs)|[Hb ->]]; [left|by right]. exists b. by split_and!.
Qed.

(** The nodes of the handlers are distinct and not in the list. *)
Definition owners_ok (hp : nodes) (locs : list nat) (hs : list handler) : Prop :=
  (∀ i h, hs !! i = Some h → owner h = true →
     ∃ c, hp !! record h = Some c ∧ record_ok h c ∧ record h ∉ locs) ∧
  (∀ i j h h', i ≠ j → hs !! i = Some h → hs !! j = Some h' → owner h = true → owner h' = true →
     record h ≠ record h').

Lemma owners_step hp hp' locs locs' hs i h' :
  owners_ok hp locs hs →
  (owner h' = true → ∃ c, hp' !! record h' = Some c ∧ record_ok h' c ∧ record h' ∉ locs') →
  (∀ j hj c, j ≠ i → hs !! j = Some hj → owner hj = true → hp !! record hj = Some c →
     record hj ∉ locs →
     hp' !! record hj = Some c ∧ record hj ∉ locs' ∧ (owner h' = true → record hj ≠ record h')) →
  owners_ok hp' locs' (<[i := h']> hs).
Proof.
  intros (Ho & Hd) Hh' Hother. split.
  - intros j hj Hj Hown. apply list_lookup_insert_Some in Hj as [(-> & -> & _)|[Hne Hj]]; [by apply Hh'|].
    destruct (Ho j hj Hj Hown) as (c & Hc & Hok & Hn).
    destruct (Hother j hj c) as (Hc' & Hn' & _); [done..|]. eauto.
  - intros j k hj hk Hjk Hj Hk Oj Ok.
    apply list_lookup_insert_Some in Hj as [(-> & -> & _)|[Hnj Hj]];
      apply list_lookup_insert_Some in Hk as [(-> & -> & _)|[Hnk Hk]]; [done| | |by eapply (Hd j k)].
    + destruct (Ho k hk Hk Ok) as (c & Hc & _ & Hn).
      destruct (Hother k hk c) as (_ & _ & Hne); [done..|]. intros E. by eapply Hne.
    + destruct (Ho j hj Hj Oj) as (c & Hc & _ & Hn).
      destruct (Hother j hj c) as (_ & _ & Hne); [done..|]. by apply Hne.
Qed.

Definition serving_inv (s : shared) (hs : list handler) : Prop :=
  (∀ l c, heap s !! l = Some c → l < new_node s) ∧
  ∃ l0 d0 ls e, chain (heap s) (cache s) ((l0, d0) :: ls) e ∧ (∀ l, e ≠ At l) ∧
    NoDup (l0 :: ls.*1) ∧ NoDup (key ∘ snd <$> ls) ∧ Forall consistent ls.*2 ∧
    owners_ok (heap s) (l0 :: ls.*1) hs.

Lemma serving_inv_keep h h' s s' hs i :
  hs !! i = Some h → cache s' = cache s → heap s' = heap s → new_node s' = new_node s →
  (owner h' = true → owner h = true ∧ record h' = record h ∧ ∀ c, record_ok h c → record_ok h' c) →
  serving_inv s hs → serving_inv s' (<[i := h']> hs).
Proof.
  intros Hi Ec Eh En Hk (Hb & l0 & d0 & ls & e & Hch & He & Hnd & Hkeys & Hcomp & Ho).
  split; [by rewrite Eh En|]. exists l0, d0, ls, e. rewrite Eh Ec. do 5 (split; [done|]).
  eapply owners_step; [exact Ho| |].
  - intros Oh'. destruct (Hk Oh') as (Oh & -> & Hrec). destruct Ho as (Ho & _).
    destruct (Ho i h Hi Oh) as (c & ? & ? & ?). eauto.
  - intros j hj c Hji Hj Oj Hc Hn. split; [done|]. split; [done|]. intros Oh'.
    destruct (Hk Oh') as (Oh & -> & _). destruct Ho as (_ & Hd). by eapply (Hd j i).
Qed.

Lemma serving_inv_alloc h h' s s' hs i c :
  hs !! i = Some h → cache s' = cache s → heap s' = <[new_node s := c]> (heap s) →
  new_node s' = S (new_node s) → record h' = new_node s → record_ok h' c →
  serving_inv s hs → serving_inv s' (<[i := h']> hs).
Proof.
  intros Hi Ec Eh En Hr Hok (Hb & l0 & d0 & ls & e & Hch & He & Hnd & Hkeys & Hcomp & Ho).
  assert (new_node s ∉ ((l0, d0) :: ls).*1) as Hnew.
  { intros ([l d] & Heq & Hin)%list_elem_of_fmap.
    destruct (chain_lookup _ _ _ _ _ _ Hch Hin) as (c' & Hc' & _). apply Hb in Hc'.
    simpl in Heq. lia. }
  split.
  { rewrite Eh En. intros l c' [[<- _]|[_ Hl]]%lookup_insert_Some; [lia|]. apply Hb in Hl. lia. }
  exists l0, d0, ls, e. rewrite Eh Ec. split; [by apply chain_insert|]. do 4 (split; [done|]).
  eapply owners_step; [exact Ho| |].
  - intros _. exists c. rewrite Hr lookup_insert_eq. done.
  - intros j hj cj Hji Hj Oj Hc Hn. rewrite Hr. apply Hb in Hc as Hlt.
    split; [|split; [done|intros _; lia]]. rewrite lookup_insert_ne //. lia.
Qed.

Lemma serving_inv_update h h' s s' hs i c c' :
  hs !! i = Some h → cache s' = cache s → heap s !! record h = Some c →
  heap s' = <[record h := c']> (heap s) → new_node s' = new_node s → owner h = true →
  record h' = record h → (record_ok h c → record_ok h' c') →
  serving_inv s hs → serving_inv s' (<[i := h']> hs).
Proof.
  intros Hi Ec Hc Eh En Oh Hr Hok (Hb & l0 & d0 & ls & e & Hch & He & Hnd & Hkeys & Hcomp & Ho).
  destruct Ho as (Ho & Hd). destruct (Ho i h Hi Oh) as (c0 & Hc0 & Hrec & Hnot). simplify_eq.
  split.
  { rewrite Eh En. intros l c0 [[<- _]|[_ Hl]]%lookup_insert_Some; by eapply Hb. }
  exists l0, d0, ls, e. rewrite Eh Ec. split; [by apply chain_insert|]. do 4 (split; [done|]).
  eapply owners_step; [by split| |].
  - intros _. exists c'. rewrite Hr lookup_insert_eq. auto.
  - intros j hj cj Hji Hj Oj Hcj Hn. rewrite Hr.
    assert (record hj ≠ record h) by by eapply (Hd j i).
    split; [|done]. by rewrite lookup_insert_ne.
Qed.

Lemma serving_inv_push h h' s s' hs i c c' :
  hs !! i = Some h → cache s' = cache s → heap s !! record h = Some c →
  owner h = true → owner h' = false →
  (record_ok h c → consistent (data c') ∧ ∀ l, next c' ≠ At l) → new_node s' = new_node s →
  push_record (<[record h := c']> (heap s)) (cache s) (record h) = Some (heap s') →
  serving_inv s hs → serving_inv s' (<[i := h']> hs).
Proof.
  intros Hi Ec Hc Oh Oh' Hok En Hpush (Hb & l0 & d0 & ls & e & Hch & He & Hnd & Hkeys & Hcomp & Ho).
  destruct Ho as (Ho & Hd). destruct (Ho i h Hi Oh) as (c0 & Hc0 & Hrec & Hnot). simplify_eq.
  destruct (Hok Hrec) as [Hcomp' Hnext]. set (r := record h) in *. set (hp := <[r := c']> (heap s)) in *.
  assert (cache s = At l0) as Hcache by by destruct Hch. rewrite Hcache in Hpush Hch. simpl in Hpush.
  assert (chain hp (At l0) ((l0, d0) :: ls) e) as Hch' by by apply chain_insert.
  assert (length ((l0, d0) :: ls) ≤ size hp) as Hlen by eauto with cache.
  pose proof (push_loop_spec (S (size hp)) hp l0 d0 ls e r c') as Hspec.
  specialize (Hspec ltac:(simpl in Hlen; lia) He Hch' (lookup_insert_eq _ _ _) Hnot Hnd).
  assert (∀ l cl, hp !! l = Some cl → l < new_node s) as Hb'.
  { intros l cl [[<- _]|[_ Hl]]%lookup_insert_Some; by eapply Hb. }
  assert (∀ j hj cj, j ≠ i → hs !! j = Some hj → owner hj = true → heap s !! record hj = Some cj →
    record hj ≠ r ∧ hp !! record hj = Some cj) as Hoth.
  { intros j hj cj Hji Hj Oj Hcj. assert (record hj ≠ r) by by eapply (Hd j i).
    split; [done|]. unfold hp. by rewrite lookup_insert_ne. }
  destruct (first_with (request c') ls) as [d|] eqn:Hfw.
  - change (push_loop (S (size hp)) hp l0 r = Some (heap s')) in Hpush. rewrite Hpush in Hspec.
    symmetry in Hspec. apply bind_Some in Hspec as (_ & _ & Hs'). injection Hs' as Hs'.
    split. { rewrite En -Hs'. intros l cl [_ Hl]%lookup_delete_Some. by eapply Hb'. }
    exists l0, d0, ls, e. rewrite -Hs' Ec Hcache. split; [by apply chain_delete|]. do 4 (split; [done|]).
    eapply owners_step; [by split|by rewrite Oh'|]. intros j hj cj Hji Hj Oj Hcj Hn.
    destruct (Hoth j hj cj) as [Hne Hcj']; [done..|]. rewrite lookup_delete_ne //.
    split; [done|]. split; [done|]. by rewrite Oh'.
  - change (push_loop (S (size hp)) hp l0 r = Some (heap s')) in Hpush. rewrite Hpush in Hspec.
    destruct e as [| |l]; [|done|naive_solver]. destruct Hspec as (h2 & [= <-] & Hch2 & Hother & Hdom).
    split.
    { rewrite En. intros l cl Hl. assert (l ∈ dom hp) as [cl' Hcl']%elem_of_dom.
      { rewrite -Hdom. by eapply elem_of_dom_2. } by eapply Hb'. }
    exists l0, d0, (ls ++ [(r, data c')]), (next c'). rewrite Ec Hcache. split; [done|]. split; [done|].
    rewrite !fmap_app. cbn [fmap list_fmap fst snd]. split; [|split; [|split]].
    + change (NoDup ((l0 :: ls.*1) ++ [r])). apply NoDup_app. split; [done|].
      split; [|apply NoDup_singleton]. by intros x Hx ->%list_elem_of_singleton.
    + apply first_with_None in Hfw. apply NoDup_app. split; [done|].
      split; [|apply NoDup_singleton]. by intros x Hx ->%list_elem_of_singleton.
    + apply Forall_app. split; [done|]. by constructor.
    + eapply owners_step; [by split|by rewrite Oh'|]. intros j hj cj Hji Hj Oj Hcj Hn.
      destruct (Hoth j hj cj) as [Hne Hcj']; [done..|]. rewrite Hother //.
      split; [done|]. split; [|by rewrite Oh'].
      change (record hj ∉ (l0 :: ls.*1) ++ [r]). rewrite elem_of_app list_elem_of_singleton. naive_solver.
Qed.

Lemma serving_inv_handler h h' s s' hs i a :
  hs !! i = Some h → execute_client_request h a s = Next (h', s') →
  serving_inv s hs → serving_inv s' (<[i := h']> hs).
Proof.
  intros Hi Hs. apply hstep_effect in Hs as (Ec & [ | | | ]);
    eauto using serving_inv_keep, serving_inv_alloc, serving_inv_update, serving_inv_push.
Qed.

(** The main thread starts the cache; afterwards it leaves it alone until it
    destroys it. *)
Lemma mstep_serving m a s m' s' spawn :
  mstep m a s = Next (m', s', spawn) → serving m = true → serving m' = true →
  heap s' = heap s ∧ cache s' = cache s ∧ new_node s' = new_node s.
Proof.
  unfold mstep, create_server_socket, run_proxy, accept_new_client. intros Hs Hm Hm'.
  destruct m, a; try discriminate Hs; try discriminate Hm; inv_step;
    inv_open;
    try discriminate Hm'; try done.
  destruct (permits s); [done|]. by injection Hs as <- <- <-.
Qed.

Lemma mstep_before m a s m' s' spawn :
  mstep m a s = Next (m', s', spawn) → starting m = true → heap s = ∅ →
  (starting m' = true → heap s' = ∅) ∧
  (serving m' = true → ∃ c, indeterminate c = true ∧ cache s' = At (new_node s) ∧
     heap s' = <[new_node s := set_next c Null]> ∅ ∧ new_node s' = S (new_node s)).
Proof.
  unfold mstep, create_server_socket, run_proxy, accept_new_client. intros Hs Hm Hh.
  destruct m, a; try discriminate Hs; try discriminate Hm; inv_step;
    inv_open;
    (split; [try done|try done]).
  intros _. exists c. match goal with H : init_cache _ _ _ = _ |- _ => injection H as <- <- <- end.
  simpl. by rewrite Hh.
Qed.

Definition process_inv (s : state) : Prop :=
  (starting (main_pc s) = true → heap (sh s) = ∅ ∧ handlers s = []) ∧
  (serving (main_pc s) = true → serving_inv (sh s) (handlers s)).

Lemma serving_inv_spawn s hs : serving_inv s hs → serving_inv s (hs ++ [new_handler]).
Proof.
  intros (Hb & l0 & d0 & ls & e & Hch & He & Hnd & Hkeys & Hcomp & (Ho & Hd)).
  assert (∀ i h, (hs ++ [new_handler]) !! i = Some h → owner h = true → hs !! i = Some h) as Hold.
  { intros i h Hi Oh. apply lookup_app_Some in Hi as [Hi|[_ Hi]]; [done|].
    apply list_lookup_singleton_Some in Hi as [_ <-]. done. }
  split; [done|]. exists l0, d0, ls, e. do 5 (split; [done|]). split; [eauto|].
  intros i j h h' Hij Hi Hj Oh Oh'. eapply (Hd i j); eauto.
Qed.

Lemma process_inv_step t a s s' : process_inv s → step t a s = Next s' → process_inv s'.
Proof.
  intros (Hst & Hsv) E. destruct t as [i|].
  - apply step_handler_Next in E as (h & h' & sh' & Hh & Eh & ->).
    split; simpl.
    + intros Hm. destruct (Hst Hm) as [_ Hn]. by rewrite Hn in Hh.
    + intros Hm. eapply serving_inv_handler; eauto.
  - apply step_main_Next in E as (m' & sh' & spawn & Em & ->).
    destruct (starting (main_pc s)) eqn:Hstart.
    + destruct (Hst eq_refl) as [Hh Hn]. destruct (mstep_starting _ _ _ _ _ _ Em Hstart) as (-> & _).
      destruct (mstep_before _ _ _ _ _ _ Em Hstart Hh) as [H1 H2]. split; simpl; rewrite Hn; [by auto|].
      intros Hm. destruct (H2 Hm) as (c & Hc & Hcache & Hheap & Hnew). split.
      { rewrite Hheap Hnew. intros l c' [[<- _]|[_ Hl]]%lookup_insert_Some; [lia|].
        by rewrite lookup_empty in Hl. }
      exists (new_node (sh s)), (data c), [], Null. rewrite Hheap Hcache. split.
      { split; [done|]. exists (set_next c Null). by rewrite lookup_insert_eq. }
      split; [done|]. split; [apply NoDup_singleton|]. split; [apply NoDup_nil_2|]. split; [done|].
      split; intros; by set_solver.
    + split; simpl.
      { intros Hm'. exfalso. destruct (mstep_permits _ _ _ _ _ _ Em Hstart). congruence. }
      intros Hm'. destruct (serving (main_pc s)) eqn:Hm; last first.
      { exfalso. clear - Em Hstart Hm Hm'. destruct (main_pc s), a; try discriminate;
          simpl in Em; inv_step; discriminate. }
      destruct (mstep_serving _ _ _ _ _ _ Em Hm Hm') as (Eh & Ec & En).
      assert (serving_inv sh' (handlers s)) as Hinv.
      { unfold serving_inv. rewrite Eh Ec En. by apply Hsv. }
      destruct spawn; [by apply serving_inv_spawn|]. by rewrite app_nil_r.
Qed.

Lemma process_inv_reachable s : reachable s → process_inv s.
Proof.
  revert s. apply reachable_ind'; [|apply process_inv_step]. by split.
Qed.

(** C6. While the server runs, in every interleaving and with any failing
    calls: the cache is a list of distinct nodes without a cycle, whose last
    link is null or, behind a node that got no array, never set; behind the
    head no hash occurs twice, and every recorded length is the number of bytes
    stored in the node's array, at most its size. *)
Theorem proxy_cache_wf s :
  reachable s → serving (main_pc s) = true → ∃ ls, cache_wf (heap (sh s)) (cache (sh s)) ls.
Proof.
  intros Hr Hm. destruct (process_inv_reachable s Hr) as [_ Hinv].
  destruct (Hinv Hm) as (_ & l0 & d0 & ls & e & Hch & He & Hnd & Hkeys & Hcomp & _).
  exists ls, l0, d0, e. done.
Qed.

(** Start-up and one client. *)
Definition one_client : list (thread * answer) :=
  start_up (MkCache 7 RWild 0 Wild) ++
  new_client (chars "GET /" ++ [CR; "010"%char] ++ chars "Host: x.y" ++ [CR]) ++
  handler_does 0 (lookup_answers stack).

(** [proxy_at_most_ten] then. *)
Lemma proxy_at_most_ten_witness :
  ∃ s, run one_client init = Next s ∧
    permits (sh s) + active (handlers s) + holds (main_pc s) ≤ MAX_USERS_COUNT.
Proof.
  destruct (run one_client init) as [s| |] eqn:E; [|vm_compute in E; discriminate E..].
  exists s. split; [done|]. apply proxy_at_most_ten.
  eapply run_reachable; [apply reachable_init|exact E].
Defined.

(** [proxy_cache_wf] then. *)
Lemma proxy_cache_wf_witness :
  ∃ s, run one_client init = Next s ∧ ∃ ls, cache_wf (heap (sh s)) (cache (sh s)) ls.
Proof.
  assert (match run one_client init with Next s => serving (main_pc s) | _ => false end = true) as E
    by by vm_compute.
  destruct (run one_client init) as [s| |] eqn:Hr; [|discriminate E..].
  exists s. split; [done|]. apply proxy_cache_wf; [|exact E].
  eapply run_reachable; [apply reachable_init|exact Hr].
Defined.
