(* ===== verification/ProxyServe.v ===== *)
(** * ProxyServe: what clients of the proxy get

    A handler of [Proxy.v] that runs undisturbed serves a page from the remote
    server, or from the cache; and the schedules in which the proxy fails
    although every system call succeeds. *)
From stdpp Require Import base gmap list numbers strings.
From iris.prelude Require Import prelude.
From Stdlib Require Import Ascii.
From S2P Require Import Prelude CString Steps ProxyCache Proxy.
#[local] Open Scope nat_scope.

(** ** A handler on its own *)

Fixpoint hrun (l : list answer) (x : handler * shared) : outcome (handler * shared) :=
  match l with
  | [] => Next x
  | a :: l' =>
      match execute_client_request x.1 a x.2 with
      | Next x' => hrun l' x'
      | Undefined => Undefined
      | Disabled => Disabled
      end
  end.

Lemma hrun_run i l s h h' s' :
  main_pc s ≠ MExited → handlers s !! i = Some h → hrun l (h, sh s) = Next (h', s') →
  run (handler_does i l) s = Next (State s' (main_pc s) (<[i := h']> (handlers s))).
Proof.
  intros Hm. revert s Hm h. induction l as [|a l IH]; intros s Hm h Hh E.
  - injection E as <- <-. simpl. rewrite list_insert_id //. by destruct s.
  - cbn [hrun fst snd] in E. destruct (execute_client_request h a (sh s)) as [[h1 s1]| |] eqn:E1; try done.
    change (handler_does i (a :: l)) with ((Some i, a) :: handler_does i l). cbn [Steps.run]. unfold lstep at 1. cbn [fst snd].
    assert (step (Some i) a s = Next (State s1 (main_pc s) (<[i := h1]> (handlers s)))) as ->.
    { unfold step. rewrite Hh. cbn [possible]. rewrite E1. by destruct (main_pc s). }
    assert (i < length (handlers s)) by by eapply lookup_lt_Some.
    specialize (IH (State s1 (main_pc s) (<[i := h1]> (handlers s))) Hm h1).
    cbn [sh handlers main_pc] in IH. rewrite list_insert_insert_eq in IH.
    apply IH; [by rewrite list_lookup_insert_eq|done].
Qed.

(** Takes the next step of [hrun], whose handler is known. *)
Ltac hgo :=
  cbn [hrun execute_client_request send_from_cache connect_to_remote pc goto with_dest with_all client_socket request0 h_request record dest_socket
       all_bytes_read fst snd defined possible mbind option_bind
       heap cache new_node copies requests new_request permits fds clients sent ctx server_socket
       with_heap with_cache with_new_node with_copies with_requests with_new_request with_permits
       with_fds with_clients with_sent with_ctx with_server_socket close].

(** *** Descriptors *)

Lemma lowest_ge fuel n f : (n ≤ lowest fuel n f)%Z.
Proof.
  revert n. induction fuel as [|fuel IH]; intros n; simpl; [lia|].
  destruct (f !! n); [|lia]. specialize (IH (n + 1)%Z). lia.
Qed.

Lemma lowest_ext fuel n f g :
  (∀ k, (n ≤ k)%Z → f !! k = g !! k) → lowest fuel n f = lowest fuel n g.
Proof.
  revert n. induction fuel as [|fuel IH]; intros n E; simpl; [done|].
  rewrite (E n); [|lia]. destruct (g !! n); [|done]. apply IH. intros k Hk. apply E. lia.
Qed.

(** A new descriptor was not open. *)
Lemma lowest_free fuel n f : size f < fuel → f !! lowest fuel n f = None.
Proof.
  revert n f. induction fuel as [|fuel IH]; intros n f Hf; [lia|]. simpl.
  destruct (f !! n) as [e|] eqn:Hn; [|done].
  assert (lowest fuel (n + 1) f = lowest fuel (n + 1) (delete n f)) as ->.
  { apply lowest_ext. intros k Hk. rewrite lookup_delete_ne; [done|lia]. }
  rewrite -(lookup_delete_ne f n).
  - assert (size f ≠ 0) by (intros E%map_size_empty_iff; by rewrite E lookup_empty in Hn).
    apply IH. rewrite map_size_delete Hn /=. lia.
  - pose proof (lowest_ge fuel (n + 1) (delete n f)). lia.
Qed.

(** *** The host *)

Lemma memccpy_found host x n :
  CR ∉ host → length host < n → memccpy (host ++ CR :: x) CR n = Some (host ++ [CR], true).
Proof.
  revert n. induction host as [|c host IH]; intros n Hcr Hn; (destruct n as [|n]; [simpl in Hn; lia|]).
  - done.
  - simpl. rewrite decide_False; [|set_solver]. rewrite IH; [done|set_solver|simpl in Hn; lia].
Qed.

(** The request names its host in the way [parse_host] expects. *)
Definition has_host (req host : list ascii) : Prop :=
  ∃ p tail, strstr req HOST = Some p ∧ drop (p + 6) req = host ++ CR :: tail ∧
    CR ∉ host ∧ length host < HOST_SIZE.

Lemma parse_host_ok req host x :
  no_nul req → has_host req host → parse_host (req ++ NUL :: x) = Some host.
Proof.
  intros Hreq (p & tail & Hp & Hd & Hcr & Hl). unfold parse_host.
  rewrite cstr_app //. cbn [mbind option_bind]. rewrite Hp. cbn [mbind option_bind].
  assert (p + 6 ≤ length req) as Hle.
  { destruct (decide (p + 6 ≤ length req)); [done|]. rewrite drop_ge in Hd; [|lia]. by destruct host. }
  rewrite drop_app_le // Hd -app_assoc /= memccpy_found //. cbn [mbind option_bind].
  rewrite length_app /= Nat.add_sub take_app_length. apply cstr_app.
  unfold no_nul in *. intros Hin. apply Hreq. rewrite -(take_drop (p + 6) req) Hd. set_solver.
Qed.

Lemma logg_char_fits msg info :
  length (chars msg) + length info < 4000 → logg_char msg info = Some ().
Proof.
  intros Hl. unfold logg_char. rewrite sprintf_ok; [done|].
  rewrite length_replicate !length_app. unfold LOG_BUFFER_SIZE. simpl length at 2. lia.
Qed.

Section serve.
(** One client: its socket and request, the cache it finds, and what the
    handler's arrays hold before they are written. *)
Context (s : shared) (sock : Z) (r : nat) (n : nat) (req rest junk : list ascii).
Context (k0 : Z) (m : gmap Z (list ascii)).
Context (s_ctx : ctx s = Some (sock, r)).
Context (s_request : requests s !! r = Some (req ++ NUL :: rest)).
Context (req_string : no_nul req) (req_fits : length req < MAX_BUFFER_SIZE).
Context (junk_length : length junk = MAX_BUFFER_SIZE).
Context (s_socket : fds s !! sock = Some (Client n)).
Context (s_cache : cache_repr (heap s) (cache s) k0 m) (req_k0 : key_of req ≠ k0).

Definition h_buf : buffer := req ++ NUL :: drop (S (length req)) junk.
Definition at_pc (p : hpc) : handler := Handler p sock r h_buf 0 0 0.

Lemma copy_request_ok : copy_request junk (req ++ NUL :: rest) = Some h_buf.
Proof.
  unfold copy_request. rewrite cstr_app //. cbn [mbind option_bind]. rewrite decide_True //.
  rewrite write_at_0; [|rewrite length_app /=; lia].
  unfold h_buf. rewrite length_app /= Nat.add_1_r -app_assoc. done.
Qed.

Lemma lookup_runs l :
  hrun (lookup_answers junk ++ l) (new_handler, s) =
  hrun l (at_pc (match m !! key_of req with
                 | Some b => HHit (Z.of_nat (length b)) (copied b)
                 | None => HMalloc
                 end), with_copies (copies s + 1) s).
Proof.
  unfold lookup_answers, new_handler. cbn [app]. hgo. rewrite s_ctx. cbn [possible]. hgo.
  rewrite s_ctx. cbn [possible]. hgo. rewrite decide_True //. cbn [request0]. rewrite s_request.
  cbn [defined]. rewrite copy_request_ok. cbn [defined]. hgo. cbn [heap cache with_copies h_request].
  unfold h_buf at 1. rewrite (find_in_cache_spec _ _ _ _ _ _ s_cache); [|done..]. cbn [defined].
  destruct (m !! key_of req) as [b|].
  - rewrite decide_True; [done|]. cbn [fst]. unfold NOT_FOUND_CACHE. lia.
  - done.
Qed.

(** A hit: the client gets the copy of the answer, no server is asked, and
    the permit is not returned. *)
Lemma hit_runs b :
  m !! key_of req = Some b →
  ∃ h' s', hrun (hit_answers junk (length b)) (new_handler, s) = Next (h', s') ∧
    pc h' = HDone ∧ sent s' = sent s ++ [(Client n, copied b)] ∧
    heap s' = heap s ∧ cache s' = cache s ∧ permits s' = permits s ∧
    fds s' = delete sock (fds s) ∧ requests s' = delete r (requests s) ∧ copies s' = copies s.
Proof.
  intros Hb. unfold hit_answers. rewrite lookup_runs Hb. unfold at_pc. hgo. unfold write. hgo.
  rewrite s_socket. hgo. rewrite Nat2Z.id.
  assert (take (length b) (copied b) = copied b) as -> by by rewrite take_ge ?length_copied.
  rewrite decide_True ?length_copied //. hgo.
  assert (take (length b) (copied b) = copied b) as -> by by rewrite take_ge ?length_copied.
  rewrite s_ctx. hgo. unfold free_request. hgo. rewrite s_request. hgo.
  do 2 eexists. split; [done|]. hgo. rewrite delete_delete_eq. split_and!; try done. lia.
Qed.

Definition chunk_ok (ch : list ascii) : Prop := ch ≠ [] ∧ length ch ≤ MAX_BUFFER_SIZE.

(** The loop: what arrives is passed on and stored. *)
Lemma chunks_run chunks l h s0 cl b cr :
  pc h = HRead → fds s0 !! client_socket h = Some cl → is_Some (fds s0 !! dest_socket h) →
  heap s0 !! record h = Some cr → response cr = RAt b → length b = all_bytes_read h →
  Forall chunk_ok chunks → (Z.of_nat (length b + length (concat chunks)) ≤ CACHE_BUFFER_SIZE)%Z →
  hrun ((chunks ≫= λ ch, [Bytes ch; Wrote (length ch)]) ++ l) (h, s0) =
  hrun l (with_all (all_bytes_read h + length (concat chunks)) h,
          with_heap (<[record h := MkCache (request cr) (RAt (b ++ concat chunks))
                                    (response_len cr) (next cr)]> (heap s0))
            (with_sent (sent s0 ++ (pair cl <$> chunks)) s0)).
Proof.
  revert h s0 b cr. induction chunks as [|ch chunks IH];
    intros h s0 b cr Hpc Hcl [d Hd] Hcr Hb Hlen Hok Hsize.
  { simpl. rewrite !app_nil_r Nat.add_0_r -Hb insert_id; [|by destruct cr].
    by destruct h, s0. }
  inversion Hok as [|? ? [Hne Hmax] Hok']; subst. simpl in Hsize. rewrite length_app in Hsize.
  destruct h as [p cs r0 buf rec ds all]. cbn [pc client_socket dest_socket record all_bytes_read] in *.
  subst p. change ((ch :: chunks) ≫= λ ch, [Bytes ch; Wrote (length ch)]) with
    ([Bytes ch; Wrote (length ch)] ++ (chunks ≫= λ ch, [Bytes ch; Wrote (length ch)])).
  rewrite -app_assoc. cbn [app]. hgo. rewrite Hd. hgo. rewrite decide_True //.
  destruct ch as [|x ch]; [done|]. set (ch' := x :: ch) in *. hgo. unfold write. rewrite Hcl. hgo.
  rewrite decide_True // take_ge //. hgo. unfold update_record. hgo. rewrite Hcr. hgo.
  unfold add_response. rewrite Hb decide_True; [|lia]. hgo. rewrite -Hlen overwrite_end -length_app.
  erewrite IH; [|done|done|by eexists|apply lookup_insert_eq|done|done|done|rewrite length_app; lia].
  hgo. rewrite insert_insert_eq. cbn [concat request response_len next].
  rewrite !length_app -!app_assoc Nat.add_assoc. done.
Qed.

(** From [malloc] to the loop: the connection is made, the request sent. *)
Definition fetching (d : Z) (all : nat) (p : hpc) : handler :=
  Handler p sock r h_buf (new_node s) d all.

Definition dest : Z := lowest (S (size (fds s))) 3 (fds s).

Definition connected (c : Cache) : shared :=
  Shared (<[new_node s := MkCache (key_of req) (RAt []) (response_len c) Null]> (heap s)) (cache s)
    (S (new_node s)) (copies s + 1) (requests s) (new_request s) (permits s)
    (<[dest := Remote]> (fds s)) (clients s) (sent s ++ [(Remote, req)]) (ctx s) (server_socket s).

Lemma connect_runs c host l :
  indeterminate c = true → has_host req host →
  hrun ([Fresh c; Works; Works; Works; Works; Works; Works; Wrote (length req); Works] ++ l)
    (at_pc HMalloc, with_copies (copies s + 1) s) =
  hrun l (fetching dest 0 HRead, connected c).
Proof.
  intros Hc Hhost. unfold at_pc. cbn [app]. hgo. rewrite Hc. hgo.
  unfold update_record. hgo. rewrite lookup_insert_eq. hgo. unfold hash_request. hgo.
  rewrite s_request. hgo.
  unfold update_record. hgo. rewrite lookup_insert_eq. hgo. unfold add_request.
  rewrite hash_polynomial //. hgo. unfold h_buf. rewrite (parse_host_ok _ _ _ req_string Hhost). hgo.
  rewrite logg_char_fits; [|destruct Hhost as (? & ? & _ & _ & _ & Hl); unfold HOST_SIZE in Hl; simpl; lia].
  hgo. unfold open_fd. hgo. change (lowest _ _ _) with dest.
  rewrite cstr_app //. hgo. unfold write. hgo. rewrite lookup_insert_eq. hgo.
  rewrite decide_True // take_ge //. hgo. rewrite !insert_insert_eq. done.
Qed.

Lemma dest_free : fds s !! dest = None.
Proof. apply lowest_free. lia. Qed.

(** The state after the loop, with answer [b] and [out] written since. *)
Definition fetched (c : Cache) (b : list ascii) (out : list (endpoint * list ascii)) : shared :=
  with_heap (<[new_node s := MkCache (key_of req) (RAt b) (response_len c) Null]>
               (<[new_node s := MkCache (key_of req) (RAt []) (response_len c) Null]> (heap s)))
    (with_sent out (connected c)).

Lemma finish_runs c b out hp :
  push_record (<[new_node s := MkCache (key_of req) (RAt b) (Z.of_nat (length b)) Null]> (heap s))
    (cache s) (new_node s) = Some hp →
  ∃ s', hrun ([Bytes []] ++ [Works; Works; Works; Works; Works])
      (fetching dest (length b) HRead, fetched c b out) = Next (fetching dest (length b) HDone, s') ∧
    heap s' = hp ∧ cache s' = cache s ∧ sent s' = out ∧ permits s' = S (permits s) ∧
    fds s' = delete sock (fds s) ∧ requests s' = delete r (requests s) ∧ copies s' = copies s + 1.
Proof.
  intros Hpush. unfold fetched, connected, fetching. cbn [app]. hgo. rewrite lookup_insert_eq. hgo.
  case_decide as Hle; [|unfold MAX_BUFFER_SIZE in Hle; simpl in Hle; lia]. clear Hle. hgo.
  unfold update_record. hgo. rewrite lookup_insert_eq. hgo. rewrite !insert_insert_eq.
  unfold add_size. cbn [request response next]. rewrite Hpush. hgo.
  unfold free_request. hgo. rewrite s_request. hgo.
  eexists. split; [done|]. hgo. split_and!; try done.
  pose proof dest_free as Hd. assert (dest ≠ sock) by congruence.
  rewrite delete_insert_ne // delete_insert_eq delete_id //. by rewrite lookup_delete_ne.
Qed.

(** A miss: the server is asked, its answer passed on and cached, and
    everything given back except the array for the cached copy. *)
Lemma miss_runs c host chunks :
  m !! key_of req = None → indeterminate c = true → heap s !! new_node s = None →
  has_host req host → Forall chunk_ok chunks →
  (Z.of_nat (length (concat chunks)) ≤ CACHE_BUFFER_SIZE)%Z →
  ∃ h' s', hrun (miss_answers junk c req chunks) (new_handler, s) = Next (h', s') ∧
    pc h' = HDone ∧ sent s' = sent s ++ (Remote, req) :: (pair (Client n) <$> chunks) ∧
    cache_repr (heap s') (cache s') k0 (<[key_of req := concat chunks]> m) ∧
    permits s' = S (permits s) ∧ fds s' = delete sock (fds s) ∧
    requests s' = delete r (requests s) ∧ copies s' = copies s + 1.
Proof.
  intros Hm Hc Hnew Hhost Hok Hsize. unfold miss_answers. rewrite lookup_runs Hm.
  unfold fetch_answers. rewrite (connect_runs c host) // -app_assoc.
  destruct (push_record_repr (heap s) (cache s) k0 m (new_node s) (key_of req) (concat chunks)
              s_cache Hnew Hsize) as (hp & Hpush & Hrep).
  destruct (finish_runs c (concat chunks) ((sent s ++ [(Remote, req)]) ++ (pair (Client n) <$> chunks))
              hp Hpush) as (s' & Hfin & Hheap & Hcache & Hsent & Hrest).
  exists (fetching dest (length (concat chunks)) HDone), s'. split.
  - rewrite -Hfin. pose proof dest_free as Hd.
    rewrite (chunks_run chunks _ (fetching dest 0 HRead) (connected c) (Client n) []
               (MkCache (key_of req) (RAt []) (response_len c) Null)); [done|done|..|done|done].
    + cbn [fds connected client_socket fetching]. rewrite lookup_insert_ne; [done|congruence].
    + cbn [fds connected dest_socket fetching]. by rewrite lookup_insert_eq.
    + cbn [heap connected record fetching]. by rewrite lookup_insert_eq.
    + done.
    + done.
  - rewrite Hheap Hcache Hsent. rewrite Hm in Hrep. split; [done|].
    split; [by rewrite -app_assoc|]. done.
Qed.
End serve.

(** ** Served clients *)

(** The handler's client as the handler finds it, at the moment its own
    request is in [ctx]. *)
Record client_ready (s : shared) (sock : Z) (r n : nat) (req : list ascii) (k0 : Z)
    (m : gmap Z (list ascii)) : Prop := {
  ready_ctx : ctx s = Some (sock, r);
  ready_request : ∃ rest, requests s !! r = Some (req ++ NUL :: rest);
  ready_string : no_nul req;
  ready_fits : length req < MAX_BUFFER_SIZE;
  ready_socket : fds s !! sock = Some (Client n);
  ready_cache : cache_repr (heap s) (cache s) k0 m;
  ready_head : key_of req ≠ k0
}.

(** C7. An uncached page: the server gets the request as the client sent it, the
    client gets the server's bytes as they arrive, the cache has the whole
    answer under the request's hash, sockets, request and permit are given
    back, and one 64 MB array is not. *)
Theorem proxy_miss s i sock r n req k0 m junk c host chunks :
  main_pc s ≠ MExited → handlers s !! i = Some new_handler →
  client_ready (sh s) sock r n req k0 m → length junk = MAX_BUFFER_SIZE →
  m !! key_of req = None → indeterminate c = true → heap (sh s) !! new_node (sh s) = None →
  has_host req host → Forall chunk_ok chunks →
  (Z.of_nat (length (concat chunks)) ≤ CACHE_BUFFER_SIZE)%Z →
  ∃ s', run (handler_does i (miss_answers junk c req chunks)) s = Next s' ∧
    pc <$> handlers s' !! i = Some HDone ∧
    sent (sh s') = sent (sh s) ++ (Remote, req) :: (pair (Client n) <$> chunks) ∧
    cache_repr (heap (sh s')) (cache (sh s')) k0 (<[key_of req := concat chunks]> m) ∧
    permits (sh s') = S (permits (sh s)) ∧ fds (sh s') = delete sock (fds (sh s)) ∧
    requests (sh s') = delete r (requests (sh s)) ∧ copies (sh s') = copies (sh s) + 1.
Proof.
  intros Hm Hi [H1 [rest H2] H3 H4 H5 H6 H7] Hj. intros.
  destruct (miss_runs (sh s) sock r n req rest junk k0 m H1 H2 H3 H4 Hj H5 H6 H7 c host chunks)
    as (h' & s' & Hrun & Hpc & Hs); [done..|].
  apply (hrun_run i) in Hrun; [|done..]. eexists. split; [exact Hrun|]. cbn [handlers sh].
  rewrite list_lookup_insert_eq; [|by eapply lookup_lt_Some]. cbn [fmap option_fmap option_map].
  by rewrite Hpc.
Qed.

(** C8. A cached page: the client gets the copy of the answer with its length, no
    server is asked, sockets and request are given back, but not the permit. *)
Theorem proxy_hit s i sock r n req k0 m junk b :
  main_pc s ≠ MExited → handlers s !! i = Some new_handler →
  client_ready (sh s) sock r n req k0 m → length junk = MAX_BUFFER_SIZE →
  m !! key_of req = Some b →
  ∃ s', run (handler_does i (hit_answers junk (length b))) s = Next s' ∧
    pc <$> handlers s' !! i = Some HDone ∧
    sent (sh s') = sent (sh s) ++ [(Client n, copied b)] ∧
    heap (sh s') = heap (sh s) ∧ cache (sh s') = cache (sh s) ∧
    permits (sh s') = permits (sh s) ∧ fds (sh s') = delete sock (fds (sh s)) ∧
    requests (sh s') = delete r (requests (sh s)) ∧ copies (sh s') = copies (sh s).
Proof.
  intros Hm Hi [H1 [rest H2] H3 H4 H5 H6 H7] Hj Hb.
  destruct (hit_runs (sh s) sock r n req rest junk k0 m H1 H2 H3 H4 Hj H5 H6 H7 b Hb)
    as (h' & s' & Hrun & Hpc & Hs).
  apply (hrun_run i) in Hrun; [|done..]. eexists. split; [exact Hrun|]. cbn [handlers sh].
  rewrite list_lookup_insert_eq; [|by eapply lookup_lt_Some]. cbn [fmap option_fmap option_map].
  by rewrite Hpc.
Qed.

(** ** Concrete clients *)

Definition example_request : list ascii :=
  chars "GET http://x.y/ HTTP/1.0" ++ [CR; "010"%char] ++ chars "Host: x.y" ++ [CR; "010"%char].
Definition example_head : Cache := MkCache 0 RWild 0 Wild.
Definition example_node : Cache := MkCache 0 RNull 0 Null.
Definition example_page : list (list ascii) := [chars "HTTP/1.0 200 OK"; chars "page"].
Definition example_miss (i : nat) : list (thread * answer) :=
  handler_does i (miss_answers stack example_node example_request example_page).
Definition example_hit (i : nat) : list (thread * answer) :=
  handler_does i (hit_answers stack 19).

Definition example_cached (k : Z) (b : list ascii) : nodes :=
  <[1 := MkCache k (RAt b) (Z.of_nat (length b)) Null]>
    (<[0 := set_next example_head (At 1)]> ∅).

Lemma example_cached_repr k b :
  (Z.of_nat (length b) ≤ CACHE_BUFFER_SIZE)%Z →
  cache_repr (example_cached k b) (At 0) 0 {[k := b]}.
Proof.
  intros Hb. exists (data example_head). split; [done|].
  exists 0, [(1, (k, RAt b, Z.of_nat (length b)))]. split_and!.
  - split; [done|]. exists (set_next example_head (At 1)). split; [done|]. split; [done|].
    split; [done|]. eexists. split; [done|]. done.
  - cbn. repeat constructor; set_solver.
  - intros k' b' [<- <-]%lookup_singleton_Some. done.
  - intros k'. rewrite first_with_cons /=. destruct (decide (k = k')) as [->|Hk].
    + by rewrite lookup_singleton_eq /= decide_True.
    + rewrite lookup_singleton_ne //= decide_False //.
Qed.

(** A process with one client waiting. *)
Definition example_process (h : nodes) : state :=
  State (Shared h (At 0) 2 0 {[0 := example_request ++ [NUL]]} 1 9 {[4%Z := Client 0]} 1 []
           (Some (4%Z, 0)) 3) MAccept [new_handler].

Lemma example_ready h m :
  cache_repr h (At 0) 0 m →
  client_ready (sh (example_process h)) 4 0 0 example_request 0 m.
Proof.
  intros Hm. split; [done|by exists []|by apply (bool_decide_unpack _)| |done|done|].
  - change (length example_request) with 37. unfold MAX_BUFFER_SIZE. lia.
  - vm_compute. discriminate.
Qed.

Lemma example_has_host : has_host example_request (chars "x.y").
Proof.
  exists 26, ["010"%char]. split; [done|]. split; [done|]. split; [|unfold HOST_SIZE; simpl; lia].
  by apply (bool_decide_unpack _).
Qed.

(** The page of two pieces, not cached. *)
Lemma proxy_miss_witness :
  let s := example_process (<[0 := set_next example_head Null]> ∅) in
  ∃ s', run (handler_does 0 (miss_answers stack example_node example_request example_page)) s =
          Next s' ∧
    pc <$> handlers s' !! 0 = Some HDone ∧
    sent (sh s') = [] ++ (Remote, example_request) :: (pair (Client 0) <$> example_page) ∧
    cache_repr (heap (sh s')) (cache (sh s')) 0
      (<[key_of example_request := concat example_page]> ∅) ∧
    permits (sh s') = 10 ∧ fds (sh s') = delete 4%Z {[4%Z := Client 0]} ∧
    requests (sh s') = delete 0 {[0 := example_request ++ [NUL]]} ∧ copies (sh s') = 0 + 1.
Proof.
  intros s. apply (proxy_miss s 0 4 0 0 example_request 0 ∅ stack example_node (chars "x.y")).
  - done.
  - done.
  - apply example_ready. apply (init_cache_repr ∅ 0 example_head).
  - unfold stack. by rewrite length_replicate.
  - apply lookup_empty.
  - done.
  - done.
  - apply example_has_host.
  - apply Forall_cons. split; [split; [done|by apply Nat.leb_le]|]. apply Forall_singleton.
    split; [done|by apply Nat.leb_le].
  - vm_compute. discriminate.
Defined.

(** The same page, cached. *)
Lemma proxy_hit_witness :
  let b := concat example_page in
  let s := example_process (example_cached (key_of example_request) b) in
  ∃ s', run (handler_does 0 (hit_answers stack (length b))) s = Next s' ∧
    pc <$> handlers s' !! 0 = Some HDone ∧ sent (sh s') = [] ++ [(Client 0, copied b)] ∧
    heap (sh s') = heap (sh s) ∧ cache (sh s') = At 0 ∧ permits (sh s') = 9 ∧
    fds (sh s') = delete 4%Z {[4%Z := Client 0]} ∧
    requests (sh s') = delete 0 {[0 := example_request ++ [NUL]]} ∧ copies (sh s') = 0.
Proof.
  intros b s.
  apply (proxy_hit s 0 4 0 0 example_request 0 {[key_of example_request := b]} stack b).
  - done.
  - done.
  - apply example_ready, example_cached_repr. vm_compute. discriminate.
  - unfold stack. by rewrite length_replicate.
  - apply lookup_singleton_eq.
Defined.

(** ** Failures without a failing call *)

Definition succeeds (x : thread * answer) : bool := match x.2 with Fails => false | _ => true end.

(** The main thread waits for a permit, and no handler is left to give one. *)
Definition stuck (s : state) : bool :=
  match main_pc s with
  | MWait _ _ => Nat.eqb (permits (sh s)) 0 && forallb (λ h, negb (running h)) (handlers s)
  | _ => false
  end.

Lemma stuck_forever s : stuck s = true → ∀ t a, step t a s = Disabled.
Proof.
  unfold stuck, step. intros Hs t a. destruct (main_pc s); try discriminate Hs.
  apply andb_true_iff in Hs as [Hp Hh]. destruct t as [i|].
  - destruct (handlers s !! i) as [h|] eqn:Hi; [|done]. cbn [possible].
    rewrite forallb_forall in Hh. specialize (Hh h). rewrite -list_elem_of_In in Hh.
    specialize (Hh (list_elem_of_lookup_2 _ _ _ Hi)). unfold running in Hh. unfold execute_client_request, send_from_cache, connect_to_remote.
    destruct (pc h); try discriminate Hh. by destruct a.
  - apply Nat.eqb_eq in Hp. unfold mstep, create_server_socket, run_proxy, accept_new_client. rewrite Hp. by destruct a.
Qed.

(** One page asked for eleven times: every hit keeps a permit, and after ten
    hits the server accepts one more client and then waits for ever, no
    handler running. *)
Theorem ten_hits_stop_the_server :
  ∃ sched s, forallb succeeds sched = true ∧ run sched init = Next s ∧ main_pc s ≠ MExited ∧
    clients (sh s) = 12 ∧ ∀ t a, step t a s = Disabled.
Proof.
  set (sched := start_up example_head ++ new_client example_request ++ example_miss 0 ++
    flat_map (λ i, new_client example_request ++ example_hit i) (seq 1 10) ++
    (pair None <$> [Works; Works; Works; Bytes example_request])).
  assert (match run sched init with
          | Next s => stuck s && Nat.eqb (clients (sh s)) 12
          | _ => false end = true) as E by by vm_compute.
  exists sched. destruct (run sched init) as [s| |]; [|done..]. exists s.
  apply andb_true_iff in E as [Hs Hc]. apply Nat.eqb_eq in Hc.
  split; [by vm_compute|]. split; [done|]. split; [|split; [done|by apply stuck_forever]].
  intros Hm. unfold stuck in Hs. by rewrite Hm in Hs.
Qed.

(** [ctx] belongs to the accept loop, which may write it for the next client
    before the last one's handler has read it: both handlers then take the
    second client's socket and request, nobody serves the first, and the
    request is used after it has been freed. *)
Theorem context_race :
  ∃ sched s h0 h1 sched',
    forallb succeeds (sched ++ sched') = true ∧ run sched init = Next s ∧
    handlers s = [h0; h1] ∧ client_socket h0 = client_socket h1 ∧ request0 h0 = request0 h1 ∧
    fds (sh s) !! client_socket h0 = Some (Client 1) ∧ run sched' s = Undefined.
Proof.
  set (sched := start_up example_head ++ new_client example_request ++ new_client example_request ++
    handler_does 0 [Works; Works] ++ handler_does 1 [Works; Works]).
  set (sched' := handler_does 0 (drop 2 (miss_answers stack example_node example_request example_page))
    ++ handler_does 1 [Bytes stack]).
  assert (match run sched init with
          | Next s =>
              match handlers s with
              | [h0; h1] =>
                  bool_decide (client_socket h0 = client_socket h1 ∧ request0 h0 = request0 h1) &&
                  match fds (sh s) !! client_socket h0 with Some (Client 1) => true | _ => false end &&
                  match run sched' s with Undefined => true | _ => false end
              | _ => false
              end
          | _ => false end = true) as E by by vm_compute.
  exists sched. destruct (run sched init) as [s| |]; [|done..].
  destruct (handlers s) as [|h0 [|h1 [|??]]] eqn:Hh; try done. exists s, h0, h1, sched'.
  apply andb_true_iff in E as [[E1%bool_decide_eq_true E2]%andb_true_iff E3].
  split; [by vm_compute|]. split; [done|]. split; [done|]. destruct E1 as [E1 E1']. do 2 (split; [done|]).
  split; [|by destruct (run sched' s)].
  by destruct (fds (sh s) !! client_socket h0) as [[|[|[]]|]|].
Qed.

(** After a hit the handler closes its socket twice; in between the number may
    go to a new client, whose connection is then closed before it has been
    read. *)
Theorem double_close_drops_a_client :
  ∃ sched s sock, forallb succeeds sched = true ∧ run sched init = Next s ∧
    main_pc s = MBuff sock ∧ fds (sh s) !! sock = None.
Proof.
  set (sched := start_up example_head ++ new_client example_request ++ example_miss 0 ++
    new_client example_request ++ handler_does 1 (take 8 (hit_answers stack 19)) ++
    [(None, Works); (Some 1, Works)]).
  assert (match run sched init with
          | Next s =>
              match main_pc s with
              | MBuff sock => match fds (sh s) !! sock with None => true | _ => false end
              | _ => false
              end
          | _ => false end = true) as E by by vm_compute.
  exists sched. destruct (run sched init) as [s| |]; [|done..].
  destruct (main_pc s) as [| | | | | |sock| | | | | | | | | | |] eqn:Hm; try done. exists s, sock.
  split; [by vm_compute|]. split; [done|]. split; [done|]. by destruct (fds (sh s) !! sock).
Qed.

(** A request that fills the array leaves no room for its terminator. *)
Theorem long_request_overflows s sock e r b request :
  fds s !! sock = Some e → requests s !! r = Some request →
  length request = MAX_BUFFER_SIZE → length b = MAX_BUFFER_SIZE →
  mstep (MRead sock r) (Bytes b) s = Undefined.
Proof.
  intros Hs Hr Hl Hb. cbn [mstep accept_new_client]. rewrite Hs. cbn [possible]. rewrite Hb.
  case_decide as Hd; [|destruct Hd; unfold MAX_BUFFER_SIZE; lia].
  rewrite Hr. cbn [defined]. unfold read_request. rewrite write_at_0; [|lia].
  cbn [mbind option_bind]. unfold write_at. rewrite length_app length_drop. cbn [length].
  case_decide as Hd'; [lia|done].
Qed.

(** 4096 bytes into a fresh array. *)
Lemma long_request_overflows_witness :
  mstep (MRead 4 0) (Bytes stack)
    (Shared ∅ Null 0 0 {[0 := stack]} 1 0 {[4%Z := Client 0]} 1 [] None 3) = Undefined.
Proof.
  apply (long_request_overflows _ _ (Client 0) _ _ stack); [done|done|..]; unfold stack;
    by rewrite length_replicate.
Defined.

Lemma memccpy_not_found host x n :
  CR ∉ host → length host = n → memccpy (host ++ x) CR n = Some (host, false).
Proof.
  revert n. induction host as [|c host IH]; intros n Hcr Hn; simpl in Hn; subst n; [by destruct x|].
  simpl. rewrite decide_False; [|set_solver]. rewrite IH; [done|set_solver|done].
Qed.

(** A request without "Host:", or with a host name of 50 characters or more:
    a null pointer is read, or written before the array [host]. *)
Theorem bad_host_undefined h s req rest :
  pc h = HHost → h_request h = req ++ NUL :: rest → no_nul req →
  strstr req HOST = None ∨
  (∃ p host tail, strstr req HOST = Some p ∧ drop (p + 6) req = host ++ tail ∧ CR ∉ host ∧
     length host = HOST_SIZE) →
  execute_client_request h Works s = Undefined.
Proof.
  intros Hpc Hreq Hn Hbad. unfold execute_client_request, send_from_cache, connect_to_remote. rewrite Hpc. unfold parse_host. rewrite Hreq cstr_app //.
  cbn [mbind option_bind].
  destruct Hbad as [->|(p & host & tail & -> & Hd & Hcr & Hl)]; [done|]. cbn [mbind option_bind].
  assert (p + 6 ≤ length req) as Hle.
  { destruct (decide (p + 6 ≤ length req)); [done|]. rewrite drop_ge in Hd; [|lia].
    apply (f_equal length) in Hd. rewrite length_app Hl /= in Hd. discriminate. }
  rewrite drop_app_le // Hd -app_assoc memccpy_not_found //.
Qed.

(** A host name of 55 letters. *)
Lemma bad_host_undefined_witness :
  let req := HOST ++ [" "%char] ++ replicate 50 "w"%char ++ replicate 5 "w"%char in
  execute_client_request (Handler HHost 4 0 (req ++ [NUL]) 0 0 0) Works (sh init) = Undefined.
Proof.
  intros req. apply (bad_host_undefined _ _ req []); [done|done|by apply (bool_decide_unpack _)|].
  right. exists 0, (replicate 50 "w"%char), (replicate 5 "w"%char). split; [done|]. split; [done|].
  split; [by apply (bool_decide_unpack _)|done].
Defined.

(** When [accept] fails, [destroy_cache] frees the head's [response], which
    nobody has set. *)
Lemma accept_failure_frees_wild_pointer :
  run (start_up example_head ++ [(None, Fails); (None, Works); (None, Works)]) init = Undefined.
Proof. by vm_compute. Qed.

(** An unknown host: [freeaddrinfo] is given a pointer [getaddrinfo] has not
    set. *)
Lemma unknown_host_undefined :
  run (start_up example_head ++ new_client example_request ++
       handler_does 0 (take 9 (miss_answers stack example_node example_request [])) ++
       [(Some 0, Fails)]) init = Undefined.
Proof. by vm_compute. Qed.

(** A connection that breaks looks like the end of the answer: what has
    arrived so far is cached, and served as the page from then on. *)
Lemma broken_answer_cached :
  (match run (handler_does 0 (lookup_answers stack ++
                [Fresh example_node; Works; Works; Works; Works; Works; Works;
                 Wrote (length example_request); Works;
                 Bytes (chars "half"); Wrote 4; Fails; Works]))
             (example_process (<[0 := set_next example_head Null]> ∅)) with
   | Next s' => data <$> heap (sh s') !! 2
   | _ => None
   end) = Some (key_of example_request, RAt (chars "half"), 4%Z).
Proof. vm_compute. reflexivity. Qed.
