(* ===== verification/ProxyLive.v ===== *)
(** * ProxyLive: handlers of the proxy come to an end

    A handler makes a bounded number of steps, whatever the network sends and
    the other threads do, before it is done or does something undefined. *)
From stdpp Require Import base gmap list numbers strings.
From iris.prelude Require Import prelude.
From Stdlib Require Import Ascii.
From S2P Require Import Prelude CString Steps ProxyCache Proxy.
#[local] Open Scope nat_scope.

(** How many bytes a record holds. *)
Definition capacity : nat := Z.to_nat CACHE_BUFFER_SIZE.

(** The steps left to a handler at most.  Every round of the reading loop puts
    at least one byte into the record, and a record that overflows is
    undefined. *)
Definition measure (h : handler) : nat :=
  match pc h with
  | HSock => 2 * capacity + 25
  | HReq => 2 * capacity + 24
  | HCopy => 2 * capacity + 23
  | HCalloc => 2 * capacity + 22
  | HFind _ => 2 * capacity + 21
  | HHit _ _ => 2 * capacity + 20
  | HHitFailed => 2 * capacity + 19
  | HMalloc => 2 * capacity + 18
  | HInit => 2 * capacity + 17
  | HHash => 2 * capacity + 16
  | HHost => 2 * capacity + 15
  | HResolve => 2 * capacity + 14
  | HSocket => 2 * capacity + 13
  | HConnect => 2 * capacity + 12
  | HNoConnection => 2 * capacity + 11
  | HSend => 2 * capacity + 10
  | HBuffer => 2 * capacity + 9
  | HRead => 2 * (capacity - all_bytes_read h) + 7
  | HForward b => 2 * (capacity - all_bytes_read h) + (match b with [] => 8 | _ => 6 end)
  | HPush => 5
  | HCloseClient => 4
  | HCloseDest => 3
  | HFreeReq => 2
  | HPost => 1
  | HHitSent => 3
  | HFreeCtx => 2
  | HCloseAgain | HSendFailed | HForwardFailed => 1
  | HDone => 0
  end.

(** A piece that has been added to the record fitted. *)
Lemma add_response_fits c b n c' : add_response c b n = Some c' → n + length b ≤ capacity.
Proof.
  unfold add_response, capacity. destruct (response c); try done. case_decide; [|done]. lia.
Qed.

Lemma measure_step h a s h' s' :
  execute_client_request h a s = Next (h', s') → measure h' < measure h.
Proof.
  unfold execute_client_request, send_from_cache, connect_to_remote. intros Hs.
  assert (∃ p, pc h = p) as [p Hpc] by eauto. unfold measure at 2. rewrite Hpc in Hs |- *.
  destruct p, a; inv_step; unfold measure; cbn; try lia.
  all: try match goal with H : add_response _ _ _ = Some _ |- _ => apply add_response_fits in H end.
  all: match goal with |- context [match ?b with [] => _ | _ => _ end] => destruct b end;
    cbn in *; lia.
Qed.

(** A schedule's steps of handler [i]. *)
Definition steps_of (i : nat) (sched : list (thread * answer)) : nat :=
  length (filter (λ x, x.1 = Some i) sched).

Lemma step_measure t a s s' i h :
  step t a s = Next s' → handlers s !! i = Some h →
  ∃ h', handlers s' !! i = Some h' ∧
    (if decide (t = Some i) then measure h' < measure h else h' = h).
Proof.
  intros Hs Hh. destruct t as [j|].
  - apply step_handler_Next in Hs as (h0 & h1 & sh' & Hj & He & ->). cbn [handlers].
    destruct (decide (j = i)) as [->|Hne].
    + exists h1. rewrite Hj in Hh. injection Hh as ->. rewrite decide_True //.
      split; [|by eapply measure_step]. apply list_lookup_insert_eq. by eapply lookup_lt_Some.
    + exists h. rewrite list_lookup_insert_ne // decide_False //. congruence.
  - apply step_main_Next in Hs as (m' & sh' & spawn & _ & ->). exists h. split; [|done].
    cbn [handlers]. by apply lookup_app_l_Some.
Qed.

(** C9. However the threads are scheduled and whatever the calls answer, a
    handler that does nothing undefined makes no more steps than [measure]
    says: for one that has just been started, two for each byte a record holds,
    and 25.  (A server that sends more than the record holds makes it write
    behind the array, which is undefined, and of such runs nothing is said:
    [oversized_answer_undefined].) *)
Theorem handler_terminates sched s s' i h :
  run sched s = Next s' → handlers s !! i = Some h →
  steps_of i sched ≤ measure h ∧ measure new_handler = 2 * capacity + 25.
Proof.
  intros Hr Hh. split; [|done]. revert s h Hr Hh.
  induction sched as [|[t a] sched IH]; intros s h Hr Hh; [cbn; lia|].
  cbn [Steps.run] in Hr. unfold lstep at 1 in Hr. cbn [fst snd] in Hr. destruct (step t a s) as [s1| |] eqn:Hs; [|done..].
  destruct (step_measure t a s s1 i h Hs Hh) as (h' & Hh' & Hm). specialize (IH s1 h' Hr Hh').
  unfold steps_of in *. destruct (decide (t = Some i)) as [->|Hne].
  - rewrite filter_cons_True //. eapply Nat.le_lt_trans; [exact IH|exact Hm].
  - rewrite filter_cons_False //. by subst h'.
Qed.

(** A client is accepted; its handler looks the page up. *)
Definition accepted : list (thread * answer) :=
  start_up (MkCache 7 RWild 0 Wild) ++
  new_client (chars "GET /" ++ [CR; "010"%char] ++ chars "Host: x.y" ++ [CR]).
Definition looks_up : list (thread * answer) := handler_does 0 (lookup_answers stack).

Lemma handler_terminates_witness :
  ∃ s s', run accepted init = Next s ∧ run looks_up s = Next s' ∧ steps_of 0 looks_up = 5 ∧
    (steps_of 0 looks_up ≤ measure new_handler ∧ measure new_handler = 2 * capacity + 25).
Proof.
  assert (match run accepted init with Next s => handlers s | _ => [] end = [new_handler]) as E
    by (vm_compute; reflexivity).
  assert (match run (accepted ++ looks_up) init with Next _ => true | _ => false end = true) as E'
    by (vm_compute; reflexivity).
  rewrite run_app in E'. destruct (run accepted init) as [s| |]; [|discriminate E..].
  destruct (run looks_up s) as [s'| |] eqn:Hr; [|discriminate E'..].
  exists s, s'. split; [done|]. split; [done|]. split; [reflexivity|].
  apply (handler_terminates looks_up s s' 0 new_handler); [exact Hr|]. by rewrite E.
Defined.

(** The answer that goes over the end of the array: the piece is sent on to the
    client, and [add_response] is undefined. *)
Lemma oversized_answer_undefined h s b e c bytes :
  pc h = HForward b → fds s !! client_socket h = Some e → heap s !! record h = Some c →
  response c = RAt bytes → (CACHE_BUFFER_SIZE < Z.of_nat (all_bytes_read h + length b))%Z →
  execute_client_request h (Wrote (length b)) s = Undefined.
Proof.
  intros Hpc He Hc Hr Hlen. unfold execute_client_request. rewrite Hpc.
  unfold write. rewrite He. cbn [mbind option_bind]. rewrite decide_True //. cbn [possible].
  unfold update_record. cbn [heap with_sent]. rewrite Hc. cbn [mbind option_bind].
  unfold add_response. rewrite Hr decide_False //. intros Hle. by apply Z.lt_nge in Hlen.
Qed.
