(* ===== verification/ProxySession.v ===== *)
(** * ProxySession: the proxy as its clients see it

    Clients that come one after the other, from the start of the process on:
    what they and the servers are sent is what an abstract proxy, a map from
    hashes to pages, would send, and nothing stays open or allocated but the
    cache, the arrays for cached copies and the permits of hits. *)
From stdpp Require Import base gmap list numbers strings.
From iris.prelude Require Import prelude.
From Stdlib Require Import Ascii.
From S2P Require Import Prelude CString Steps ProxyCache Proxy ProxyServe ProxyLive.
#[local] Open Scope nat_scope.

(** ** The specification *)

(** A client's request, the host it names, and what that host would answer. *)
Record visit : Type := Visit {
  asks : list ascii;
  host : list ascii;
  page : list (list ascii)
}.

(** The abstract proxy: pages by hash, the clients so far, what has been sent,
    and how many answers came from the cache. *)
Record proxy : Type := AProxy {
  pages : gmap Z (list ascii);
  visitors : nat;
  traffic : list (endpoint * list ascii);
  hits : nat
}.

Definition serve (v : visit) (p : proxy) : proxy :=
  let k := key_of (asks v) in
  match pages p !! k with
  | Some b =>
      AProxy (pages p) (S (visitors p)) (traffic p ++ [(Client (visitors p), copied b)]) (S (hits p))
  | None =>
      AProxy (<[k := concat (page v)]> (pages p)) (S (visitors p))
        (traffic p ++ (Remote, asks v) :: (pair (Client (visitors p)) <$> page v)) (hits p)
  end.

Definition serve_all (l : list visit) (p : proxy) : proxy := foldl (λ p v, serve v p) p l.

(** ** The schedule *)

(** The answers a client's handler gets. *)
Definition answers (junk : buffer) (c : Cache) (p : proxy) (v : visit) : list answer :=
  match pages p !! key_of (asks v) with
  | Some b => hit_answers junk (length b)
  | None => miss_answers junk c (asks v) (page v)
  end.

(** The client is accepted, and its handler runs to the end; [junk] and [c] are
    what its memory held. *)
Definition visit_steps (junk : buffer) (c : Cache) (p : proxy) (v : visit) : list (thread * answer) :=
  new_client (asks v) ++
  handler_does (visitors p) (answers junk c p v).

Fixpoint session (junk : buffer) (c : Cache) (p : proxy) (l : list visit) : list (thread * answer) :=
  match l with
  | [] => []
  | v :: l' => visit_steps junk c p v ++ session junk c (serve v p) l'
  end.

(** A request that fits and names its host; a page that fits.  [k0] is what the
    head of the list happens to hold as a hash. *)
Record visit_ok (k0 : Z) (v : visit) : Prop := VisitOk {
  ok_some : asks v ≠ [];
  ok_string : no_nul (asks v);
  ok_fits : length (asks v) < MAX_BUFFER_SIZE;
  ok_host : has_host (asks v) (host v);
  ok_chunks : Forall chunk_ok (page v);
  ok_size : (Z.of_nat (length (concat (page v))) ≤ CACHE_BUFFER_SIZE)%Z;
  ok_head : key_of (asks v) ≠ k0
}.

(** ** Refinement *)

(** Between two clients the process holds what the abstract proxy says. *)
Record idle (k0 : Z) (p : proxy) (s : state) : Prop := Idle {
  idle_main : main_pc s = MAccept;
  idle_handlers : length (handlers s) = visitors p;
  idle_done : Forall (λ h, pc h = HDone) (handlers s);
  idle_cache : cache_repr (heap (sh s)) (cache (sh s)) k0 (pages p);
  idle_sent : sent (sh s) = traffic p;
  idle_clients : clients (sh s) = visitors p;
  idle_permits : permits (sh s) + hits p = MAX_USERS_COUNT;
  idle_fds : fds (sh s) = {[3%Z := Listening]};
  idle_requests : requests (sh s) = ∅
}.

(** The shared state when the client's handler starts. *)
Definition let_in (req : list ascii) (n : nat) (s : shared) : shared :=
  let fd := lowest (S (size (fds s))) 3 (fds s) in
  let r := new_request s in
  Shared (heap s) (cache s) (new_node s) (copies s)
    (<[r := req ++ NUL :: drop (S (length req)) stack]> (requests s)) (S r) n
    (<[fd := Client (clients s)]> (fds s)) (S (clients s)) (sent s) (Some (fd, r)) (server_socket s).

Lemma read_request_ok req :
  no_nul req → length req < MAX_BUFFER_SIZE →
  read_request stack req = Some (req ++ NUL :: drop (S (length req)) stack).
Proof.
  intros Hn Hl. assert (length stack = MAX_BUFFER_SIZE) as Hs by apply length_replicate.
  unfold read_request. rewrite write_at_0; [|lia]. cbn [mbind option_bind].
  assert (write_at (req ++ drop (length req) stack) (length req) [NUL] =
          Some (req ++ NUL :: drop (S (length req)) stack)) as ->.
  { unfold write_at. rewrite decide_True; [|rewrite length_app length_drop Hs; cbn [length]; lia].
    rewrite take_app_length drop_app_ge; [|lia]. rewrite drop_drop. cbn [length app]. do 3 f_equal.
    f_equal. lia. }
  cbn [mbind option_bind]. rewrite cstr_app //. cbn [mbind option_bind].
  assert (logg_char "Received request:
" req = Some ()) as ->; [|done].
  unfold logg_char. rewrite sprintf_ok; [done|].
  rewrite length_replicate !length_app. unfold LOG_BUFFER_SIZE, MAX_BUFFER_SIZE in *. simpl length at 1 2. lia.
Qed.

(** The accept loop's round for a client that sends its request. *)
Lemma new_client_runs s req n :
  main_pc s = MAccept → req ≠ [] → no_nul req → length req < MAX_BUFFER_SIZE →
  permits (sh s) = S n →
  run (new_client req) s = Next (State (let_in req n (sh s)) MAccept (handlers s ++ [new_handler])).
Proof.
  intros Hm Hr Hn Hl Hp. destruct s as [s m hs]. cbn [main_pc sh handlers] in *. subst m.
  unfold new_client. cbn [fmap list_fmap Steps.run].
  unfold lstep, step. cbn [fst snd main_pc sh handlers].
  cbn [mstep accept_new_client open_fd sh main_pc handlers requests with_fds with_clients
       with_requests with_new_request new_request fds possible].
  rewrite lookup_insert_eq. cbn [possible]. rewrite decide_True; [|destruct req; [done|cbn [length] in *; lia]].
  rewrite lookup_insert_eq. cbn [defined]. change (replicate MAX_BUFFER_SIZE NUL) with stack.
  rewrite read_request_ok //. cbn [defined mstep accept_new_client sh main_pc handlers permits
    with_requests with_new_request with_fds with_clients]. rewrite Hp.
  cbn [mstep accept_new_client sh main_pc handlers with_ctx with_permits].
  unfold let_in. rewrite insert_insert_eq !app_nil_r. done.
Qed.

(** A handler does not change the number of clients. *)
Lemma hstep_clients h a s h' s' : execute_client_request h a s = Next (h', s') → clients s' = clients s.
Proof.
  unfold execute_client_request, send_from_cache, connect_to_remote.
  destruct (pc h), a; intros Hs; inv_step; inv_open; done.
Qed.

Lemma hrun_clients l h s h' s' : hrun l (h, s) = Next (h', s') → clients s' = clients s.
Proof.
  revert h s. induction l as [|a l IH]; intros h s; cbn [hrun fst snd]; [by intros [= _ <-]|].
  destruct (execute_client_request h a s) as [[h1 s1]| |] eqn:E; [|done..].
  intros ->%IH. by eapply hstep_clients.
Qed.

(** The handler does what [serve] says. *)
Lemma handler_serves k0 junk c p v s n :
  idle k0 p s → heap (sh s) !! new_node (sh s) = None → visit_ok k0 v →
  length junk = MAX_BUFFER_SIZE → indeterminate c = true → S n + hits p = MAX_USERS_COUNT →
  ∃ h' s', hrun (answers junk c p v) (new_handler, let_in (asks v) n (sh s)) = Next (h', s') ∧
    pc h' = HDone ∧ sent s' = traffic (serve v p) ∧
    cache_repr (heap s') (cache s') k0 (pages (serve v p)) ∧
    permits s' + hits (serve v p) = MAX_USERS_COUNT ∧ fds s' = fds (sh s) ∧ requests s' = ∅.
Proof.
  intros Hi Hfree Hv Hj Hc Hp. set (fd := lowest (S (size (fds (sh s)))) 3 (fds (sh s))).
  assert (delete fd (<[fd := Client (clients (sh s))]> (fds (sh s))) = fds (sh s)) as Hfds.
  { rewrite delete_insert_id //. apply lowest_free. lia. }
  assert (∀ r x, delete r (<[r := x]> (requests (sh s))) = ∅) as Hreq.
  { intros r x. rewrite (idle_requests _ _ _ Hi). by rewrite delete_insert_id. }
  set (s1 := let_in (asks v) n (sh s)).
  assert (fds s1 !! fd = Some (Client (visitors p))) as Hsock.
  { cbn. by rewrite lookup_insert_eq (idle_clients _ _ _ Hi). }
  assert (requests s1 !! new_request (sh s) =
          Some (asks v ++ NUL :: drop (S (length (asks v))) stack)) as Hr by apply lookup_insert_eq.
  unfold answers, serve. destruct (pages p !! key_of (asks v)) as [b|] eqn:Hm.
  - destruct (hit_runs s1 fd (new_request (sh s)) (visitors p) _ _ junk k0 (pages p) eq_refl Hr
                (ok_string _ _ Hv) (ok_fits _ _ Hv) Hj Hsock (idle_cache _ _ _ Hi) (ok_head _ _ Hv) b Hm)
      as (h' & s' & Hrun & Hpc & Hsent & Hheap & Hcache & Hperm & Hfd & Hrq & _).
    exists h', s'. rewrite Hsent Hheap Hcache Hperm Hfd Hrq. cbn [s1 let_in sent heap cache permits fds requests].
    rewrite (idle_sent _ _ _ Hi) Hreq. split_and!; try done; [apply Hi|cbn; lia].
  - destruct (miss_runs s1 fd (new_request (sh s)) (visitors p) _ _ junk k0 (pages p) eq_refl Hr
                (ok_string _ _ Hv) (ok_fits _ _ Hv) Hj Hsock (idle_cache _ _ _ Hi) (ok_head _ _ Hv)
                c (host v) (page v) Hm Hc Hfree (ok_host _ _ Hv) (ok_chunks _ _ Hv) (ok_size _ _ Hv))
      as (h' & s' & Hrun & Hpc & Hsent & Hrep & Hperm & Hfd & Hrq & _).
    exists h', s'. rewrite Hsent Hperm Hfd Hrq. cbn [s1 let_in sent permits fds requests].
    rewrite (idle_sent _ _ _ Hi) Hreq. split_and!; done.
Qed.

(** In a reachable state the next node is free. *)
Lemma new_node_free s : reachable s → main_pc s = MAccept → heap (sh s) !! new_node (sh s) = None.
Proof.
  intros Hr Hm. destruct (process_inv_reachable s Hr) as [_ Hinv]. destruct Hinv as [Hlt _]; [by rewrite Hm|].
  destruct (heap (sh s) !! new_node (sh s)) as [x|] eqn:E; [|done]. apply Hlt in E. lia.
Qed.

(** One client, from [accept] to the last step of its handler. *)
Lemma visit_runs k0 junk c p v s :
  idle k0 p s → reachable s → visit_ok k0 v → length junk = MAX_BUFFER_SIZE → indeterminate c = true →
  hits p < MAX_USERS_COUNT →
  ∃ s', run (visit_steps junk c p v) s = Next s' ∧ idle k0 (serve v p) s'.
Proof.
  intros Hi Hr Hv Hj Hc Hh. pose proof (idle_permits _ _ _ Hi) as Hperm.
  destruct (permits (sh s)) as [|n] eqn:Hp; [lia|].
  destruct (handler_serves k0 junk c p v s n Hi (new_node_free s Hr (idle_main _ _ _ Hi)) Hv Hj Hc Hperm)
    as (h' & s' & Hrun & Hpc & H1 & H2 & H3 & H4 & H5).
  pose proof (hrun_clients _ _ _ _ _ Hrun) as Hcl.
  set (s1 := State (let_in (asks v) n (sh s)) MAccept (handlers s ++ [new_handler])).
  exists (State s' MAccept (handlers s ++ [h'])). split.
  - unfold visit_steps. rewrite run_app (new_client_runs s (asks v) n); try apply Hv; [|apply Hi|done].
    rewrite (hrun_run (visitors p) (answers junk c p v) s1 new_handler h' s') //.
    + cbn [s1 main_pc handlers]. do 2 f_equal. rewrite -(idle_handlers _ _ _ Hi). by rewrite insert_app_r_alt // Nat.sub_diag.
    + cbn [s1 handlers]. rewrite -(idle_handlers _ _ _ Hi). by apply list_lookup_middle.
  - split; cbn [main_pc handlers sh]; try done.
    + rewrite length_app (idle_handlers _ _ _ Hi) /=. unfold serve. destruct (pages p !! _); cbn; lia.
    + apply Forall_app. split; [apply Hi|]. by apply Forall_singleton.
    + rewrite Hcl. cbn. rewrite (idle_clients _ _ _ Hi). unfold serve. by destruct (pages p !! _).
    + by rewrite H4 (idle_fds _ _ _ Hi).
Qed.

Lemma hits_serve v p : hits p ≤ hits (serve v p).
Proof. unfold serve. destruct (pages p !! _); cbn; lia. Qed.

Lemma hits_serve_all l p : hits p ≤ hits (serve_all l p).
Proof.
  revert p. induction l as [|v l IH]; intros p; [done|]. cbn. etrans; [apply (hits_serve v)|apply IH].
Qed.

Lemma session_runs k0 junk c l p s :
  idle k0 p s → reachable s → Forall (visit_ok k0) l → length junk = MAX_BUFFER_SIZE →
  indeterminate c = true → hits (serve_all l p) < MAX_USERS_COUNT →
  ∃ s', run (session junk c p l) s = Next s' ∧ idle k0 (serve_all l p) s'.
Proof.
  intros Hi Hr Hl Hj Hc. revert p s Hi Hr. induction Hl as [|v l Hv _ IH]; intros p s Hi Hr Hh.
  { by exists s. }
  cbn [serve_all foldl] in Hh. pose proof (hits_serve_all l (serve v p)) as Hle.
  pose proof (hits_serve v p) as Hle'. unfold serve_all in Hle.
  destruct (visit_runs k0 junk c p v s Hi Hr Hv Hj Hc) as (s1 & Hs1 & Hi1); [lia|].
  destruct (IH (serve v p) s1 Hi1) as (s2 & Hs2 & Hi2); [by eapply run_reachable|done|].
  exists s2. split; [|done]. cbn [session]. by rewrite run_app Hs1.
Qed.

(** The process before its first client. *)
Definition empty_proxy : proxy := AProxy ∅ 0 [] 0.

Lemma start_up_idle head :
  indeterminate head = true →
  ∃ s, run (start_up head) init = Next s ∧ idle (request head) empty_proxy s.
Proof.
  intros Hh. unfold start_up. cbn [fmap list_fmap Steps.run]. unfold lstep. cbn. rewrite Hh. cbn.
  eexists. split; [done|]. split; try done. cbn. apply init_cache_repr.
Qed.

(** C4. From the start of the process on, as long as every call works, fewer
    than ten answers come from the cache, and the requests and pages are such
    that [visit_ok] holds (they fit their arrays, the request names its host,
    and its hash is not what the list's head happens to hold): clients that
    come one after the other are served as by a map from hashes to pages in
    which the first answer stays.  What is sent to whom, in which order, is
    what [serve_all] says, and afterwards only the listening socket is open, no
    request is left, every handler is done, the cache holds the pages, and a
    permit is missing for every answer that came from the cache; with the tenth
    the server stops ([ProxyServe.ten_hits_stop_the_server]). *)
Theorem proxy_refines_map head junk c l :
  indeterminate head = true → indeterminate c = true → length junk = MAX_BUFFER_SIZE →
  Forall (visit_ok (request head)) l → hits (serve_all l empty_proxy) < MAX_USERS_COUNT →
  ∃ s, run (start_up head ++ session junk c empty_proxy l) init = Next s ∧
    idle (request head) (serve_all l empty_proxy) s.
Proof.
  intros Hh Hc Hj Hl Hhits. destruct (start_up_idle head Hh) as (s0 & Hs0 & Hi0).
  rewrite run_app Hs0. apply session_runs; try done.
  eapply run_reachable; [apply reachable_init|exact Hs0].
Qed.

(** Two clients ask for the same page. *)
Lemma proxy_refines_map_witness :
  let v := Visit example_request (chars "x.y") example_page in
  let p := serve_all [v; v] empty_proxy in
  traffic p = [(Remote, example_request); (Client 0, chars "HTTP/1.0 200 OK"); (Client 0, chars "page");
               (Client 1, chars "HTTP/1.0 200 OKpage")] ∧
  ∃ s, run (start_up example_head ++ session stack example_node empty_proxy [v; v]) init = Next s ∧
    idle (request example_head) p s.
Proof.
  intros v p. split; [vm_compute; reflexivity|].
  assert (visit_ok (request example_head) v) as Hv.
  { split.
    - discriminate.
    - by apply (bool_decide_unpack _).
    - by apply Nat.ltb_lt.
    - apply example_has_host.
    - apply Forall_cons. split; [split; [done|by apply Nat.leb_le]|]. apply Forall_singleton.
      split; [done|by apply Nat.leb_le].
    - vm_compute. discriminate.
    - vm_compute. discriminate. }
  apply (proxy_refines_map example_head stack example_node [v; v]).
  - reflexivity.
  - reflexivity.
  - apply length_replicate.
  - exact (Forall_cons_2 _ _ _ Hv (Forall_cons_2 _ _ _ Hv (Forall_nil_2 _))).
  - apply Nat.ltb_lt. vm_compute. reflexivity.
Defined.
