(* ===== verification/SetCommands.v ===== *)
(** * SetCommands: file commands chosen by the program's own name

    [semestr1/Task3/Task3_2]: [main.c] reads the name it was started under
    from [/proc/self/status] and runs the command of that name from
    [set_commands.c] on its argument.  The file system is explicit (names,
    inodes, link counts); which calls fail, how much a [write] takes and what
    [rand] returns is the environment. *)
From stdpp Require Import base gmap list numbers strings pretty.
From iris.prelude Require Import prelude.
From Stdlib Require Import Ascii.
From S2P Require Import Prelude CString.
#[local] Open Scope nat_scope.

(** [enum return_status], [enum permitted], [enum constant_read] *)
Inductive return_status : Set := ERROR_HAS_OCCURRED | OKEY.
#[global] Instance return_status_eq_dec : EqDecision return_status.
Proof. solve_decision. Defined.
Definition DEFAULT_DIR : Z := 509%Z.     (* 0775 *)
Definition ALL_FOR_ALL : Z := 511%Z.     (* 0777 *)
Definition BUFFER_SIZE : nat := 256.

(** ** The file system *)

Definition path : Type := list ascii.

Inductive file_kind : Type :=
| KReg (bytes : list ascii)
| KDir
| KLnk (target : path).

(** [struct stat]: the type, the permission bits, the link count.  That of a
    directory counts its name and its entry ".", and not the entries ".." of
    the directories in it. *)
Record inode : Type := Inode {
  kind : file_kind;
  st_mode : Z;
  st_nlink : Z
}.

(** File system and output. *)
Record world : Type := World {
  inodes : gmap nat inode;
  names : gmap path nat;
  new_inode : nat;
  out : list ascii
}.

Inductive call : Set :=
| Cmkdir | Cstat | Copendir | Cclosedir | Crmdir | Cfopen | Cfclose | Cfseek | Cremove | Csymlink
| Creadlink | Clink | Cunlink | Cchmod.

(** The environment: may a call succeed (permissions, directories on the way
    and failures of the system are its business), what [readdir] delivers, where a file
    opened with "a+" starts (the standard leaves it open), does the [k]-th
    [fread] deliver, how much does the [k]-th [fwrite] take. *)
Record env : Type := Env {
  may : call → path → bool;
  entries : path → list path;
  start_pos : nat → nat;
  reads : nat → bool;
  takes : nat → nat;
  umask : Z;
  rand : Z
}.

(** ** Commands

    A command may be undefined or out of fuel ([None]). *)
Definition cmd (A : Type) : Type := world → option (A * world).
#[global] Instance cmd_ret : MRet cmd := λ A x w, Some (x, w).
#[global] Instance cmd_bind : MBind cmd := λ A B f c w,
  match c w with Some (x, w') => f x w' | None => None end.

Definition undefined {A} : cmd A := λ _, None.
Definition print (s : list ascii) : cmd unit := λ w,
  Some (tt, World (inodes w) (names w) (new_inode w) (out w ++ s)).

(** What a name stands for, links not followed. *)
Definition lookup_name (p : path) (w : world) : option (nat * inode) :=
  i ← names w !! p; n ← inodes w !! i; Some (i, n).

(** Symbolic links followed, at most 40 of them. *)
Fixpoint follow (fuel : nat) (p : path) (w : world) : option path :=
  match fuel with
  | 0 => None
  | S fuel' =>
      match lookup_name p w with
      | Some (_, Inode (KLnk target) _ _) => follow fuel' target w
      | _ => Some p
      end
  end.
Definition MAX_LINKS : nat := 40.

(** *** System calls *)
Section calls.
Context (e : env).

Definition add_name (p : path) (n : inode) (w : world) : world :=
  World (<[new_inode w := n]> (inodes w)) (<[p := new_inode w]> (names w)) (S (new_inode w)) (out w).
Definition set_inode (i : nat) (n : inode) (w : world) : world :=
  World (<[i := n]> (inodes w)) (names w) (new_inode w) (out w).

(** A name goes; the inode goes with its last name. *)
Definition drop_name (p : path) (i : nat) (n : inode) (w : world) : world :=
  World (if decide (st_nlink n ≤ 1)%Z then delete i (inodes w)
         else <[i := Inode (kind n) (st_mode n) (st_nlink n - 1)]> (inodes w))
    (delete p (names w)) (new_inode w) (out w).

(** A directory whose path is in front of no other name. *)
Definition empty_dir (p : path) (w : world) : bool :=
  forallb (λ x, negb (bool_decide ((p ++ chars "/") `prefix_of` x.1))) (map_to_list (names w)).

(** An empty directory goes with its name. *)
Definition drop_dir (p : path) (i : nat) (w : world) : option (unit * world) :=
  if empty_dir p w then Some (tt, World (delete i (inodes w)) (delete p (names w)) (new_inode w) (out w))
  else None.

(** The call [c] on [p] does [f], if it succeeds. *)
Definition syscall {A} (c : call) (p : path) (f : world → option (A * world)) : cmd (option A) := λ w,
  if may e c p then
    match f w with Some (x, w') => Some (Some x, w') | None => Some (None, w) end
  else Some (None, w).

Definition mkdir (p : path) (mode : Z) : cmd (option unit) := syscall Cmkdir p (λ w,
  match names w !! p with
  | None => Some (tt, add_name p (Inode KDir (Z.ldiff mode (umask e)) 2) w)
  | Some _ => None
  end).

Definition stat (p : path) : cmd (option inode) := syscall Cstat p (λ w,
  q ← follow MAX_LINKS p w; '(_, n) ← lookup_name q w; Some (n, w)).

Definition rmdir (p : path) : cmd (option unit) := syscall Crmdir p (λ w,
  '(i, n) ← lookup_name p w;
  match kind n with KDir => drop_dir p i w | _ => None end).

Definition unlink_name (p : path) (w : world) : option (unit * world) :=
  '(i, n) ← lookup_name p w;
  match kind n with KDir => None | _ => Some (tt, drop_name p i n w) end.
Definition unlink (p : path) : cmd (option unit) := syscall Cunlink p (unlink_name p).

(** [remove]: [unlink] for files, [rmdir] for directories. *)
Definition remove (p : path) : cmd (option unit) := syscall Cremove p (λ w,
  '(i, n) ← lookup_name p w;
  match kind n with KDir => drop_dir p i w | _ => Some (tt, drop_name p i n w) end).

Definition symlink (target p : path) : cmd (option unit) := syscall Csymlink p (λ w,
  match names w !! p with
  | None => Some (tt, add_name p (Inode (KLnk target) ALL_FOR_ALL 1) w)
  | Some _ => None
  end).

Definition readlink (p : path) (size : nat) : cmd (option (list ascii)) := syscall Creadlink p (λ w,
  '(_, n) ← lookup_name p w;
  match kind n with KLnk target => Some (take size target, w) | _ => None end).

Definition link (old p : path) : cmd (option unit) := syscall Clink old (λ w,
  '(i, n) ← lookup_name old w;
  match kind n, names w !! p with
  | KDir, _ | _, Some _ => None
  | _, None =>
      Some (tt, World (<[i := Inode (kind n) (st_mode n) (st_nlink n + 1)]> (inodes w))
                  (<[p := i]> (names w)) (new_inode w) (out w))
  end).

Definition chmod (p : path) (mode : Z) : cmd (option unit) := syscall Cchmod p (λ w,
  q ← follow MAX_LINKS p w; '(i, n) ← lookup_name q w;
  Some (tt, set_inode i (Inode (kind n) mode (st_nlink n)) w)).

(** [fopen(p, "a+")]: the contents; a missing file is made. *)
Definition fopen_append (p : path) : cmd (option (list ascii)) := syscall Cfopen p (λ w,
  q ← follow MAX_LINKS p w;
  match lookup_name q w with
  | Some (_, n) => match kind n with KReg b => Some (b, w) | _ => None end
  | None => Some ([], add_name q (Inode (KReg []) (Z.ldiff 438 (umask e)) 1) w)   (* 0666 *)
  end).

Definition fclose (p : path) : cmd (option unit) := syscall Cfclose p (λ w, Some (tt, w)).

(** Success or [ERROR_HAS_OCCURRED], as most commands report it. *)
Definition status_of {A} (r : option A) : return_status :=
  match r with Some _ => OKEY | None => ERROR_HAS_OCCURRED end.

(** *** Directories, files *)

Definition make_dir (name_dir : path) : cmd return_status :=
  ret ← mkdir name_dir DEFAULT_DIR; mret (status_of ret).

Definition print_dir (path_name_dir : path) : cmd return_status := λ w,
  match may e Copendir path_name_dir, follow MAX_LINKS path_name_dir w ≫= λ q, lookup_name q w with
  | true, Some (_, Inode KDir _ _) =>
      (_ ← print (entries e path_name_dir ≫= λ d_name, d_name ++ chars "
");
       if may e Cclosedir path_name_dir then mret OKEY else mret ERROR_HAS_OCCURRED) w
  | _, _ => Some (ERROR_HAS_OCCURRED, w)
  end.

Definition remove_dir (name_dir : path) : cmd return_status :=
  ret ← rmdir name_dir; mret (status_of ret).

Definition touch_file (name_file : path) : cmd return_status :=
  ptr_file ← fopen_append name_file;
  match ptr_file with
  | None => mret ERROR_HAS_OCCURRED
  | Some _ => ret ← fclose name_file; mret (status_of ret)
  end.

(** [stat], then a test of the type: [is_dir], [is_file_reg], [is_sym_link]. *)
Definition is_kind (test : file_kind → bool) (p : path) : cmd return_status :=
  ret ← stat p;
  match ret with
  | Some n => mret (if test (kind n) then OKEY else ERROR_HAS_OCCURRED)
  | None => mret ERROR_HAS_OCCURRED
  end.
Definition S_ISDIR (k : file_kind) : bool := match k with KDir => true | _ => false end.
Definition S_ISREG (k : file_kind) : bool := match k with KReg _ => true | _ => false end.
Definition S_ISLNK (k : file_kind) : bool := match k with KLnk _ => true | _ => false end.
Definition is_dir (name_dir : path) : cmd return_status := is_kind S_ISDIR name_dir.
Definition is_file_reg (name_file : path) : cmd return_status := is_kind S_ISREG name_file.
Definition is_sym_link (sym_link : path) : cmd return_status := is_kind S_ISLNK sym_link.

(** The loop of [write_to_file_implements] on standard output, [k] calls of
    [fwrite] made before.  [fwrite] reports an error by a short count, so the
    test for -1 never succeeds. *)
Fixpoint write_loop (fuel k : nat) (buffer : list ascii) (sum_written size_written : nat) :
    cmd (return_status * nat) :=
  match fuel with
  | 0 => undefined
  | S fuel' =>
      if decide (sum_written < size_written) then
        let written := Nat.min (takes e k) (size_written - sum_written) in
        _ ← print (take written (drop sum_written buffer));
        write_loop fuel' (S k) buffer (sum_written + written) size_written
      else mret (OKEY, k)
  end.
Definition write_to_file_implements (fuel k : nat) (buffer : list ascii) (size_written : nat) :
    cmd (return_status * nat) := write_loop fuel k buffer 0 size_written.

(** The loop of [write_file]: [kr] reads and [kw] writes made, [left] bytes
    left from position [pos]. *)
Fixpoint write_file_loop (rounds fuel kr kw left pos : nat) (bytes : list ascii) : cmd return_status :=
  match rounds with
  | 0 => undefined
  | S rounds' =>
      if decide (0 < left) then
        let bytes_to_read := if decide (left < BUFFER_SIZE) then left else BUFFER_SIZE in
        let chunk := take bytes_to_read (drop pos bytes) in
        if decide (reads e kr = false ∨ length chunk < bytes_to_read) then mret ERROR_HAS_OCCURRED
        else
          '(ret, kw) ← write_to_file_implements fuel kw chunk (length chunk);
          if decide (ret = ERROR_HAS_OCCURRED) then mret ERROR_HAS_OCCURRED
          else write_file_loop rounds' fuel (S kr) kw (left - length chunk) (pos + length chunk) bytes
      else mret OKEY
  end.

(** [write_file]: the status, and whether it has closed the file. *)
Definition write_file (fuel : nat) (p : path) (bytes : list ascii) : cmd (return_status * bool) :=
  let file_size := start_pos e (length bytes) in
  _ ← print (chars (pretty (Z.of_nat file_size)));
  if may e Cfseek p then
    ret ← write_file_loop (S file_size) fuel 0 0 file_size 0 bytes; mret (ret, false)
  else mret (ERROR_HAS_OCCURRED, true).

(** [write_file] and [fclose]: closing a closed stream is undefined. *)
Definition show_file (fuel : nat) (p : path) (bytes : list ascii) : cmd return_status :=
  '(ret, closed) ← write_file fuel p bytes;
  if closed : bool then undefined else _ ← fclose p; mret ret.

Definition print_file (fuel : nat) (path_name_file : path) : cmd return_status :=
  ret ← is_file_reg path_name_file;
  if decide (ret = ERROR_HAS_OCCURRED) then mret ERROR_HAS_OCCURRED
  else
    ptr_file ← fopen_append path_name_file;
    match ptr_file with
    | None => mret ERROR_HAS_OCCURRED
    | Some bytes => show_file fuel path_name_file bytes
    end.

Definition remove_file (path_name_file : path) : cmd return_status :=
  ret ← remove path_name_file; mret (status_of ret).

(** *** Links *)

Definition ln_symbol_link (name_file : path) : cmd return_status :=
  ret ← symlink name_file (chars "symbol_link"); mret (status_of ret).

Definition print_sym_link (fuel : nat) (sym_link : path) : cmd return_status :=
  ret ← is_sym_link sym_link;
  if decide (ret = ERROR_HAS_OCCURRED) then mret ERROR_HAS_OCCURRED
  else
    buffer ← readlink sym_link BUFFER_SIZE;
    match buffer with
    | None => mret ERROR_HAS_OCCURRED
    | Some b => '(ret, _) ← write_to_file_implements fuel 0 b (length b); mret ret
    end.

(** [readlink] writes no terminator: [junk] is what the local array held. *)
Definition read_file_from_symbol_link (fuel : nat) (junk : buffer) (sym_link : path) :
    cmd return_status :=
  ret ← is_sym_link sym_link;
  if decide (ret = ERROR_HAS_OCCURRED) then mret ERROR_HAS_OCCURRED
  else
    buffer ← readlink sym_link BUFFER_SIZE;
    match buffer with
    | None => mret ERROR_HAS_OCCURRED
    | Some b =>
        match write_at junk 0 b ≫= cstr with
        | None => undefined
        | Some target =>
            ptr_file ← fopen_append target;
            match ptr_file with
            | None => mret ERROR_HAS_OCCURRED
            | Some bytes => show_file fuel target bytes
            end
        end
    end.

Definition remove_sym_link (sym_link : path) : cmd return_status :=
  ret ← is_sym_link sym_link;
  if decide (ret = ERROR_HAS_OCCURRED) then mret ERROR_HAS_OCCURRED else remove_file sym_link.

Definition ln_hard_link (hard_link : path) : cmd return_status :=
  ret ← link hard_link (chars "hard_link"); mret (status_of ret).

Definition hard_unlink (hard_link : path) : cmd return_status :=
  ret ← unlink hard_link; mret (status_of ret).

(** *** Permissions *)

Definition S_IRUSR : Z := 256%Z.
Definition S_IWUSR : Z := 128%Z.
Definition S_IXUSR : Z := 64%Z.
Definition S_IRGRP : Z := 32%Z.
Definition S_IWGRP : Z := 16%Z.
Definition S_IROTH : Z := 4%Z.
Definition S_IWOTH : Z := 2%Z.
Definition S_IXOTH : Z := 1%Z.
Definition S_ISVTX : Z := 512%Z.

Definition flag (mode bit : Z) (yes no : ascii) : ascii :=
  if decide (Z.land mode bit ≠ 0%Z) then yes else no.

(** The ten characters of the [malloc]ed array; the type is overwritten. *)
Definition get_permissions (file_stat : inode) : buffer :=
  let m := st_mode file_stat in
  [flag m S_IRUSR "r" "-"; flag m S_IWUSR "w" "-"; flag m S_IXUSR "x" "-";
   flag m S_IRGRP "r" "-"; flag m S_IWGRP "w" "-"; flag m S_IXUSR "x" "-";
   flag m S_IROTH "r" "-"; flag m S_IWOTH "w" "-"; flag m S_IXOTH "x" "-";
   flag m S_ISVTX "t" " "]%char.

(** [printf] with "%s" reads up to a terminator. *)
Definition print_permitted (name_file : path) : cmd return_status :=
  ret ← stat name_file;
  match ret with
  | None => mret ERROR_HAS_OCCURRED
  | Some buff =>
      match cstr (get_permissions buff) with
      | None => undefined
      | Some permissions =>
          _ ← print (chars "permissions: " ++ permissions ++ chars "
");
          _ ← print (chars "count hard links: " ++ chars (pretty (st_nlink buff)) ++ chars "
");
          mret OKEY
      end
  end.

Definition change_permitted (name_file : path) : cmd return_status :=
  ret ← stat name_file;
  match ret with
  | None => mret ERROR_HAS_OCCURRED
  | Some _ =>
      let new_mode := (rand e `rem` ALL_FOR_ALL)%Z in
      ret ← chmod name_file new_mode; mret (status_of ret)
  end.

(** ** The command line *)

(** The first line of [/proc/self/status], past its first six characters: the
    kernel keeps 15 characters of the name the program was started under. *)
Definition TASK_COMM_LEN : nat := 16.
Definition get_name_command (exe : list ascii) : list ascii :=
  take (TASK_COMM_LEN - 1) exe ++ chars "
".

Inductive command : Set :=
| Mkdir | PrintDir | Rmdir | TouchFile | PrintFile | RemoveFile | LnSymbolLink | PrintSymLink
| ReadFileFromSymbolLink | RemoveSymLink | LnHardLink | HardUnlink | PrintPermitted | ChangePermitted.

(** The comparisons of [selection_command], in order. *)
Definition command_table : list (list ascii * command) :=
  [(chars "mkdir", Mkdir); (chars "print_dir", PrintDir); (chars "rmdir", Rmdir);
   (chars "touch_file", TouchFile); (chars "print_file", PrintFile);
   (chars "remove_file", RemoveFile); (chars "ln_symbol_link", LnSymbolLink);
   (chars "print_sym_link", PrintSymLink);
   (chars "read_file_from_symbol_link", ReadFileFromSymbolLink);
   (chars "remove_sym_link", RemoveSymLink); (chars "ln_hard_link", LnHardLink);
   (chars "hard_unlink", HardUnlink); (chars "print_permitted", PrintPermitted);
   (chars "change_permitted", ChangePermitted)].

Definition find_command (name_command : list ascii) : option command :=
  snd ∘ snd <$> list_find (λ x, x.1 ++ chars "
" = name_command) command_table.

Definition run_command (fuel : nat) (junk : buffer) (c : command) (name_util : path) :
    cmd return_status :=
  match c with
  | Mkdir => make_dir name_util
  | PrintDir => print_dir name_util
  | Rmdir => remove_dir name_util
  | TouchFile => touch_file name_util
  | PrintFile => print_file fuel name_util
  | RemoveFile => remove_file name_util
  | LnSymbolLink => ln_symbol_link name_util
  | PrintSymLink => print_sym_link fuel name_util
  | ReadFileFromSymbolLink => read_file_from_symbol_link fuel junk name_util
  | RemoveSymLink => remove_sym_link name_util
  | LnHardLink => ln_hard_link name_util
  | HardUnlink => hard_unlink name_util
  | PrintPermitted => print_permitted name_util
  | ChangePermitted => change_permitted name_util
  end.

Definition selection_command (fuel : nat) (junk : buffer) (name_command : list ascii)
    (name_util : path) : cmd return_status :=
  match find_command name_command with
  | Some c => run_command fuel junk c name_util
  | None => mret ERROR_HAS_OCCURRED
  end.

(** [main] with arguments [args] behind the program's name. *)
Definition main (fuel : nat) (junk : buffer) (exe : list ascii) (args : list path) : cmd Z :=
  match args with
  | [name_util] =>
      ret ← selection_command fuel junk (get_name_command exe) name_util;
      mret (match ret with OKEY => 0 | ERROR_HAS_OCCURRED => -1 end)%Z
  | _ => mret 1%Z
  end.

(** ** Correctness *)

(** A command that succeeds changes the world as its call does. *)
Lemma syscall_may {A} c p (f : world → option (A * world)) w x w' :
  may e c p = true → f w = Some (x, w') → syscall c p f w = Some (Some x, w').
Proof. intros H Hf. unfold syscall. by rewrite H Hf. Qed.
Lemma syscall_fails {A} c p (f : world → option (A * world)) w :
  may e c p = false ∨ f w = None → syscall c p f w = Some (None, w).
Proof. intros [H|H]; unfold syscall; rewrite H; [done|]. by destruct (may e c p). Qed.

(** [stat] follows links, so it never reports one. *)
Lemma follow_not_link fuel p q w i n :
  follow fuel p w = Some q → lookup_name q w = Some (i, n) → S_ISLNK (kind n) = false.
Proof.
  revert p. induction fuel as [|fuel IH]; intros p; simpl; [done|].
  destruct (lookup_name p w) as [[j [k mo nl]]|] eqn:Hp.
  - destruct k as [b| |t]; [| |by apply IH]; intros [= <-]; rewrite Hp; by intros [= _ <-].
  - intros [= <-]. by rewrite Hp.
Qed.

Lemma is_sym_link_fails p w : is_sym_link p w = Some (ERROR_HAS_OCCURRED, w).
Proof.
  unfold is_sym_link, is_kind, stat, syscall, mbind, cmd_bind.
  destruct (may e Cstat p); [|done].
  destruct (follow MAX_LINKS p w) as [q|] eqn:Hq; [|done]. cbn [option_bind].
  destruct (lookup_name q w) as [[i n]|] eqn:Hn; [|done]. cbn.
  by rewrite (follow_not_link _ _ _ _ _ _ Hq Hn).
Qed.

(** The three commands on symbolic links never do anything but fail:
    [is_sym_link] asks [stat], which follows links, not [lstat]. *)
Theorem sym_link_commands_fail fuel junk c p w :
  c ∈ [PrintSymLink; ReadFileFromSymbolLink; RemoveSymLink] →
  run_command fuel junk c p w = Some (ERROR_HAS_OCCURRED, w).
Proof.
  intros Hc. assert (is_sym_link p w = Some (ERROR_HAS_OCCURRED, w)) as E by apply is_sym_link_fails.
  rewrite !elem_of_cons in Hc. destruct Hc as [->|[->|[->|[]%not_elem_of_nil]]]; simpl;
    unfold print_sym_link, read_file_from_symbol_link, remove_sym_link, mbind, cmd_bind;
    by rewrite E.
Qed.

(** *** Names *)

Lemma find_command_Some name c :
  find_command (name ++ chars "
") = Some c → (name, c) ∈ command_table.
Proof.
  unfold find_command. intros ([i [n c']] & Hf & ->)%fmap_Some.
  apply list_find_Some in Hf as (Hi & Heq & _). simpl in Heq. apply app_inj_tail in Heq as [-> _].
  by eapply list_elem_of_lookup_2.
Qed.

(** A command is found under its own name exactly when that has at most 15
    characters; two of them are found under no name at all. *)
Theorem commands_by_name exe :
  (∀ c, find_command (get_name_command exe) = Some c →
     (take 15 exe, c) ∈ command_table ∧ c ≠ ReadFileFromSymbolLink ∧ c ≠ ChangePermitted) ∧
  Forall (λ x, find_command (get_name_command x.1) =
               if decide (length x.1 ≤ 15) then Some x.2 else None) command_table.
Proof.
  split; [|by repeat constructor].
  intros c Hc. apply find_command_Some in Hc. split; [done|].
  assert (forallb (λ x, negb (length x.1 <=? 15) ||
            match x.2 with ReadFileFromSymbolLink | ChangePermitted => false | _ => true end)
            command_table = true) as Hall by by vm_compute.
  rewrite forallb_forall in Hall. apply list_elem_of_In in Hc. apply Hall in Hc. cbn [fst snd] in Hc.
  assert (length (take (TASK_COMM_LEN - 1) exe) <=? 15 = true) as Hl.
  { apply Nat.leb_le. rewrite length_take. unfold TASK_COMM_LEN. lia. }
  rewrite Hl in Hc. by destruct c.
Qed.

(** *** Files *)

(** [fwrite] makes progress: everything is written, in at most as many calls
    as there are bytes. *)
Lemma write_loop_spec fuel k buffer sum size w :
  (∀ j, 0 < takes e j) → sum ≤ size → size ≤ length buffer → size - sum < fuel →
  ∃ k', write_loop fuel k buffer sum size w =
    Some ((OKEY, k'), World (inodes w) (names w) (new_inode w)
                        (out w ++ take (size - sum) (drop sum buffer))).
Proof.
  intros Ht. revert k sum w. induction fuel as [|fuel IH]; intros k sum w Hs Hb Hf; [lia|].
  cbn [write_loop]. destruct (decide (sum < size)) as [Hlt|Hge]; last first.
  { exists k. replace (size - sum) with 0 by lia. rewrite take_0 app_nil_r. by destruct w. }
  set (n := Nat.min (takes e k) (size - sum)).
  assert (0 < n ≤ size - sum) as Hn by (specialize (Ht k); lia).
  unfold mbind, cmd_bind, print. cbn [fst snd].
  destruct (IH (S k) (sum + n) (World (inodes w) (names w) (new_inode w)
              (out w ++ take n (drop sum buffer)))) as (k' & ->); [lia..|].
  exists k'. cbn [inodes names new_inode out]. do 2 f_equal. rewrite -app_assoc. do 2 f_equal.
  replace (size - sum) with (n + (size - (sum + n))) by lia.
  rewrite -drop_drop. apply take_take_drop.
Qed.

(** If standard output takes nothing more, the loop never ends. *)
Lemma write_loop_forever fuel k buffer size w :
  (∀ j, takes e j = 0) → 0 < size → write_loop fuel k buffer 0 size w = None.
Proof.
  intros Ht Hs. revert k w. induction fuel as [|fuel IH]; intros k w; [done|].
  cbn [write_loop]. rewrite decide_True //. unfold mbind, cmd_bind, print. rewrite Ht /=. apply IH.
Qed.

Lemma write_file_loop_spec rounds fuel kr kw left pos bytes w :
  (∀ j, 0 < takes e j) → (∀ j, reads e j = true) → left < rounds → pos + left ≤ length bytes →
  BUFFER_SIZE < fuel →
  write_file_loop rounds fuel kr kw left pos bytes w =
    Some (OKEY, World (inodes w) (names w) (new_inode w) (out w ++ take left (drop pos bytes))).
Proof.
  intros Ht Hr. revert kr kw left pos w. induction rounds as [|rounds IH];
    intros kr kw left pos w Hl Hp Hf; [lia|].
  cbn [write_file_loop]. destruct (decide (0 < left)) as [Hlt|Hge]; last first.
  { replace left with 0 by lia. rewrite take_0 app_nil_r. by destruct w. }
  set (n := if decide (left < BUFFER_SIZE) then left else BUFFER_SIZE).
  assert (0 < n ≤ left ∧ n ≤ BUFFER_SIZE) as [Hn Hn'].
  { unfold n. destruct (decide (left < BUFFER_SIZE)); unfold BUFFER_SIZE in *; lia. }
  set (chunk := take n (drop pos bytes)).
  assert (length chunk = n) as Hc by (unfold chunk; rewrite length_take length_drop; lia).
  rewrite decide_False; [|rewrite Hr Hc; intros [?|?]; [done|lia]].
  unfold write_to_file_implements, mbind, cmd_bind. rewrite Hc.
  destruct (write_loop_spec fuel kw chunk 0 n w) as (k' & ->); [done|lia..|].
  case_decide; [done|]. rewrite IH; [|lia..]. cbn [inodes names new_inode out].
  do 2 f_equal. rewrite -app_assoc. do 2 f_equal. rewrite Nat.sub_0_r drop_0.
  rewrite take_ge; [|lia]. unfold chunk. replace left with (n + (left - n)) at 2 by lia.
  rewrite -drop_drop. apply take_take_drop.
Qed.

(** Nothing fails, and standard output takes at least a byte at a time. *)
Definition ideal : Prop :=
  (∀ c p, may e c p = true) ∧ (∀ j, 0 < takes e j) ∧ (∀ j, reads e j = true).

(** C31. [print_file] prints the position a file opened with "a+" starts at, and as
    many bytes of the file: all of it where that is the end, none where it is
    the beginning. *)
Theorem print_file_output fuel p i n b w :
  ideal → lookup_name p w = Some (i, n) → kind n = KReg b →
  start_pos e (length b) ≤ length b → BUFFER_SIZE < fuel →
  print_file fuel p w =
    Some (OKEY, World (inodes w) (names w) (new_inode w)
                  (out w ++ chars (pretty (Z.of_nat (start_pos e (length b)))) ++
                   take (start_pos e (length b)) b)).
Proof.
  intros (Hmay & Ht & Hr) Hp Hk Hs Hf.
  assert (follow MAX_LINKS p w = Some p) as Hfol.
  { unfold MAX_LINKS. simpl. rewrite Hp. destruct n as [k ? ?]. simpl in Hk. by subst k. }
  unfold print_file, is_file_reg, is_kind, stat, syscall, mbind, cmd_bind. rewrite Hmay.
  cbn [option_bind]. rewrite Hfol. cbn [option_bind]. rewrite Hp. cbn [option_bind]. rewrite Hk.
  cbn [S_ISREG]. unfold mret, cmd_ret. case_decide; [done|].
  unfold fopen_append, syscall, mbind. rewrite Hmay Hfol. cbn [option_bind]. rewrite Hp Hk.
  unfold show_file, write_file, mbind, cmd_bind, print. rewrite Hmay.
  rewrite write_file_loop_spec //; [|lia..]. unfold mret, cmd_ret, fclose, syscall. rewrite Hmay.
  cbn [inodes names new_inode out]. by rewrite drop_0 -app_assoc.
Qed.

(** *** Links *)

Lemma lookup_name_Some p w i n :
  lookup_name p w = Some (i, n) ↔ names w !! p = Some i ∧ inodes w !! i = Some n.
Proof.
  unfold lookup_name. split.
  - intros (j & Hp & (m & Hi & [= -> ->])%bind_Some)%bind_Some. done.
  - intros [-> Hi]. simpl. by rewrite Hi.
Qed.

(** C32. [ln_hard_link] gives the file a second name with the same inode and counts
    it; [hard_unlink] of that name restores the file system. *)
Theorem hard_link_roundtrip p i n w :
  ideal → lookup_name p w = Some (i, n) → kind n ≠ KDir → (1 ≤ st_nlink n)%Z →
  names w !! chars "hard_link" = None →
  ∃ w', ln_hard_link p w = Some (OKEY, w') ∧
    lookup_name p w' = lookup_name (chars "hard_link") w' ∧
    lookup_name p w' = Some (i, Inode (kind n) (st_mode n) (st_nlink n + 1)) ∧
    hard_unlink (chars "hard_link") w' = Some (OKEY, w).
Proof.
  intros (Hmay & _) Hp Hk Hn Hnew. pose proof (proj1 (lookup_name_Some _ _ _ _) Hp) as [Hname Hi].
  set (n' := Inode (kind n) (st_mode n) (st_nlink n + 1)).
  set (w' := World (<[i := n']> (inodes w)) (<[chars "hard_link" := i]> (names w)) (new_inode w) (out w)).
  assert (p ≠ chars "hard_link") as Hne by (intros ->; by rewrite Hnew in Hname).
  assert (lookup_name p w' = Some (i, n')) as E1.
  { apply lookup_name_Some. cbn [names inodes w']. by rewrite lookup_insert_ne // lookup_insert_eq. }
  assert (lookup_name (chars "hard_link") w' = Some (i, n')) as E2.
  { apply lookup_name_Some. cbn [names inodes w']. by rewrite !lookup_insert_eq. }
  exists w'. split; [|split; [by rewrite E1 E2|split; [done|]]].
  - unfold ln_hard_link, link, syscall, mbind, cmd_bind. rewrite Hmay Hp. cbn [option_bind].
    rewrite Hnew. by destruct (kind n) eqn:E.
  - unfold hard_unlink, unlink, syscall, mbind, cmd_bind. rewrite Hmay. unfold unlink_name.
    rewrite E2. cbn [mbind option_bind kind n'].
    destruct (kind n) eqn:E; try done; unfold drop_name; cbn [st_nlink st_mode kind n'];
      (rewrite decide_False; [|lia]); cbn [inodes names new_inode out w'];
      rewrite insert_insert_eq delete_insert_id // Z.add_simpl_r; destruct n, w; cbn in *; subst;
      by rewrite insert_id.
Qed.

(** *** Permissions *)

(** Ten characters, none of them a terminator. *)
Lemma get_permissions_full n : length (get_permissions n) = 10 ∧ no_nul (get_permissions n).
Proof.
  split; [done|]. unfold get_permissions, flag, no_nul.
  repeat case_decide; apply (bool_decide_unpack _); by vm_compute.
Qed.

(** The string has no terminator: if the file exists, printing it reads
    behind the array, whatever the permissions are. *)
Theorem print_permitted_undefined p q i n w :
  may e Cstat p = true → follow MAX_LINKS p w = Some q → lookup_name q w = Some (i, n) →
  print_permitted p w = None.
Proof.
  intros Hmay Hq Hn. unfold print_permitted, stat, syscall, mbind, cmd_bind. rewrite Hmay Hq.
  cbn [option_bind]. rewrite Hn. cbn [option_bind]. unfold cstr.
  destruct (get_permissions_full n) as [_ Hfull]. by rewrite strlen_full.
Qed.

(** The mode set is never 0777, although that is the constant's name. *)
Lemma change_permitted_mode p i n w :
  ideal → (0 ≤ rand e)%Z → lookup_name p w = Some (i, n) → S_ISLNK (kind n) = false →
  ∃ mode, change_permitted p w = Some (OKEY, set_inode i (Inode (kind n) mode (st_nlink n)) w) ∧
    (0 ≤ mode < ALL_FOR_ALL)%Z.
Proof.
  intros (Hmay & _) Hr Hp Hk. exists (rand e `rem` ALL_FOR_ALL)%Z.
  split; [|apply Z.rem_bound_pos; [done|by vm_compute]].
  assert (follow MAX_LINKS p w = Some p) as Hfol.
  { unfold MAX_LINKS. simpl. rewrite Hp. by destruct n as [[] ? ?]. }
  unfold change_permitted, stat, chmod, syscall, mbind, cmd_bind. rewrite !Hmay Hfol.
  cbn [option_bind]. rewrite Hp. cbn [option_bind]. rewrite Hfol. cbn [option_bind]. by rewrite Hp.
Qed.

End calls.

(** ** Witnesses *)

Definition example_env : env :=
  Env (λ _ _, true) (λ _, []) (λ size, size) (λ _, true) (λ _, 100) 18 1000.
Definition example_name : path := chars "notes".
Definition example_world : world :=
  World {[0 := Inode (KReg (chars "hello")) 420 1; 1 := Inode (KLnk (chars "notes")) 511 1]}
    {[chars "notes" := 0; chars "symbol_link" := 1]} 2 [].

Lemma example_env_ideal : ideal example_env.
Proof. split; [done|]. split; [|done]. intros j. simpl. lia. Qed.

(** A link to an existing file. *)
Lemma sym_link_commands_fail_witness :
  run_command example_env 300 [] RemoveSymLink (chars "symbol_link") example_world =
    Some (ERROR_HAS_OCCURRED, example_world).
Proof. apply sym_link_commands_fail. do 2 right. left. Defined.

Lemma print_file_output_witness :
  print_file example_env 300 example_name example_world =
    Some (OKEY, World (inodes example_world) (names example_world) 2 (chars "5hello")).
Proof.
  apply (print_file_output example_env 300 example_name 0
           (Inode (KReg (chars "hello")) 420 1) (chars "hello") example_world).
  - apply example_env_ideal.
  - done.
  - done.
  - done.
  - by apply Nat.ltb_lt.
Defined.

Lemma hard_link_roundtrip_witness :
  ∃ w', ln_hard_link example_env example_name example_world = Some (OKEY, w') ∧
    lookup_name example_name w' = lookup_name (chars "hard_link") w' ∧
    lookup_name example_name w' = Some (0, Inode (KReg (chars "hello")) 420 (1 + 1)) ∧
    hard_unlink example_env (chars "hard_link") w' = Some (OKEY, example_world).
Proof.
  apply (hard_link_roundtrip example_env example_name 0 (Inode (KReg (chars "hello")) 420 1)
           example_world).
  - apply example_env_ideal.
  - done.
  - done.
  - done.
  - done.
Defined.

Lemma print_permitted_undefined_witness :
  print_permitted example_env (chars "symbol_link") example_world = None.
Proof.
  apply (print_permitted_undefined example_env _ example_name 0
           (Inode (KReg (chars "hello")) 420 1)); done.
Defined.
