(* ===== verification/SetEffects.v ===== *)
(** * SetEffects: what the file commands do to the file system

    The commands of [SetCommands] that change the file system, from [main] and
    the name the program is started under to the exit status: each does to the
    names and inodes exactly what [effect], written without the system calls,
    says, or reports a failure and changes nothing. *)
From stdpp Require Import base gmap list numbers strings.
From iris.prelude Require Import prelude.
From Stdlib Require Import Ascii.
From S2P Require Import Prelude CString SetCommands.
#[local] Open Scope nat_scope.

(** A new file under the name [p]. *)
Definition create (p : path) (k : file_kind) (mode links : Z) (w : world) : world :=
  World (<[new_inode w := Inode k mode links]> (inodes w)) (<[p := new_inode w]> (names w))
    (S (new_inode w)) (out w).

(** The name [p] goes; the file [i] goes with its last name. *)
Definition forget (p : path) (i : nat) (w : world) : world :=
  World
    match inodes w !! i with
    | Some (Inode KDir _ _) | None => delete i (inodes w)
    | Some (Inode k mode links) =>
        if decide (links ≤ 1)%Z then delete i (inodes w)
        else <[i := Inode k mode (links - 1)]> (inodes w)
    end
    (delete p (names w)) (new_inode w) (out w).

(** A second name [p] for the file [i]. *)
Definition share (p : path) (i : nat) (w : world) : world :=
  World
    match inodes w !! i with
    | Some n => <[i := Inode (kind n) (st_mode n) (st_nlink n + 1)]> (inodes w)
    | None => inodes w
    end
    (<[p := i]> (names w)) (new_inode w) (out w).

(** Is there anything under the name [p], is it a directory, and if so an
    empty one? *)
Definition taken (p : path) (w : world) : bool := match names w !! p with Some _ => true | None => false end.
Definition directory (i : nat) (w : world) : bool :=
  match inodes w !! i with Some (Inode KDir _ _) => true | _ => false end.

(** The commands that change the file system: what each makes of it; [None]
    where it has to fail.  [umask] is that of the process. *)
Definition effect (umask : Z) (c : command) (p : path) (w : world) : option world :=
  match c with
  | Mkdir => if taken p w then None else Some (create p KDir (Z.ldiff DEFAULT_DIR umask) 2 w)
  | Rmdir =>
      '(i, _) ← lookup_name p w;
      if directory i w && empty_dir p w then Some (forget p i w) else None
  | TouchFile =>
      q ← follow MAX_LINKS p w;
      match lookup_name q w with
      | Some (_, n) => if S_ISREG (kind n) then Some w else None
      | None => Some (create q (KReg []) (Z.ldiff 438 umask) 1 w)
      end
  | RemoveFile =>
      '(i, _) ← lookup_name p w;
      if directory i w && negb (empty_dir p w) then None else Some (forget p i w)
  | LnSymbolLink =>
      if taken (chars "symbol_link") w then None
      else Some (create (chars "symbol_link") (KLnk p) ALL_FOR_ALL 1 w)
  | LnHardLink =>
      '(i, _) ← lookup_name p w;
      if directory i w || taken (chars "hard_link") w then None else Some (share (chars "hard_link") i w)
  | HardUnlink =>
      '(i, _) ← lookup_name p w;
      if directory i w then None else Some (forget p i w)
  | _ => Some w
  end.

(** The commands, by name. *)
Definition changing : list (list ascii * command) :=
  [(chars "mkdir", Mkdir); (chars "rmdir", Rmdir); (chars "touch_file", TouchFile);
   (chars "remove_file", RemoveFile); (chars "ln_symbol_link", LnSymbolLink);
   (chars "ln_hard_link", LnHardLink); (chars "hard_unlink", HardUnlink)].

(** The exit status with the file system it leaves. *)
Definition exit_with (w : world) (r : option world) : option (Z * world) :=
  match r with Some w' => Some (0%Z, w') | None => Some ((-1)%Z, w) end.

Section effects.
Context (e : env) (Hideal : ∀ c p, may e c p = true).

Lemma syscall_ideal {A} c p (f : world → option (A * world)) w :
  syscall e c p f w = match f w with Some (x, w') => Some (Some x, w') | None => Some (None, w) end.
Proof using Hideal. unfold syscall. by rewrite Hideal. Qed.

Lemma lookup_directory p w i n :
  lookup_name p w = Some (i, n) →
  inodes w !! i = Some n ∧ directory i w = match kind n with KDir => true | _ => false end.
Proof.
  intros [_ Hi]%lookup_name_Some. split; [done|]. unfold directory. rewrite Hi. by destruct n as [[]].
Qed.

(** What a command that makes one call returns. *)
Lemma one_call (c : cmd (option unit)) (f : world → option (unit * world)) w :
  c w = match f w with Some (x, w') => Some (Some x, w') | None => Some (None, w) end →
  (ret ← c; mret (status_of ret)) w =
  match f w with Some (_, w') => Some (OKEY, w') | None => Some (ERROR_HAS_OCCURRED, w) end.
Proof. intros E. unfold mbind, cmd_bind. rewrite E. by destruct (f w) as [[[] w']|]. Qed.

(** [run_command] on the commands of the table. *)
Lemma command_effect fuel junk c p w :
  c ∈ changing.*2 →
  run_command e fuel junk c p w =
  match effect (umask e) c p w with Some w' => Some (OKEY, w') | None => Some (ERROR_HAS_OCCURRED, w) end.
Proof using Hideal.
  cbn [changing fmap list_fmap snd]. rewrite !elem_of_cons.
  intros [->|[->|[->|[->|[->|[->|[->|[]%not_elem_of_nil]]]]]]]; cbn [run_command effect].
  - unfold make_dir. rewrite (one_call _ _ _ (syscall_ideal _ _ _ w)). unfold taken.
    by destruct (names w !! p).
  - unfold remove_dir. rewrite (one_call _ _ _ (syscall_ideal _ _ _ w)).
    destruct (lookup_name p w) as [[i n]|] eqn:Hp; [|done]. cbn [mbind option_bind].
    destruct (lookup_directory _ _ _ _ Hp) as [Hi ->]. unfold drop_dir, forget. rewrite Hi.
    destruct n as [[b| |t] m l]; cbn; [done| |done]. by destruct (empty_dir p w).
  - unfold touch_file, fopen_append, mbind, cmd_bind. rewrite syscall_ideal. unfold mbind, option_bind.
    destruct (follow MAX_LINKS p w) as [q|]; [|done].
    destruct (lookup_name q w) as [[i n]|]; [destruct (kind n); try done|];
      unfold fclose; by rewrite syscall_ideal.
  - unfold remove_file. rewrite (one_call _ _ _ (syscall_ideal _ _ _ w)).
    destruct (lookup_name p w) as [[i n]|] eqn:Hp; [|done]. cbn [mbind option_bind].
    destruct (lookup_directory _ _ _ _ Hp) as [Hi ->]. unfold drop_dir, drop_name, forget. rewrite Hi.
    destruct n as [[b| |t] m l]; cbn; [done| |done]. by destruct (empty_dir p w).
  - unfold ln_symbol_link. rewrite (one_call _ _ _ (syscall_ideal _ _ _ w)). unfold taken.
    by destruct (names w !! _).
  - unfold ln_hard_link. rewrite (one_call _ _ _ (syscall_ideal _ _ _ w)).
    destruct (lookup_name p w) as [[i n]|] eqn:Hp; [|done]. cbn [mbind option_bind].
    destruct (lookup_directory _ _ _ _ Hp) as [Hi ->]. unfold share, taken. rewrite Hi.
    generalize (chars "hard_link" : path). intros hl.
    by destruct n as [[b| |t] m l]; cbn; destruct (names w !! hl).
  - unfold hard_unlink. rewrite (one_call _ _ _ (syscall_ideal _ _ _ w)). unfold unlink_name.
    destruct (lookup_name p w) as [[i n]|] eqn:Hp; [|done]. cbn [mbind option_bind].
    destruct (lookup_directory _ _ _ _ Hp) as [Hi ->]. unfold drop_name, forget. rewrite Hi.
    by destruct n as [[b| |t] m l].
Qed.

(** C11. The seven commands that change the file system, started under their
    names with one argument, where permissions and the system allow every
    call: the exit status is 0 and the file system is changed as [effect] says
    (a directory with mode 0775 or an empty file with 0666, less the umask; a
    name taken away, and the file with its last one; a link named symbol_link
    or hard_link), or it is -1, [effect] says that it has to fail, and nothing
    has changed. *)
Theorem commands_effects fuel junk name c p w :
  (name, c) ∈ changing →
  main e fuel junk name [p] w = exit_with w (effect (umask e) c p w).
Proof using Hideal.
  intros Hc. assert (find_command (get_name_command name) = Some c) as Hfind.
  { assert (Forall (λ x, find_command (get_name_command x.1) = Some x.2) changing) as H
      by by repeat constructor.
    rewrite Forall_forall in H. by apply (H (name, c)). }
  unfold main, selection_command, mbind, cmd_bind. rewrite Hfind command_effect.
  - by destruct (effect (umask e) c p w).
  - by apply (list_elem_of_fmap_2 snd _ (name, c)).
Qed.

End effects.

(** A directory is made, and removed by [remove] only when it is empty. *)
Lemma commands_effects_witness :
  main example_env 0 [] (chars "mkdir") [chars "notes"] example_world = Some ((-1)%Z, example_world) ∧
  ∃ w, main example_env 0 [] (chars "mkdir") [chars "d"] example_world = Some (0%Z, w) ∧
    lookup_name (chars "d") w = Some (2, Inode KDir 493 2).
Proof.
  split.
  - etransitivity; [apply (commands_effects example_env (λ _ _, eq_refl) 0 [] _ Mkdir)|reflexivity].
    left.
  - eexists. split.
    + etransitivity; [apply (commands_effects example_env (λ _ _, eq_refl) 0 [] _ Mkdir)|reflexivity].
      left.
    + reflexivity.
Defined.
