(* ===== verification/MyThread.v ===== *)
(** * MyThread: threads on [clone]

    [semestr2/Task1/Task1_6/mythread_create.c]: [my_thread_create] starts a
    thread with [clone], [my_thread_join] waits for its value.  The two sides
    meet through three members of a structure on the new thread's stack.  A
    step is one access to it.  The last statements of [my_thread_create]
    ([munmap()] without arguments and an [if] without a condition) are not C:
    the model of the function stops in front of them.  [my_thread_join] is
    modelled for a caller that has the structure of a thread that was started;
    [main] never calls it. *)
From stdpp Require Import base list.
From iris.prelude Require Import prelude.
From S2P Require Import Prelude Steps.
#[local] Open Scope nat_scope.

Section threads.
Context {Arg Val : Type} (start_routine : Arg → Val).

(** [_my_thread_struct_t]; [None] is a null pointer. *)
Record my_thread_struct : Type := Struct {
  arg : Arg;
  ret_val : option Val;
  joined : bool;
  exited : bool
}.

(** [my_thread_start_up]. *)
Inductive wpc : Type :=
| WRun                                   (* start_routine(arg) *)
| WStore (v : Val)                       (* ret_val = ... *)
| WExited                                (* exited = true *)
| WWait                                  (* while (!joined) sleep(1) *)
| WDone.

(** The thread that calls [my_thread_create] or [my_thread_join]. *)
Inductive cpc : Type :=
| CClone                                 (* clone *)
| CCreated                               (* create: while (!exited) sleep(1) *)
| CUnfinished                            (* create: munmap() *)
| CJoin                                  (* join: while (!exited) sleep(1) *)
| CRead                                  (* *ret_val = my_thread->ret_val *)
| CJoined (v : option Val)               (* joined = true *)
| CDone (v : option Val)
| CFailed.                               (* EXC_CREATE_CLONE *)

(** [worker] is [None] until [clone] has succeeded. *)
Record state : Type := State {
  thread : my_thread_struct;
  worker : option wpc;
  caller : cpc
}.

(** After [my_thread_create] has filled the structure. *)
Definition init (a : Arg) : state := State (Struct a None false false) None CClone.

(** A thread that has been started, and a caller of [my_thread_join]. *)
Definition started (a : Arg) : state := State (Struct a None false false) (Some WRun) CJoin.

Definition my_thread_start_up (s : state) : outcome state :=
  let t := thread s in
  possible (worker s) (λ w,
  match w with
  | WRun => Next (State t (Some (WStore (start_routine (arg t)))) (caller s))
  | WStore v => Next (State (Struct (arg t) (Some v) (joined t) (exited t)) (Some WExited) (caller s))
  | WExited => Next (State (Struct (arg t) (ret_val t) (joined t) true) (Some WWait) (caller s))
  | WWait => if joined t then Next (State t (Some WDone) (caller s)) else Next s
  | WDone => Disabled
  end).

(** [my_thread_create] from [clone] on, through the loop behind it. *)
Definition my_thread_create (clone_ok : bool) (s : state) : outcome state :=
  match caller s with
  | CClone =>
      if clone_ok then Next (State (thread s) (Some WRun) CCreated)
      else Next (State (thread s) (worker s) CFailed)
  | CCreated => if exited (thread s) then Next (State (thread s) (worker s) CUnfinished) else Next s
  | _ => Disabled
  end.

Definition my_thread_join (s : state) : outcome state :=
  let t := thread s in
  match caller s with
  | CJoin => if exited t then Next (State t (worker s) CRead) else Next s
  | CRead => Next (State t (worker s) (CJoined (ret_val t)))
  | CJoined v => Next (State (Struct (arg t) (ret_val t) true (exited t)) (worker s) (CDone v))
  | _ => Disabled
  end.

Inductive label : Set := Worker | Caller (clone_ok : bool).

Definition step (l : label) (s : state) : outcome state :=
  match l with
  | Worker => my_thread_start_up s
  | Caller clone_ok =>
      match caller s with CClone | CCreated => my_thread_create clone_ok s | _ => my_thread_join s end
  end.

(** A thread that cannot step is passed over. *)
Definition exec (l : label) (s : state) : state :=
  match step l s with Next s' => s' | _ => s end.

(** ** The handshake *)

(** What the members of the structure say about the two sides. *)
Definition inv (s : state) : Prop :=
  let t := thread s in
  (match caller s with CClone | CFailed => worker s = None | _ => worker s ≠ None end) ∧
  (worker s = None → exited t = false) ∧
  (∀ v, worker s = Some (WStore v) → v = start_routine (arg t)) ∧
  (exited t = true ∨ worker s = Some WExited → ret_val t = Some (start_routine (arg t))) ∧
  (exited t = true ↔ worker s = Some WWait ∨ worker s = Some WDone) ∧
  (match caller s with CUnfinished | CRead | CJoined _ | CDone _ => exited t = true | _ => True end) ∧
  (match caller s with CJoined v | CDone v => v = Some (start_routine (arg t)) | _ => True end) ∧
  (joined t = true ↔ ∃ v, caller s = CDone v) ∧
  (worker s = Some WDone → joined t = true).

Lemma inv_init a : inv (init a) ∧ inv (started a).
Proof. split; unfold inv; cbn; naive_solver. Qed.

Lemma inv_step l s s' : inv s → step l s = Next s' → inv s'.
Proof.
  destruct s as [[a r j e] w c]. unfold inv, step, my_thread_create, my_thread_join, my_thread_start_up.
  cbn. intros (H1 & H2 & H3 & H4 & H5 & H6 & H7 & H8 & H9) Hs.
  destruct l as [|ok].
  - destruct w as [w|]; [|done]. destruct w; cbn in Hs; try done; [| | |destruct j];
      injection Hs as <-; cbn; destruct c; naive_solver.
  - destruct c; cbn in Hs; try done; try (destruct ok); try (destruct e); injection Hs as <-; cbn;
      naive_solver.
Qed.

Lemma exec_cases l s : (exec l s = s) ∨ step l s = Next (exec l s).
Proof. unfold exec. destruct (step l s); auto. Qed.

Lemma inv_exec l s : inv s → inv (exec l s).
Proof. intros Hs. destruct (exec_cases l s) as [->|E]; [done|by eapply inv_step]. Qed.

Lemma arg_exec l s : arg (thread (exec l s)) = arg (thread s).
Proof.
  unfold exec, step, my_thread_create, my_thread_join, my_thread_start_up.
  destruct l as [|ok]; [destruct (worker s) as [[]|]|destruct (caller s)]; cbn; try done;
    try (by destruct (joined _)); try (by destruct (exited _)); by destruct ok.
Qed.

(** Both sides have ended, or [clone] has failed, or [my_thread_create] has got
    to its end and the thread waits to be joined. *)
Definition final (s : state) : Prop :=
  (caller s = CFailed ∧ worker s = None) ∨ (∃ v, caller s = CDone v ∧ worker s = Some WDone) ∨
  (caller s = CUnfinished ∧ worker s = Some WWait ∧ joined (thread s) = false).

(** The steps left, apart from waiting. *)
Definition measure (s : state) : nat :=
  match worker s with
  | None => 5 | Some WRun => 4 | Some (WStore _) => 3 | Some WExited => 2 | Some WWait => 1 | Some WDone => 0
  end +
  match caller s with
  | CClone => 5 | CCreated => 4 | CJoin => 3 | CRead => 2 | CJoined _ => 1 | CDone _ | CFailed | CUnfinished => 0
  end.

Lemma final_exec l s : final s → final (exec l s).
Proof.
  intros Hf. enough (exec l s = s) as -> by done. destruct s as [t w c].
  unfold exec, step. destruct Hf as [[Hc Hw]|[(v & Hc & Hw)|(Hc & Hw & Hj)]];
    cbn in Hc, Hw; subst; destruct l; cbn; try done. by rewrite Hj.
Qed.

Lemma exec_lower l s : inv s → exec l s = s ∨ measure (exec l s) < measure s.
Proof.
  intros (H1 & _). destruct s as [t w c]. cbn in H1.
  unfold exec, step, my_thread_create, my_thread_join, my_thread_start_up.
  destruct l as [|ok]; [destruct w as [[]|]|destruct c]; cbn; auto;
    try (destruct (joined t)); try (destruct (exited t)); try (destruct ok); auto;
    right; unfold measure; cbn; try lia; rewrite H1; lia.
Qed.

Lemma progress ok s :
  inv s → final s ∨ ∃ l, l ∈ [Worker; Caller ok] ∧ measure (exec l s) < measure s.
Proof.
  destruct s as [[a r j e] w c]. unfold inv, final. cbn. intros (H1 & H2 & _ & _ & H5 & H6 & _ & H8 & H9).
  assert (∀ w', w = Some w' → e = false →
    measure (exec Worker (State (Struct a r j e) w c)) < measure (State (Struct a r j e) w c)) as Hwork.
  { intros w' -> ->. unfold measure. destruct w' as [|v| | |]; cbn; try lia; naive_solver. }
  destruct c as [| | | | |v|v|].
  - right. exists (Caller ok). split; [set_solver|]. rewrite H1. destruct ok; cbn; lia.
  - right. destruct w as [w'|]; [|done]. destruct e; [exists (Caller ok)|exists Worker];
      (split; [set_solver|]); [cbn; lia|by eapply Hwork].
  - assert (j = false) as ->.
    { destruct j; [|done]. destruct H8 as [H8 _]. by destruct (H8 eq_refl). }
    left. right. right. split; [done|]. apply H5 in H6 as [->| ->]; [done|]. by specialize (H9 eq_refl).
  - right. destruct w as [w'|]; [|done]. destruct e; [exists (Caller ok)|exists Worker];
      (split; [set_solver|]); [cbn; lia|by eapply Hwork].
  - right. exists (Caller ok). split; [set_solver|]. cbn. lia.
  - right. exists (Caller ok). split; [set_solver|]. cbn. lia.
  - assert (j = true) as -> by (apply H8; eauto). apply H5 in H6 as [->| ->]; [right|left; right; left; eauto].
    exists Worker. split; [set_solver|]. cbn. lia.
  - by left; left.
Qed.

Lemma arg_exec_all sched s : arg (thread (exec_all exec sched s)) = arg (thread s).
Proof.
  unfold exec_all. revert s. induction sched as [|l sched IH]; intros s; [done|]. cbn.
  by rewrite IH arg_exec.
Qed.

(** A call of [my_thread_create] does not turn into one of [my_thread_join], nor
    the other way round. *)
Definition creating (s : state) : bool :=
  match caller s with CClone | CCreated | CUnfinished | CFailed => true | _ => false end.

Lemma creating_exec_all sched s : creating (exec_all exec sched s) = creating s.
Proof.
  unfold exec_all. revert s. induction sched as [|l sched IH]; intros s; [done|]. cbn. rewrite IH.
  unfold creating, exec, step, my_thread_create, my_thread_join, my_thread_start_up.
  destruct l as [|ok]; [destruct (worker s) as [[]|]|destruct (caller s) eqn:E]; cbn; rewrite ?E; try done;
    try (by destruct (joined _)); try (destruct (exited _)); try destruct ok; cbn; by rewrite ?E.
Qed.

(** C23. Under any schedule that gives both threads eleven turns:
    [my_thread_join] on the structure of a thread that was started ends, with
    what the routine returned for its argument, and so does the thread; and
    [my_thread_create] gets to the statements that are not C no earlier than
    its thread's routine has returned, and leaves the thread waiting to be
    joined (or [clone] has failed, and there is no thread). *)
Theorem join_terminates ok a turns :
  Forall (λ turn, Worker ∈ turn ∧ Caller ok ∈ turn) turns → 10 < length turns →
  (let s := exec_all exec (concat turns) (started a) in
   caller s = CDone (Some (start_routine a)) ∧ worker s = Some WDone) ∧
  (let s := exec_all exec (concat turns) (init a) in
   (caller s = CFailed ∧ worker s = None) ∨
   (caller s = CUnfinished ∧ worker s = Some WWait ∧ ret_val (thread s) = Some (start_routine a))).
Proof.
  intros Hturns Hlen.
  assert (∀ s0, inv s0 → measure s0 ≤ 10 → arg (thread s0) = a →
    let s := exec_all exec (concat turns) s0 in final s ∧ inv s ∧ arg (thread s) = a) as H.
  { intros s0 Hs0 Hm Ha s. split_and!.
    - apply (fair_termination exec inv final measure [Worker; Caller ok] inv_exec final_exec exec_lower
               (progress ok)); [done| |lia].
      eapply Forall_impl; [exact Hturns|]. intros turn [H1 H2] l. set_solver.
    - by apply (exec_all_inv exec inv inv_exec).
    - by rewrite -Ha arg_exec_all. }
  destruct (inv_init a) as [Hi Hs]. split.
  - intros s. destruct (H (started a) Hs) as (Hf & Hinv & Ha); [unfold measure; cbn; lia|done|].
    fold s in Hf, Hinv, Ha. pose proof (creating_exec_all (concat turns) (started a)) as Hc. fold s in Hc.
    destruct Hf as [[E _]|[(v & E & Hw)|[E _]]]; [unfold creating in Hc; by rewrite E in Hc| |
      unfold creating in Hc; by rewrite E in Hc].
    destruct Hinv as (_ & _ & _ & _ & _ & _ & Hv & _). rewrite E in Hv. by rewrite E Hv Ha.
  - intros s. destruct (H (init a) Hi) as (Hf & Hinv & Ha); [unfold measure; cbn; lia|done|].
    fold s in Hf, Hinv, Ha. pose proof (creating_exec_all (concat turns) (init a)) as Hc. fold s in Hc.
    destruct Hf as [?|[(v & E & Hw)|(E & Hw & _)]]; [by left|unfold creating in Hc; by rewrite E in Hc|right].
    split_and!; [done..|]. destruct Hinv as (_ & _ & _ & Hr & _ & He & _). rewrite E in He.
    rewrite -Ha. apply Hr. by left.
Qed.

(** [main] creates threads for ever and never gets to [my_thread_join]: a
    thread nobody joins does not end, however long it runs. *)
Lemma unjoined_never_ends n s :
  joined (thread s) = false → worker s ≠ Some WDone →
  worker (exec_all exec (replicate n Worker) s) ≠ Some WDone.
Proof.
  revert s. induction n as [|n IH]; intros [[a r j e] w c] Hj Hw; [done|]. cbn in Hj, Hw. subst j.
  cbn. apply IH; by destruct w as [[]|].
Qed.

End threads.

(** Eleven turns in which the caller is scheduled twice as often. *)
Lemma join_terminates_witness :
  let turns := replicate 11 [Caller true; Worker; Caller true] in
  (let s := exec_all (exec (λ n, n * n)) (concat turns) (started 7) in
   caller s = CDone (Some (7 * 7)) ∧ worker s = Some WDone) ∧
  (let s := exec_all (exec (λ n, n * n)) (concat turns) (init 7) in
   (caller s = CFailed ∧ worker s = None) ∨
   (caller s = CUnfinished ∧ worker s = Some WWait ∧ ret_val (thread s) = Some (7 * 7))).
Proof.
  apply (join_terminates (λ n, n * n) true 7 (replicate 11 [Caller true; Worker; Caller true])).
  - apply Forall_replicate. split; set_solver.
  - rewrite length_replicate. lia.
Defined.
