(* ===== verification/MyThreadMain.v ===== *)
(** * MyThreadMain: the stack of a thread

    The first half of [my_thread_create] in
    [semestr2/Task1/Task1_6/mythread_create.c]: a file for the stack, its
    mapping, the structure at its end, and [clone].  None of the answers of
    [open], [ftruncate] and [mmap] is looked at; the theorem says when that is
    undefined.  What comes behind [clone] is in [MyThread.v].  The endless loop
    of [main] is not modelled: it depends on the [munmap] at the end of
    [my_thread_create], which is not C. *)
From stdpp Require Import base gmap list numbers strings pretty.
From iris.prelude Require Import prelude.
From Stdlib Require Import ZArith.
From S2P Require Import Prelude.
#[local] Open Scope Z_scope.

Definition PAGE : Z := 4096.
Definition SIZE_STACK : Z := PAGE * 8.
Definition EXC_CREATE_CLONE : Z := 1.

(** [sizeof(_my_thread_struct_t)]: an [int], three pointers and two [bool]s,
    padded to the alignment of a pointer. *)
Definition sizeof_my_thread_struct : Z := 40.

(** What the calls answer.  [mmap] fails for a descriptor that is not open. *)
Record answers : Set := Answers {
  open_ok : bool;
  empty_ok : bool;                       (* ftruncate(stack_fd, 0) *)
  grow_ok : bool;                        (* ftruncate(stack_fd, size) *)
  mmap_ok : bool;
  clone_ok : bool
}.

(** The process: the static [thread_num], and the files of its directory with
    their sizes. *)
Record process : Type := Process {
  thread_num : Z;
  files : gmap string Z
}.

(** [snprintf] into 128 characters, which hold every [int]. *)
Definition stack_file (thread_num : Z) : string := "stack-" +:+ pretty thread_num.

(** The size of the file after both [ftruncate]s. *)
Definition truncated (a : answers) (size old : Z) : Z :=
  let now := if empty_ok a then 0 else old in
  if grow_ok a then size else now.

(** The mapping, if there is one: the size of the file behind it. *)
Definition create_stack (size : Z) (num : Z) (a : answers) (p : process) : option Z * process :=
  if open_ok a then
    let now := truncated a size (default 0 (files p !! stack_file num)) in
    (if mmap_ok a then Some now else None, Process (thread_num p) (<[stack_file num := now]> (files p)))
  else (None, p).

(** Writing [n] bytes from [first] on into a mapping: without one it is
    undefined, and behind the last page of its file it is a signal. *)
Definition store (mapped : option Z) (first n : Z) : option unit :=
  size ← mapped;
  if bool_decide (0 ≤ first ∧ first + n ≤ (size + PAGE - 1) / PAGE * PAGE) then Some () else None.

(** [my_thread_create] up to [clone]: [Some (inl _)] goes on with the new
    thread, [Some (inr _)] returns the status; [None] is undefined. *)
Definition prepare (a : answers) (p : process) : option ((process + Z * process)) :=
  if bool_decide (thread_num p < INT_MAX) then
    let num := thread_num p + 1 in
    let '(child_stack, p) := create_stack SIZE_STACK num a (Process num (files p)) in
    (* memset *)
    _ ← store child_stack PAGE (SIZE_STACK - PAGE);
    (* the members of the structure *)
    _ ← store child_stack (SIZE_STACK - sizeof_my_thread_struct) sizeof_my_thread_struct;
    if clone_ok a then Some (inl p) else Some (inr (EXC_CREATE_CLONE, p))
  else None.

(** Writing to the end of a mapping of the whole stack. *)
Lemma store_end mapped first :
  0 ≤ first ≤ SIZE_STACK →
  is_Some (store mapped first (SIZE_STACK - first)) ↔
  ∃ size, mapped = Some size ∧ SIZE_STACK - PAGE < size.
Proof.
  intros Hf. unfold store. destruct mapped as [size|]; cbn; [|by split; [intros [? ?]|intros (? & ? & _)]].
  pose proof (Z.div_mod (size + PAGE - 1) PAGE). pose proof (Z.mod_pos_bound (size + PAGE - 1) PAGE).
  split.
  - intros [u Hu]. exists size. split; [done|]. case_bool_decide; [|done].
    unfold SIZE_STACK, PAGE in *. lia.
  - intros (? & [= <-] & Hs). rewrite bool_decide_true; [by eexists|].
    unfold SIZE_STACK, PAGE in *. split; [lia|].
    assert (8 ≤ (size + 4096 - 1) / 4096) by (apply Z.div_le_lower_bound; lia). lia.
Qed.

(** C37. Nothing of what [open], [ftruncate] and [mmap] answer is looked at, so
    up to [clone] [my_thread_create] is defined exactly when the counter of
    threads does not overflow, the file could be opened and mapped, and it
    reaches into the last page of the stack: because it could be given its
    size, or because it had it before and could not be emptied. *)
Theorem prepare_defined a p :
  is_Some (prepare a p) ↔
  thread_num p < INT_MAX ∧ open_ok a = true ∧ mmap_ok a = true ∧
  (grow_ok a = true ∨
   empty_ok a = false ∧
     ∃ old, files p !! stack_file (thread_num p + 1) = Some old ∧ SIZE_STACK - PAGE < old).
Proof.
  unfold prepare. case_bool_decide as Hi; [|split; [by intros [? ?]|tauto]].
  destruct (create_stack _ _ _ _) as [c q] eqn:E.
  assert (is_Some (prepare a p) ↔ ∃ size, c = Some size ∧ SIZE_STACK - PAGE < size) as Hp.
  { unfold prepare. rewrite bool_decide_true // E.
    rewrite -(store_end c PAGE); [|unfold SIZE_STACK, PAGE; lia].
    pose proof (store_end c (SIZE_STACK - sizeof_my_thread_struct)) as H2.
    replace (SIZE_STACK - (SIZE_STACK - sizeof_my_thread_struct)) with sizeof_my_thread_struct in H2 by lia.
    rewrite -(store_end c PAGE) in H2; [|unfold SIZE_STACK, PAGE; lia].
    destruct (store c PAGE (SIZE_STACK - PAGE)) as [u|]; cbn; [|done].
    destruct (proj2 (H2 ltac:(unfold SIZE_STACK, PAGE, sizeof_my_thread_struct; lia)) (ex_intro _ u eq_refl))
      as [u' ->]. cbn. split; [by eexists|]. destruct (clone_ok a); by eexists. }
  unfold prepare in Hp. rewrite bool_decide_true // E in Hp. rewrite Hp. clear Hp.
  unfold create_stack, truncated in E. cbn [files thread_num] in E.
  destruct (open_ok a); injection E as <- <-; [|naive_solver].
  destruct (mmap_ok a); [|naive_solver]. destruct (grow_ok a).
  - split; [by auto|]. intros _. exists SIZE_STACK. split; [done|]. unfold PAGE. lia.
  - destruct (empty_ok a).
    + split; [|naive_solver]. intros (size & [= <-] & Hs). unfold SIZE_STACK, PAGE in Hs. lia.
    + destruct (files p !! _) as [old|]; cbn.
      * split; [|naive_solver]. intros (size & [= <-] & Hs). eauto 10.
      * split; [|naive_solver]. intros (size & [= <-] & Hs). unfold SIZE_STACK, PAGE in Hs. lia.
Qed.

(** When it is defined it leaves the file. *)
Lemma prepare_leaves_file a p r :
  prepare a p = Some r → is_Some (files (match r with inl q => q | inr (_, q) => q end)
                                    !! stack_file (thread_num p + 1)).
Proof.
  intros H. unfold prepare in H. case_bool_decide; [|done]. unfold create_stack in H.
  destruct (open_ok a); [|done]. cbn in H.
  apply bind_Some in H as (u & _ & H). apply bind_Some in H as (u' & _ & H).
  destruct (clone_ok a); injection H as <-; cbn; rewrite lookup_insert_eq; by eexists.
Qed.
