(* ===== verification/ThreadStart.v ===== *)
(** * ThreadStart: creating and joining POSIX threads

    The first exercises of [semestr2/Task1]: threads that say hello
    ([Hello], from [Task1_1]), threads created for ever ([Endless], from
    [Task1_2/thread_point_d.c] to [thread_point_f.c]), a value returned through
    [pthread_join] ([Result], from [Task1_2/thread_point_b.c] and
    [thread_point_c.c]) and a structure passed to a thread ([Argument], from
    [Task1_3]).  A step is a call, or the use of what two threads share;
    whether a call works is part of its label. *)
From stdpp Require Import base list numbers.
From iris.prelude Require Import prelude.
From Stdlib Require Import Ascii.
From S2P Require Import Prelude CString Steps.
#[local] Open Scope nat_scope.

(** ** Task1_1: hello *)
Module Hello.

(** Where the four programs differ: how many threads, which one is joined
    first, and what is done about a failing [pthread_join]. *)
Inductive on_error : Set := Ignore | Remember | Fail.
Record program : Set := Program {
  COUNT_THREAD : nat;
  first_join : nat;
  join_error : on_error
}.

Definition point_a : program := Program 1 0 Ignore.
Definition point_b : program := Program 5 0 Remember.
Definition point_c : program := Program 1 0 Fail.

(** [thread_point_d.c] uses [COUNT_THREAD] and does not define it; one variable
    holds the last thread's number. *)
Definition point_d (n : nat) : program := Program n (n - 1) Fail.

Inductive mpc : Set :=
| MHello                                 (* printf *)
| MCreate (i : nat)                      (* pthread_create *)
| MJoin (i : nat)                        (* pthread_join *)
| MExit (ok : bool).

(** Who has said hello. *)
Inductive greeting : Set := FromMain | FromThread (k : nat).

#[global] Instance greeting_eq_dec : EqDecision greeting.
Proof. solve_decision. Defined.

(** [false] for a thread that has not printed yet, [true] for one that has and
    has ended. *)
Record state : Set := State {
  main_pc : mpc;
  threads : list bool;
  status_err : bool;
  out : list greeting
}.

Definition init : state := State MHello [] false [].

Section steps.
Context (p : program).

Definition main (ok : bool) (s : state) : outcome state :=
  let go m := Next (State m (threads s) (status_err s) (out s)) in
  match main_pc s with
  | MHello => Next (State (MCreate 0) (threads s) (status_err s) (out s ++ [FromMain]))
  | MCreate i =>
      if decide (i < COUNT_THREAD p) then
        if ok then Next (State (MCreate (i + 1)) (threads s ++ [false]) (status_err s) (out s))
        else go (MExit false)
      else go (MJoin (first_join p))
  | MJoin i =>
      if decide (i < COUNT_THREAD p) then
        if ok then
          match threads s !! i with Some true => go (MJoin (i + 1)) | _ => Disabled end
        else                             (* without waiting *)
          match join_error p with
          | Ignore => go (MJoin (i + 1))
          | Remember => Next (State (MJoin (i + 1)) (threads s) true (out s))
          | Fail => go (MExit false)
          end
      else go (MExit (negb (status_err s)))
  | MExit _ => Disabled
  end.

(** [my_thread] number [k]. *)
Definition my_thread (k : nat) (s : state) : outcome state :=
  match threads s !! k with
  | Some false =>
      Next (State (main_pc s) (<[k := true]> (threads s)) (status_err s) (out s ++ [FromThread k]))
  | _ => Disabled
  end.

Inductive label : Set := Main (ok : bool) | Thread (k : nat).

(** The threads end with [main]. *)
Definition step (l : label) (s : state) : outcome state :=
  match main_pc s, l with
  | MExit _, _ => Disabled
  | _, Main ok => main ok s
  | _, Thread k => my_thread k s
  end.

(** Main speaks first; a thread is heard exactly if it has ended; those in
    front of the one being joined have, unless joining failed. *)
Definition joined_to (i : nat) (s : state) : Prop :=
  length (threads s) = COUNT_THREAD p ∧
  (join_error p = Ignore ∨ status_err s = true ∨
   ∀ j, first_join p ≤ j < i → threads s !! j = Some true).

Definition inv (s : state) : Prop :=
  match main_pc s with
  | MHello => threads s = [] ∧ out s = []
  | MCreate i => length (threads s) = i ∧ i ≤ COUNT_THREAD p
  | MJoin i => joined_to i s
  | MExit ok => ok = true → joined_to (COUNT_THREAD p) s ∧ status_err s = false
  end ∧
  (∀ k, FromThread k ∈ out s ↔ threads s !! k = Some true) ∧ NoDup (out s) ∧
  (main_pc s ≠ MHello → ∃ l, out s = FromMain :: l).

Lemma hello_inv_init : inv init.
Proof.
  split; [done|]. split; [|split; [constructor|done]].
  intros k. cbn. rewrite lookup_nil. split; [by intros ?%elem_of_nil|done].
Qed.

Lemma hello_inv_main ok s s' : inv s → main ok s = Next s' → inv s'.
Proof.
  destruct s as [m ts e o]. unfold inv, main. cbn. intros (H1 & H2 & H3 & H4) Hs.
  destruct m as [|i|i|b]; [| | |done].
  - destruct H1 as [-> ->]. injection Hs as <-. cbn. split; [lia|]. split; [|split; [apply NoDup_singleton|eauto]].
    intros k. rewrite lookup_nil list_elem_of_singleton. done.
  - destruct H1 as [Hl Hi]. case_decide as Hc; [destruct ok|]; injection Hs as <-; cbn.
    + rewrite length_app /=. split; [lia|]. split; [|split; [done|auto]].
      intros k. rewrite H2 lookup_snoc_Some. split; [|by intros [[_ ?]|[_ ?]]].
      intros Hk. left. split; [by eapply lookup_lt_Some|done].
    + split; [done|]. split; [done|]. auto.
    + split; [|by auto]. split; cbn; [lia|]. right; right. intros k Hk. lia.
  - destruct H1 as [Hl Hj]. cbn in *. case_decide as Hc; [destruct ok|].
    + destruct (ts !! i) as [[]|] eqn:Hi; [|done..]. injection Hs as <-. cbn.
      split; [|by auto]. split; [done|]. destruct Hj as [Hj|[Hj|Hj]]; [by left|by right; left|right; right].
      intros j Hij. cbn. destruct (decide (j = i)) as [->|Hne]; [done|]. apply Hj. lia.
    + destruct (join_error p) eqn:Ej; injection Hs as <-; cbn; (split; [|by auto]); [..|done];
        (split; [done|]); [by left|by right; left].
    + injection Hs as <-. cbn. split; [|by auto]. intros Hb%negb_true_iff. cbn in *. split; [|done].
      split; [done|]. destruct Hj as [Hj|[Hj|Hj]]; [by left|by right; left|right; right].
      intros j Hjj. apply Hj. cbn in *. lia.
Qed.

Lemma hello_inv_thread k s s' : inv s → my_thread k s = Next s' → inv s'.
Proof.
  destruct s as [m ts e o]. unfold inv, my_thread. cbn. intros (H1 & H2 & H3 & H4) Hs.
  destruct (ts !! k) as [[]|] eqn:Hk; [done| |done]. injection Hs as <-. cbn.
  pose proof (lookup_lt_Some _ _ _ Hk) as Hlt.
  assert (∀ j, ts !! j = Some true → <[k := true]> ts !! j = Some true) as Hkeep.
  { intros j Hj. destruct (decide (j = k)) as [->|]; [by rewrite list_lookup_insert_eq|].
    by rewrite list_lookup_insert_ne. }
  assert (∀ i, joined_to i (State m ts e o) →
               joined_to i (State m (<[k := true]> ts) e (o ++ [FromThread k]))) as Hjoin.
  { intros i [Hl Hi]. split; cbn in *; [by rewrite length_insert|].
    destruct Hi as [Hi|[Hi|Hi]]; [by left|by right; left|right; right; auto]. }
  split; [|split; [|split]].
  - destruct m as [|i|i|b]; [by destruct H1 as [-> _]|by rewrite length_insert|by apply Hjoin|].
    intros Hb. destruct (H1 Hb). split; [by apply Hjoin|done].
  - intros j. rewrite elem_of_app list_elem_of_singleton H2. split.
    + intros [Hj|[= ->]]; [by apply Hkeep|by rewrite list_lookup_insert_eq].
    + destruct (decide (j = k)) as [->|Hne]; [by right|]. rewrite list_lookup_insert_ne //. by left.
  - apply NoDup_app. split; [done|]. split; [|apply NoDup_singleton].
    intros g Hg ->%list_elem_of_singleton. apply H2 in Hg. congruence.
  - intros Hm. destruct (H4 Hm) as [l ->]. by eexists.
Qed.

Lemma hello_inv_reachable s : reachable step init s → inv s.
Proof.
  revert s. apply invariant_reachable; [apply hello_inv_init|]. intros l s s' Hi. unfold step.
  destruct (main_pc s) eqn:E; try done; destruct l; first [by apply hello_inv_main|by apply hello_inv_thread].
Qed.

(** In every interleaving, whatever calls fail: main is heard first, nobody
    twice, and when a program that looks at the result of [pthread_join] ends
    successfully every thread from the first one joined on has been heard. *)
Theorem hello_heard s :
  join_error p ≠ Ignore → reachable step init s → main_pc s = MExit true →
  NoDup (out s) ∧ (∃ l, out s = FromMain :: l) ∧
  ∀ k, first_join p ≤ k < COUNT_THREAD p → FromThread k ∈ out s.
Proof.
  intros He Hr Hm. destruct (hello_inv_reachable s Hr) as (H1 & H2 & H3 & H4). rewrite Hm in H1, H4.
  split; [done|]. split; [by apply H4|]. intros k Hk. apply H2.
  destruct (H1 eq_refl) as [[_ [H|[H|H]]] Hs]; [done|congruence|by apply H].
Qed.

End steps.

(** Five threads, each ending before the next is created. *)
Definition five : list label :=
  [Main true] ++ flat_map (λ k, [Main true; Thread k]) (seq 0 5) ++ replicate 7 (Main true).

Lemma hello_heard_witness :
  ∃ s, run (step point_b) five init = Next s ∧ main_pc s = MExit true ∧
    (NoDup (out s) ∧ (∃ l, out s = FromMain :: l) ∧ ∀ k, 0 ≤ k < 5 → FromThread k ∈ out s).
Proof.
  eexists. split; [vm_compute; reflexivity|]. split; [reflexivity|]. apply (hello_heard point_b).
  - discriminate.
  - eapply (run_reachable _ _ five); [apply reachable_init|]. vm_compute. reflexivity.
  - reflexivity.
Defined.

(** In [thread_point_a.c] a join that fails is a success without the thread. *)
Lemma point_a_loses_hello :
  ∃ s, run (step point_a) [Main true; Main true; Main true; Main false; Main true] init = Next s ∧
    main_pc s = MExit true ∧ out s = [FromMain].
Proof. eexists. split; [reflexivity|]. by split. Qed.

(** [thread_point_d.c] joins the last of its threads only: it can end before
    the first one is heard. *)
Lemma point_d_loses_hello :
  ∃ sched s, run (step (point_d 2)) sched init = Next s ∧ main_pc s = MExit true ∧
    FromThread 0 ∉ out s.
Proof.
  exists [Main true; Main true; Main true; Thread 1; Main true; Main true; Main true].
  eexists. split; [vm_compute; reflexivity|]. split; [reflexivity|].
  apply (bool_decide_unpack _). by vm_compute.
Qed.

End Hello.

(** ** Task1_2: threads for ever *)
Module Endless.

(** [thread_point_d.c] leaves its threads joinable, in [thread_point_e.c] they
    detach themselves, in [thread_point_f.c] they are created detached. *)
Inductive variant : Set := Joinable | SelfDetach | Detached.

(** How many threads are at their [printf], at [pthread_detach], and have ended
    without being joined or detached; [created] counts the calls that worked. *)
Record state : Set := State {
  looping : bool;
  printing : nat;
  detaching : nat;
  unjoined : nat;
  created : nat
}.

Definition init : state := State true 0 0 0 0.

Section steps.
Context (v : variant) (limit : nat).

(** What the system counts: threads that run or wait to be joined. *)
Definition in_use (s : state) : nat := printing s + detaching s + unjoined s.

(** The loop of [main]: [pthread_create] fails when the limit is reached, or
    for other reasons. *)
Definition main (ok : bool) (s : state) : outcome state :=
  if looping s then
    if ok && bool_decide (in_use s < limit) then
      Next (State true (S (printing s)) (detaching s) (unjoined s) (S (created s)))
    else Next (State false (printing s) (detaching s) (unjoined s) (created s))
  else Disabled.

(** [my_thread] after its [printf]. *)
Definition prints (s : state) : outcome state :=
  match printing s with
  | 0 => Disabled
  | S n =>
      match v with
      | Joinable => Next (State (looping s) n (detaching s) (S (unjoined s)) (created s))
      | SelfDetach => Next (State (looping s) n (S (detaching s)) (unjoined s) (created s))
      | Detached => Next (State (looping s) n (detaching s) (unjoined s) (created s))
      end
  end.

(** [pthread_detach(pthread_self())], then the end of the thread. *)
Definition detaches (ok : bool) (s : state) : outcome state :=
  match detaching s with
  | 0 => Disabled
  | S n =>
      if ok then Next (State (looping s) (printing s) n (unjoined s) (created s))
      else Next (State (looping s) (printing s) n (S (unjoined s)) (created s))
  end.

(** [Interrupt] is the handler [thread_point_f.c] installs: it ends the
    process. *)
Inductive label : Set := Main (ok : bool) | Print | Detach (ok : bool) | Interrupt.

Definition step (l : label) (s : state) : outcome state :=
  if looping s then
    match l with
    | Main ok => main ok s
    | Print => prints s
    | Detach ok => detaches ok s
    | Interrupt =>
        match v with
        | Detached => Next (State false (printing s) (detaching s) (unjoined s) (created s))
        | _ => Disabled
        end
    end
  else Disabled.

End steps.

(** Threads that nobody joins use the system up: in every interleaving at most
    [limit] of them are created, and the call after the last of them fails and
    ends the program. *)
Theorem joinable_exhausts limit s :
  reachable (step Joinable limit) init s →
  created s ≤ limit ∧
  (created s = limit → ∀ ok s', step Joinable limit (Main ok) s = Next s' → looping s' = false).
Proof.
  intros Hr. assert (in_use s = created s ∧ created s ≤ limit ∧ detaching s = 0) as (Hu & Hl & _).
  { revert s Hr. apply invariant_reachable; [cbn; lia|]. intros l [r p d u c] s' (H1 & H2 & H3) Hs.
    unfold step, main, prints, detaches, in_use in *. cbn in *. destruct r; [|done].
    destruct l as [ok| |ok|]; [|destruct p; [done|]|by subst d|done].
    - destruct (ok && bool_decide (p + d + u < limit)) eqn:E; injection Hs as <-; cbn; [|lia].
      apply andb_true_iff in E as [_ E%bool_decide_eq_true]. lia.
    - injection Hs as <-. cbn. lia. }
  split; [done|]. intros Hc ok s' Hs. unfold step, main in Hs.
  destruct (looping s) eqn:E; [|done]. rewrite bool_decide_false in Hs; [|lia].
  rewrite andb_false_r in Hs. by injection Hs as <-.
Qed.

(** A limit of three. *)
Lemma joinable_exhausts_witness :
  ∃ s, run (step Joinable 3) [Main true; Print; Main true; Main true] init = Next s ∧ created s = 3 ∧
    (created s ≤ 3 ∧
     (created s = 3 → ∀ ok s', step Joinable 3 (Main ok) s = Next s' → looping s' = false)).
Proof.
  eexists. split; [reflexivity|]. split; [reflexivity|]. apply (joinable_exhausts 3).
  eapply (run_reachable _ _ [Main true; Print; Main true; Main true]); [apply reachable_init|reflexivity].
Defined.

(** Detached threads do not: even with a limit of one the program can create
    as many as it likes, one after the other. *)
Definition turn (v : variant) : list label :=
  match v with SelfDetach => [Main true; Print; Detach true] | _ => [Main true; Print] end.

Lemma detached_goes_on v limit n :
  v ≠ Joinable → 0 < limit →
  ∃ s, run (step v limit) (concat (replicate n (turn v))) init = Next s ∧ looping s = true ∧ created s = n.
Proof.
  intros Hv Hl. enough (∀ c, run (step v limit) (concat (replicate n (turn v))) (State true 0 0 0 c) =
    Next (State true 0 0 0 (n + c))) as H.
  { eexists. split; [apply H|]. split; [done|]. cbn. lia. }
  induction n as [|n IH]; intros c; [done|]. cbn [replicate concat].
  destruct v; [done|..]; cbn [turn app Steps.run step looping main]; rewrite bool_decide_true //; cbn;
    rewrite IH; do 2 f_equal; lia.
Qed.

End Endless.

(** ** Task1_2: a value returned by a thread *)
Module Result.

(** [thread_point_b.c] returns an [int] on the heap, [thread_point_c.c] an array
    of [COUNT_SYMBOL_HELLO_WORLD] characters. *)
Inductive variant : Set := PointB | PointC.
Definition COUNT_SYMBOL_HELLO_WORLD : nat := 12.

(** What the block holds; [Junk] before it is written. *)
Inductive contents : Type := Junk | Int (z : Z) | Chars (b : buffer).
Inductive block : Type := NoBlock | Live (c : contents) | Freed.

(** What is printed. *)
Inductive output : Type := PrintInt (z : Z) | PrintStr (s : list ascii).

(** [my_thread]; [TDone] with [false]: [pthread_exit(NULL)]. *)
Inductive tpc : Set := TNone | TMalloc | TStore | TDone (value : bool).
Inductive mpc : Set := MCreate | MJoin | MPrint (value : bool) | MFree | MExit (ok : bool).

Record state : Type := State {
  main_pc : mpc;
  thread_pc : tpc;
  heap : block;
  out : list output
}.

Definition init : state := State MCreate TNone NoBlock [].

Section steps.
Context (v : variant).

(** [*value = 42], or [strcpy(value, "hello world")]. *)
Definition store : option contents :=
  match v with
  | PointB => Some (Int 42)
  | PointC => Chars <$> sprintf (replicate COUNT_SYMBOL_HELLO_WORLD NUL) (chars "hello world")
  end.

Definition my_thread (ok : bool) (s : state) : outcome state :=
  match thread_pc s with
  | TMalloc =>
      if ok then Next (State (main_pc s) TStore (Live Junk) (out s))
      else Next (State (main_pc s) (TDone false) (heap s) (out s))
  | TStore =>
      match heap s with
      | Live _ => defined store (λ c, Next (State (main_pc s) (TDone true) (Live c) (out s)))
      | _ => Undefined
      end
  | _ => Disabled
  end.

(** [printf] through the pointer that was joined. *)
Definition show (value : bool) (b : block) : option output :=
  match value, b with
  | true, Live (Int z) => Some (PrintInt z)
  | true, Live (Chars a) => PrintStr <$> cstr a
  | _, _ => None
  end.

Definition main (ok : bool) (s : state) : outcome state :=
  match main_pc s with
  | MCreate =>
      if ok then Next (State MJoin TMalloc (heap s) (out s))
      else Next (State (MExit false) (thread_pc s) (heap s) (out s))
  | MJoin =>
      if ok then
        match thread_pc s with
        | TDone value => Next (State (MPrint value) (thread_pc s) (heap s) (out s))
        | _ => Disabled
        end
      else                               (* without waiting *)
        match v with
        | PointB => Next (State (MExit false) (thread_pc s) (heap s) (out s))
        | PointC => Undefined            (* free(ret_val), which nothing has set *)
        end
  | MPrint value =>
      defined (show value (heap s)) (λ o, Next (State MFree (thread_pc s) (heap s) (out s ++ [o])))
  | MFree =>
      match heap s with
      | Live _ => Next (State (MExit true) (thread_pc s) Freed (out s))
      | _ => Undefined
      end
  | MExit _ => Disabled
  end.

Inductive label : Set := Main (ok : bool) | Thread (ok : bool).

Definition step (l : label) (s : state) : outcome state :=
  match main_pc s, l with
  | MExit _, _ => Disabled
  | _, Main ok => main ok s
  | _, Thread ok => my_thread ok s
  end.

(** The steps in which the calls work. *)
Definition working (l : label) (s : state) : outcome state :=
  match l with Main true | Thread true => step l s | _ => Disabled end.

End steps.

#[global] Instance contents_eq_dec : EqDecision contents.
Proof. solve_decision. Defined.
#[global] Instance block_eq_dec : EqDecision block.
Proof. solve_decision. Defined.
#[global] Instance output_eq_dec : EqDecision output.
Proof. solve_decision. Defined.
#[global] Instance tpc_eq_dec : EqDecision tpc.
Proof. solve_decision. Defined.
#[global] Instance mpc_eq_dec : EqDecision mpc.
Proof. solve_decision. Defined.
#[global] Instance state_eq_dec : EqDecision state.
Proof. solve_decision. Defined.

Definition labels : list label := [Main true; Main false; Thread true; Thread false].
Lemma result_labels l : l ∈ labels.
Proof. unfold labels. destruct l as [[]|[]]; set_solver. Qed.

Definition expected (v : variant) : output :=
  match v with PointB => PrintInt 42 | PointC => PrintStr (chars "hello world") end.

(** A successful end means that the value has arrived and its block is free. *)
Definition delivered (v : variant) (s : state) : bool :=
  bool_decide (main_pc s = MExit true → out s = [expected v] ∧ heap s = Freed).

Definition all_defined (v : variant) (s : state) : bool :=
  forallb (λ l, match working v l s with Undefined => false | _ => true end) labels.

(** In every interleaving, whatever calls fail: a program that ends successfully
    has printed the thread's value once and freed its block. *)
Theorem result_delivered v s :
  reachable (step v) init s → main_pc s = MExit true → out s = [expected v] ∧ heap s = Freed.
Proof.
  intros Hr. apply (bool_decide_eq_true_1 (main_pc s = MExit true → _)).
  apply (check_reachable (step v) init labels result_labels 100 (delivered v)); [|done].
  by destruct v; vm_compute.
Qed.

(** The second program, the thread running first. *)
Lemma result_delivered_witness :
  ∃ s, run (step PointC) [Main true; Thread true; Thread true; Main true; Main true; Main true] init = Next s ∧
    out s = [expected PointC] ∧ heap s = Freed.
Proof.
  eexists. split; [vm_compute; reflexivity|].
  apply (result_delivered PointC); [|reflexivity].
  eapply (run_reachable _ _ [Main true; Thread true; Thread true; Main true; Main true; Main true]);
    [apply reachable_init|]. vm_compute. reflexivity.
Defined.

(** If all calls work nothing undefined happens; if [malloc] fails, the null
    pointer that is joined is followed. *)
Lemma result_defined v s l : reachable (working v) init s → working v l s ≠ Undefined.
Proof.
  intros Hr. assert (all_defined v s = true) as H.
  { apply (check_reachable (working v) init labels result_labels 100); [|done]. by destruct v; vm_compute. }
  unfold all_defined in H. rewrite forallb_forall in H. intros E.
  specialize (H l (proj1 (list_elem_of_In _ _) (result_labels l))). by rewrite E in H.
Qed.

Lemma malloc_failure_undefined v :
  run (step v) [Main true; Thread false; Main true; Main true] init = Undefined.
Proof. by destruct v. Qed.

End Result.

(** ** Task1_3: a structure passed to a thread *)
Module Argument.

(** The members of [Node], when they have been set. *)
Record node : Set := Node { value_int : option Z; ptr_char : option string }.

(** [thread_point_a.c] has a [Node] of its own and joins the thread;
    [thread_point_b.c] has a pointer that is never set, and a detached thread. *)
Inductive variant : Set := PointA | PointB.

Inductive output : Set := ValueInt (z : Z) | PtrChar (s : string).
Inductive tpc : Set := TNone | TInt | TStr | TDone.
Inductive mpc : Set := MSetInt | MSetStr | MAttr | MCreate | MJoin | MExit (ok : bool).

(** [None] is a pointer nobody has set. *)
Record state : Set := State {
  main_pc : mpc;
  thread_pc : tpc;
  arg : option node;
  out : list output
}.

Section steps.
Context (v : variant).

Definition init : state :=
  State MSetInt TNone (match v with PointA => Some (Node None None) | PointB => None end) [].

Definition main (ok : bool) (s : state) : outcome state :=
  let go m := Next (State m (thread_pc s) (arg s) (out s)) in
  match main_pc s with
  | MSetInt =>
      defined (arg s) (λ n, Next (State MSetStr (thread_pc s) (Some (Node (Some 42%Z) (ptr_char n))) (out s)))
  | MSetStr =>
      defined (arg s) (λ n,
      Next (State (match v with PointA => MCreate | PointB => MAttr end) (thread_pc s)
              (Some (Node (value_int n) (Some "hello"%string))) (out s)))
  | MAttr => go (if ok then MCreate else MExit false)
  | MCreate => if ok then Next (State MJoin TInt (arg s) (out s)) else go (MExit false)
  | MJoin =>
      match v, thread_pc s with
      | PointA, TDone => go (MExit ok)
      | PointA, _ => if ok then Disabled else go (MExit false)
      | PointB, _ => go (MExit true)     (* sleep(3) *)
      end
  | MExit _ => Disabled
  end.

Definition my_thread (s : state) : outcome state :=
  match thread_pc s with
  | TInt =>
      defined (n ← arg s; value_int n) (λ z, Next (State (main_pc s) TStr (arg s) (out s ++ [ValueInt z])))
  | TStr =>
      defined (n ← arg s; ptr_char n) (λ t, Next (State (main_pc s) TDone (arg s) (out s ++ [PtrChar t])))
  | _ => Disabled
  end.

Inductive label : Set := Main (ok : bool) | Thread.

Definition step (l : label) (s : state) : outcome state :=
  match main_pc s, l with
  | MExit _, _ => Disabled
  | _, Main ok => main ok s
  | _, Thread => my_thread s
  end.

End steps.

#[global] Instance node_eq_dec : EqDecision node.
Proof. solve_decision. Defined.
#[global] Instance output_eq_dec : EqDecision output.
Proof. solve_decision. Defined.
#[global] Instance tpc_eq_dec : EqDecision tpc.
Proof. solve_decision. Defined.
#[global] Instance mpc_eq_dec : EqDecision mpc.
Proof. solve_decision. Defined.
#[global] Instance state_eq_dec : EqDecision state.
Proof. solve_decision. Defined.

Definition labels : list label := [Main true; Main false; Thread].
Lemma argument_labels l : l ∈ labels.
Proof. unfold labels. destruct l as [[]|]; set_solver. Qed.

Definition good (s : state) : bool :=
  forallb (λ l, match step PointA l s with Undefined => false | _ => true end) labels &&
  bool_decide (out s = take (length (out s)) [ValueInt 42; PtrChar "hello"]) &&
  bool_decide (main_pc s = MExit true → length (out s) = 2).

(** The first program: nothing is undefined, the thread prints the members in
    order, and a successful end comes after both. *)
Lemma argument_passed s :
  reachable (step PointA) (init PointA) s →
  (∀ l, step PointA l s ≠ Undefined) ∧ out s = take (length (out s)) [ValueInt 42; PtrChar "hello"] ∧
  (main_pc s = MExit true → length (out s) = 2).
Proof.
  intros Hr. assert (good s = true) as [[H1 H2]%andb_true_iff H3]%andb_true_iff.
  { apply (check_reachable (step PointA) (init PointA) labels argument_labels 100 good); [by vm_compute|done]. }
  apply bool_decide_eq_true_1 in H2, H3. split; [|done]. intros l E. rewrite forallb_forall in H1.
  specialize (H1 l (proj1 (list_elem_of_In _ _) (argument_labels l))). by rewrite E in H1.
Qed.

(** The second one writes through a wild pointer at once. *)
Lemma wild_argument ok : step PointB (Main ok) (init PointB) = Undefined.
Proof. done. Qed.

End Argument.
