(* ===== verification/ThreadCancel.v ===== *)
(** * ThreadCancel: cancelling a POSIX thread

    The three programs of [semestr2/Task1/Task1_4]: [main] creates a thread that
    loops for ever, cancels it and joins it.  In [thread_point_a.c] the thread
    prints, in [thread_point_b.c] it counts and can be cancelled at any time, in
    [thread_point_c.c] it prints a string on the heap that its clean-up handler
    is to free.  A step is a call, or a turn of the loop; whether a call works is
    part of its label, and the delivery of a cancellation is a step of its own.
    Pauses are left out: they restrict no interleaving. *)
From stdpp Require Import base list numbers.
From iris.prelude Require Import prelude.
From Stdlib Require Import ZArith Ascii.
From S2P Require Import Prelude CString Steps.
#[local] Open Scope Z_scope.

(** [thread_point_a.c] is read with [ret_val] for the [retval] it does not
    declare. *)
Inductive variant : Set := PointA | PointB | PointC.

#[global] Instance variant_eq_dec : EqDecision variant.
Proof. solve_decision. Defined.

Definition COUNT_SYMBOL_HELLO_WORLD : nat := 12%nat.

(** The one block the programs allocate, and the pointers to it. *)
Inductive block : Type := NoBlock | Live (b : buffer) | Freed.
Inductive pointer : Set := NULL | Block.

(** [free]; [None] if the block is not there. *)
Definition free (p : pointer) (h : block) : option block :=
  match p, h with
  | NULL, _ => Some h
  | Block, Live _ => Some Freed
  | Block, _ => None
  end.

(** The argument of [my_thread], the last one of [pthread_create]. *)
Definition thread_arg : pointer := NULL.

Inductive ret : Set := RetNull | PTHREAD_CANCELED.
Definition PTHREAD_CANCEL_DEFERRED : Z := 0.

Inductive output : Type :=
| Text                                   (* my thread: print text *)
| OldState (z : Z)
| Handler                                (* what the handlers print first *)
| Hello (s : list ascii)
| WasCanceled.

(** Where [my_thread] is, in the order of the calls. *)
Inductive tpc : Set :=
| TNone | TMalloc | TStrcpy | TCheck | TPush | TSetType | TPrintOld (err : bool) | TFailed | TLoop
| TEnded (r : ret).

Inductive mpc : Set := MCreate | MCancel | MJoin | MReport (r : ret) | MExit (ok : bool).

(** [pending]: a cancellation was requested; [async]: the thread may be
    cancelled at any time; [pushed]: the handler is in place. *)
Record state : Type := State {
  main_pc : mpc;
  thread_pc : tpc;
  pending : bool;
  async : bool;
  pushed : bool;
  arr_hello_world : pointer;
  heap : block;
  old_state : option Z;
  count_inter : Z;
  out : list output
}.

Definition init : state := State MCreate TNone false false false NULL NoBlock None 0 [].

(** Updates that name what they change. *)
Definition go_main (m : mpc) (s : state) : state :=
  State m (thread_pc s) (pending s) (async s) (pushed s) (arr_hello_world s) (heap s) (old_state s)
    (count_inter s) (out s).
Definition go (t : tpc) (s : state) : state :=
  State (main_pc s) t (pending s) (async s) (pushed s) (arr_hello_world s) (heap s) (old_state s)
    (count_inter s) (out s).
Definition request (s : state) : state :=
  State (main_pc s) (thread_pc s) true (async s) (pushed s) (arr_hello_world s) (heap s) (old_state s)
    (count_inter s) (out s).
Definition set_async (s : state) : state :=
  State (main_pc s) (thread_pc s) (pending s) true (pushed s) (arr_hello_world s) (heap s)
    (Some PTHREAD_CANCEL_DEFERRED) (count_inter s) (out s).
Definition set_pushed (b : bool) (s : state) : state :=
  State (main_pc s) (thread_pc s) (pending s) (async s) b (arr_hello_world s) (heap s) (old_state s)
    (count_inter s) (out s).
Definition set_heap (p : pointer) (h : block) (s : state) : state :=
  State (main_pc s) (thread_pc s) (pending s) (async s) (pushed s) p h (old_state s)
    (count_inter s) (out s).
Definition set_count (z : Z) (s : state) : state :=
  State (main_pc s) (thread_pc s) (pending s) (async s) (pushed s) (arr_hello_world s) (heap s)
    (old_state s) z (out s).
Definition print (o : output) (s : state) : state :=
  State (main_pc s) (thread_pc s) (pending s) (async s) (pushed s) (arr_hello_world s) (heap s)
    (old_state s) (count_inter s) (out s ++ [o]).

Section steps.
(** [junk]: the value of an [int] nobody has set. *)
Context (v : variant) (junk : Z).

(** [my_thread_handler]; only [thread_point_c.c] frees its argument. *)
Definition my_thread_handler (arg : pointer) (s : state) : outcome state :=
  let s := print Handler s in
  match v with
  | PointC => defined (free arg (heap s)) (λ h, Next (set_heap (arr_hello_world s) h s))
  | _ => Next s
  end.

(** A thread that ends runs the handler that is in place. *)
Definition end_thread (r : ret) (s : state) : outcome state :=
  if pushed s then
    match my_thread_handler thread_arg (set_pushed false s) with
    | Next s => Next (go (TEnded r) s)
    | o => o
    end
  else Next (go (TEnded r) s).

(** Where [pthread_create] starts. *)
Definition entry : tpc := match v with PointA => TLoop | PointB => TPush | PointC => TMalloc end.

(** One turn of the loop of [my_thread]. *)
Definition turn (s : state) : outcome state :=
  match v with
  | PointA => Next (print Text s)
  | PointB =>
      if bool_decide (count_inter s < INT_MAX) then Next (set_count (count_inter s + 1) s) else Undefined
  | PointC =>
      match arr_hello_world s, heap s with
      | Block, Live b => defined (cstr b) (λ t, Next (print (Hello t) s))
      | _, _ => Undefined
      end
  end.

Definition my_thread (ok : bool) (s : state) : outcome state :=
  match thread_pc s with
  | TMalloc =>
      if ok then
        Next (go TStrcpy (set_heap Block (Live (replicate COUNT_SYMBOL_HELLO_WORLD NUL)) s))
      else Next (go TStrcpy (set_heap NULL NoBlock s))
  | TStrcpy =>
      match arr_hello_world s, heap s with
      | Block, Live b =>
          defined (sprintf b (chars "hello world")) (λ b, Next (go TCheck (set_heap Block (Live b) s)))
      | _, _ => Undefined
      end
  | TCheck =>
      match arr_hello_world s with
      | NULL => end_thread RetNull s
      | Block => Next (go TPush s)
      end
  | TPush =>
      Next (go (match v with PointB => TSetType | _ => TPrintOld false end) (set_pushed true s))
  | TSetType =>
      if ok then Next (go (TPrintOld false) (set_async s)) else Next (go (TPrintOld true) s)
  | TPrintOld err =>
      Next (go (if err then TFailed else TLoop) (print (OldState (default junk (old_state s))) s))
  | TFailed => end_thread RetNull s
  | TLoop => turn s
  | TNone | TEnded _ => Disabled
  end.

(** Where a request is acted on when the thread is not asynchronous: in the
    calls that print. *)
Definition cancellation_point (t : tpc) : bool :=
  match t with
  | TPrintOld _ | TFailed => true
  | TLoop => match v with PointB => false | _ => true end
  | _ => false
  end.

(** The request is acted on.  [printf] may not be interrupted by an
    asynchronous cancellation. *)
Definition deliver (s : state) : outcome state :=
  match thread_pc s with
  | TNone | TEnded _ => Disabled
  | t =>
      if pending s then
        if async s then
          match t with TPrintOld _ => Undefined | _ => end_thread PTHREAD_CANCELED s end
        else if cancellation_point t then end_thread PTHREAD_CANCELED s
        else Disabled
      else Disabled
  end.

Definition main (ok : bool) (s : state) : outcome state :=
  match main_pc s with
  | MCreate => Next (if ok then go_main MCancel (go entry s) else go_main (MExit false) s)
  | MCancel => Next (if ok then go_main MJoin (request s) else go_main (MExit false) s)
  | MJoin =>
      match thread_pc s with
      | TEnded r => Next (go_main (if ok then MReport r else MExit false) s)
      | _ => if ok then Disabled else Next (go_main (MExit false) s)
      end
  | MReport r =>
      Next (go_main (MExit true) (match r with PTHREAD_CANCELED => print WasCanceled s | RetNull => s end))
  | MExit _ => Disabled
  end.

Inductive label : Set := Main (ok : bool) | Thread (ok : bool) | Deliver.

(** The thread ends with [main]. *)
Definition step (l : label) (s : state) : outcome state :=
  match main_pc s, l with
  | MExit _, _ => Disabled
  | _, Main ok => main ok s
  | _, Thread ok => my_thread ok s
  | _, Deliver => deliver s
  end.

(** How often the handler has spoken. *)
Definition is_handler (o : output) : bool := match o with Handler => true | _ => false end.
Definition handlers (l : list output) : nat := length (List.filter is_handler l).
#[global] Arguments handlers : simpl never.

(** The string with its terminator: it fills the block. *)
Definition hello_world : buffer := chars "hello world" ++ [NUL].

(** In step with [my_thread]: the handler is in place from [TPush] to the end
    and has spoken once then. *)
Definition handler_inv (s : state) : Prop :=
  match thread_pc s with
  | TNone => handlers (out s) = 0%nat ∧ pushed s = false
  | TMalloc | TStrcpy | TCheck => v = PointC ∧ handlers (out s) = 0%nat ∧ pushed s = false
  | TPush => v ≠ PointA ∧ handlers (out s) = 0%nat ∧ pushed s = false
  | TSetType => v = PointB ∧ handlers (out s) = 0%nat ∧ pushed s = true
  | TPrintOld false => v ≠ PointA ∧ handlers (out s) = 0%nat ∧ pushed s = true
  | TPrintOld true | TFailed => v = PointB ∧ handlers (out s) = 0%nat ∧ pushed s = true
  | TLoop => handlers (out s) = 0%nat ∧ pushed s = bool_decide (v ≠ PointA)
  | TEnded r =>
      handlers (out s) = (if decide (v = PointA) then 0 else 1)%nat ∧ pushed s = false ∧
      (v ≠ PointB → r = PTHREAD_CANCELED)
  end.

(** The block of [thread_point_c.c] holds the string from [TCheck] on. *)
Definition string_inv (s : state) : Prop :=
  match thread_pc s with
  | TNone | TMalloc => True
  | TStrcpy =>
      arr_hello_world s = NULL ∨
      (arr_hello_world s = Block ∧ heap s = Live (replicate COUNT_SYMBOL_HELLO_WORLD NUL))
  | _ => v = PointC → arr_hello_world s = Block ∧ heap s = Live hello_world
  end.

Definition main_inv (s : state) : Prop :=
  match main_pc s with
  | MCreate => thread_pc s = TNone
  | MReport r => thread_pc s = TEnded r
  | MExit true =>
      ∃ r, thread_pc s = TEnded r ∧ (r = PTHREAD_CANCELED → last (out s) = Some WasCanceled)
  | _ => True
  end.

Definition cancel_inv (s : state) : Prop := handler_inv s ∧ string_inv s ∧ main_inv s.

Lemma handlers_snoc l o : handlers (l ++ [o]) = (handlers l + if is_handler o then 1 else 0)%nat.
Proof. unfold handlers. rewrite List.filter_app length_app. by destruct o. Qed.

(** Both ways to end: the handler that is in place speaks, and the block is
    left alone. *)
Lemma end_thread_Next r s s' :
  end_thread r s = Next s' →
  main_pc s' = main_pc s ∧ thread_pc s' = TEnded r ∧ pushed s' = false ∧
  handlers (out s') = (handlers (out s) + if pushed s then 1 else 0)%nat ∧
  arr_hello_world s' = arr_hello_world s ∧ heap s' = heap s.
Proof.
  unfold end_thread, my_thread_handler. destruct (pushed s) eqn:E.
  - destruct v; intros [= <-]; cbn; by rewrite handlers_snoc.
  - intros [= <-]. cbn. rewrite E. repeat split; lia.
Qed.

Lemma ending_inv r s s' :
  end_thread r s = Next s' → string_inv s' → (∀ b, main_pc s ≠ MExit b) →
  (∀ r, main_pc s ≠ MReport r) → main_pc s ≠ MCreate →
  pushed s = bool_decide (v ≠ PointA) → handlers (out s) = 0%nat →
  (v ≠ PointB → r = PTHREAD_CANCELED) → cancel_inv s'.
Proof.
  intros H Hstr Hx Hr Hc Hp Hh Hret. apply end_thread_Next in H as (H1 & H2 & H3 & H4 & _ & _).
  split; [|split; [done|]].
  - unfold handler_inv. rewrite H2 H4 Hp Hh H3. split; [by destruct v|]. done.
  - unfold main_inv. rewrite H1. destruct (main_pc s); try done; exfalso; naive_solver.
Qed.

Lemma thread_inv ok s s' :
  cancel_inv s → (∀ b, main_pc s ≠ MExit b) → my_thread ok s = Next s' → cancel_inv s'.
Proof.
  intros (Hh & Hs & Hm) Hx H.
  assert (thread_pc s ≠ TNone ∧ (∀ r, thread_pc s ≠ TEnded r)) as [Hn He].
  { unfold my_thread in H. by destruct (thread_pc s). }
  assert (main_pc s ≠ MCreate ∧ ∀ r, main_pc s ≠ MReport r) as [Hc Hr].
  { unfold main_inv in Hm. split; intros; intros E; rewrite E in Hm; [by apply Hn|by eapply He]. }
  assert (∀ s', main_pc s' = main_pc s → main_inv s') as Hmain.
  { intros s2 E. unfold main_inv. rewrite E. destruct (main_pc s); naive_solver. }
  unfold my_thread in H. unfold handler_inv, string_inv in Hh, Hs.
  destruct (thread_pc s) as [| | | | | |[]| | |] eqn:E; try done.
  - destruct ok; injection H as <-; (split; [|split; [|by apply Hmain]]); try done; cbn; tauto.
  - destruct Hs as [Ha|[Ha Hb]]; rewrite Ha in H; [done|]. rewrite Hb in H. vm_compute sprintf in H.
    injection H as <-. split; [done|]. split; [|by apply Hmain]. done.
  - destruct Hh as (Hv & Hh). destruct (Hs Hv) as [Ha Hb]. rewrite Ha in H. injection H as <-.
    split; [unfold handler_inv; cbn; by rewrite Hv|]. split; [|by apply Hmain]. done.
  - injection H as <-. split; [|split; [|by apply Hmain]].
    + unfold handler_inv. cbn. destruct v; naive_solver.
    + unfold string_inv. cbn. destruct v; naive_solver.
  - destruct Hh as (Hv & Hh).
    destruct ok; injection H as <-; (split; [unfold handler_inv; cbn; by rewrite Hv|]);
      (split; [|by apply Hmain]); unfold string_inv; cbn; by rewrite Hv.
  - injection H as <-. split; [|split; [|by apply Hmain]]; [|done]. cbn. rewrite handlers_snoc. cbn.
    destruct Hh as (-> & -> & Hp). done.
  - injection H as <-. split; [|split; [|by apply Hmain]]; [|done]. cbn. rewrite handlers_snoc. cbn.
    destruct Hh as (? & -> & ->). by rewrite bool_decide_true.
  - destruct Hh as (Hv & Hh & Hp). eapply ending_inv; eauto.
    + unfold string_inv. apply end_thread_Next in H as (_ & -> & _). by rewrite Hv.
    + rewrite Hp. by rewrite bool_decide_true ?Hv.
    + by rewrite Hv.
  - unfold turn in H. destruct v eqn:Hv.
    + injection H as <-. split; [|split; [|by apply Hmain]]; unfold handler_inv, string_inv; cbn; rewrite E Hv.
      * by rewrite handlers_snoc Nat.add_0_r.
      * done.
    + case_bool_decide; [|done]. injection H as <-.
      split; [|split; [|by apply Hmain]]; unfold handler_inv, string_inv; cbn; by rewrite E Hv.
    + destruct (Hs eq_refl) as [Ha Hb]. rewrite Ha Hb in H. vm_compute cstr in H. injection H as <-.
      split; [|split; [|by apply Hmain]]; unfold handler_inv, string_inv; cbn; rewrite E Hv.
      * by rewrite handlers_snoc Nat.add_0_r.
      * done.
Qed.

(** Only [thread_point_b.c] becomes asynchronous, once its handler is in place. *)
Definition async_inv (s : state) : Prop :=
  async s = true →
  match thread_pc s with TPrintOld false | TLoop | TEnded _ => v = PointB | _ => False end.

Lemma end_thread_async r s s' : end_thread r s = Next s' → async s' = async s.
Proof.
  unfold end_thread, my_thread_handler. destruct (pushed s); [|by intros [= <-]].
  by destruct v; intros [= <-].
Qed.

Lemma async_inv_step l s s' :
  cancel_inv s → async_inv s → step l s = Next s' → async_inv s'.
Proof.
  intros (Hh & Hstr & Hm) Ha H.
  assert (step l s = Next s' → match l with Main ok => main ok s | Thread ok => my_thread ok s | Deliver => deliver s end = Next s') as Hl.
  { unfold step. by destruct (main_pc s), l. }
  specialize (Hl H). clear H. unfold async_inv in *. destruct l as [ok|ok|].
  - unfold main in Hl. unfold main_inv in Hm.
    destruct (main_pc s) as [| | |r|]; [destruct ok|destruct ok| |destruct r|done];
      [..|destruct (thread_pc s) eqn:Et, ok|by injection Hl as <-|by injection Hl as <-]; try done;
      injection Hl as <-; cbn; try exact Ha; try (rewrite Et; exact Ha);
      rewrite Hm in Ha; intros Has; by destruct (Ha Has).
  - unfold my_thread in Hl. unfold handler_inv in Hh.
    destruct (thread_pc s) as [| | | | | |[]| | |] eqn:E; try done.
    + destruct ok; injection Hl as <-; done.
    + destruct (arr_hello_world s), (heap s) as [|b|]; try done.
      apply defined_Next in Hl as (b' & _ & [= <-]). done.
    + destruct (arr_hello_world s); [|by injection Hl as <-].
      rewrite (end_thread_async _ _ _ Hl). intros Has. by destruct (Ha Has).
    + injection Hl as <-. cbn. intros Has. by destruct (Ha Has).
    + destruct ok; injection Hl as <-; cbn; [by destruct Hh|]. intros Has. by destruct (Ha Has).
    + injection Hl as <-. cbn. intros Has. by destruct (Ha Has).
    + injection Hl as <-. done.
    + rewrite (end_thread_async _ _ _ Hl). intros Has. by destruct (Ha Has).
    + unfold turn in Hl. intros Has.
      assert (thread_pc s' = TLoop ∧ async s' = async s) as [-> Hs'].
      { destruct v; [by injection Hl as <-|case_bool_decide; [by injection Hl as <-|done]|].
        destruct (arr_hello_world s), (heap s); try done.
        by apply defined_Next in Hl as (? & _ & [= <-]). }
      apply Ha. by rewrite -Hs'.
  - unfold deliver in Hl. destruct (thread_pc s) as [| | | | | |[]| | |] eqn:E; try done.
    all: destruct (pending s); [|done].
    all: destruct (async s) eqn:Has; [try by destruct (Ha eq_refl)|
      destruct (cancellation_point _); [|done]; by rewrite (end_thread_async _ _ _ Hl) Has].
    destruct (end_thread_Next _ _ _ Hl) as (_ & -> & _). auto.
Qed.

(** Where a request is acted on, the handler of [thread_point_b.c] and
    [thread_point_c.c] is in place. *)
Lemma deliver_inv s s' :
  cancel_inv s → async_inv s → (∀ b, main_pc s ≠ MExit b) → deliver s = Next s' → cancel_inv s'.
Proof.
  intros (Hh & Hs & Hm) Ha Hx H. unfold deliver in H.
  assert (thread_pc s ≠ TNone ∧ ∀ r, thread_pc s ≠ TEnded r) as [Hn He] by by destruct (thread_pc s).
  assert (pushed s = bool_decide (v ≠ PointA) ∧ handlers (out s) = 0%nat ∧ end_thread PTHREAD_CANCELED s = Next s')
    as (Hp & Hc & Hend).
  { unfold async_inv in Ha. unfold handler_inv in Hh. unfold cancellation_point in H.
    destruct (pending s); [|by destruct (thread_pc s)].
    destruct (async s).
    - specialize (Ha eq_refl). destruct (thread_pc s) as [| | | | | |[]| | |]; try done.
      destruct Hh as [Hh Hp]. done.
    - destruct (thread_pc s) as [| | | | | |[]| | |]; try done; [..|destruct Hh; by destruct v];
        destruct Hh as (Hv & Hh & Hp); rewrite Hp bool_decide_true // ?Hv //. }
  eapply ending_inv; eauto.
  - unfold string_inv. apply end_thread_Next in Hend as (_ & -> & _ & _ & -> & ->).
    intros Hv. unfold string_inv in Hs. unfold handler_inv in Hh.
    destruct (thread_pc s) as [| | | | | |[]| | |]; try done; try by apply Hs.
    all: destruct Hh as (_ & _ & Hf); rewrite Hf Hv in Hp; by vm_compute in Hp.
  - unfold main_inv in Hm. intros r E. rewrite E in Hm. by eapply He.
  - unfold main_inv in Hm. intros E. rewrite E in Hm. by apply Hn.
Qed.

Lemma main_inv_kept ok s s' : cancel_inv s → main ok s = Next s' → cancel_inv s'.
Proof.
  intros (Hh & Hs & Hm) H. unfold main in H. unfold main_inv in Hm.
  destruct (main_pc s) as [| | |r|] eqn:E; [..|done].
  - destruct ok; injection H as <-.
    + unfold handler_inv in Hh. rewrite Hm in Hh.
      split; [|split; [|done]]; unfold handler_inv, string_inv, entry; cbn; destruct v eqn:Hv; naive_solver.
    + split; [done|]. by split.
  - destruct ok; injection H as <-; (split; [done|]); by split.
  - destruct (thread_pc s) as [| | | | | | | | |r] eqn:Et; destruct ok; try done; injection H as <-;
      (split; [done|]); (split; [done|]); done.
  - injection H as <-. destruct r; [by split; [done|split; [done|exists RetNull]]|].
    unfold handler_inv, string_inv in *. rewrite Hm in Hh Hs.
    split; [|split]; unfold handler_inv, string_inv, main_inv; cbn; rewrite Hm.
    + by rewrite handlers_snoc Nat.add_0_r.
    + done.
    + exists PTHREAD_CANCELED. by rewrite last_snoc.
Qed.

Lemma cancel_inv_reachable s : reachable step init s → cancel_inv s ∧ async_inv s.
Proof.
  revert s. apply invariant_reachable.
  - split; [|done]. split; [by split|]. by split.
  - intros l s s' [Hi Ha] H. split; [|by eapply async_inv_step]. unfold step in H.
    destruct (main_pc s) eqn:E; [..|done]; (destruct l as [ok|ok|];
      [by eapply main_inv_kept|eapply thread_inv; [done| |done]|eapply deliver_inv; [done..| |done]]);
      intros b; by rewrite E.
Qed.

(** C38. In every interleaving, whatever calls fail: when the program ends
    successfully the thread has ended, its handler has run exactly once
    ([thread_point_a.c] has none), and where the thread cannot end by itself
    ([thread_point_a.c] and [thread_point_c.c]) [main] has reported the
    cancellation last. *)
Theorem handler_runs_once s :
  reachable step init s → main_pc s = MExit true →
  (∃ r, thread_pc s = TEnded r) ∧
  handlers (out s) = (if decide (v = PointA) then 0 else 1)%nat ∧
  (v ≠ PointB → last (out s) = Some WasCanceled).
Proof.
  intros Hr E. destruct (cancel_inv_reachable s Hr) as [(Hh & _ & Hm) _].
  unfold main_inv in Hm. rewrite E in Hm. destruct Hm as (r & Ht & Hl).
  unfold handler_inv in Hh. rewrite Ht in Hh. destruct Hh as (Hh & _ & Hc).
  split; [by exists r|]. split; [done|]. intros Hv. by apply Hl, Hc.
Qed.

(** The counter of [thread_point_b.c] is never larger than an [int] can be. *)
Lemma end_thread_count r s s' : end_thread r s = Next s' → count_inter s' = count_inter s.
Proof.
  unfold end_thread, my_thread_handler. destruct (pushed s); [|by intros [= <-]].
  by destruct v; intros [= <-].
Qed.

Lemma thread_count ok s s' :
  my_thread ok s = Next s' → 0 ≤ count_inter s ≤ INT_MAX → 0 ≤ count_inter s' ≤ INT_MAX.
Proof.
  intros H Hi. unfold my_thread in H. destruct (thread_pc s); try done.
  - by destruct ok; injection H as <-.
  - destruct (arr_hello_world s), (heap s); try done. by apply defined_Next in H as (? & _ & [= <-]).
  - destruct (arr_hello_world s); [by rewrite (end_thread_count _ _ _ H)|by injection H as <-].
  - by injection H as <-.
  - by destruct ok; injection H as <-.
  - by injection H as <-.
  - by rewrite (end_thread_count _ _ _ H).
  - unfold turn in H. destruct v.
    + by injection H as <-.
    + case_bool_decide; [|done]. injection H as <-. cbn. lia.
    + destruct (arr_hello_world s), (heap s); try done. by apply defined_Next in H as (? & _ & [= <-]).
Qed.

Lemma count_range s : reachable step init s → 0 ≤ count_inter s ≤ INT_MAX.
Proof.
  revert s. apply invariant_reachable; [cbn; unfold INT_MAX; lia|]. intros l s s' Hi H.
  unfold step in H. destruct (main_pc s) as [| | |r|] eqn:E; [..|done]; destruct l as [ok|ok|];
    try (by eapply thread_count);
    try (unfold deliver in H; destruct (thread_pc s), (pending s), (async s);
         try (destruct (cancellation_point _)); try done; by rewrite (end_thread_count _ _ _ H)).
  all: unfold main in H; rewrite E in H.
  - by destruct ok; injection H as <-.
  - by destruct ok; injection H as <-.
  - destruct (thread_pc s), ok; try done; by injection H as <-.
  - by destruct r; injection H as <-.
Qed.
End steps.

(** Cancelled in its loop. *)
Definition good_run (v : variant) : list label :=
  Main true :: (match v with PointA => [] | PointB => replicate 3 (Thread true) | PointC => replicate 5 (Thread true) end)
  ++ [Thread true; Main true; Deliver; Main true; Main true].

Lemma handler_runs_once_witness :
  ∃ s, run (step PointB 7) (good_run PointB) init = Next s ∧ main_pc s = MExit true ∧ count_inter s = 1 ∧
    ((∃ r, thread_pc s = TEnded r) ∧ handlers (out s) = 1%nat ∧
     (PointB ≠ PointB → last (out s) = Some WasCanceled)).
Proof.
  eexists. split; [vm_compute; reflexivity|]. split; [reflexivity|]. split; [reflexivity|].
  apply (handler_runs_once PointB 7); [|reflexivity].
  eapply (run_reachable _ _ (good_run PointB)); [apply reachable_init|]. vm_compute. reflexivity.
Defined.

(** The handler of [thread_point_c.c] says that it frees the string and frees
    the argument of the thread, a null pointer: however the program ends
    successfully, the string is still allocated. *)
Theorem hello_world_leaks junk s :
  reachable (step PointC junk) init s → main_pc s = MExit true →
  handlers (out s) = 1%nat ∧ arr_hello_world s = Block ∧ heap s = Live hello_world.
Proof.
  intros Hr E. destruct (cancel_inv_reachable PointC junk s Hr) as [(Hh & Hs & Hm) _].
  unfold main_inv in Hm. rewrite E in Hm. destruct Hm as (r & Ht & _).
  unfold handler_inv, string_inv in Hh, Hs. rewrite Ht in Hh Hs. destruct Hh as (Hh & _ & _).
  split; [done|]. by apply Hs.
Qed.

Lemma hello_world_leaks_witness :
  ∃ s, run (step PointC 7) (good_run PointC) init = Next s ∧ main_pc s = MExit true ∧
    out s = [OldState 7; Hello (chars "hello world"); Handler; WasCanceled] ∧
    (handlers (out s) = 1%nat ∧ arr_hello_world s = Block ∧ heap s = Live hello_world).
Proof.
  eexists. split; [vm_compute; reflexivity|]. split; [reflexivity|]. split; [reflexivity|].
  apply (hello_world_leaks 7); [|reflexivity].
  eapply (run_reachable _ _ (good_run PointC)); [apply reachable_init|]. vm_compute. reflexivity.
Defined.

(** Its [strcpy] comes before the test for a null pointer. *)
Lemma malloc_failure_strcpy junk :
  run (step PointC junk) [Main true; Thread false; Thread true] init = Undefined.
Proof. done. Qed.

(** A thread of [thread_point_b.c] that is cancelled while it prints is cancelled
    in a call that must not be. *)
Lemma cancelled_in_printf junk :
  run (step PointB junk) [Main true; Thread true; Thread true; Main true; Deliver] init = Undefined.
Proof. done. Qed.

(** Without a cancellation, its counter overflows. *)
Lemma counter_overflows junk s :
  (∀ b, main_pc s ≠ MExit b) → thread_pc s = TLoop → 0 ≤ count_inter s ≤ INT_MAX →
  run (step PointB junk) (replicate (S (Z.to_nat (INT_MAX - count_inter s))) (Thread true)) s = Undefined.
Proof.
  remember (Z.to_nat (INT_MAX - count_inter s)) as n eqn:En. revert s En.
  assert (∀ s, (∀ b, main_pc s ≠ MExit b) → thread_pc s = TLoop → step PointB junk (Thread true) s = turn PointB s)
    as Hstep.
  { intros s Hx Ht. unfold step, my_thread. rewrite Ht. destruct (main_pc s); try done. exfalso. by eapply Hx. }
  induction n as [|n IH]; intros s En Hx Ht Hc; cbn [replicate run]; rewrite Hstep //; unfold turn.
  - rewrite bool_decide_false //. lia.
  - rewrite bool_decide_true; [|lia]. apply IH; try done; cbn; lia.
Qed.
