(* ===== verification/ThreadSignals.v ===== *)
(** * ThreadSignals: signal masks of threads

    [semestr2/Task1/Task1_5/thread_point_a.c]: a thread that blocks all signals,
    one that takes SIGINT with a handler and one that takes SIGQUIT with
    [sigwait].  Signals have their numbers on Linux; a handler is the process's,
    masks and signals sent with [pthread_kill] are a thread's.  The machine
    creates threads and sends them any signal at any time, which covers whatever
    [main] could do; [main] itself is the list of calls at the end
    ([MainCalls]), and is undefined.  A signal that stops the process leaves
    those that wait as they are (the kernel drops SIGCONT then, and stop signals
    when SIGCONT is sent, so there is more in the machine than there can be). *)
From stdpp Require Import base list numbers.
From iris.prelude Require Import prelude.
From S2P Require Import Prelude Steps.
#[local] Open Scope nat_scope.

(** ** Signals and their sets *)

Definition sig : Set := nat.

Definition SIGINT : sig := 2.
Definition SIGQUIT : sig := 3.
Definition SIGKILL : sig := 9.
Definition SIGCHLD : sig := 17.
Definition SIGCONT : sig := 18.
Definition SIGSTOP : sig := 19.
Definition SIGTSTP : sig := 20.
Definition SIGTTIN : sig := 21.
Definition SIGTTOU : sig := 22.
Definition SIGURG : sig := 23.
Definition SIGWINCH : sig := 28.

(** The numbers of signals; 32 and 33 belong to the C library. *)
Definition is_signal (g : sig) : bool :=
  bool_decide (1 ≤ g ≤ 31) || bool_decide (34 ≤ g ≤ 64).

(** "SIGKILL and SIGSTOP cannot be blocked". *)
Definition blockable (g : sig) : bool := negb (bool_decide (g = SIGKILL ∨ g = SIGSTOP)).

(** What a signal without handler does. *)
Inductive action : Set := Terminate | Ignore | Stop | Continue.
Definition default (g : sig) : action :=
  if bool_decide (g ∈ [SIGCHLD; SIGURG; SIGWINCH]) then Ignore
  else if bool_decide (g ∈ [SIGSTOP; SIGTSTP; SIGTTIN; SIGTTOU]) then Stop
  else if bool_decide (g = SIGCONT) then Continue
  else Terminate.

Definition sigset : Set := sig → bool.

Definition sigismember (s : sigset) (g : sig) : bool := s g.
Definition sigfillset : sigset := is_signal.
Definition sigemptyset : sigset := λ _, false.
Definition sigaddset (s : sigset) (g : sig) : sigset := λ g', bool_decide (g' = g) || s g'.
Definition sigdelset (s : sigset) (g : sig) : sigset := λ g', negb (bool_decide (g' = g)) && s g'.

(** [pthread_sigmask] with [SIG_BLOCK] and [SIG_UNBLOCK]: the signals that
    cannot be blocked are left out without an error. *)
Definition sig_block (mask s : sigset) : sigset := λ g, mask g || (s g && blockable g).
Definition sig_unblock (mask s : sigset) : sigset := λ g, mask g && negb (s g).

(** ** State *)

(** The functions the threads are created with, and where one is. *)
Inductive fn : Set := BlockAllSignal | NonBlockIntSig | NonBlockQuitSig.

#[global] Instance fn_eq_dec : EqDecision fn.
Proof. solve_decision. Defined.

Inductive pc : Set :=
| PCall                                  (* printf *)
| PBlock                                 (* sigfillset, pthread_sigmask *)
| PUnblock                               (* sigaddset, pthread_sigmask *)
| PSignal                                (* signal *)
| PWait                                  (* sigwait *)
| PReceive (g : sig)                     (* printf *)
| PSleep
| PDone.

Record thread : Set := Thread { func : fn; at_pc : pc; mask : sigset; sent : sigset }.

(** Stopped: until SIGCONT is sent, or SIGKILL. *)
Inductive status : Set := Running | Stopped | KilledBy (g : sig) | Failed.
Inductive output : Set := Call (i : nat) | Caught (g : sig) (i : nat) | Receive (g : sig) (i : nat).

(** [handled]: the signals [signal_handler] is installed for; [typed]: those
    the keyboard, or anybody else, has sent to the process. *)
Record state : Set := State {
  what : status;
  threads : list thread;
  handled : sigset;
  typed : sigset;
  out : list output
}.

Definition init : state := State Running [] sigemptyset sigemptyset [].

Definition set_thread (i : nat) (t : thread) (s : state) : state :=
  State (what s) (<[i := t]> (threads s)) (handled s) (typed s) (out s).
Definition print (o : output) (s : state) : state :=
  State (what s) (threads s) (handled s) (typed s) (out s ++ [o]).
Definition install (g : sig) (s : state) : state :=
  State (what s) (threads s) (sigaddset (handled s) g) (typed s) (out s).
Definition set_what (w : status) (s : state) : state :=
  State w (threads s) (handled s) (typed s) (out s).

Definition goto (p : pc) (t : thread) : thread := Thread (func t) p (mask t) (sent t).
Definition set_mask (m : sigset) (t : thread) : thread := Thread (func t) (at_pc t) m (sent t).
Definition set_sent (m : sigset) (t : thread) : thread := Thread (func t) (at_pc t) (mask t) m.

(** ** Steps *)

Section steps.
(** [junk]: what is in the [sigset_t] that [non_block_int_sig] never empties. *)
Context (junk : sigset).

(** Take a signal that waits for thread [i], its own before the process's. *)
Definition take (i : nat) (t : thread) (g : sig) (s : state) : option state :=
  if sigismember (sent t) g then Some (set_thread i (set_sent (sigdelset (sent t) g) t) s)
  else if sigismember (typed s) g then
    Some (State (what s) (threads s) (handled s) (sigdelset (typed s) g) (out s))
  else None.

(** One call of thread [i], after its function; [g] is what [sigwait] answers:
    its set is full, and the signals that cannot be blocked do not wait. *)
Definition call (i : nat) (ok : bool) (g : sig) (s : state) : outcome state :=
  match threads s !! i with
  | None => Disabled
  | Some t =>
      let go p s := Next (set_thread i (goto p t) s) in
      match at_pc t with
      | PCall => go PBlock (print (Call i) s)
      | PBlock =>
          if ok then
            Next (set_thread i (set_mask (sig_block (mask t) sigfillset)
              (goto (match func t with
                     | BlockAllSignal => PSleep | NonBlockIntSig => PUnblock | NonBlockQuitSig => PSignal
                     end) t)) s)
          else Next (set_what Failed s)
      | PUnblock =>
          if ok then
            Next (set_thread i (set_mask (sig_unblock (mask t) (sigaddset junk SIGINT)) (goto PSignal t)) s)
          else Next (set_what Failed s)
      | PSignal =>
          match func t with
          | NonBlockQuitSig => go PWait (install SIGQUIT s)
          | _ => go PSleep (install SIGINT s)
          end
      | PWait =>
          if ok then
            if blockable g then
              possible (take i t g s) (λ s,
              possible (threads s !! i) (λ t, Next (set_thread i (goto (PReceive g) t) s)))
            else Disabled
          else Next (set_what Failed s)
      | PReceive g => go PSleep (print (Receive g i) s)
      | PSleep => go PDone s
      | PDone => Disabled
      end
  end.

(** What becomes of a process when a thread of it, [i], is interrupted. *)
Definition interrupt (i : nat) (g : sig) (s : state) : state :=
  if sigismember (handled s) g then print (Caught g i) s
  else match default g with
       | Terminate => set_what (KilledBy g) s
       | Stop => set_what Stopped s
       | Ignore | Continue => s
       end.

(** A signal that waits for thread [i], which does not block it, interrupts
    it.  A thread that has ended gets none. *)
Definition deliver (i : nat) (g : sig) (s : state) : outcome state :=
  match threads s !! i with
  | None => Disabled
  | Some t =>
      match at_pc t with
      | PDone => Disabled
      | _ =>
          if sigismember (mask t) g then Disabled
          else possible (take i t g s) (λ s, Next (interrupt i g s))
      end
  end.

Inductive label : Set :=
| Create (f : fn)                        (* pthread_create *)
| Run (i : nat) (ok : bool) (g : sig)
| Kill (i : nat) (g : sig)               (* pthread_kill *)
| Keyboard (g : sig)                     (* or kill, from outside *)
| Deliver (i : nat) (g : sig).

(** SIGCONT wakes a process when it is sent, blocked or not. *)
Definition wake (g : sig) (s : state) : state :=
  if bool_decide (g = SIGCONT) then set_what Running s else s.

Definition step (l : label) (s : state) : outcome state :=
  match what s, l with
  | Running, Create f =>
      Next (State (what s) (threads s ++ [Thread f PCall sigemptyset sigemptyset]) (handled s) (typed s) (out s))
  | Running, Run i ok g => call i ok g s
  | Running, Kill i g =>
      possible (threads s !! i) (λ t,
      if is_signal g then Next (set_thread i (set_sent (sigaddset (sent t) g) t) s) else Disabled)
  | (Running | Stopped), Keyboard g =>
      if is_signal g then
        Next (wake g (State (what s) (threads s) (handled s) (sigaddset (typed s) g) (out s)))
      else Disabled
  | Running, Deliver i g => deliver i g s
  | Stopped, Deliver i g => if bool_decide (g = SIGKILL) then deliver i g s else Disabled
  | _, _ => Disabled
  end.

(** ** Masks *)

Definition full (m : sigset) : Prop := ∀ g, is_signal g = true → blockable g = true → m g = true.

(** The masks, from the first call on that sets one. *)
Definition thread_ok (t : thread) : Prop :=
  (∀ g, sent t g = true → is_signal g = true) ∧
  match func t, at_pc t with
  | _, (PCall | PBlock) => True
  | BlockAllSignal, (PSleep | PDone) => full (mask t)
  | NonBlockIntSig, PUnblock => full (mask t)
  | NonBlockIntSig, (PSignal | PSleep | PDone) => full (λ g, mask t g || sigaddset junk SIGINT g)
  | NonBlockQuitSig, (PSignal | PWait | PReceive _ | PSleep | PDone) => full (mask t)
  | _, _ => False
  end.

(** Who sleeps in [non_block_int_sig] has installed the handler. *)
Definition handler_ok (h : sigset) (t : thread) : Prop :=
  func t = NonBlockIntSig → at_pc t = PSleep → h SIGINT = true.

Definition process_ok (s : state) : Prop :=
  Forall thread_ok (threads s) ∧ Forall (handler_ok (handled s)) (threads s) ∧
  ∀ g, typed s g = true → is_signal g = true.

Lemma sig_block_full m : full (sig_block m sigfillset).
Proof. intros g Hs Hb. unfold sig_block, sigfillset. rewrite Hs Hb. by destruct (m g). Qed.

Lemma sig_unblock_full m : full m → full (λ g, sig_unblock m (sigaddset junk SIGINT) g || sigaddset junk SIGINT g).
Proof.
  intros H g Hs Hb. unfold sig_unblock. rewrite (H g Hs Hb). by destruct (sigaddset junk SIGINT g).
Qed.

Lemma set_thread_ok i t s :
  process_ok s → thread_ok t → handler_ok (handled s) t → process_ok (set_thread i t s).
Proof. intros (H1 & H2 & H3) Ht Hh. split_and!; [by apply Forall_insert..|done]. Qed.

Lemma install_ok g s : process_ok s → process_ok (install g s).
Proof.
  intros (H1 & H2 & H3). split_and!; [done| |done]. eapply Forall_impl; [exact H2|].
  intros t Ht Hf Hp. cbn. unfold sigaddset. rewrite (Ht Hf Hp). apply orb_true_r.
Qed.

Lemma process_thread i t s :
  process_ok s → threads s !! i = Some t → thread_ok t ∧ handler_ok (handled s) t.
Proof. intros (H1 & H2 & _) Hi. split; by eapply Forall_lookup_1. Qed.

Lemma set_what_ok w s : process_ok s → process_ok (set_what w s).
Proof. done. Qed.

Lemma sigdelset_sub s g g' : sigdelset s g g' = true → s g' = true.
Proof. intros [_ H]%andb_true_iff. done. Qed.

(** A signal that is taken changes nothing else of the thread, nor what is
    handled or printed. *)
Lemma take_ok i t g s s' :
  process_ok s → threads s !! i = Some t → take i t g s = Some s' →
  process_ok s' ∧ is_signal g = true ∧ handled s' = handled s ∧ out s' = out s ∧
  ∃ m, threads s' !! i = Some (set_sent m t) ∧ ∀ g, m g = true → is_signal g = true.
Proof.
  intros Hs Hi. destruct (process_thread i t s Hs Hi) as [[Hsent Ht] Hh].
  unfold take. destruct (sigismember (sent t) g) eqn:E.
  - intros [= <-].
    assert (∀ g', sigdelset (sent t) g g' = true → is_signal g' = true) as Hm
      by (intros g' Hg'; by eapply Hsent, sigdelset_sub).
    split; [by apply set_thread_ok|]. split; [by apply Hsent|]. do 2 (split; [done|]).
    exists (sigdelset (sent t) g). split; [|done]. cbn. apply list_lookup_insert_eq. by eapply lookup_lt_Some.
  - destruct (sigismember (typed s) g) eqn:E'; [|done]. intros [= <-].
    destruct Hs as (H1 & H2 & H3).
    split; [split_and!; [done..|]; intros g' Hg'; by eapply H3, sigdelset_sub|].
    split; [by apply H3|]. do 2 (split; [done|]). exists (sent t). split; [|done]. by destruct t.
Qed.

Lemma call_ok i ok g s s' : process_ok s → call i ok g s = Next s' → process_ok s'.
Proof.
  intros Hs H. unfold call in H. destruct (threads s !! i) as [t|] eqn:Hi; [|done].
  destruct (process_thread i t s Hs Hi) as [[Hsent Ht] Hh]. destruct t as [f p m q]. cbn in H, Ht, Hsent. destruct p.
  - injection H as <-. apply set_thread_ok; [done|by destruct f|done].
  - destruct ok; injection H as <-; [|done]. apply set_thread_ok; [done| |by destruct f].
    destruct f; (split; [done|apply sig_block_full]).
  - destruct ok; injection H as <-; [|done]. apply set_thread_ok; [done| |done].
    destruct f; try done. split; [done|by apply sig_unblock_full].
  - destruct f; [done|..]; injection H as <-; apply set_thread_ok; try done; by apply install_ok.
  - destruct ok; [|by injection H as <-]. destruct (blockable g); [|done].
    apply possible_Next in H as (s1 & E & H). apply possible_Next in H as (t1 & Hi1 & H).
    destruct (take_ok _ _ _ _ _ Hs Hi E) as (Hs1 & _ & _ & _ & m' & Hm & Hm').
    rewrite Hm in Hi1. injection Hi1 as <-. injection H as <-.
    apply set_thread_ok; [done| |done]. destruct f; done.
  - injection H as <-. apply set_thread_ok; [done|by destruct f|]. by destruct f.
  - injection H as <-. apply set_thread_ok; [done|by destruct f|done].
  - done.
Qed.

(** What the delivery of a signal leads to. *)
Lemma deliver_cases i g s s' :
  deliver i g s = Next s' →
  ∃ t s1, threads s !! i = Some t ∧ at_pc t ≠ PDone ∧ sigismember (mask t) g = false ∧
    take i t g s = Some s1 ∧ s' = interrupt i g s1.
Proof.
  unfold deliver. destruct (threads s !! i) as [t|]; [|done]. intros H.
  assert (at_pc t ≠ PDone ∧ sigismember (mask t) g = false ∧
    possible (take i t g s) (λ s, Next (interrupt i g s)) = Next s') as (Hp & Hm & H').
  { destruct (at_pc t); try done; destruct (sigismember (mask t) g); done. }
  apply possible_Next in H' as (s1 & H1 & H2). exists t, s1. do 4 (split; [done|]). by injection H2.
Qed.

Lemma interrupt_ok i g s : process_ok s → process_ok (interrupt i g s).
Proof.
  intros Hs. unfold interrupt. destruct (sigismember (handled s) g); [done|]. by destruct (default g).
Qed.

Lemma deliver_ok i g s s' : process_ok s → deliver i g s = Next s' → process_ok s'.
Proof.
  intros Hs (t & s1 & Hi & _ & _ & H1 & ->)%deliver_cases. apply interrupt_ok.
  by destruct (take_ok _ _ _ _ _ Hs Hi H1).
Qed.

Lemma step_deliver i g s s' : step (Deliver i g) s = Next s' → deliver i g s = Next s'.
Proof. unfold step. destruct (what s); try done. by case_bool_decide. Qed.

Lemma send_ok g s s' :
  process_ok s →
  (if is_signal g then Next (wake g (State (what s) (threads s) (handled s) (sigaddset (typed s) g) (out s)))
   else Disabled) = Next s' → process_ok s'.
Proof.
  intros (H1 & H2 & H3) H. destruct (is_signal g) eqn:E; [|done]. injection H as <-. unfold wake.
  assert (∀ g', sigaddset (typed s) g g' = true → is_signal g' = true).
  { intros g' [->%bool_decide_eq_true|H]%orb_true_iff; auto. }
  case_bool_decide; by split_and!.
Qed.

Lemma signals_reachable s : reachable step init s → process_ok s.
Proof.
  revert s. apply invariant_reachable; [by split_and!|]. intros l s s' Hs H.
  destruct l as [f|i ok g|i g|g|i g]; [..|by eapply deliver_ok, step_deliver].
  all: unfold step in H; destruct (what s) eqn:Hw; try done.
  - injection H as <-. destruct Hs as (H1 & H2 & H3).
    split_and!; [apply Forall_app; split; [done|]; apply Forall_singleton..|done]; [|done].
    split; [done|]. by destruct f.
  - by eapply call_ok.
  - apply possible_Next in H as (t & Hi & H). destruct (is_signal g) eqn:E; [|done]. injection H as <-.
    destruct (process_thread i t s Hs Hi) as [[Hsent Ht] Hh]. apply set_thread_ok; [done| |done].
    split; [|done]. intros g' [->%bool_decide_eq_true|H]%orb_true_iff; auto.
  - rewrite -Hw in H. by eapply send_ok.
  - rewrite -Hw in H. by eapply send_ok.
Qed.

(** C39. Any signals, sent to threads or to the process at any time, and any
    threads: once its mask is set, a thread is interrupted by no other signal
    than SIGKILL and SIGSTOP, which cannot be blocked, unless it runs
    [non_block_int_sig] and has unblocked SIGINT; then only by SIGINT and by
    what was in the set it never emptied.  SIGINT is caught and printed when
    the thread sleeps. *)
Theorem interrupted_as_meant s s' i g t :
  reachable step init s → step (Deliver i g) s = Next s' → threads s !! i = Some t →
  at_pc t ≠ PCall → at_pc t ≠ PBlock →
  (g = SIGKILL ∨ g = SIGSTOP) ∨
  (func t = NonBlockIntSig ∧ (at_pc t = PSignal ∨ at_pc t = PSleep) ∧
   (g = SIGINT ∧ (at_pc t = PSleep → what s' = what s ∧ out s' = out s ++ [Caught SIGINT i]) ∨
    sigismember junk g = true)).
Proof.
  intros Hr H Hi Hc Hb. apply signals_reachable in Hr.
  apply step_deliver, deliver_cases in H as (t' & s1 & Hi' & Hd & Hm & H1 & ->).
  rewrite Hi in Hi'. injection Hi' as <-. destruct (process_thread i t s Hr Hi) as [[_ Ht] Hh].
  destruct (take_ok _ _ _ _ _ Hr Hi H1) as (_ & Hg & Hh1 & Ho1 & _).
  destruct (blockable g) eqn:Hbl; [right|].
  2: { left. unfold blockable in Hbl. by apply negb_false_iff, bool_decide_eq_true in Hbl. }
  assert (¬ full (mask t)) as Hn by (intros Hf; specialize (Hf g Hg Hbl); unfold sigismember in Hm; congruence).
  assert (func t = NonBlockIntSig ∧ (at_pc t = PSignal ∨ at_pc t = PSleep) ∧
    full (λ g, mask t g || sigaddset junk SIGINT g)) as (Hf & Hp & Hfull).
  { destruct (func t), (at_pc t); naive_solver. }
  split; [done|]. split; [done|]. specialize (Hfull g Hg Hbl). unfold sigismember in Hm.
  rewrite Hm in Hfull. cbn in Hfull. unfold sigaddset in Hfull.
  apply orb_true_iff in Hfull as [->%bool_decide_eq_true|Hj]; [left|by right]. split; [done|].
  intros Hsl. unfold interrupt, sigismember. rewrite Hh1 (Hh Hf Hsl) -Ho1. split; [|done].
  unfold take in H1. destruct (sigismember (sent t) SIGINT); [by injection H1 as <-|].
  destruct (sigismember (typed s) SIGINT); [by injection H1 as <-|done].
Qed.

(** A thread that waits for SIGQUIT and is sent it has a step to make. *)
Lemma sigwait_receives i t s :
  what s = Running → threads s !! i = Some t → at_pc t = PWait → sent t SIGQUIT = true →
  ∃ s', step (Run i true SIGQUIT) s = Next s' ∧ at_pc <$> threads s' !! i = Some (PReceive SIGQUIT).
Proof.
  intros Hw Hi Hp Hq. unfold step, call. rewrite Hw Hi Hp. unfold take, sigismember. rewrite Hq. cbn.
  pose proof (lookup_lt_Some _ _ _ Hi) as Hlt. rewrite list_lookup_insert_eq //. cbn.
  eexists. split; [done|]. cbn. by rewrite list_lookup_insert_eq ?length_insert.
Qed.

End steps.

(** The thread that takes SIGINT, its handler installed. *)
Definition int_ready : list label :=
  Create NonBlockIntSig :: replicate 4 (Run 0 true SIGINT) ++ [Kill 0 SIGINT].

Lemma interrupted_as_meant_witness :
  ∃ s s' t, run (step sigemptyset) int_ready init = Next s ∧
    step sigemptyset (Deliver 0 SIGINT) s = Next s' ∧ out s' = [Call 0; Caught SIGINT 0] ∧
    threads s !! 0 = Some t ∧
    ((SIGINT = SIGKILL ∨ SIGINT = SIGSTOP) ∨
     (func t = NonBlockIntSig ∧ (at_pc t = PSignal ∨ at_pc t = PSleep) ∧
      (SIGINT = SIGINT ∧ (at_pc t = PSleep → what s' = what s ∧ out s' = out s ++ [Caught SIGINT 0]) ∨
       sigismember sigemptyset SIGINT = true))).
Proof.
  eexists _, _, _. split; [vm_compute; reflexivity|]. split; [vm_compute; reflexivity|].
  split; [reflexivity|]. split; [reflexivity|].
  eapply (interrupted_as_meant sigemptyset _ _ 0 SIGINT).
  - eapply (run_reachable _ _ int_ready); [apply reachable_init|]. vm_compute. reflexivity.
  - vm_compute. reflexivity.
  - reflexivity.
  - discriminate.
  - discriminate.
Defined.

(** Between unblocking SIGINT and installing its handler the thread does not
    survive it... *)
Lemma unblocked_too_early junk :
  ∃ s, run (step junk) [Create NonBlockIntSig; Run 0 true SIGINT; Run 0 true SIGINT; Run 0 true SIGINT;
                        Kill 0 SIGINT; Deliver 0 SIGINT] init = Next s ∧ what s = KilledBy SIGINT.
Proof. by eexists. Qed.

(** ... with the wrong rubbish in its set, it does not survive SIGQUIT ... *)
Lemma rubbish_unblocks_quit :
  ∃ s, run (step sigfillset) [Create NonBlockIntSig; Run 0 true SIGINT; Run 0 true SIGINT; Run 0 true SIGINT;
                              Keyboard SIGQUIT; Deliver 0 SIGQUIT] init = Next s ∧ what s = KilledBy SIGQUIT.
Proof. by eexists. Qed.

(** ... and nobody survives SIGKILL. *)
Lemma sigkill_kills junk :
  ∃ s, run (step junk) [Create BlockAllSignal; Run 0 true SIGINT; Run 0 true SIGINT;
                        Keyboard SIGKILL; Deliver 0 SIGKILL] init = Next s ∧ what s = KilledBy SIGKILL.
Proof. by eexists. Qed.

(** ** [main] *)
Module MainCalls.

Definition COUNT_THREAD : nat := 4.

(** The calls of [main] that matter, with the index into [tid]; the join in
    front, of line 109, is read with a [ret_val] that is declared. *)
Inductive call : Set :=
| PthreadCreate (t : nat) (f : fn)
| PthreadJoin (t : nat)
| PthreadKill (t : nat) (g : sig)
| Pause (seconds : nat).

Definition before_first_join : list call := [PthreadCreate 0 BlockAllSignal].
Definition behind_first_join : list call :=
  [Pause 3; PthreadKill 0 SIGINT;
   PthreadCreate 1 NonBlockIntSig; Pause 3; PthreadKill 1 SIGINT;
   PthreadCreate 2 NonBlockQuitSig; PthreadCreate 2 NonBlockQuitSig; Pause 3] ++
  replicate (COUNT_THREAD - 1) (PthreadJoin 1) ++ [Pause 3].
Definition main : list call := before_first_join ++ PthreadJoin 1 :: behind_first_join.

(** [tid], with the threads by number; which have been joined; what was
    created. *)
Record process : Set := Process {
  tid : list (option nat);
  joined : list nat;
  created : list fn;
  status_err : bool
}.

Definition start : process := Process (replicate COUNT_THREAD None) [] [] false.

(** A thread that may be named in a call: one that was created and not joined. *)
Definition valid (t : nat) (p : process) : option nat :=
  n ← mjoin (tid p !! t); if decide (n ∈ joined p) then None else Some n.

(** One call, and whether it works; [None] is undefined. *)
Definition do_call (c : call) (ok : bool) (p : process) : option process :=
  match c with
  | PthreadCreate t f =>
      if ok then
        Some (Process (<[t := Some (length (created p))]> (tid p)) (joined p) (created p ++ [f]) (status_err p))
      else Some (Process (tid p) (joined p) (created p) true)
  | PthreadJoin t =>
      n ← valid t p;
      if ok then Some (Process (tid p) (n :: joined p) (created p) (status_err p))
      else Some (Process (tid p) (joined p) (created p) true)
  | PthreadKill t _ => _ ← valid t p; Some p
  | Pause _ => Some p
  end.

Fixpoint do_calls (cs : list call) (oks : nat → bool) (p : process) : option process :=
  match cs with
  | [] => Some p
  | c :: cs => p ← do_call c (oks 0) p; do_calls cs (λ n, oks (S n)) p
  end.

(** Whatever works, the first join is of a [tid] that nobody has set. *)
Lemma main_undefined oks : do_calls main oks start = None.
Proof. cbn. by destruct (oks 0). Qed.

Lemma all_work cs oks p : (∀ n, oks n = true) → do_calls cs oks p = do_calls cs (λ _, true) p.
Proof.
  revert oks p. induction cs as [|c cs IH]; intros oks p H; [done|]. cbn. rewrite H.
  destruct (do_call c true p) as [p'|]; [|done]. cbn. by apply IH.
Qed.

(** Without that join, the program joins one thread three times, and the second
    thread that waits for SIGQUIT hides the first. *)
Lemma joined_thrice oks :
  (∀ n, oks n = true) → do_calls (before_first_join ++ behind_first_join) oks start = None.
Proof. intros H. by rewrite all_work. Qed.

Lemma thread_hidden :
  ∃ p, do_calls (before_first_join ++ firstn 8 behind_first_join) (λ _, true) start = Some p ∧
    created p = [BlockAllSignal; NonBlockIntSig; NonBlockQuitSig; NonBlockQuitSig] ∧
    tid p = [Some 0; Some 1; Some 3; None].
Proof. eexists. split; [vm_compute; reflexivity|]. by split. Qed.

End MainCalls.
