(* ===== verification/Uthread.v ===== *)
(** * Uthread: cooperative threads on saved contexts

    [semestr2/Task1/Task1_7/uthread_create.c]: three user threads that hand
    the processor on by [swapcontext], and a POSIX thread that tidies up after
    those that have finished.  A context is the point a computation goes on
    at; a step is one access to the data the two POSIX threads share. *)
From stdpp Require Import base list.
From iris.prelude Require Import prelude.
From S2P Require Import Prelude Steps.
#[local] Open Scope nat_scope.

Definition ROUNDS : nat := 5.

(** ** State *)

(** Where the first POSIX thread is: in [main], in [start_thread] (the loop at
    [i]), in the thread function [f] that [start_thread] called at [i], or in
    [schedule], which will return to [ret]. *)
Inductive pc : Set :=
| Create (k : nat)                       (* main: uthread_create *)
| Spawn                                  (* main: pthread_create *)
| Loop                                   (* main: while(uthread_count > 0) *)
| Join                                   (* main: pthread_join *)
| Exit (ok : bool)
| Killed                                 (* by SIGBUS *)
| Start (i : nat)                        (* for (i ...) if (is_running == false) *)
| Body (f number i n : nat)              (* for (n < 5) { printf; schedule(); } *)
| Finish (f number i : nat)              (* uthreads[number]->is_finish = true *)
| Wait (f number i : nat)                (* while (stop_work_checker == false) sleep(1) *)
| Returned                               (* start_thread has returned, uc_link is NULL *)
| Cur (ret : pc)                         (* cur_ctx = &uthreads[uthread_cur]->uctx *)
| Advance (old : nat) (ret : pc)         (* uthread_cur = (uthread_cur + 1) % uthread_count *)
| Swap (old : nat) (ret : pc).           (* next_ctx = ...; swapcontext *)

(** [bool] members that [uthread_create] does not set: the stack they lie on
    has been filled with 0x7f. *)
Inductive flag : Set := Fill | Flag (b : bool).

(** What reading 0x7f as a [bool] gives, in a comparison with [false] and in
    one with [true]; [None]: undefined, as in the C standard. *)
Record reading : Set := Reading { eq_false : option bool; eq_true : option bool }.

Definition is_false (rd : reading) (x : flag) : option bool :=
  match x with Fill => eq_false rd | Flag b => Some (negb b) end.
Definition is_true (rd : reading) (x : flag) : option bool :=
  match x with Fill => eq_true rd | Flag b => Some b end.

(** [uthread_t]; [thread_func] is 0, 1 or 2, [arg] the number it points to. *)
Record uthread : Set := Uthread {
  thread_func : nat;
  arg : nat;
  uctx : pc;
  is_running : flag;
  is_finish : flag
}.

(** The POSIX thread [checker_finish_thread]. *)
Inductive checker_pc : Set :=
| CNone                                  (* not created yet *)
| CWhile (killed : nat)
| CFor (killed i : nat)
| CCount                                 (* uthread_count = 0 *)
| CStop                                  (* stop_work_checker = true *)
| CDone.

(** The structures stay on their stacks when the table's entry is cleared. *)
Record state : Set := State {
  structs : list uthread;
  uthreads : list bool;
  uthread_count : nat;
  uthread_cur : nat;
  stop_work_checker : bool;
  main_pc : pc;
  checker : checker_pc
}.

Definition init : state := State [] [] 0 0 false (Create 0) CNone.

Definition with_main (p : pc) (s : state) : state :=
  State (structs s) (uthreads s) (uthread_count s) (uthread_cur s) (stop_work_checker s) p
    (checker s).
Definition with_checker (c : checker_pc) (s : state) : state :=
  State (structs s) (uthreads s) (uthread_count s) (uthread_cur s) (stop_work_checker s) (main_pc s)
    c.
Definition with_cur (n : nat) (s : state) : state :=
  State (structs s) (uthreads s) (uthread_count s) n (stop_work_checker s) (main_pc s) (checker s).
Definition with_struct (k : nat) (u : uthread) (s : state) : state :=
  State (<[k := u]> (structs s)) (uthreads s) (uthread_count s) (uthread_cur s)
    (stop_work_checker s) (main_pc s) (checker s).

(** [uthreads[k]->...]: undefined if the entry is null or there is none. *)
Definition deref (k : nat) (s : state) : option uthread :=
  match uthreads s !! k with Some true => structs s !! k | _ => None end.

(** ** Steps *)

(** How a call answers: it works; [getcontext], [swapcontext] or
    [pthread_create] fails; [mmap] fails; or [ftruncate] fails, so that the file
    behind the mapping is too short. *)
Inductive answer : Set := Works | Fails | NoMap | NoSpace.

Section steps.
Context (rd : reading).

(** [uthread_create] of function [k] with the address of [k]: a new entry,
    whose context starts [start_thread].  It exits when [getcontext] fails;
    [create_stack] fills what [mmap] returns before that is looked at, and
    does not look at [ftruncate]: filling a mapping that reaches behind its
    file is a signal. *)
Definition uthread_create (k : nat) (a : answer) (s : state) : outcome state :=
  match a with
  | Works =>
      Next (State (structs s ++ [Uthread k k (Start 0) Fill Fill]) (uthreads s ++ [true])
              (uthread_count s + 1) (uthread_cur s) (stop_work_checker s)
              (if decide (k + 1 < 3) then Create (k + 1) else Spawn) (checker s))
  | Fails => Next (with_main (Exit false) s)
  | NoMap => Undefined
  | NoSpace => Next (with_main Killed s)
  end.

(** [schedule], in three steps. *)
Definition schedule (a : answer) (s : state) : outcome state :=
  match main_pc s with
  | Cur ret =>
      defined (deref (uthread_cur s) s) (λ _, Next (with_main (Advance (uthread_cur s) ret) s))
  | Advance old ret =>
      match uthread_count s with
      | 0 => Undefined                   (* division by zero *)
      | S _ as n => Next (with_main (Swap old ret) (with_cur ((uthread_cur s + 1) mod n) s))
      end
  | Swap old ret =>
      defined (deref (uthread_cur s) s) (λ _,
      if a is Works then
        (* the old context is saved, through the pointer taken before *)
        defined (structs s !! old) (λ u,
        let s := with_struct old (Uthread (thread_func u) (arg u) ret (is_running u) (is_finish u)) s in
        defined (structs s !! uthread_cur s) (λ v, Next (with_main (uctx v) s)))
      else Next (with_main (Exit false) s))
  | _ => Disabled
  end.

(** [start_thread]. *)
Definition start_thread (i : nat) (s : state) : outcome state :=
  if decide (i < uthread_count s) then
    defined (deref i s) (λ u,
    defined (is_false rd (is_running u)) (λ b,
    if b then
      Next (with_main (Body (thread_func u) (arg u) i 0)
              (with_struct i (Uthread (thread_func u) (arg u) (uctx u) (Flag true) (is_finish u)) s))
    else Next (with_main (Start (i + 1)) s)))
  else Next (with_main Returned s).

(** [my_thread1], [my_thread2] and [my_thread3], which differ in what they
    print. *)
Definition my_thread (s : state) : outcome state :=
  match main_pc s with
  | Body f number i n =>
      if decide (n < ROUNDS) then Next (with_main (Cur (Body f number i (n + 1))) s)
      else Next (with_main (Finish f number i) s)
  | Finish f number i =>
      defined (deref number s) (λ u,
      Next (with_main (Wait f number i)
              (with_struct number
                 (Uthread (thread_func u) (arg u) (uctx u) (is_running u) (Flag true)) s)))
  | Wait f number i =>
      if stop_work_checker s then Next (with_main (Start (i + 1)) s) else Next s
  | _ => Disabled
  end.

(** The first POSIX thread. *)
Definition main_step (a : answer) (s : state) : outcome state :=
  match main_pc s with
  | Create k => uthread_create k a s
  | Spawn =>
      if a is Works then Next (with_main Loop (with_checker (CWhile 0) s)) else Next (with_main (Exit false) s)
  | Loop => Next (with_main (if decide (0 < uthread_count s) then Cur Loop else Join) s)
  | Join => match checker s with CDone => Next (with_main (Exit true) s) | _ => Disabled end
  | Start i => start_thread i s
  | Body _ _ _ _ | Finish _ _ _ | Wait _ _ _ => my_thread s
  | Cur _ | Advance _ _ | Swap _ _ => schedule a s
  | Returned | Exit _ | Killed => Disabled
  end.

(** [checker_finish_thread]. *)
Definition checker_finish_thread (s : state) : outcome state :=
  match checker s with
  | CWhile killed =>
      Next (with_checker (if decide (killed < uthread_count s) then CFor killed 0 else CCount) s)
  | CFor killed i =>
      if decide (i < uthread_count s) then
        match uthreads s !! i with
        | Some true =>
            defined (structs s !! i) (λ u,
            defined (is_true rd (is_finish u)) (λ b,
            if b then
              Next (State (structs s) (<[i := false]> (uthreads s)) (uthread_count s) (uthread_cur s)
                      (stop_work_checker s) (main_pc s) (CFor (killed + 1) (i + 1)))
            else Next (with_checker (CFor killed (i + 1)) s)))
        | Some false => Next (with_checker (CFor killed (i + 1)) s)
        | None => Undefined
        end
      else Next (with_checker (CWhile killed) s)
  | CCount =>
      Next (State (structs s) (uthreads s) 0 (uthread_cur s) (stop_work_checker s) (main_pc s) CStop)
  | CStop =>
      Next (State (structs s) (uthreads s) (uthread_count s) (uthread_cur s) true (main_pc s) CDone)
  | CNone | CDone => Disabled
  end.

(** Either POSIX thread, until the process exits. *)
Inductive thread : Set := Main | Checker.

Definition step (x : thread * answer) (s : state) : outcome state :=
  match main_pc s with
  | Exit _ | Killed => Disabled
  | _ => match x.1 with Main => main_step x.2 s | Checker => checker_finish_thread s end
  end.

End steps.

(** What the step of the first POSIX thread prints, of the lines that tell the
    threads apart. *)
Definition hello (s : state) : list nat :=
  match main_pc s with Body f _ _ n => if decide (n < ROUNDS) then [f] else [] | _ => [] end.

Fixpoint run_main (rd : reading) (fuel : nat) (s : state) : list nat * outcome state :=
  match fuel with
  | 0 => ([], Next s)
  | S fuel' =>
      match step rd (Main, Works) s with
      | Next s' => let '(l, o) := run_main rd fuel' s' in (hello s ++ l, o)
      | o => ([], o)
      end
  end.

(** ** Two ways to read 0x7f *)

(** As the standard has it; as compilers do that compare the byte with 0 or
    flip its last bit. *)
Definition standard : reading := Reading None None.
Definition byte_test : reading := Reading (Some true) (Some true).

(** ** [schedule] on its own *)

(** A table of threads that are all there. *)
Definition table_ok (s : state) : Prop :=
  length (uthreads s) = uthread_count s ∧ length (structs s) = uthread_count s ∧
  (∀ k, k < uthread_count s → uthreads s !! k = Some true) ∧ uthread_cur s < uthread_count s.

(** A call of [schedule] that will return to [ret]. *)
Definition call_schedule (rd : reading) (ret : pc) (s : state) : outcome state :=
  run (step rd) [(Main, Works); (Main, Works); (Main, Works)] (with_main (Cur ret) s).

Ltac go1 :=
  cbn [run step with_main with_cur with_struct main_pc main_step schedule fst snd defined
       uthreads structs uthread_cur uthread_count stop_work_checker checker].
Ltac go := go1; unfold deref; go1.

Definition save (ret : pc) (u : uthread) : uthread :=
  Uthread (thread_func u) (arg u) ret (is_running u) (is_finish u).

(** What a call does: the caller's context is kept in its own structure, and
    the computation goes on where the next thread in the table left off. *)
Lemma call_schedule_spec rd ret s :
  table_ok s →
  ∃ u v s', structs s !! uthread_cur s = Some u ∧
    <[uthread_cur s := save ret u]> (structs s) !! ((uthread_cur s + 1) mod uthread_count s) = Some v ∧
    call_schedule rd ret s = Next s' ∧ table_ok s' ∧ main_pc s' = uctx v ∧
    structs s' = <[uthread_cur s := save ret u]> (structs s) ∧
    uthreads s' = uthreads s ∧ uthread_count s' = uthread_count s ∧
    uthread_cur s' = (uthread_cur s + 1) mod uthread_count s.
Proof.
  destruct s as [ss us n c st mp ck]. unfold table_ok.
  cbn [structs uthreads uthread_count uthread_cur]. intros (Hlt & Hls & Ht & Hcur).
  destruct n as [|n]; [lia|]. set (c' := (c + 1) mod S n).
  assert (c' < S n) as Hnext by (apply Nat.mod_upper_bound; lia).
  destruct (lookup_lt_is_Some_2 ss c) as [u Hu]; [lia|].
  destruct (lookup_lt_is_Some_2 ss c') as [w Hw]; [lia|].
  destruct (lookup_lt_is_Some_2 (<[c := save ret u]> ss) c') as [v Hv].
  { rewrite length_insert. lia. }
  exists u, v, (State (<[c := save ret u]> ss) us (S n) c' st (uctx v) ck).
  split; [done|]. split; [done|].
  cbn [structs uthreads uthread_count uthread_cur]. rewrite length_insert. split_and!; try done.
  unfold call_schedule. go. rewrite (Ht c Hcur). go. rewrite Hu. go. fold c'.
  rewrite (Ht c' Hnext). go. rewrite Hw. go. rewrite Hu. go.
  change (Uthread (thread_func u) (arg u) ret (is_running u) (is_finish u)) with (save ret u).
  rewrite Hv. done.
Qed.

(** Calls in a row, the [i]-th one by whoever runs then. *)
Fixpoint calls (rd : reading) (rets : list pc) (s : state) : outcome state :=
  match rets with
  | [] => Next s
  | ret :: rets' =>
      match call_schedule rd ret s with
      | Next s' => calls rd rets' s'
      | Undefined => Undefined
      | Disabled => Disabled
      end
  end.

Lemma calls_spec rd rets s :
  table_ok s → ∃ s', calls rd rets s = Next s' ∧ table_ok s' ∧ uthread_count s' = uthread_count s ∧
    uthread_cur s' = (uthread_cur s + length rets) mod uthread_count s.
Proof.
  revert s. induction rets as [|ret rets IH]; intros s Hok; cbn [calls].
  { exists s. split; [done|]. split; [done|]. split; [done|]. rewrite Nat.add_0_r Nat.mod_small //.
    apply Hok. }
  destruct (call_schedule_spec rd ret s Hok) as (u & v & s' & _ & _ & -> & Hok' & _ & _ & _ & Hn & Hc).
  destruct (IH s' Hok') as (s2 & E & Hok2 & Hn2 & Hc2). exists s2. split; [done|]. split; [done|].
  split; [congruence|]. rewrite Hc2 Hn Hc. cbn [length]. destruct Hok as (_ & _ & _ & Hlt).
  rewrite Nat.Div0.add_mod_idemp_l. f_equal. lia.
Qed.

(** What [calls] leaves behind: the callers' contexts, each in the structure of
    the thread that was current when it called. *)
Lemma calls_saved rd rets s :
  table_ok s → length rets ≤ uthread_count s →
  ∃ s', calls rd rets s = Next s' ∧ table_ok s' ∧ uthread_count s' = uthread_count s ∧
    uthread_cur s' = (uthread_cur s + length rets) mod uthread_count s ∧
    ∀ i, i < uthread_count s →
      uctx <$> structs s' !! ((uthread_cur s + i) mod uthread_count s) =
      match rets !! i with
      | Some ret => Some ret
      | None => uctx <$> structs s !! ((uthread_cur s + i) mod uthread_count s)
      end.
Proof.
  induction rets as [|ret rets IH] using rev_ind; intros Hok Hlen.
  { destruct (calls_spec rd [] s Hok) as (s' & E & H1 & H2 & H3). exists s'. split_and!; [done..|].
    injection E as <-. by intros i _. }
  rewrite length_app /= in Hlen. destruct IH as (s1 & E1 & Hok1 & Hn1 & Hc1 & Hs1); [done|lia|].
  destruct (call_schedule_spec rd ret s1 Hok1) as (u & v & s' & Hu & _ & E & Hok' & _ & Hs' & _ & Hn & Hc).
  assert (0 < uthread_count s) as Hpos by (destruct Hok as (_ & _ & _ & ?); lia).
  exists s'. split; [|split; [done|split; [congruence|split]]].
  - clear -E1 E. revert s E1. induction rets as [|r rets IH]; intros s E1; cbn [calls app] in *.
    + injection E1 as ->. by rewrite E.
    + destruct (call_schedule rd r s); [by apply IH|done..].
  - rewrite Hc Hn1 Hc1 Nat.Div0.add_mod_idemp_l length_app /=. f_equal. lia.
  - intros i Hi. rewrite Hs' Hc1.
    assert (∀ a b, a < uthread_count s → b < uthread_count s →
      (uthread_cur s + a) mod uthread_count s = (uthread_cur s + b) mod uthread_count s → a = b) as Hinj.
    { intros a b Ha Hb Hab. destruct Hok as (_ & _ & _ & Hc0).
      assert (∀ x, x < uthread_count s → (uthread_cur s + x) mod uthread_count s =
        if decide (uthread_cur s + x < uthread_count s) then uthread_cur s + x
        else uthread_cur s + x - uthread_count s) as Hm.
      { intros x Hx. case_decide; [by apply Nat.mod_small|].
        replace (uthread_cur s + x) with (uthread_cur s + x - uthread_count s + 1 * uthread_count s) at 1 by lia.
        rewrite Nat.Div0.mod_add Nat.mod_small; lia. }
      rewrite !Hm // in Hab. repeat case_decide; lia. }
    destruct (decide (i = length rets)) as [->|Hne].
    + rewrite list_lookup_insert_eq; [|rewrite -Hc1; by eapply lookup_lt_Some].
      by rewrite list_lookup_middle.
    + rewrite list_lookup_insert_ne; [|intros Heq; apply Hne; symmetry; apply Hinj; [lia..|done]].
      rewrite Hs1 //. destruct (decide (i < length rets)).
      * rewrite lookup_app_l //.
      * rewrite (lookup_ge_None_2 rets); [|lia]. rewrite (lookup_ge_None_2 (rets ++ [ret])); [done|].
        rewrite length_app /=. lia.
Qed.

(** A call in a row that is not the last one of a round goes on where the next
    thread had been left before; the last one where the first caller called. *)
Lemma calls_resume rd rets ret s :
  table_ok s → length rets < uthread_count s →
  ∃ s', calls rd (rets ++ [ret]) s = Next s' ∧ table_ok s' ∧
    Some (main_pc s') =
      if decide (S (length rets) = uthread_count s) then head (rets ++ [ret])
      else uctx <$> structs s !! ((uthread_cur s + S (length rets)) mod uthread_count s).
Proof.
  intros Hok Hlen. destruct (calls_saved rd rets s Hok) as (s1 & E1 & Hok1 & Hn1 & Hc1 & Hs1); [lia|].
  destruct (call_schedule_spec rd ret s1 Hok1) as (u & v & s' & Hu & Hv & E & Hok' & Hpc & _ & _ & _ & Hc).
  exists s'. split; [|split; [done|]].
  { clear -E1 E. revert s E1. induction rets as [|r rets IH]; intros s E1; cbn [calls app] in *.
    - injection E1 as ->. by rewrite E.
    - destruct (call_schedule rd r s); [by apply IH|done..]. }
  rewrite Hpc. assert (Some (uctx v) = uctx <$> (<[uthread_cur s1:=save ret u]> (structs s1))
    !! ((uthread_cur s1 + 1) mod uthread_count s1)) as -> by by rewrite Hv.
  rewrite Hn1 Hc1 Nat.Div0.add_mod_idemp_l -Nat.add_assoc Nat.add_1_r.
  pose proof Hok as (_ & Hls & _ & Hc0). assert (uthread_cur s mod uthread_count s = uthread_cur s) as Hmod
    by by apply Nat.mod_small.
  case_decide as Hd.
  - rewrite Hd. replace ((uthread_cur s + uthread_count s) mod uthread_count s) with
      ((uthread_cur s + 0) mod uthread_count s)
      by (rewrite Nat.add_0_r -{2}(Nat.mul_1_l (uthread_count s)) Nat.Div0.mod_add //).
    destruct rets as [|r rets]; cbn [length app head] in *.
    + rewrite list_lookup_insert_eq //. rewrite -Hc1. by eapply lookup_lt_Some.
    + rewrite list_lookup_insert_ne; [rewrite (Hs1 0); [done|lia]|].
      rewrite Nat.add_0_r Hmod. intros Heq.
      assert ((uthread_cur s + S (length rets)) mod uthread_count s =
              if decide (uthread_cur s = 0) then uthread_count s - 1 else uthread_cur s - 1) as Hlast.
      { case_decide as H0; [rewrite H0 Nat.add_0_l Nat.mod_small; lia|].
        replace (uthread_cur s + S (length rets)) with (uthread_cur s - 1 + 1 * uthread_count s) by lia.
        rewrite Nat.Div0.mod_add Nat.mod_small; lia. }
      rewrite Hlast in Heq. case_decide; lia.
  - rewrite list_lookup_insert_ne.
    + rewrite Hs1; [|lia]. by rewrite lookup_ge_None_2; [|lia].
    + intros Heq.
      assert (∀ x, x < uthread_count s → (uthread_cur s + x) mod uthread_count s =
        if decide (uthread_cur s + x < uthread_count s) then uthread_cur s + x
        else uthread_cur s + x - uthread_count s) as Hm.
      { intros x Hx. case_decide; [by apply Nat.mod_small|].
        replace (uthread_cur s + x) with (uthread_cur s + x - uthread_count s + 1 * uthread_count s) at 1 by lia.
        rewrite Nat.Div0.mod_add Nat.mod_small; lia. }
      rewrite !Hm in Heq; [|lia..]. repeat case_decide; lia.
Qed.

(** C24. Calls of [schedule] in a row on a table that is complete, each by the
    thread that runs then: call by call the computation goes on where the
    threads behind the current one had been left, in the order of the table,
    and the last call of a round goes on where the first caller called, with
    the same thread current as before and every caller's place kept in its own
    structure. *)
Theorem schedule_round rd rets ret s :
  table_ok s → S (length rets) = uthread_count s →
  (∀ k r, rets !! k = Some r → ∃ sk, calls rd (take (S k) rets) s = Next sk ∧
     Some (main_pc sk) = uctx <$> structs s !! ((uthread_cur s + S k) mod uthread_count s)) ∧
  ∃ s', calls rd (rets ++ [ret]) s = Next s' ∧ table_ok s' ∧
    Some (main_pc s') = head (rets ++ [ret]) ∧ uthread_cur s' = uthread_cur s ∧
    ∀ i, i < uthread_count s →
      uctx <$> structs s' !! ((uthread_cur s + i) mod uthread_count s) = (rets ++ [ret]) !! i.
Proof.
  intros Hok Hlen. split.
  - intros k r Hk. pose proof (lookup_lt_Some _ _ _ Hk) as Hlt.
    destruct (calls_resume rd (take k rets) r s Hok) as (sk & E & _ & Hpc); [rewrite length_take; lia|].
    exists sk. rewrite (take_S_r _ _ _ Hk). split; [done|]. rewrite Hpc length_take.
    replace (k `min` length rets) with k by lia. rewrite decide_False //. lia.
  - destruct (calls_resume rd rets ret s Hok) as (s' & E & Hok' & Hpc); [lia|].
    rewrite decide_True // in Hpc.
    destruct (calls_saved rd (rets ++ [ret]) s Hok) as (s2 & E2 & _ & _ & Hc & Hs); [rewrite length_app /=; lia|].
    rewrite E in E2. injection E2 as <-. exists s'. split_and!; [done..| |].
    + rewrite Hc length_app /= Nat.add_1_r Hlen. pose proof Hok as (_ & _ & _ & Hc0).
      replace (uthread_cur s + uthread_count s) with (uthread_cur s + 1 * uthread_count s) by lia.
      rewrite Nat.Div0.mod_add Nat.mod_small //.
    + intros i Hi. rewrite Hs //. destruct (lookup_lt_is_Some_2 (rets ++ [ret]) i) as [x ->]; [|done].
      rewrite length_app /=. lia.
Qed.

(** A table of three, the last one running; the calls are told apart by what
    they return to. *)
Lemma schedule_round_witness :
  let s := State ((λ k, Uthread k k (Body k k k 0) Fill Fill) <$> [0; 1; 2]) (replicate 3 true) 3 2 false Loop CNone in
  ∃ s', calls standard [Body 2 2 2 1; Body 0 0 0 1; Body 1 1 1 1] s = Next s' ∧ table_ok s' ∧
    Some (main_pc s') = Some (Body 2 2 2 1) ∧ uthread_cur s' = 2 ∧
    ∀ i, i < 3 → uctx <$> structs s' !! ((2 + i) mod 3) = [Body 2 2 2 1; Body 0 0 0 1; Body 1 1 1 1] !! i.
Proof.
  intros s. apply (schedule_round standard [Body 2 2 2 1; Body 0 0 0 1] (Body 1 1 1 1) s); [|done].
  split; [done|]. split; [done|]. split; [|simpl; lia].
  intros k Hk. simpl in Hk. do 3 (destruct k as [|k]; [done|]). lia.
Defined.

(** ** Exploration *)

#[global] Instance pc_eq_dec : EqDecision pc.
Proof. solve_decision. Defined.
#[global] Instance flag_eq_dec : EqDecision flag.
Proof. solve_decision. Defined.
#[global] Instance uthread_eq_dec : EqDecision uthread.
Proof. solve_decision. Defined.
#[global] Instance checker_pc_eq_dec : EqDecision checker_pc.
Proof. solve_decision. Defined.
#[global] Instance state_eq_dec : EqDecision state.
Proof. solve_decision. Defined.

Definition labels : list (thread * answer) :=
  t ← [Main; Checker]; pair t <$> [Works; Fails; NoMap; NoSpace].
Lemma labels_all l : l ∈ labels.
Proof. destruct l as [[] []]; vm_compute; set_solver. Qed.

(** [P] holds of all states the exploration finds, and it finds all. *)
Definition holds_throughout (rd : reading) (P : state → bool) : bool :=
  check_states (step rd) init labels 5000 P.

Lemma throughout_reachable rd P s :
  holds_throughout rd P = true → reachable (step rd) init s → P s = true.
Proof. unfold holds_throughout. apply check_reachable, labels_all. Qed.

(** ** What the program does *)

(** The main loop is over: [main] has returned with success. *)
Definition finished (s : state) : bool := match main_pc s with Exit true => true | _ => false end.

(** Any of the nine ways to read the flags. *)
Definition readings : list reading :=
  f ← [None; Some false; Some true]; Reading f <$> [None; Some false; Some true].

Lemma readings_all rd : rd ∈ readings.
Proof. destruct rd as [[[]|] [[]|]]; vm_compute; set_solver. Qed.

(** The third function's first line, and the end of [main]. *)
Definition as_it_is (rd : reading) (s : state) : bool :=
  negb (existsb (Nat.eqb 2) (hello s)) &&
  (bool_decide (eq_true rd = Some true) || negb (finished s)).

(** C33. Whatever is read where the flags have never been written, in every
    interleaving and with any failing calls: the third thread never gets to
    its first line, since [main] has made the first call of [schedule] and the
    contexts are one off; and [main] never returns with success, unless the
    bytes 0x7f are taken for a thread that has finished. *)
Theorem third_thread_never_runs rd s :
  reachable (step rd) init s →
  2 ∉ hello s ∧ (finished s = true → eq_true rd = Some true).
Proof.
  intros Hr. assert (as_it_is rd s = true) as E.
  { apply (throughout_reachable rd (as_it_is rd)); [|done].
    assert (forallb (λ rd, holds_throughout rd (as_it_is rd)) readings = true) as H by by vm_compute.
    rewrite forallb_forall in H. apply H, list_elem_of_In, readings_all. }
  unfold as_it_is in E. apply andb_true_iff in E as [E1%negb_true_iff E2]. split.
  - intros Hin. apply not_true_iff_false in E1. apply E1, existsb_exists. exists 2.
    by rewrite -list_elem_of_In.
  - intros Hf. rewrite Hf orb_false_r in E2. by apply bool_decide_eq_true in E2.
Qed.

(** The first steps, and ten greetings of the first two threads. *)
Lemma third_thread_never_runs_witness :
  ∃ s, run (step byte_test) (replicate 60 (Main, Works)) init = Next s ∧
    (2 ∉ hello s ∧ (finished s = true → eq_true byte_test = Some true)).
Proof.
  eexists. split; [vm_compute; reflexivity|]. apply third_thread_never_runs.
  eapply (run_reachable _ _ (replicate 60 (Main, Works))); [apply reachable_init|]. vm_compute. reflexivity.
Defined.

(** As the standard has it, no thread function is ever entered: the first
    switch of contexts reads a [bool] that nobody has written. *)
Theorem no_thread_starts s :
  reachable (step standard) init s → hello s = [] ∧ finished s = false.
Proof.
  intros Hr.
  assert ((match hello s with [] => true | _ => false end) && negb (finished s) = true) as E.
  { apply (throughout_reachable standard
             (λ s, (match hello s with [] => true | _ => false end) && negb (finished s))); [|done].
    by vm_compute. }
  apply andb_true_iff in E as [E1 E2%negb_true_iff]. split; [by destruct (hello s)|done].
Qed.

(** The state before the first switch. *)
Lemma no_thread_starts_witness :
  ∃ s, run (step standard) (replicate 5 (Main, Works)) init = Next s ∧
    hello s = [] ∧ finished s = false.
Proof.
  eexists. split; [vm_compute; reflexivity|]. apply no_thread_starts.
  eapply (run_reachable _ _ (replicate 5 (Main, Works))); [apply reachable_init|reflexivity].
Defined.

(** The output of the first POSIX thread, as compilers read the flags, as long
    as the checker does not get a turn: threads 1 and 2 in turn, five times,
    and nothing more however long it runs. *)
Theorem byte_test_output fuel :
  (run_main byte_test (100 + fuel) init).1 = [0; 1; 0; 1; 0; 1; 0; 1; 0; 1].
Proof.
  assert (∀ n s, run_main byte_test (n + fuel) s =
    (let '(l, o) := run_main byte_test n s in
     match o with Next s' => let '(l', o') := run_main byte_test fuel s' in (l ++ l', o') | _ => (l, o) end))
    as Happ.
  { induction n as [|n IH]; intros s; cbn [run_main Nat.add]; [by destruct (run_main byte_test fuel s)|].
    destruct (step byte_test (Main, Works) s) as [s'| |]; [|done..]. rewrite IH.
    destruct (run_main byte_test n s') as [l [s2| |]]; [|done..].
    destruct (run_main byte_test fuel s2) as [l' o']. by rewrite app_assoc. }
  rewrite Happ. assert (∃ s, run_main byte_test 100 init = ([0; 1; 0; 1; 0; 1; 0; 1; 0; 1], Next s) ∧
    main_pc s = Wait 0 0 0 ∧ stop_work_checker s = false) as (s & -> & Hpc & Hstop).
  { eexists. split; [vm_compute; reflexivity|split; reflexivity]. }
  assert (∀ n, run_main byte_test n s = ([], Next s)) as E.
  { induction n as [|n IH]; cbn [run_main]; [done|]. unfold step, main_step, my_thread, hello.
    rewrite !Hpc Hstop. cbn [fst]. by rewrite IH. }
  by rewrite E.
Qed.

(** As compilers read the byte, the checker may take all three threads for
    finished before the first one starts; [schedule] then follows a null
    pointer. *)
Theorem byte_test_null_thread :
  run (step byte_test) (replicate 4 (Main, Works) ++ replicate 4 (Checker, Works) ++
                        [(Main, Works); (Main, Works)]) init = Undefined.
Proof. by vm_compute. Qed.
