(* ===== verification/Echo.v ===== *)
(** * Echo: the socket programs

    [semestr1/Task6/Task6_1]: an echo server and its client on a UNIX domain
    socket ([server.c], [client.c]) and on datagrams ([udp_server.c],
    [udp_client.c]).  A connection is a pair of byte queues; how many bytes a
    call moves, and whether it fails, is part of the label of a step. *)
From stdpp Require Import base list.
From iris.prelude Require Import prelude.
From Stdlib Require Import Ascii.
From S2P Require Import Prelude CString Steps.
#[local] Open Scope nat_scope.

Definition NEWLINE : ascii := "010"%char.

(** The next line of [l], or its first [n] characters if they end before it. *)
Fixpoint line (n : nat) (l : list ascii) : list ascii * list ascii :=
  match n, l with
  | S n', c :: l' =>
      if decide (c = NEWLINE) then ([c], l') else let '(p, r) := line n' l' in (c :: p, r)
  | _, _ => ([], l)
  end.

(** [fgets(dst, n, stdin)]; nothing is stored at the end of the input. *)
Definition fgets (dst : buffer) (n : nat) (input : list ascii) : option (buffer * list ascii) :=
  match input with
  | [] => Some (dst, [])
  | _ => let '(p, r) := line (n - 1) input in b ← write_at dst 0 (p ++ [NUL]); Some (b, r)
  end.

(** A call moves so many bytes, or fails (or a signal ends the process). *)
Inductive answer : Type := Moves (n : nat) | Fails.

(** ** The stream connection *)
Module Stream.

Definition SIZE_SERVER : nat := 5.
Definition SIZE_CLIENT : nat := 128.

(** [communicate_server]: at [fgets], [write], [read] or [printf]. *)
Inductive cpc : Type := CInput | CWrite | CRead | CPrint | CStop.

(** [communicate_client]: at [read]; at the [printf] behind it with [ret]
    ([None] is -1) and [buff]; at [write]. *)
Inductive spc : Type :=
| SRead
| SPrint (ret : option nat) (buff : buffer)
| SWrite (ret : nat) (buff : buffer)
| SStop.

(** Both processes and the two directions of their connection.  [written] and
    [received] record what the client has put in and taken out, [cut] that a
    call of [write] took less than it was given. *)
Record state : Type := State {
  client : cpc;
  input : buffer;
  stdin : list ascii;
  responses : list (list ascii);
  server : spc;
  printed : list (list ascii);
  to_server : list ascii;
  to_client : list ascii;
  written : list ascii;
  received : list ascii;
  cut : bool
}.

Definition init (text : list ascii) (junk : buffer) : state :=
  State CInput junk text [] SRead [] [] [] [] [] false.

(** How much a [read] of at most [n] may deliver of [q]: something, unless the
    other side is gone and nothing is left. *)
Definition readable (n : nat) (q : list ascii) (closed : bool) (k : nat) : bool :=
  bool_decide (k ≤ n) && bool_decide (k ≤ length q) &&
  (bool_decide (0 < k) || (closed && bool_decide (q = []))).

(** How much a [write] of [n] bytes may take. *)
Definition writable (n : nat) (closed : bool) (k : nat) : bool :=
  bool_decide (k ≤ n) && (bool_decide (0 < k) || bool_decide (n = 0)) &&
  (negb closed || bool_decide (n = 0)).

Definition server_gone (s : state) : bool := match server s with SStop => true | _ => false end.
Definition client_gone (s : state) : bool := match client s with CStop => true | _ => false end.

Definition client_at (p : cpc) (s : state) : state :=
  State p (input s) (stdin s) (responses s) (server s) (printed s) (to_server s) (to_client s)
    (written s) (received s) (cut s).
Definition server_at (p : spc) (s : state) : state :=
  State (client s) (input s) (stdin s) (responses s) p (printed s) (to_server s) (to_client s)
    (written s) (received s) (cut s).

(** [communicate_server] in [client.c]. *)
Definition communicate_server (a : answer) (s : state) : outcome state :=
  match client s with
  | CInput =>
      defined (memset0 (input s) SIZE_CLIENT) (λ b,
      defined (fgets b SIZE_CLIENT (stdin s)) (λ '(b, rest),
      Next (State CWrite b rest (responses s) (server s) (printed s) (to_server s) (to_client s)
              (written s) (received s) (cut s))))
  | CWrite =>
      defined (strlen (input s)) (λ n,
      match a with
      | Moves k =>
          if writable n (server_gone s) k then
            let d := take k (input s) in
            Next (State CRead (input s) (stdin s) (responses s) (server s) (printed s)
                    (to_server s ++ d) (to_client s) (written s ++ d) (received s)
                    (cut s || bool_decide (k < n)))
          else Disabled
      | Fails => Next (client_at CStop s)
      end)
  | CRead =>
      match a with
      | Moves k =>
          if readable SIZE_CLIENT (to_client s) (server_gone s) k then
            let d := take k (to_client s) in
            defined (write_at (input s) 0 d) (λ b,
            Next (State CPrint b (stdin s) (responses s) (server s) (printed s) (to_server s)
                    (drop k (to_client s)) (written s) (received s ++ d) (cut s)))
          else Disabled
      | Fails => Next (client_at CStop s)
      end
  | CPrint =>
      defined (cstr (input s)) (λ t,
      Next (State CInput (input s) (stdin s) (responses s ++ [t]) (server s) (printed s)
              (to_server s) (to_client s) (written s) (received s) (cut s)))
  | CStop => Disabled
  end.

(** [communicate_client] in [server.c]; [memory] is what the array declared in
    the loop's body holds before [read]. *)
Definition communicate_client (a : answer) (memory : buffer) (s : state) : outcome state :=
  match server s with
  | SRead =>
      if decide (length memory = SIZE_SERVER) then
        match a with
        | Moves k =>
            if readable SIZE_SERVER (to_server s) (client_gone s) k then
              defined (write_at memory 0 (take k (to_server s))) (λ b,
              Next (State (client s) (input s) (stdin s) (responses s) (SPrint (Some k) b) (printed s)
                      (drop k (to_server s)) (to_client s) (written s) (received s) (cut s)))
            else Disabled
        | Fails => Next (server_at (SPrint None memory) s)
        end
      else Disabled
  | SPrint ret b =>
      defined (cstr b) (λ t,
      Next (State (client s) (input s) (stdin s) (responses s)
              (match ret with Some n => SWrite n b | None => SStop end) (printed s ++ [t])
              (to_server s) (to_client s) (written s) (received s) (cut s)))
  | SWrite n b =>
      match a with
      | Moves k =>
          if writable n (client_gone s) k then
            defined (memset0 b SIZE_SERVER) (λ _,
            Next (State (client s) (input s) (stdin s) (responses s) SRead (printed s)
                    (to_server s) (to_client s ++ take k b) (written s) (received s)
                    (cut s || bool_decide (k < n))))
          else Disabled
      | Fails => Next (server_at SStop s)
      end
  | SStop => Disabled
  end.

Inductive label : Type := Client (a : answer) | Server (a : answer) (memory : buffer).

Definition step (l : label) (s : state) : outcome state :=
  match l with
  | Client a => communicate_server a s
  | Server a memory => communicate_client a memory s
  end.

(** What the server has read and not written yet. *)
Definition held (s : state) : list ascii :=
  match server s with
  | SPrint (Some n) b | SWrite n b => take n b
  | _ => []
  end.

(** The bytes the client has put in, in the order in which they come back. *)
Definition in_flight (s : state) : list ascii :=
  received s ++ to_client s ++ held s ++ to_server s.

End Stream.

(** ** Setting up the stream server *)
Module Setup.

(** The socket and the directory entry [./dsock_file]. *)
Record kernel : Type := Kernel { bound : bool; path_exists : bool; listening : bool }.

(** [bind] gives an address to a socket that has none, if the path is free. *)
Definition bind (ok : bool) (k : kernel) : bool * kernel :=
  if ok && negb (bound k) && negb (path_exists k) then (true, Kernel true true (listening k))
  else (false, k).

(** When the process exits its sockets go, and the path stays. *)
Definition exit_process (k : kernel) : bool * kernel := (false, Kernel false (path_exists k) false).

(** [main] of [server.c] up to the loop: does the loop begin, and what is left. *)
Definition start (socket_ok bind1_ok bind2_ok listen_ok : bool) (k : kernel) : bool * kernel :=
  if socket_ok then
    let '(r, k) := bind bind1_ok (Kernel false (path_exists k) false) in
    if r then
      let '(r, k) := bind bind2_ok k in
      if r then
        if listen_ok then (true, Kernel (bound k) (path_exists k) true)
        else exit_process k
      else exit_process k
    else exit_process k
  else exit_process k.

(** [main] of [client.c]: [communicate_server] is called if there is somebody
    to connect to; [false] is [exit(EXIT_FAILURE)]. *)
Definition connect_server (socket_ok connect_ok : bool) (k : kernel) : bool :=
  socket_ok && (connect_ok && path_exists k && listening k).

(** The loop of [main]: the parent accepts and forks; a child serves its
    client and then removes the path; [zombies] are children not waited for. *)
Record serving : Type := Serving {
  parent : bool;
  path : bool;
  children : nat;
  zombies : nat;
  pending : bool
}.

Inductive event : Type :=
| Accept (accept_ok fork_ok : bool)      (* a client connects *)
| ChildDone                              (* communicate_client has returned *)
| Handler.                               (* sigchld_handler *)

Definition serve (e : event) (s : serving) : outcome serving :=
  match e with
  | Accept accept_ok fork_ok =>
      if parent s && path s then
        if accept_ok && fork_ok then
          Next (Serving true (path s) (children s + 1) (zombies s) (pending s))
        else Next (Serving false (path s) (children s) (zombies s) (pending s))
      else Disabled
  | ChildDone =>
      match children s with
      | 0 => Disabled
      | S n => Next (Serving (parent s) false n (zombies s + 1) true)
      end
  | Handler =>
      if parent s && pending s then
        (* wait() takes one child, and blocks while there is none to take *)
        match zombies s with
        | 0 => Disabled
        | S z => Next (Serving (parent s) (path s) (children s) z false)
        end
      else Disabled
  end.

End Setup.

(** ** Datagrams *)
Module Udp.

Definition BUFFER_SIZE : nat := 1024.

(** [udp_server.c]. *)
Inductive server_pc : Type := UOpen | UBind | ULoop | UExit.

Record udp_server : Type := Server {
  upc : server_pc;
  sbuffer : buffer;
  log : list (list ascii);
  replies : list (list ascii)
}.

(** How a round of the server goes; [socket] and [bind] use the second. *)
Inductive server_event : Type := Datagram (d : list ascii) (sent : bool) | Answer (ok : bool).

Definition server_step (e : server_event) (s : udp_server) : outcome udp_server :=
  match upc s, e with
  | UOpen, Answer ok => Next (Server (if ok then UBind else UExit) (sbuffer s) (log s) (replies s))
  | UBind, Answer ok => Next (Server (if ok then ULoop else UExit) (sbuffer s) (log s) (replies s))
  | ULoop, Answer false =>               (* recvfrom fails *)
      defined (memset0 (sbuffer s) BUFFER_SIZE) (λ b, Next (Server UExit b (log s) (replies s)))
  | ULoop, Datagram d sent =>
      defined (memset0 (sbuffer s) BUFFER_SIZE) (λ b,
      let recv_len := length (take BUFFER_SIZE d) in
      defined (write_at b 0 (take BUFFER_SIZE d)) (λ b,
      defined (cstr b) (λ t,
      if sent then Next (Server ULoop b (log s ++ [t]) (replies s ++ [take recv_len b]))
      else Next (Server UExit b (log s ++ [t]) (replies s)))))
  | _, _ => Disabled
  end.

(** [udp_client.c]. *)
Inductive client_pc : Type := KOpen | KAddress | KSend | KReceive | KExit.

Record udp_client : Type := Client {
  kpc : client_pc;
  kbuffer : buffer;
  kstdin : list ascii;
  sent : list (list ascii);
  screen : list (list ascii)
}.

Inductive client_event : Type := Reply (d : list ascii) | Result (ok : bool).

Definition client_step (e : client_event) (s : udp_client) : outcome udp_client :=
  match kpc s, e with
  | KOpen, Result ok =>
      Next (Client (if ok then KAddress else KExit) (kbuffer s) (kstdin s) (sent s) (screen s))
  | KAddress, Result ok =>
      Next (Client (if ok then KSend else KExit) (kbuffer s) (kstdin s) (sent s) (screen s))
  | KSend, Result ok =>
      defined (fgets (kbuffer s) BUFFER_SIZE (kstdin s)) (λ '(b, rest),
      defined (strlen b) (λ n,
      if ok then Next (Client KReceive b rest (sent s ++ [take n b]) (screen s))
      else Next (Client KExit b rest (sent s) (screen s))))
  | KReceive, Reply d =>
      defined (memset0 (kbuffer s) BUFFER_SIZE) (λ b,
      defined (write_at b 0 (take BUFFER_SIZE d)) (λ b,
      defined (cstr b) (λ t, Next (Client KSend b (kstdin s) (sent s) (screen s ++ [t])))))
  | KReceive, Result false =>
      defined (memset0 (kbuffer s) BUFFER_SIZE) (λ b,
      Next (Client KExit b (kstdin s) (sent s) (screen s)))
  | _, _ => Disabled
  end.

(** A round of the two together: what the client sends reaches the server, and
    its reply the client. *)
Definition round (cs : udp_client * udp_server) : outcome (udp_client * udp_server) :=
  match client_step (Result true) cs.1 with
  | Next c =>
      defined (last (sent c)) (λ d,
      match server_step (Datagram d true) cs.2 with
      | Next s =>
          defined (last (replies s)) (λ r,
          match client_step (Reply r) c with
          | Next c' => Next (c', s)
          | Undefined => Undefined
          | Disabled => Disabled
          end)
      | Undefined => Undefined
      | Disabled => Disabled
      end)
  | Undefined => Undefined
  | Disabled => Disabled
  end.

Fixpoint rounds (n : nat) (cs : udp_client * udp_server) : outcome (udp_client * udp_server) :=
  match n with
  | 0 => Next cs
  | S n' =>
      match round cs with Next cs' => rounds n' cs' | Undefined => Undefined | Disabled => Disabled end
  end.

(** The lines of a text, cut where the array is full. *)
Fixpoint pieces (fuel : nat) (text : list ascii) : list (list ascii) :=
  match fuel, text with
  | S fuel', _ :: _ => let '(p, r) := line (BUFFER_SIZE - 1) text in p :: pieces fuel' r
  | _, _ => []
  end.

End Udp.

(** ** Laws *)

Lemma line_app n l : (line n l).1 ++ (line n l).2 = l.
Proof.
  revert l. induction n as [|n IH]; intros [|c l]; simpl; try done. case_decide; [done|].
  specialize (IH l). destruct (line n l) as [p r]. simpl in *. by rewrite IH.
Qed.

Lemma length_line n l : length (line n l).1 ≤ n.
Proof.
  revert l. induction n as [|n IH]; intros [|c l]; simpl; try lia. case_decide; [simpl; lia|].
  specialize (IH l). destruct (line n l) as [p r]. simpl in *. lia.
Qed.

Lemma line_nonempty n l : 0 < n → l ≠ [] → (line n l).1 ≠ [].
Proof.
  intros Hn Hl. destruct n as [|n], l as [|c l]; try lia; try done. simpl.
  case_decide; [done|]. by destruct (line n l).
Qed.

(** Reading a line into an array that has room for it. *)
Lemma fgets_ok b n text p r :
  text ≠ [] → 0 < n ≤ length b → line (n - 1) text = (p, r) →
  fgets b n text = Some (p ++ NUL :: drop (S (length p)) b, r).
Proof.
  intros Ht Hn E. unfold fgets. destruct text as [|c text]; [done|]. rewrite E.
  pose proof (length_line (n - 1) (c :: text)) as Hl. rewrite E in Hl. simpl in Hl.
  change (write_at b 0 (p ++ [NUL])) with (sprintf b p). rewrite sprintf_ok; [done|lia].
Qed.

Module StreamProofs.
Import Stream.

Lemma length_fgets b n l b' r : fgets b n l = Some (b', r) → length b' = length b.
Proof.
  unfold fgets. destruct l as [|c l]; [by intros [= <- <-]|].
  destruct (line (n - 1) (c :: l)) as [p q]. intros (x & Hx%length_write_at & [= <- <-])%bind_Some.
  done.
Qed.

Lemma writable_le n c k : writable n c k = true → k ≤ n.
Proof. intros [[H%bool_decide_eq_true _]%andb_true_iff _]%andb_true_iff. done. Qed.

Lemma readable_le n q c k : readable n q c k = true → k ≤ n ∧ k ≤ length q.
Proof.
  intros [[H1%bool_decide_eq_true H2%bool_decide_eq_true]%andb_true_iff _]%andb_true_iff. done.
Qed.

Lemma readable_all n q c : 0 < n → n ≤ length q → readable n q c n = true.
Proof. intros H1 H2. unfold readable. by rewrite !(bool_decide_true (_ ≤ _)) // (bool_decide_true (0 < n)). Qed.

Lemma take_write_at b d b' : write_at b 0 d = Some b' → take (length d) b' = d.
Proof.
  unfold write_at. case_decide; [|done]. intros [= <-]. simpl. apply take_app_length.
Qed.

Lemma take_read k q m b : k ≤ length q → write_at m 0 (take k q) = Some b → take k b = take k q.
Proof. intros Hk Hw%take_write_at. by rewrite length_take_le in Hw. Qed.

(** The bytes under way come from the client, in order; if no [write] has been
    cut and the server runs, they are all that the client has written. *)
Definition echo_inv (s : state) : Prop :=
  in_flight s `sublist_of` written s ∧
  (cut s = false → server s ≠ SStop → in_flight s = written s).

Lemma echo_inv_same s s' :
  in_flight s' = in_flight s → written s' = written s → (cut s' = false → cut s = false) →
  (server s' ≠ SStop → server s ≠ SStop) → echo_inv s → echo_inv s'.
Proof. intros E1 E2 E3 E4 [H1 H2]. split; rewrite E1 E2; [done|]. intros Hc Hs. auto. Qed.

Ltac step_cases :=
  repeat match goal with
  | H : defined _ _ = Next _ |- _ => apply defined_Next in H as (? & ? & H)
  | H : (let '(_, _) := ?p in _) = Next _ |- _ => destruct p
  | H : (if ?b then _ else _) = Next _ |- _ => destruct b eqn:?; [|discriminate]
  | H : Next _ = Next _ |- _ => injection H as <-
  end.

Lemma client_echo_inv a s s' :
  communicate_server a s = Next s' → echo_inv s → echo_inv s'.
Proof.
  unfold communicate_server. destruct (client s) eqn:Ec; intros Hs; [| | | |done].
  - step_cases. apply echo_inv_same; done.
  - destruct a as [k|]; step_cases; [|by apply echo_inv_same].
    intros [H1 H2]. unfold echo_inv, in_flight, held in *. cbn in *. rewrite !app_assoc.
    rewrite !app_assoc in H1 H2. split; [by apply sublist_app|].
    intros [Hc _]%orb_false_iff Hs. by rewrite H2.
  - destruct a as [k|]; step_cases; [|by apply echo_inv_same]. apply echo_inv_same; [|done..].
    unfold in_flight, held. cbn. by rewrite -!app_assoc (app_assoc (take k _)) take_drop.
  - step_cases. by apply echo_inv_same.
Qed.

Lemma server_echo_inv a m s s' :
  communicate_client a m s = Next s' → echo_inv s → echo_inv s'.
Proof.
  unfold communicate_client. destruct (server s) as [|ret b|n b|] eqn:Es; intros Hs; [| | |done].
  - case_decide; [|done]. destruct a as [k|]; step_cases.
    + apply echo_inv_same; try done; [|by rewrite Es]. unfold in_flight, held. cbn. rewrite Es.
      apply readable_le in Heqb as [_ Hk]. by rewrite (take_read k (to_server s) m) // take_drop.
    + apply echo_inv_same; try done; [|by rewrite Es]. unfold in_flight, held. cbn. by rewrite Es.
  - step_cases. destruct ret as [n|]; apply echo_inv_same; unfold in_flight, held; cbn;
      by rewrite ?Es.
  - destruct a as [k|]; step_cases; intros [H1 H2]; unfold echo_inv, in_flight, held in *; cbn in *;
      rewrite Es in H1 H2.
    + apply writable_le in Heqb0 as Hk. split.
      * etrans; [|exact H1]. rewrite -!app_assoc /=. do 2 (apply sublist_app; [done|]).
        apply sublist_app; [|done]. replace (take k b) with (take k (take n b)).
        { apply sublist_take. } rewrite take_take. f_equal. lia.
      * intros [Hc Hk'%bool_decide_eq_false]%orb_false_iff _. replace k with n by lia.
        rewrite -!app_assoc /=. by apply H2.
    + split; [|done]. etrans; [|exact H1]. do 2 (apply sublist_app; [done|]). by apply sublist_inserts_l.
Qed.

(** C21. In every run of client and server, whatever the calls do, what the client
    has received comes from what it has written, in order; as long as no
    [write] is cut and the server runs it is a prefix of that, and the rest is
    still under way. *)
Theorem echo_stream text junk s :
  reachable step (init text junk) s →
  received s `sublist_of` written s ∧
  (cut s = false → server s ≠ SStop →
   written s = received s ++ to_client s ++ held s ++ to_server s).
Proof.
  intros Hr. enough (echo_inv s) as [H1 H2].
  { split; [|intros; symmetry; by apply H2]. etrans; [|exact H1]. unfold in_flight.
    by apply sublist_inserts_r. }
  revert s Hr. apply invariant_reachable; [done|].
  intros [a|a m] s s' Hi Hs; [by eapply client_echo_inv|by eapply server_echo_inv].
Qed.

Definition word : list ascii := chars "abc" ++ [NEWLINE].
Definition zeros (n : nat) : buffer := replicate n NUL.

(** One message there and back. *)
Definition there_and_back : list label :=
  [Client Fails; Client (Moves 4); Server (Moves 4) (zeros 5); Server Fails (zeros 5);
   Server (Moves 4) (zeros 5); Client (Moves 4); Client Fails].

Lemma echo_stream_witness :
  ∃ s, run step there_and_back (init word (zeros 128)) = Next s ∧ responses s = [word] ∧
    received s `sublist_of` written s ∧
    (cut s = false → server s ≠ SStop →
     written s = received s ++ to_client s ++ held s ++ to_server s).
Proof.
  eexists. split; [vm_compute; reflexivity|]. split; [reflexivity|].
  eapply (echo_stream word (zeros 128)).
  eapply (run_reachable step (init word (zeros 128)) there_and_back); [apply reachable_init|].
  vm_compute. reflexivity.
Defined.

(** Five bytes at once fill the server's array: the [printf] behind the [read]
    runs past its end. *)
Theorem full_read_overruns s m m' a :
  server s = SRead → length m = SIZE_SERVER → SIZE_SERVER ≤ length (to_server s) →
  no_nul (take SIZE_SERVER (to_server s)) →
  run step [Server (Moves SIZE_SERVER) m; Server a m'] s = Undefined.
Proof.
  intros Es Hm Hl Hn. cbn [run step]. unfold communicate_client at 1. rewrite Es.
  rewrite decide_True //. rewrite readable_all; [|unfold SIZE_SERVER; lia|done].
  rewrite write_at_0; [|rewrite length_take Hm; lia].
  rewrite drop_ge; [|rewrite length_take Hm; lia]. rewrite app_nil_r. cbn [defined].
  unfold communicate_client. cbn [server]. unfold cstr. by rewrite strlen_full.
Qed.

Lemma full_read_overruns_witness :
  ∃ s, run step [Client Fails; Client (Moves 6)] (init (chars "hello" ++ [NEWLINE]) (zeros 128)) = Next s ∧
    run step [Server (Moves SIZE_SERVER) (zeros 5); Server Fails (zeros 5)] s = Undefined.
Proof.
  eexists. split; [vm_compute; reflexivity|].
  apply full_read_overruns; [reflexivity..|cbn; unfold SIZE_SERVER; lia|].
  by apply (bool_decide_unpack (no_nul _)).
Defined.

End StreamProofs.

Module SetupProofs.
Import Setup.

(** C34. [server.c] calls [bind] twice on one socket, so whatever the calls answer it
    exits with a failure before it listens, no client can connect afterwards,
    and the path it has created makes every later start fail at the first
    [bind]. *)
Theorem server_never_listens socket_ok bind1_ok bind2_ok listen_ok k :
  let '(running, k') := start socket_ok bind1_ok bind2_ok listen_ok k in
  running = false ∧
  (∀ socket_ok' connect_ok, connect_server socket_ok' connect_ok k' = false) ∧
  path_exists k' = path_exists k || (socket_ok && bind1_ok) ∧
  (path_exists k' = true → ∀ ok, bind ok (Kernel false (path_exists k') false) =
                                   (false, Kernel false (path_exists k') false)).
Proof.
  destruct k as [b p l]. destruct socket_ok, bind1_ok, bind2_ok, listen_ok, p; cbn;
    (split; [done|split; [intros [] []; done|split; [done|intros E []; done]]]).
Qed.

Lemma no_path_step e s s' : serve e s = Next s' → path s = false → path s' = false.
Proof.
  unfold serve. intros Hs Hp. rewrite Hp andb_false_r in Hs.
  destruct e as [x y| |]; [done| |].
  - destruct (children s); [done|]. by injection Hs as <-.
  - destruct (parent s && pending s), (zombies s); try done. by injection Hs as <-.
Qed.

(** Were the server to run, the first child that ends would take its path
    away: from then on no client is accepted, whatever happens. *)
Theorem first_client_ends_service s s' accept_ok fork_ok :
  path s = false → reachable serve s s' → serve (Accept accept_ok fork_ok) s' = Disabled.
Proof.
  intros Hp Hr. cut (path s' = false).
  { intros E. unfold serve. by rewrite E andb_false_r. }
  induction Hr as [|e t t' _ IH Ht]; [done|]. by eapply no_path_step.
Qed.

(** Two clients, the first of which leaves. *)
Lemma first_client_ends_service_witness :
  ∃ s, run serve [Accept true true; Accept true true; ChildDone] (Serving true true 0 0 false) = Next s ∧
    serve (Accept true true) s = Disabled.
Proof.
  eexists. split; [reflexivity|].
  eapply first_client_ends_service; [|apply reachable_init]; reflexivity.
Defined.

End SetupProofs.

Module UdpProofs.
Import Udp.

Lemma size_gt : 1 < BUFFER_SIZE.
Proof. unfold BUFFER_SIZE. lia. Qed.
#[local] Opaque BUFFER_SIZE.

Lemma cstr_until d b : cstr (d ++ NUL :: b) = Some (until_nul d).
Proof.
  unfold cstr. induction d as [|c d IH]; [done|]. cbn. case_decide; [done|].
  destruct (strlen (d ++ NUL :: b)) as [n|]; [|done]. cbn in *. by injection IH as ->.
Qed.

(** Receiving a datagram into a cleared array. *)
Lemma receive b d :
  length b = BUFFER_SIZE → length d < BUFFER_SIZE →
  ∃ b0, memset0 b BUFFER_SIZE = Some b0 ∧
    write_at b0 0 (take BUFFER_SIZE d) =
      Some (d ++ NUL :: replicate (BUFFER_SIZE - S (length d)) NUL) ∧
    length (d ++ NUL :: replicate (BUFFER_SIZE - S (length d)) NUL) = BUFFER_SIZE.
Proof.
  intros Hb Hd. exists (replicate BUFFER_SIZE NUL). split.
  { rewrite memset0_ok; [|lia]. rewrite drop_ge; [|lia]. by rewrite app_nil_r. }
  rewrite take_ge; [|lia]. split.
  - rewrite write_at_0; [|rewrite length_replicate; lia]. f_equal. f_equal.
    rewrite drop_replicate. replace (BUFFER_SIZE - length d) with (S (BUFFER_SIZE - S (length d))) by lia.
    done.
  - rewrite length_app /= length_replicate. lia.
Qed.

Lemma server_step_ok s d :
  upc s = ULoop → length (sbuffer s) = BUFFER_SIZE → length d < BUFFER_SIZE →
  ∃ b, length b = BUFFER_SIZE ∧
    server_step (Datagram d true) s = Next (Server ULoop b (log s ++ [until_nul d]) (replies s ++ [d])).
Proof.
  intros Hpc Hb Hd. destruct (receive _ d Hb Hd) as (b0 & E0 & E1 & Hl).
  eexists. split; [exact Hl|]. unfold server_step. rewrite Hpc E0. cbn [defined]. rewrite E1.
  cbn [defined]. rewrite cstr_until. cbn [defined]. rewrite (take_ge d); [|lia].
  by rewrite take_app_length.
Qed.

(** The server answers every datagram of less than 1024 bytes with a copy,
    whatever it holds, and prints what stands in front of its first zero. *)
Theorem udp_server_echoes s ds :
  upc s = ULoop → length (sbuffer s) = BUFFER_SIZE → Forall (λ d, length d < BUFFER_SIZE) ds →
  ∃ s', run server_step ((λ d, Datagram d true) <$> ds) s = Next s' ∧ upc s' = ULoop ∧
    replies s' = replies s ++ ds ∧ log s' = log s ++ (until_nul <$> ds).
Proof.
  intros Hpc Hb Hds. revert s Hpc Hb. induction Hds as [|d ds Hd Hds IH]; intros s Hpc Hb.
  { exists s. by rewrite !app_nil_r. }
  destruct (server_step_ok s d Hpc Hb Hd) as (b & Hl & E). cbn [fmap list_fmap run].
  rewrite E. destruct (IH (Server ULoop b (log s ++ [until_nul d]) (replies s ++ [d])) eq_refl Hl) as (s' & E' & H1 & H2 & H3). exists s'.
  by rewrite H2 H3 /= -!app_assoc.
Qed.

(** Two datagrams, one with a zero inside. *)
Lemma udp_server_echoes_witness :
  let s := Server ULoop (replicate BUFFER_SIZE NUL) [] [] in
  let ds := [chars "ab"; chars "c" ++ [NUL] ++ chars "d"] in
  ∃ s', run server_step ((λ d, Datagram d true) <$> ds) s = Next s' ∧ upc s' = ULoop ∧
    replies s' = replies s ++ ds ∧ log s' = log s ++ [chars "ab"; chars "c"].
Proof.
  apply (udp_server_echoes (Server ULoop (replicate BUFFER_SIZE NUL) [] [])
           [chars "ab"; chars "c" ++ [NUL] ++ chars "d"]);
    [reflexivity|apply length_replicate|].
  repeat constructor; apply Nat.ltb_lt; reflexivity.
Defined.

(** A datagram that fills the array: the server's [printf] runs past its end. *)
Theorem udp_full_datagram s d ok :
  upc s = ULoop → length (sbuffer s) = BUFFER_SIZE → BUFFER_SIZE ≤ length d →
  no_nul (take BUFFER_SIZE d) → server_step (Datagram d ok) s = Undefined.
Proof.
  intros Hpc Hb Hd Hn. unfold server_step. rewrite Hpc memset0_ok; [|lia]. cbn [defined].
  rewrite drop_ge; [|lia]. rewrite app_nil_r write_at_0; [|rewrite length_take length_replicate; lia].
  rewrite drop_ge; [|rewrite length_take length_replicate; lia]. rewrite app_nil_r. cbn [defined].
  unfold cstr. by rewrite strlen_full.
Qed.

Lemma udp_full_datagram_witness :
  server_step (Datagram (replicate BUFFER_SIZE "a"%char) true)
    (Server ULoop (replicate BUFFER_SIZE NUL) [] []) = Undefined.
Proof.
  apply udp_full_datagram; [reflexivity|apply length_replicate|rewrite length_replicate; done|].
  apply (bool_decide_unpack (no_nul _)). vm_compute. exact I.
Defined.

(** A round in which [fgets] leaves the string [p] in the client's array. *)
Lemma round_ok c s p b rest :
  kpc c = KSend → upc s = ULoop → length (sbuffer s) = BUFFER_SIZE →
  fgets (kbuffer c) BUFFER_SIZE (kstdin c) = Some (p ++ NUL :: b, rest) →
  length (p ++ NUL :: b) = BUFFER_SIZE → no_nul p →
  ∃ c' s' b', round (c, s) = Next (c', s') ∧ kpc c' = KSend ∧ kstdin c' = rest ∧
    kbuffer c' = p ++ NUL :: b' ∧ length (kbuffer c') = BUFFER_SIZE ∧
    screen c' = screen c ++ [p] ∧ upc s' = ULoop ∧ length (sbuffer s') = BUFFER_SIZE.
Proof.
  intros Hk Hs Hb Ef Hl Hp. assert (length p < BUFFER_SIZE) as Hlt.
  { rewrite length_app /= in Hl. lia. }
  destruct (server_step_ok s p Hs Hb Hlt) as (sb & Hsb & Es).
  destruct (receive _ p Hl Hlt) as (b0 & E0 & E1 & Hl1).
  set (b1 := replicate (BUFFER_SIZE - S (length p)) NUL) in *.
  exists (Client KSend (p ++ NUL :: b1) rest (sent c ++ [p]) (screen c ++ [p])),
    (Server ULoop sb (log s ++ [until_nul p]) (replies s ++ [p])), b1.
  split; [|done]. unfold round, client_step at 1. cbn [fst snd]. rewrite Hk Ef. cbn [defined].
  rewrite strlen_app //. cbn [defined]. cbn [sent]. rewrite last_snoc. cbn [defined].
  rewrite take_app_length Es. cbn [replies]. rewrite last_snoc. cbn [defined].
  unfold client_step. cbn [kpc kbuffer kstdin sent screen]. rewrite E0. cbn [defined]. rewrite E1.
  cbn [defined]. rewrite cstr_app //.
Qed.

(** At the end of the input the client sends what it has received last, again
    and again. *)
Lemma rounds_eof k c s p b :
  kpc c = KSend → upc s = ULoop → length (sbuffer s) = BUFFER_SIZE → kstdin c = [] →
  kbuffer c = p ++ NUL :: b → length (kbuffer c) = BUFFER_SIZE → no_nul p →
  ∃ c' s', rounds k (c, s) = Next (c', s') ∧ screen c' = screen c ++ replicate k p.
Proof.
  revert c s b. induction k as [|k IH]; intros c s b Hk Hs Hb He Hp Hl Hn; cbn [rounds replicate].
  { exists c, s. by rewrite app_nil_r. }
  destruct (round_ok c s p b []) as (c1 & s1 & b1 & E & Hk1 & He1 & Hp1 & Hl1 & Hsc & Hs1 & Hb1);
    try done; [by rewrite /fgets He Hp|by rewrite -Hp|].
  rewrite E. destruct (IH c1 s1 b1) as (c2 & s2 & E2 & Hsc2); try done.
  exists c2, s2. split; [done|]. by rewrite Hsc2 Hsc -app_assoc.
Qed.

(** The input, piece by piece, and then its last piece over and over. *)
Lemma rounds_text n text k c s :
  kpc c = KSend → upc s = ULoop → length (sbuffer s) = BUFFER_SIZE →
  length (kbuffer c) = BUFFER_SIZE → kstdin c = text → length text ≤ n → text ≠ [] → no_nul text →
  mjoin (pieces n text) = text ∧
  ∃ l c' s', last (pieces n text) = Some l ∧ rounds (length (pieces n text) + k) (c, s) = Next (c', s') ∧
    screen c' = screen c ++ pieces n text ++ replicate k l.
Proof.
  revert text c s. induction n as [|n IH]; intros text c s Hk Hs Hb Hl He Hle Hne Hn.
  { destruct text; [done|cbn in Hle; lia]. }
  pose proof size_gt as H1.
  pose proof (line_app (BUFFER_SIZE - 1) text) as Ha.
  pose proof (length_line (BUFFER_SIZE - 1) text) as Hlen.
  assert ((line (BUFFER_SIZE - 1) text).1 ≠ []) as Hp0 by (apply line_nonempty; [lia|done]).
  destruct (line (BUFFER_SIZE - 1) text) as [p r] eqn:E. cbn [fst snd] in Ha, Hlen, Hp0.
  assert (no_nul p ∧ no_nul r) as [Hnp Hnr] by (rewrite -Ha in Hn; by apply no_nul_split).
  assert (length r < length text) as Hr.
  { rewrite -Ha length_app. destruct p; [done|cbn; lia]. }
  destruct (round_ok c s p (drop (S (length p)) (kbuffer c)) r)
    as (c1 & s1 & b1 & E1 & Hk1 & He1 & Hp1 & Hl1 & Hsc & Hs1 & Hb1); try done.
  { rewrite He. apply fgets_ok; [done|lia|done]. }
  { rewrite length_app /= length_drop Hl. lia. }
  assert (pieces (S n) text = p :: pieces n r) as ->.
  { cbn [pieces]. rewrite E. by destruct text. }
  cbn [length Nat.add rounds]. rewrite E1. destruct (decide (r = [])) as [->|Hr'].
  - assert (pieces n [] = []) as -> by (by destruct n). split; [by rewrite /= app_nil_r -Ha app_nil_r|].
    destruct (rounds_eof k c1 s1 p b1) as (c2 & s2 & E2 & Hsc2); try done.
    exists p, c2, s2. split; [done|]. split; [done|]. by rewrite Hsc2 Hsc -app_assoc.
  - destruct (IH r c1 s1) as (Hj & l & c2 & s2 & El & E2 & Hsc2); try done; [lia|].
    split; [by rewrite /= Hj|]. exists l, c2, s2. rewrite Hsc2 Hsc -app_assoc. split; [|done].
    by rewrite last_cons El.
Qed.

(** C22. Client and server together: the answers the client shows are the pieces
    [fgets] cuts its input into, and put together they are that input; after
    its end the last answer is sent and shown again in every further round. *)
Theorem udp_echo text k junk sb log0 :
  text ≠ [] → no_nul text → length junk = BUFFER_SIZE → length sb = BUFFER_SIZE →
  let ps := pieces (length text) text in
  mjoin ps = text ∧
  ∃ l c s, last ps = Some l ∧
    rounds (length ps + k) (Client KSend junk text [] [], Server ULoop sb log0 []) = Next (c, s) ∧
    screen c = ps ++ replicate k l.
Proof.
  intros Ht Hn Hj Hs.
  apply (rounds_text (length text) text k (Client KSend junk text [] []) (Server ULoop sb log0 []));
    done.
Qed.

(** Two lines, and three rounds after the end; [q] does not end the client. *)
Lemma udp_echo_witness :
  let text := chars "hi" ++ [NEWLINE] ++ chars "q" ++ [NEWLINE] in
  let ps := pieces 5 text in
  mjoin ps = text ∧
  ∃ l c s, last ps = Some l ∧
    rounds (length ps + 3) (Client KSend (replicate BUFFER_SIZE NUL) text [] [],
                            Server ULoop (replicate BUFFER_SIZE NUL) [] []) = Next (c, s) ∧
    screen c = ps ++ replicate 3 l.
Proof.
  apply (udp_echo (chars "hi" ++ [NEWLINE] ++ chars "q" ++ [NEWLINE]) 3);
    [discriminate| |apply length_replicate..].
  apply (bool_decide_unpack (no_nul _)). vm_compute. exact I.
Defined.

End UdpProofs.
