(* ===== verification/MemoryDemos.v ===== *)
(** * MemoryDemos: the memory exercises

    [semestr1/Task4]: a program that changes an environment variable
    ([Environment], from [environment.c]), one that allocates until nothing is
    left and keeps the blocks in a growing table ([Blocks], from
    [heap_corupttion.c]) and one that copies a string to the heap twice
    ([Buffers], from [allocate_memory_heap.c]). *)
From stdpp Require Import base list gmap strings.
From iris.prelude Require Import prelude.
From Stdlib Require Import Ascii.
From S2P Require Import Prelude CString Steps.
#[local] Open Scope nat_scope.

(** ** environment.c *)
Module Environment.

Inductive return_status : Set := ERROR_HAS_OCCURRED | Ok.
Definition CORRECT_NUMBER_ARGS : nat := 2.

Definition env : Type := gmap string string.

(** [setenv] refuses an empty name and one with an equals sign in it; it may
    also run out of memory. *)
Definition valid_name (name : string) : bool :=
  bool_decide (name ≠ ""%string) && bool_decide ("="%char ∉ chars name).
Definition setenv (ok : bool) (name value : string) (e : env) : option env :=
  if ok && valid_name name then Some (<[name := value]> e) else None.

(** The environment afterwards and the result. *)
Definition set_environment (ok : bool) (name_env new_value_env : string) (e : env) :
    env * return_status :=
  match e !! name_env with
  | None => (e, ERROR_HAS_OCCURRED)
  | Some value =>
      match setenv ok value new_value_env e with
      | None => (e, ERROR_HAS_OCCURRED)
      | Some e' => (e', Ok)
      end
  end.

(** What is printed, and the result. *)
Definition print_environment (name_env : string) (e : env) : list string * return_status :=
  match e !! name_env with
  | None => ([], ERROR_HAS_OCCURRED)
  | Some value => ([value], Ok)
  end.

(** [None]: the function ends without a [return]. *)
Definition run_task (ok : bool) (name_env : string) (e : env) :
    env * list string * option return_status :=
  let '(out, ret) := print_environment name_env e in
  match ret with
  | ERROR_HAS_OCCURRED => (e, out, Some ERROR_HAS_OCCURRED)
  | Ok =>
      let '(e, ret) := set_environment ok name_env "TEST" e in
      match ret with
      | ERROR_HAS_OCCURRED => (e, out, Some ERROR_HAS_OCCURRED)
      | Ok =>
          let '(out', ret) := print_environment name_env e in
          (e, out ++ out',
           match ret with ERROR_HAS_OCCURRED => Some ERROR_HAS_OCCURRED | Ok => None end)
      end
  end.

(** [main]; using the value of a call that returned none is undefined. *)
Definition main (ok : bool) (argv : list string) (e : env) : outcome bool :=
  match argv with
  | [_; name_env] =>
      match (run_task ok name_env e).2 with
      | None => Undefined
      | Some Ok => Next true
      | Some ERROR_HAS_OCCURRED => Next false
      end
  | _ => Next false
  end.

(** The variable named by the argument's *value* is set to TEST, and the
    variable itself keeps its value unless that is its own name. *)
Theorem run_task_sets_other name_env value e :
  e !! name_env = Some value → valid_name value = true →
  run_task true name_env e =
    (<[value := "TEST"%string]> e,
     [value; if decide (value = name_env) then "TEST"%string else value], None).
Proof.
  intros He Hv. unfold run_task, print_environment, set_environment, setenv. rewrite He Hv. cbn.
  case_decide as E; [subst; by rewrite lookup_insert_eq|]. by rewrite lookup_insert_ne // He.
Qed.

(** [USER=me] becomes [USER=me me=TEST]. *)
Lemma run_task_sets_other_witness :
  run_task true "USER" {["USER"%string := "me"%string]} =
    (<["me"%string := "TEST"%string]> {["USER"%string := "me"%string]}, ["me"%string; "me"%string], None).
Proof. exact (run_task_sets_other "USER" "me" {["USER"%string := "me"%string]} eq_refl eq_refl). Defined.

(** The program never ends with success: it fails, or uses a value that is not
    there, and that exactly when the variable could be set. *)
Theorem main_never_succeeds ok argv e :
  main ok argv e =
    match argv with
    | [_; name_env] =>
        match e !! name_env with
        | Some value => if ok && valid_name value then Undefined else Next false
        | None => Next false
        end
    | _ => Next false
    end.
Proof.
  unfold main. destruct argv as [|x [|name [|y l]]]; try done.
  unfold run_task, print_environment, set_environment, setenv.
  destruct (e !! name) as [v|] eqn:He; [|done].
  destruct (ok && valid_name v); [|done]. destruct (decide (v = name)) as [->|Hne].
  - by rewrite lookup_insert_eq.
  - by rewrite lookup_insert_ne // He.
Qed.

End Environment.

(** ** heap_corupttion.c *)
Module Blocks.

Definition SIZE_BLOCK : nat := 4096.
Definition POINTER : nat := 8.

(** The table of pointers, as long as its memory; a block is named by the
    round it was allocated in.  [freed] are the blocks given back, [None] in
    [exited] means that the program runs. *)
Record state : Type := State {
  array_allocation : list (option nat);
  i : nat;
  size_allocation : nat;
  size : nat;
  freed : list nat;
  exited : option nat
}.

(** [calloc(size_allocation, sizeof(char* ))]. *)
Definition init : state := State (replicate SIZE_BLOCK None) 0 SIZE_BLOCK 0 [] None.

(** [free_array_allocation]: every entry up to [size] is read. *)
Fixpoint free_entries (array : list (option nat)) (size : nat) : option (list nat) :=
  match size, array with
  | 0, _ => Some []
  | S _, [] => None
  | S size', x :: array' => (λ l, match x with Some b => b :: l | None => l end) <$> free_entries array' size'
  end.

Definition free_array_allocation (s : state) : outcome state :=
  defined (free_entries (array_allocation s) (size_allocation s)) (λ l,
  Next (State [] (i s) (size_allocation s) (size s) (freed s ++ l) (Some 1))).

(** [realloc] to so many bytes; the first entries are kept, new ones hold
    anything (here: no block). *)
Definition realloc (array : list (option nat)) (bytes : nat) : list (option nat) :=
  let n := bytes / POINTER in take n array ++ replicate (n - length array) None.

(** A round of the loop in [heap_corruption]. *)
Definition heap_corruption (malloc_ok realloc_ok : bool) (s : state) : outcome state :=
  match exited s with
  | Some _ => Disabled
  | None =>
      if malloc_ok then
        if decide (i s < length (array_allocation s)) then
          let array := <[i s := Some (i s)]> (array_allocation s) in
          let n := i s + 1 in
          if decide (size_allocation s ≤ n) then
            let sa := size_allocation s + SIZE_BLOCK in
            if realloc_ok then Next (State (realloc array sa) n sa (size s + SIZE_BLOCK) (freed s) None)
            else free_array_allocation (State array n sa (size s + SIZE_BLOCK) (freed s) None)
          else Next (State array n (size_allocation s) (size s + SIZE_BLOCK) (freed s) None)
        else Undefined
      else free_array_allocation s
  end.

(** A round, or a signal: the handler is called with one argument and takes
    three. *)
Inductive label : Set := Round (malloc_ok realloc_ok : bool) | Signal.

Definition step (l : label) (s : state) : outcome state :=
  match l with
  | Round malloc_ok realloc_ok => heap_corruption malloc_ok realloc_ok s
  | Signal => match exited s with None => Undefined | Some _ => Disabled end
  end.

#[local] Opaque SIZE_BLOCK.

(** The state after [n] rounds, while the table is large enough. *)
Definition filled (n : nat) : state :=
  State ((Some <$> seq 0 n) ++ replicate (SIZE_BLOCK - n) None) n SIZE_BLOCK (n * SIZE_BLOCK) [] None.

Lemma length_filled n : n ≤ SIZE_BLOCK → length (array_allocation (filled n)) = SIZE_BLOCK.
Proof. intros Hn. cbn. rewrite length_app length_fmap length_seq length_replicate. lia. Qed.

Lemma insert_filled n :
  n < SIZE_BLOCK → <[n := Some n]> (array_allocation (filled n)) = array_allocation (filled (S n)).
Proof.
  intros Hn. unfold filled. cbn [array_allocation]. rewrite insert_app_r_alt; rewrite length_fmap length_seq; [|lia].
  rewrite Nat.sub_diag seq_S fmap_app -app_assoc. f_equal.
  by replace (SIZE_BLOCK - n) with (S (SIZE_BLOCK - S n)) by lia.
Qed.

Lemma step_filled n r : S n < SIZE_BLOCK → heap_corruption true r (filled n) = Next (filled (S n)).
Proof.
  intros Hn. unfold heap_corruption. cbn [exited i filled].
  rewrite (decide_True (P := n < _)); [|rewrite length_filled; lia].
  rewrite (insert_filled n); [|lia]. cbn [size_allocation filled size freed].
  rewrite decide_False; [|lia]. unfold filled. do 2 f_equal; lia.
Qed.

Lemma run_filled rs n :
  n + length rs < SIZE_BLOCK → run step (Round true <$> rs) (filled n) = Next (filled (n + length rs)).
Proof.
  revert n. induction rs as [|r rs IH]; intros n Hn; cbn [fmap list_fmap run step length] in *;
    [by rewrite Nat.add_0_r|].
  rewrite step_filled; [|lia]. rewrite IH; [|lia]. do 2 f_equal. lia.
Qed.

Lemma filled_0 : init = filled 0.
Proof. unfold init, filled. cbn. by rewrite Nat.sub_0_r. Qed.

Lemma free_entries_app l n m :
  n = length l → free_entries ((Some <$> l) ++ replicate m None) (n + m) = Some l.
Proof.
  intros ->. induction l as [|x l IH]; cbn; [|by rewrite IH].
  induction m as [|m IH]; cbn; [done|]. by rewrite IH.
Qed.

Lemma free_entries_short l n : length l < n → free_entries l n = None.
Proof.
  revert n. induction l as [|x l IH]; intros [|n] Hn; cbn in *; try lia; [done|].
  rewrite IH; [done|lia].
Qed.

(** As long as the table is not full, every block is kept and counted, and
    when memory runs out each of them is given back once. *)
Theorem blocks_kept_and_freed rs r :
  length rs < SIZE_BLOCK →
  run step (Round true <$> rs) init = Next (filled (length rs)) ∧
  ∃ s, run step ((Round true <$> rs) ++ [Round false r]) init = Next s ∧
    freed s = seq 0 (length rs) ∧ exited s = Some 1.
Proof.
  intros Hn. rewrite filled_0. assert (run step (Round true <$> rs) (filled 0) = Next (filled (length rs))) as E.
  { by apply (run_filled rs 0). }
  split; [done|]. rewrite run_app E. cbn. unfold free_array_allocation.
  cbn [array_allocation filled size_allocation].
  replace (free_entries _ SIZE_BLOCK) with (Some (seq 0 (length rs))); [by eexists|].
  rewrite -(free_entries_app _ (length rs) (SIZE_BLOCK - length rs)); [|by rewrite length_seq].
  f_equal. lia.
Qed.

(** Three blocks. *)
Lemma blocks_kept_and_freed_witness :
  run step (Round true <$> [true; true; false]) init = Next (filled 3) ∧
  ∃ s, run step ((Round true <$> [true; true; false]) ++ [Round false true]) init = Next s ∧
    freed s = [0; 1; 2] ∧ exited s = Some 1.
Proof. apply (blocks_kept_and_freed [true; true; false] true). apply Nat.ltb_lt. reflexivity. Defined.

Lemma run_split {A} (l : list A) n : n < length l → ∃ l1 x l2, l = l1 ++ x :: l2 ∧ length l1 = n.
Proof.
  intros Hn. destruct (lookup_lt_is_Some_2 l n Hn) as [x Hx]. exists (take n l), x, (drop (S n) l).
  split; [symmetry; by apply take_drop_middle|]. rewrite length_take. lia.
Qed.

(** The round that fills the table, and what comes of it. *)
Lemma last_filled n x :
  S n = SIZE_BLOCK → ∃ s, length (array_allocation s) = SIZE_BLOCK ∧
    size_allocation s = SIZE_BLOCK + SIZE_BLOCK ∧
    heap_corruption true x (filled n) =
      if x then Next (State (realloc (array_allocation s) (SIZE_BLOCK + SIZE_BLOCK)) (n + 1)
                        (SIZE_BLOCK + SIZE_BLOCK) (n * SIZE_BLOCK + SIZE_BLOCK) [] None)
      else free_array_allocation s.
Proof.
  intros Hn.
  exists (State (array_allocation (filled (S n))) (n + 1) (SIZE_BLOCK + SIZE_BLOCK) (n * SIZE_BLOCK + SIZE_BLOCK) [] None).
  split; [apply (length_filled (S n)); lia|]. split; [done|].
  unfold heap_corruption. cbn [exited i filled].
  rewrite (decide_True (P := n < _)); [|rewrite length_filled; lia].
  rewrite (insert_filled n); [|lia]. rewrite decide_True; [|cbn; lia]. by destruct x.
Qed.

Lemma overrun_after array n x sa sz fr :
  length array = SIZE_BLOCK → S n = SIZE_BLOCK →
  heap_corruption true x (State (realloc array (SIZE_BLOCK + SIZE_BLOCK)) (n + 1) sa sz fr None) = Undefined.
Proof.
  intros Hl Hn. unfold heap_corruption. cbn [exited i array_allocation].
  assert ((SIZE_BLOCK + SIZE_BLOCK) / POINTER ≤ n) as Hd.
  { apply Nat.lt_succ_r. rewrite Hn. apply Nat.Div0.div_lt_upper_bound. unfold POINTER. lia. }
  rewrite decide_False; [done|]. unfold realloc. rewrite length_app length_take length_replicate Hl.
  lia.
Qed.

(** The table is enlarged by a number of entries but [realloc] counts bytes:
    once 4096 blocks have been taken the next access is out of bounds, whether
    [realloc] works or not. *)
Theorem table_overrun rs :
  SIZE_BLOCK < length rs → run step (Round true <$> rs) init = Undefined.
Proof.
  intros Hl. assert (∃ n, S n = SIZE_BLOCK) as [n Hn] by (exists 4095; reflexivity).
  destruct (run_split rs n) as (l1 & x & l2 & -> & <-); [lia|].
  rewrite fmap_app run_app filled_0 (run_filled l1 0); [|lia]. cbn [Nat.add fmap list_fmap run step].
  rewrite length_app /= in Hl. destruct l2 as [|y l2]; [cbn in Hl; lia|].
  destruct (last_filled (length l1) x Hn) as (s & Hs & Hsa & ->). destruct x.
  - cbn [fmap list_fmap run step]. by rewrite overrun_after.
  - unfold free_array_allocation. rewrite free_entries_short; [done|lia].
Qed.

(** 4097 rounds. *)
Lemma table_overrun_witness : run step (Round true <$> replicate 4097 true) init = Undefined.
Proof. apply (table_overrun (replicate 4097 true)). apply Nat.ltb_lt. vm_compute. reflexivity. Defined.

End Blocks.

(** ** allocate_memory_heap.c *)
Module Buffers.
Import Environment.

(** A block of the heap, live or given back. *)
Inductive block : Type := Live (b : buffer) | Freed.

Definition read_string (x : block) (offset : nat) : option (list ascii) :=
  match x with Live b => cstr (drop offset b) | Freed => None end.

(** [free] of a pointer to the middle of a block, or of a block given back. *)
Definition free (x : block) (offset : nat) : option block :=
  match x, offset with Live _, 0 => Some Freed | _, _ => None end.

Definition calloc (n : nat) : block := Live (replicate n NUL).

Definition strcpy (x : block) (s : list ascii) : option block :=
  match x with Live b => Live <$> sprintf b s | Freed => None end.

Definition hello_world : list ascii := chars "hello world".

(** The lines printed and the result. *)
Definition allocate_memory_heap (ok1 ok2 : bool) (size : nat) : outcome (list (list ascii) * return_status) :=
  if ok1 then
    defined (strcpy (calloc size) hello_world) (λ b1,
    defined (read_string b1 0) (λ t1,
    defined (free b1 0) (λ b1,
    defined (read_string b1 0) (λ t2,
    if ok2 then
      defined (strcpy (calloc size) hello_world) (λ b2,
      defined (read_string b2 0) (λ t3,
      defined (free b2 (size / 2)) (λ b2,
      defined (read_string b2 (size / 2)) (λ t4, Next ([t1; t2; t3; t4], Ok)))))
    else Next ([t1; t2], ERROR_HAS_OCCURRED)))))
  else Next ([], ERROR_HAS_OCCURRED).

(** Whenever there is memory, the block is read after it has been freed. *)
Lemma allocate_use_after_free ok2 size : allocate_memory_heap true ok2 size = Undefined.
Proof.
  unfold allocate_memory_heap, strcpy, calloc. destruct (sprintf _ _) as [b|]; [|done].
  cbn. by destruct (cstr _).
Qed.

End Buffers.
