(* ===== verification/ProcessDemos.v ===== *)
(** * ProcessDemos: two processes, two threads

    [semestr1/Task5/Task5_1/main.c], which changes variables in a forked child
    and waits for it ([Fork]), and [semestr2/Task2/Task2_2/semafor/test.c],
    which unlocks an error-checking mutex from the wrong thread
    ([ErrorCheck]). *)
From stdpp Require Import base list.
From iris.prelude Require Import prelude.
From S2P Require Import Prelude Steps.

(** ** Task5_1/main.c *)
Module Fork.
#[local] Open Scope Z_scope.

(** A process's own copies of the two variables. *)
Record memory : Set := Memory { global_value : Z; local_value : Z }.

(** Who prints: the process before the call of [fork], its child, the parent. *)
Inductive process : Set := Before | Child | Parent.

(** A line with the values of the variables, or with the child's pid and code. *)
Inductive output : Set :=
| Values (who : process) (m : memory)
| Ended (pid code : Z).

Inductive pc : Set :=
| Fork                                   (* fork() *)
| Assign                                 (* local_value = 30; global_value = 40 *)
| ChildExit                              (* exit(5) *)
| ParentPrint
| Waitpid
| Exited (code : Z).

(** A process; [other] is the one that has been forked off, or has forked. *)
Record proc : Set := Proc { who : process; at_ : pc; mem : memory }.

Record state : Set := State {
  procs : list proc;
  out : list output
}.

(** [run_task] up to [fork]. *)
Definition init : state :=
  let m := Memory 10 5 in State [Proc Before Fork m] [Values Before m].

(** The macros of [sys/wait.h] on an [int]. *)
Definition WIFEXITED (status : Z) : bool := bool_decide (Z.land status 127 = 0).
Definition WEXITSTATUS (status : Z) : Z := Z.shiftr (Z.land status 65280) 8.

(** The status [waitpid] stores for a process that has called [exit]. *)
Definition wait_status (code : Z) : Z := Z.shiftl (Z.land code 255) 8.

Inductive answer : Set := Returns (pid : Z) | Fails.

Definition child_exited (s : state) : option Z :=
  match procs s with [_; c] => match at_ c with Exited code => Some code | _ => None end | _ => None end.

(** A step of process [k] of the list: the parent is the first one. *)
Definition run_task (k : nat) (a : answer) (s : state) : outcome state :=
  match procs s !! k with
  | None => Disabled
  | Some p =>
      let go (c : pc) (m : memory) (o : list output) : outcome state :=
        Next (State (<[k := Proc (who p) c m]> (procs s)) (out s ++ o)) in
      match at_ p, a with
      | Fork, Fails => go (Exited 1) (mem p) []
      | Fork, Returns _ =>
          Next (State [Proc Parent ParentPrint (mem p); Proc Child Assign (mem p)] (out s))
      | Assign, _ =>
          let m := Memory 40 30 in go ChildExit m [Values Child (mem p); Values Child m]
      | ChildExit, _ => go (Exited 5) (mem p) []
      | ParentPrint, _ => go Waitpid (mem p) [Values Parent (mem p)]
      | Waitpid, Fails => go (Exited 1) (mem p) []
      | Waitpid, Returns child_status =>
          (* waitpid's result, not the status it stored, is taken apart *)
          match child_exited s with
          | None => Disabled
          | Some _ =>
              go (Exited 0) (mem p)
                ((if WIFEXITED child_status then [Ended child_status (WEXITSTATUS child_status)] else [])
                 ++ [Values Parent (mem p)])
          end
      | Exited _, _ => Disabled
      end
  end.

(** [fork] and [waitpid] return the pid of the child. *)
Definition step (child_pid : Z) (x : nat * bool) (s : state) : outcome state :=
  run_task x.1 (if x.2 then Returns child_pid else Fails) s.

(** What a line may be: the child alone sees the new values, and the code in
    the last line is a piece of the pid. *)
Definition line_ok (child_pid : Z) (o : output) : Prop :=
  match o with
  | Values Child m => m = Memory 10 5 ∨ m = Memory 40 30
  | Values _ m => m = Memory 10 5
  | Ended pid code =>
      pid = child_pid ∧ child_pid mod 128 = 0 ∧ code = (child_pid / 256) mod 256
  end.

Definition proc_ok (p : proc) : Prop :=
  match who p, at_ p with
  | Child, (Assign | ChildExit | Exited _) => mem p = Memory 10 5 ∨ mem p = Memory 40 30
  | Child, _ => False
  | _, (Assign | ChildExit) => False
  | _, _ => mem p = Memory 10 5
  end.

Lemma WIFEXITED_mod z : WIFEXITED z = bool_decide (z mod 128 = 0).
Proof. unfold WIFEXITED. change 127 with (Z.ones 7). by rewrite Z.land_ones. Qed.

Lemma WEXITSTATUS_div z : WEXITSTATUS z = (z / 256) mod 256.
Proof.
  unfold WEXITSTATUS. rewrite Z.shiftr_land. change (Z.shiftr 65280 8) with (Z.ones 8).
  rewrite Z.land_ones // Z.shiftr_div_pow2 //.
Qed.

(** A status made by [exit] gives the code back. *)
Lemma WEXITSTATUS_wait code : 0 ≤ code < 256 → WEXITSTATUS (wait_status code) = code ∧ WIFEXITED (wait_status code) = true.
Proof.
  intros Hc. unfold wait_status. change 255 with (Z.ones 8). rewrite Z.land_ones //.
  rewrite Z.mod_small; [|done]. rewrite Z.shiftl_mul_pow2 //. change (2 ^ 8) with 256.
  rewrite WEXITSTATUS_div WIFEXITED_mod Z.div_mul // Z.mod_small //. split; [done|].
  apply bool_decide_true. replace (code * 256) with (code * 2 * 128) by lia. by rewrite Z.mod_mul.
Qed.

Definition good (child_pid : Z) (s : state) : Prop :=
  Forall proc_ok (procs s) ∧ Forall (line_ok child_pid) (out s).

Lemma good_go child_pid s k p c m o :
  good child_pid s → procs s !! k = Some p → proc_ok (Proc (who p) c m) → Forall (line_ok child_pid) o →
  good child_pid (State (<[k := Proc (who p) c m]> (procs s)) (out s ++ o)).
Proof.
  intros [H1 H2] Hk Hp Ho. split; cbn; [by apply Forall_insert|]. by apply Forall_app.
Qed.

Lemma report_ok child_pid :
  Forall (line_ok child_pid)
    ((if WIFEXITED child_pid then [Ended child_pid (WEXITSTATUS child_pid)] else [])
     ++ [Values Parent (Memory 10 5)]).
Proof.
  rewrite WIFEXITED_mod. apply Forall_app. split; [|by repeat constructor].
  case_bool_decide; [|done]. repeat constructor; [done|]. apply WEXITSTATUS_div.
Qed.

Lemma good_step child_pid x s s' : step child_pid x s = Next s' → good child_pid s → good child_pid s'.
Proof.
  unfold step, run_task. intros Hs Hg. destruct (procs s !! x.1) as [p|] eqn:Hk; [|done].
  pose proof (Forall_lookup_1 _ _ _ _ (proj1 Hg) Hk) as Hp.
  pose proof (λ c m o H1 H2, good_go _ s x.1 p c m o Hg Hk H1 H2) as Hgo.
  destruct p as [w c m]. unfold proc_ok in *. cbn [who at_ mem] in *.
  destruct c; [..|done].
  - destruct w; [|done|]; subst m; (destruct x.2; injection Hs as <-; [|by apply Hgo]);
      (split; [|apply Hg]); repeat constructor; cbn; auto.
  - destruct w; [done| |done]. destruct x.2; injection Hs as <-; (apply Hgo; [by right|]);
      apply Forall_cons; (split; [exact Hp|]); apply Forall_cons; (split; [by right|done]).
  - destruct w; [done| |done]. by destruct x.2; injection Hs as <-; apply Hgo.
  - destruct w; [|done|]; subst m; destruct x.2; injection Hs as <-; (apply Hgo; [done|]);
      by repeat constructor.
  - destruct w; [|done|]; subst m; (destruct x.2; [|by injection Hs as <-; apply Hgo]);
      (destruct (child_exited s); [|done]); injection Hs as <-; (apply Hgo; [done|]);
      apply report_ok.
Qed.

(** C35. Whatever the order of the two processes and whether the calls fail: the
    parent never sees the child's assignments, and where it reports a code at
    all, which it does only for pids divisible by 128, that is the second byte
    of the pid and not what the child gave to [exit]. *)
Theorem fork_report child_pid s :
  reachable (step child_pid) init s → Forall (line_ok child_pid) (out s).
Proof.
  intros Hr. enough (good child_pid s) as [_ H] by done. revert s Hr.
  apply invariant_reachable; [by repeat constructor|]. intros x s s' Hg Hs. by eapply good_step.
Qed.

(** A child with pid 1280 seems to have returned 5, one with pid 1024 returns
    4, and for one with pid 1281 nothing is said. *)
Lemma fork_report_witness :
  ∃ s, run (step 1024) [(0%nat, true); (1%nat, true); (1%nat, true); (0%nat, true); (0%nat, true)] init = Next s ∧
    Ended 1024 4 ∈ out s ∧ Forall (line_ok 1024) (out s).
Proof.
  eexists. split; [vm_compute; reflexivity|]. split; [set_solver|]. apply fork_report.
  eapply (run_reachable _ _ [(0%nat, true); (1%nat, true); (1%nat, true); (0%nat, true); (0%nat, true)]);
    [apply reachable_init|]. reflexivity.
Defined.

End Fork.

(** ** semafor/test.c *)
Module ErrorCheck.
#[local] Open Scope nat_scope.

(** What [init_mutex] makes; if [pthread_mutex_init] fails the mutex is as the
    zeroed memory has it, a normal one. *)
Inductive kind : Set := ERRORCHECK | NORMAL.
Record mutex : Set := Mutex { type : kind; owner : option nat }.

(** The two thread functions after [set_cpu]. *)
Inductive lpc : Set := LNone | LLock | LSleep | LDone.
Inductive upc : Set := UNone | UUnlock | UPrint | UDone.
Inductive mpc : Set := MInit | MCreate1 | MCreate2 | MJoin1 | MJoin2 | MExit (ok : bool).

Record state : Set := State {
  main_pc : mpc;
  locker : lpc;
  unlocker : upc;
  the_mutex : mutex;
  unlock_error : option bool;            (* what pthread_mutex_unlock returned *)
  printed_success : bool
}.

Definition init : state := State MInit LNone UNone (Mutex NORMAL None) None false.

(** [pthread_mutex_lock] by thread [t]. *)
Definition mutex_lock (t : nat) (m : mutex) : option mutex :=
  match owner m with None => Some (Mutex (type m) (Some t)) | Some _ => None end.

(** [pthread_mutex_unlock] by thread [t]: an error-checking mutex refuses
    ([true]: an error is returned), a normal one held by another thread or by
    none is undefined. *)
Definition mutex_unlock (t : nat) (m : mutex) : option (bool * mutex) :=
  if decide (owner m = Some t) then Some (false, Mutex (type m) None)
  else match type m with ERRORCHECK => Some (true, m) | NORMAL => None end.

Definition lock (s : state) : outcome state :=
  match locker s with
  | LLock =>
      possible (mutex_lock 1 (the_mutex s)) (λ m,
      Next (State (main_pc s) LSleep (unlocker s) m (unlock_error s) (printed_success s)))
  | LSleep => Next (State (main_pc s) LDone (unlocker s) (the_mutex s) (unlock_error s) (printed_success s))
  | _ => Disabled
  end.

Definition unlock (s : state) : outcome state :=
  match unlocker s with
  | UUnlock =>
      defined (mutex_unlock 2 (the_mutex s)) (λ '(err, m),
      Next (State (main_pc s) (locker s) UPrint m (Some err) (printed_success s)))
  | UPrint => Next (State (main_pc s) (locker s) UDone (the_mutex s) (unlock_error s) true)
  | _ => Disabled
  end.

(** [init_mutex] and the rest of [main]; [tid_writer] is joined when the first
    thread could not be created, but nothing has been stored in it. *)
Definition main (ok : bool) (s : state) : outcome state :=
  let go m := Next (State m (locker s) (unlocker s) (the_mutex s) (unlock_error s) (printed_success s)) in
  match main_pc s with
  | MInit =>
      Next (State MCreate1 (locker s) (unlocker s) (if ok then Mutex ERRORCHECK None else the_mutex s)
              (unlock_error s) (printed_success s))
  | MCreate1 =>
      if ok then Next (State MCreate2 LLock (unlocker s) (the_mutex s) (unlock_error s) (printed_success s))
      else Undefined
  | MCreate2 =>
      if ok then Next (State MJoin1 (locker s) UUnlock (the_mutex s) (unlock_error s) (printed_success s))
      else go (MExit false)
  | MJoin1 => match locker s with LDone => go MJoin2 | _ => Disabled end
  | MJoin2 => match unlocker s with UDone => go (MExit true) | _ => Disabled end
  | MExit _ => Disabled
  end.

Inductive label : Set := Main (ok : bool) | Lock | Unlock.

(** The threads end with [main]. *)
Definition step (l : label) (s : state) : outcome state :=
  match main_pc s, l with
  | MExit _, _ => Disabled
  | _, Main ok => main ok s
  | _, Lock => lock s
  | _, Unlock => unlock s
  end.

(** Labels whose call works. *)
Definition working (l : label) (s : state) : outcome state :=
  match l with Main false => Disabled | _ => step l s end.

#[global] Instance kind_eq_dec : EqDecision kind.
Proof. solve_decision. Defined.
#[global] Instance mutex_eq_dec : EqDecision mutex.
Proof. solve_decision. Defined.
#[global] Instance lpc_eq_dec : EqDecision lpc.
Proof. solve_decision. Defined.
#[global] Instance upc_eq_dec : EqDecision upc.
Proof. solve_decision. Defined.
#[global] Instance mpc_eq_dec : EqDecision mpc.
Proof. solve_decision. Defined.
#[global] Instance state_eq_dec : EqDecision state.
Proof. solve_decision. Defined.

Definition labels : list label := [Main true; Main false; Lock; Unlock].
(** What the second thread and the end of the program look like. *)
Definition refused (s : state) : bool :=
  forallb (λ l, match working l s with Undefined => false | _ => true end) labels &&
  bool_decide (unlock_error s ≠ Some false) &&
  bool_decide (main_pc s = MExit true → owner (the_mutex s) = Some 1 ∧ printed_success s = true).

Lemma four_labels l : l ∈ labels.
Proof. unfold labels. destruct l as [[]| |]; set_solver. Qed.

(** C36. If all calls work, the second thread's unlocking is refused in every
    interleaving (and it reports success all the same): nothing undefined
    happens, and when the program ends the mutex is still locked. *)
Theorem errorcheck_refuses s :
  reachable working init s →
  (∀ l, working l s ≠ Undefined) ∧ unlock_error s ≠ Some false ∧
  (main_pc s = MExit true → owner (the_mutex s) = Some 1 ∧ printed_success s = true).
Proof.
  intros Hr. assert (refused s = true) as [[H1 H2]%andb_true_iff H3]%andb_true_iff.
  { apply (check_reachable working init labels four_labels 1000); [by vm_compute|done]. }
  apply bool_decide_eq_true_1 in H2, H3. split; [|done]. intros l Hl.
  rewrite forallb_forall in H1. specialize (H1 l (proj1 (list_elem_of_In _ _) (four_labels l))).
  by rewrite Hl in H1.
Qed.

(** A whole run. *)
Lemma errorcheck_refuses_witness :
  ∃ s, run working [Main true; Main true; Lock; Main true; Unlock; Unlock; Lock; Main true; Main true] init = Next s ∧
    main_pc s = MExit true ∧
    ((∀ l, working l s ≠ Undefined) ∧ unlock_error s ≠ Some false ∧
     (main_pc s = MExit true → owner (the_mutex s) = Some 1 ∧ printed_success s = true)).
Proof.
  eexists. split; [vm_compute; reflexivity|]. split; [reflexivity|]. apply errorcheck_refuses.
  eapply (run_reachable _ _ [Main true; Main true; Lock; Main true; Unlock; Unlock; Lock; Main true; Main true]);
    [apply reachable_init|]. reflexivity.
Defined.

(** If [pthread_mutex_init] fails the same program unlocks a normal mutex it
    does not hold. *)
Lemma normal_mutex_undefined :
  run step [Main false; Main true; Lock; Main true; Unlock] init = Undefined.
Proof. reflexivity. Qed.

End ErrorCheck.
