(* ===== verification/HelloDemos.v ===== *)
(** * HelloDemos: libraries, system calls and the shape of a process

    The first exercises of [semestr1]: functions from libraries that are linked
    or loaded ([Libraries], [Task1]), writing without [printf] ([Writing],
    [Task2]) and, from [Task4], the values of variables nobody has set
    ([Variables]), the address of one that is gone ([Locals]), a recursion that
    uses up the stack ([Stack]) and a program that executes itself
    ([SelfExec]).  Each is a function of the answers its calls get. *)
From stdpp Require Import base list numbers.
From iris.prelude Require Import prelude.
From Stdlib Require Import ZArith Ascii.
From S2P Require Import Prelude CString.
#[local] Open Scope Z_scope.

(** ** Task1: libraries *)
Module Libraries.

(** [Task1_1/hello.c], and the libraries of [Task1_2] and [Task1_3] with the
    programs that are linked with them: what is printed. *)
Definition printHello : list string := ["Hello world"%string].
Definition hello_from_static_lib : list string := ["hello_from_static_lib"%string].
Definition hello_from_dynamic_lib : list string := ["hello_from_dynamic_lib"%string].
Definition main_1_1 : list string := printHello.
Definition main_1_2 : list string := hello_from_static_lib ++ printHello.
Definition main_1_3 : list string := hello_from_dynamic_lib ++ printHello.

(** A shared library: what its functions print, by their names. *)
Definition library : Type := string → option (list string).

(** [libhello_from_dynamic_lib.so], built from [Task1_3]. *)
Definition libhello : library := λ name,
  if decide (name = "hello_from_dynamic_lib"%string) then Some hello_from_dynamic_lib else None.

(** The state of the dynamic loader: the message [dlerror] is to give, and how
    many handles are open. *)
Record loader : Type := Loader { dl_error : option string; handles : nat }.

(** [dlopen] finds the file, or has a reason not to. *)
Definition dlopen (file : library + string) (d : loader) : option library * loader :=
  match file with
  | inl lib => (Some lib, Loader (dl_error d) (S (handles d)))
  | inr why => (None, Loader (Some why) (handles d))
  end.

Definition dlsym (lib : library) (name : string) (d : loader) : option (list string) * loader :=
  match lib name with
  | Some f => (Some f, d)
  | None => (None, Loader (Some ("undefined symbol: " +:+ name)%string) (handles d))
  end.

(** [dlerror] gives the message once. *)
Definition dlerror (d : loader) : option string * loader := (dl_error d, Loader None (handles d)).

Definition dlclose (d : loader) : loader := Loader (dl_error d) (pred (handles d)).

(** [printf] with a [%s]; [None] for a null pointer. *)
Definition printf_s (before : string) (arg : option string) : option (list string) :=
  a ← arg; Some [(before +:+ a)%string].

(** [load_lib_run_function]; [None] is undefined. *)
Definition load_lib_run_function (file : library + string) (d : loader) : option (list string * loader) :=
  let '(h, d) := dlopen file d in
  match h with
  | None =>
      let '(e, d) := dlerror d in
      o ← printf_s "dlopen() failed: " e; Some (o, d)
  | Some lib =>
      let '(dyn_print_hello, d) := dlsym lib "hello_from_dynamic_lib" d in
      let '(error, d) := dlerror d in
      match error with
      | Some _ =>
          let '(e, d) := dlerror d in
          o ← printf_s "dlsyn() failed: " e; Some (o, dlclose d)
      | None => o ← dyn_print_hello; Some (o, dlclose d)
      end
  end.

Definition main_1_4 (file : library + string) (d : loader) : option (list string * loader) :=
  r ← load_lib_run_function file d;
  Some (["print_hello"%string; "hello_from_dyn_runtime_lib"%string] ++ r.1, r.2).

(** Whatever the loader finds, [Task1_4] started with nothing wrong leaves no
    handle open; it runs the library's function if there is one, says why the
    library was not opened, and is undefined where it should say that the
    function is missing: the message has been fetched before. *)
Theorem dynamic_hello file n :
  let hello := ["print_hello"%string; "hello_from_dyn_runtime_lib"%string] in
  main_1_4 file (Loader None n) =
  match file with
  | inl lib =>
      match lib "hello_from_dynamic_lib"%string with
      | Some f => Some (hello ++ f, Loader None n)
      | None => None
      end
  | inr why => Some (hello ++ ["dlopen() failed: " +:+ why]%string, Loader None n)
  end.
Proof.
  unfold main_1_4, load_lib_run_function, dlopen, dlsym, dlerror, dlclose, printf_s.
  destruct file as [lib|why]; cbn; [|done]. by destruct (lib "hello_from_dynamic_lib"%string).
Qed.

(** Loaded at run time or linked, the library says the same. *)
Lemma loaded_as_linked d :
  fst <$> load_lib_run_function (inl libhello) (Loader None d) = Some (take 1 main_1_3).
Proof. done. Qed.

End Libraries.

(** ** Task2: write *)
Module Writing.

(** What the kernel answers to a request to write [bytes]: how many it took,
    or an error number, as a negative value. *)
Definition answer_ok (bytes : list ascii) (rax : Z) : Prop := - 4095 ≤ rax ≤ length bytes.
Definition taken (bytes : list ascii) (rax : Z) : list ascii := take (Z.to_nat rax) bytes.

Definition ERROR : Z := -1.

(** [write] and [syscall] of the C library: value and [errno]. *)
Definition libc_write (rax : Z) : Z * option Z :=
  if bool_decide (rax < 0) then (-1, Some (- rax)) else (rax, None).

(** [hello_world.c]; the result of [printf] is not looked at. *)
Definition main_printf (written : Z) : list ascii * bool := (taken (chars "hello world") written, true).

(** [hello_world_write.c], [hello_world_syscall.c]: output, and whether the
    program is successful. *)
Definition main_write (rax : Z) : list ascii * bool :=
  (taken (chars "hello from write") rax, negb (bool_decide ((libc_write rax).1 = ERROR))).
Definition main_syscall (rax : Z) : list ascii * bool :=
  (taken (chars "hello world syscall") rax, negb (bool_decide ((libc_write rax).1 = ERROR))).

(** [my_write] of [hello_world2.c]: the answer is read from [eax], 32 bits. *)
Definition my_write (rax : Z) : Z * option Z :=
  let ret_value := wrap32 rax in
  if bool_decide (ret_value < 0) then (ERROR, Some (wrap32 (- ret_value))) else (ret_value, None).

(** The 14 bytes it asks for: the string and its terminator. *)
Definition buf : list ascii := firstn 14 (chars "hello world!" ++ ["010"%char; NUL]).
Definition main_asm (rax : Z) : list ascii * bool :=
  (taken buf rax, negb (bool_decide ((my_write rax).1 = ERROR))).

(** The system call written in assembly answers like the C library. *)
Theorem my_write_is_write rax :
  answer_ok buf rax → my_write rax = libc_write rax ∧ ((main_asm rax).2 = true ↔ 0 ≤ rax).
Proof.
  unfold answer_ok, my_write, main_asm, libc_write. change (Z.of_nat (length buf)) with 14. intros Hr.
  assert (wrap32 rax = rax) as E by (apply wrap32_id; unfold int_range, INT_MAX; lia).
  assert (rax < 0 → wrap32 (- rax) = - rax) as En
    by (intros ?; apply wrap32_id; unfold int_range, INT_MAX; lia).
  unfold my_write. rewrite E. unfold ERROR. case_bool_decide as Hn.
  - rewrite (En Hn). split; [done|]. cbn. split; [done|lia].
  - split; [done|]. cbn. rewrite bool_decide_false; [|lia]. split; [lia|done].
Qed.

Lemma my_write_is_write_witness :
  answer_ok buf (-9) ∧ (my_write (-9) = libc_write (-9) ∧ ((main_asm (-9)).2 = true ↔ 0 ≤ -9)).
Proof.
  split; [by split; vm_compute|]. apply my_write_is_write. by split; vm_compute.
Defined.

(** The lengths the programs give are the strings' own, but for the last, which
    writes the terminator as well. *)
Lemma written_whole :
  (main_write 16).1 = chars "hello from write" ∧ (main_syscall 19).1 = chars "hello world syscall" ∧
  (main_asm 14).1 = chars "hello world!" ++ ["010"%char; NUL].
Proof. done. Qed.

(** An answer that takes only a part counts as success. *)
Lemma short_write_succeeds : main_write 5 = (chars "hello", true).
Proof. done. Qed.

End Writing.

(** ** Task4_1/variables.c *)
Module Variables.

Definition VALUE : Z := 20.

(** What objects start with: those with static storage are zero. *)
Definition my_global_init : Z := VALUE.
Definition my_global_not_init : Z := 0.
Definition my_global_const : Z := VALUE.

(** The values printed, by name, and whether [sleep] was undisturbed; [junk]: an
    [int] on the stack nobody has set. *)
Definition display_addr_variables (junk ret : Z) : list (string * Z) * bool :=
  let my_local_init := VALUE in
  let my_local_not_init := junk in
  let my_static_init := VALUE in
  let my_static_not_init := 0 in
  let my_const_init := VALUE in
  ([("my_local_init"%string, my_local_init); ("my_local_not_init"%string, my_local_not_init);
    ("my_static_init"%string, my_static_init); ("my_static_not_init"%string, my_static_not_init);
    ("my_const_init"%string, my_const_init); ("global_init"%string, my_global_init);
    ("global_not_init"%string, my_global_not_init); ("global_const"%string, my_global_const)],
   bool_decide (ret = 0)).

(** One value of the eight is not the program's. *)
Lemma one_unknown junk junk' ret i :
  i ≠ 1%nat →
  (display_addr_variables junk ret).1 !! i = (display_addr_variables junk' ret).1 !! i.
Proof. intros Hi. do 8 (destruct i as [|i]; [done|]). done. Qed.

End Variables.

(** ** Task4_1/get_local_variable.c *)
Module Locals.

(** The stack: the local variables of the functions that run, the innermost
    first.  A pointer names a variable by the depth of its function. *)
Definition frames : Type := list (list Z).
Record pointer : Set := Pointer { depth : nat; offset : nat }.

(** Through a pointer; [None] is undefined. *)
Definition load (st : frames) (p : pointer) : option Z :=
  if bool_decide (depth p < length st)%nat then
    f ← st !! (length st - 1 - depth p)%nat; f !! offset p
  else None.

(** Inside the function, and what it returns with the stack it leaves. *)
Definition inside (st : frames) : frames * pointer := ([10] :: st, Pointer (length st) 0).
Definition get_local_variable (st : frames) : frames * pointer :=
  let '(st, p) := inside st in (tail st, p).

(** The address is good for as long as the function runs, and no longer:
    [main], which prints it, must not even use it. *)
Lemma local_variable_dangles st :
  load (inside st).1 (inside st).2 = Some 10 ∧
  load (get_local_variable st).1 (get_local_variable st).2 = None.
Proof.
  unfold load. cbn. rewrite bool_decide_true; [|lia]. rewrite bool_decide_false; [|lia].
  by replace (length st - 0 - length st)%nat with 0%nat by lia.
Qed.

End Locals.

(** ** Task4_2/stack_corupttion.c *)
Module Stack.

Definition SIZE_BUFFER : Z := 4096.

(** How a recursion ends: the stack has no room for the next frame, or [++i]
    overflows. *)
Inductive ending : Set := StackOverflow | IntOverflow.

(** [stack_corruption] with [stack] bytes left, where a call takes [frame] of
    them; the lines printed, and the end. *)
Fixpoint stack_corruption (fuel : nat) (frame stack i : Z) : option (list Z * ending) :=
  match fuel with
  | O => None
  | S fuel =>
      if bool_decide (stack < frame) then Some ([], StackOverflow)
      else if bool_decide (i = INT_MAX) then Some ([], IntOverflow)
      else
        r ← stack_corruption fuel frame (stack - frame) (i + 1);
        Some ((i + 1) :: r.1, r.2)
  end.

(** On every stack and for every frame that holds the buffer the recursion ends,
    never by returning, after at most [stack / SIZE_BUFFER] lines that count up
    from one. *)
Theorem recursion_ends frame stack :
  SIZE_BUFFER ≤ frame → 0 ≤ stack →
  ∃ lines e, stack_corruption (S (Z.to_nat (stack / SIZE_BUFFER))) frame stack 0 = Some (lines, e) ∧
    lines = seqZ 1 (length lines) ∧ length lines ≤ stack / SIZE_BUFFER.
Proof.
  intros Hf Hs. remember (Z.to_nat (stack / SIZE_BUFFER)) as n eqn:En.
  assert (stack / SIZE_BUFFER = n) as Hn by (subst; rewrite Z2Nat.id //; by apply Z.div_pos).
  rewrite Hn. assert (stack < SIZE_BUFFER * (n + 1)) as Hb.
  { rewrite -Hn. pose proof (Z.mul_succ_div_gt stack SIZE_BUFFER eq_refl). lia. }
  clear En Hn.
  enough (∀ i, ∃ lines e, stack_corruption (S n) frame stack i = Some (lines, e) ∧
    lines = seqZ (i + 1) (length lines) ∧ length lines ≤ n) as H by apply (H 0).
  revert stack Hs Hb. induction n as [|n IH]; intros stack Hs Hb i; unfold stack_corruption; fold stack_corruption.
  - rewrite bool_decide_true; [|lia]. exists [], StackOverflow. done.
  - case_bool_decide; [exists [], StackOverflow; split; [done|]; split; [done|cbn; lia]|].
    case_bool_decide; [exists [], IntOverflow; split; [done|]; split; [done|cbn; lia]|].
    destruct (IH (stack - frame) ltac:(lia) ltac:(lia) (i + 1)) as (lines & e & H' & Hl & Hlen).
    unfold stack_corruption in H'; fold stack_corruption in H'.
    exists ((i + 1) :: lines), e. split; [by rewrite H'|]. split; [|cbn; lia].
    cbn [length]. rewrite seqZ_cons; [|lia]. f_equal. rewrite {1}Hl. f_equal; lia.
Qed.

(** A stack of a megabyte, and frames of the buffer's size alone. *)
Lemma recursion_ends_witness :
  SIZE_BUFFER ≤ 4096 ∧
  ∃ lines e, stack_corruption (S (Z.to_nat (2 ^ 20 / SIZE_BUFFER))) 4096 (2 ^ 20) 0 = Some (lines, e) ∧
    lines = seqZ 1 (length lines) ∧ length lines ≤ 2 ^ 20 / SIZE_BUFFER.
Proof. split; [done|]. by apply recursion_ends. Defined.

End Stack.

(** ** Task4_2/execv_task_a.c *)
Module SelfExec.

(** What [execv] answers: nothing if it works, and the program starts again. *)
Fixpoint main (pid : Z) (execv : list bool) : list Z * bool :=
  match execv with
  | [] => ([pid], false)                 (* still executing itself *)
  | true :: rest => let r := main pid rest in (pid :: r.1, r.2)
  | false :: _ => ([pid], true)          (* EXIT_SUCCESS *)
  end.

(** The process keeps its number, and ends only when [execv] fails. *)
Lemma same_process pid n :
  main pid (replicate n true) = (replicate (S n) pid, false) ∧
  main pid (replicate n true ++ [false]) = (replicate (S n) pid, true).
Proof. induction n as [|n [H1 H2]]; [done|]. cbn in *. by rewrite H1 H2. Qed.

End SelfExec.
